(* ===== verification/_CoqProject ===== *)
-Q . S2P
Prelude.v
Bitmap.v
Schema.v
Random.v
TpccRecords.v
TpccKeys.v
TpccTx.v
TpccProfiles.v
TpccStat.v
TpccContract.v
TpccConsistency.v
TpccNewOrder.v
TpccPayment.v
TpccReadOnly.v
TpccDelivery.v
TpccRunner.v
TpccEngine.v
TpccWarehouse.v
Index.v
Ycsb.v
YcsbTx.v
Conc.v
Fair.v
RWLock.v
Latches.v
Barrier.v
Phases.v
Memory.v
RowLatches.v
Txs.v
Run.v
Execution.v
Epoch.v
Termination.v
EpochManager.v
TimestampManager.v
Load.v
CaracalRow.v
Caracal.v
CaracalInit.v
CaracalPhase.v
CaracalEpoch.v
CaracalRun.v
CaracalTermination.v
ServalRow.v
CheetahRow.v
Cheetah.v
Serval.v
ServalInit.v
ServalPhase.v
ServalEpoch.v
ServalRun.v
ServalTermination.v
ServalLoad.v
CaracalLoad.v
CheetahLoad.v
