(* ===== verification/Prelude.v ===== *)
(** * mvdcc: a verification development of three deterministic MVCC protocols

    The repository holds three epoch-based, deterministic multi-version
    concurrency-control protocols (Serval, Caracal and Cheetah), the YCSB
    driver that runs them, the transaction profiles of YCSB and TPC-C, and the
    structures they share.  An epoch has two phases separated by barriers.  In
    the initialisation phase every worker takes its transactions in turn and
    appends, for every update, a PENDING version to the row under the
    transaction's serial number.  In the execution phase the transactions run:
    a read takes the version with the largest serial below its own and waits
    until it is STABLE; a write fills in the version that was appended for it.

    ** Files

    Paths are under [src/].  A file only requires files listed before it in
    [_CoqProject].

    Shared ground:
    - [Prelude]: build options, machine integers, the ways a C++ call can end
      ([outcome]), a state-and-error monad [M] with its weakest precondition
      [wp], vector operations, lists of slots ordered by serial ([insert_slot],
      [visible_before]).
    - [Bitmap] ([utils/bitmap.hpp]), [Schema] ([protocols/common/schema.hpp],
      [transaction_id.hpp], [tidword.hpp]), [Random] ([utils/random.hpp],
      [utils/utils.hpp]).
    - [Index] ([indexes/masstree_wrapper.hpp], [indexes/masstree.hpp]): point
      operations and range scans over the third-party tree, which is the class
      [BasicTable] with laws [BasicTableLaws]; [Indexes] is what the protocols
      see of it.

    TPC-C ([benchmarks/tpcc], [protocols/tpcc_common]):
    - [TpccRecords], [TpccKeys]: records, generators, copies, packed keys.
    - [TpccTx]: configuration, statistics, [TxHelper], and the class
      [Transaction] of the engine's member functions.  [TpccProfiles]: the five
      profiles and [tx_runner.hpp].
    - [TpccContract]: [TransactionLaws], what the profiles rely on, and symbolic
      execution against it.  [TpccConsistency]: the consistency conditions.
    - [TpccNewOrder], [TpccPayment], [TpccReadOnly], [TpccDelivery]: the effect
      of each profile on the database and its refinement.  [TpccStat]: the
      counters, for any engine.  [TpccRunner]: [generate], [run] and
      [run_with_retry].
    - [TpccEngine]: an in-memory engine that keeps the laws; [TpccWarehouse]: a
      full-size consistent warehouse on which the theorems are applied.

    YCSB ([benchmarks/ycsb]):
    - [Ycsb]: configuration and operation sets.  [YcsbTx]: the profiles
      [read_tx.hpp], [update_tx.hpp], [read_modify_write_tx.hpp], [TxHelper] and
      the runner, over an engine with laws.

    Concurrency:
    - [Conc]: programs of atomic actions ([prog]), their schedules
      ([run_schedule]) and a rely-guarantee logic ([rg], [rg_parallel]).
      [Fair]: pools of spinning threads that finish under fair schedules.
    - [RWLock] ([protocols/common/readwritelock.hpp]); [Latches] and
      [RowLatches]: threads that take such latches finish.
    - [Barrier] ([protocols/ycsb_common/rendezvous_barrier.hpp]); [Phases]: any
      number of phases closed by it run one after the other.
    - [EpochManager], [TimestampManager] ([protocols/common]).

    The protocols:
    - [Memory]: the heap of versions and records, the measures of [Stat], and
      the environment [Env] the protocols run in.  [Txs]: the loops over the
      transactions of an epoch.  [Execution], [Epoch], [Termination]: the
      execution phase, what an epoch returns and stores, and that the phase
      ends, each for any protocol with a [read] of the right shape.  [Run]:
      [run_tx] of the executables.  [Load]: what loading leaves in memory.
    - Serval ([protocols/serval], [executables/ycsb_serval.cpp]): [ServalRow]
      ([row_region.hpp], [value.hpp]), [Serval] ([serval.hpp] and the phases),
      [ServalInit] and [ServalPhase] (the initialisation phase under every
      interleaving), [ServalEpoch], [ServalRun] (the threads of [main]),
      [ServalTermination], [ServalLoad] ([ycsb/initializer.hpp]).
    - Caracal ([protocols/caracal], [executables/ycsb_caracal.cpp]): the same
      with [CaracalRow] ([row_buffer.hpp], [value.hpp]), [Caracal],
      [CaracalInit], [CaracalPhase], [CaracalEpoch], [CaracalRun],
      [CaracalTermination], [CaracalLoad].
    - Cheetah ([protocols/cheetah], [executables/ycsb_cheetah.cpp]): [CheetahRow]
      ([rw_bitmaps.hpp], [value.hpp]), [Cheetah] (methods and phases) and
      [CheetahLoad].

    ** What the theorems show

    - Serval and Caracal, whole runs ([ServalRun], [CaracalRun]): 64 threads,
      barriers and phases interleaved in any way, execute the epochs one after
      the other.  Each epoch is stated between the memory that the run itself has
      when the parent opens the barrier before it and the one at the next such
      barrier ([starts_epoch], over the consecutive states [steps_of] of the run),
      and returns and stores what the serial execution of its transactions does.
      In Caracal that is a serial execution over the final states of the epoch
      before.  In Serval a read of a row that the epoch does not write returns the
      row's master version, which is the state before the last epoch that wrote
      the row, so these reads are one writing epoch behind ([shown_before],
      [masters_after]).  Single epochs: [ServalEpoch], [CaracalEpoch];
      initialisation phases: [ServalPhase], [CaracalPhase].  No assertion fails,
      no exception is thrown, nothing is used after it is freed.
    - Progress ([ServalTermination], [CaracalTermination], [Barrier]): every
      epoch and every barrier ends under every fair schedule.
    - Cheetah: the row's bitmaps record its writers whatever the order of
      registration ([CheetahRow]).
    - TPC-C and YCSB profiles: on any engine whose member functions do what their
      names say (the laws; [get_neworder_with_smallest_key_no_less_than] searches
      the whole table) a run ends
      with exactly its effect committed and, for TPC-C, the database
      consistent, or with nothing committed; it is counted once; it never ends
      in [BUG]; [run_with_retry] decides between the two.  Delivery does not look
      at the district of the new order it is given, so its theorem assumes that no
      district is out of new orders while a later one has some ([next_is_own]);
      [another_district_delivered] of [TpccWarehouse] shows what happens else.
    - Sequential components: rows, version arrays, the index, bitmaps,
      generators, records and keys compute what their names promise, on every
      branch.
    - The epoch and timestamp managers keep their workers in step and their
      timestamps increasing under every schedule.

    ** Choices of the model

    - An action of [Conc] is one access to a shared location, or a stretch of
      code that touches only what the worker owns at that moment (the row under
      its latch, its own per-core array): such a stretch commutes with the
      other workers' steps.  Memory is sequentially consistent, as the
      [__ATOMIC_SEQ_CST] accesses of the code are.
    - A failing [assert] of a debug build is [AssertFailed], an exception
      [RuntimeError], an access C++ leaves undefined [UndefinedBehaviour].
    - Ghost fields ([handed_], [holder], [readers] and the barrier's counters)
      never influence a result; regions and buffers are indices into the
      controller's array.

    ** Bounds and fuel

    - Loops of programs are [loop]s, run for as long as the schedule lasts: a
      safety theorem covers runs that spin for ever, and a termination theorem
      bounds the rounds of a fair schedule, linearly in the transactions,
      writes and operations of an epoch and by 258 rounds per barrier.
    - [OutOfFuel] is the end of a sequential loop's bound or of a list of
      draws.  It is excluded or characterised where it can occur: [attempts] of
      [run_with_retry] runs out only if every run ends in [SYSTEM_ABORT] or
      exhausts its own bound; that bound, [spins] of the draw of a remote
      warehouse, only if one of the first [draws] states of the generator is
      followed by [spins] draws of the home warehouse; and the YCSB theorems say
      how many draws are enough.
    - Serval's epochs have 4096 transactions, 64 per core; at most NUM_REGIONS rows
      are ever written; and unless [NDEBUG], no row is written by all 64
      transactions of a core in one epoch ([write_room]), for which the last
      assertion of [PerCoreVersionArray::append] would fail.  Caracal's epochs have
      fewer than 4160 transactions, a buffer has room for a slot, and there are 64
      buffers more than rows that are ever written.
    - Order numbers, timestamps and counters have the width they have in the
      code; theorems that need room for them say how much ([room] in the TPC-C
      consistency conditions, 2^56 in [TimestampManager]).

    ** Not modelled

    - The transaction engines of TPC-C, its loader and its executables are not
      in the repository, and those of YCSB ([protocols/*/ycsb/transaction.hpp])
      are commented out: they are the classes [Transaction].
    - The Zipf generator and other floating-point code (keys are drawn, and
      doubles computed, by parameters); the third-party tree.
    - [major_gc.hpp], whose calls are commented out.
    - NUMA pinning, performance counters, clocks, logging ([LOG_TRACE], [print],
      [abort_reason]), result files, [print_database], the allocator (every
      allocation succeeds), test programs.
    - Whole epochs of Cheetah: its methods and phases are defined and its rows
      verified, but no theorem speaks of an epoch. *)
From Stdlib Require Export ZArith Lia.
From Stdlib Require Export Sorting.Sorted.
From stdpp Require Export base tactics gmap sets strings numbers.
From stdpp Require Export list.

#[global] Open Scope Z_scope.

(** ** Build configuration

    The CMake options the sources read as macros ([CMakeLists.txt]:
    [-DNDEBUG] in the Release build, [MAX_SLOTS_OF_PER_CORE_BUFFER],
    [NUM_TXS_IN_ONE_EPOCH]).  The theorems quantify over them; those about phases
    and epochs of Serval and Caracal assume bounds on them ([program_ok],
    [epoch_txs_ok]), which the header above lists. *)
Class BuildConfig := {
  NDEBUG : bool;
  MAX_SLOTS_OF_PER_CORE_BUFFER : Z;
  NUM_TXS_IN_ONE_EPOCH : Z
}.

(** A debug build with the default options, for concrete runs. *)
Definition debug_build : BuildConfig :=
  {| NDEBUG := false; MAX_SLOTS_OF_PER_CORE_BUFFER := 4; NUM_TXS_IN_ONE_EPOCH := 4096 |}.

(** ** Machine integers *)
Definition u64 (z : Z) : Z := z mod 2 ^ 64.
(** The keys of the index are 64-bit. *)
Definition is_key (k : Z) : Prop := 0 <= k < 2 ^ 64.
Definition i32 (z : Z) : Z := (z + 2 ^ 31) mod 2 ^ 32 - 2 ^ 31.
Definition i64 (z : Z) : Z := (z + 2 ^ 63) mod 2 ^ 64 - 2 ^ 63.

(** ** Outcomes: how a C++ call can end *)
Inductive error : Type :=
| AssertFailed                       (* an [assert] of a debug build *)
| UndefinedBehaviour                 (* null or dangling access, out of range, bad shift *)
| RuntimeError (msg : string)        (* [throw std::runtime_error(msg)] *)
| OutOfFuel.                         (* a loop bound of the model was too small *)

Inductive outcome (A : Type) : Type :=
| Ok (a : A)
| Err (e : error).
Arguments Ok {A} a.
Arguments Err {A} e.

#[export] Instance outcome_ret : MRet outcome := @Ok.
#[export] Instance outcome_bind : MBind outcome :=
  fun A B f o => match o with Ok a => f a | Err e => Err e end.

Definition assert_ `{BuildConfig} (b : bool) : outcome unit :=
  if NDEBUG then Ok tt else if b then Ok tt else Err AssertFailed.

(** An assertion whose condition calls functions: not evaluated in a release build. *)
Definition assert_that `{BuildConfig} (o : outcome bool) : outcome unit :=
  if NDEBUG then Ok tt else match o with Ok b => assert_ b | Err e => Err e end.

(** ** State and error monad *)
Definition M (S A : Type) : Type := S -> outcome (A * S).

#[export] Instance M_ret {S} : MRet (M S) := fun A a s => Ok (a, s).
#[export] Instance M_bind {S} : MBind (M S) :=
  fun A B f m s => match m s with Ok (a, s') => f a s' | Err e => Err e end.

Definition lift {S A} (o : outcome A) : M S A :=
  fun s => match o with Ok a => Ok (a, s) | Err e => Err e end.
Definition getM {S} : M S S := fun s => Ok (s, s).
Definition putM {S} (s' : S) : M S unit := fun _ => Ok (tt, s').
Definition failM {S A} (e : error) : M S A := fun _ => Err e.

(** Left-to-right loop over a list, as a range-for. *)
Fixpoint forM {S A B} (l : list A) (f : A -> M S B) : M S (list B) :=
  match l with
  | [] => mret []
  | x :: l' => y ← f x; ys ← forM l' f; mret (y :: ys)
  end.

(** Pointer or index access that is undefined when absent. *)
Definition deref {A} (o : option A) : outcome A :=
  match o with Some a => Ok a | None => Err UndefinedBehaviour end.

(** ** Total-correctness predicates: no error, and the result satisfies [Q] *)
Definition wpo {A} (o : outcome A) (Q : A -> Prop) : Prop :=
  match o with Ok a => Q a | Err _ => False end.
Definition wp {S A} (m : M S A) (Q : A -> S -> Prop) (s : S) : Prop :=
  match m s with Ok (a, s') => Q a s' | Err _ => False end.

(** ** Vectors and [<algorithm>] *)

(** [std::upper_bound] on a random-access range: the bisection of the
    standard library, [comp x] standing for [comp(value, x)]. *)
Fixpoint upper_bound_loop {A} (fuel : nat) (comp : A -> bool) (l : list A)
    (first len : nat) : nat :=
  match fuel with
  | O => first
  | S fuel' =>
      match len with
      | O => first
      | _ =>
          let half := Nat.div len 2 in
          match l !! (first + half)%nat with
          | Some x => if comp x then upper_bound_loop fuel' comp l first half
                      else upper_bound_loop fuel' comp l (first + half + 1) (len - half - 1)
          | None => first
          end
      end
  end.

Definition upper_bound {A} (comp : A -> bool) (l : list A) : nat :=
  upper_bound_loop (S (length l)) comp l 0 (length l).

(** [v.insert(v.begin() + i, x)]: undefined outside [0, v.size()]. *)
Definition vector_insert {A} (l : list A) (i : nat) (x : A) : outcome (list A) :=
  if decide (i <= length l)%nat then Ok (take i l ++ x :: drop i l) else Err UndefinedBehaviour.

(** [v.back()] and [v.pop_back()]: undefined on an empty vector. *)
Definition vector_back {A} (l : list A) : outcome A := deref (last l).
Definition vector_pop_back {A} (l : list A) : outcome (list A) :=
  match l with [] => Err UndefinedBehaviour | _ => Ok (take (length l - 1) l) end.

(** ** Versioned slots: the abstract view of a row's history

    A list of (identifier, payload) pairs in strictly ascending identifier
    order; [visible_before] is what a reader with identifier [id] must see. *)
Definition ids {A} (l : list (Z * A)) : list Z := l.*1.
Definition ascending {A} (l : list (Z * A)) : Prop := StronglySorted Z.lt (ids l).
Definition visible_before {A} (id : Z) (l : list (Z * A)) : option (Z * A) :=
  last (filter (fun p => p.1 < id) l).
(** Insertion in identifier order. *)
Fixpoint insert_slot {A} (p : Z * A) (l : list (Z * A)) : list (Z * A) :=
  match l with
  | [] => [p]
  | q :: l' => if decide (p.1 < q.1) then p :: q :: l' else q :: insert_slot p l'
  end.

(** ** Lemmas: outcomes and the monad *)
Create HintDb mvdcc.

Lemma bind_Ok {A B} (a : A) (f : A -> outcome B) : (Ok a ≫= f) = f a.
Proof. reflexivity. Qed.

Lemma wpo_Ok {A} (a : A) (Q : A -> Prop) : Q a -> wpo (Ok a) Q.
Proof. done. Qed.

Lemma wpo_bind {A B} (o : outcome A) (f : A -> outcome B) Q :
  wpo (o ≫= f) Q <-> wpo o (fun a => wpo (f a) Q).
Proof. by destruct o. Qed.

Lemma wpo_mono {A} (o : outcome A) (P Q : A -> Prop) :
  wpo o P -> (forall a, P a -> Q a) -> wpo o Q.
Proof. destruct o; naive_solver. Qed.

Lemma wpo_elim {A} (o : outcome A) Q : wpo o Q -> exists a, o = Ok a /\ Q a.
Proof. destruct o; naive_solver. Qed.

Lemma wpo_eq {A} (o : outcome A) a : o = Ok a -> wpo o (fun x => x = a).
Proof. by intros ->. Qed.

Lemma wpo_assert `{BuildConfig} b Q : b = true -> Q tt -> wpo (assert_ b) Q.
Proof. intros -> ?. unfold assert_. by destruct NDEBUG. Qed.

Lemma assert_true `{BuildConfig} b : b = true -> assert_ b = Ok tt.
Proof. intros ->. unfold assert_. by destruct NDEBUG. Qed.

Lemma assert_ok `{BuildConfig} b : NDEBUG = true \/ b = true -> assert_ b = Ok tt.
Proof. intros [Hn| ->]; unfold assert_; [by rewrite Hn|by destruct NDEBUG]. Qed.

Lemma assert_that_true `{BuildConfig} o : o = Ok true -> assert_that o = Ok tt.
Proof. intros ->. unfold assert_that. destruct NDEBUG; [done|by apply assert_true]. Qed.

Lemma wp_ret {S A} (a : A) Q (s : S) : Q a s -> wp (mret a) Q s.
Proof. done. Qed.

Lemma wp_bind {S A B} (m : M S A) (f : A -> M S B) Q s :
  wp (m ≫= f) Q s <-> wp m (fun a s' => wp (f a) Q s') s.
Proof. unfold wp, mbind, M_bind. by destruct (m s) as [[]|]. Qed.

Lemma wp_mono {S A} (m : M S A) (P Q : A -> S -> Prop) s :
  wp m P s -> (forall a s', P a s' -> Q a s') -> wp m Q s.
Proof. unfold wp. destruct (m s) as [[]|]; naive_solver. Qed.

Lemma wp_lift {S A} (o : outcome A) Q (s : S) : wp (lift o) Q s <-> wpo o (fun a => Q a s).
Proof. unfold wp, lift. by destruct o. Qed.

Lemma wp_get {S} Q (s : S) : Q s s -> wp getM Q s.
Proof. done. Qed.

Lemma wp_put {S} (s' : S) Q s : Q tt s' -> wp (putM s') Q s.
Proof. done. Qed.

Lemma wp_elim {S A} (m : M S A) Q s : wp m Q s -> exists a s', m s = Ok (a, s') /\ Q a s'.
Proof. unfold wp. destruct (m s) as [[]|]; naive_solver. Qed.

Lemma wp_eq {S A} (m : M S A) Q s a s' : m s = Ok (a, s') -> wp m Q s -> Q a s'.
Proof. unfold wp. by intros ->. Qed.

Lemma bindM_Ok {S A B} (m : M S A) (f : A -> M S B) s a s' :
  m s = Ok (a, s') -> (m ≫= f) s = f a s'.
Proof. unfold mbind, M_bind. by intros ->. Qed.

(** Loop rule: an invariant indexed by the results produced so far. *)
Lemma wp_forM {S A B} (l : list A) (f : A -> M S B) (I : list B -> list A -> S -> Prop) Q s :
  I [] l s ->
  (forall done x rest s', I done (x :: rest) s' ->
     wp (f x) (fun y s'' => I (done ++ [y]) rest s'') s') ->
  (forall done s', I done [] s' -> Q done s') ->
  wp (forM l f) Q s.
Proof.
  intros HI Hstep HQ.
  assert (H : forall acc s, I acc l s -> wp (forM l f) (fun ys s' => I (acc ++ ys) [] s') s).
  { clear s HI HQ. induction l as [|x l IH]; intros acc s HI; simpl.
    - apply wp_ret. by rewrite app_nil_r.
    - apply wp_bind. eapply wp_mono; [eapply Hstep; exact HI|]. intros y s' HI'. simpl.
      apply wp_bind. eapply wp_mono; [eapply IH; exact HI'|]. intros ys s'' HI''.
      apply wp_ret. cbn beta in HI''. by rewrite <- app_assoc in HI''. }
  eapply wp_mono; [apply H; exact HI|]. naive_solver.
Qed.

(** Symbolic execution of a [wp]/[wpo] goal through binds, returns and lifts. *)
Ltac wp_step :=
  lazymatch goal with
  | |- wp (mret _) _ _ => apply wp_ret
  | |- wp (_ ≫= _) _ _ => apply wp_bind
  | |- wp (lift _) _ _ => apply wp_lift
  | |- wp getM _ _ => apply wp_get
  | |- wp (putM _) _ _ => apply wp_put
  | |- wpo (mret _) _ => apply wpo_Ok
  | |- wpo (Ok _) _ => apply wpo_Ok
  | |- wpo (_ ≫= _) _ => apply wpo_bind
  | |- wpo (assert_ _) _ => apply wpo_assert
  end; cbn beta.

Ltac wp_steps := repeat wp_step.

(** ** Lemmas: vectors and sorted slots *)

Lemma upper_bound_loop_spec {A} (comp : A -> bool) (l1 l2 : list A) fuel first len :
  Forall (fun x => comp x = false) l1 -> Forall (fun x => comp x = true) l2 ->
  (first <= length l1 <= first + len)%nat -> (first + len <= length (l1 ++ l2))%nat ->
  (len < fuel)%nat ->
  upper_bound_loop fuel comp (l1 ++ l2) first len = length l1.
Proof.
  intros H1 H2. revert first len.
  induction fuel as [|fuel IH]; intros first len Hb Hl Hf; [lia|].
  destruct len as [|len']; cbn [upper_bound_loop]; [lia|].
  set (half := (Nat.div (S len') 2)).
  assert (Hh : (half < S len')%nat) by (apply Nat.div_lt; lia).
  fold half. destruct ((l1 ++ l2) !! (first + half)%nat) as [x|] eqn:Hx.
  2:{ apply lookup_ge_None in Hx. lia. }
  destruct (comp x) eqn:Hc.
  - apply IH; try lia.
    destruct (decide (first + half < length l1)%nat) as [Hlt|]; [|lia].
    rewrite lookup_app_l in Hx by done. rewrite Forall_lookup in H1.
    apply H1 in Hx. congruence.
  - apply IH; try lia.
    destruct (decide (first + half < length l1)%nat) as [|Hge]; [lia|].
    rewrite lookup_app_r in Hx by lia. rewrite Forall_lookup in H2.
    apply H2 in Hx. congruence.
Qed.

(** On a partitioned range the bisection finds the partition point. *)
Lemma upper_bound_app {A} (comp : A -> bool) (l1 l2 : list A) :
  Forall (fun x => comp x = false) l1 -> Forall (fun x => comp x = true) l2 ->
  upper_bound comp (l1 ++ l2) = length l1.
Proof.
  intros H1 H2. unfold upper_bound. rewrite length_app.
  apply upper_bound_loop_spec; rewrite ?length_app; auto; lia.
Qed.

Lemma ascending_nil {A} : ascending (@nil (Z * A)).
Proof. constructor. Qed.

Lemma ascending_cons {A} (p : Z * A) l :
  ascending (p :: l) <-> ascending l /\ Forall (fun q => p.1 < q.1) l.
Proof.
  unfold ascending, ids. simpl. split.
  - intros H. inversion H; subst. split; [done|]. by rewrite Forall_fmap in *.
  - intros [? H]. constructor; [done|]. by rewrite Forall_fmap.
Qed.

Lemma filter_lt_none {A} (id : Z) (l : list (Z * A)) :
  Forall (fun q => id <= q.1) l -> filter (fun p => p.1 < id) l = [].
Proof.
  induction 1 as [|q l Hq _ IH]; [done|]. rewrite filter_cons_False; [done|lia].
Qed.

(** An ascending list splits at any identifier. *)
Lemma ascending_split {A} (id : Z) (l : list (Z * A)) :
  ascending l ->
  l = filter (fun p => p.1 < id) l ++ filter (fun p => id <= p.1) l.
Proof.
  induction l as [|p l IH]; [done|]. intros [Hl Hp]%ascending_cons.
  destruct (decide (p.1 < id)).
  - rewrite filter_cons_True by done. rewrite (filter_cons_False _ p) by lia.
    simpl. by rewrite <- IH.
  - rewrite filter_lt_none.
    2:{ constructor; [lia|]. eapply Forall_impl; [exact Hp|]. simpl. lia. }
    rewrite filter_cons_True by lia. simpl. f_equal.
    rewrite (IH Hl) at 1. rewrite filter_lt_none; [done|].
    eapply Forall_impl; [exact Hp|]. simpl. lia.
Qed.

Lemma insert_slot_app {A} (p : Z * A) l1 l2 :
  Forall (fun q => q.1 <= p.1) l1 -> Forall (fun q => p.1 < q.1) l2 ->
  insert_slot p (l1 ++ l2) = l1 ++ p :: l2.
Proof.
  induction 1 as [|q l1 Hq _ IH]; intros H2; simpl.
  - destruct l2 as [|q l2]; [done|]. simpl. inversion H2; subst. by rewrite decide_True.
  - rewrite decide_False by lia. by rewrite IH.
Qed.

Lemma vector_insert_length {A} (l1 l2 : list A) x :
  vector_insert (l1 ++ l2) (length l1) x = Ok (l1 ++ x :: l2).
Proof.
  unfold vector_insert. rewrite decide_True by (rewrite length_app; lia).
  by rewrite take_app_length, drop_app_length.
Qed.

(** [upper_bound] + [insert] with [first < element.first] inserts in order. *)
Lemma upper_bound_insert {A} (p : Z * A) l :
  ascending l ->
  vector_insert l (upper_bound (fun q => p.1 <? q.1) l) p = Ok (insert_slot p l).
Proof.
  intros Hl. rewrite (ascending_split (p.1 + 1) l Hl).
  set (l1 := filter _ l). set (l2 := filter _ l).
  assert (H1 : Forall (fun q => q.1 <= p.1) l1).
  { apply Forall_forall. intros q [? _]%list_elem_of_filter. lia. }
  assert (H2 : Forall (fun q => p.1 < q.1) l2).
  { apply Forall_forall. intros q [? _]%list_elem_of_filter. lia. }
  rewrite upper_bound_app; [|eapply Forall_impl; [exact H1|]; simpl; lia
    |eapply Forall_impl; [exact H2|]; simpl; lia].
  by rewrite vector_insert_length, insert_slot_app.
Qed.

(** [upper_bound] with [id <= element.first] finds the first slot not below [id]. *)
Lemma upper_bound_visible {A} (id : Z) (l : list (Z * A)) :
  ascending l ->
  upper_bound (fun q => id <=? q.1) l = length (filter (fun p => p.1 < id) l).
Proof.
  intros Hl. rewrite (ascending_split id l Hl) at 1. apply upper_bound_app.
  - apply Forall_forall. intros q [? _]%list_elem_of_filter. lia.
  - apply Forall_forall. intros q [? _]%list_elem_of_filter. lia.
Qed.

Lemma visible_before_lookup {A} (id : Z) (l : list (Z * A)) :
  ascending l ->
  l !! pred (length (filter (fun p => p.1 < id) l)) = visible_before id l \/
  filter (fun p => p.1 < id) l = [].
Proof.
  intros Hl. unfold visible_before. pose proof (ascending_split id l Hl) as Hs.
  set (f := filter (fun p => p.1 < id) l) in *. set (g := filter _ l) in Hs.
  destruct (decide (f = [])) as [|Hne]; [by right|left].
  rewrite Hs, lookup_app_l, last_lookup; [done|].
  destruct f; simpl in *; [done|lia].
Qed.

Lemma elem_of_insert_slot {A} (p q : Z * A) l : q ∈ insert_slot p l <-> q = p \/ q ∈ l.
Proof.
  induction l as [|r l IH]; simpl; [by rewrite list_elem_of_singleton, elem_of_nil; tauto|].
  case_decide; rewrite !elem_of_cons, ?IH; tauto.
Qed.

Lemma insert_slot_ascending {A} (p : Z * A) l :
  ascending l -> p.1 ∉ ids l -> ascending (insert_slot p l).
Proof.
  induction l as [|q l IH]; simpl; intros Hl Hn.
  - apply ascending_cons. split; [constructor|constructor].
  - pose proof Hl as [Hl' Hq]%ascending_cons. apply not_elem_of_cons in Hn as [Hne Hn].
    case_decide.
    + apply ascending_cons. split; [done|]. constructor; [done|].
      eapply Forall_impl; [exact Hq|]. simpl. lia.
    + apply ascending_cons. split; [by apply IH|].
      apply Forall_forall. intros r [->|Hr]%elem_of_insert_slot; [lia|].
      by eapply Forall_forall in Hq.
Qed.

(** Appending past the last identifier keeps the order. *)
Lemma ascending_snoc {A} (l : list (Z * A)) p :
  ascending l -> Forall (fun q => q.1 < p.1) l -> ascending (l ++ [p]).
Proof.
  induction l as [|q l IH]; simpl; intros Hl Hf.
  - apply ascending_cons. split; constructor.
  - apply ascending_cons in Hl as [Hl Hq]. apply ascending_cons.
    inversion Hf; subst. split; [by apply IH|]. apply Forall_app. split; [done|]. by constructor.
Qed.

Lemma ascending_app {A} (l1 l2 : list (Z * A)) :
  ascending (l1 ++ l2) <->
  ascending l1 /\ ascending l2 /\ Forall (fun p => Forall (fun q => p.1 < q.1) l2) l1.
Proof.
  induction l1 as [|p l1 IH]; simpl.
  - split; [intros ?; split; [constructor|split; [done|constructor]]|tauto].
  - rewrite !ascending_cons, IH, Forall_cons, Forall_app. tauto.
Qed.

(** The reader's view is the greatest identifier below its own. *)
Lemma visible_before_spec {A} (id : Z) (l : list (Z * A)) p :
  ascending l ->
  visible_before id l = Some p <->
  p ∈ l /\ p.1 < id /\ forall q, q ∈ l -> q.1 < id -> q.1 <= p.1.
Proof.
  intros Hl. unfold visible_before.
  pose proof (ascending_split id l Hl) as Hs.
  set (f := filter (fun p => p.1 < id) l) in *.
  assert (Hf : forall q, q ∈ f <-> q.1 < id /\ q ∈ l) by (intros; unfold f; by rewrite list_elem_of_filter).
  assert (Ha : ascending f) by (rewrite Hs in Hl; by apply ascending_app in Hl as []).
  split.
  - intros [f' Hlast]%last_Some. rewrite Hlast in Ha.
    apply ascending_app in Ha as (_ & _ & Hlt).
    assert (p ∈ f) as [? ?]%Hf by (rewrite Hlast; set_solver).
    split; [done|]. split; [done|]. intros q Hq Hqid.
    assert (q ∈ f) as Hqf by (apply Hf; done). rewrite Hlast in Hqf.
    apply elem_of_app in Hqf as [Hqf|Hqf].
    + rewrite Forall_forall in Hlt. apply Hlt in Hqf. inversion Hqf; subst. lia.
    + apply list_elem_of_singleton in Hqf as ->. lia.
  - intros (Hp & Hid & Hmax).
    assert (p ∈ f) as Hpf by (apply Hf; done).
    destruct (last f) as [q|] eqn:Hq.
    2:{ apply last_None in Hq. rewrite Hq in Hpf. by apply not_elem_of_nil in Hpf. }
    f_equal. apply last_Some in Hq as [f' Hq]. rewrite Hq in Hpf, Ha.
    apply ascending_app in Ha as (_ & _ & Hlt).
    apply elem_of_app in Hpf as [Hpf|Hpf]; [|by apply list_elem_of_singleton in Hpf].
    rewrite Forall_forall in Hlt. apply Hlt in Hpf. inversion Hpf; subst.
    assert (q ∈ f) as [Hqid Hql]%Hf by (rewrite Hq; set_solver).
    specialize (Hmax q Hql Hqid). lia.
Qed.

Lemma visible_before_None {A} (id : Z) (l : list (Z * A)) :
  visible_before id l = None <-> Forall (fun q => id <= q.1) l.
Proof.
  unfold visible_before. rewrite last_None. split.
  - intros H. apply Forall_forall. intros q Hq.
    destruct (decide (id <= q.1)); [done|exfalso].
    assert (q ∈ filter (fun p => p.1 < id) l) as Hin by (apply list_elem_of_filter; split; [lia|done]).
    rewrite H in Hin. by apply not_elem_of_nil in Hin.
  - apply filter_lt_none.
Qed.

(** Strictly ascending lists of integers. *)
Lemma sorted_filter (P : Z -> Prop) `{!forall x, Decision (P x)} (l : list Z) :
  StronglySorted Z.lt l -> StronglySorted Z.lt (filter P l).
Proof.
  induction 1 as [|x l Hl IH Hx]; [constructor|].
  destruct (decide (P x)).
  - rewrite filter_cons_True by done. constructor; [done|].
    apply Forall_forall. intros y [_ Hy]%list_elem_of_filter. by eapply Forall_forall in Hx.
  - by rewrite filter_cons_False.
Qed.

Lemma sorted_seqZ a n : StronglySorted Z.lt (seqZ a n).
Proof.
  destruct (decide (n < 0)) as [|Hn]; [rewrite seqZ_nil by lia; constructor|].
  replace n with (Z.of_nat (Z.to_nat n)) by lia.
  generalize (Z.to_nat n) as k. clear n Hn. intros k. revert a.
  induction k as [|k IH]; intros a; [constructor|].
  rewrite seqZ_cons by lia. constructor.
  - replace (Z.pred (Z.of_nat (S k))) with (Z.of_nat k) by lia. apply IH.
  - apply Forall_forall. intros x Hx%elem_of_seqZ. lia.
Qed.

Lemma sorted_app_lt (l1 l2 : list Z) x y :
  StronglySorted Z.lt (l1 ++ l2) -> x ∈ l1 -> y ∈ l2 -> x < y.
Proof.
  induction l1 as [|z l1 IH]; simpl; intros Hs Hx Hy; [by apply not_elem_of_nil in Hx|].
  inversion Hs as [|? ? Hs' Hz]; subst. apply elem_of_cons in Hx as [->|Hx]; [|by apply IH].
  rewrite Forall_forall in Hz. apply Hz. apply elem_of_app. by right.
Qed.

Lemma sorted_last (l : list Z) x :
  StronglySorted Z.lt l -> last l = Some x <-> x ∈ l /\ forall y, y ∈ l -> y <= x.
Proof.
  intros Hs. split.
  - intros [l' ->]%last_Some. split; [set_solver|].
    intros y [Hy|Hy]%elem_of_app; [|set_solver].
    pose proof (sorted_app_lt _ _ y x Hs Hy). set_solver by lia.
  - intros [Hx Hmax]. destruct (last l) as [y|] eqn:Hl.
    + apply last_Some in Hl as [l' ->]. f_equal.
      apply elem_of_app in Hx as [Hx|Hx]; [|set_solver].
      assert (x < y) by (apply (sorted_app_lt _ _ x y Hs); set_solver).
      assert (y <= x) by (apply Hmax; set_solver). lia.
    + apply last_None in Hl as ->. by apply not_elem_of_nil in Hx.
Qed.

Lemma sorted_snoc (l : list Z) x :
  StronglySorted Z.lt l -> Forall (fun y => y < x) l -> StronglySorted Z.lt (l ++ [x]).
Proof.
  induction 1 as [|y l Hl IH Hy]; intros Hx; simpl; [repeat constructor|].
  inversion Hx; subst. constructor; [by apply IH|]. apply Forall_app. split; [done|by constructor].
Qed.

(** A strictly ascending list is determined by its elements. *)
Lemma sorted_ext (l1 l2 : list Z) :
  StronglySorted Z.lt l1 -> StronglySorted Z.lt l2 -> (forall x, x ∈ l1 <-> x ∈ l2) -> l1 = l2.
Proof.
  intros H1. revert l2. induction H1 as [|x l1 Hl1 IH Hx]; intros l2 H2 Heq.
  - destruct l2 as [|y l2]; [done|]. specialize (Heq y). set_solver.
  - destruct H2 as [|y l2 Hl2 Hy]; [specialize (Heq x); set_solver|].
    rewrite Forall_forall in Hx, Hy.
    assert (x = y) as ->.
    { assert (x ∈ y :: l2) as [->|?%Hy]%elem_of_cons by (apply Heq; set_solver); [done|].
      assert (y ∈ x :: l1) as [->|?%Hx]%elem_of_cons by (apply Heq; set_solver); [done|]. lia. }
    f_equal. apply IH; [done|]. intros z. split; intros Hz.
    + assert (z ∈ y :: l2) as [->|]%elem_of_cons by (apply Heq; set_solver); [|done].
      apply Hx in Hz. lia.
    + assert (z ∈ y :: l1) as [->|]%elem_of_cons by (apply Heq; set_solver); [|done].
      apply Hy in Hz. lia.
Qed.

Lemma filter_all {A} (P : A -> Prop) `{!forall x, Decision (P x)} (l : list A) :
  Forall P l -> filter P l = l.
Proof. induction 1 as [|x l Hx _ IH]; [done|]. by rewrite filter_cons_True, IH. Qed.

Lemma filter_none {A} (P : A -> Prop) `{!forall x, Decision (P x)} (l : list A) :
  Forall (fun x => ~ P x) l -> filter P l = [].
Proof. induction 1 as [|x l Hx _ IH]; [done|]. by rewrite filter_cons_False, IH. Qed.

(** Discharge the outermost assertion of an [outcome] computation. *)
Tactic Notation "run_assert" "by" tactic3(tac) :=
  match goal with
  | |- context [mbind _ (assert_ ?b)] => rewrite (assert_true b) by tac; simpl
  end.

(** The same without [simpl], where the rest of the computation is large. *)
Tactic Notation "pass_assert" "by" tactic3(tac) :=
  match goal with
  | |- context [mbind _ (assert_ ?b)] => rewrite (assert_true b) by tac; rewrite bind_Ok
  end.

Lemma sorted_fmap (f : Z -> Z) (l : list Z) :
  (forall x y, x < y -> f x < f y) -> StronglySorted Z.lt l -> StronglySorted Z.lt (f <$> l).
Proof.
  intros Hf. induction 1 as [|x l Hl IH Hx]; csimpl; constructor; [done|].
  apply Forall_fmap. eapply Forall_impl; [exact Hx|]. intros y Hy. by apply Hf.
Qed.

Lemma StronglySorted_lookup_lt {A} (R : A -> A -> Prop) (l : list A) i j x y :
  StronglySorted R l -> (i < j)%nat -> l !! i = Some x -> l !! j = Some y -> R x y.
Proof.
  intros Hs. revert i j. induction Hs as [|z l Hs IH Hz]; intros [|i] [|j] Hij Hi Hj; simplify_eq/=; try lia.
  - rewrite Forall_forall in Hz. by eapply Hz, list_elem_of_lookup_2.
  - apply (IH i j); [lia|done..].
Qed.

Lemma filter_lt_bound (x : Z) (l : list Z) : Forall (fun y => x <= y) l -> filter (fun y => y < x) l = [].
Proof. induction 1 as [|y l Hy _ IH]; [done|]. rewrite filter_cons_False; [done|lia]. Qed.

(** The elements of a sorted list up to its [i]th are its first [i+1]. *)
Lemma sorted_prefix (l : list Z) i x :
  StronglySorted Z.lt l -> l !! i = Some x -> filter (fun y => y < x + 1) l = take (S i) l.
Proof.
  intros Hs Hi. rewrite <- (take_drop (S i) l) at 1. rewrite filter_app.
  rewrite <- (take_drop_middle l i x Hi) in Hs at 1. rewrite (take_S_r _ _ _ Hi).
  assert (Hd : Forall (fun y => x < y) (drop (S i) l)).
  { apply Forall_forall. intros y Hy. rewrite (cons_middle x) in Hs.
    rewrite app_assoc in Hs. apply (sorted_app_lt _ _ x y Hs); set_solver. }
  assert (Ht : Forall (fun y => y < x) (take i l)).
  { apply Forall_forall. intros y Hy. apply (sorted_app_lt _ _ y x Hs); set_solver. }
  rewrite filter_app, (filter_all _ (take i l)).
  2:{ eapply Forall_impl; [exact Ht|]. simpl. lia. }
  assert (Hnil : filter (fun y => y < x + 1) (drop (S i) l) = []).
  { revert Hd. generalize (drop (S i) l). clear. induction 1 as [|y d Hy _ IH]; [done|].
    rewrite filter_cons_False by lia. apply IH. }
  rewrite Hnil, filter_cons_True, app_nil_r by lia. done.
Qed.

(** Insertion into a sorted list of integers. *)
Fixpoint insert_sorted (x : Z) (l : list Z) : list Z :=
  match l with
  | [] => [x]
  | y :: l' => if decide (x < y) then x :: l else y :: insert_sorted x l'
  end.

Lemma insert_sorted_app x l1 l2 :
  Forall (fun y => y < x) l1 -> Forall (fun y => x < y) l2 -> insert_sorted x (l1 ++ l2) = l1 ++ x :: l2.
Proof.
  induction 1 as [|y l1 Hy _ IH]; intros H2; simpl.
  - destruct l2 as [|y l2]; [done|]. apply Forall_cons in H2 as [Hy _]. simpl. by rewrite decide_True.
  - rewrite decide_False by lia. by rewrite IH.
Qed.

Lemma insert_sorted_sorted x l :
  StronglySorted Z.lt l -> x ∉ l -> StronglySorted Z.lt (insert_sorted x l).
Proof.
  induction 1 as [|y l Hl IH Hy]; intros Hx; simpl; [repeat constructor|].
  apply not_elem_of_cons in Hx as [Hne Hx]. case_decide.
  - constructor; [by constructor|]. constructor; [done|]. eapply Forall_impl; [exact Hy|]. simpl. lia.
  - constructor; [by apply IH|]. apply Forall_forall. rewrite Forall_forall in Hy. intros z Hz.
    assert (z = x \/ z ∈ l) as [->|Hin]; [|lia|by apply Hy].
    clear -Hz. induction l as [|w l IH]; simpl in Hz; [set_solver|]. case_decide; set_solver.
Qed.

(** The rank of an element of a sorted list is its index. *)
Lemma sorted_rank (l : list Z) i x :
  StronglySorted Z.lt l -> l !! i = Some x -> filter (fun y => y < x) l = take i l.
Proof.
  intros Hs Hi. rewrite <- (take_drop i l) at 1. rewrite filter_app.
  rewrite <- (take_drop_middle l i x Hi) in Hs at 1. rewrite (drop_S l x i Hi).
  rewrite (filter_all _ (take i l)).
  2:{ apply Forall_forall. intros y Hy. apply (sorted_app_lt _ _ y x Hs); set_solver. }
  rewrite filter_lt_bound; [by rewrite app_nil_r|]. constructor; [lia|]. apply Forall_forall.
  intros y Hy. assert (x < y); [|lia]. rewrite (cons_middle x), app_assoc in Hs.
  apply (sorted_app_lt _ _ x y Hs); set_solver.
Qed.

Lemma sorted_lookup_inj (l : list Z) i j x y :
  StronglySorted Z.lt l -> l !! i = Some x -> l !! j = Some y -> x < y -> (i < j)%nat.
Proof.
  intros Hs Hi Hj Hlt. destruct (decide (i < j)%nat) as [|Hge]; [done|exfalso].
  destruct (decide (i = j)) as [->|]; [simplify_eq; lia|].
  assert (y < x); [|lia]. apply (StronglySorted_lookup_lt Z.lt l j i); [done|lia|done..].
Qed.

(** [lia] on a boolean comparison, [nat] injections included. *)
Ltac bool_lia :=
  rewrite ?andb_true_iff, ?orb_true_iff, ?negb_true_iff, ?Z.leb_le, ?Z.ltb_lt, ?Z.eqb_eq,
    ?Z.leb_gt, ?Z.ltb_ge, ?Z.eqb_neq; lia.

(** An ascending association list is determined by its elements. *)
Lemma ascending_ext {A} (l1 l2 : list (Z * A)) :
  ascending l1 -> ascending l2 -> (forall p, p ∈ l1 <-> p ∈ l2) -> l1 = l2.
Proof.
  revert l2. induction l1 as [|x l1 IH]; intros l2 H1 H2 Heq.
  - destruct l2 as [|y l2]; [done|]. specialize (Heq y). set_solver.
  - destruct l2 as [|y l2]; [specialize (Heq x); set_solver|].
    apply ascending_cons in H1 as [H1 Hx], H2 as [H2 Hy]. rewrite Forall_forall in Hx, Hy.
    assert (x = y) as ->.
    { assert (x ∈ y :: l2) as [->|Hxy%Hy]%elem_of_cons by (apply Heq; set_solver); [done|].
      assert (y ∈ x :: l1) as [->|Hyx%Hx]%elem_of_cons by (apply Heq; set_solver); [done|]. lia. }
    f_equal. apply IH; [done..|]. intros z. split; intros Hz.
    + assert (z ∈ y :: l2) as [->|]%elem_of_cons by (apply Heq; set_solver); [|done].
      apply Hx in Hz. lia.
    + assert (z ∈ y :: l1) as [->|]%elem_of_cons by (apply Heq; set_solver); [|done].
      apply Hy in Hz. lia.
Qed.

(** Blocks of identifiers laid end to end. *)
Lemma ascending_concat {A} (f : Z -> list (Z * A)) (l : list Z) (w : Z) :
  StronglySorted Z.lt l ->
  (forall c, c ∈ l -> ascending (f c) /\ Forall (fun p => c * w <= p.1 < (c + 1) * w) (f c)) ->
  0 <= w -> ascending (concat (f <$> l)).
Proof.
  intros Hs Hf Hw. induction Hs as [|c l Hl IH Hc]; [constructor|]. csimpl.
  destruct (Hf c) as [Ha Hb]; [set_solver|].
  apply ascending_app. split_and!; [done|apply IH; set_solver|].
  eapply Forall_impl; [exact Hb|]. intros p Hp. apply Forall_forall. intros q Hq.
  apply list_elem_of_In, in_concat in Hq as (fc & Hfc & Hq).
  apply list_elem_of_In, list_elem_of_fmap in Hfc as (c' & -> & Hc').
  rewrite Forall_forall in Hc. pose proof (Hc c' Hc').
  destruct (Hf c') as [_ Hb']; [set_solver|]. rewrite Forall_forall in Hb'.
  apply list_elem_of_In, Hb' in Hq. simpl in *.
  assert ((c + 1) * w <= c' * w) by (apply Z.mul_le_mono_nonneg_r; lia). lia.
Qed.

Lemma elem_of_concat_fmap {A B} (f : A -> list B) l x :
  x ∈ concat (f <$> l) <-> exists c, c ∈ l /\ x ∈ f c.
Proof.
  rewrite list_elem_of_In, in_concat. split.
  - intros (fc & Hfc & Hx). apply list_elem_of_In, list_elem_of_fmap in Hfc as (c & -> & Hc).
    exists c. split; [done|]. by apply list_elem_of_In.
  - intros (c & Hc & Hx). exists (f c). split; apply list_elem_of_In; [|done].
    apply list_elem_of_fmap. eauto.
Qed.

Lemma last_ids {A} (l : list (Z * A)) id :
  fst <$> visible_before id l = last (filter (fun s => s < id) (ids l)).
Proof.
  unfold visible_before, ids. rewrite <- fmap_last. f_equal. induction l as [|q l IH]; [done|].
  csimpl. destruct (decide (q.1 < id)).
  - rewrite !filter_cons_True by done. csimpl. by rewrite IH.
  - by rewrite !filter_cons_False.
Qed.

Lemma filter_comm {A} (P1 P2 : A -> Prop) `{!forall x, Decision (P1 x), !forall x, Decision (P2 x)} (l : list A) :
  filter P1 (filter P2 l) = filter P2 (filter P1 l).
Proof. rewrite !list_filter_filter. apply list_filter_iff. tauto. Qed.

Lemma sorted_NoDup (l : list Z) : StronglySorted Z.lt l -> NoDup l.
Proof.
  induction 1 as [|x l _ IH Hx]; constructor; [|done]. intros Hin. rewrite Forall_forall in Hx. specialize (Hx x Hin). lia.
Qed.

Lemma filter_below_seqZ s m : 0 <= s <= m -> filter (fun x => x < s) (seqZ 0 m) = seqZ 0 s.
Proof.
  intros Hs. apply sorted_ext; [apply sorted_filter, sorted_seqZ|apply sorted_seqZ|].
  intros x. rewrite list_elem_of_filter, !elem_of_seqZ. lia.
Qed.

Lemma NoDup_omap {A B} (f : A -> option B) (l : list A) :
  (forall i j x y p, l !! i = Some x -> l !! j = Some y -> f x = Some p -> f y = Some p -> i = j) -> NoDup (omap f l).
Proof.
  induction l as [|a l IH]; intros Hinj; [constructor|].
  assert (NoDup (omap f l)) as Hl.
  { apply IH. intros i j x y p Hi Hj Hx Hy. by injection (Hinj (S i) (S j) x y p Hi Hj Hx Hy). }
  csimpl. destruct (f a) as [p|] eqn:Hp; [|done]. constructor; [|done].
  intros (y & Hy & Hfy)%list_elem_of_omap. apply list_elem_of_lookup in Hy as [j Hj].
  by specialize (Hinj 0%nat (S j) a y p eq_refl Hj Hp Hfy).
Qed.

Lemma fmap_concat {A B} (f : A -> B) (l : list (list A)) : 
  f <$> concat l = concat ((fun x : list A => f <$> x) <$> l).
Proof. induction l as [|x l IH]; [done|]. csimpl. by rewrite fmap_app, IH. Qed.

Lemma ascending_filter {A} (P : Z * A -> Prop) `{!forall x, Decision (P x)} (l : list (Z * A)) :
  ascending l -> ascending (filter P l).
Proof.
  induction l as [|p l IH]; [done|]. intros [Hl Hp]%ascending_cons.
  destruct (decide (P p)); [|rewrite filter_cons_False; auto].
  rewrite filter_cons_True by done. apply ascending_cons. split; [auto|].
  apply Forall_forall. intros q [_ Hq]%list_elem_of_filter. by eapply Forall_forall in Hp.
Qed.

Lemma ascending_last {A} (l : list (Z * A)) p :
  ascending l -> last l = Some p <-> p ∈ l /\ forall q, q ∈ l -> q.1 <= p.1.
Proof.
  intros Hl. destruct l as [|x l0] eqn:Heq.
  { split; [done|]. by intros [?%not_elem_of_nil _]. }
  rewrite <- Heq in *. set (m := foldr Z.max x.1 (ids l) + 1).
  assert (Hb : Forall (fun q => q.1 < m) l).
  { unfold m. clear. induction l as [|q l IH]; constructor; csimpl; [lia|].
    eapply Forall_impl; [exact IH|]. simpl. lia. }
  assert (Hv : visible_before m l = last l).
  { unfold visible_before. by rewrite filter_all. }
  rewrite <- Hv, visible_before_spec by done. rewrite Forall_forall in Hb.
  split; [intros (? & ? & Hq); split; [done|]; intros q Hin; apply Hq; auto|].
  intros (? & Hq). split_and!; auto.
Qed.

Lemma vector_pop_back_snoc {A} (l : list A) x : vector_pop_back (l ++ [x]) = Ok l.
Proof.
  unfold vector_pop_back. destruct (l ++ [x]) eqn:Heq; [by destruct l|].
  rewrite <- Heq, length_app. simpl. by rewrite Nat.add_sub, take_app_length.
Qed.

Lemma vector_back_snoc {A} (l : list A) x : vector_back (l ++ [x]) = Ok x.
Proof. unfold vector_back. by rewrite last_snoc. Qed.

Lemma insert_slot_snoc {A} (p : Z * A) l :
  Forall (fun q => q.1 <= p.1) l -> insert_slot p l = l ++ [p].
Proof. intros Hl. rewrite <- (app_nil_r l) at 1. by apply insert_slot_app. Qed.

(** A relation that never relates two elements of [l] to the same key gives [l] at most as many elements as there are keys. *)
Lemma injection_length {A B} (P : A -> B -> Prop) (l : list A) : forall K : list B,
  NoDup l -> (forall x, x ∈ l -> exists k, k ∈ K /\ P x k) ->
  (forall x y k, P x k -> P y k -> x = y) -> (length l <= length K)%nat.
Proof.
  induction l as [|x l IH]; intros K Hnd Hex Hinj; [simpl; lia|]. apply NoDup_cons in Hnd as [Hx Hnd].
  destruct (Hex x) as (k & Hk & Hp); [by left|]. apply list_elem_of_split in Hk as (K1 & K2 & ->).
  assert (length l <= length (K1 ++ K2))%nat as Hle.
  { apply IH; [done| |done]. intros y Hy. destruct (Hex y) as (k' & Hk' & Hp'); [by right|]. exists k'. split; [|done].
    assert (k' <> k) by (intros ->; apply Hx; by rewrite (Hinj x y k)). set_solver. }
  rewrite length_app in *. simpl. lia.
Qed.

Lemma insert_slot_head {A} (p : Z * A) l : Forall (fun q => p.1 < q.1) l -> insert_slot p l = p :: l.
Proof. destruct l as [|q l]; [done|]. intros [Hq _]%Forall_cons. simpl. by rewrite decide_True. Qed.

Lemma insert_slot_perm {A} (p : Z * A) l : insert_slot p l ≡ₚ p :: l.
Proof. induction l as [|q l IH]; [done|]. simpl. destruct (decide _); [done|]. rewrite IH. apply Permutation_swap. Qed.

Lemma filter_insert_slot {A} (P : Z * A -> Prop) `{!forall x, Decision (P x)} (p : Z * A) l :
  ascending l -> filter P (insert_slot p l) = if decide (P p) then insert_slot p (filter P l) else filter P l.
Proof.
  induction l as [|q l IH]; intros Hl; [done|]. pose proof Hl as [Hl' Hq]%ascending_cons. simpl insert_slot at 1.
  destruct (decide (p.1 < q.1)) as [Hlt|Hge].
  - rewrite filter_cons. destruct (decide (P p)); [|done]. symmetry. apply insert_slot_head.
    apply Forall_forall. intros x [_ [->|Hx]%elem_of_cons]%list_elem_of_filter; [done|].
    rewrite Forall_forall in Hq. specialize (Hq x Hx). lia.
  - rewrite !filter_cons, IH by done. destruct (decide (P q)), (decide (P p)); try done.
    simpl. by rewrite decide_False.
Qed.

(** Replacing one list of a concatenation. *)
Lemma concat_insert_perm {A B} (f : A -> list B) (l : list A) i x :
  l !! i = Some x -> exists rest, concat (f <$> l) ≡ₚ f x ++ rest /\
    forall y, concat (f <$> <[i := y]> l) ≡ₚ f y ++ rest.
Proof.
  revert i. induction l as [|z l IH]; intros [|i] Hi; [done|done| |].
  - simplify_eq/=. exists (concat (f <$> l)). done.
  - destruct (IH i Hi) as (rest & H1 & H2). exists (f z ++ rest). csimpl. split.
    + rewrite H1. rewrite !app_assoc. by rewrite (Permutation_app_comm (f z)).
    + intros y. rewrite H2. rewrite !app_assoc. by rewrite (Permutation_app_comm (f z)).
Qed.
