(* ===== verification/Bitmap.v ===== *)
(** * Bitmap: the 64-bit bitmap helpers of [utils/bitmap.hpp]

    Position 0 is the most significant bit, so the "largest" position of a
    bitmap is its least significant set bit.  Each C++ function is a function
    into [outcome]: an assertion that fails, or a shift outside [0, 64), is an
    error value.  [positions] is the reference view: the ascending list of the
    positions that are set. *)
From S2P Require Import Prelude.

(** ** Compiler builtins on 64-bit words *)
Definition builtin_popcountll (x : Z) : Z :=
  Z.of_nat (length (filter (fun i => Z.testbit x i = true) (seqZ 0 64))).
Definition builtin_ffsll (x : Z) : Z :=
  match list_find (fun i => Z.testbit x i = true) (seqZ 0 64) with
  | Some (_, i) => i + 1
  | None => 0
  end.

(** [x >> n]: undefined unless [0 <= n < 64] (arithmetic when [x] is signed). *)
Definition shr64 (x n : Z) : outcome Z :=
  if decide (0 <= n < 64) then Ok (Z.shiftr x n) else Err UndefinedBehaviour.
(** [~x] on [uint64_t]. *)
Definition not64 (x : Z) : Z := u64 (Z.lnot x).

(** ** [utils/bitmap.hpp] *)
Section Definitions.
Context `{BuildConfig}.

Definition count_bits (bits : Z) : Z := builtin_popcountll bits.

Definition set_upper_bit___signed : outcome Z :=
  x ← shr64 (not64 0) 1; mret (i64 (not64 x)).

Definition set_upper_bit___unsigned : outcome Z :=
  x ← shr64 (not64 0) 1; mret (not64 x).

Definition set_bit_at_the_given_location (pos : Z) : outcome Z :=
  x ← set_upper_bit___unsigned; shr64 x pos.

Definition is_bit_set_at_the_position (bitmap pos : Z) : outcome bool :=
  b ← set_bit_at_the_given_location (u64 pos);
  mret (negb (Z.land bitmap b =? 0)).

(** The overload with a bitmap argument. *)
Definition set_bit_at_the_given_location_in (bitmap pos : Z) : outcome Z :=
  assert_ (pos <? 64);;
  is_set ← is_bit_set_at_the_position bitmap (i32 pos);
  assert_ (negb is_set);;
  b ← set_bit_at_the_given_location pos;
  mret (Z.lor bitmap b).

Definition fill_the_left_side_until_before_the_given_position (pos : Z) : outcome Z :=
  if pos =? 0 then mret 0
  else x ← set_upper_bit___signed; y ← shr64 x (pos - 1); mret (u64 y).

Definition fill_the_left_side_until_the_given_position (pos : Z) : outcome Z :=
  x ← set_upper_bit___signed; y ← shr64 x pos; mret (u64 y).

Definition find_the_location_of_first_bit_from_right (bits : Z) : Z := builtin_ffsll bits.

Definition find_the_largest (bits : Z) : outcome Z :=
  assert_ (negb (bits =? 0));;
  let result := 64 - find_the_location_of_first_bit_from_right bits in
  assert_ ((0 <=? result) && (result <? 64));;
  mret result.

Definition find_the_largest_among_or_less_than (bitmap pos : Z) : outcome Z :=
  assert_ (negb (bitmap =? 0));;
  assert_ ((0 <=? pos) && (pos <? 64));;
  mask ← fill_the_left_side_until_the_given_position pos;
  let smallers := Z.land bitmap mask in
  if smallers =? 0 then mret (-1) else find_the_largest smallers.

Definition find_the_two_largest_among_or_less_than (bitmap pos : Z) : outcome (Z * Z) :=
  assert_ (negb (bitmap =? 0));;
  assert_ ((0 <=? pos) && (pos <? 64));;
  mask ← fill_the_left_side_until_the_given_position pos;
  let smallers := Z.land bitmap mask in
  if smallers =? 0 then mret (-1, -1)
  else
    largest_pos ← find_the_largest smallers;
    assert_ (largest_pos <? 64);;
    if builtin_popcountll smallers =? 1 then mret (-1, largest_pos)
    else
      assert_ (0 <=? largest_pos);;
      b ← set_bit_at_the_given_location (u64 largest_pos);
      second_largest_pos ← find_the_largest (Z.land (not64 b) smallers);
      assert_ (second_largest_pos <? largest_pos);;
      mret (second_largest_pos, largest_pos).

Definition find_the_largest_among_less_than (bitmap pos : Z) : outcome Z :=
  assert_ (negb (bitmap =? 0));;
  assert_ ((0 <=? pos) && (pos <? 64));;
  mask ← fill_the_left_side_until_before_the_given_position pos;
  let smallers := Z.land bitmap mask in
  if smallers =? 0 then mret (-1) else find_the_largest smallers.

End Definitions.

(** ** Reference view *)
Definition word64 (x : Z) : Prop := 0 <= x < 2 ^ 64.
Definition bit_at (bm p : Z) : bool := Z.testbit bm (63 - p).
Definition positions (bm : Z) : list Z := filter (fun p => bit_at bm p = true) (seqZ 0 64).
(** The [-1]-encoded greatest element of a list. *)
Definition last_or_minus_one (l : list Z) : Z := default (-1) (last l).
(** All ones above position [n] (exclusive). *)
Definition left_mask (n : Z) : Z := 2 ^ 64 - 2 ^ (64 - n).

(** ** Machine-word facts *)
Lemma u64_small z : 0 <= z < 2 ^ 64 -> u64 z = z.
Proof. apply Z.mod_small. Qed.

Lemma i32_small z : - 2 ^ 31 <= z < 2 ^ 31 -> i32 z = z.
Proof. intros ?. unfold i32. rewrite Z.mod_small; lia. Qed.

Lemma word64_testbit_high x i : word64 x -> 64 <= i -> Z.testbit x i = false.
Proof.
  intros Hx Hi. destruct (decide (x = 0)) as [->|]; [apply Z.testbit_0_l|].
  unfold word64 in Hx. apply Z.bits_above_log2; [lia|].
  assert (Z.log2 x < 64) by (apply Z.log2_lt_pow2; lia). lia.
Qed.

Lemma word64_eq x y :
  word64 x -> word64 y -> (forall p, 0 <= p < 64 -> bit_at x p = bit_at y p) -> x = y.
Proof.
  intros Hx Hy Heq. apply Z.bits_inj'. intros i Hi.
  destruct (decide (i < 64)); [|rewrite !word64_testbit_high by (done || lia); done].
  specialize (Heq (63 - i) ltac:(lia)). unfold bit_at in Heq.
  by replace (63 - (63 - i)) with i in Heq by lia.
Qed.

Lemma word64_log2 x : 0 <= x -> (forall i, 64 <= i -> Z.testbit x i = false) -> word64 x.
Proof.
  intros Hx Hb. split; [done|]. destruct (decide (x = 0)) as [->|]; [lia|].
  apply Z.log2_lt_pow2; [lia|].
  destruct (decide (Z.log2 x < 64)); [done|].
  assert (Z.testbit x (Z.log2 x) = false) by (apply Hb; lia).
  rewrite Z.bit_log2 in * by lia. done.
Qed.

Lemma word64_land x y : word64 x -> 0 <= y -> word64 (Z.land x y).
Proof.
  intros Hx Hy. apply word64_log2.
  - apply Z.land_nonneg. unfold word64 in Hx. lia.
  - intros i Hi. by rewrite Z.land_spec, word64_testbit_high.
Qed.

Lemma word64_lor x y : word64 x -> word64 y -> word64 (Z.lor x y).
Proof.
  intros Hx Hy. apply word64_log2.
  - apply Z.lor_nonneg. unfold word64 in *. lia.
  - intros i Hi. by rewrite Z.lor_spec, !word64_testbit_high.
Qed.

Lemma bit_at_land x y p : bit_at (Z.land x y) p = bit_at x p && bit_at y p.
Proof. apply Z.land_spec. Qed.

Lemma bit_at_lor x y p : bit_at (Z.lor x y) p = bit_at x p || bit_at y p.
Proof. apply Z.lor_spec. Qed.

Lemma bit_at_0 p : bit_at 0 p = false.
Proof. apply Z.testbit_0_l. Qed.

Lemma bit_at_pow2 p q :
  0 <= p < 64 -> 0 <= q < 64 -> bit_at (2 ^ (63 - p)) q = (p =? q).
Proof.
  intros Hp Hq. unfold bit_at. rewrite Z.pow2_bits_eqb by lia.
  destruct (Z.eqb_spec (63 - p) (63 - q)), (Z.eqb_spec p q); auto; lia.
Qed.

Lemma bit_at_not64 x p : 0 <= p < 64 -> bit_at (not64 x) p = negb (bit_at x p).
Proof.
  intros Hp. unfold bit_at, not64, u64.
  rewrite Z.mod_pow2_bits_low by lia. apply Z.lnot_spec. lia.
Qed.

Lemma word64_not64 x : word64 (not64 x).
Proof. apply Z.mod_pos_bound. lia. Qed.

Lemma word64_pow2 p : 0 <= p < 64 -> word64 (2 ^ (63 - p)).
Proof.
  intros Hp. split; [apply Z.pow_nonneg; lia|]. apply Z.pow_lt_mono_r; lia.
Qed.

Lemma left_mask_shift n : 0 <= n <= 64 -> left_mask n = Z.shiftl (Z.ones n) (64 - n).
Proof.
  intros Hn. unfold left_mask. rewrite Z.shiftl_mul_pow2, Z.ones_equiv by lia.
  rewrite <- Z.sub_1_r, Z.mul_sub_distr_r, <- Z.pow_add_r by lia.
  replace (n + (64 - n)) with 64 by lia. lia.
Qed.

Lemma word64_left_mask n : 0 <= n <= 64 -> word64 (left_mask n).
Proof.
  intros Hn. unfold word64, left_mask.
  assert (0 < 2 ^ (64 - n)) by (apply Z.pow_pos_nonneg; lia).
  assert (2 ^ (64 - n) <= 2 ^ 64) by (apply Z.pow_le_mono_r; lia). lia.
Qed.

Lemma bit_at_left_mask n p :
  0 <= n <= 64 -> 0 <= p < 64 -> bit_at (left_mask n) p = (p <? n).
Proof.
  intros Hn Hp. rewrite left_mask_shift by done. unfold bit_at.
  destruct (Z.ltb_spec p n).
  - rewrite Z.shiftl_spec, Z.ones_spec_low by lia. done.
  - rewrite Z.shiftl_spec_low by lia. done.
Qed.

(** ** Facts on [positions] *)
Lemma elem_of_positions bm p : p ∈ positions bm <-> 0 <= p < 64 /\ bit_at bm p = true.
Proof. unfold positions. rewrite list_elem_of_filter, elem_of_seqZ. naive_solver lia. Qed.

Lemma positions_sorted bm : StronglySorted Z.lt (positions bm).
Proof. apply sorted_filter, sorted_seqZ. Qed.

Lemma positions_nil bm : word64 bm -> positions bm = [] <-> bm = 0.
Proof.
  intros Hw. split.
  - intros Hn. apply word64_eq; [done|done|]. intros p Hp. rewrite bit_at_0.
    destruct (bit_at bm p) eqn:Hb; [|done].
    assert (p ∈ positions bm) as Hin by (by apply elem_of_positions).
    rewrite Hn in Hin. by apply not_elem_of_nil in Hin.
  - intros ->. destruct (positions 0) as [|p l] eqn:Hp; [done|].
    assert (p ∈ positions 0) as [_ Hb]%elem_of_positions by (rewrite Hp; set_solver).
    by rewrite bit_at_0 in Hb.
Qed.

Lemma positions_left_mask bm n :
  0 <= n <= 64 -> positions (Z.land bm (left_mask n)) = filter (fun p => p < n) (positions bm).
Proof.
  intros Hn. apply sorted_ext; [apply positions_sorted|apply sorted_filter, positions_sorted|].
  intros p. rewrite list_elem_of_filter, !elem_of_positions, bit_at_land, andb_true_iff.
  split.
  - intros (Hp & Hb & Hm). by rewrite bit_at_left_mask, Z.ltb_lt in Hm by lia.
  - intros (Hlt & Hp & Hb). by rewrite bit_at_left_mask, Z.ltb_lt by lia.
Qed.

Lemma positions_set bm p :
  0 <= p < 64 -> forall q, q ∈ positions (Z.lor bm (2 ^ (63 - p))) <-> q = p \/ q ∈ positions bm.
Proof.
  intros Hp q. rewrite !elem_of_positions, bit_at_lor, orb_true_iff. split.
  - intros [Hq Hb]. rewrite bit_at_pow2, Z.eqb_eq in Hb by lia. naive_solver.
  - intros [->|[Hq Hb]]; [split; [done|]; right; rewrite bit_at_pow2 by lia; apply Z.eqb_refl|].
    auto.
Qed.

(** Setting a position beyond every set one appends it. *)
Lemma positions_set_last bm p :
  0 <= p < 64 -> Forall (fun q => q < p) (positions bm) ->
  positions (Z.lor bm (2 ^ (63 - p))) = positions bm ++ [p].
Proof.
  intros Hp Hlt. rewrite Forall_forall in Hlt. apply sorted_ext; [apply positions_sorted| |].
  - apply sorted_snoc; [apply positions_sorted|by apply Forall_forall].
  - intros q. rewrite positions_set, elem_of_app, list_elem_of_singleton by done. tauto.
Qed.

Lemma bit_above_clear bm p :
  0 <= p < 64 -> Forall (fun q => q < p) (positions bm) -> bit_at bm p = false.
Proof.
  intros Hp Hlt. destruct (bit_at bm p) eqn:Hb; [|done]. rewrite Forall_forall in Hlt.
  assert (p < p); [|lia]. by apply Hlt, elem_of_positions.
Qed.

(** Clearing the greatest position of a bitmap removes it. *)
Lemma positions_clear bm p :
  0 <= p < 64 ->
  positions (Z.land (not64 (2 ^ (63 - p))) bm) = filter (fun q => q <> p) (positions bm).
Proof.
  intros Hp. apply sorted_ext; [apply positions_sorted|apply sorted_filter, positions_sorted|].
  intros q. rewrite list_elem_of_filter, !elem_of_positions, bit_at_land, andb_true_iff.
  split.
  - intros (Hq & Hn & Hb). rewrite bit_at_not64, bit_at_pow2, negb_true_iff, Z.eqb_neq in Hn by lia.
    auto.
  - intros (Hn & Hq & Hb). split; [done|]. split; [|done].
    rewrite bit_at_not64, bit_at_pow2, negb_true_iff, Z.eqb_neq by lia. auto.
Qed.

Lemma popcount_positions bm : builtin_popcountll bm = Z.of_nat (length (positions bm)).
Proof.
  unfold builtin_popcountll. f_equal. rewrite <- (length_fmap (fun i => 63 - i)).
  apply Permutation_length, NoDup_Permutation.
  - apply NoDup_fmap; [intros ???; lia|]. apply NoDup_filter, NoDup_seqZ.
  - apply NoDup_filter, NoDup_seqZ.
  - intros p. rewrite elem_of_positions, list_elem_of_fmap. unfold bit_at. split.
    + intros (i & -> & [Hb Hi%elem_of_seqZ]%list_elem_of_filter).
      replace (63 - (63 - i)) with i by lia. split; [lia|done].
    + intros [Hp Hb]. exists (63 - p). split; [lia|].
      apply list_elem_of_filter. rewrite elem_of_seqZ. split; [done|lia].
Qed.

Lemma popcount_bound bm : 0 <= builtin_popcountll bm <= 64.
Proof.
  unfold builtin_popcountll. split; [lia|].
  pose proof (length_filter (fun i => Z.testbit bm i = true) (seqZ 0 64)) as Hl.
  rewrite length_seqZ in Hl. lia.
Qed.

(** [ffsll] finds the greatest position. *)
Lemma ffsll_last bm :
  builtin_ffsll bm = match last (positions bm) with Some p => 64 - p | None => 0 end.
Proof.
  unfold builtin_ffsll.
  destruct (list_find _ _) as [[k i]|] eqn:Hf.
  - apply list_find_Some in Hf as (Hi & Hb & Hmin).
    apply lookup_seqZ in Hi as [-> Hk].
    rewrite (proj2 (sorted_last (positions bm) (63 - (0 + Z.of_nat k)) (positions_sorted bm))); [lia|].
    split.
    + apply elem_of_positions. unfold bit_at. split; [lia|].
      by replace (63 - (63 - (0 + Z.of_nat k))) with (0 + Z.of_nat k) by lia.
    + intros q [Hq Hbq]%elem_of_positions.
      destruct (decide (q <= 63 - (0 + Z.of_nat k))); [done|].
      exfalso. apply (Hmin (Z.to_nat (63 - q)) (63 - q)).
      * apply lookup_seqZ. lia.
      * lia.
      * done.
  - apply list_find_None in Hf. rewrite Forall_forall in Hf.
    destruct (last (positions bm)) as [p|] eqn:Hl; [|done].
    apply sorted_last in Hl as [[Hp Hb]%elem_of_positions _]; [|apply positions_sorted].
    exfalso. apply (Hf (63 - p)); [apply elem_of_seqZ; lia|done].
Qed.

(** ** Specifications of the functions *)
Section Specs.
Context `{BuildConfig}.

Lemma set_bit_at_the_given_location_eq pos :
  0 <= pos < 64 -> set_bit_at_the_given_location pos = Ok (2 ^ (63 - pos)).
Proof.
  intros Hp. unfold set_bit_at_the_given_location.
  change set_upper_bit___unsigned with (Ok (2 ^ 63)). simpl. unfold shr64.
  rewrite decide_True by done. rewrite Z.shiftr_div_pow2 by lia.
  rewrite <- Z.pow_sub_r by lia. done.
Qed.

Lemma is_bit_set_eq bm pos :
  0 <= pos < 64 -> is_bit_set_at_the_position bm pos = Ok (bit_at bm pos).
Proof.
  intros Hp. unfold is_bit_set_at_the_position.
  rewrite u64_small, set_bit_at_the_given_location_eq by lia. simpl. f_equal.
  destruct (bit_at bm pos) eqn:Hb.
  - apply negb_true_iff, Z.eqb_neq. intros Heq.
    assert (bit_at (Z.land bm (2 ^ (63 - pos))) pos = false) as Hf by (by rewrite Heq, bit_at_0).
    rewrite bit_at_land, Hb, bit_at_pow2, Z.eqb_refl in Hf by lia. done.
  - apply negb_false_iff, Z.eqb_eq. apply Z.bits_inj_0. intros i.
    rewrite Z.land_spec. destruct (decide (0 <= i)); [|by rewrite !Z.testbit_neg_r by lia].
    rewrite Z.pow2_bits_eqb by lia. destruct (Z.eqb_spec (63 - pos) i) as [<-|].
    + unfold bit_at in Hb. by rewrite Hb.
    + apply andb_false_r.
Qed.

Lemma set_bit_in_eq bm pos :
  0 <= pos < 64 -> bit_at bm pos = false ->
  set_bit_at_the_given_location_in bm pos = Ok (Z.lor bm (2 ^ (63 - pos))).
Proof.
  intros Hp Hb. unfold set_bit_at_the_given_location_in.
  run_assert by lia.
  rewrite i32_small, is_bit_set_eq by lia. simpl. rewrite Hb, assert_true by done. simpl.
  by rewrite set_bit_at_the_given_location_eq by lia.
Qed.

Lemma upper_signed_shift n :
  0 <= n < 64 -> u64 (Z.shiftr (- 2 ^ 63) n) = left_mask (n + 1).
Proof.
  intros Hn. rewrite Z.shiftr_div_pow2 by lia.
  rewrite Z.div_opp_l_z; [|lia|].
  2:{ apply Z.mod_divide; [lia|]. exists (2 ^ (63 - n)). rewrite <- Z.pow_add_r by lia.
      f_equal. lia. }
  rewrite <- Z.pow_sub_r by lia. unfold u64, left_mask.
  assert (0 < 2 ^ (63 - n)) by (apply Z.pow_pos_nonneg; lia).
  assert (2 ^ (63 - n) <= 2 ^ 63) by (apply Z.pow_le_mono_r; lia).
  replace (64 - (n + 1)) with (63 - n) by lia.
  replace (- 2 ^ (63 - n)) with (2 ^ 64 - 2 ^ (63 - n) + (-1) * 2 ^ 64) by lia.
  rewrite Z.mod_add by lia. apply Z.mod_small. lia.
Qed.

Lemma fill_until_eq pos :
  0 <= pos < 64 -> fill_the_left_side_until_the_given_position pos = Ok (left_mask (pos + 1)).
Proof.
  intros Hp. unfold fill_the_left_side_until_the_given_position.
  change set_upper_bit___signed with (Ok (- 2 ^ 63)). simpl. unfold shr64.
  rewrite decide_True by done. simpl. by rewrite upper_signed_shift.
Qed.

Lemma fill_until_before_eq pos :
  0 <= pos <= 64 -> fill_the_left_side_until_before_the_given_position pos = Ok (left_mask pos).
Proof.
  intros Hp. unfold fill_the_left_side_until_before_the_given_position.
  destruct (Z.eqb_spec pos 0) as [->|]; [done|].
  change set_upper_bit___signed with (Ok (- 2 ^ 63)). simpl. unfold shr64.
  rewrite decide_True by lia. simpl. rewrite upper_signed_shift by lia.
  by replace (pos - 1 + 1) with pos by lia.
Qed.

Lemma find_the_largest_eq bm p :
  last (positions bm) = Some p -> find_the_largest bm = Ok p.
Proof.
  intros Hl. pose proof Hl as [[Hp Hb]%elem_of_positions _]%sorted_last; [|apply positions_sorted].
  unfold find_the_largest, find_the_location_of_first_bit_from_right.
  rewrite ffsll_last, Hl.
  rewrite (assert_true (negb _)).
  2:{ apply negb_true_iff, Z.eqb_neq. intros ->. by rewrite bit_at_0 in Hb. }
  simpl. run_assert by lia. f_equal. lia.
Qed.

(** The masked searches share one case split. *)
Lemma masked_largest bm n :
  word64 bm -> 0 <= n <= 64 ->
  (if Z.land bm (left_mask n) =? 0 then mret (-1) else find_the_largest (Z.land bm (left_mask n)))
  = Ok (last_or_minus_one (filter (fun p => p < n) (positions bm))).
Proof.
  intros Hw Hn. rewrite <- positions_left_mask by done.
  assert (Hwm : word64 (Z.land bm (left_mask n))).
  { apply word64_land; [done|]. apply word64_left_mask. lia. }
  destruct (Z.eqb_spec (Z.land bm (left_mask n)) 0) as [->|Hne].
  - by rewrite (proj2 (positions_nil 0 ltac:(done))).
  - unfold last_or_minus_one. destruct (last (positions _)) as [p|] eqn:Hl.
    + by apply find_the_largest_eq.
    + apply last_None in Hl. by rewrite positions_nil in Hl by done.
Qed.

Lemma among_or_less_eq bm pos :
  word64 bm -> bm <> 0 -> 0 <= pos < 64 ->
  find_the_largest_among_or_less_than bm pos
  = Ok (last_or_minus_one (filter (fun p => p < pos + 1) (positions bm))).
Proof.
  intros Hw Hne Hp. unfold find_the_largest_among_or_less_than.
  run_assert by (by apply negb_true_iff, Z.eqb_neq).
  run_assert by lia.
  rewrite fill_until_eq by done. simpl. apply masked_largest; [done|lia].
Qed.

Lemma among_less_eq bm pos :
  word64 bm -> bm <> 0 -> 0 <= pos < 64 ->
  find_the_largest_among_less_than bm pos
  = Ok (last_or_minus_one (filter (fun p => p < pos) (positions bm))).
Proof.
  intros Hw Hne Hp. unfold find_the_largest_among_less_than.
  run_assert by (by apply negb_true_iff, Z.eqb_neq).
  run_assert by lia.
  rewrite fill_until_before_eq by lia. simpl. apply masked_largest; [done|lia].
Qed.

(** The last two elements of a list, [-1]-encoded, second first. *)
Definition last_two (l : list Z) : Z * Z :=
  match reverse l with
  | x :: y :: _ => (y, x)
  | [x] => (-1, x)
  | [] => (-1, -1)
  end.

Lemma last_two_snoc l x : last_two (l ++ [x]) = (last_or_minus_one l, x).
Proof.
  unfold last_two, last_or_minus_one. rewrite reverse_snoc, <- head_reverse.
  by destruct (reverse l).
Qed.

Lemma two_largest_eq bm pos :
  word64 bm -> bm <> 0 -> 0 <= pos < 64 ->
  find_the_two_largest_among_or_less_than bm pos
  = Ok (last_two (filter (fun p => p < pos + 1) (positions bm))).
Proof.
  intros Hw Hne Hp. unfold find_the_two_largest_among_or_less_than.
  run_assert by (by apply negb_true_iff, Z.eqb_neq).
  run_assert by lia.
  rewrite fill_until_eq by done. simpl.
  rewrite <- positions_left_mask by lia.
  set (sm := Z.land bm (left_mask (pos + 1))).
  assert (Hwm : word64 sm) by (apply word64_land; [done|]; apply word64_left_mask; lia).
  destruct (Z.eqb_spec sm 0) as [->|Hsm]; [by rewrite (proj2 (positions_nil 0 ltac:(done)))|].
  destruct (last (positions sm)) as [p|] eqn:Hl.
  2:{ apply last_None in Hl. by rewrite positions_nil in Hl by done. }
  pose proof Hl as [[Hp' Hb]%elem_of_positions Hmax]%sorted_last; [|apply positions_sorted].
  pose proof Hl as [l Hsl]%last_Some. pose proof (positions_sorted sm) as Hsorted.
  rewrite (find_the_largest_eq _ _ Hl). simpl.
  run_assert by lia.
  rewrite popcount_positions, Hsl, last_two_snoc, length_app. simpl.
  destruct (Z.eqb_spec (Z.of_nat (length l + 1)) 1) as [Hlen|Hlen].
  { by destruct l; [|simpl in Hlen; lia]. }
  run_assert by lia.
  rewrite u64_small, set_bit_at_the_given_location_eq by lia. simpl.
  assert (Hc : positions (Z.land (not64 (2 ^ (63 - p))) sm) = l).
  { rewrite positions_clear, Hsl by done. rewrite filter_app, filter_singleton_False by tauto.
    rewrite app_nil_r. apply filter_all, Forall_forall. intros q Hq ->.
    rewrite Hsl in Hsorted. pose proof (sorted_app_lt _ _ p p Hsorted Hq). set_solver by lia. }
  unfold last_or_minus_one. destruct (last l) as [q|] eqn:Hlq.
  2:{ apply last_None in Hlq as ->. simpl in Hlen. lia. }
  rewrite (find_the_largest_eq _ q) by (by rewrite Hc). simpl.
  rewrite assert_true; [done|]. apply Z.ltb_lt.
  rewrite Hsl in Hsorted. apply (sorted_app_lt _ _ q p Hsorted); [|set_solver].
  by apply last_Some_elem_of.
Qed.

(** [count_bits] of the prefix before [pos]: the number of smaller positions. *)
Lemma popcount_prefix bm pos :
  0 <= pos <= 64 ->
  builtin_popcountll (Z.land bm (left_mask pos))
  = Z.of_nat (length (filter (fun p => p < pos) (positions bm))).
Proof. intros ?. by rewrite popcount_positions, positions_left_mask. Qed.

End Specs.

(** C25. The bitmap searches: on a nonzero 64-bit map, for a position 0..63, the
    three searches return the largest set position at most, respectively
    below, the given one, or the two largest at most it, with -1 for "none";
    setting a clear position adds exactly that position; no assertion fails
    and no shift is out of range. *)
Theorem bitmap_searches_correct `{BuildConfig} bm pos
  (Hw : word64 bm) (Hne : bm <> 0) (Hp : 0 <= pos < 64) :
  find_the_largest_among_or_less_than bm pos
    = Ok (last_or_minus_one (filter (fun p => p < pos + 1) (positions bm))) /\
  find_the_largest_among_less_than bm pos
    = Ok (last_or_minus_one (filter (fun p => p < pos) (positions bm))) /\
  find_the_two_largest_among_or_less_than bm pos
    = Ok (last_two (filter (fun p => p < pos + 1) (positions bm))) /\
  find_the_largest bm = Ok (last_or_minus_one (positions bm)) /\
  (bit_at bm pos = false -> exists bm', set_bit_at_the_given_location_in bm pos = Ok bm' /\
     forall p, p ∈ positions bm' <-> p = pos \/ p ∈ positions bm).
Proof.
  split_and!.
  - by apply among_or_less_eq.
  - by apply among_less_eq.
  - by apply two_largest_eq.
  - unfold last_or_minus_one. destruct (last (positions bm)) as [p|] eqn:Hl.
    + by apply find_the_largest_eq.
    + apply last_None in Hl. by apply positions_nil in Hl.
  - intros Hb. eexists. split; [by apply set_bit_in_eq|]. intros p.
    by apply positions_set.
Qed.

#[local] Existing Instance debug_build.
Lemma bitmap_searches_correct_witness :
  find_the_two_largest_among_or_less_than (2 ^ 63 + 2 ^ 50 + 2 ^ 3) 20 = Ok (0, 13).
Proof.
  destruct (bitmap_searches_correct (2 ^ 63 + 2 ^ 50 + 2 ^ 3) 20) as (_ & _ & -> & _);
    [unfold word64; lia|lia|lia|]. by vm_compute.
Defined.
