(* ===== verification/Schema.v ===== *)
(** * Schema: table metadata and identifier words

    [protocols/common/schema.hpp] (record sizes and secondary tables),
    [transaction_id.hpp] and [tidword.hpp] (bit-field unions over a 64-bit
    word, laid out from the least significant bit as the target ABI does). *)
From S2P Require Import Prelude.

Record TableInfo := mkTableInfo { rec_size : Z; secondary : Z }.
Definition TableInfo_init : TableInfo := mkTableInfo 0 0.

(** The [unordered_map] from table id to [TableInfo]. *)
Definition Schema := gmap Z TableInfo.

(** [schema.at(table_id)]. *)
Definition schema_at (s : Schema) (table_id : Z) : outcome TableInfo :=
  match s !! table_id with Some i => Ok i | None => Err (RuntimeError "out_of_range") end.
Definition get_record_size (s : Schema) (table_id : Z) : outcome Z :=
  i ← schema_at s table_id; mret (rec_size i).
Definition has_secondary_table (s : Schema) (table_id : Z) : outcome bool :=
  i ← schema_at s table_id; mret (negb (secondary i =? 0)).
Definition get_secondary_table (s : Schema) (table_id : Z) : outcome Z :=
  i ← schema_at s table_id; mret (secondary i).
(** [schema[table_id]] creates the entry. *)
Definition set_record_size (s : Schema) (table_id size : Z) : Schema :=
  <[table_id := mkTableInfo size (secondary (default TableInfo_init (s !! table_id)))]> s.
Definition set_secondary_index (s : Schema) (primary sec : Z) : Schema :=
  <[primary := mkTableInfo (rec_size (default TableInfo_init (s !! primary))) sec]> s.
Definition get_tables (s : Schema) : list Z := (map_to_list s).*1.

(** ** Bit fields *)
Definition get_field (word offset width : Z) : Z := Z.land (Z.shiftr word offset) (Z.ones width).
Definition set_field (word offset width v : Z) : Z :=
  Z.lor (Z.ldiff word (Z.shiftl (Z.ones width) offset))
        (Z.shiftl (Z.land v (Z.ones width)) offset).

Module TxID.
Definition tx_counter (txid : Z) : Z := get_field txid 0 32.
Definition thread_id (txid : Z) : Z := get_field txid 32 32.
(** [TxID(uint32_t thread_id, uint32_t tx_counter)], over the default word 0. *)
Definition make (thread_id tx_counter : Z) : Z := set_field (set_field 0 0 32 tx_counter) 32 32 thread_id.
End TxID.

Module TidWord.
Definition lock (obj : Z) : Z := get_field obj 0 1.
Definition latest (obj : Z) : Z := get_field obj 1 1.
Definition absent (obj : Z) : Z := get_field obj 2 1.
Definition tid (obj : Z) : Z := get_field obj 3 29.
Definition epoch (obj : Z) : Z := get_field obj 32 32.
Definition set_lock (obj v : Z) : Z := set_field obj 0 1 v.
Definition set_latest (obj v : Z) : Z := set_field obj 1 1 v.
Definition set_absent (obj v : Z) : Z := set_field obj 2 1 v.
Definition set_tid (obj v : Z) : Z := set_field obj 3 29 v.
Definition set_epoch (obj v : Z) : Z := set_field obj 32 32 v.
End TidWord.

(** ** Facts *)
Lemma testbit_set_field word o wd v i :
  0 <= o -> 0 <= wd -> 0 <= i ->
  Z.testbit (set_field word o wd v) i
  = if (o <=? i) && (i <? o + wd) then Z.testbit v (i - o) else Z.testbit word i.
Proof.
  intros Ho Hw Hi. unfold set_field.
  rewrite Z.lor_spec, Z.ldiff_spec, !Z.shiftl_spec by lia. rewrite Z.land_spec.
  destruct (Z.leb_spec o i); simpl.
  - rewrite Z.testbit_ones_nonneg by lia.
    destruct (Z.ltb_spec i (o + wd)).
    + rewrite (proj2 (Z.ltb_lt (i - o) wd)) by lia. simpl. by rewrite andb_false_r, andb_true_r.
    + rewrite (proj2 (Z.ltb_ge (i - o) wd)) by lia. simpl. by rewrite andb_true_r, andb_false_r, orb_false_r.
  - rewrite !(Z.testbit_neg_r _ (i - o)) by lia. simpl. by rewrite andb_true_r, orb_false_r.
Qed.

Lemma testbit_get_field word o wd i :
  0 <= o -> 0 <= wd -> 0 <= i ->
  Z.testbit (get_field word o wd) i = (i <? wd) && Z.testbit word (i + o).
Proof.
  intros Ho Hw Hi. unfold get_field. rewrite Z.land_spec, Z.shiftr_spec by lia.
  rewrite Z.testbit_ones_nonneg by lia. by rewrite andb_comm.
Qed.

Lemma get_set_field word o wd v :
  0 <= o -> 0 <= wd -> get_field (set_field word o wd v) o wd = Z.land v (Z.ones wd).
Proof.
  intros Ho Hw. apply Z.bits_inj'. intros i Hi.
  rewrite testbit_get_field, testbit_set_field, Z.land_spec, Z.testbit_ones_nonneg by lia.
  destruct (Z.ltb_spec i wd); simpl; [|by rewrite andb_false_r].
  rewrite (proj2 (Z.leb_le o (i + o))), (proj2 (Z.ltb_lt (i + o) (o + wd))) by lia. simpl.
  rewrite andb_true_r. f_equal. lia.
Qed.

Lemma get_set_field_other word o wd o' wd' v :
  0 <= o -> 0 <= wd -> 0 <= o' -> 0 <= wd' -> (o + wd <= o' \/ o' + wd' <= o) ->
  get_field (set_field word o wd v) o' wd' = get_field word o' wd'.
Proof.
  intros Ho Hw Ho' Hw' Hd. apply Z.bits_inj'. intros i Hi.
  rewrite !testbit_get_field by lia. destruct (Z.ltb_spec i wd'); simpl; [|done].
  rewrite testbit_set_field by lia.
  destruct (Z.leb_spec o (i + o')), (Z.ltb_spec (i + o') (o + wd)); simpl; try done. lia.
Qed.

Lemma get_field_small word o wd : 0 <= word < 2 ^ wd -> 0 <= wd -> o = 0 -> get_field word o wd = word.
Proof.
  intros Hb Hw ->. unfold get_field. rewrite Z.shiftr_0_r, Z.land_ones by lia. by apply Z.mod_small.
Qed.
