(* ===== verification/Random.v ===== *)
(** * Random: the generators of [utils/random.hpp] and the helpers of [utils/utils.hpp]

    [SplitMix64] and [Xoshiro256PlusPlus] on 64-bit words, with the jump
    functions; uniform draws, random strings, [copy_cstr] and [Permutation].
    The transition of the generator is linear over GF(2): [jump_once] and
    [long_jump] are compared with 2^128 and 2^192 calls by polynomial
    arithmetic modulo the annihilating polynomial of that transition. *)
From Stdlib Require Import Btauto.
From S2P Require Import Prelude.

Module SplitMix64.
(** [operator()]: the draw and the new [x_]. *)
Definition next (x : Z) : Z * Z :=
  let x := u64 (x + 0x9e3779b97f4a7c15) in
  let z := u64 (Z.lxor x (Z.shiftr x 30) * 0xbf58476d1ce4e5b9) in
  let z := u64 (Z.lxor z (Z.shiftr z 27) * 0x94d049bb133111eb) in
  (Z.lxor z (Z.shiftr z 31), x).
End SplitMix64.

Module Xoshiro256PlusPlus.
Record State := mk { s0 : Z; s1 : Z; s2 : Z; s3 : Z }.

Definition rotl (x k : Z) : Z := Z.lor (u64 (Z.shiftl x k)) (Z.shiftr x (64 - k)).

(** [operator()], in the order of the assignments. *)
Definition next (s : State) : Z * State :=
  let result := u64 (rotl (u64 (s0 s + s3 s)) 23 + s0 s) in
  let t := u64 (Z.shiftl (s1 s) 17) in
  let c := Z.lxor (s2 s) (s0 s) in
  let d := Z.lxor (s3 s) (s1 s) in
  let b := Z.lxor (s1 s) c in
  let a := Z.lxor (s0 s) d in
  let c := Z.lxor c t in
  let d := rotl d 45 in
  (result, mk a b c d).

#[global] Instance State_eq_dec : EqDecision State.
Proof. solve_decision. Defined.
Definition zero : State := mk 0 0 0 0.
Definition xor (s t : State) : State :=
  mk (Z.lxor (s0 s) (s0 t)) (Z.lxor (s1 s) (s1 t)) (Z.lxor (s2 s) (s2 t)) (Z.lxor (s3 s) (s3 t)).

(** One iteration of the inner loop of [jump_once]: accumulator and generator. *)
Definition jump_step (word : Z) (acc : State * State) (b : nat) : State * State :=
  let '(s, g) := acc in
  (if negb (Z.land word (Z.shiftl 1 (Z.of_nat b)) =? 0) then xor s g else s, (next g).2).
(** Both loops, and the copy of the accumulator over the state. *)
Definition jump_by (JUMP : list Z) (g : State) : State :=
  (foldl (λ acc word, foldl (jump_step word) acc (seq 0 64)) (zero, g) JUMP).1.

Definition JUMP : list Z :=
  [0x180ec6d33cfd0aba; 0xd5a61266f0c9392c; 0xa9582618e03fc9aa; 0x39abdc4529b1661c].
Definition LONG_JUMP : list Z :=
  [0x76e15d3efefdcbbf; 0xc5004e441c522fb3; 0x77710069854ee241; 0x39109bb02acbe635].
Definition jump_once (g : State) : State := jump_by JUMP g.
Definition long_jump (g : State) : State := jump_by LONG_JUMP g.
Definition jump (num_jumps : nat) (g : State) : State := Nat.iter num_jumps jump_once g.

(** The constructor. *)
Definition make (seed : Z) (num_jumps : nat) : State :=
  let '(a, x) := SplitMix64.next seed in
  let '(b, x) := SplitMix64.next x in
  let '(c, _) := SplitMix64.next x in
  jump num_jumps (mk seed a b c).
End Xoshiro256PlusPlus.

(** ** [utils/utils.hpp] *)

(** [urand_int]: [%] by zero when the range is the whole of [uint64_t]. *)
Definition urand_int (min max : Z) : M Xoshiro256PlusPlus.State Z := fun g =>
  let '(r, g') := Xoshiro256PlusPlus.next g in
  let d := u64 (u64 (max - min) + 1) in
  if d =? 0 then Err UndefinedBehaviour else Ok (u64 (r mod d + min), g').

(** A write through a [char*] or [vector] index. *)
Definition write_at {A} (buf : list A) (i : nat) (v : A) : outcome (list A) :=
  if decide (i < length buf)%nat then Ok (<[i := v]> buf) else Err UndefinedBehaviour.

(** The loop of [copy_cstr] with [n] characters of room left before the terminator. *)
Fixpoint copy_cstr_loop (out inp : list Z) (i n : nat) : outcome (list Z * nat) :=
  match n with
  | O => Ok (out, i)
  | S n => c ← deref (inp !! i);
           if c =? 0 then Ok (out, i)
           else out ← write_at out i c; copy_cstr_loop out inp (S i) n
  end.
Definition copy_cstr (out inp : list Z) (out_buf_size : nat) : outcome (list Z * nat) :=
  match out_buf_size with
  | O => Ok (out, O)
  | S n => '(out, i) ← copy_cstr_loop out inp 0 n;
           out ← write_at out i 0; mret (out, i)
  end.

Definition digits : list Z := List.map Z.of_nat (seq 48 10).
Definition alphanumerics : list Z := digits ++ List.map Z.of_nat (seq 65 26) ++ List.map Z.of_nat (seq 97 26).

Fixpoint fill_random (c out : list Z) (i n : nat) : M Xoshiro256PlusPlus.State (list Z) :=
  match n with
  | O => mret out
  | S n => k ← urand_int 0 (Z.of_nat (length c) - 1);
           x ← lift (deref (c !! Z.to_nat k));
           out ← lift (write_at out i x);
           fill_random c out (S i) n
  end.
Definition make_random_string (c out : list Z) (min_len max_len : Z) : M Xoshiro256PlusPlus.State (list Z * Z) :=
  len_out ← urand_int min_len max_len;
  out ← fill_random c out 0 (Z.to_nat len_out);
  out ← lift (write_at out (Z.to_nat len_out) 0);
  mret (out, len_out).
Definition make_random_astring (out : list Z) (min_len max_len : Z) := make_random_string alphanumerics out min_len max_len.
Definition make_random_nstring (out : list Z) (min_len max_len : Z) := make_random_string digits out min_len max_len.

Module Permutation.
Section Permutation.
Context `{BuildConfig}.

Definition swap (perm : list Z) (i j : nat) : outcome (list Z) :=
  x ← deref (perm !! i); y ← deref (perm !! j);
  perm ← write_at perm i y; write_at perm j x.

(** The shuffle: [n] iterations left, starting at [i]. *)
Fixpoint shuffle (perm : list Z) (i n : nat) : M Xoshiro256PlusPlus.State (list Z) :=
  match n with
  | O => mret perm
  | S n =>
      let s := length perm in
      j ← urand_int 0 (u64 (u64 (Z.of_nat s - Z.of_nat i) - 1));
      lift (assert_ (Z.of_nat i + j <? Z.of_nat s));;
      perm ← lift (if j =? 0 then Ok perm else swap perm i (i + Z.to_nat j));
      shuffle perm (S i) n
  end.

Definition make (min max : Z) : M Xoshiro256PlusPlus.State (list Z) :=
  let s := u64 (u64 (max - min) + 1) in
  lift (assert_ (min <=? max));;
  let perm := (λ k, u64 (min + Z.of_nat k)) <$> seq 0 (Z.to_nat s) in
  lift (assert_ (u64 (min + s - 1) =? max));;
  shuffle perm 0 (Z.to_nat (u64 (s - 1))).

Definition at_ (perm : list Z) (i : nat) : outcome Z :=
  assert_ (Z.of_nat i <? Z.of_nat (length perm));;
  deref (perm !! i).
End Permutation.
End Permutation.

(** ** Words *)
Definition word (x : Z) : Prop := 0 <= x < 2 ^ 64.

Lemma word_u64 x : word (u64 x).
Proof. unfold word, u64. apply Z.mod_pos_bound. lia. Qed.

Lemma word_bits x : 0 <= x -> word x <-> forall i, 64 <= i -> Z.testbit x i = false.
Proof.
  intros Hx. split.
  - intros [_ Hb] i Hi. destruct (decide (x = 0)) as [->|]; [apply Z.testbit_0_l|].
    apply Z.bits_above_log2; [done|]. assert (Z.log2 x < 64) by (apply Z.log2_lt_pow2; lia). lia.
  - intros H. split; [done|]. destruct (decide (x = 0)) as [->|]; [lia|].
    apply Z.log2_lt_pow2; [lia|]. apply Z.nle_gt. intros Hl. pose proof (Z.bit_log2 x ltac:(lia)) as B.
    rewrite H in B by done. done.
Qed.

Lemma word_high x i : word x -> 64 <= i -> Z.testbit x i = false.
Proof. intros Hx. apply word_bits; [unfold word in Hx; lia|done]. Qed.

Lemma u64_land x : u64 x = Z.land x (Z.ones 64).
Proof. unfold u64. by rewrite Z.land_ones by lia. Qed.

Lemma word_lxor x y : word x -> word y -> word (Z.lxor x y).
Proof.
  intros Hx Hy. assert (0 <= Z.lxor x y) by (apply Z.lxor_nonneg; unfold word in *; lia).
  apply word_bits; [done|]. intros i Hi. rewrite Z.lxor_spec.
  by rewrite !word_high by done.
Qed.

Lemma word_shiftr x k : word x -> 0 <= k -> word (Z.shiftr x k).
Proof.
  intros Hx Hk. apply word_bits; [apply Z.shiftr_nonneg; unfold word in Hx; lia|].
  intros i Hi. rewrite Z.shiftr_spec by lia. apply word_bits; unfold word in *; try lia.
Qed.

Lemma testbit_u64 x i : 0 <= i -> Z.testbit (u64 x) i = (i <? 64) && Z.testbit x i.
Proof. intros. rewrite u64_land, Z.land_spec, Z.testbit_ones_nonneg by lia. apply andb_comm. Qed.

(** Two words are equal when their 64 bits are. *)
Lemma word_eq x y : word x -> word y -> (forall i, 0 <= i < 64 -> Z.testbit x i = Z.testbit y i) -> x = y.
Proof.
  intros Hx Hy H. apply Z.bits_inj'. intros i Hi. destruct (Z.ltb_spec i 64) as [Hlt|Hge]; [apply H; lia|].
  by rewrite !word_high by done.
Qed.

Module XoshiroFacts.
Import Xoshiro256PlusPlus.
Definition wf (s : State) : Prop := word (s0 s) /\ word (s1 s) /\ word (s2 s) /\ word (s3 s).
Definition step (s : State) : State := (next s).2.

Lemma testbit_rotl x k i : word x -> 0 <= k <= 64 -> 0 <= i < 64 ->
  Z.testbit (rotl x k) i = Z.testbit x (if i <? k then i - k + 64 else i - k).
Proof.
  intros Hx Hk Hi. unfold rotl. rewrite Z.lor_spec, testbit_u64, Z.shiftl_spec, Z.shiftr_spec by lia.
  rewrite (proj2 (Z.ltb_lt i 64)) by lia. simpl. destruct (Z.ltb_spec i k).
  - rewrite (Z.testbit_neg_r x (i - k)) by lia. simpl. f_equal. lia.
  - rewrite (proj1 (word_bits x ltac:(unfold word in *; lia)) Hx (i + (64 - k))) by lia.
    by rewrite orb_false_r.
Qed.

Lemma word_rotl x k : word x -> 0 <= k <= 64 -> word (rotl x k).
Proof.
  intros Hx Hk. unfold rotl.
  pose proof (word_shiftr x (64 - k) Hx ltac:(lia)) as H1. pose proof (word_u64 (Z.shiftl x k)) as H2.
  assert (0 <= Z.lor (u64 (Z.shiftl x k)) (Z.shiftr x (64 - k))) by (apply Z.lor_nonneg; unfold word in *; lia).
  apply word_bits; [done|]. intros i Hi. rewrite Z.lor_spec.
  by rewrite !word_high by done.
Qed.

Lemma rotl_lxor x y k : word x -> word y -> 0 <= k <= 64 ->
  rotl (Z.lxor x y) k = Z.lxor (rotl x k) (rotl y k).
Proof.
  intros Hx Hy Hk. pose proof (word_lxor x y Hx Hy).
  apply word_eq; [by apply word_rotl|apply word_lxor; by apply word_rotl|].
  intros i Hi. by rewrite Z.lxor_spec, !testbit_rotl, Z.lxor_spec by done.
Qed.

Lemma u64_shiftl_lxor x y k : 0 <= k ->
  u64 (Z.shiftl (Z.lxor x y) k) = Z.lxor (u64 (Z.shiftl x k)) (u64 (Z.shiftl y k)).
Proof.
  intros Hk. apply Z.bits_inj'. intros i Hi.
  rewrite Z.lxor_spec, !testbit_u64, !Z.shiftl_spec, Z.lxor_spec by lia.
  by destruct (i <? 64).
Qed.

Lemma wf_zero : wf zero.
Proof. unfold wf, word. simpl. lia. Qed.
Lemma wf_xor s t : wf s -> wf t -> wf (xor s t).
Proof. intros (?&?&?&?) (?&?&?&?). repeat split; simpl; by apply word_lxor. Qed.
Lemma wf_step s : wf s -> wf (step s).
Proof.
  intros (?&?&?&?). unfold wf, step, next. cbn [s0 s1 s2 s3 snd].
  repeat (first [apply word_rotl|apply word_lxor|apply word_u64|done|lia|split]).
Qed.

(** The states form an abelian group of exponent two. *)
Ltac xor_solve :=
  unfold xor, zero; cbn [s0 s1 s2 s3]; f_equal; apply Z.bits_inj'; intros ? _;
  rewrite ?Z.lxor_spec, ?Z.testbit_0_l; btauto.
Lemma xor_assoc a b c : xor a (xor b c) = xor (xor a b) c. Proof. xor_solve. Qed.
Lemma xor_comm a b : xor a b = xor b a. Proof. xor_solve. Qed.
Lemma xor_zero_l a : xor zero a = a. Proof. destruct a. xor_solve. Qed.
Lemma xor_zero_r a : xor a zero = a. Proof. rewrite xor_comm. apply xor_zero_l. Qed.
Lemma xor_nilpotent a : xor a a = zero.
Proof. unfold xor, zero. by rewrite !Z.lxor_nilpotent. Qed.
Lemma xor_exchange a b c d : xor (xor a b) (xor c d) = xor (xor a c) (xor b d).
Proof. xor_solve. Qed.

Lemma step_zero : step zero = zero. Proof. done. Qed.
Lemma step_xor a b : wf a -> wf b -> step (xor a b) = xor (step a) (step b).
Proof.
  intros (?&?&?&?) (?&?&?&?). unfold step, next. cbn [s0 s1 s2 s3 snd xor]. unfold xor. cbn [s0 s1 s2 s3].
  rewrite u64_shiftl_lxor by lia.
  replace (Z.lxor (Z.lxor (s3 a) (s3 b)) (Z.lxor (s1 a) (s1 b)))
    with (Z.lxor (Z.lxor (s3 a) (s1 a)) (Z.lxor (s3 b) (s1 b)))
    by (apply Z.bits_inj'; intros ? _; rewrite ?Z.lxor_spec; btauto).
  rewrite rotl_lxor by (try apply word_lxor; done || lia).
  f_equal; apply Z.bits_inj'; intros ? _; rewrite ?Z.lxor_spec; btauto.
Qed.

(** ** Polynomials over GF(2) evaluated at a linear map

    The bits of an [N] are the coefficients; [eval f p s] is the sum of the
    states [f^k s] over the set bits [k]. *)
Fixpoint eval_pos (f : State -> State) (p : positive) (s : State) : State :=
  match p with
  | xH => s
  | xO p => eval_pos f p (f s)
  | xI p => xor s (eval_pos f p (f s))
  end.
Definition eval (f : State -> State) (p : N) (s : State) : State :=
  match p with N0 => zero | Npos p => eval_pos f p s end.

Lemma eval_double f p s : eval f (N.double p) s = eval f p (f s).
Proof. by destruct p. Qed.
Lemma eval_succ_double f p s : eval f (N.succ_double p) s = xor s (eval f p (f s)).
Proof. destruct p; simpl; [by rewrite xor_zero_r|done]. Qed.

Lemma eval_lxor_pos f p q s : eval f (Pos.lxor p q) s = xor (eval_pos f p s) (eval_pos f q s).
Proof.
  revert q s. induction p as [p IH|p IH|]; intros [q|q|] s; cbn [eval_pos].
  - change (Pos.lxor p~1 q~1) with (N.double (Pos.lxor p q)).
    by rewrite eval_double, IH, xor_exchange, xor_nilpotent, xor_zero_l.
  - change (Pos.lxor p~1 q~0) with (N.succ_double (Pos.lxor p q)).
    rewrite eval_succ_double, IH. apply xor_assoc.
  - change (Pos.lxor p~1 1) with (N.double (Npos p)).
    by rewrite eval_double, (xor_comm s), <- xor_assoc, xor_nilpotent, xor_zero_r.
  - change (Pos.lxor p~0 q~1) with (N.succ_double (Pos.lxor p q)).
    by rewrite eval_succ_double, IH, !xor_assoc, (xor_comm s).
  - change (Pos.lxor p~0 q~0) with (N.double (Pos.lxor p q)). by rewrite eval_double, IH.
  - change (Pos.lxor p~0 1) with (N.succ_double (Npos p)). rewrite eval_succ_double. apply xor_comm.
  - change (Pos.lxor 1 q~1) with (N.double (Npos q)).
    by rewrite eval_double, xor_assoc, xor_nilpotent, xor_zero_l.
  - change (Pos.lxor 1 q~0) with (N.succ_double (Npos q)). by rewrite eval_succ_double.
  - change (Pos.lxor 1 1) with 0%N. by rewrite xor_nilpotent.
Qed.
Lemma eval_lxor f p q s : eval f (N.lxor p q) s = xor (eval f p s) (eval f q s).
Proof.
  destruct p as [|p], q as [|q]; cbn [N.lxor eval]; rewrite ?xor_zero_l, ?xor_zero_r; try done.
  apply eval_lxor_pos.
Qed.

Section Linear.
Context (f : State -> State).
Hypothesis f_wf : forall s, wf s -> wf (f s).
Hypothesis f_xor : forall s t, wf s -> wf t -> f (xor s t) = xor (f s) (f t).
Hypothesis f_zero : f zero = zero.

Lemma wf_eval_pos p s : wf s -> wf (eval_pos f p s).
Proof.
  revert s. induction p as [p IH|p IH|]; intros s Hs; simpl; [|by apply IH, f_wf|done].
  apply wf_xor; [done|]. by apply IH, f_wf.
Qed.
Lemma wf_eval p s : wf s -> wf (eval f p s).
Proof. destruct p; simpl; [intros _; apply wf_zero|apply wf_eval_pos]. Qed.

Lemma eval_xor p s t : wf s -> wf t -> eval f p (xor s t) = xor (eval f p s) (eval f p t).
Proof.
  destruct p as [|p]; simpl; [by rewrite xor_zero_l|]. revert s t.
  induction p as [p IH|p IH|]; intros s t Hs Ht; simpl; try done;
    rewrite f_xor, IH by (first [done|by apply f_wf]); [apply xor_exchange|done].
Qed.
Lemma eval_zero p : eval f p zero = zero.
Proof. destruct p as [|p]; [done|]. simpl. induction p; simpl; rewrite ?f_zero, ?xor_zero_l; done. Qed.
Lemma eval_step p s : wf s -> eval f p (f s) = f (eval f p s).
Proof.
  destruct p as [|p]; [done|]. simpl. revert s. induction p as [p IH|p IH|]; intros s Hs; simpl; try done.
  - rewrite f_xor, IH by (first [done|by apply wf_eval_pos, f_wf|by apply f_wf]). done.
  - by apply IH, f_wf.
Qed.
Lemma eval_comm p q s : wf s -> eval f p (eval f q s) = eval f q (eval f p s).
Proof.
  destruct q as [|q]; [intros _; apply eval_zero|]. cbn [eval]. revert s.
  induction q as [q IH|q IH|]; intros s Hs; cbn [eval_pos]; try done.
  - rewrite eval_xor by (first [done|by apply wf_eval_pos, f_wf]).
    by rewrite IH, eval_step by (first [done|by apply f_wf]).
  - by rewrite IH, eval_step by (first [done|by apply f_wf]).
Qed.

(** Squaring: the cross terms cancel. *)
Lemma eval_square p s : wf s -> eval (λ s, f (f s)) p s = eval f p (eval f p s).
Proof.
  destruct p as [|p]; [done|]. revert s. induction p as [p IH|p IH|]; intros s Hs.
  - change (Npos p~1) with (N.succ_double (Npos p)). rewrite !eval_succ_double.
    assert (wf (f s)) by by apply f_wf. pose proof (wf_eval (Npos p) (f s) ltac:(done)) as We.
    rewrite f_xor, <- eval_step by done. rewrite (eval_xor (Npos p) (f s)) by (done || by apply wf_eval, f_wf).
    rewrite IH by by apply f_wf.
    by rewrite <- xor_assoc, (xor_assoc (eval f (Npos p) (f s)) (eval f (Npos p) (f s))), xor_nilpotent, xor_zero_l.
  - change (Npos p~0) with (N.double (Npos p)). rewrite !eval_double.
    assert (wf (f s)) by by apply f_wf. rewrite IH by by apply f_wf. f_equal. by apply eval_step.
  - done.
Qed.
End Linear.

(** ** An annihilating polynomial of the transition *)
Definition char_pos : positive := 0x10003c03c3f3ecb1904b4edcf26259f850280002bcefd1a5e9d116f2bb0f0f001.
Definition char_poly : N := Npos char_pos.
Definition in_kernel (s : State) : Prop := wf s /\ eval step char_poly s = zero.

(** The states [s, step s, ...], and the sum of those the bits of [p] select. *)
Fixpoint orbit (n : nat) (s : State) : list State :=
  match n with O => [] | S n => s :: orbit n (step s) end.
Fixpoint select {A} (add : A -> A -> A) (z : A) (p : positive) (l : list A) : A :=
  match p, l with
  | xH, s :: _ => s
  | xO p, _ :: l => select add z p l
  | xI p, s :: l => add s (select add z p l)
  | _, [] => z
  end.

Lemma select_orbit p n s : (Pos.size_nat p <= n)%nat -> select xor zero p (orbit n s) = eval step (Npos p) s.
Proof.
  revert n s. induction p as [p IH|p IH|]; intros [|n] s Hn; simpl in *; try lia; try done.
  - f_equal. apply IH. lia.
  - apply IH. lia.
Qed.

Lemma kernel_xor s t : in_kernel s -> in_kernel t -> in_kernel (xor s t).
Proof.
  intros [Hs Es] [Ht Et]. split; [by apply wf_xor|].
  by rewrite (eval_xor step wf_step step_xor) by done; rewrite Es, Et, xor_zero_l.
Qed.
Lemma kernel_xor_inv s t : wf t -> in_kernel s -> in_kernel (xor s t) -> in_kernel t.
Proof.
  intros Ht Hs H. replace t with (xor s (xor s t)) by by rewrite xor_assoc, xor_nilpotent, xor_zero_l.
  by apply kernel_xor.
Qed.
Lemma kernel_eval p s : in_kernel s -> in_kernel (eval step p s).
Proof.
  intros [Hs Es]. split; [by apply (wf_eval step wf_step)|].
  by rewrite (eval_comm step wf_step step_xor step_zero) by done; rewrite Es, (eval_zero step step_zero).
Qed.
Lemma kernel_step s : in_kernel s -> in_kernel (step s).
Proof.
  intros [Hs Es]. split; [by apply wf_step|].
  by rewrite (eval_step step wf_step step_xor) by done; rewrite Es, step_zero.
Qed.

(** [certificates !! i] expresses the state [(2^i, 0, 0, 0)] in the orbit of [(1, 0, 0, 0)]. *)
Definition certificates : list positive :=
  [0x1;
   0xf2c9adf7af0df9f465ab73f77cd3a2ef3c25140c5c9c3038e1dedd95ca1747bb;
   0xb460444ac625d79b203cd6b025af2f4ac2a3bb3949b9b88bb714d51dc513ff9;
   0x3551458e3890805b945c1b47157b3a5e69b3afa458ab4f609978da00617ff5df;
   0xdf47767c553f3001a1d225b497038b0a8296cd3a1e5e73c9d37648a6a077762c;
   0x919955f819cf734aae74a0c3528773bf594698cbe24c201bf75bb029e5370af6;
   0x4f360160b8ba7f5839a35309544b938097aa4026f3c3246637d527114e9e5c03;
   0x878e684570dd1a2fb420385235f699a998ad6fbb19907ff9f2e21b93d5c0bb00;
   0x877ae21c02c2f0d8f023f169078d5ba155bf47e5d123c6966f8bfa66bbe07f2;
   0x8443be2e129ae113b575190e092eda0c4bb3d7964eac24622d80c1e9a8aa51f3;
   0xac86331b906f1879278675f2f91c33f2d73e6d9fcc56dc6d5524f5ae275f3594;
   0x8c7bd673189f29a00644c1bc411593687c063b2b45b0e0377787b22ce9a70db6;
   0x8b48e6dc3ee323f718ef9aeba1ebda63ee156c10a348d0b758e9ccb2c611da0f;
   0x3c0983725f6e0a82965f304d65de789c2c8f887cb776dbdb9298aadf12472bf2;
   0xce2bb4c57d9bd28a735e07cef04e43c8fa63333b1f5e002019a9a8e232b213e;
   0x48f60e0a500cd7ea18f2b39ee60290def1e935bdc1e2ffeb161296e849eab201;
   0x9214069e88fd4d32d92800681171d7541cda6a0b12e646193d5c2497d0a5f6af;
   0xf765117ab7bdca5917e70b6aebd99d35693efad2fb24dec4f9ef5c4b4297aafc;
   0xec48e053e19f460ef691f5491ccc7ca8d85501b197b93a9ad5ffa09be83e4edb;
   0x81478d3e7da97a2d9c785136f3f04442aef9a71b507f20b6e47cca56aa7a9e45;
   0x96d538ee43b0728a2a28e01c5b87169df7aebae792938ce632a5976409e10449;
   0x52e56790d730b665e764f0de28c69d6382056c0236744ff6502769bd863b017;
   0x59775805a2f1a9e797c407f95007f2e605a4f1a6154310e9218c028ab2d984;
   0x55759818f8a22dc5c56d946938bbef5c0ce147d9cb4de6d20c06b110e316b421;
   0xb7e0cf5459a9150148908641c2e7c7d9f537dc2a55eb94c88e9c9f82d5c01a0b;
   0x3a74ea63bdaf892e80beaa8c5383564fa427c620cf849a7398b05dc2f0cc9f5a;
   0x1f7e55eca1bd520677be006d8e34b9665fb54310b7773899b6e4e17452361fb6;
   0xe23a606b789ae0b17e3198ec56ed9af4f993df6acf0de2a732c2827db3c507b6;
   0xfac451a8560880a12c127103ebaee67070e91848508324138cf300c012cbfd02;
   0x845ed8a3a86fa7347123109ca8d5472bc280f77498b87365a1a9c29fa49d9243;
   0xde2e2570cac9424f5150daa66b71f2e901b7dd57563489b91f583c2ca02be3d3;
   0xe95777bc2e70a59eb57fbbfd9f6292bbd2792aa0670378e213dedbbd61139002;
   0x5691044a4901cbd416aa594bfce5e38517602b0c5be0e539ed60f057a9c9bdf6;
   0x1f62a7cd1b67f0a4cb1051648c6d9b00c94489d5c39ccfd026a76adba409a306;
   0x5bf0110a1b2e33841ac5015891119a4b65fb0b5dc079a7740f6392847d2ce324;
   0xa9cefbb2398fde751a075e9c8d033999d6ab7cb1cf3dbf4733eaf5f8a952c432;
   0x8197a7371801283f05095cfacbdbec99116e83b0893f4bb9c585577028ee41a9;
   0xc3cfb69a0840156fc1ad4d65fb58a271fe2d5f79346d7c065a6b9b9c74f00926;
   0x442fa7f8fec3fde23f315234282ac158ae5cd073d8054526ee6c5139d5e7ff7d;
   0xc5ccfa104c4ea917c8c3bc7bdde4f53bd803da661447c47bef897c5fca45ede6;
   0x3541748facd1b46868bed551f2ab30fdeeecf5b3515237de78b96d75f6344bde;
   0xd90a7d792d282235eff7a1722f49a007ed616b462ebb003479403bb048fd8d83;
   0x934c81c6d9b632a9f3dd52ad03800717900ca6c845043fbcec1de38eb7216bb6;
   0x1ffb87dd592a5db160f711ad7a70cbeb3191b42b49c4613eb55dad8aaa6c7531;
   0xdf151fadca38f28b46d1e95bbd70287e44b7c6dd26a4d1c230ad372015834ff9;
   0x784d601d889e9508ab04072506a8b174f5278c34e9430c94aa7b06e0af15bc30;
   0xece66530c6962977860b3d87e954b8dcf4a98d21e525e3dc53b9f0dbcbb0f508;
   0x110d6660856a26f51ab823bd6fd53955fd362620f6c3b74d20c0f82e2faf52c9;
   0x13731e8f7e052045c917769561b48b6cc92c593c3dcbf9d93d90bd5c686b1033;
   0xe13618d737a989ea1ee7a32ea1e8b4d21ce38f67eeecc1f8a114a8ea5551277f;
   0xe3b5d2841d30ddf22e6c3ccdce4b63452df24aac7dc3004ef9e7424484c45807;
   0xb84cb22cfc89e93a2ee3286f22eba23fd993cfb863226cf8ce5a2745bb4be98b;
   0xdd1605839d4476f956b883a3c7ff63a33cf08321c5410af1b4fc494cc05e5350;
   0xc1a8e347ef8a8d9eb3a06220e9608f49990082b39b08383d853d019d7000d8d4;
   0xcbd1a53b7d01d3f3d5e6b80f7790c995e0bb7574018ea3980727bfa7a6933345;
   0x2e430dcc18c87e7b62625db74347e6bda17fd27d64485c93bb902e31f17dfba3;
   0xd356e8ce367ae60a4e10de3b84f7807cb82d58f851fe8a173edb643cfbf8051d;
   0x1318159d212269000ab2524aa69d2134db16949c8b524d144e31b504ac97fe56;
   0x4eac4963c14804e3302b6779d28ac9ecba2d02f1997e144a3be429067fad8bb7;
   0x26fea1baeb2a4023493f5e18c459a0f35cb2afa2760388d7bd7bca9144bf07f5;
   0xd20eda578f7681dc663b60417732c050cc72a09bfd7b2b94c974f582f5d45807;
   0xe9286a960c0eb016907539bbe66597ec7ae8656f4bea496075dac159d9a2818d;
   0x884c7d752f75136f2b49a9de29a5c44ef244495bffad8a8584b97f12063c4901;
   0xb2dea88091ac86cdf10ab9187ad2975c5734fdd4d83f34abef97db4e9a9ccb91]%positive.
Definition unit_state (w : Z) : State := mk w 0 0 0.
Definition certificates_ok (l : list State) : bool :=
  bool_decide (select xor zero char_pos l = zero)
  && forallb (λ '(i, q), (Pos.size_nat q <=? 257)%nat && bool_decide (select xor zero q l = unit_state (2 ^ Z.of_nat i)))
             (imap pair certificates).
Lemma certificates_hold l : certificates_ok l = true ->
  select xor zero char_pos l = zero /\
  forall i q, certificates !! i = Some q ->
    (Pos.size_nat q <= 257)%nat /\ select xor zero q l = unit_state (2 ^ Z.of_nat i).
Proof.
  intros C. apply andb_prop in C as [C0 C]. split; [by apply bool_decide_eq_true in C0|].
  intros i q Hq. rewrite forallb_forall in C.
  assert (Hin : In (i, q) (imap pair certificates)).
  { apply list_elem_of_In, list_elem_of_lookup. exists i. by rewrite list_lookup_imap, Hq. }
  apply C in Hin. apply andb_prop in Hin as [Hs Hsel].
  by apply bool_decide_eq_true in Hsel; apply Nat.leb_le in Hs.
Qed.
Lemma certificates_check : certificates_ok (orbit 257 (unit_state 1)) = true.
Proof. vm_compute. reflexivity. Qed.

Lemma wf_unit_state w : word w -> wf (unit_state w).
Proof. unfold wf, word. simpl. lia. Qed.
Lemma unit_state_xor v w : unit_state (Z.lxor v w) = xor (unit_state v) (unit_state w).
Proof. done. Qed.

Lemma kernel_unit i : (i < 64)%nat -> in_kernel (unit_state (2 ^ Z.of_nat i)).
Proof.
  intros Hi. destruct (certificates_hold _ certificates_check) as [C0 C].
  rewrite select_orbit in C0 by (vm_compute; lia).
  destruct (lookup_lt_is_Some_2 certificates i Hi) as [q Hq].
  destruct (C i q Hq) as [Hs <-]. rewrite select_orbit by done. apply kernel_eval.
  split; [apply wf_unit_state; unfold word; lia|exact C0].
Qed.

Lemma top_bit n w : 0 <= n -> 0 <= w < 2 ^ (n + 1) ->
  0 <= w < 2 ^ n \/ exists w', 0 <= w' < 2 ^ n /\ w = Z.lxor (2 ^ n) w'.
Proof.
  intros Hn Hw. destruct (decide (w < 2 ^ n)); [left; lia|right]. exists (w - 2 ^ n).
  rewrite Z.pow_add_r in Hw by lia. split; [lia|]. rewrite <- Z.add_nocarry_lxor; [lia|].
  apply Z.bits_inj'. intros i Hi. rewrite Z.land_spec, Z.pow2_bits_eqb, Z.testbit_0_l by lia.
  destruct (Z.eqb_spec n i) as [<-|]; [|done]. simpl.
  destruct (decide (w - 2 ^ n = 0)) as [->|]; [apply Z.testbit_0_l|].
  apply Z.bits_above_log2; [lia|]. apply Z.log2_lt_pow2; lia.
Qed.

Lemma kernel_first_word w : word w -> in_kernel (unit_state w).
Proof.
  cut (forall n w, (n <= 64)%nat -> 0 <= w < 2 ^ Z.of_nat n -> in_kernel (unit_state w)).
  { intros H Hw. by apply (H 64%nat). }
  induction n as [|n IH]; intros v Hn Hv.
  - replace v with 0 by lia. split; [apply wf_zero|apply (eval_zero step step_zero)].
  - replace (Z.of_nat (S n)) with (Z.of_nat n + 1) in Hv by lia.
    destruct (top_bit (Z.of_nat n) v ltac:(lia) Hv) as [|(w' & Hw' & ->)]; [apply IH; [lia|done]|].
    rewrite unit_state_xor. apply kernel_xor; [apply kernel_unit; lia|apply IH; [lia|done]].
Qed.

Lemma rotl_inverse x : word x -> rotl (rotl x 19) 45 = x.
Proof.
  intros Hx. assert (word (rotl x 19)) by (apply word_rotl; [done|lia]).
  apply word_eq; [apply word_rotl; [done|lia]|done|]. intros i Hi.
  rewrite testbit_rotl by (done || lia).
  destruct (Z.ltb_spec i 45); rewrite testbit_rotl by (done || lia).
  - rewrite (proj2 (Z.ltb_ge _ 19)) by lia. f_equal. lia.
  - rewrite (proj2 (Z.ltb_lt _ 19)) by lia. f_equal. lia.
Qed.

(** [b] with [b xor (b << 17) = y]. *)
Definition shl17 (x : Z) : Z := u64 (Z.shiftl x 17).
Definition unshift (y : Z) : Z :=
  Z.lxor y (Z.lxor (shl17 y) (Z.lxor (shl17 (shl17 y)) (shl17 (shl17 (shl17 y))))).
Lemma word_unshift y : word y -> word (unshift y).
Proof. intros Hy. unfold unshift. repeat apply word_lxor; try apply word_u64; done. Qed.
Lemma testbit_shl17 x i : i < 64 -> Z.testbit (shl17 x) i = Z.testbit x (i - 17).
Proof.
  intros Hi. destruct (decide (i < 0)); [by rewrite !Z.testbit_neg_r by lia|].
  unfold shl17. rewrite testbit_u64, Z.shiftl_spec by lia. by rewrite (proj2 (Z.ltb_lt i 64)) by lia.
Qed.
Lemma unshift_spec y : word y -> Z.lxor (unshift y) (shl17 (unshift y)) = y.
Proof.
  intros Hy. apply word_eq; [apply word_lxor; [by apply word_unshift|apply word_u64]|done|].
  intros i Hi. rewrite Z.lxor_spec, testbit_shl17 by lia. unfold unshift.
  rewrite !Z.lxor_spec, !testbit_shl17 by lia.
  rewrite (Z.testbit_neg_r y (i - 17 - 17 - 17 - 17)) by lia. btauto.
Qed.

(** The states with one word set generate each other. *)
Ltac step_solve :=
  unfold step, next, xor, unit_state; cbn [s0 s1 s2 s3 snd];
  rewrite ?Z.shiftl_0_l; change (u64 0) with 0; rewrite ?Z.lxor_0_l, ?Z.lxor_0_r;
  change (rotl 0 45) with 0; rewrite ?Z.lxor_nilpotent, ?Z.lxor_0_l, ?Z.lxor_0_r; try done.
Lemma word_0 : word 0. Proof. unfold word. lia. Qed.
#[local] Hint Resolve word_0 : core.
Lemma wf_mk a b c d : word a -> word b -> word c -> word d -> wf (mk a b c d).
Proof. done. Qed.
Lemma kernel_middle_words a : word a -> in_kernel (mk 0 a a 0).
Proof.
  intros Ha. pose proof (kernel_first_word a Ha) as K.
  apply (kernel_xor_inv (unit_state a)); [by apply wf_mk|done|].
  replace (xor (unit_state a) (mk 0 a a 0)) with (step (unit_state a)); [by apply kernel_step|step_solve].
Qed.
Lemma kernel_last_words a : word a -> in_kernel (mk 0 0 (Z.lxor a (shl17 a)) (rotl a 45)).
Proof.
  intros Ha. assert (Hw : word (Z.lxor a (shl17 a))) by (apply word_lxor; [done|apply word_u64]).
  assert (Hr : word (rotl a 45)) by (apply word_rotl; [done|lia]).
  apply (kernel_xor_inv (unit_state a)); [by apply wf_mk|by apply kernel_first_word|].
  replace (xor _ _) with (step (mk 0 a a 0)); [by apply kernel_step, kernel_middle_words|step_solve].
Qed.
Lemma kernel_last_word x : word x -> in_kernel (mk 0 0 0 x).
Proof.
  intros Hx. pose proof (rotl_inverse x Hx) as R1. set (v := rotl x 19) in *.
  assert (Hv : word v) by (apply word_rotl; [done|lia]).
  pose proof (rotl_inverse v Hv) as R2. set (a := rotl v 19) in *.
  assert (Ha : word a) by (apply word_rotl; [done|lia]).
  pose proof (kernel_last_words a Ha) as K. rewrite R2 in K. set (u := Z.lxor a (shl17 a)) in *.
  assert (Hu : word u) by (apply word_lxor; [done|apply word_u64]).
  apply (kernel_xor_inv (mk 0 u u 0)); [by apply wf_mk|by apply kernel_middle_words|].
  apply (kernel_xor_inv (unit_state v)); [by apply wf_xor; apply wf_mk|by apply kernel_first_word|].
  replace (xor _ _) with (step (mk 0 0 u v)); [by apply kernel_step|]. step_solve. by rewrite R1.
Qed.
Lemma kernel_all s : wf s -> in_kernel s.
Proof.
  destruct s as [a b c d]. intros (Ha & Hb & Hc & Hd). cbn [s0 s1 s2 s3] in *.
  assert (K3 : forall y, word y -> in_kernel (mk 0 0 y 0)).
  { intros y Hy. pose proof (kernel_last_words _ (word_unshift y Hy)) as K. rewrite unshift_spec in K by done.
    assert (Hr : word (rotl (unshift y) 45)) by (apply word_rotl; [by apply word_unshift|lia]).
    pose proof (kernel_xor _ _ K (kernel_last_word _ Hr)) as K'. revert K'. step_solve. }
  assert (K2 : in_kernel (mk 0 b 0 0)).
  { pose proof (kernel_xor _ _ (kernel_middle_words b Hb) (K3 b Hb)) as K. revert K. step_solve. }
  pose proof (kernel_xor _ _ (kernel_xor _ _ (kernel_first_word a Ha) K2)
                (kernel_xor _ _ (K3 c Hc) (kernel_last_word d Hd))) as K.
  revert K. step_solve.
Qed.

(** ** Powers of the transition *)
Definition shift (r : N) : N :=
  let d := N.double r in if N.testbit d 256 then N.lxor d char_poly else d.
Lemma eval_shift r s : wf s -> eval step (shift r) s = eval step r (step s).
Proof.
  intros Hs. unfold shift. destruct (N.testbit _ _); [|apply eval_double].
  destruct (kernel_all s Hs) as [_ K]. by rewrite eval_lxor, K, xor_zero_r, eval_double.
Qed.

(** [x^0], [x^2], [x^4], ... modulo [char_poly], from [t] on. *)
Fixpoint even_powers (n : nat) (t : N) : list N :=
  match n with O => [] | S n => t :: even_powers n (shift (shift t)) end.
Definition square (T : list N) (a : N) : option N :=
  match a with
  | N0 => None
  | Npos p => if (Pos.size_nat p <=? 256)%nat then Some (select N.lxor 0%N p T) else None
  end.
Fixpoint power (T : list N) (k : nat) : option N :=
  match k with O => Some 2%N | S k => match power T k with Some b => square T b | None => None end end.

Lemma wf_step2 s : wf s -> wf (step (step s)).
Proof. intros. by apply wf_step, wf_step. Qed.
Lemma step2_xor s t : wf s -> wf t -> step (step (xor s t)) = xor (step (step s)) (step (step t)).
Proof. intros. rewrite !step_xor; try done; by apply wf_step. Qed.

Lemma select_even_powers p n t s : (Pos.size_nat p <= n)%nat -> wf s ->
  eval step (select N.lxor 0%N p (even_powers n t)) s = eval step t (eval (λ s, step (step s)) (Npos p) s).
Proof.
  intros Hn Hs. revert n t Hn. induction p as [p IH|p IH|]; intros [|n] t Hn; simpl in Hn; try lia; try done;
    cbn [even_powers select].
  all: pose proof (wf_eval _ wf_step2 (Npos p) s Hs) as We.
  all: pose proof (eval_step _ wf_step2 step2_xor eq_refl (Npos p) s Hs) as E; cbv beta in E.
  - change (Npos p~1) with (N.succ_double (Npos p)). rewrite eval_succ_double, E, eval_lxor, IH by lia.
    rewrite !eval_shift by (first [done|by apply wf_step]).
    by rewrite (eval_xor step wf_step step_xor) by (first [done|by apply wf_step2]).
  - change (Npos p~0) with (N.double (Npos p)). rewrite eval_double, E, IH by lia.
    by rewrite !eval_shift by (first [done|by apply wf_step]).
Qed.

Definition advance (n : N) (s : State) : State := N.iter n step s.
Lemma wf_advance n s : wf s -> wf (advance n s).
Proof. intros Hs. unfold advance. apply N.iter_invariant; [intros; by apply wf_step|done]. Qed.
Lemma advance_add n m s : advance (n + m) s = advance n (advance m s).
Proof. apply N.iter_add. Qed.

Lemma power_spec k a s : wf s -> power (even_powers 256 1) k = Some a ->
  eval step a s = advance (2 ^ N.of_nat k) s.
Proof.
  revert a s. induction k as [|k IH]; intros a s Hs; [by intros [= <-]|].
  cbn [power]. destruct (power (even_powers 256 1) k) as [b|]; [|done].
  destruct b as [|p]; [done|]. unfold square. destruct (Nat.leb_spec (Pos.size_nat p) 256) as [Hp|]; [|done].
  intros E. assert (a = select N.lxor 0%N p (even_powers 256 1)) as -> by congruence. clear E.
  rewrite select_even_powers by done. change (eval step 1 ?s) with s.
  rewrite (eval_square step wf_step step_xor) by done.
  rewrite (IH (Npos p) s), (IH (Npos p)) by (first [done|by apply wf_advance]).
  rewrite <- advance_add. f_equal. rewrite Nat2N.inj_succ, N.pow_succ_r'. lia.
Qed.

(** ** The jump functions *)
Definition bits_of (ws : list Z) : list bool :=
  flat_map (λ w, List.map (λ b, negb (Z.land w (Z.shiftl 1 (Z.of_nat b)) =? 0)) (seq 0 64)) ws.
Fixpoint poly_of (l : list bool) : N :=
  match l with [] => 0 | b :: l => (if b then N.succ_double else N.double) (poly_of l) end%N.

Lemma jump_by_loop ws s g :
  (foldl (λ acc word, foldl (jump_step word) acc (seq 0 64)) (s, g) ws).1
  = xor s (eval step (poly_of (bits_of ws)) g).
Proof.
  pose (bstep := λ (acc : State * State) (b : bool), (if b then xor acc.1 acc.2 else acc.1, step acc.2)).
  assert (H1 : forall w l acc, foldl (jump_step w) acc l
    = foldl bstep acc (List.map (λ b, negb (Z.land w (Z.shiftl 1 (Z.of_nat b)) =? 0)) l)).
  { intros w l. induction l as [|b l IH]; intros acc; [done|]. simpl. rewrite IH. by destruct acc. }
  assert (H2 : forall acc, foldl (λ acc word, foldl (jump_step word) acc (seq 0 64)) acc ws
    = foldl bstep acc (bits_of ws)).
  { unfold bits_of. induction ws as [|w ws IH]; intros acc; [done|].
    cbn [foldl flat_map]. by rewrite H1, IH, foldl_app. }
  rewrite H2. clear H1 H2. generalize (bits_of ws). intros l. revert s g.
  induction l as [|b l IH]; intros s g; simpl; [by rewrite xor_zero_r|].
  etrans; [apply (IH (if b then xor s g else s) (step g))|]. cbn [poly_of]. destruct b; [by rewrite eval_succ_double, xor_assoc|by rewrite eval_double].
Qed.

Lemma jump_by_power JUMP k g : power (even_powers 256 1) k = Some (poly_of (bits_of JUMP)) -> wf g ->
  jump_by JUMP g = advance (2 ^ N.of_nat k) g.
Proof. intros HP Hg. unfold jump_by. rewrite jump_by_loop, xor_zero_l. by apply power_spec. Qed.
Lemma jump_power : power (even_powers 256 1) 128 = Some (poly_of (bits_of JUMP)).
Proof. vm_compute. reflexivity. Qed.
Lemma long_jump_power : power (even_powers 256 1) 192 = Some (poly_of (bits_of LONG_JUMP)).
Proof. vm_compute. reflexivity. Qed.

Lemma advance_inj n s t : wf s -> wf t -> advance n s = advance n t -> s = t.
Proof.
  assert (K0 : forall s, wf s -> step s = zero -> s = zero).
  { intros u Hu E. destruct (kernel_all u Hu) as [_ K].
    change char_poly with (N.succ_double (N.div2 char_poly)) in K.
    by rewrite eval_succ_double, E, (eval_zero step step_zero), xor_zero_r in K. }
  assert (K1 : forall s t, wf s -> wf t -> step s = step t -> s = t).
  { intros u v Hu Hv E. rewrite <- (xor_zero_r u), <- (xor_nilpotent v), xor_assoc.
    rewrite (K0 (xor u v)); [by rewrite xor_zero_l|by apply wf_xor|].
    by rewrite step_xor, E, xor_nilpotent by done. }
  intros Hs Ht. induction n as [|n IH] using N.peano_ind; [done|].
  rewrite <- N.add_1_l, !advance_add. intros E. apply IH, K1; [by apply wf_advance..|done].
Qed.

Lemma advance_zero n : advance n zero = zero.
Proof. unfold advance. apply N.iter_invariant; [by intros x ->|done]. Qed.

Lemma jump_once_advance g : wf g -> jump_once g = advance (2 ^ 128) g.
Proof. intros Hg. exact (jump_by_power JUMP 128 g jump_power Hg). Qed.
Lemma jump_advance k g : wf g -> jump k g = advance (N.of_nat k * 2 ^ 128) g.
Proof.
  intros Hg. induction k as [|k IH]; [done|].
  change (jump (S k) g) with (jump_once (jump k g)).
  rewrite IH, jump_once_advance by by apply wf_advance. rewrite <- advance_add. f_equal. lia.
Qed.

Lemma splitmix_words x : word x -> word (SplitMix64.next x).1 /\ word (SplitMix64.next x).2.
Proof.
  intros Hx. unfold SplitMix64.next. cbv zeta. cbn [fst snd]. split; [|apply word_u64].
  apply word_lxor; [apply word_u64|apply word_shiftr; [apply word_u64|lia]].
Qed.
Lemma wf_seeded seed : word seed -> exists a b c, wf (mk seed a b c) /\ mk seed a b c <> zero /\
  forall k, make seed k = jump k (mk seed a b c).
Proof.
  intros Hs. unfold make. destruct (SplitMix64.next seed) as [a x] eqn:Ea.
  destruct (SplitMix64.next x) as [b y] eqn:Eb. destruct (SplitMix64.next y) as [c z] eqn:Ec.
  pose proof (splitmix_words seed Hs) as [Ha Hx]. rewrite Ea in *. simpl in *.
  pose proof (splitmix_words x Hx) as [Hb Hy]. rewrite Eb in *. simpl in *.
  pose proof (splitmix_words y Hy) as [Hc _]. rewrite Ec in *. simpl in *.
  exists a, b, c. split_and!; [by apply wf_mk| |done].
  intros E. injection E as -> -> -> ->. vm_compute in Ea. congruence.
Qed.

Lemma next_words g : wf g -> word (next g).1 /\ wf (next g).2.
Proof. intros Hg. split; [apply word_u64|by apply wf_step]. Qed.
End XoshiroFacts.

(** ** Draws, strings and permutations *)
Module Facts.
Import Xoshiro256PlusPlus XoshiroFacts.

Lemma wp_urand_int min max g Q : wf g -> 0 <= min <= max -> max < 2 ^ 64 -> max - min < 2 ^ 64 - 1 ->
  (forall v g', min <= v <= max -> wf g' -> Q v g') -> wp (urand_int min max) Q g.
Proof.
  intros Hg Hr Hm Hd HQ. unfold wp, urand_int. destruct (next g) as [r g'] eqn:En.
  pose proof (next_words g Hg) as [Hw Hg']. rewrite En in Hw, Hg'. simpl in *.
  assert (u64 (u64 (max - min) + 1) = max - min + 1) as ->.
  { unfold u64. rewrite (Z.mod_small (max - min)), Z.mod_small; lia. }
  destruct (Z.eqb_spec (max - min + 1) 0); [lia|].
  pose proof (Z.mod_pos_bound r (max - min + 1) ltac:(lia)).
  apply HQ; [|done]. unfold u64. rewrite Z.mod_small; lia.
Qed.

Lemma write_at_ok {A} (buf : list A) i v : (i < length buf)%nat -> write_at buf i v = Ok (<[i := v]> buf).
Proof. intros. unfold write_at. by rewrite decide_True. Qed.

Lemma fill_random_spec c out i n g Q :
  c <> [] -> Z.of_nat (length c) < 2 ^ 64 -> (i + n <= length out)%nat -> wf g ->
  (forall str g', length str = n -> Forall (.∈ c) str -> wf g' -> Q (take i out ++ str ++ drop (i + n) out) g') ->
  wp (fill_random c out i n) Q g.
Proof.
  intros Hc Hl Ho Hg HQ. revert out i g Q Ho Hg HQ. induction n as [|n IH]; intros out i g Q Ho Hg HQ; simpl.
  - apply wp_ret. rewrite <- (take_drop i out). specialize (HQ [] g eq_refl (Forall_nil_2 _) Hg).
    by rewrite Nat.add_0_r in HQ.
  - assert (0 < length c)%nat by (destruct c; simpl in *; [done|lia]).
    wp_steps. apply wp_urand_int; try lia; [done|]. intros k g' Hk Hg'. wp_steps.
    destruct (lookup_lt_is_Some_2 c (Z.to_nat k) ltac:(lia)) as [x Hx]. rewrite Hx. simpl.
    wp_steps. rewrite write_at_ok by lia. simpl. apply IH; [rewrite length_insert; lia|done|].
    intros str g'' Hs Hf Hg''.
    replace (take (S i) (<[i:=x]> out)) with (take i out ++ [x]).
    2:{ rewrite (take_S_r _ _ x); [by rewrite take_insert_ge by lia|apply list_lookup_insert_eq; lia]. }
    rewrite drop_insert_lt by lia. rewrite <- app_assoc.
    replace (S i + n)%nat with (i + S n)%nat by lia. apply (HQ (x :: str)); [simpl; lia| |done].
    apply Forall_cons. split; [by apply (list_elem_of_lookup_2 c (Z.to_nat k))|done].
Qed.

Lemma make_random_string_spec c out min_len max_len g :
  c <> [] -> Z.of_nat (length c) < 2 ^ 64 -> 0 <= min_len <= max_len -> max_len < Z.of_nat (length out) ->
  Z.of_nat (length out) < 2 ^ 64 -> wf g ->
  wp (make_random_string c out min_len max_len)
     (λ r g', exists str, r = (str ++ 0 :: drop (S (length str)) out, Z.of_nat (length str)) /\
        min_len <= Z.of_nat (length str) <= max_len /\ Forall (.∈ c) str /\ wf g') g.
Proof.
  intros Hc Hl Hr Ho Hb Hg. unfold make_random_string. wp_steps.
  apply wp_urand_int; try lia; [done|]. intros len g' Hlen Hg'. wp_steps.
  apply fill_random_spec; [done|done|lia|done|]. intros str g'' Hs Hf Hg''. wp_steps. simpl.
  rewrite write_at_ok by (rewrite length_app, length_drop; lia). simpl. exists str.
  replace (Z.to_nat len) with (length str) by lia. rewrite insert_app_r_alt, Nat.sub_diag by lia.
  split_and!; [|lia|lia|done|done]. f_equal; [|lia]. f_equal.
  destruct (drop (length str) out) as [|x l] eqn:Ed; [apply (f_equal length) in Ed; rewrite length_drop in Ed; simpl in Ed; lia|].
  simpl. f_equal. change l with (drop 1 (x :: l)). by rewrite <- Ed, drop_drop, Nat.add_1_r.
Qed.


(** [copy_cstr] on a terminated string copies what fits and terminates it. *)
Lemma copy_cstr_loop_spec s rest out i n :
  Forall (.≠ 0) s -> (i + n <= length out)%nat -> (i <= length s)%nat ->
  copy_cstr_loop out (s ++ 0 :: rest) i n
  = Ok (take i out ++ take n (drop i s) ++ drop (i + Nat.min n (length s - i)) out, (i + Nat.min n (length s - i))%nat).
Proof.
  intros Hs. revert out i. induction n as [|n IH]; intros out i Ho Hi; cbn [copy_cstr_loop].
  - simpl. by rewrite Nat.add_0_r, take_drop.
  - destruct (decide (i = length s)) as [->|].
    + rewrite lookup_app_r, drop_all, !Nat.sub_diag, Nat.min_0_r, Nat.add_0_r, firstn_nil, app_nil_l, take_drop by lia. done.
    + destruct (lookup_lt_is_Some_2 s i ltac:(lia)) as [c Hc]. rewrite lookup_app_l, Hc by lia. simpl.
      assert (c <> 0) by exact (Forall_lookup_1 _ _ _ _ Hs Hc). rewrite (proj2 (Z.eqb_neq c 0)) by done.
      rewrite write_at_ok by lia. simpl. rewrite IH by (rewrite ?length_insert; lia).
      replace (S i + Nat.min n (length s - S i))%nat with (i + Nat.min (S n) (length s - i))%nat by lia.
      rewrite (drop_S s c i) by done. rewrite firstn_cons.
      rewrite (take_S_r _ _ c) by (apply list_lookup_insert_eq; lia).
      rewrite take_insert_ge, drop_insert_lt by lia. by rewrite <- app_assoc.
Qed.

Lemma copy_cstr_spec s rest out size :
  Forall (.≠ 0) s -> (0 < size <= length out)%nat ->
  let n := Nat.min (size - 1) (length s) in
  copy_cstr out (s ++ 0 :: rest) size = Ok (take n s ++ 0 :: drop (S n) out, n).
Proof.
  intros Hs Hz n. destruct size as [|k]; [lia|]. unfold copy_cstr.
  rewrite copy_cstr_loop_spec by (done || lia). simpl. rewrite !Nat.sub_0_r in *. subst n. simpl in *.
  rewrite Nat.sub_0_r. rewrite drop_0. set (n := Nat.min k (length s)).
  assert (length (take k s) = n) as Hl by (rewrite length_take; lia).
  rewrite write_at_ok by (rewrite length_app, Hl, length_drop; lia). simpl.
  rewrite insert_app_r_alt, Hl, Nat.sub_diag by lia.
  replace (take n s) with (take k s) by (destruct (decide (k <= length s)%nat); [by replace n with k by lia|by rewrite !take_ge by lia]).
  destruct (drop n out) as [|x l] eqn:Ed; [apply (f_equal length) in Ed; rewrite length_drop in Ed; simpl in Ed; lia|].
  simpl. do 3 f_equal. change l with (drop 1 (x :: l)). by rewrite <- Ed, drop_drop, Nat.add_1_r.
Qed.


(** The shuffle permutes, and its assertions hold. *)
Lemma wp_shuffle `{BuildConfig} perm i n g Q :
  (i + n + 1 = length perm)%nat -> Z.of_nat (length perm) < 2 ^ 64 -> wf g ->
  (forall perm' g', perm' ≡ₚ perm -> wf g' -> Q perm' g') ->
  wp (Permutation.shuffle perm i n) Q g.
Proof.
  revert perm i g Q. induction n as [|n IH]; intros perm i g Q Hl Hb Hg HQ; simpl; [by apply wp_ret, HQ|].
  assert (u64 (u64 (Z.of_nat (length perm) - Z.of_nat i) - 1) = Z.of_nat (length perm) - Z.of_nat i - 1) as ->.
  { unfold u64. rewrite (Z.mod_small (Z.of_nat (length perm) - Z.of_nat i)), Z.mod_small; lia. }
  wp_steps. apply wp_urand_int; try lia; [done|]. intros j g' Hj Hg'. wp_steps; [apply Z.ltb_lt; lia|].
  destruct (Z.eqb_spec j 0) as [->|Hj0]; simpl.
  - apply IH; [lia|done|done|done].
  - unfold Permutation.swap.
    destruct (lookup_lt_is_Some_2 perm i ltac:(lia)) as [x Hx].
    destruct (lookup_lt_is_Some_2 perm (i + Z.to_nat j) ltac:(lia)) as [y Hy].
    rewrite Hx, Hy. simpl. rewrite write_at_ok by lia. simpl.
    rewrite write_at_ok by (rewrite length_insert; lia). simpl.
    apply IH; [by rewrite !length_insert; lia|by rewrite !length_insert|done|].
    intros perm' g'' HP Hg''. apply HQ; [|done]. rewrite HP. by apply Permutation_insert_swap.
Qed.

Lemma wp_permutation `{BuildConfig} min max g :
  0 <= min <= max -> max < 2 ^ 64 -> max - min < 2 ^ 64 - 1 -> wf g ->
  wp (Permutation.make min max)
     (λ perm g', perm ≡ₚ ((λ k, min + Z.of_nat k) <$> seq 0 (Z.to_nat (max - min + 1))) /\ wf g') g.
Proof.
  intros Hr Hm Hd Hg. unfold Permutation.make. cbv zeta.
  assert (u64 (u64 (max - min) + 1) = max - min + 1) as ->.
  { unfold u64. rewrite (Z.mod_small (max - min)), Z.mod_small; lia. }
  wp_steps; [apply Z.leb_le; lia|apply Z.eqb_eq; unfold u64; rewrite Z.mod_small; lia|].
  assert ((λ k, u64 (min + Z.of_nat k)) <$> seq 0 (Z.to_nat (max - min + 1))
    = (λ k, min + Z.of_nat k) <$> seq 0 (Z.to_nat (max - min + 1))) as ->.
  { apply list_fmap_ext. intros ? k Hk%list_elem_of_lookup_2%elem_of_seq. unfold u64. rewrite Z.mod_small; lia. }
  apply wp_shuffle; [|rewrite length_fmap, length_seq; lia|done|done].
  rewrite length_fmap, length_seq. unfold u64. rewrite Z.mod_small; lia.
Qed.
End Facts.

(** ** The properties of the generators *)
Section Properties.
Import Xoshiro256PlusPlus XoshiroFacts Facts.

(** C34. [jump] advances the generator by [2^128] calls per jump and
    [long_jump] by [2^192] calls, for every state. *)
Theorem jumps_are_powers k g : wf g ->
  jump k g = advance (N.of_nat k * 2 ^ 128) g /\ long_jump g = advance (2 ^ 192) g.
Proof.
  intros Hg. split; [by apply jump_advance|]. exact (jump_by_power LONG_JUMP 192 g long_jump_power Hg).
Qed.

(** C38. A generator made from a 64-bit seed keeps four 64-bit words that are
    never all zero, whatever it is jumped by and however often it is called,
    and every draw is a 64-bit word. *)
Theorem generator_well_typed seed k n : word seed ->
  let g := advance n (make seed k) in wf g /\ g <> zero /\ word (next g).1 /\ (next g).2 = step g.
Proof.
  intros Hs. destruct (wf_seeded seed Hs) as (a & b & c & Hw & Hz & ->). intros g.
  assert (g = advance (n + N.of_nat k * 2 ^ 128) (mk seed a b c)) as Eg
    by (unfold g; by rewrite jump_advance, advance_add by done).
  assert (wf g) by (rewrite Eg; by apply wf_advance).
  split_and!; [done| |apply word_u64|done].
  intros E. rewrite Eg in E. apply Hz, (advance_inj (n + N.of_nat k * 2 ^ 128)); [done|apply wf_zero|].
  by rewrite advance_zero.
Qed.

(** A [Permutation] of [min..max] holds each of these numbers once and its
    assertions hold; an access below its size is in range. *)
Theorem permutation_permutes `{BuildConfig} min max g :
  0 <= min <= max -> max < 2 ^ 64 -> max - min < 2 ^ 64 - 1 -> wf g ->
  exists perm g', Permutation.make min max g = Ok (perm, g') /\ wf g' /\
    perm ≡ₚ ((λ k, min + Z.of_nat k) <$> seq 0 (Z.to_nat (max - min + 1))) /\
    forall i, Z.of_nat i <= max - min -> exists v, Permutation.at_ perm i = Ok v /\ min <= v <= max.
Proof.
  intros Hr Hm Hd Hg. destruct (wp_elim _ _ _ (wp_permutation min max g Hr Hm Hd Hg)) as (perm & g' & E & HP & Hg').
  exists perm, g'. split_and!; [done..|]. intros i Hi.
  assert (length perm = Z.to_nat (max - min + 1)) as Hl by (by rewrite HP, length_fmap, length_seq).
  destruct (lookup_lt_is_Some_2 perm i ltac:(lia)) as [v Hv]. exists v. unfold Permutation.at_.
  rewrite assert_ok by (right; apply Z.ltb_lt; lia). simpl. rewrite Hv. split; [done|].
  apply list_elem_of_lookup_2 in Hv. rewrite HP in Hv. apply list_elem_of_fmap in Hv as (n & -> & Hn%elem_of_seq). lia.
Qed.
End Properties.

Module RandomWitness.
Import Xoshiro256PlusPlus XoshiroFacts.
Definition g0 : State := make 42 0.
Lemma wf_g0 : wf g0. Proof. vm_compute. intuition congruence. Qed.
Lemma jumps_are_powers_witness : jump 3 g0 = advance (3 * 2 ^ 128) g0 /\ long_jump g0 = advance (2 ^ 192) g0.
Proof. exact (jumps_are_powers 3 g0 wf_g0). Defined.
Lemma generator_well_typed_witness : let g := advance 5 (make 42 1) in wf g /\ g <> zero /\ word (next g).1 /\ (next g).2 = step g.
Proof. apply (generator_well_typed 42 1 5). unfold word. lia. Defined.
Lemma permutation_permutes_witness :
  exists perm g', @Permutation.make debug_build 1 10 g0 = Ok (perm, g') /\ wf g' /\
    perm ≡ₚ ((λ k, 1 + Z.of_nat k) <$> seq 0 (Z.to_nat (10 - 1 + 1))) /\
    forall i, Z.of_nat i <= 10 - 1 -> exists v, @Permutation.at_ debug_build perm i = Ok v /\ 1 <= v <= 10.
Proof. apply (@permutation_permutes debug_build 1 10 g0); [lia..|exact wf_g0]. Defined.
Example shuffle_ten : exists g, @Permutation.make debug_build 1 10 g0 = Ok ([8; 6; 2; 10; 4; 9; 1; 3; 5; 7], g).
Proof. eexists. vm_compute. reflexivity. Qed.
End RandomWitness.
