(* ===== verification/TpccRecords.v ===== *)
(** * TpccRecords: the TPC-C records, their generators and copies

    [benchmarks/tpcc/include/record_layout.hpp] and [src/record_layout.cpp].
    A [char[n]] field is a list of [n] bytes; [generate] and [deep_copy_from]
    write into the bytes the object has.  Doubles are a parameter
    ([FloatOps]): the Release build is compiled with [-Ofast], under which the
    compiler may reassociate floating-point expressions. *)
From Stdlib Require Import Floats.SpecFloat.
From S2P Require Import Prelude Random.

Class FloatOps := {
  double : Type;
  d_add : double -> double -> double;
  d_sub : double -> double -> double;
  d_mul : double -> double -> double;
  d_div : double -> double -> double;
  d_of_Z : Z -> double }.

Definition u8 (z : Z) : Z := z mod 2 ^ 8.
Definition u16 (z : Z) : Z := z mod 2 ^ 16.
Definition u32 (z : Z) : Z := z mod 2 ^ 32.
Definition i16 (z : Z) : Z := (z + 2 ^ 15) mod 2 ^ 16 - 2 ^ 15.

(** The thread-local variables: the generator of [get_rand] and the counter of [get_timestamp]. *)
Record Local := mkLocal { rand : Xoshiro256PlusPlus.State; timestamp : Z }.
Definition with_rand {A} (m : M Xoshiro256PlusPlus.State A) : M Local A := fun l =>
  match m (rand l) with Ok (a, g) => Ok (a, mkLocal g (timestamp l)) | Err e => Err e end.
(** [i++] on a signed counter. *)
Definition get_timestamp : M Local Z := fun l =>
  if timestamp l =? 2 ^ 63 - 1 then Err UndefinedBehaviour
  else Ok (timestamp l, mkLocal (rand l) (timestamp l + 1)).

Definition urand (min max : Z) : M Local Z := with_rand (urand_int min max).
Definition astring (out : list Z) (min_len max_len : Z) : M Local (list Z) :=
  '(out, _) ← with_rand (make_random_astring out min_len max_len); mret out.
Definition nstring (out : list Z) (min_len max_len : Z) : M Local (list Z) :=
  '(out, _) ← with_rand (make_random_nstring out min_len max_len); mret out.
Definition copy (out inp : list Z) : outcome (list Z) :=
  '(out, _) ← copy_cstr out inp (length out); mret out.

(** [strlen], from position [i]. *)
Fixpoint strlen (s : list Z) : outcome nat :=
  match s with [] => Err UndefinedBehaviour | c :: s => if c =? 0 then Ok 0%nat else n ← strlen s; mret (S n) end.
(** [memcpy] of [src] to [buf + i]. *)
Fixpoint write_bytes (buf : list Z) (i : nat) (src : list Z) : outcome (list Z) :=
  match src with [] => Ok buf | c :: src => buf ← write_at buf i c; write_bytes buf (S i) src end.
Definition bytes (s : string) : list Z := (λ a, Z.of_nat (Ascii.nat_of_ascii a)) <$> String.list_ascii_of_string s.
Definition c_string (s : string) : list Z := bytes s ++ [0].

Section Generators.
Context `{BuildConfig} `{FloatOps}.

Definition urand_double (min max divider : Z) : M Local double :=
  r ← urand min max; mret (d_div (d_of_Z r) (d_of_Z divider)).

Definition get_constant_for_nurand (A : Z) (is_load : bool) : Z :=
  if A =? 255 then (if is_load then 250 else 150)
  else if A =? 1023 then 987 else if A =? 8191 then 5987 else 2 ^ 64 - 1.

Definition nurand_int (A : Z) (IS_LOAD : bool) (x y : Z) : M Local Z :=
  let C := get_constant_for_nurand A IS_LOAD in
  if C =? 2 ^ 64 - 1 then failM (RuntimeError "nurand_int bug")
  else
    a ← urand 0 A; b ← urand x y;
    let d := u64 (u64 (y - x) + 1) in
    if d =? 0 then failM UndefinedBehaviour
    else mret (u64 (u64 (Z.lor a b + C) mod d + x)).

Definition make_original (out : list Z) : M Local (list Z) :=
  len ← lift (strlen out);
  lift (assert_ (8 <=? Z.of_nat len));;
  p ← urand 0 (u64 (Z.of_nat len - 8));
  lift (write_bytes out (Z.to_nat p) (bytes "ORIGINAL")).

Definition candidates : list string :=
  ["BAR"; "OUGHT"; "ABLE"; "PRI"; "PRES"; "ESE"; "ANTI"; "CALLY"; "ATION"; "EING"]%string.
Definition MAX_LAST : Z := 16.

(** [copy_cstr(&out[len], candidate, size)]. *)
Definition copy_cstr_at (out : list Z) (len : nat) (inp : list Z) (size : nat) : outcome (list Z * nat) :=
  '(tail, n) ← copy_cstr (drop len out) inp size; mret (take len out ++ tail, n).
(** The body of the loop of [make_clast]: one syllable. *)
Definition add_syllable (st : list Z * nat) (i : Z) : outcome (list Z * nat) :=
  c ← deref (candidates !! Z.to_nat i);
  '(out, n) ← copy_cstr_at st.1 st.2 (c_string c) (Z.to_nat (MAX_LAST + 1) - st.2);
  mret (out, st.2 + n)%nat.
Definition make_clast (out : list Z) (num : Z) : outcome (list Z * nat) :=
  assert_ (num <? 1000);;
  st ← add_syllable (out, 0%nat) (num / 100);
  st ← add_syllable st (num mod 100 / 10);
  st ← add_syllable st (num mod 10);
  assert_ (Z.of_nat st.2 <? MAX_LAST);;
  out ← write_at st.1 st.2 0; mret (out, st.2).

Definition make_random_zip (out : list Z) : M Local (list Z) :=
  out ← nstring out 4 4;
  lift (write_bytes out 4 (bytes "11111" ++ [0])).

(** ** The records *)
Record Item := mkItem { i_id : Z; i_im_id : Z; i_price : double; i_name : list Z; i_data : list Z }.
Record Address := mkAddress { street_1 : list Z; street_2 : list Z; city : list Z; state : list Z; zip : list Z }.
Record Warehouse := mkWarehouse { w_id : Z; w_tax : double; w_ytd : double; w_name : list Z; w_address : Address }.
Record Stock := mkStock { s_w_id : Z; s_i_id : Z; s_quantity : Z; s_ytd : Z; s_order_cnt : Z; s_remote_cnt : Z;
  s_dist : list (list Z); s_data : list Z }.
Record District := mkDistrict { d_w_id : Z; d_id : Z; d_next_o_id : Z; d_tax : double; d_ytd : double;
  d_name : list Z; d_address : Address }.
Record Customer := mkCustomer { c_w_id : Z; c_d_id : Z; c_id : Z; c_payment_cnt : Z; c_delivery_cnt : Z; c_since : Z;
  c_credit_lim : double; c_discount : double; c_balance : double; c_ytd_payment : double;
  c_first : list Z; c_middle : list Z; c_last : list Z; c_phone : list Z; c_credit : list Z; c_data : list Z;
  c_address : Address }.
Record History := mkHistory { h_c_w_id : Z; h_c_d_id : Z; h_c_id : Z; h_w_id : Z; h_d_id : Z; h_date : Z;
  h_amount : double; h_data : list Z }.
Record Order := mkOrder { o_w_id : Z; o_d_id : Z; o_id : Z; o_c_id : Z; o_carrier_id : Z; o_ol_cnt : Z;
  o_all_local : Z; o_entry_d : Z }.
Record NewOrder := mkNewOrder { no_w_id : Z; no_d_id : Z; no_o_id : Z }.
Record OrderLine := mkOrderLine { ol_w_id : Z; ol_d_id : Z; ol_o_id : Z; ol_number : Z; ol_i_id : Z;
  ol_supply_w_id : Z; ol_delivery_d : Z; ol_quantity : Z; ol_amount : double; ol_dist_info : list Z }.

(** ** [deep_copy_from]

    [same] stands for [this == &src]; the strings are copied with [copy_cstr]. *)
Definition Item_deep_copy_from (same : bool) (this src : Item) : outcome Item :=
  if same then mret this else
  name ← copy (i_name this) (i_name src); data ← copy (i_data this) (i_data src);
  mret (mkItem (i_id src) (i_im_id src) (i_price src) name data).

Definition Address_deep_copy_from (same : bool) (this src : Address) : outcome Address :=
  if same then mret this else
  s1 ← copy (street_1 this) (street_1 src); s2 ← copy (street_2 this) (street_2 src);
  c ← copy (city this) (city src); st ← copy (state this) (state src); z ← copy (zip this) (zip src);
  mret (mkAddress s1 s2 c st z).

Definition Warehouse_deep_copy_from (same : bool) (this src : Warehouse) : outcome Warehouse :=
  if same then mret this else
  name ← copy (w_name this) (w_name src);
  addr ← Address_deep_copy_from false (w_address this) (w_address src);
  mret (mkWarehouse (w_id src) (w_tax src) (w_ytd src) name addr).

(** [sizeof(10 * (Stock::DIST + 1))] is the size of an [int]: four bytes of [s_dist[0]]. *)
Definition Stock_deep_copy_from (same : bool) (this src : Stock) : outcome Stock :=
  if same then mret this else
  from ← deref (s_dist src !! 0%nat); to ← deref (s_dist this !! 0%nat);
  row ← write_bytes to 0 (take 4 from);
  dist ← write_at (s_dist this) 0 row;
  data ← copy (s_data this) (s_data src);
  mret (mkStock (s_w_id src) (s_i_id src) (s_quantity src) (s_ytd src) (s_order_cnt src) (s_remote_cnt src) dist data).

Definition District_deep_copy_from (same : bool) (this src : District) : outcome District :=
  if same then mret this else
  name ← copy (d_name this) (d_name src);
  addr ← Address_deep_copy_from false (d_address this) (d_address src);
  mret (mkDistrict (d_w_id src) (d_id src) (d_next_o_id src) (d_tax src) (d_ytd src) name addr).

Definition Customer_deep_copy_from (same : bool) (this src : Customer) : outcome Customer :=
  if same then mret this else
  first ← copy (c_first this) (c_first src); middle ← copy (c_middle this) (c_middle src);
  last ← copy (c_last this) (c_last src); phone ← copy (c_phone this) (c_phone src);
  credit ← copy (c_credit this) (c_credit src); data ← copy (c_data this) (c_data src);
  addr ← Address_deep_copy_from false (c_address this) (c_address src);
  mret (mkCustomer (c_w_id src) (c_d_id src) (c_id src) (c_payment_cnt src) (c_delivery_cnt src) (c_since src)
          (c_credit_lim src) (c_discount src) (c_balance src) (c_ytd_payment src) first middle last phone credit data addr).

Definition History_deep_copy_from (same : bool) (this src : History) : outcome History :=
  if same then mret this else
  data ← copy (h_data this) (h_data src);
  mret (mkHistory (h_c_w_id src) (h_c_d_id src) (h_c_id src) (h_w_id src) (h_d_id src) (h_date src) (h_amount src) data).

Definition Order_deep_copy_from (same : bool) (this src : Order) : Order :=
  if same then this else
  mkOrder (o_w_id src) (o_d_id src) (o_id src) (o_c_id src) (o_carrier_id src) (o_ol_cnt src) (o_all_local src) (o_entry_d src).

Definition NewOrder_deep_copy_from (same : bool) (this src : NewOrder) : NewOrder :=
  if same then this else mkNewOrder (no_w_id src) (no_d_id src) (no_o_id src).

Definition OrderLine_deep_copy_from (same : bool) (this src : OrderLine) : outcome OrderLine :=
  if same then mret this else
  info ← copy (ol_dist_info this) (ol_dist_info src);
  mret (mkOrderLine (ol_w_id src) (ol_d_id src) (ol_o_id src) (ol_number src) (ol_i_id src) (ol_supply_w_id src)
          (ol_delivery_d src) (ol_quantity src) (ol_amount src) info).

(** ** [generate] *)
Definition make_random_address (a : Address) : M Local Address :=
  s1 ← astring (street_1 a) 10 20; s2 ← astring (street_2 a) 10 20; c ← astring (city a) 10 20;
  st ← astring (state a) 2 2; z ← make_random_zip (zip a);
  mret (mkAddress s1 s2 c st z).

Definition make_original_sometimes (data : list Z) : M Local (list Z) :=
  r ← urand 0 99; if r <? 10 then make_original data else mret data.

Definition Item_generate (this : Item) (i_id_ : Z) : M Local Item :=
  im ← urand 1 10000; price ← urand_double 100 10000 100;
  name ← astring (i_name this) 14 24; data ← astring (i_data this) 26 50;
  data ← make_original_sometimes data;
  mret (mkItem i_id_ (u32 im) price name data).

Definition Warehouse_generate (this : Warehouse) (w_id_ : Z) : M Local Warehouse :=
  tax ← urand_double 0 2000 10000; name ← astring (w_name this) 6 10;
  addr ← make_random_address (w_address this);
  mret (mkWarehouse w_id_ tax (d_of_Z 300000) name addr).

Definition Stock_generate (this : Stock) (s_w_id_ s_i_id_ : Z) : M Local Stock :=
  q ← urand 10 100;
  dist ← forM (seq 0 10) (λ i, d ← lift (deref (s_dist this !! i)); astring d 24 24);
  data ← astring (s_data this) 26 50; data ← make_original_sometimes data;
  mret (mkStock s_w_id_ s_i_id_ (i16 q) 0 0 0 dist data).

Definition District_generate (this : District) (d_w_id_ d_id_ : Z) : M Local District :=
  tax ← urand_double 0 2000 10000; name ← astring (d_name this) 6 10;
  addr ← make_random_address (d_address this);
  mret (mkDistrict d_w_id_ d_id_ 3001 tax (d_of_Z 30000) name addr).

Definition Customer_generate (this : Customer) (c_w_id_ c_d_id_ c_id_ t_ : Z) : M Local Customer :=
  discount ← urand_double 0 5000 10000;
  first ← astring (c_first this) 8 16;
  middle ← lift (copy (c_middle this) (c_string "OE"));
  last ← (if c_id_ <=? 1000 then lift (make_clast (c_last this) (u32 (c_id_ - 1)))
          else n ← nurand_int 255 true 0 999; lift (make_clast (c_last this) n));
  phone ← nstring (c_phone this) 16 16;
  r ← urand 0 99;
  credit ← lift (copy (c_credit this) (c_string (if r <? 10 then "BC" else "GC")));
  data ← astring (c_data this) 300 500;
  addr ← make_random_address (c_address this);
  mret (mkCustomer c_w_id_ c_d_id_ c_id_ 1 0 t_ (d_of_Z 50000) discount (d_of_Z (-10)) (d_of_Z 10)
          first middle last.1 phone credit data addr).

Definition History_generate (this : History) (h_c_w_id_ h_c_d_id_ h_c_id_ h_w_id_ h_d_id_ : Z) : M Local History :=
  date ← get_timestamp; data ← astring (h_data this) 12 24;
  mret (mkHistory h_c_w_id_ h_c_d_id_ h_c_id_ h_w_id_ h_d_id_ date (d_of_Z 10) data).

Definition Order_generate (o_w_id_ o_d_id_ o_id_ o_c_id_ : Z) : M Local Order :=
  carrier ← (if o_id_ <? 2101 then urand 1 10 else mret 0);
  cnt ← urand 5 15; date ← get_timestamp;
  mret (mkOrder o_w_id_ o_d_id_ o_id_ o_c_id_ (u8 carrier) (u8 cnt) 1 date).

Definition NewOrder_generate (no_w_id_ no_d_id_ no_o_id_ : Z) : NewOrder := mkNewOrder no_w_id_ no_d_id_ no_o_id_.

Definition OrderLine_generate (this : OrderLine)
    (ol_w_id_ ol_d_id_ ol_o_id_ ol_number_ ol_supply_w_id_ ol_i_id_ o_entry_d_ : Z) : M Local OrderLine :=
  amount ← (if ol_o_id_ <? 2101 then mret (d_of_Z 0) else urand_double 1 999999 100);
  info ← astring (ol_dist_info this) 24 24;
  mret (mkOrderLine ol_w_id_ ol_d_id_ ol_o_id_ ol_number_ ol_i_id_ ol_supply_w_id_
          (if ol_o_id_ <? 2101 then o_entry_d_ else 0) 5 amount info).
End Generators.

(** ** Strings in arrays *)

(** [buf] is an array of [n] bytes that holds a terminated string of [lo] to [hi] characters. *)
Definition holds (n lo hi : nat) (buf : list Z) : Prop :=
  length buf = n /\ exists s rest, buf = s ++ 0 :: rest /\ Forall (.≠ 0) s /\ (lo <= length s <= hi)%nat.
(** The string an array holds. *)
Fixpoint c_str (buf : list Z) : list Z :=
  match buf with [] => [] | c :: buf => if c =? 0 then [] else c :: c_str buf end.

Module RecordFacts.
Import Xoshiro256PlusPlus XoshiroFacts Facts.

Lemma c_str_app s rest : Forall (.≠ 0) s -> c_str (s ++ 0 :: rest) = s.
Proof.
  induction s as [|c s IH]; intros Hs; [done|]. apply Forall_cons in Hs as [Hc Hs].
  simpl. rewrite (proj2 (Z.eqb_neq c 0)) by done. by rewrite IH.
Qed.

Lemma strlen_app s rest : Forall (.≠ 0) s -> strlen (s ++ 0 :: rest) = Ok (length s).
Proof.
  induction s as [|c s IH]; intros Hs; [done|]. apply Forall_cons in Hs as [Hc Hs].
  simpl. rewrite (proj2 (Z.eqb_neq c 0)) by done. by rewrite IH.
Qed.

Lemma holds_intro n lo hi s rest :
  length (s ++ 0 :: rest) = n -> Forall (.≠ 0) s -> (lo <= length s <= hi)%nat -> holds n lo hi (s ++ 0 :: rest).
Proof. intros Hn Hs Hl. split; [done|]. by exists s, rest. Qed.

Lemma holds_weaken n lo hi lo' hi' buf : holds n lo hi buf -> (lo' <= lo)%nat -> (hi <= hi')%nat -> holds n lo' hi' buf.
Proof. intros (Hn & s & rest & -> & Hs & Hl) H1 H2. apply holds_intro; [done..|lia]. Qed.

(** A copy into an array of the same size is complete. *)
Lemma copy_spec n lo hi out src : length out = n -> holds n lo hi src ->
  exists out', copy out src = Ok out' /\ holds n lo hi out' /\ c_str out' = c_str src.
Proof.
  intros Ho (Hn & s & rest & -> & Hs & Hl). rewrite length_app in Hn. simpl in Hn.
  unfold copy. rewrite copy_cstr_spec by (done || lia). simpl.
  replace (Nat.min (length out - 1) (length s)) with (length s) by lia. rewrite firstn_all.
  eexists. split; [done|]. rewrite !c_str_app by done. split; [|done].
  apply holds_intro; [rewrite length_app; simpl; rewrite length_drop; lia|done|done].
Qed.

Lemma write_bytes_spec buf i src : (i + length src <= length buf)%nat ->
  write_bytes buf i src = Ok (take i buf ++ src ++ drop (i + length src) buf).
Proof.
  revert buf i. induction src as [|c src IH]; intros buf i Hl; simpl in *.
  - by rewrite Nat.add_0_r, take_drop.
  - rewrite write_at_ok by lia. simpl. rewrite IH by (rewrite length_insert; lia).
    rewrite (take_S_r _ _ c) by (apply list_lookup_insert_eq; lia).
    rewrite take_insert_ge, drop_insert_lt by lia. rewrite <- app_assoc. by replace (S i + length src)%nat with (i + S (length src))%nat by lia.
Qed.

#[local] Arguments write_bytes : simpl never.
#[local] Arguments bytes : simpl never.
#[local] Arguments candidates : simpl never.

(** *** Draws *)
Lemma wp_with_rand {A} (m : M State A) Q l :
  wp m (λ a g, Q a (mkLocal g (timestamp l))) (rand l) -> wp (with_rand m) Q l.
Proof. unfold wp, with_rand. by destruct (m (rand l)) as [[]|]. Qed.

Lemma wp_urand min max Q l : wf (rand l) -> 0 <= min <= max -> max < 2 ^ 64 -> max - min < 2 ^ 64 - 1 ->
  (forall v l', min <= v <= max -> wf (rand l') -> timestamp l' = timestamp l -> Q v l') -> wp (urand min max) Q l.
Proof. intros Hg Hr Hm Hd HQ. apply wp_with_rand, wp_urand_int; try done. intros v g' Hv Hg'. by apply HQ. Qed.

Lemma wp_string c out n lo hi Q l :
  Forall (.≠ 0) c -> c <> [] -> Z.of_nat (length c) < 2 ^ 64 ->
  length out = n -> (lo <= hi < n)%nat -> Z.of_nat n < 2 ^ 64 -> wf (rand l) ->
  (forall out' l', holds n lo hi out' -> wf (rand l') -> timestamp l' = timestamp l -> Q out' l') ->
  wp ('(out, _) ← with_rand (make_random_string c out (Z.of_nat lo) (Z.of_nat hi)); mret out) Q l.
Proof.
  intros Hc Hne Hl Ho Hlo Hn Hg HQ. apply wp_bind, wp_with_rand.
  eapply wp_mono; [apply make_random_string_spec; [done|done|lia|lia|lia|done]|].
  intros [b len] g' (str & [= -> ->] & Hlen & Hf & Hg'). apply wp_ret, HQ; [|done|done].
  apply holds_intro; [rewrite length_app; simpl; rewrite length_drop; lia| |lia].
  eapply Forall_impl; [exact Hf|]. intros x Hx. by apply (proj1 (Forall_forall _ _) Hc).
Qed.
Lemma wp_astring out n lo hi Q l : length out = n -> (lo <= hi < n)%nat -> Z.of_nat n < 2 ^ 64 -> wf (rand l) ->
  (forall out' l', holds n lo hi out' -> wf (rand l') -> timestamp l' = timestamp l -> Q out' l') ->
  wp (astring out (Z.of_nat lo) (Z.of_nat hi)) Q l.
Proof. intros. apply wp_string with (n := n); try done. by apply (bool_decide_unpack _). Qed.
Lemma wp_nstring out n lo hi Q l : length out = n -> (lo <= hi < n)%nat -> Z.of_nat n < 2 ^ 64 -> wf (rand l) ->
  (forall out' l', holds n lo hi out' -> wf (rand l') -> timestamp l' = timestamp l -> Q out' l') ->
  wp (nstring out (Z.of_nat lo) (Z.of_nat hi)) Q l.
Proof. intros. apply wp_string with (n := n); try done. by apply (bool_decide_unpack _). Qed.

(** *** Parts of records *)
Lemma wp_make_original `{BuildConfig} n lo hi buf Q l : holds n lo hi buf -> (8 <= lo)%nat -> Z.of_nat n < 2 ^ 64 -> wf (rand l) ->
  (forall out' l', holds n lo hi out' -> wf (rand l') -> timestamp l' = timestamp l -> Q out' l') ->
  wp (make_original buf) Q l.
Proof.
  intros (Hn & s & rest & -> & Hs & Hl) H8 Hb Hg HQ. rewrite length_app in Hn. simpl in Hn.
  assert (length (bytes "ORIGINAL") = 8%nat /\ Forall (.≠ 0) (bytes "ORIGINAL")) as [Lo Fo]
    by (split; [done|by apply (bool_decide_unpack _)]).
  unfold make_original. revert Lo Fo. generalize (bytes "ORIGINAL"). intros o Lo Fo.
  wp_steps. rewrite strlen_app by done. simpl. wp_steps; [apply Z.leb_le; lia|].
  assert (u64 (Z.of_nat (length s) - 8) = Z.of_nat (length s) - 8) as ->.
  { unfold u64. rewrite Z.mod_small; lia. }
  apply wp_urand; try lia; [done|]. intros p l' Hp Hg' Ht. wp_steps.
  rewrite write_bytes_spec by (rewrite length_app; simpl; lia). simpl.
  rewrite take_app_le, drop_app_le, Lo by lia.
  assert (E : take (Z.to_nat p) s ++ o ++ drop (Z.to_nat p + 8) s ++ 0 :: rest
            = (take (Z.to_nat p) s ++ o ++ drop (Z.to_nat p + 8) s) ++ 0 :: rest)
    by by rewrite <- !app_assoc.
  rewrite E. apply HQ; [|done|done].
  assert (length (take (Z.to_nat p) s ++ o ++ drop (Z.to_nat p + 8) s) = length s) as Hlen.
  { rewrite !length_app, length_take, length_drop, Lo. lia. }
  apply holds_intro; [rewrite length_app, Hlen; simpl; lia| |lia].
  repeat apply Forall_app_2; [by apply Forall_take|done|by apply Forall_drop].
Qed.

Lemma wp_make_original_sometimes `{BuildConfig} n lo hi buf Q l : holds n lo hi buf -> (8 <= lo)%nat -> Z.of_nat n < 2 ^ 64 -> wf (rand l) ->
  (forall out' l', holds n lo hi out' -> wf (rand l') -> timestamp l' = timestamp l -> Q out' l') ->
  wp (make_original_sometimes buf) Q l.
Proof.
  intros Hh H8 Hb Hg HQ. unfold make_original_sometimes. wp_steps. apply wp_urand; try lia; [done|].
  intros v l' _ Hg' Ht. destruct (v <? 10).
  - eapply wp_make_original; [done|done|done|done|]. intros. apply HQ; [done|done|congruence].
  - by apply wp_ret, HQ.
Qed.

Lemma copy_at_spec out len c size : Forall (.≠ 0) c -> (length c < size)%nat -> (size <= length (drop len out))%nat ->
  copy_cstr_at out len (c ++ [0]) size
  = Ok (take len out ++ c ++ 0 :: drop (len + S (length c)) out, length c).
Proof.
  intros Hc Hs Hl. unfold copy_cstr_at. rewrite copy_cstr_spec by (done || lia). simpl.
  rewrite Nat.min_r by lia. rewrite firstn_all, drop_drop. by replace (len + S (length c))%nat with (len + S (length c))%nat by lia.
Qed.

(** The three syllables of a customer's last name. *)
Definition syllable (i : Z) : list Z := bytes (default "" (candidates !! Z.to_nat i))%string.
Definition last_name (num : Z) : list Z := syllable (num / 100) ++ syllable (num mod 100 / 10) ++ syllable (num mod 10).
Lemma syllable_ok i : 0 <= i < 10 ->
  candidates !! Z.to_nat i = Some (default "" (candidates !! Z.to_nat i))%string /\
  (3 <= length (syllable i) <= 5)%nat /\ Forall (.≠ 0) (syllable i).
Proof.
  intros Hi. assert (Z.to_nat i < 10)%nat as Hn by lia. unfold syllable. revert Hn. generalize (Z.to_nat i). intros n Hn.
  do 10 (destruct n as [|n]; [split_and!; [done|vm_compute; lia|vm_compute; lia|by apply (bool_decide_unpack _)]|]). lia.
Qed.

Lemma add_syllable_spec p tail i N : 0 <= i < 10 -> length (p ++ tail) = N -> (17 <= N)%nat -> (length p <= 10)%nat ->
  exists tail', add_syllable (p ++ tail, length p) i = Ok ((p ++ syllable i) ++ tail', length (p ++ syllable i)) /\
    length ((p ++ syllable i) ++ tail') = N.
Proof.
  intros Hi Hn HN Hp. destruct (syllable_ok i Hi) as (E & L & F). unfold add_syllable. rewrite E. cbn [deref mbind outcome_bind fst snd].
  unfold c_string. change (bytes (default "" (candidates !! Z.to_nat i))) with (syllable i).
  rewrite length_app in Hn. change (Z.to_nat (MAX_LAST + 1)) with 17%nat.
  rewrite copy_at_spec; [|done|lia|rewrite drop_app_length; lia]. simpl.
  exists (0 :: drop (length p + S (length (syllable i))) (p ++ tail)).
  rewrite take_app_length, <- !app_assoc, !length_app. split; [done|]. simpl.
  rewrite length_drop, length_app. lia.
Qed.

Lemma make_clast_spec `{BuildConfig} out num N : length out = N -> (17 <= N)%nat -> 0 <= num < 1000 ->
  exists out', make_clast out num = Ok (out', length (last_name num)) /\ holds N 9 15 out' /\ c_str out' = last_name num.
Proof.
  intros Ho HN Hn. unfold make_clast, last_name. rewrite assert_true by (apply Z.ltb_lt; lia). simpl.
  pose proof (Z.mod_pos_bound num 100 ltac:(lia)). pose proof (Z.mod_pos_bound num 10 ltac:(lia)).
  assert (B1 : 0 <= num / 100 < 10) by (split; [apply Z.div_pos; lia|apply Z.div_lt_upper_bound; lia]).
  assert (B2 : 0 <= num mod 100 / 10 < 10) by (split; [apply Z.div_pos; lia|apply Z.div_lt_upper_bound; lia]).
  destruct (syllable_ok _ B1) as (_ & L1 & F1), (syllable_ok _ B2) as (_ & L2 & F2).
  destruct (syllable_ok (num mod 10) ltac:(lia)) as (_ & L3 & F3).
  revert L1 F1 L2 F2 L3 F3.
  destruct (add_syllable_spec [] out _ N B1 Ho HN ltac:(simpl; lia)) as (t1 & E1 & N1). rewrite app_nil_l in *.
  simpl in E1. rewrite E1. cbn [mbind outcome_bind]. intros L1 F1 L2 F2 L3 F3.
  destruct (add_syllable_spec _ t1 _ N B2 N1 HN ltac:(lia)) as (t2 & E2 & N2). rewrite E2. cbn [mbind outcome_bind].
  destruct (add_syllable_spec _ t2 (num mod 10) N ltac:(lia) N2 HN ltac:(rewrite length_app; lia)) as (t3 & E3 & N3).
  rewrite E3. cbn [mbind outcome_bind fst snd]. rewrite <- (app_assoc (syllable _)) in *.
  set (s := syllable (num / 100) ++ syllable (num mod 100 / 10) ++ syllable (num mod 10)) in *.
  assert (9 <= length s <= 15)%nat as Ls by (unfold s; rewrite !length_app; lia).
  assert (Forall (.≠ 0) s) as Fs by (unfold s; repeat apply Forall_app_2; done).
  rewrite assert_true by (apply Z.ltb_lt; unfold MAX_LAST; lia). simpl.
  rewrite length_app in N3. rewrite write_at_ok by (rewrite length_app; lia). simpl.
  destruct t3 as [|x t3]; [simpl in N3; lia|]. rewrite insert_app_r_alt, Nat.sub_diag by lia. simpl.
  eexists. split; [done|]. split; [|by apply c_str_app].
  apply holds_intro; [rewrite length_app; simpl in *; lia|done|done].
Qed.

Lemma wp_nurand `{FloatOps} A load x y Q l : A = 255 \/ A = 1023 \/ A = 8191 -> 0 <= x <= y -> y < 2 ^ 32 -> wf (rand l) ->
  (forall v l', x <= v <= y -> wf (rand l') -> timestamp l' = timestamp l -> Q v l') -> wp (nurand_int A load x y) Q l.
Proof.
  intros HA Hr Hy Hg HQ. unfold nurand_int. cbv zeta.
  assert (0 <= get_constant_for_nurand A load < 2 ^ 64 - 1) as HC by (destruct HA as [->|[->| ->]], load; cbn; lia).
  rewrite (proj2 (Z.eqb_neq _ (2 ^ 64 - 1))) by lia.
  wp_steps. apply wp_urand; [done|lia..|]. intros a l1 Ha Hg1 Ht1. wp_steps.
  apply wp_urand; [done|lia..|]. intros b l2 Hb Hg2 Ht2.
  assert (u64 (u64 (y - x) + 1) = y - x + 1) as ->.
  { unfold u64. rewrite (Z.mod_small (y - x)), Z.mod_small; lia. }
  rewrite (proj2 (Z.eqb_neq _ 0)) by lia. apply wp_ret, HQ; [|done|congruence].
  pose proof (Z.mod_pos_bound (u64 (Z.lor a b + get_constant_for_nurand A load)) (y - x + 1) ltac:(lia)).
  set (r := u64 (Z.lor a b + _) mod _) in *. unfold u64. rewrite Z.mod_small; lia.
Qed.

Lemma wp_lift_copy n lo hi out src Q (l : Local) : length out = n -> holds n lo hi src ->
  (forall out', holds n lo hi out' -> c_str out' = c_str src -> Q out' l) -> wp (lift (copy out src)) Q l.
Proof. intros Ho Hs HQ. apply wp_lift. destruct (copy_spec n lo hi out src Ho Hs) as (o & -> & H1 & H2). by apply HQ. Qed.

Lemma copy_literal out s : Forall (.≠ 0) (bytes s) -> (length (bytes s) < length out)%nat ->
  exists out', copy out (c_string s) = Ok out' /\
    holds (length out) (length (bytes s)) (length (bytes s)) out' /\ c_str out' = bytes s.
Proof.
  intros Hs Hl. unfold copy, c_string. rewrite copy_cstr_spec by (done || lia). cbn [mbind outcome_bind mret outcome_ret].
  rewrite Nat.min_r by lia. rewrite firstn_all. eexists. split; [done|]. split; [|by apply c_str_app].
  apply holds_intro; [rewrite length_app; simpl; rewrite length_drop; lia|done|lia].
Qed.
End RecordFacts.

(** ** Well-formed records *)
Section WellFormed.
Context `{FloatOps}.

(** The sizes of the arrays. *)
Definition Address_shape (a : Address) : Prop :=
  length (street_1 a) = 21%nat /\ length (street_2 a) = 21%nat /\ length (city a) = 21%nat /\
  length (state a) = 3%nat /\ length (zip a) = 10%nat.
Definition Item_shape (i : Item) : Prop := length (i_name i) = 25%nat /\ length (i_data i) = 51%nat.
Definition Warehouse_shape (w : Warehouse) : Prop := length (w_name w) = 11%nat /\ Address_shape (w_address w).
Definition Stock_shape (s : Stock) : Prop :=
  length (s_dist s) = 10%nat /\ Forall (λ d, length d = 25%nat) (s_dist s) /\ length (s_data s) = 51%nat.
Definition District_shape (d : District) : Prop := length (d_name d) = 11%nat /\ Address_shape (d_address d).
Definition Customer_shape (c : Customer) : Prop :=
  length (c_first c) = 17%nat /\ length (c_middle c) = 3%nat /\ length (c_last c) = 17%nat /\
  length (c_phone c) = 17%nat /\ length (c_credit c) = 3%nat /\ length (c_data c) = 501%nat /\ Address_shape (c_address c).

(** What [generate] leaves: terminated strings of the specified lengths, numbers in their ranges. *)
Definition amount (min max divider : Z) (x : double) : Prop :=
  exists n, min <= n <= max /\ x = d_div (d_of_Z n) (d_of_Z divider).
Definition Address_ok (a : Address) : Prop :=
  holds 21 10 20 (street_1 a) /\ holds 21 10 20 (street_2 a) /\ holds 21 10 20 (city a) /\
  holds 3 2 2 (state a) /\ holds 10 9 9 (zip a).
Definition Item_ok (i : Item) : Prop :=
  1 <= i_im_id i <= 10000 /\ amount 100 10000 100 (i_price i) /\ holds 25 14 24 (i_name i) /\ holds 51 26 50 (i_data i).
Definition Warehouse_ok (w : Warehouse) : Prop :=
  amount 0 2000 10000 (w_tax w) /\ holds 11 6 10 (w_name w) /\ Address_ok (w_address w).
Definition Stock_ok (s : Stock) : Prop :=
  10 <= s_quantity s <= 100 /\ length (s_dist s) = 10%nat /\ Forall (holds 25 24 24) (s_dist s) /\ holds 51 26 50 (s_data s).
Definition District_ok (d : District) : Prop :=
  d_next_o_id d = 3001 /\ amount 0 2000 10000 (d_tax d) /\ holds 11 6 10 (d_name d) /\ Address_ok (d_address d).
Definition Customer_ok (c : Customer) : Prop :=
  amount 0 5000 10000 (c_discount c) /\ holds 17 8 16 (c_first c) /\ c_str (c_middle c) = bytes "OE" /\
  holds 17 9 15 (c_last c) /\ (exists n, 0 <= n < 1000 /\ (c_id c <= 1000 -> n = c_id c - 1) /\ c_str (c_last c) = RecordFacts.last_name n) /\
  holds 17 16 16 (c_phone c) /\ c_str (c_credit c) ∈ [bytes "GC"; bytes "BC"] /\ holds 501 300 500 (c_data c) /\ Address_ok (c_address c).
Definition Order_ok (o : Order) : Prop :=
  (if o_id o <? 2101 then 1 <= o_carrier_id o <= 10 else o_carrier_id o = 0) /\ 5 <= o_ol_cnt o <= 15 /\ o_all_local o = 1.
Definition OrderLine_ok (ol : OrderLine) : Prop :=
  ol_quantity ol = 5 /\ holds 25 24 24 (ol_dist_info ol) /\
  (if ol_o_id ol <? 2101 then ol_amount ol = d_of_Z 0 else amount 1 999999 100 (ol_amount ol) /\ ol_delivery_d ol = 0).

(** *** The records the benchmark starts with, field by field *)
Definition Item_new (id : Z) (r : Item) : Prop := i_id r = id /\ Item_ok r.
Definition Warehouse_new (id : Z) (r : Warehouse) : Prop := w_id r = id /\ w_ytd r = d_of_Z 300000 /\ Warehouse_ok r.
Definition Stock_new (w i : Z) (r : Stock) : Prop :=
  s_w_id r = w /\ s_i_id r = i /\ s_ytd r = 0 /\ s_order_cnt r = 0 /\ s_remote_cnt r = 0 /\ Stock_ok r.
Definition District_new (w d : Z) (r : District) : Prop := d_w_id r = w /\ d_id r = d /\ d_ytd r = d_of_Z 30000 /\ District_ok r.
Definition Customer_new (w d c since : Z) (r : Customer) : Prop :=
  c_w_id r = w /\ c_d_id r = d /\ c_id r = c /\ c_since r = since /\ c_payment_cnt r = 1 /\ c_delivery_cnt r = 0 /\
  c_credit_lim r = d_of_Z 50000 /\ c_balance r = d_of_Z (-10) /\ c_ytd_payment r = d_of_Z 10 /\ Customer_ok r.
Definition Order_new (w d o c now : Z) (r : Order) : Prop :=
  o_w_id r = w /\ o_d_id r = d /\ o_id r = o /\ o_c_id r = c /\ o_entry_d r = now /\ Order_ok r.
Definition History_new (cw cd c w d now : Z) (r : History) : Prop :=
  h_c_w_id r = cw /\ h_c_d_id r = cd /\ h_c_id r = c /\ h_w_id r = w /\ h_d_id r = d /\ h_date r = now /\
  h_amount r = d_of_Z 10 /\ holds 25 12 24 (h_data r).
Definition OrderLine_new (w d o number supply i entry : Z) (r : OrderLine) : Prop :=
  ol_w_id r = w /\ ol_d_id r = d /\ ol_o_id r = o /\ ol_number r = number /\ ol_supply_w_id r = supply /\ ol_i_id r = i /\
  ol_delivery_d r = (if o <? 2101 then entry else 0) /\ OrderLine_ok r.
End WellFormed.

Module Generated.
Section Generated.
Import XoshiroFacts RecordFacts.
Context `{BuildConfig} `{FloatOps}.

(** One step of a generator: a draw, a string, a copy. *)
Ltac gen_side := first [done | lia | assumption | congruence].
Ltac gen_step :=
  wp_step || lazymatch goal with
  | |- wp (urand _ _) _ _ => apply wp_urand; [gen_side..|intros ? ? ? ? ?]
  | |- wp (urand_double _ _ _) _ _ => unfold urand_double
  | |- wp (astring ?o ?lo ?hi) _ _ =>
      let n := eval vm_compute in (Z.to_nat lo) in let m := eval vm_compute in (Z.to_nat hi) in
      change (astring o lo hi) with (astring o (Z.of_nat n) (Z.of_nat m)); eapply wp_astring; [eassumption|lia|lia|gen_side|intros ? ? ? ? ?]
  | |- wp (nstring ?o ?lo ?hi) _ _ =>
      let n := eval vm_compute in (Z.to_nat lo) in let m := eval vm_compute in (Z.to_nat hi) in
      change (nstring o lo hi) with (nstring o (Z.of_nat n) (Z.of_nat m)); eapply wp_nstring; [eassumption|lia|lia|gen_side|intros ? ? ? ? ?]
  | |- wp (make_original_sometimes _) _ _ => eapply wp_make_original_sometimes; [eassumption|lia|lia|gen_side|intros ? ? ? ? ?]
  end.
Ltac gen := repeat gen_step.

Lemma wp_zip out Q l : length out = 10%nat -> wf (rand l) ->
  (forall out' l', holds 10 9 9 out' -> wf (rand l') -> timestamp l' = timestamp l -> Q out' l') ->
  wp (make_random_zip out) Q l.
Proof.
  intros Ho Hg HQ. unfold make_random_zip. gen.
  match goal with Hh : holds _ _ _ _ |- _ => destruct Hh as (Hn & s & rest & -> & Hs & Hl) end.
  assert (length s = 4%nat) as Ls by lia. rewrite length_app in Hn. simpl in Hn.
  assert (length (bytes "11111") = 5%nat /\ Forall (.≠ 0) (bytes "11111")) as [Lo Fo]
    by (split; [done|by apply (bool_decide_unpack _)]).
  revert Lo Fo. generalize (bytes "11111"). intros o Lo Fo.
  rewrite write_bytes_spec by (rewrite !length_app, Lo, Ls; simpl; lia). simpl.
  rewrite <- Ls, take_app_length, drop_ge, app_nil_r, app_assoc by (rewrite !length_app, Lo; simpl; lia).
  apply HQ; [|done|done]. apply holds_intro; [rewrite !length_app, Lo, Ls; done|by apply Forall_app_2|rewrite length_app; lia].
Qed.

Lemma wp_address a Q l : Address_shape a -> wf (rand l) ->
  (forall a' l', Address_ok a' -> wf (rand l') -> timestamp l' = timestamp l -> Q a' l') ->
  wp (make_random_address a) Q l.
Proof.
  intros (?&?&?&?&?) Hg HQ. unfold make_random_address. gen. apply wp_zip; [done|done|]. intros. gen.
  apply HQ; [by unfold Address_ok; split_and!|done|congruence].
Qed.

Lemma wp_Item_generate this id l : Item_shape this -> wf (rand l) ->
  wp (Item_generate this id) (λ i l', Item_new id i /\ wf (rand l')) l.
Proof.
  intros (?&?) Hg. unfold Item_generate. gen. split; [|done]. split; [done|]. split; [|split; [eexists; split; [|done]; lia|done]].
  simpl. unfold u32. rewrite Z.mod_small; lia.
Qed.

Lemma wp_Warehouse_generate this id l : Warehouse_shape this -> wf (rand l) ->
  wp (Warehouse_generate this id) (λ w l', Warehouse_new id w /\ wf (rand l')) l.
Proof.
  intros (?&?) Hg. unfold Warehouse_generate. gen. apply wp_address; [done|done|]. intros. gen.
  split; [|done]. split; [done|]. split; [done|]. split; [eexists; split; [|done]; lia|done].
Qed.

Lemma wp_Stock_generate this w i l : Stock_shape this -> wf (rand l) ->
  wp (Stock_generate this w i) (λ s l', Stock_new w i s /\ wf (rand l')) l.
Proof.
  intros (Hd & Hf & ?) Hg. unfold Stock_generate. gen.
  apply wp_forM with (I := λ done rest l', (length done + length rest)%nat = 10%nat /\ rest = seq (length done) (length rest) /\
    Forall (holds 25 24 24) done /\ wf (rand l')); [done| |].
  - intros d x rest lx (Hl & Hs & Hok & Hg'). simpl in Hl, Hs. injection Hs as -> Hs. gen.
    destruct (lookup_lt_is_Some_2 (s_dist this) (length d) ltac:(lia)) as [y Hy]. rewrite Hy. simpl.
    assert (length y = 25%nat) by exact (Forall_lookup_1 _ _ _ _ Hf Hy). gen.
    rewrite length_app. simpl. split_and!; [lia|by rewrite Nat.add_1_r|by apply Forall_app_2; [|constructor]|done].
  - intros d lx (Hl & _ & Hok & Hg'). simpl in Hl. gen. split; [|done]. unfold Stock_new. split_and!; [done..|].
    split; [simpl; unfold i16; rewrite Z.mod_small; lia|]. split_and!; [simpl; lia|done|done].
Qed.

Lemma wp_District_generate this w d l : District_shape this -> wf (rand l) ->
  wp (District_generate this w d) (λ r l', District_new w d r /\ wf (rand l')) l.
Proof.
  intros (?&?) Hg. unfold District_generate. gen. apply wp_address; [done|done|]. intros. gen.
  split; [|done]. unfold District_new. split_and!; [done..|]. split; [done|]. split; [eexists; split; [|done]; lia|done].
Qed.

Lemma wp_last_name buf id l Q : length buf = 17%nat -> 1 <= id < 2 ^ 32 -> wf (rand l) ->
  (forall out l' n len, 0 <= n < 1000 -> (id <= 1000 -> n = id - 1) -> holds 17 9 15 out -> c_str out = last_name n ->
     wf (rand l') -> timestamp l' = timestamp l -> Q (out, len) l') ->
  wp (if id <=? 1000 then lift (make_clast buf (u32 (id - 1)))
      else n ← nurand_int 255 true 0 999; lift (make_clast buf n)) Q l.
Proof.
  intros Hb Hi Hg HQ. destruct (Z.leb_spec id 1000).
  - assert (u32 (id - 1) = id - 1) as -> by (unfold u32; rewrite Z.mod_small; lia).
    destruct (make_clast_spec buf (id - 1) 17 Hb ltac:(lia) ltac:(lia)) as (o & E & Ho & Hs). gen. rewrite E. simpl. apply (HQ o l (id - 1)); [lia|done..].
  - gen. apply wp_nurand; [lia..|done|]. intros n l' Hn Hg' Ht.
    destruct (make_clast_spec buf n 17 Hb ltac:(lia) ltac:(lia)) as (o & E & Ho & Hs). gen. rewrite E. simpl. by eapply (HQ o l' n); [lia|lia|..].
Qed.

Lemma wp_Customer_generate this w d c t l : Customer_shape this -> 1 <= c < 2 ^ 32 -> wf (rand l) ->
  wp (Customer_generate this w d c t)
     (λ r l', Customer_new w d c t r /\ wf (rand l')) l.
Proof.
  intros (Hfirst & Hmid & Hlast & Hphone & Hcred & Hdata & Haddr) Hc Hg. unfold Customer_generate. gen.
  destruct (copy_literal (c_middle this) "OE") as (mid & -> & _ & Emid); [by apply (bool_decide_unpack _)|rewrite Hmid; cbn; lia|].
  simpl. gen. apply wp_last_name; [done|done|done|]. intros last l1 n len Hn Hid Hl El Hg1 Ht1. gen.
  match goal with |- context [c_string ?e] => assert (Hs : exists s, e = s /\ (s = "GC" \/ s = "BC")%string)
    by (eexists; split; [done|case_match; auto]); destruct Hs as (s & -> & Hs) end.
  destruct (copy_literal (c_credit this) s) as (credit & -> & _ & Ecr);
    [destruct Hs as [->| ->]; by apply (bool_decide_unpack _)|rewrite Hcred; destruct Hs as [->| ->]; cbn; lia|].
  simpl. gen. apply wp_address; [done|done|]. intros. gen. split; [|done]. unfold Customer_new. split_and!; [done..|].
  unfold Customer_ok. simpl. rewrite Ecr. split_and!; try done; [eexists; split; [|done]; lia|by exists n|].
  destruct Hs as [->| ->]; set_solver.
Qed.

Lemma wp_Order_generate w d o c l : wf (rand l) -> timestamp l < 2 ^ 63 - 1 ->
  wp (Order_generate w d o c) (λ r l', Order_new w d o c (timestamp l) r /\
    wf (rand l') /\ timestamp l' = timestamp l + 1) l.
Proof.
  intros Hg Ht. unfold Order_generate. gen.
  eapply (wp_mono _ (λ v l', (if o <? 2101 then 1 <= v <= 10 else v = 0) /\ wf (rand l') /\ timestamp l' = timestamp l)).
  { destruct (o <? 2101); gen; done. }
  intros v l1 (Hv & Hg1 & Ht1). gen. unfold wp, get_timestamp.
  destruct (Z.eqb_spec (timestamp l') (2 ^ 63 - 1)); [lia|]. cbn.
  split; [|split; [done|congruence]]. unfold Order_new. split_and!; try done; [cbn; congruence|]. unfold Order_ok. cbn.
  unfold u8. rewrite !Z.mod_small by (destruct (o <? 2101); lia). by split_and!; try lia.
Qed.

Lemma wp_History_generate this cw cd c w d l : length (h_data this) = 25%nat -> wf (rand l) -> timestamp l < 2 ^ 63 - 1 ->
  wp (History_generate this cw cd c w d) (λ h l', History_new cw cd c w d (timestamp l) h /\
    wf (rand l') /\ timestamp l' = timestamp l + 1) l.
Proof.
  intros Hd Hg Ht. unfold History_generate. apply wp_bind. unfold wp at 1, get_timestamp.
  destruct (Z.eqb_spec (timestamp l) (2 ^ 63 - 1)); [lia|]. gen. by split_and!.
Qed.

Lemma wp_OrderLine_generate this w d o n sw i e l : length (ol_dist_info this) = 25%nat -> wf (rand l) ->
  wp (OrderLine_generate this w d o n sw i e) (λ r l', OrderLine_new w d o n sw i e r /\ wf (rand l')) l.
Proof.
  intros Hd Hg. unfold OrderLine_generate. gen.
  eapply (wp_mono _ (λ x l', (if o <? 2101 then x = d_of_Z 0 else amount 1 999999 100 x) /\ wf (rand l'))).
  { destruct (o <? 2101); gen; [done|]. split; [|done]. eexists. split; [|done]. lia. }
  intros x l1 (Hx & Hg1). gen. split; [|done]. unfold OrderLine_new. split_and!; [done..|].
  unfold OrderLine_ok. cbn. split_and!; [done|done|]. by destruct (o <? 2101).
Qed.
End Generated.
End Generated.

(** ** The properties of the records *)
Section Properties.
Import Xoshiro256PlusPlus XoshiroFacts RecordFacts Generated.
Context `{BuildConfig} `{FloatOps}.

(** C35. Every record [generate]d into arrays of the declared sizes, field by
    field: each identifier is the one given for it; the strings are terminated and
    of the lengths the benchmark specifies; each drawn number is in its range and
    each initial balance, sum and count has its initial value; the dates are the
    thread's timestamp or the one given; the orders below 2101 have a carrier, and
    their lines a date and no amount.  No assertion fails and no array is overrun. *)
Theorem generated_records_well_formed l : wf (rand l) -> timestamp l < 2 ^ 63 - 1 ->
  (forall r id, Item_shape r -> wp (Item_generate r id) (λ r l', Item_new id r /\ wf (rand l')) l) /\
  (forall r id, Warehouse_shape r -> wp (Warehouse_generate r id) (λ r l', Warehouse_new id r /\ wf (rand l')) l) /\
  (forall r w i, Stock_shape r -> wp (Stock_generate r w i) (λ r l', Stock_new w i r /\ wf (rand l')) l) /\
  (forall r w d, District_shape r -> wp (District_generate r w d) (λ r l', District_new w d r /\ wf (rand l')) l) /\
  (forall r w d c since, Customer_shape r -> 1 <= c < 2 ^ 32 ->
     wp (Customer_generate r w d c since) (λ r l', Customer_new w d c since r /\ wf (rand l')) l) /\
  (forall w d o c, wp (Order_generate w d o c)
     (λ r l', Order_new w d o c (timestamp l) r /\ wf (rand l') /\ timestamp l' = timestamp l + 1) l) /\
  (forall w d o, no_w_id (NewOrder_generate w d o) = w /\ no_d_id (NewOrder_generate w d o) = d /\ no_o_id (NewOrder_generate w d o) = o) /\
  (forall r cw cd c w d, length (h_data r) = 25%nat -> wp (History_generate r cw cd c w d)
     (λ r l', History_new cw cd c w d (timestamp l) r /\ wf (rand l') /\ timestamp l' = timestamp l + 1) l) /\
  (forall r w d o n sw i e, length (ol_dist_info r) = 25%nat ->
     wp (OrderLine_generate r w d o n sw i e) (λ r l', OrderLine_new w d o n sw i e r /\ wf (rand l')) l).
Proof.
  intros Hg Ht. split_and!; intros; auto using wp_Item_generate, wp_Warehouse_generate, wp_Stock_generate, wp_District_generate,
    wp_Customer_generate, wp_Order_generate, wp_History_generate, wp_OrderLine_generate.
Qed.

(** Two arrays hold the same string. *)
Definition same_str (a b : list Z) : Prop := c_str a = c_str b.
Definition same_address (a b : Address) : Prop :=
  same_str (street_1 a) (street_1 b) /\ same_str (street_2 a) (street_2 b) /\ same_str (city a) (city b) /\
  same_str (state a) (state b) /\ same_str (zip a) (zip b).

Ltac copies := repeat match goal with
  | Hs : holds ?n _ _ ?s, Ho : length ?o = ?n |- context [copy ?o ?s] =>
      let E := fresh in destruct (copy_spec n _ _ o s Ho Hs) as (? & E & ? & ?); rewrite E; clear E; cbn [mbind outcome_bind]
  end.
Lemma address_copied this src : Address_shape this -> Address_ok src ->
  exists a, Address_deep_copy_from false this src = Ok a /\ Address_ok a /\ same_address a src.
Proof.
  intros (?&?&?&?&?) (?&?&?&?&?). unfold Address_deep_copy_from. copies.
  eexists. split; [done|]. unfold Address_ok, same_address, same_str. cbn. by split_and!.
Qed.

(** A deep copy of a well-formed record has its numbers and holds its
    strings, address included (for the records other than [Stock]). *)
Theorem deep_copies_are_copies :
  (forall this src, Item_shape this -> Item_ok src -> exists r, Item_deep_copy_from false this src = Ok r /\ Item_ok r /\
     i_id r = i_id src /\ i_im_id r = i_im_id src /\ i_price r = i_price src /\
     same_str (i_name r) (i_name src) /\ same_str (i_data r) (i_data src)) /\
  (forall this src, Warehouse_shape this -> Warehouse_ok src -> exists r, Warehouse_deep_copy_from false this src = Ok r /\ Warehouse_ok r /\
     w_id r = w_id src /\ w_tax r = w_tax src /\ w_ytd r = w_ytd src /\
     same_str (w_name r) (w_name src) /\ same_address (w_address r) (w_address src)) /\
  (forall this src, District_shape this -> District_ok src -> exists r, District_deep_copy_from false this src = Ok r /\ District_ok r /\
     d_w_id r = d_w_id src /\ d_id r = d_id src /\ d_next_o_id r = d_next_o_id src /\ d_tax r = d_tax src /\ d_ytd r = d_ytd src /\
     same_str (d_name r) (d_name src) /\ same_address (d_address r) (d_address src)) /\
  (forall this src, length (h_data this) = 25%nat -> holds 25 12 24 (h_data src) ->
     exists r, History_deep_copy_from false this src = Ok r /\
     h_c_w_id r = h_c_w_id src /\ h_c_d_id r = h_c_d_id src /\ h_c_id r = h_c_id src /\ h_w_id r = h_w_id src /\
     h_d_id r = h_d_id src /\ h_date r = h_date src /\ h_amount r = h_amount src /\ same_str (h_data r) (h_data src)) /\
  (forall this src, length (ol_dist_info this) = 25%nat -> OrderLine_ok src ->
     exists r, OrderLine_deep_copy_from false this src = Ok r /\ OrderLine_ok r /\ same_str (ol_dist_info r) (ol_dist_info src) /\
     ol_w_id r = ol_w_id src /\ ol_d_id r = ol_d_id src /\ ol_o_id r = ol_o_id src /\ ol_number r = ol_number src /\
     ol_i_id r = ol_i_id src /\ ol_supply_w_id r = ol_supply_w_id src /\ ol_delivery_d r = ol_delivery_d src /\
     ol_quantity r = ol_quantity src /\ ol_amount r = ol_amount src).
Proof.
  split_and!.
  - intros this src (?&?) (?&?&?&?). unfold Item_deep_copy_from. copies. eexists. split; [done|]. by split_and!.
  - intros this src (?&?) (?&?&?). unfold Warehouse_deep_copy_from. copies.
    destruct (address_copied (w_address this) (w_address src)) as (a & -> & ? & ?); [done..|].
    eexists. split; [done|]. by split_and!.
  - intros this src (?&?) (?&?&?&?). unfold District_deep_copy_from. copies.
    destruct (address_copied (d_address this) (d_address src)) as (a & -> & ? & ?); [done..|].
    eexists. split; [done|]. by split_and!.
  - intros this src ? ?. unfold History_deep_copy_from. copies. eexists. split; [done|]. by split_and!.
  - intros this src ? (?&?&?). unfold OrderLine_deep_copy_from. copies. eexists. split; [done|]. by split_and!.
Qed.

(** A deep copy of a [Stock] takes over the numbers and [s_data] but not
    the district strings: of [s_dist] only the first four bytes are copied. *)
Theorem stock_copy_keeps_own_districts this src : Stock_shape this -> Stock_shape src -> holds 51 26 50 (s_data src) ->
  exists r row0 row, Stock_deep_copy_from false this src = Ok r /\
    s_w_id r = s_w_id src /\ s_i_id r = s_i_id src /\ s_quantity r = s_quantity src /\ s_ytd r = s_ytd src /\
    s_order_cnt r = s_order_cnt src /\ s_remote_cnt r = s_remote_cnt src /\ same_str (s_data r) (s_data src) /\
    s_dist src !! 0%nat = Some row0 /\ s_dist this !! 0%nat = Some row /\
    s_dist r !! 0%nat = Some (take 4 row0 ++ drop 4 row) /\
    forall i, (0 < i)%nat -> s_dist r !! i = s_dist this !! i.
Proof.
  intros (L1 & F1 & D1) (L2 & F2 & D2) Hd.
  destruct (lookup_lt_is_Some_2 (s_dist this) 0 ltac:(lia)) as [row Hr].
  destruct (lookup_lt_is_Some_2 (s_dist src) 0 ltac:(lia)) as [row0 Hr0].
  pose proof (Forall_lookup_1 _ _ _ _ F1 Hr) as Lr. pose proof (Forall_lookup_1 _ _ _ _ F2 Hr0) as Lr0. cbn beta in *.
  unfold Stock_deep_copy_from. rewrite Hr, Hr0. cbn [deref mbind outcome_bind].
  assert (length (take 4 row0) = 4%nat) as L4 by (rewrite length_take; lia).
  rewrite write_bytes_spec by (rewrite L4; lia). cbn [mbind outcome_bind]. rewrite Facts.write_at_ok by lia. cbn [mbind outcome_bind].
  destruct (copy_spec 51 26 50 (s_data this) (s_data src) D1 Hd) as (o & -> & _ & Eo).
  eexists _, row0, row. split; [done|]. cbn. rewrite L4. split_and!; try done; [by apply list_lookup_insert_eq; lia|].
  intros i Hi. by rewrite list_lookup_insert_ne by lia.
Qed.
End Properties.

(** ** Concrete records, with IEEE doubles *)
Module RecordWitness.
Import Xoshiro256PlusPlus XoshiroFacts.
Definition ieee : FloatOps := {|
  double := spec_float;
  d_add := SFadd 53 1024; d_sub := SFsub 53 1024; d_mul := SFmul 53 1024; d_div := SFdiv 53 1024;
  d_of_Z z := binary_normalize 53 1024 z 0 false |}.
#[local] Existing Instance ieee.
#[local] Existing Instance debug_build.

Definition l0 : Local := mkLocal (make 7 0) 0.
Lemma wf_l0 : wf (rand l0). Proof. vm_compute. intuition congruence. Qed.
Definition raw (n : nat) : list Z := replicate n 255.
Definition item0 : Item := mkItem 0 0 (d_of_Z 0) (raw 25) (raw 51).
Definition address0 : Address := mkAddress (raw 21) (raw 21) (raw 21) (raw 3) (raw 10).
Definition warehouse0 : Warehouse := mkWarehouse 0 (d_of_Z 0) (d_of_Z 0) (raw 11) address0.
Definition stock0 : Stock := mkStock 0 0 0 0 0 0 (replicate 10 (raw 25)) (raw 51).
Definition district0 : District := mkDistrict 0 0 0 (d_of_Z 0) (d_of_Z 0) (raw 11) address0.
Definition customer0 : Customer :=
  mkCustomer 0 0 0 0 0 0 (d_of_Z 0) (d_of_Z 0) (d_of_Z 0) (d_of_Z 0) (raw 17) (raw 3) (raw 17) (raw 17) (raw 3) (raw 501) address0.
Definition history0 : History := mkHistory 0 0 0 0 0 0 (d_of_Z 0) (raw 25).
Definition line0 : OrderLine := mkOrderLine 0 0 0 0 0 0 0 0 (d_of_Z 0) (raw 25).

Lemma generated_records_well_formed_witness :
  wp (Item_generate item0 5) (λ r l', Item_new 5 r /\ wf (rand l')) l0 /\
  wp (Stock_generate stock0 1 5) (λ r l', Stock_new 1 5 r /\ wf (rand l')) l0 /\
  wp (Customer_generate customer0 1 2 3 4) (λ r l', Customer_new 1 2 3 4 r /\ wf (rand l')) l0 /\
  wp (History_generate history0 1 2 3 4 5) (λ r l', History_new 1 2 3 4 5 0 r /\ wf (rand l') /\ timestamp l' = 1) l0 /\
  wp (OrderLine_generate line0 1 2 3 4 5 6 7) (λ r l', OrderLine_new 1 2 3 4 5 6 7 r /\ wf (rand l')) l0.
Proof.
  destruct (generated_records_well_formed l0 wf_l0 ltac:(vm_compute; done)) as (HI & _ & HS & _ & HC & _ & _ & HH & HL).
  split; [apply HI; by split|]. split; [apply HS; split; [done|split; [|done]]; by repeat constructor|].
  split; [apply HC; [repeat split|lia]|]. split; [apply HH|apply HL]; done.
Defined.

(** The last name of customer 372. *)
Example clast_371 : (r ← make_clast (raw 17) 371; mret (c_str r.1)) = Ok (bytes "PRICALLYOUGHT").
Proof. vm_compute. reflexivity. Qed.

Definition text (n m : nat) : list Z := replicate n 65 ++ 0 :: replicate m 255.
Lemma text_holds n m k : (n + S m)%nat = k -> holds k n n (text n m).
Proof.
  intros <-. apply RecordFacts.holds_intro; [by rewrite length_app, length_replicate; simpl; rewrite length_replicate| |by rewrite length_replicate].
  by apply Forall_replicate.
Qed.
Definition item1 : Item := mkItem 9 77 (d_div (d_of_Z 1250) (d_of_Z 100)) (text 20 4) (text 40 10).
Definition stock1 : Stock := mkStock 1 5 30 0 0 0 (replicate 10 (text 24 0)) (text 40 10).

Lemma deep_copies_are_copies_witness : exists r, Item_deep_copy_from false item0 item1 = Ok r /\ Item_ok r /\
  i_id r = 9 /\ i_im_id r = 77 /\ i_price r = i_price item1 /\
  same_str (i_name r) (i_name item1) /\ same_str (i_data r) (i_data item1).
Proof.
  refine (proj1 deep_copies_are_copies item0 item1 _ _); [by split|].
  split; [cbn; lia|]. split; [exists 1250; split; [lia|done]|].
  split; (eapply RecordFacts.holds_weaken; [by apply text_holds|lia|lia]).
Defined.
Lemma stock_copy_keeps_own_districts_witness :
  exists r row0 row, Stock_deep_copy_from false stock0 stock1 = Ok r /\
    s_w_id r = 1 /\ s_i_id r = 5 /\ s_quantity r = 30 /\ s_ytd r = 0 /\
    s_order_cnt r = 0 /\ s_remote_cnt r = 0 /\ same_str (s_data r) (s_data stock1) /\
    s_dist stock1 !! 0%nat = Some row0 /\ s_dist stock0 !! 0%nat = Some row /\
    s_dist r !! 0%nat = Some (take 4 row0 ++ drop 4 row) /\
    forall i, (0 < i)%nat -> s_dist r !! i = s_dist stock0 !! i.
Proof.
  apply (stock_copy_keeps_own_districts stock0 stock1).
  - split; [done|split; [by repeat constructor|done]].
  - split; [done|split; [by repeat constructor|done]].
  - eapply RecordFacts.holds_weaken; [by apply text_holds|lia|lia].
Defined.
End RecordWitness.
