(* ===== verification/TpccKeys.v ===== *)
(** * TpccKeys: primary and secondary keys of the TPC-C tables

    [benchmarks/tpcc/include/record_key.hpp] and
    [protocols/tpcc_common/record_misc.hpp].  A key is the word of its union;
    the bit fields are assigned in the order of the code.  The index orders
    raw keys as unsigned words: the theorems show that this is the
    lexicographic order of the fields, most significant first. *)
From S2P Require Import Prelude Schema Random TpccRecords.

(** The operators every key struct defines on its word. *)
Definition operator_lt (k rhs : Z) : bool := k <? rhs.
Definition operator_eq (k rhs : Z) : bool := k =? rhs.

Module ItemKey.
Definition create_key (i_id : Z) : Z := i_id.
Definition of_item `{FloatOps} (i : Item) : Z := i_id i.
End ItemKey.

Module WarehouseKey.
Definition create_key (w_id : Z) : Z := w_id.
Definition of_warehouse `{FloatOps} (w : Warehouse) : Z := w_id w.
End WarehouseKey.

Module StockKey.
Definition i_id (k : Z) : Z := get_field k 0 32.
Definition w_id (k : Z) : Z := get_field k 32 16.
Definition create_key (w_id i_id : Z) : Z :=
  let k := set_field 0 32 16 w_id in
  set_field k 0 32 i_id.
Definition of_stock (s : Stock) : Z := create_key (s_w_id s) (s_i_id s).
End StockKey.

Module DistrictKey.
Definition d_id (k : Z) : Z := get_field k 0 8.
Definition w_id (k : Z) : Z := get_field k 8 16.
Definition create_key (w_id d_id : Z) : Z :=
  let k := set_field 0 8 16 w_id in
  set_field k 0 8 d_id.
Definition of_district `{FloatOps} (d : District) : Z := create_key (d_w_id d) (TpccRecords.d_id d).
End DistrictKey.

Module CustomerKey.
Definition c_id (k : Z) : Z := get_field k 0 32.
Definition d_id (k : Z) : Z := get_field k 32 8.
Definition w_id (k : Z) : Z := get_field k 40 16.
Definition create_key (w_id d_id c_id : Z) : Z :=
  let k := set_field 0 40 16 w_id in
  let k := set_field k 32 8 d_id in
  set_field k 0 32 c_id.
Definition of_customer `{FloatOps} (c : Customer) : Z := create_key (c_w_id c) (c_d_id c) (TpccRecords.c_id c).
End CustomerKey.

Module OrderKey.
Definition o_id (k : Z) : Z := get_field k 0 32.
Definition d_id (k : Z) : Z := get_field k 32 8.
Definition w_id (k : Z) : Z := get_field k 40 16.
Definition create_key (w_id d_id o_id : Z) : Z :=
  let k := set_field 0 40 16 w_id in
  let k := set_field k 32 8 d_id in
  set_field k 0 32 o_id.
Definition of_order (o : Order) : Z := create_key (o_w_id o) (o_d_id o) (TpccRecords.o_id o).
End OrderKey.

Module OrderLineKey.
Definition ol_number (k : Z) : Z := get_field k 0 8.
Definition o_id (k : Z) : Z := get_field k 8 32.
Definition d_id (k : Z) : Z := get_field k 40 8.
Definition w_id (k : Z) : Z := get_field k 48 16.
Definition create_key (w_id d_id o_id ol_number : Z) : Z :=
  let k := set_field 0 0 8 ol_number in
  let k := set_field k 48 16 w_id in
  let k := set_field k 40 8 d_id in
  set_field k 8 32 o_id.
Definition of_orderline `{FloatOps} (ol : OrderLine) : Z :=
  create_key (ol_w_id ol) (ol_d_id ol) (ol_o_id ol) (TpccRecords.ol_number ol).
End OrderLineKey.

Module NewOrderKey.
Definition o_id (k : Z) : Z := get_field k 0 32.
Definition d_id (k : Z) : Z := get_field k 32 8.
Definition w_id (k : Z) : Z := get_field k 40 16.
Definition create_key (w_id d_id o_id : Z) : Z :=
  let k := set_field 0 40 16 w_id in
  let k := set_field k 32 8 d_id in
  set_field k 0 32 o_id.
Definition of_neworder (no : NewOrder) : Z := create_key (no_w_id no) (no_d_id no) (no_o_id no).
End NewOrderKey.

Module OrderSecondaryKey.
Definition o_id (k : Z) : Z := get_field k 0 32.
Definition c_id (k : Z) : Z := get_field k 32 16.
Definition d_id (k : Z) : Z := get_field k 48 4.
Definition w_id (k : Z) : Z := get_field k 52 12.
Definition create_key (w_id d_id c_id o_id : Z) : Z :=
  let k := set_field 0 52 12 w_id in
  let k := set_field k 48 4 d_id in
  let k := set_field k 32 16 c_id in
  set_field k 0 32 o_id.
Definition of_order (o : Order) : Z := create_key (o_w_id o) (o_d_id o) (o_c_id o) (TpccRecords.o_id o).
End OrderSecondaryKey.

(** [strncmp] on the characters as unsigned bytes: only the sign is specified. *)
Fixpoint strncmp (a b : list Z) (n : nat) : outcome Z :=
  match n with
  | O => Ok 0
  | S n => x ← deref (head a); y ← deref (head b);
           if x <? y then Ok (-1) else if y <? x then Ok 1
           else if x =? 0 then Ok 0 else strncmp (tail a) (tail b) n
  end.

Module CustomerSecondaryKey.
Record t := mk { num : Z; c_last : list Z }.
Definition d_id (k : t) : Z := get_field (num k) 0 8.
Definition w_id (k : t) : Z := get_field (num k) 8 16.
(** [create_key]; [raw] is the memory of the array before the copy. *)
Definition create_key (raw : list Z) (w_id d_id : Z) (c_last_in : list Z) : outcome t :=
  let num := set_field 0 8 16 w_id in
  let num := set_field num 0 8 d_id in
  last ← copy raw c_last_in; mret (mk num last).
Definition of_customer `{FloatOps} (raw : list Z) (c : Customer) : outcome t :=
  create_key raw (c_w_id c) (c_d_id c) (TpccRecords.c_last c).
(** The copy constructor, over a word [num0] that was not initialised. *)
Definition copied (num0 : Z) (raw : list Z) (c : t) : outcome t :=
  let num := set_field num0 0 8 (d_id c) in
  let num := set_field num 8 16 (w_id c) in
  let num := set_field num 24 8 0 in
  last ← copy raw (c_last c); mret (mk num last).
Definition cmp_c_last (k rhs : t) : outcome Z := strncmp (c_last k) (c_last rhs) 16.
Definition lt (k rhs : t) : outcome bool :=
  if num k =? num rhs then c ← cmp_c_last k rhs; mret (c <? 0) else mret (num k <? num rhs).
Definition eq (k rhs : t) : outcome bool :=
  if num k =? num rhs then c ← cmp_c_last k rhs; mret (c =? 0) else mret false.
End CustomerSecondaryKey.

(** ** Tables *)
Inductive RecordID := UNUSED | ITEM | WAREHOUSE | STOCK | DISTRICT | CUSTOMER | CUSTOMER_SECONDARY
  | HISTORY | ORDER | ORDER_SECONDARY | NEWORDER | ORDERLINE.
Definition RecordID_value (r : RecordID) : Z :=
  match r with UNUSED => 0 | ITEM => 1 | WAREHOUSE => 2 | STOCK => 3 | DISTRICT => 4 | CUSTOMER => 5
  | CUSTOMER_SECONDARY => 6 | HISTORY => 7 | ORDER => 8 | ORDER_SECONDARY => 9 | NEWORDER => 10 | ORDERLINE => 11 end.
(** [get_id<Record>()]; the type argument is named by its [RecordID]. *)
Definition get_id `{BuildConfig} (r : RecordID) : outcome Z :=
  match r with
  | CUSTOMER_SECONDARY => assert_ false;; mret (RecordID_value r)
  | UNUSED => assert_ false;; Err UndefinedBehaviour
  | _ => mret (RecordID_value r)
  end.

(** The keys the indexes hold, with the arguments of their [create_key]. *)
Inductive table_key :=
| KItem (i : Z) | KWarehouse (w : Z) | KStock (w i : Z) | KDistrict (w d : Z) | KCustomer (w d c : Z)
| KOrder (w d o : Z) | KOrderSecondary (w d c o : Z) | KNewOrder (w d o : Z) | KOrderLine (w d o n : Z).
Definition table_of (k : table_key) : RecordID :=
  match k with KItem _ => ITEM | KWarehouse _ => WAREHOUSE | KStock _ _ => STOCK | KDistrict _ _ => DISTRICT
  | KCustomer _ _ _ => CUSTOMER | KOrder _ _ _ => ORDER | KOrderSecondary _ _ _ _ => ORDER_SECONDARY
  | KNewOrder _ _ _ => NEWORDER | KOrderLine _ _ _ _ => ORDERLINE end.
Definition get_raw_key (k : table_key) : Z :=
  match k with
  | KItem i => ItemKey.create_key i
  | KWarehouse w => WarehouseKey.create_key w
  | KStock w i => StockKey.create_key w i
  | KDistrict w d => DistrictKey.create_key w d
  | KCustomer w d c => CustomerKey.create_key w d c
  | KOrder w d o => OrderKey.create_key w d o
  | KOrderSecondary w d c o => OrderSecondaryKey.create_key w d c o
  | KNewOrder w d o => NewOrderKey.create_key w d o
  | KOrderLine w d o n => OrderLineKey.create_key w d o n
  end.

(** ** Specification: fields, most significant first, with their widths *)
Definition parts (k : table_key) : list (Z * Z) :=
  match k with
  | KItem i => [(32, i)] | KWarehouse w => [(16, w)] | KStock w i => [(16, w); (32, i)]
  | KDistrict w d => [(16, w); (8, d)] | KCustomer w d c => [(16, w); (8, d); (32, c)]
  | KOrder w d o | KNewOrder w d o => [(16, w); (8, d); (32, o)]
  | KOrderSecondary w d c o => [(12, w); (4, d); (16, c); (32, o)]
  | KOrderLine w d o n => [(16, w); (8, d); (32, o); (8, n)]
  end.
Definition fits (k : table_key) : Prop := Forall (λ p, 0 <= p.2 < 2 ^ p.1) (parts k).
Fixpoint lex_compare (xs ys : list Z) : comparison :=
  match xs, ys with
  | x :: xs, y :: ys => match x ?= y with Eq => lex_compare xs ys | c => c end
  | [], _ :: _ => Lt | _ :: _, [] => Gt | [], [] => Eq
  end.
Definition key_compare (k k' : table_key) : comparison := lex_compare (parts k).*2 (parts k').*2.

(** ** Packing *)
Lemma get_field_0 o wd : get_field 0 o wd = 0.
Proof. unfold get_field. by rewrite Z.shiftr_0_l, Z.land_0_l. Qed.

Lemma set_field_add word o wd v : 0 <= o -> 0 <= wd -> get_field word o wd = 0 ->
  set_field word o wd v = word + v mod 2 ^ wd * 2 ^ o.
Proof.
  intros Ho Hw Hz. unfold set_field.
  assert (Z.ldiff word (Z.shiftl (Z.ones wd) o) = word) as ->.
  { apply Z.bits_inj'. intros i Hi. rewrite Z.ldiff_spec, Z.shiftl_spec by lia.
    destruct (decide (o <= i < o + wd)) as [Hin|Hout].
    - assert (Z.testbit (get_field word o wd) (i - o) = false) as Hb by (rewrite Hz; apply Z.testbit_0_l).
      rewrite testbit_get_field in Hb by lia. replace (i - o + o) with i in Hb by lia.
      rewrite (proj2 (Z.ltb_lt _ _)) in Hb by lia. simpl in Hb. by rewrite Hb.
    - destruct (decide (i < o)); [rewrite (Z.testbit_neg_r (Z.ones wd)) by lia|
        rewrite Z.testbit_ones_nonneg, (proj2 (Z.ltb_ge _ _)) by lia]; by rewrite andb_true_r. }
  assert (Hd : Z.land word (Z.shiftl (Z.land v (Z.ones wd)) o) = 0).
  { apply Z.bits_inj'. intros i Hi. rewrite Z.land_spec, Z.shiftl_spec, Z.land_spec, Z.testbit_0_l by lia.
    destruct (decide (o <= i < o + wd)) as [Hin|Hout].
    - assert (Z.testbit (get_field word o wd) (i - o) = false) as Hb by (rewrite Hz; apply Z.testbit_0_l).
      rewrite testbit_get_field in Hb by lia. replace (i - o + o) with i in Hb by lia.
      rewrite (proj2 (Z.ltb_lt _ _)) in Hb by lia. simpl in Hb. by rewrite Hb.
    - destruct (decide (i < o)); [rewrite (Z.testbit_neg_r v) by lia|
        rewrite Z.testbit_ones_nonneg, (proj2 (Z.ltb_ge _ _)), andb_false_r by lia]; by rewrite andb_false_r. }
  rewrite <- Z.land_ones, <- Z.shiftl_mul_pow2 by lia.
  by rewrite <- Z.lxor_lor, Z.add_nocarry_lxor.
Qed.

(** The value of a word whose fields were assigned. *)
Ltac unpack_word := rewrite ?set_field_add by (lia || rewrite ?get_set_field_other by lia; apply get_field_0).

(** Big-endian packing. *)
Definition pack (ps : list (Z * Z)) : Z := foldl (λ acc p, acc * 2 ^ p.1 + p.2) 0 ps.

Lemma mod_fits v w : 0 <= v < 2 ^ w -> v mod 2 ^ w = v.
Proof. apply Z.mod_small. Qed.

Lemma raw_key_packs k : fits k -> get_raw_key k = pack (parts k).
Proof.
  unfold fits. destruct k; simpl; rewrite ?Forall_cons, ?Forall_nil; simpl; intros Hf; destruct_and?;
    unfold ItemKey.create_key, WarehouseKey.create_key, StockKey.create_key, DistrictKey.create_key, CustomerKey.create_key,
      OrderKey.create_key, OrderSecondaryKey.create_key, NewOrderKey.create_key, OrderLineKey.create_key; cbv zeta;
    unpack_word; rewrite ?mod_fits by done; unfold pack; simpl; lia.
Qed.

Lemma pack_app ps p : pack (ps ++ [p]) = pack ps * 2 ^ p.1 + p.2.
Proof. unfold pack. by rewrite foldl_app. Qed.

Lemma lex_step a b x y w : 0 <= w -> 0 <= x < 2 ^ w -> 0 <= y < 2 ^ w ->
  (a * 2 ^ w + x ?= b * 2 ^ w + y) = match a ?= b with Eq => x ?= y | c => c end.
Proof.
  intros Hw Hx Hy. destruct (Z.compare_spec a b) as [->|Hab|Hab].
  - destruct (Z.compare_spec x y); [apply Z.compare_eq_iff|apply Z.compare_lt_iff|apply Z.compare_gt_iff]; lia.
  - apply Z.compare_lt_iff. nia.
  - apply Z.compare_gt_iff. nia.
Qed.

Lemma pack_compare_from ps qs a b : ps.*1 = qs.*1 -> Forall (λ p, 0 <= p.1) ps ->
  Forall (λ p, 0 <= p.2 < 2 ^ p.1) ps -> Forall (λ p, 0 <= p.2 < 2 ^ p.1) qs ->
  (foldl (λ acc p, acc * 2 ^ p.1 + p.2) a ps ?= foldl (λ acc p, acc * 2 ^ p.1 + p.2) b qs)
  = match a ?= b with Eq => lex_compare ps.*2 qs.*2 | c => c end.
Proof.
  revert qs a b. induction ps as [|[w x] ps IH]; intros [|[w' y] qs] a b E Hw Hp Hq; try discriminate; simpl.
  - by destruct (a ?= b).
  - simpl in E. injection E as <- E. apply Forall_cons in Hw as [? ?], Hp as [? ?], Hq as [? ?]. simpl in *.
    rewrite IH, lex_step by done. by destruct (a ?= b).
Qed.

Lemma pack_bound ps : Forall (λ p, 0 <= p.1) ps -> Forall (λ p, 0 <= p.2 < 2 ^ p.1) ps ->
  0 <= pack ps < 2 ^ (foldr (λ p acc, p.1 + acc) 0 ps).
Proof.
  unfold pack. cut (forall a, 0 <= a -> Forall (λ p, 0 <= p.1) ps -> Forall (λ p, 0 <= p.2 < 2 ^ p.1) ps ->
    0 <= foldr (λ p acc, p.1 + acc) 0 ps /\
    0 <= foldl (λ acc p, acc * 2 ^ p.1 + p.2) a ps < (a + 1) * 2 ^ (foldr (λ p acc, p.1 + acc) 0 ps)).
  { intros H H1 H2. destruct (H 0 ltac:(lia) H1 H2) as [_ Hb]. by rewrite Z.mul_1_l in Hb. }
  induction ps as [|[w x] ps IH]; intros a Ha Hw Hp; simpl; [lia|].
  apply Forall_cons in Hw as [? ?], Hp as [? ?]. simpl in *.
  destruct (IH (a * 2 ^ w + x) ltac:(nia)) as [Hn Hb]; [done..|]. split; [lia|]. rewrite Z.pow_add_r by lia.
  split; [lia|]. eapply Z.lt_le_trans; [apply Hb|]. rewrite Z.mul_assoc. apply Z.mul_le_mono_nonneg_r; [lia|]. nia.
Qed.

Lemma parts_widths k : Forall (λ p, 0 <= p.1) (parts k).
Proof. destruct k; repeat (constructor; simpl; try lia). Qed.
Lemma same_table_widths k k' : table_of k = table_of k' -> (parts k).*1 = (parts k').*1.
Proof. by destruct k, k'. Qed.

Lemma lex_compare_eq_fields xs ys : lex_compare xs ys = Eq <-> xs = ys.
Proof.
  revert ys. induction xs as [|x xs IH]; intros [|y ys]; simpl; try done.
  destruct (Z.compare_spec x y) as [->|Hl|Hl]; rewrite ?IH; split; intros E; simplify_eq; try done; lia.
Qed.

Lemma raw_key_compare k k' : table_of k = table_of k' -> fits k -> fits k' ->
  (get_raw_key k ?= get_raw_key k') = key_compare k k'.
Proof.
  intros Ht Hk Hk'. rewrite !raw_key_packs by done.
  by apply (pack_compare_from _ _ 0 0); [apply same_table_widths|apply parts_widths|..].
Qed.
Lemma key_compare_eq k k' : table_of k = table_of k' -> key_compare k k' = Eq <-> k = k'.
Proof.
  intros Ht. unfold key_compare. rewrite lex_compare_eq_fields.
  split; [destruct k, k'; simpl in *; intros; simplify_eq; done|by intros ->].
Qed.

(** C36. Keys of one table compare, as the unsigned words the index orders,
    like their fields from the most significant one: warehouse, district,
    customer or order, line. *)
Theorem keys_order_lexicographically k k' : table_of k = table_of k' -> fits k -> fits k' ->
  (get_raw_key k ?= get_raw_key k') = key_compare k k' /\
  (operator_lt (get_raw_key k) (get_raw_key k') = true <-> key_compare k k' = Lt) /\
  (operator_eq (get_raw_key k) (get_raw_key k') = true <-> k = k').
Proof.
  intros Ht Hk Hk'. pose proof (raw_key_compare k k' Ht Hk Hk') as E. split; [done|].
  unfold operator_lt, operator_eq. rewrite Z.ltb_lt, <- Z.compare_lt_iff, Z.eqb_eq, <- Z.compare_eq_iff, E.
  split; [done|]. by apply key_compare_eq.
Qed.

(** The fields of a raw key of table [r]. *)
Definition unpack (r : RecordID) (raw : Z) : option table_key :=
  match r with
  | ITEM => Some (KItem raw) | WAREHOUSE => Some (KWarehouse raw)
  | STOCK => Some (KStock (StockKey.w_id raw) (StockKey.i_id raw))
  | DISTRICT => Some (KDistrict (DistrictKey.w_id raw) (DistrictKey.d_id raw))
  | CUSTOMER => Some (KCustomer (CustomerKey.w_id raw) (CustomerKey.d_id raw) (CustomerKey.c_id raw))
  | ORDER => Some (KOrder (OrderKey.w_id raw) (OrderKey.d_id raw) (OrderKey.o_id raw))
  | ORDER_SECONDARY => Some (KOrderSecondary (OrderSecondaryKey.w_id raw) (OrderSecondaryKey.d_id raw)
                               (OrderSecondaryKey.c_id raw) (OrderSecondaryKey.o_id raw))
  | NEWORDER => Some (KNewOrder (NewOrderKey.w_id raw) (NewOrderKey.d_id raw) (NewOrderKey.o_id raw))
  | ORDERLINE => Some (KOrderLine (OrderLineKey.w_id raw) (OrderLineKey.d_id raw) (OrderLineKey.o_id raw) (OrderLineKey.ol_number raw))
  | _ => None
  end.

Lemma get_set_fits word o wd v : 0 <= o -> 0 <= wd -> 0 <= v < 2 ^ wd -> get_field (set_field word o wd v) o wd = v.
Proof. intros. rewrite get_set_field, Z.land_ones, Z.mod_small by lia. done. Qed.

(** C37. The fields are recovered from the raw key, which is a 64-bit word (32
    bits for items and districts, 16 for warehouses); a key in range loses
    nothing, so table id and raw key identify a record. *)
Theorem keys_roundtrip k : fits k ->
  unpack (table_of k) (get_raw_key k) = Some k /\ is_key (get_raw_key k) /\
  (match table_of k with WAREHOUSE => get_raw_key k < 2 ^ 16 | ITEM | DISTRICT => get_raw_key k < 2 ^ 32 | _ => True end) /\
  forall k', fits k' -> RecordID_value (table_of k) = RecordID_value (table_of k') -> get_raw_key k = get_raw_key k' -> k = k'.
Proof.
  intros Hk. split_and!.
  - unfold fits in Hk. destruct k; simpl in *; rewrite ?Forall_cons, ?Forall_nil in Hk; simpl in Hk; destruct_and?; try done; do 2 f_equal;
      unfold StockKey.w_id, StockKey.i_id, StockKey.create_key, DistrictKey.w_id, DistrictKey.d_id, DistrictKey.create_key,
        CustomerKey.w_id, CustomerKey.d_id, CustomerKey.c_id, CustomerKey.create_key, OrderKey.w_id, OrderKey.d_id, OrderKey.o_id,
        OrderKey.create_key, OrderSecondaryKey.w_id, OrderSecondaryKey.d_id, OrderSecondaryKey.c_id, OrderSecondaryKey.o_id,
        OrderSecondaryKey.create_key, NewOrderKey.w_id, NewOrderKey.d_id, NewOrderKey.o_id, NewOrderKey.create_key,
        OrderLineKey.w_id, OrderLineKey.d_id, OrderLineKey.o_id, OrderLineKey.ol_number, OrderLineKey.create_key; cbv zeta;
      rewrite ?get_set_field_other by lia; by apply get_set_fits.
  - rewrite raw_key_packs by done. pose proof (pack_bound _ (parts_widths k) Hk).
    unfold is_key. destruct k; simpl in *; lia.
  - rewrite raw_key_packs by done. pose proof (pack_bound _ (parts_widths k) Hk). destruct k; simpl in *; lia.
  - intros k' Hk' Et Er. assert (table_of k = table_of k') as Ht by (destruct k, k'; done).
    apply key_compare_eq; [done|]. rewrite <- raw_key_compare, Er by done. apply Z.compare_refl.
Qed.

(** The range of order lines the Delivery and OrderStatus transactions
    scan, from [(w, d, o, 1)] to [(w, d, o + 1, 1)] exclusive, holds exactly
    the lines numbered from 1 of order [o], and line 0 of the next order. *)
Theorem orderline_range w d o line : fits (KOrderLine w d o 1) -> fits (KOrderLine w d (o + 1) 1) ->
  table_of line = ORDERLINE -> fits line ->
  (get_raw_key (KOrderLine w d o 1) <= get_raw_key line < get_raw_key (KOrderLine w d (o + 1) 1) <->
   (exists n, 1 <= n /\ line = KOrderLine w d o n) \/ line = KOrderLine w d (o + 1) 0).
Proof.
  intros H1 H2 Ht Hl. destruct line as [| | | | | | | |w' d' o' n']; try discriminate. rewrite !raw_key_packs by done.
  unfold fits in *. simpl in *. rewrite !Forall_cons in *. simpl in *. destruct_and?. unfold pack. simpl. split.
  - intros Hr. assert (w' = w) by lia. subst. assert (d' = d) by lia. subst.
    assert ((o' = o /\ 1 <= n') \/ (o' = o + 1 /\ n' = 0)) as [[-> ?]|[-> ->]] by lia; eauto.
  - intros [(n & Hn & [= -> -> -> ->])|[= -> -> -> ->]]; lia.
Qed.

(** *** Customers by last name *)
Lemma strncmp_names a b ra rb n : Forall (.≠ 0) a -> Forall (.≠ 0) b -> Forall (λ x, 0 <= x) a -> Forall (λ x, 0 <= x) b ->
  (length a <= n)%nat -> (length b <= n)%nat -> exists c, strncmp (a ++ 0 :: ra) (b ++ 0 :: rb) n = Ok c /\
    (c ?= 0) = lex_compare a b.
Proof.
  revert b n. induction a as [|x a IH]; intros [|y b] [|n] Za Zb Pa Pb La Lb; simpl in *; try lia;
    try (by exists 0); rewrite ?Forall_cons in *; destruct_and?.
  - exists (-1). rewrite (proj2 (Z.ltb_lt 0 y)) by lia. done.
  - exists 1. rewrite (proj2 (Z.ltb_ge x 0)), (proj2 (Z.ltb_lt 0 x)) by lia. done.
  - destruct (Z.compare_spec x y) as [->|Hl|Hl].
    + rewrite Z.ltb_irrefl, (proj2 (Z.eqb_neq y 0)) by done. apply IH; try done; lia.
    + exists (-1). by rewrite (proj2 (Z.ltb_lt x y)) by lia.
    + exists 1. by rewrite (proj2 (Z.ltb_ge x y)), (proj2 (Z.ltb_lt y x)) by lia.
Qed.

(** A name as [create_key] receives it. *)
Definition is_name (s : list Z) : Prop := Forall (.≠ 0) s /\ Forall (λ x, 0 <= x) s /\ (length s <= 16)%nat.

Lemma secondary_key_created raw w d s rest : length raw = 17%nat -> is_name s -> 0 <= w < 2 ^ 16 -> 0 <= d < 2 ^ 8 ->
  exists tail, CustomerSecondaryKey.create_key raw w d (s ++ 0 :: rest)
    = Ok (CustomerSecondaryKey.mk (get_raw_key (KDistrict w d)) (s ++ 0 :: tail)).
Proof.
  intros Hr (Z0 & _ & L) Hw Hd. unfold CustomerSecondaryKey.create_key, copy. rewrite Facts.copy_cstr_spec by (done || lia).
  simpl. replace (Nat.min (length raw - 1) (length s)) with (length s) by lia. rewrite firstn_all. by eexists.
Qed.

(** The read-only customer index orders its keys by warehouse, district
    and last name, and two keys are equal exactly when these are. *)
Theorem customers_order_by_name raw raw' w d s rest w' d' s' rest' :
  length raw = 17%nat -> length raw' = 17%nat -> is_name s -> is_name s' ->
  0 <= w < 2 ^ 16 -> 0 <= d < 2 ^ 8 -> 0 <= w' < 2 ^ 16 -> 0 <= d' < 2 ^ 8 ->
  exists k k', CustomerSecondaryKey.create_key raw w d (s ++ 0 :: rest) = Ok k /\
    CustomerSecondaryKey.create_key raw' w' d' (s' ++ 0 :: rest') = Ok k' /\
    CustomerSecondaryKey.lt k k' = Ok (bool_decide (lex_compare (w :: d :: s) (w' :: d' :: s') = Lt)) /\
    CustomerSecondaryKey.eq k k' = Ok (bool_decide ((w, d, s) = (w', d', s'))).
Proof.
  intros Hr Hr' Hs Hs' Hw Hd Hw' Hd'.
  destruct (secondary_key_created raw w d s rest) as [tl ->]; [done..|].
  destruct (secondary_key_created raw' w' d' s' rest') as [tl' ->]; [done..|].
  assert (F : fits (KDistrict w d)) by (apply Forall_cons_2; [done|apply Forall_cons_2; [done|constructor]]).
  assert (F' : fits (KDistrict w' d')) by (apply Forall_cons_2; [done|apply Forall_cons_2; [done|constructor]]).
  eexists _, _. split; [done|]. split; [done|].
  unfold CustomerSecondaryKey.lt, CustomerSecondaryKey.eq, CustomerSecondaryKey.cmp_c_last. cbn [CustomerSecondaryKey.num CustomerSecondaryKey.c_last].
  destruct Hs as (Z0 & P0 & L0), Hs' as (Z1 & P1 & L1).
  destruct (strncmp_names s s' tl tl' 16 Z0 Z1 P0 P1 L0 L1) as (c & -> & Hc).
  pose proof (raw_key_compare (KDistrict w d) (KDistrict w' d') eq_refl F F') as E. unfold key_compare in E. cbn [parts fmap list_fmap snd] in E.
  pose proof (lex_compare_eq_fields s s') as Heq.
  destruct (Z.eqb_spec (get_raw_key (KDistrict w d)) (get_raw_key (KDistrict w' d'))) as [Ek|Nk].
  - rewrite Ek, Z.compare_refl in E. symmetry in E. apply (lex_compare_eq_fields [w; d] [w'; d']) in E as [= -> ->].
    cbn [mbind outcome_bind]. simpl. rewrite !Z.compare_refl. split; f_equal; symmetry.
    + rewrite <- Hc. destruct (Z.ltb_spec c 0); [apply bool_decide_eq_true_2; by apply Z.compare_lt_iff|
        apply bool_decide_eq_false_2; rewrite Z.compare_lt_iff; lia].
    + destruct (Z.eqb_spec c 0) as [->|].
      * apply bool_decide_eq_true_2. f_equal. by apply Heq.
      * apply bool_decide_eq_false_2. intros [= <-]. rewrite (proj2 Heq eq_refl) in Hc. by apply Z.compare_eq_iff in Hc.
  - cbn [mret outcome_ret]. split; f_equal; symmetry.
    + assert (lex_compare (w :: d :: s) (w' :: d' :: s') = (get_raw_key (KDistrict w d) ?= get_raw_key (KDistrict w' d'))) as ->.
      { rewrite E. simpl. destruct (Z.compare_spec w w') as [->| |]; [|done..].
        destruct (Z.compare_spec d d') as [->| |]; [|done..]. done. }
      destruct (Z.ltb_spec (get_raw_key (KDistrict w d)) (get_raw_key (KDistrict w' d'))).
      * apply bool_decide_eq_true_2. by apply Z.compare_lt_iff.
      * apply bool_decide_eq_false_2. rewrite Z.compare_lt_iff. lia.
    + apply bool_decide_eq_false_2. congruence.
Qed.

Module KeyWitness.
Lemma keys_order_lexicographically_witness :
  (get_raw_key (KOrder 3 7 42) ?= get_raw_key (KOrder 3 8 1)) = Lt /\
  operator_lt (get_raw_key (KOrder 3 7 42)) (get_raw_key (KOrder 3 8 1)) = true.
Proof.
  destruct (keys_order_lexicographically (KOrder 3 7 42) (KOrder 3 8 1)) as (E & L & _); [done| | |].
  1,2: unfold fits; simpl; rewrite !Forall_cons; simpl; split_and!; lia || constructor.
  split; [exact E|]. apply L. reflexivity.
Defined.
Lemma keys_roundtrip_witness : unpack ORDERLINE (get_raw_key (KOrderLine 3 7 42 9)) = Some (KOrderLine 3 7 42 9).
Proof.
  refine (proj1 (keys_roundtrip (KOrderLine 3 7 42 9) _)).
  unfold fits; simpl; rewrite !Forall_cons; simpl; split_and!; lia || constructor.
Defined.
Lemma orderline_range_witness :
  get_raw_key (KOrderLine 3 7 42 1) <= get_raw_key (KOrderLine 3 7 42 15) < get_raw_key (KOrderLine 3 7 (42 + 1) 1).
Proof.
  apply (orderline_range 3 7 42 (KOrderLine 3 7 42 15)); [| |done| |left; exists 15; split; [lia|done]].
  all: unfold fits; simpl; rewrite !Forall_cons; simpl; split_and!; lia || constructor.
Defined.
Lemma customers_order_by_name_witness : exists k k',
  CustomerSecondaryKey.create_key (replicate 17 0) 1 2 (c_string "BARBARABLE") = Ok k /\
  CustomerSecondaryKey.create_key (replicate 17 0) 1 2 (c_string "BARBARBAR") = Ok k' /\
  CustomerSecondaryKey.lt k k' = Ok true /\ CustomerSecondaryKey.eq k k' = Ok false.
Proof.
  assert (N : forall s, bool_decide (Forall (.≠ 0) (bytes s)) = true -> (length (bytes s) <= 16)%nat -> is_name (bytes s)).
  { intros s H1 H2. split; [by apply bool_decide_eq_true in H1|]. split; [|done].
    unfold bytes. apply Forall_fmap, Forall_true. intros a. simpl. lia. }
  exact (customers_order_by_name (replicate 17 0) (replicate 17 0) 1 2 (bytes "BARBARABLE") [] 1 2 (bytes "BARBARBAR") []
    eq_refl eq_refl (N "BARBARABLE"%string eq_refl ltac:(vm_compute; lia)) (N "BARBARBAR"%string eq_refl ltac:(vm_compute; lia))
    ltac:(lia) ltac:(lia) ltac:(lia) ltac:(lia)).
Defined.
(** The order-by-customer key keeps 16 bits of the customer: ids out of range collide. *)
Example customer_ids_truncated : OrderSecondaryKey.create_key 1 2 1 9 = OrderSecondaryKey.create_key 1 2 65537 9.
Proof. reflexivity. Qed.
End KeyWitness.
