(* ===== verification/TpccTx.v ===== *)
(** * TpccTx: what the TPC-C transaction profiles share

    [benchmarks/tpcc/include/config.hpp] and [tx_utils.hpp]: the
    configuration, the output checksum, the statistics and [TxHelper].  The
    profiles are templates over a [Transaction]; its implementations are not
    part of the repository, so it is the class [Transaction], a record of the
    member functions the profiles call.  A [Record*] is a typed pointer that
    is read and written through the engine, so a profile that keeps a pointer
    sees what the engine has made of the record since.

    A profile is a program of [Tx]: a state-and-error monad that can also
    leave with a [Status], as [return helper.kill(...)] does. *)
From S2P Require Import Prelude Random TpccRecords TpccKeys.

(** ** [config.hpp] *)
Module Config.
Record t := mk { num_threads : Z; num_warehouses : Z; does_random_abort : bool; fixed_ware : bool }.
Definition init : t := mk 1 1 false false.
Definition set_num_warehouses (n : Z) (c : t) : t := mk (num_threads c) n (does_random_abort c) (fixed_ware c).
Definition set_num_threads (n : Z) (c : t) : t := mk n (num_warehouses c) (does_random_abort c) (fixed_ware c).
Definition enable_random_abort (c : t) : t := mk (num_threads c) (num_warehouses c) true (fixed_ware c).
Definition enable_fixed_warehouse_per_thread (c : t) : t := mk (num_threads c) (num_warehouses c) (does_random_abort c) true.
End Config.

(** [enum Status] and [Transaction::Result]. *)
Inductive Status := SUCCESS | USER_ABORT | SYSTEM_ABORT | BUG.
Module Result.
Inductive t := SUCCESS | FAIL | ABORT.
End Result.
Definition succeeded (r : Result.t) : bool := match r with Result.SUCCESS => true | _ => false end.

(** ** Objects as bytes *)

(** The little-endian bytes of an unsigned word of [n] bytes, and back. *)
Fixpoint le_bytes (n : nat) (z : Z) : list Z :=
  match n with O => [] | S n => z mod 2 ^ 8 :: le_bytes n (Z.shiftr z 8) end.
Fixpoint le_word (bs : list Z) : Z :=
  match bs with [] => 0 | b :: bs => b + 2 ^ 8 * le_word bs end.

(** The bytes of a [double], its text under ["%7.2f"], what [rdtscp] returns
    at the [n]-th reading, and the contents of an uninitialised array. *)
Class Machine `{FloatOps} := {
  d_bytes : double -> list Z;
  d_fixed : double -> list Z;
  rdtscp : nat -> Z;
  garbage : nat -> list Z }.
(** What the profiles need of it: the text of a double is a non-empty string of
    at most 313 characters (sign, 309 digits, point, two digits). *)
Class MachineLaws `{Machine} := {
  d_fixed_text x : Forall (.≠ 0) (d_fixed x);
  d_fixed_length x : (length (d_fixed x) <= 313)%nat;
  garbage_length n : length (garbage n) = n }.

(** ** [Output]: a checksum of everything the transaction read *)
Module Output.
(** The loop over whole words; what is left has fewer than eight bytes. *)
Fixpoint merge_words (n : nat) (data : list Z) (out : Z) : list Z * Z :=
  match n with
  | O => (data, out)
  | S n => merge_words n (drop 8 data) (u64 (out + le_word (take 8 data)))
  end.
Definition merge (data : list Z) (out : Z) : Z :=
  let '(rest, out) := merge_words (length data / 8) data out in
  match rest with [] => out | _ => u64 (out + le_word rest) end.
Definition invalidate (out : Z) : Z := 0.
End Output.

(** ** [Stat] *)
Inductive TxProfileID := NEWORDER_TX | PAYMENT_TX | ORDERSTATUS_TX | DELIVERY_TX | STOCKLEVEL_TX.
Definition TxProfileID_value (i : TxProfileID) : nat :=
  match i with NEWORDER_TX => 0 | PAYMENT_TX => 1 | ORDERSTATUS_TX => 2 | DELIVERY_TX => 3 | STOCKLEVEL_TX => 4 end.
Definition MAX_TX : nat := 5.
#[export] Instance TxProfileID_eq_dec : EqDecision TxProfileID.
Proof. solve_decision. Defined.

Module Stat.
Definition ABORT_DETAILS_SIZE : nat := 20.
Record PerTxType := mk { num_commits : Z; num_usr_aborts : Z; num_sys_aborts : Z; abort_details : list Z;
  total_latency : Z; min_latency : Z; max_latency : Z }.
Definition zero : PerTxType := mk 0 0 0 (replicate ABORT_DETAILS_SIZE 0) 0 (2 ^ 64 - 1) 0.
(** The arrays of both have [ABORT_DETAILS_SIZE] elements. *)
Definition add_per (this rhs : PerTxType) (with_abort_details : bool) : PerTxType :=
  mk (u64 (num_commits this + num_commits rhs)) (u64 (num_usr_aborts this + num_usr_aborts rhs))
     (u64 (num_sys_aborts this + num_sys_aborts rhs))
     (if with_abort_details then zip_with (λ a b, u64 (a + b)) (abort_details this) (abort_details rhs) else abort_details this)
     (u64 (total_latency this + total_latency rhs))
     (Z.min (min_latency this) (min_latency rhs)) (Z.max (max_latency this) (max_latency rhs)).
(** [per_type_], an array of [TxProfileID::MAX] elements. *)
Definition t := list PerTxType.
Definition init : t := replicate MAX_TX zero.
Definition add (this rhs : t) : t := zip_with (λ a b, add_per a b true) this rhs.
Definition aggregate_perf (this : t) : PerTxType := fold_left (λ out p, add_per out p false) this zero.
End Stat.

(** ** The transaction engine *)
Inductive Table := TItem | TWarehouse | TStock | TDistrict | TCustomer | THistory | TOrder | TNewOrder | TOrderLine.
#[export] Instance Table_eq_dec : EqDecision Table.
Proof. solve_decision. Defined.
Definition Row `{FloatOps} (T : Table) : Type :=
  match T with
  | TItem => Item | TWarehouse => Warehouse | TStock => Stock | TDistrict => District | TCustomer => Customer
  | THistory => History | TOrder => Order | TNewOrder => NewOrder | TOrderLine => OrderLine
  end.

(** The member functions the profiles call.  [load] and [store] are [*p]; a
    callback is called with the state [S] it captures by reference. *)
Class Transaction `{FloatOps} := {
  engine : Type;
  ptr : Table -> Type;
  load : forall T, ptr T -> engine -> option (Row T);
  store : forall T, ptr T -> Row T -> engine -> engine;
  thread_id : engine -> Z;
  get_record : forall T, Z -> M engine (Result.t * ptr T);
  prepare_record_for_update : forall T, Z -> M engine (Result.t * ptr T);
  finish_update : forall T, ptr T -> M engine Result.t;
  prepare_record_for_insert : forall T, Z -> M engine (Result.t * ptr T);
  prepare_history_for_insert : M engine (Result.t * ptr THistory);
  finish_insert : forall T, ptr T -> M engine Result.t;
  prepare_record_for_delete : forall T, Z -> M engine (Result.t * ptr T);
  finish_delete : forall T, ptr T -> M engine Result.t;
  get_customer_by_last_name : Z -> Z -> list Z -> M engine (Result.t * ptr TCustomer);
  get_customer_by_last_name_and_prepare_for_update : Z -> Z -> list Z -> M engine (Result.t * ptr TCustomer);
  get_order_by_customer_id : Z -> Z -> Z -> M engine (Result.t * ptr TOrder);
  get_neworder_with_smallest_key_no_less_than : Z -> M engine (Result.t * ptr TNewOrder);
  range_query : forall S : Type, Z -> Z -> (OrderLine -> S -> outcome S) -> S -> M engine (Result.t * S);
  range_update : forall S : Type, Z -> Z -> (OrderLine -> S -> outcome (OrderLine * S)) -> S -> M engine (Result.t * S);
  commit_ : M engine bool;
  abort_ : M engine unit }.

(** ** A running transaction *)
Section Tx.
Context `{BuildConfig} `{FloatOps} `{!Machine} `{!Transaction}.

(** The engine, the thread-local variables, the worker's [ThreadLocalData]
    and the number of times the clock has been read. *)
Record World := mkWorld { eng : engine; local : Local; stat : Stat.t; out : Z; ticks : nat }.

Definition on_engine {A} (m : M engine A) : M World A := fun w =>
  match m (eng w) with Ok (a, e) => Ok (a, mkWorld e (local w) (stat w) (out w) (ticks w)) | Err x => Err x end.
Definition on_local {A} (m : M Local A) : M World A := fun w =>
  match m (local w) with Ok (a, l) => Ok (a, mkWorld (eng w) l (stat w) (out w) (ticks w)) | Err x => Err x end.
Definition read_tsc : M World Z := fun w =>
  Ok (rdtscp (ticks w), mkWorld (eng w) (local w) (stat w) (out w) (S (ticks w))).
(** [out << x], with the bytes of [x]. *)
Definition emit (data : list Z) : M World unit := fun w =>
  Ok (tt, mkWorld (eng w) (local w) (stat w) (Output.merge data (out w)) (ticks w)).

(** A program that can leave with a status. *)
Definition Tx (A : Type) : Type := M World (Status + A).
#[export] Instance Tx_ret : MRet Tx := fun A a w => Ok (inr a, w).
#[export] Instance Tx_bind : MBind Tx := fun A B f m w =>
  match m w with
  | Ok (inr a, w') => f a w'
  | Ok (inl s, w') => Ok (inl s, w')
  | Err x => Err x
  end.
Definition act {A} (m : M World A) : Tx A := fun w => match m w with Ok (a, w') => Ok (inr a, w') | Err x => Err x end.
(** [return s] out of the middle of the function. *)
Definition leave {A} (m : M World Status) : Tx A := fun w => match m w with Ok (s, w') => Ok (inl s, w') | Err x => Err x end.
Definition run_tx (m : Tx Status) : M World Status := fun w =>
  match m w with Ok (inl s, w') | Ok (inr s, w') => Ok (s, w') | Err x => Err x end.
(** A loop whose body may leave. *)
Fixpoint each {A} (l : list A) (f : A -> Tx unit) : Tx unit :=
  match l with [] => mret tt | x :: l => f x;; each l f end.

(** [*p], [p->field = ...] *)
Definition read (T : Table) (p : ptr T) : Tx (Row T) := act (on_engine (fun e => r ← deref (load T p e); mret (r, e))).
Definition modify (T : Table) (p : ptr T) (f : Row T -> outcome (Row T)) : Tx unit :=
  act (on_engine (fun e => r ← deref (load T p e); r ← f r; mret (tt, store T p r e))).

(** ** [not_succeeded] *)
Definition not_succeeded (c : Config.t) (res : Result.t) : M World (bool * Result.t) :=
  res ← (if Config.does_random_abort c && succeeded res
         then r ← on_local (urand 1 100); mret (if r =? 1 then Result.ABORT else res) else mret res);
  (match res with Result.ABORT => on_engine abort_ | _ => mret tt end);;
  mret (negb (succeeded res), res).

(** ** [TxHelper]; [id] names the element of [stat] it refers to *)
Definition on_stat (id : TxProfileID) (f : Stat.PerTxType -> outcome Stat.PerTxType) : M World unit := fun w =>
  p ← deref (stat w !! TxProfileID_value id);
  p ← f p;
  st ← write_at (stat w) (TxProfileID_value id) p;
  mret (tt, mkWorld (eng w) (local w) st (out w) (ticks w)).

Definition count_commit (time : Z) (p : Stat.PerTxType) : outcome Stat.PerTxType :=
  mret (Stat.mk (u64 (Stat.num_commits p + 1)) (Stat.num_usr_aborts p) (Stat.num_sys_aborts p) (Stat.abort_details p)
          (u64 (Stat.total_latency p + time)) (Z.min (Stat.min_latency p) time) (Z.max (Stat.max_latency p) time)).
Definition count_usr_abort (p : Stat.PerTxType) : outcome Stat.PerTxType :=
  mret (Stat.mk (Stat.num_commits p) (u64 (Stat.num_usr_aborts p + 1)) (Stat.num_sys_aborts p) (Stat.abort_details p)
          (Stat.total_latency p) (Stat.min_latency p) (Stat.max_latency p)).
Definition count_sys_abort (abort_id : nat) (p : Stat.PerTxType) : outcome Stat.PerTxType :=
  n ← deref (Stat.abort_details p !! abort_id);
  details ← write_at (Stat.abort_details p) abort_id (u64 (n + 1));
  mret (Stat.mk (Stat.num_commits p) (Stat.num_usr_aborts p) (u64 (Stat.num_sys_aborts p + 1)) details
          (Stat.total_latency p) (Stat.min_latency p) (Stat.max_latency p)).

Definition kill (id : TxProfileID) (res : Result.t) (abort_id : nat) : M World Status :=
  match res with
  | Result.FAIL => mret BUG
  | Result.ABORT => on_stat id (count_sys_abort abort_id);; mret SYSTEM_ABORT
  | Result.SUCCESS => failM (RuntimeError "wrong Transaction::Result")
  end.
Definition commit (id : TxProfileID) (abort_id : nat) (time : Z) : M World Status :=
  b ← on_engine commit_;
  if b : bool then on_stat id (count_commit time);; mret SUCCESS
  else on_stat id (count_sys_abort abort_id);; mret SYSTEM_ABORT.
Definition usr_abort (id : TxProfileID) : M World Status := on_stat id count_usr_abort;; mret USER_ABORT.

(** [res = op; if (not_succeeded(tx, res)) return helper.kill(res, abort_id);] *)
Definition require (c : Config.t) (id : TxProfileID) (abort_id : nat) (res : Result.t) : Tx unit :=
  '(b, res) ← act (not_succeeded c res);
  if b : bool then leave (kill id res abort_id) else mret tt.
Definition stage {A} (c : Config.t) (id : TxProfileID) (abort_id : nat) (op : M engine (Result.t * A)) : Tx A :=
  '(res, a) ← act (on_engine op);
  require c id abort_id res;; mret a.
Definition stage_ (c : Config.t) (id : TxProfileID) (abort_id : nat) (op : M engine Result.t) : Tx unit :=
  res ← act (on_engine op); require c id abort_id res.
End Tx.
