(* ===== verification/TpccProfiles.v ===== *)
(** * TpccProfiles: the five TPC-C transaction profiles and their runner

    [benchmarks/tpcc/include/neworder_tx.hpp], [payment_tx.hpp],
    [orderstatus_tx.hpp], [delivery_tx.hpp], [stocklevel_tx.hpp] and
    [tx_runner.hpp].  Each profile is a Module: its [Input] and [generate], its
    abort identifiers and [run].  A loop that draws a warehouse until it
    differs from the home warehouse takes its bound as an argument. *)
From S2P Require Import Prelude Random TpccRecords TpccKeys TpccTx.

Definition UNUSED_ITEM : Z := 1.
Definition UNUSED_CUSTOMER : Z := 0.
Definition DISTS_PER_WARE : Z := 10.

(** ** The C string functions the profiles use *)

Fixpoint is_prefix (s t : list Z) : bool :=
  match s, t with [], _ => true | a :: s, b :: t => (a =? b) && is_prefix s t | _, [] => false end.
Fixpoint is_infix (s t : list Z) : bool :=
  is_prefix s t || match t with [] => false | _ :: t => is_infix s t end.
(** [strstr(hay, needle) != nullptr] *)
Definition strstr (hay : list Z) (needle : string) : outcome bool :=
  n ← strlen hay; mret (is_infix (bytes needle) (take n hay)).
(** What ["%.ns"] prints: at most [n] characters, up to the terminator. *)
Fixpoint str_prec (n : nat) (s : list Z) : outcome (list Z) :=
  match n with
  | O => Ok []
  | S n => c ← deref (head s); if c =? 0 then Ok [] else t ← str_prec n (tail s); mret (c :: t)
  end.
(** Padding on the left, as ["%4d"], and on the right, as ["%-10s"]. *)
Definition pad_left (n : nat) (s : list Z) : list Z := replicate (n - length s) 32 ++ s.
Definition pad_right (n : nat) (s : list Z) : list Z := s ++ replicate (n - length s) 32.
(** The decimal digits of an unsigned number of at most 20 digits. *)
Fixpoint decimal (fuel : nat) (z : Z) : list Z :=
  match fuel with
  | O => []
  | S fuel => if z <? 10 then [48 + z] else decimal fuel (z / 10) ++ [48 + z mod 10]
  end.
Definition print_u (z : Z) : list Z := decimal 20 z.
(** [snprintf(buf, size, ...)] of the text [s]; the length of the whole text. *)
Definition snprintf (buf : list Z) (size : nat) (s : list Z) : outcome (list Z * nat) :=
  match size with
  | O => Ok (buf, length s)
  | S n => buf ← write_bytes buf 0 (take n s ++ [0]); mret (buf, length s)
  end.

Section Profiles.
Context `{BuildConfig} `{FloatOps} `{!Machine} `{!Transaction}.
Context (c : Config.t).

Definition out_u (n : nat) (z : Z) : Tx unit := act (emit (le_bytes n z)).
Definition out_d (x : double) : Tx unit := act (emit (d_bytes x)).
Definition out_s (s : list Z) : Tx unit := act (emit s).
Definition out_address (a : Address) : Tx unit :=
  out_s (street_1 a ++ street_2 a ++ city a ++ state a ++ zip a).

(** [while ((remote_w_id = urand_int(1, num_warehouses)) == w_id) {}] *)
Fixpoint remote_warehouse (fuel : nat) (w_id : Z) : M Local Z :=
  match fuel with
  | O => failM OutOfFuel
  | S fuel => r ← urand 1 (Config.num_warehouses c);
              if u16 r =? w_id then remote_warehouse fuel w_id else mret (u16 r)
  end.

End Profiles.

(** ** [neworder_tx.hpp] *)
Module NewOrderTx.
Record Line := mkLine { ol_supply_w_id : Z; ol_i_id : Z; ol_quantity : Z }.
(** [items] holds the first [ol_cnt] elements of the array. *)
Record Input := mkInput { w_id : Z; d_id : Z; c_id : Z; ol_cnt : Z; o_entry_d : Z; rbk : bool; is_remote : bool;
  items : list Line }.

(** [enum AbortID] *)
Definition GET_WAREHOUSE := 0%nat.
Definition PREPARE_UPDATE_DISTRICT := 1%nat.
Definition FINISH_UPDATE_DISTRICT := 2%nat.
Definition GET_CUSTOMER := 3%nat.
Definition PREPARE_INSERT_NEWORDER := 4%nat.
Definition FINISH_INSERT_NEWORDER := 5%nat.
Definition PREPARE_INSERT_ORDER := 6%nat.
Definition FINISH_INSERT_ORDER := 7%nat.
Definition GET_ITEM := 8%nat.
Definition PREPARE_UPDATE_STOCK := 9%nat.
Definition FINISH_UPDATE_STOCK := 10%nat.
Definition PREPARE_INSERT_ORDERLINE := 11%nat.
Definition FINISH_INSERT_ORDERLINE := 12%nat.
Definition PRECOMMIT := 13%nat.

Section NewOrder.
Context `{BuildConfig} `{FloatOps} `{!Machine} `{!Transaction}.
Context (c : Config.t) (spins : nat).

(** One iteration of the loop of [generate]. *)
Definition generate_line (w_id_ ol_cnt_ : Z) (rbk_ is_remote_ : bool) (i : Z) : M Local Line :=
  id ← (if (i =? ol_cnt_) && rbk_ then mret UNUSED_ITEM else nurand_int 8191 false 1 100000);
  supply ← (if is_remote_ && (1 <? Config.num_warehouses c) then
              r ← remote_warehouse c spins w_id_;
              lift (assert_ (negb (r =? w_id_)));; mret r
            else mret w_id_);
  q ← urand 1 10;
  mret (mkLine supply (u32 id) (u8 q)).
Definition generate (w_id0 : Z) : M Local Input :=
  d ← urand 1 DISTS_PER_WARE;
  cust ← nurand_int 1023 false 1 3000;
  cnt ← urand 5 15;
  date ← get_timestamp;
  r ← urand 1 100;
  rem ← urand 1 100;
  let rbk_ := r =? 1 in let is_remote_ := rem =? 1 in
  lines ← forM (seqZ 1 (u8 cnt)) (generate_line w_id0 (u8 cnt) rbk_ is_remote_);
  mret (mkInput w_id0 (u8 d) (u32 cust) (u8 cnt) date rbk_ is_remote_ lines).

Definition create_neworder (no : NewOrder) (w_id d_id o_id : Z) : NewOrder := mkNewOrder w_id (u8 d_id) o_id.
(** [create_order], with the value [get_timestamp] returns. *)
Definition create_order (o : Order) (w_id d_id c_id o_id ol_cnt : Z) (is_remote : bool) (now : Z) : Order :=
  mkOrder w_id d_id o_id c_id 0 ol_cnt (if is_remote then 0 else 1) now.
Definition create_orderline (ol : OrderLine) (w_id d_id o_id ol_num ol_i_id ol_supply_w_id ol_quantity : Z)
    (ol_amount : double) (s : Stock) : outcome OrderLine :=
  dist ← deref (s_dist s !! Z.to_nat (d_id - 1));
  info ← copy (ol_dist_info ol) dist;
  mret (mkOrderLine w_id d_id o_id ol_num ol_i_id ol_supply_w_id 0 ol_quantity ol_amount info).
Definition modify_stock (s : Stock) (ol_quantity : Z) (is_remote : bool) : Stock :=
  mkStock (s_w_id s) (s_i_id s)
    (if ol_quantity + 10 <? s_quantity s then i16 (s_quantity s - ol_quantity) else i16 (s_quantity s - ol_quantity + 91))
    (u32 (s_ytd s + ol_quantity)) (u16 (s_order_cnt s + 1))
    (if is_remote then u16 (s_remote_cnt s + 1) else s_remote_cnt s) (s_dist s) (s_data s).
Definition next_o_id (d : District) : District :=
  mkDistrict (d_w_id d) (TpccRecords.d_id d) (u32 (d_next_o_id d + 1)) (d_tax d) (d_ytd d) (d_name d) (d_address d).

#[local] Notation stage := (stage c NEWORDER_TX).
#[local] Notation stage_ := (stage_ c NEWORDER_TX).

(** One iteration of the loop of [run]: line [ol_num] of order [o_id]. *)
Definition run_line (inp : Input) (o_id : Z) (total : double) (ol_num : Z) : Tx double :=
  line ← act (lift (deref (items inp !! Z.to_nat (ol_num - 1))));
  if ol_i_id line =? UNUSED_ITEM then leave (usr_abort NEWORDER_TX) else
  i ← stage GET_ITEM (get_record TItem (ItemKey.create_key (ol_i_id line)));
  s ← stage PREPARE_UPDATE_STOCK (prepare_record_for_update TStock (StockKey.create_key (ol_supply_w_id line) (ol_i_id line)));
  ir ← read TItem i;
  sr ← read TStock s;
  i_orig ← act (lift (strstr (i_data ir) "ORIGINAL"));
  original ← (if i_orig : bool then act (lift (strstr (s_data sr) "ORIGINAL")) else mret false);
  let brand_generic := if original : bool then 66 else 71 in
  modify TStock s (λ r, mret (modify_stock r (ol_quantity line) (is_remote inp)));;
  stage_ FINISH_UPDATE_STOCK (finish_update TStock s);;
  ir ← read TItem i;
  let ol_amount := d_mul (d_of_Z (ol_quantity line)) (i_price ir) in
  let total := d_add total ol_amount in
  ol ← stage PREPARE_INSERT_ORDERLINE
         (prepare_record_for_insert TOrderLine (OrderLineKey.create_key (w_id inp) (d_id inp) o_id ol_num));
  sr ← read TStock s;
  modify TOrderLine ol (λ r, create_orderline r (w_id inp) (d_id inp) o_id ol_num (ol_i_id line) (ol_supply_w_id line)
                               (ol_quantity line) ol_amount sr);;
  stage_ FINISH_INSERT_ORDERLINE (finish_insert TOrderLine ol);;
  ir ← read TItem i; sr ← read TStock s;
  out_u 2 (ol_supply_w_id line);; out_u 4 (ol_i_id line);; out_s (i_name ir);; out_u 1 (ol_quantity line);;
  out_u 2 (s_quantity sr);; out_u 1 brand_generic;; out_d (i_price ir);; out_d ol_amount;;
  mret total.
Fixpoint run_lines (inp : Input) (o_id : Z) (total : double) (l : list Z) : Tx double :=
  match l with [] => mret total | n :: l => total ← run_line inp o_id total n; run_lines inp o_id total l end.

Definition body (inp : Input) : Tx Status :=
  start ← act read_tsc;
  out_u 2 (w_id inp);; out_u 1 (d_id inp);; out_u 4 (c_id inp);;
  w ← stage GET_WAREHOUSE (get_record TWarehouse (WarehouseKey.create_key (w_id inp)));
  d ← stage PREPARE_UPDATE_DISTRICT (prepare_record_for_update TDistrict (DistrictKey.create_key (w_id inp) (d_id inp)));
  dr ← read TDistrict d;
  let o_id := d_next_o_id dr in
  modify TDistrict d (λ r, mret (next_o_id r));;
  stage_ FINISH_UPDATE_DISTRICT (finish_update TDistrict d);;
  cu ← stage GET_CUSTOMER (get_record TCustomer (CustomerKey.create_key (w_id inp) (d_id inp) (c_id inp)));
  cr ← read TCustomer cu; wr ← read TWarehouse w; dr ← read TDistrict d;
  out_s (c_last cr);; out_s (c_credit cr);; out_d (c_discount cr);; out_d (w_tax wr);; out_d (d_tax dr);;
  out_u 1 (ol_cnt inp);; out_u 4 (d_next_o_id dr);; out_u 8 (o_entry_d inp);;
  no ← stage PREPARE_INSERT_NEWORDER (prepare_record_for_insert TNewOrder (NewOrderKey.create_key (w_id inp) (d_id inp) o_id));
  modify TNewOrder no (λ r, mret (create_neworder r (w_id inp) (d_id inp) o_id));;
  stage_ FINISH_INSERT_NEWORDER (finish_insert TNewOrder no);;
  o ← stage PREPARE_INSERT_ORDER (prepare_record_for_insert TOrder (OrderKey.create_key (w_id inp) (d_id inp) o_id));
  now ← act (on_local get_timestamp);
  modify TOrder o (λ r, mret (create_order r (w_id inp) (d_id inp) (c_id inp) o_id (ol_cnt inp) (is_remote inp) now));;
  stage_ FINISH_INSERT_ORDER (finish_insert TOrder o);;
  total ← run_lines inp o_id (d_of_Z 0) (seqZ 1 (ol_cnt inp));
  cr ← read TCustomer cu; wr ← read TWarehouse w; dr ← read TDistrict d;
  let total := d_mul total (d_mul (d_sub (d_of_Z 1) (c_discount cr)) (d_add (d_add (d_of_Z 1) (w_tax wr)) (d_tax dr))) in
  out_d total;;
  end_ ← act read_tsc;
  leave (commit NEWORDER_TX PRECOMMIT (u64 (end_ - start))).
Definition run (inp : Input) : M World Status := run_tx (body inp).
End NewOrder.
End NewOrderTx.

(** ** [payment_tx.hpp] *)
Module PaymentTx.
Record Input `{FloatOps} := mkInput { w_id : Z; d_id : Z; c_id : Z; c_w_id : Z; c_d_id : Z; h_amount : double;
  h_date : Z; by_last_name : bool; c_last : list Z }.
Arguments mkInput {_}.

Definition PREPARE_UPDATE_WAREHOUSE := 0%nat.
Definition FINISH_UPDATE_WAREHOUSE := 1%nat.
Definition PREPARE_UPDATE_DISTRICT := 2%nat.
Definition FINISH_UPDATE_DISTRICT := 3%nat.
Definition PREPARE_UPDATE_CUSTOMER_BY_LAST_NAME := 4%nat.
Definition PREPARE_UPDATE_CUSTOMER := 5%nat.
Definition FINISH_UPDATE_CUSTOMER := 6%nat.
Definition PREPARE_INSERT_HISTORY := 7%nat.
Definition FINISH_INSERT_HISTORY := 8%nat.
Definition PRECOMMIT := 9%nat.

Section Payment.
Context `{BuildConfig} `{FloatOps} `{!Machine} `{!Transaction}.
Context (c : Config.t) (spins : nat).

Definition generate (w_id0 : Z) : M Local Input :=
  d ← urand 1 DISTS_PER_WARE;
  amount ← urand_double 100 500000 100;
  date ← get_timestamp;
  home ← (if Config.num_warehouses c =? 1 then mret true else r ← urand 1 100; mret (r <=? 85));
  '(cw, cd) ← (if home : bool then mret (w_id0, u8 d)
               else r ← remote_warehouse c spins w_id0;
                    lift (assert_ (negb (r =? w_id0)));;
                    cd ← urand 1 DISTS_PER_WARE; mret (r, u8 cd));
  r ← urand 1 100;
  if r <=? 60 then
    n ← nurand_int 255 false 0 999;
    last ← lift (make_clast (garbage (Z.to_nat (MAX_LAST + 1))) n);
    mret (mkInput w_id0 (u8 d) UNUSED_CUSTOMER cw cd amount date true last.1)
  else
    id ← nurand_int 1023 false 1 3000;
    mret (mkInput w_id0 (u8 d) (u32 id) cw cd amount date false (garbage (Z.to_nat (MAX_LAST + 1)))).

Definition set_w_ytd (f : double -> double) (w : Warehouse) : Warehouse :=
  mkWarehouse (TpccRecords.w_id w) (w_tax w) (f (w_ytd w)) (w_name w) (w_address w).
Definition set_d_ytd (f : double -> double) (d : District) : District :=
  mkDistrict (d_w_id d) (TpccRecords.d_id d) (d_next_o_id d) (d_tax d) (f (d_ytd d)) (d_name d) (d_address d).
(** The payment is subtracted from the balance, added to [c_ytd_payment] and counted. *)
Definition pay (amount : double) (r : Customer) : Customer :=
  mkCustomer (TpccRecords.c_w_id r) (TpccRecords.c_d_id r) (TpccRecords.c_id r) (u16 (c_payment_cnt r + 1)) (c_delivery_cnt r)
    (c_since r) (c_credit_lim r) (c_discount r) (d_sub (c_balance r) amount) (d_add (c_ytd_payment r) amount)
    (c_first r) (c_middle r) (TpccRecords.c_last r) (c_phone r) (c_credit r) (c_data r) (c_address r).
Definition set_c_data (data : list Z) (r : Customer) : Customer :=
  mkCustomer (TpccRecords.c_w_id r) (TpccRecords.c_d_id r) (TpccRecords.c_id r) (c_payment_cnt r) (c_delivery_cnt r)
    (c_since r) (c_credit_lim r) (c_discount r) (c_balance r) (c_ytd_payment r)
    (c_first r) (c_middle r) (TpccRecords.c_last r) (c_phone r) (c_credit r) data (c_address r).

Definition MAX_DATA : Z := 500.
(** ["| %4u %2u %4u %2u %4u $%7.2f"] *)
Definition payment_text (c_id c_d_id c_w_id d_id w_id : Z) (amount : double) : list Z :=
  bytes "| " ++ pad_left 4 (print_u c_id) ++ bytes " " ++ pad_left 2 (print_u c_d_id) ++ bytes " " ++
  pad_left 4 (print_u c_w_id) ++ bytes " " ++ pad_left 2 (print_u d_id) ++ bytes " " ++ pad_left 4 (print_u w_id) ++
  bytes " $" ++ d_fixed amount.
Definition modify_customer_data (r : Customer) (w_id d_id c_w_id c_d_id : Z) (amount : double) : outcome Customer :=
  let size := Z.to_nat (MAX_DATA + 1) in
  '(new_data, len) ← snprintf (garbage size) size (payment_text (TpccRecords.c_id r) c_d_id c_w_id d_id w_id amount);
  assert_ (Z.of_nat len <=? MAX_DATA);;
  '(new_data, _) ← copy_cstr_at new_data len (c_data r) (size - len);
  data ← copy (c_data r) new_data;
  mret (set_c_data data r).
(** [create_history], with the value [get_timestamp] returns. *)
Definition create_history (h : History) (w_id d_id c_id c_w_id c_d_id : Z) (amount : double) (w_name d_name : list Z)
    (now : Z) : outcome History :=
  w ← str_prec 10 w_name; d ← str_prec 10 d_name;
  '(data, _) ← snprintf (h_data h) (length (h_data h)) (pad_right 10 w ++ bytes "    " ++ d);
  mret (mkHistory c_w_id c_d_id c_id w_id d_id now amount data).
(** The test of ["BC"]. *)
Definition bad_credit (r : Customer) : outcome bool :=
  a ← deref (c_credit r !! 0%nat);
  if a =? 66 then b ← deref (c_credit r !! 1%nat); mret (b =? 67) else mret false.

#[local] Notation stage := (stage c PAYMENT_TX).
#[local] Notation stage_ := (stage_ c PAYMENT_TX).

(** The customer, by last name or by identifier. *)
Definition prepare_customer (inp : Input) : Tx (ptr TCustomer) :=
  if by_last_name inp then
    act (lift (assert_ (c_id inp =? UNUSED_CUSTOMER)));;
    stage PREPARE_UPDATE_CUSTOMER_BY_LAST_NAME
      (get_customer_by_last_name_and_prepare_for_update (c_w_id inp) (c_d_id inp) (c_last inp))
  else
    act (lift (assert_ (negb (c_id inp =? UNUSED_CUSTOMER))));;
    stage PREPARE_UPDATE_CUSTOMER
      (prepare_record_for_update TCustomer (CustomerKey.create_key (c_w_id inp) (c_d_id inp) (c_id inp))).

(** The end of [run]: from [finish_update(c)] on; [id] is [c->c_id] as it was read. *)
Definition record_payment (inp : Input) (start : Z) (w : ptr TWarehouse) (d : ptr TDistrict) (cu : ptr TCustomer) (id : Z) : Tx Status :=
  stage_ FINISH_UPDATE_CUSTOMER (finish_update TCustomer cu);;
  h ← stage PREPARE_INSERT_HISTORY prepare_history_for_insert;
  wr ← read TWarehouse w; dr ← read TDistrict d;
  now ← act (on_local get_timestamp);
  modify THistory h (λ r, create_history r (w_id inp) (d_id inp) id (c_w_id inp) (c_d_id inp) (h_amount inp)
                            (w_name wr) (d_name dr) now);;
  stage_ FINISH_INSERT_HISTORY (finish_insert THistory h);;
  end_ ← act read_tsc;
  leave (commit PAYMENT_TX PRECOMMIT (u64 (end_ - start))).

Definition body (inp : Input) : Tx Status :=
  start ← act read_tsc;
  out_u 2 (w_id inp);; out_u 1 (d_id inp);;
  w ← stage PREPARE_UPDATE_WAREHOUSE (prepare_record_for_update TWarehouse (WarehouseKey.create_key (w_id inp)));
  modify TWarehouse w (λ r, mret (set_w_ytd (λ x, d_add x (h_amount inp)) r));;
  stage_ FINISH_UPDATE_WAREHOUSE (finish_update TWarehouse w);;
  d ← stage PREPARE_UPDATE_DISTRICT (prepare_record_for_update TDistrict (DistrictKey.create_key (w_id inp) (d_id inp)));
  modify TDistrict d (λ r, mret (set_d_ytd (λ x, d_add x (h_amount inp)) r));;
  stage_ FINISH_UPDATE_DISTRICT (finish_update TDistrict d);;
  cu ← prepare_customer inp;
  cr ← read TCustomer cu; wr ← read TWarehouse w; dr ← read TDistrict d;
  let id := TpccRecords.c_id cr in
  out_u 4 id;; out_u 1 (c_d_id inp);; out_u 2 (c_w_id inp);; out_d (h_amount inp);; out_u 8 (h_date inp);;
  out_address (w_address wr);; out_address (d_address dr);;
  out_s (c_first cr);; out_s (c_middle cr);; out_s (TpccRecords.c_last cr);; out_address (c_address cr);;
  out_s (c_phone cr);; out_u 8 (c_since cr);; out_s (c_credit cr);; out_d (c_credit_lim cr);;
  out_d (c_discount cr);; out_d (c_balance cr);;
  modify TCustomer cu (λ r, mret (pay (h_amount inp) r));;
  cr ← read TCustomer cu;
  bad ← act (lift (bad_credit cr));
  (if bad : bool then
     out_s (c_data cr);;
     modify TCustomer cu (λ r, modify_customer_data r (w_id inp) (d_id inp) (c_w_id inp) (c_d_id inp) (h_amount inp))
   else mret tt);;
  record_payment inp start w d cu id.
Definition run (inp : Input) : M World Status := run_tx (body inp).
End Payment.
End PaymentTx.

(** ** [orderstatus_tx.hpp] *)
Module OrderStatusTx.
(** [c_last] has [Customer::MAX_DATA + 1] bytes here. *)
Record Input := mkInput { w_id : Z; d_id : Z; c_id : Z; by_last_name : bool; c_last : list Z }.

Definition GET_CUSTOMER_BY_LAST_NAME := 0%nat.
Definition GET_CUSTOMER := 1%nat.
Definition GET_ORDER_BY_CUSTOMER_ID := 2%nat.
Definition RANGE_GET_ORDERLINE := 3%nat.
Definition PRECOMMIT := 4%nat.

Section OrderStatus.
Context `{BuildConfig} `{FloatOps} `{!Machine} `{!Transaction}.
Context (c : Config.t).

Definition generate (w_id0 : Z) : M Local Input :=
  d ← urand 1 DISTS_PER_WARE;
  r ← urand 1 100;
  if r <=? 60 then
    n ← nurand_int 255 false 0 999;
    last ← lift (make_clast (garbage 501) n);
    mret (mkInput w_id0 (u8 d) UNUSED_CUSTOMER true last.1)
  else
    id ← nurand_int 1023 false 1 3000;
    mret (mkInput w_id0 (u8 d) (u32 id) false (garbage 501)).

#[local] Notation stage := (stage c ORDERSTATUS_TX).

(** The callback: its captured state is [out]. *)
Definition visit (ol : OrderLine) (out : Z) : outcome Z :=
  let out := Output.merge (le_bytes 2 (ol_supply_w_id ol)) out in
  let out := Output.merge (le_bytes 4 (ol_i_id ol)) out in
  let out := Output.merge (le_bytes 1 (ol_quantity ol)) out in
  let out := Output.merge (d_bytes (ol_amount ol)) out in
  mret (Output.merge (le_bytes 8 (ol_delivery_d ol)) out).
(** A call that hands [out] to the engine. *)
Definition with_out {A} (m : Z -> M engine (A * Z)) : M World A := fun w =>
  match m (out w) (eng w) with
  | Ok ((a, o), e) => Ok (a, mkWorld e (local w) (stat w) o (ticks w))
  | Err x => Err x
  end.

(** The customer, by last name or by identifier. *)
Definition find_customer (inp : Input) : Tx (ptr TCustomer) :=
  if by_last_name inp then
    act (lift (assert_ (c_id inp =? UNUSED_CUSTOMER)));;
    stage GET_CUSTOMER_BY_LAST_NAME (get_customer_by_last_name (w_id inp) (d_id inp) (c_last inp))
  else
    act (lift (assert_ (negb (c_id inp =? UNUSED_CUSTOMER))));;
    stage GET_CUSTOMER (get_record TCustomer (CustomerKey.create_key (w_id inp) (d_id inp) (c_id inp))).

Definition body (inp : Input) : Tx Status :=
  start ← act read_tsc;
  out_u 2 (w_id inp);; out_u 1 (d_id inp);; out_u 4 (c_id inp);;
  cu ← find_customer inp;
  cr ← read TCustomer cu;
  out_s (c_first cr);; out_s (c_middle cr);; out_s (TpccRecords.c_last cr);; out_d (c_balance cr);;
  o ← stage GET_ORDER_BY_CUSTOMER_ID (get_order_by_customer_id (w_id inp) (d_id inp) (TpccRecords.c_id cr));
  orr ← read TOrder o;
  out_u 4 (o_id orr);; out_u 8 (o_entry_d orr);; out_u 1 (o_carrier_id orr);;
  let low := OrderLineKey.create_key (o_w_id orr) (o_d_id orr) (o_id orr) 1 in
  let up := OrderLineKey.create_key (o_w_id orr) (o_d_id orr) (u32 (o_id orr + 1)) 1 in
  res ← act (with_out (range_query Z low up visit));
  require c ORDERSTATUS_TX RANGE_GET_ORDERLINE res;;
  end_ ← act read_tsc;
  leave (commit ORDERSTATUS_TX PRECOMMIT (u64 (end_ - start))).
Definition run (inp : Input) : M World Status := run_tx (body inp).
End OrderStatus.
End OrderStatusTx.

(** ** [delivery_tx.hpp] *)
Module DeliveryTx.
Record Input := mkInput { w_id : Z; o_carrier_id : Z; ol_delivery_d : Z }.

Definition GET_NEWORDER_WITH_SMALLEST_KEY := 0%nat.
Definition DELETE_NEWORDER := 1%nat.
Definition FINISH_DELETE_NEWORDER := 2%nat.
Definition PREPARE_UPDATE_ORDER := 3%nat.
Definition FINISH_UPDATE_ORDER := 4%nat.
Definition RANGE_UPDATE_ORDERLINE := 5%nat.
Definition PREPARE_UPDATE_CUSTOMER := 6%nat.
Definition FINISH_UPDATE_CUSTOMER := 7%nat.
Definition PRECOMMIT := 8%nat.

Section Delivery.
Context `{BuildConfig} `{FloatOps} `{!Machine} `{!Transaction}.
Context (c : Config.t).

Definition generate (w_id0 : Z) : M Local Input :=
  carrier ← urand 1 10; date ← get_timestamp; mret (mkInput w_id0 (u8 carrier) date).

Definition set_carrier (carrier : Z) (o : Order) : Order :=
  mkOrder (o_w_id o) (o_d_id o) (o_id o) (o_c_id o) carrier (o_ol_cnt o) (o_all_local o) (o_entry_d o).
Definition deliver (now : Z) (ol : OrderLine) : OrderLine :=
  mkOrderLine (ol_w_id ol) (ol_d_id ol) (ol_o_id ol) (ol_number ol) (ol_i_id ol) (ol_supply_w_id ol) now
    (ol_quantity ol) (ol_amount ol) (ol_dist_info ol).
Definition credit (total : double) (r : Customer) : Customer :=
  mkCustomer (c_w_id r) (c_d_id r) (c_id r) (c_payment_cnt r) (u16 (c_delivery_cnt r + 1)) (c_since r) (c_credit_lim r)
    (c_discount r) (d_add (c_balance r) total) (c_ytd_payment r) (c_first r) (c_middle r) (c_last r) (c_phone r)
    (c_credit r) (c_data r) (c_address r).

(** The callback: it captures [total_ol_amount] and calls [get_timestamp]. *)
Definition visit (ol : OrderLine) (s : double * Local) : outcome (OrderLine * (double * Local)) :=
  '(now, l) ← get_timestamp s.2;
  let ol := deliver now ol in
  mret (ol, (d_add s.1 (ol_amount ol), l)).
(** A call that hands the thread-local variables to the engine. *)
Definition with_local {A B} (m : Local -> M engine (A * (B * Local))) : M World (A * B) := fun w =>
  match m (local w) (eng w) with
  | Ok ((a, (b, l)), e) => Ok ((a, b), mkWorld e l (stat w) (out w) (ticks w))
  | Err x => Err x
  end.

#[local] Notation stage := (stage c DELIVERY_TX).
#[local] Notation stage_ := (stage_ c DELIVERY_TX).

(** The body of the loop over the districts. *)
Definition district (inp : Input) (d_id : Z) : Tx unit :=
  '(res, no) ← act (on_engine (get_neworder_with_smallest_key_no_less_than (NewOrderKey.create_key (w_id inp) d_id 1)));
  match res with
  | Result.FAIL => mret tt
  | _ =>
  require c DELIVERY_TX GET_NEWORDER_WITH_SMALLEST_KEY res;;
  nor ← read TNewOrder no;
  no ← stage DELETE_NEWORDER (prepare_record_for_delete TNewOrder (NewOrderKey.of_neworder nor));
  stage_ FINISH_DELETE_NEWORDER (finish_delete TNewOrder no);;
  nor ← read TNewOrder no;
  o ← stage PREPARE_UPDATE_ORDER (prepare_record_for_update TOrder (OrderKey.create_key (w_id inp) d_id (no_o_id nor)));
  modify TOrder o (λ r, mret (set_carrier (o_carrier_id inp) r));;
  stage_ FINISH_UPDATE_ORDER (finish_update TOrder o);;
  orr ← read TOrder o;
  let low := OrderLineKey.create_key (o_w_id orr) (o_d_id orr) (o_id orr) 1 in
  let up := OrderLineKey.create_key (o_w_id orr) (o_d_id orr) (u32 (o_id orr + 1)) 1 in
  '(res, total) ← act (with_local (λ l, range_update (double * Local) low up visit (d_of_Z 0, l)));
  require c DELIVERY_TX RANGE_UPDATE_ORDERLINE res;;
  orr ← read TOrder o;
  cu ← stage PREPARE_UPDATE_CUSTOMER (prepare_record_for_update TCustomer (CustomerKey.create_key (w_id inp) d_id (o_c_id orr)));
  modify TCustomer cu (λ r, mret (credit total r));;
  stage_ FINISH_UPDATE_CUSTOMER (finish_update TCustomer cu);;
  orr ← read TOrder o;
  out_u 1 d_id;; out_u 4 (o_id orr)
  end.

Definition body (inp : Input) : Tx Status :=
  start ← act read_tsc;
  out_u 2 (w_id inp);; out_u 1 (o_carrier_id inp);;
  each (seqZ 1 DISTS_PER_WARE) (district inp);;
  end_ ← act read_tsc;
  leave (commit DELIVERY_TX PRECOMMIT (u64 (end_ - start))).
Definition run (inp : Input) : M World Status := run_tx (body inp).
End Delivery.
End DeliveryTx.

(** ** [stocklevel_tx.hpp] *)
Module StockLevelTx.
Record Input := mkInput { w_id : Z; d_id : Z; threshold : Z }.

Definition GET_DISTRICT := 0%nat.
Definition RANGE_GET_ORDERLINE := 1%nat.
Definition GET_STOCK := 2%nat.
Definition PRECOMMIT := 3%nat.

(** [std::set<uint32_t>]: its elements, in order. *)
Fixpoint set_insert (x : Z) (l : list Z) : list Z :=
  match l with
  | [] => [x]
  | y :: l' => if x <? y then x :: l else if x =? y then l else y :: set_insert x l'
  end.

Section StockLevel.
Context `{BuildConfig} `{FloatOps} `{!Machine} `{!Transaction}.
Context (c : Config.t).

Definition generate (w_id0 : Z) : M Local Input :=
  d ← urand 1 DISTS_PER_WARE; t ← urand 10 20; mret (mkInput w_id0 (u8 d) (u8 t)).

(** The callback: it captures [s_i_ids]. *)
Definition visit (ol : OrderLine) (s_i_ids : list Z) : outcome (list Z) :=
  mret (if ol_i_id ol =? UNUSED_ITEM then s_i_ids else set_insert (ol_i_id ol) s_i_ids).

#[local] Notation stage := (stage c STOCKLEVEL_TX).

(** The loop from an iterator: what it leaves of the elements from there on. *)
Fixpoint check_stocks (inp : Input) (ids : list Z) : Tx (list Z) :=
  match ids with
  | [] => mret []
  | i :: ids =>
      s ← stage GET_STOCK (get_record TStock (StockKey.create_key (w_id inp) i));
      sr ← read TStock s;
      rest ← check_stocks inp ids;
      mret (if threshold inp <=? s_quantity sr then rest else i :: rest)
  end.

(** What is left of [s_i_ids] after the scan and the loop; [next] is [d->d_next_o_id]. *)
Definition low_items (inp : Input) (next : Z) : Tx (list Z) :=
  let low := OrderLineKey.create_key (w_id inp) (d_id inp) (u32 (next - 20)) 1 in
  let up := OrderLineKey.create_key (w_id inp) (d_id inp) next 1 in
  '(res, s_i_ids) ← act (on_engine (range_query (list Z) low up visit []));
  require c STOCKLEVEL_TX RANGE_GET_ORDERLINE res;;
  check_stocks inp s_i_ids.

Definition body (inp : Input) : Tx Status :=
  start ← act read_tsc;
  out_u 2 (w_id inp);; out_u 1 (d_id inp);; out_u 1 (threshold inp);;
  d ← stage GET_DISTRICT (get_record TDistrict (DistrictKey.create_key (w_id inp) (d_id inp)));
  dr ← read TDistrict d;
  s_i_ids ← low_items inp (d_next_o_id dr);
  out_u 8 (Z.of_nat (length s_i_ids));;
  end_ ← act read_tsc;
  leave (commit STOCKLEVEL_TX PRECOMMIT (u64 (end_ - start))).
Definition run (inp : Input) : M World Status := run_tx (body inp).
End StockLevel.
End StockLevelTx.

(** ** [tx_runner.hpp] *)
Section Runner.
Context `{BuildConfig} `{FloatOps} `{!Machine} `{!Transaction}.
Context (c : Config.t) (spins : nat).

(** [TxProfile p(w_id); return p.run(tx, stat, out);] *)
Definition run_profile (id : TxProfileID) (w_id : Z) : M World Status :=
  match id with
  | NEWORDER_TX => inp ← on_local (NewOrderTx.generate c spins w_id); NewOrderTx.run c inp
  | PAYMENT_TX => inp ← on_local (PaymentTx.generate c spins w_id); PaymentTx.run c inp
  | ORDERSTATUS_TX => inp ← on_local (OrderStatusTx.generate w_id); OrderStatusTx.run c inp
  | DELIVERY_TX => inp ← on_local (DeliveryTx.generate w_id); DeliveryTx.run c inp
  | STOCKLEVEL_TX => inp ← on_local (StockLevelTx.generate w_id); StockLevelTx.run c inp
  end.
Definition run (id : TxProfileID) : M World Status :=
  w_id ← (if Config.fixed_ware c then
            w ← getM;
            lift (if Config.num_warehouses c =? 0 then Err UndefinedBehaviour
                  else Ok (thread_id (eng w) mod Config.num_warehouses c + 1))
          else on_local (urand 1 (Config.num_warehouses c)));
  run_profile id (u16 w_id).
(** [attempts] bounds the iterations of [for (;;)]; in a release build a [BUG] is retried. *)
Fixpoint run_with_retry (attempts : nat) (id : TxProfileID) : M World bool :=
  match attempts with
  | O => failM OutOfFuel
  | S attempts =>
      res ← run id;
      match res with
      | SUCCESS => mret true
      | USER_ABORT => on_engine abort_;; mret false
      | SYSTEM_ABORT => run_with_retry attempts id
      | BUG => lift (assert_ false);; run_with_retry attempts id
      end
  end.
End Runner.
