(* ===== verification/TpccStat.v ===== *)
(** * TpccStat: every run of a TPC-C profile is counted once

    What [Stat] records of a run, whatever the engine does: the profile's own
    counters move by exactly the status the run returns, and the other
    profiles' not at all. *)
From S2P Require Import Prelude Random TpccRecords TpccKeys TpccTx TpccProfiles.

(** A counter that moves when [b] holds. *)
Definition tick (b : bool) (n : Z) : Z := if b then u64 (n + 1) else n.
Definition is_status (s s' : Status) : bool :=
  match s, s' with SUCCESS, SUCCESS | USER_ABORT, USER_ABORT | SYSTEM_ABORT, SYSTEM_ABORT | BUG, BUG => true | _, _ => false end.

(** What a run of status [s] leaves in the element of its profile. *)
Record recorded (s : Status) (p p' : Stat.PerTxType) : Prop := {
  rec_commits : Stat.num_commits p' = tick (is_status s SUCCESS) (Stat.num_commits p);
  rec_usr_aborts : Stat.num_usr_aborts p' = tick (is_status s USER_ABORT) (Stat.num_usr_aborts p);
  rec_sys_aborts : Stat.num_sys_aborts p' = tick (is_status s SYSTEM_ABORT) (Stat.num_sys_aborts p);
  rec_details : if is_status s SYSTEM_ABORT
    then exists a n, Stat.abort_details p !! a = Some n /\ Stat.abort_details p' = <[a := u64 (n + 1)]> (Stat.abort_details p)
    else Stat.abort_details p' = Stat.abort_details p;
  rec_latency : if is_status s SUCCESS
    then exists time, Stat.total_latency p' = u64 (Stat.total_latency p + time) /\
      Stat.min_latency p' = Z.min (Stat.min_latency p) time /\ Stat.max_latency p' = Z.max (Stat.max_latency p) time
    else Stat.total_latency p' = Stat.total_latency p /\ Stat.min_latency p' = Stat.min_latency p /\
      Stat.max_latency p' = Stat.max_latency p }.
Definition counted (id : TxProfileID) (s : Status) (st st' : Stat.t) : Prop :=
  if is_status s BUG then st' = st
  else exists p p', st !! TxProfileID_value id = Some p /\ st' = <[TxProfileID_value id := p']> st /\ recorded s p p'.

Lemma bind_inv {A B} (o : outcome A) (f : A -> outcome B) b : (o ≫= f) = Ok b -> exists a, o = Ok a /\ f a = Ok b.
Proof. destruct o as [a|]; [by exists a|done]. Qed.
Lemma bindM_inv {S A B} (m : M S A) (f : A -> M S B) s r : (m ≫= f) s = Ok r -> exists a s', m s = Ok (a, s') /\ f a s' = Ok r.
Proof. unfold mbind, M_bind. destruct (m s) as [[a s']|]; [by exists a, s'|done]. Qed.

Section Tallies.
Context `{BuildConfig} `{FloatOps} `{!Machine} `{!Transaction}.
Context (c : Config.t) (spins : nat).

(** An action that leaves the statistics alone. *)
Definition silent {A} (m : M World A) : Prop := forall w a w', m w = Ok (a, w') -> stat w' = stat w.
(** A program that counts the status it leaves with, and nothing before. *)
Definition tallies (id : TxProfileID) {A} (m : Tx A) : Prop := forall w r w', m w = Ok (r, w') ->
  match r with inl s => counted id s (stat w) (stat w') | inr _ => stat w' = stat w end.

Lemma silent_ret {A} (a : A) : silent (mret a).
Proof. by intros w b w' [= <- <-]. Qed.
Lemma silent_bind {A B} (m : M World A) (f : A -> M World B) : silent m -> (forall a, silent (f a)) -> silent (m ≫= f).
Proof. intros Hm Hf w b w' (a & w1 & E1 & E2)%bindM_inv. rewrite (Hf a w1 b w' E2). by eapply Hm. Qed.
Lemma silent_on_engine {A} (m : M engine A) : silent (on_engine m).
Proof. intros w a w' E. unfold on_engine in E. destruct (m (eng w)) as [[? ?]|]; by simplify_eq. Qed.
Lemma silent_on_local {A} (m : M Local A) : silent (on_local m).
Proof. intros w a w' E. unfold on_local in E. destruct (m (local w)) as [[? ?]|]; by simplify_eq. Qed.
Lemma silent_lift {A} (o : outcome A) : silent (lift o).
Proof. intros w a w' E. unfold lift in E. destruct o; by simplify_eq. Qed.
Lemma silent_tsc : silent read_tsc. Proof. by intros w a w' [= <- <-]. Qed.
Lemma silent_emit d : silent (emit d). Proof. by intros w a w' [= <- <-]. Qed.
Lemma silent_not_succeeded res : silent (not_succeeded c res).
Proof.
  apply silent_bind; [|intros r; apply silent_bind; [|intros; apply silent_ret]].
  - destruct (_ && _); [apply silent_bind; [apply silent_on_local|intros; apply silent_ret]|apply silent_ret].
  - destruct r; auto using silent_ret, silent_on_engine.
Qed.
Lemma silent_with_out {A} (m : Z -> M engine (A * Z)) : silent (OrderStatusTx.with_out m).
Proof. intros w a w' E. unfold OrderStatusTx.with_out in E. destruct (m (out w) (eng w)) as [[[??]?]|]; by simplify_eq. Qed.
Lemma silent_with_local {A B} (m : Local -> M engine (A * (B * Local))) : silent (DeliveryTx.with_local m).
Proof. intros w a w' E. unfold DeliveryTx.with_local in E. destruct (m (local w) (eng w)) as [[[?[??]]?]|]; by simplify_eq. Qed.

Lemma tallies_ret id {A} (a : A) : tallies id (mret a).
Proof. by intros w r w' [= <- <-]. Qed.
Lemma tallies_bind id {A B} (m : Tx A) (f : A -> Tx B) : tallies id m -> (forall a, tallies id (f a)) -> tallies id (m ≫= f).
Proof.
  intros Hm Hf w r w'. unfold mbind, Tx_bind. destruct (m w) as [[[s|a] w1]|] eqn:E; [| |done].
  - intros [= <- <-]. exact (Hm _ _ _ E).
  - intros E2. rewrite <- (Hm _ _ _ E). exact (Hf a _ _ _ E2).
Qed.
Lemma tallies_act id {A} (m : M World A) : silent m -> tallies id (act m).
Proof. intros Hm w r w' E. unfold act in E. destruct (m w) as [[a w1]|] eqn:Em; simplify_eq. by eapply Hm. Qed.
Lemma tallies_leave id {A} (m : M World Status) :
  (forall w s w', m w = Ok (s, w') -> counted id s (stat w) (stat w')) -> tallies id (leave (A:=A) m).
Proof. intros Hm w r w' E. unfold leave in E. destruct (m w) as [[s w1]|] eqn:Em; simplify_eq. by eapply Hm. Qed.
Lemma tallies_each id {A} (l : list A) f : (forall x, tallies id (f x)) -> tallies id (each l f).
Proof. intros Hf. induction l; [apply tallies_ret|]. by apply tallies_bind. Qed.

Lemma on_stat_counted id s f w u w' : s ≠ BUG -> (forall p p', f p = Ok p' -> recorded s p p') ->
  on_stat id f w = Ok (u, w') -> counted id s (stat w) (stat w').
Proof.
  intros Hs Hf (p & Ep & (p' & Ef & (st & Est & [= <- <-])%bind_inv)%bind_inv)%bind_inv.
  destruct (stat w !! _) as [q|] eqn:Eq; [|done]. simplify_eq/=. unfold write_at in Est. case_decide; simplify_eq.
  destruct s; (done || (exists p, p'; split_and!; auto)).
Qed.
Lemma count_commit_recorded time p p' : count_commit time p = Ok p' -> recorded SUCCESS p p'.
Proof. intros [= <-]. constructor; try done. by exists time. Qed.
Lemma count_usr_recorded p p' : count_usr_abort p = Ok p' -> recorded USER_ABORT p p'.
Proof. by intros [= <-]. Qed.
Lemma count_sys_recorded a p p' : count_sys_abort a p = Ok p' -> recorded SYSTEM_ABORT p p'.
Proof.
  intros (n & En & (d & Ed & [= <-])%bind_inv)%bind_inv. unfold write_at in Ed. case_decide; simplify_eq.
  constructor; try done. exists a, n. by destruct (_ !! a); simplify_eq/=.
Qed.

Lemma tallies_kill id a {A} res : tallies id (leave (A:=A) (kill id res a)).
Proof.
  apply tallies_leave. intros w s w'. destruct res; cbn [kill]; [done|by intros [= <- <-]|].
  intros (u & w1 & E & [= <- <-])%bindM_inv. eapply on_stat_counted; [done| |exact E]. apply count_sys_recorded.
Qed.
Lemma tallies_usr_abort id {A} : tallies id (leave (A:=A) (usr_abort id)).
Proof.
  apply tallies_leave. intros w s w' (u & w1 & E & [= <- <-])%bindM_inv. eapply on_stat_counted; [done| |exact E].
  apply count_usr_recorded.
Qed.
Lemma tallies_commit id a time {A} : tallies id (leave (A:=A) (commit id a time)).
Proof.
  apply tallies_leave. intros w s w' (b & w0 & E0 & E)%bindM_inv.
  rewrite <- (silent_on_engine _ _ _ _ E0). destruct b; apply bindM_inv in E as (u & w1 & E & [= <- <-]).
  - eapply on_stat_counted; [done| |exact E]. apply count_commit_recorded.
  - eapply on_stat_counted; [done| |exact E]. apply count_sys_recorded.
Qed.
Lemma tallies_require id a res : tallies id (require c id a res).
Proof.
  apply tallies_bind; [apply tallies_act, silent_not_succeeded|]. intros [b r]. destruct b; [apply tallies_kill|apply tallies_ret].
Qed.
End Tallies.

Create HintDb tallies.
#[export] Hint Resolve silent_ret silent_on_engine silent_on_local silent_lift silent_tsc silent_emit silent_with_out silent_with_local
  tallies_ret tallies_kill tallies_usr_abort tallies_commit tallies_require : tallies.
(** Follows the program: one step per statement. *)
Ltac tally := repeat lazymatch goal with
  | |- tallies _ (mbind _ _) => apply tallies_bind; [|intros ?]
  | |- tallies _ (act _) => apply tallies_act; solve [auto with tallies nocore]
  | |- tallies _ (each _ _) => apply tallies_each; intros ?
  | |- tallies _ (match ?x with _ => _ end) => destruct x
  | |- tallies _ (let _ := ?x in _) => cbv zeta
  | |- tallies _ _ => solve [auto with tallies nocore]
  end.

Section Counted.
Context `{BuildConfig} `{FloatOps} `{!Machine} `{!Transaction}.
Context (c : Config.t) (spins : nat).

(** Every profile ends in [leave]. *)
Definition leaves {A} (m : Tx A) : Prop := forall w a w', m w <> Ok (inr a, w').
Lemma leaves_leave {A} m : leaves (leave (A:=A) m).
Proof. intros w a w'. unfold leave. by destruct (m w) as [[]|]. Qed.
Lemma leaves_bind {A B} (m : Tx A) (f : A -> Tx B) : (forall a, leaves (f a)) -> leaves (m ≫= f).
Proof. intros Hf w b w'. unfold mbind, Tx_bind. destruct (m w) as [[[s|a] w1]|]; [done|apply Hf|done]. Qed.
Ltac leaving := repeat lazymatch goal with
  | |- leaves (mbind _ _) => apply leaves_bind; intros ?
  | |- leaves (leave _) => apply leaves_leave
  | |- leaves (match ?x with _ => _ end) => destruct x
  | |- leaves _ => progress cbv zeta
  end.

Lemma run_tx_counted id (m : Tx Status) w s w' : leaves m -> tallies id m ->
  run_tx m w = Ok (s, w') -> counted id s (stat w) (stat w').
Proof.
  intros Hn Hm. unfold run_tx. destruct (m w) as [[[s1|s1] w1]|] eqn:E; [| |done].
  - intros [= <- <-]. exact (Hm _ _ _ E).
  - by apply Hn in E.
Qed.

Lemma tallies_line inp o total n : tallies NEWORDER_TX (NewOrderTx.run_line c inp o total n).
Proof. unfold NewOrderTx.run_line, stage, stage_, out_u, out_d, out_s, read, modify. tally. Qed.
Lemma tallies_lines inp o l total : tallies NEWORDER_TX (NewOrderTx.run_lines c inp o total l).
Proof.
  revert total. induction l as [|n l IH]; intros total; [apply tallies_ret|].
  apply tallies_bind; [apply tallies_line|auto].
Qed.
#[local] Hint Resolve tallies_lines : tallies.
Lemma neworder_counted inp w s w' : NewOrderTx.run c inp w = Ok (s, w') -> counted NEWORDER_TX s (stat w) (stat w').
Proof.
  apply run_tx_counted; [unfold NewOrderTx.body; leaving|].
  unfold NewOrderTx.body, stage, stage_, out_u, out_d, out_s, read, modify.
  tally.
Qed.
Lemma payment_counted inp w s w' : PaymentTx.run c inp w = Ok (s, w') -> counted PAYMENT_TX s (stat w) (stat w').
Proof.
  apply run_tx_counted; [unfold PaymentTx.body, PaymentTx.record_payment; leaving|].
  unfold PaymentTx.body, PaymentTx.prepare_customer, PaymentTx.record_payment, stage, stage_, out_u, out_d, out_address, out_s, read, modify. tally.
Qed.
Lemma orderstatus_counted inp w s w' : OrderStatusTx.run c inp w = Ok (s, w') -> counted ORDERSTATUS_TX s (stat w) (stat w').
Proof.
  apply run_tx_counted; [unfold OrderStatusTx.body; leaving|].
  unfold OrderStatusTx.body, OrderStatusTx.find_customer, stage, stage_, out_u, out_d, out_s, read. tally.
Qed.
Lemma delivery_counted inp w s w' : DeliveryTx.run c inp w = Ok (s, w') -> counted DELIVERY_TX s (stat w) (stat w').
Proof.
  apply run_tx_counted; [unfold DeliveryTx.body; leaving|].
  unfold DeliveryTx.body, DeliveryTx.district, stage, stage_, out_u, out_d, out_s, read, modify. tally.
Qed.
Lemma tallies_check_stocks inp l : tallies STOCKLEVEL_TX (StockLevelTx.check_stocks c inp l).
Proof. induction l; cbn [StockLevelTx.check_stocks]; [apply tallies_ret|]. unfold stage, read. tally. Qed.
#[local] Hint Resolve tallies_check_stocks : tallies.
Lemma stocklevel_counted inp w s w' : StockLevelTx.run c inp w = Ok (s, w') -> counted STOCKLEVEL_TX s (stat w) (stat w').
Proof.
  apply run_tx_counted; [unfold StockLevelTx.body; leaving|].
  unfold StockLevelTx.body, StockLevelTx.low_items, stage, stage_, out_u, out_d, out_s, read.
  tally.
Qed.

Lemma run_profile_counted id wh w s w' : run_profile c spins id wh w = Ok (s, w') -> counted id s (stat w) (stat w').
Proof.
  intros E. destruct id; apply bindM_inv in E as (inp & w1 & E1 & E); apply silent_on_local in E1; rewrite <- E1;
    eauto using neworder_counted, payment_counted, orderstatus_counted, delivery_counted, stocklevel_counted.
Qed.

(** C14. Whatever the engine does, a run that returns a status has counted
    exactly that status, once, in its own profile's statistics: a commit with
    its latency, a user abort, or a system abort with the detail of the stage
    that failed; a [BUG] and the other profiles' statistics leave no trace. *)
Theorem every_run_is_counted id w s w' :
  run c spins id w = Ok (s, w') -> counted id s (stat w) (stat w').
Proof.
  intros (wh & w1 & E1 & E)%bindM_inv. apply run_profile_counted in E.
  assert (stat w1 = stat w) as <-; [|done]. destruct (Config.fixed_ware c); [|by apply silent_on_local in E1].
  apply bindM_inv in E1 as (? & ? & [= <- <-] & E1). by apply silent_lift in E1.
Qed.
End Counted.
