(* ===== verification/TpccContract.v ===== *)
(** * TpccContract: what the profiles rely on of the transaction engine

    [TransactionLaws] is the contract between a profile and the engine it is
    instantiated with, over an abstract database ([DB], one finite map per
    table): [base] is what is committed, [cur] what the running transaction
    sees.  Operations may abort at any time.  The rest of the file executes
    programs of [Tx] symbolically over a state ([at_]) that names the database,
    the transaction's view and, per table, the last pointer the program was
    given with the record it points to. *)
From S2P Require Import Prelude Random TpccRecords TpccKeys TpccTx TpccProfiles.

(** ** One component per table *)
Record Tables (F : Table -> Type) := mkTables { t_item : F TItem; t_warehouse : F TWarehouse; t_stock : F TStock;
  t_district : F TDistrict; t_customer : F TCustomer; t_history : F THistory; t_order : F TOrder;
  t_neworder : F TNewOrder; t_orderline : F TOrderLine }.
Arguments mkTables {F} _ _ _ _ _ _ _ _ _.
Arguments t_item {F} _. Arguments t_warehouse {F} _. Arguments t_stock {F} _. Arguments t_district {F} _.
Arguments t_customer {F} _. Arguments t_history {F} _. Arguments t_order {F} _. Arguments t_neworder {F} _.
Arguments t_orderline {F} _.
Definition tab {F} (d : Tables F) (T : Table) : F T :=
  match T with
  | TItem => t_item d | TWarehouse => t_warehouse d | TStock => t_stock d | TDistrict => t_district d
  | TCustomer => t_customer d | THistory => t_history d | TOrder => t_order d | TNewOrder => t_neworder d
  | TOrderLine => t_orderline d
  end.
Definition set_tab {F : Table -> Type} (T : Table) : F T -> Tables F -> Tables F :=
  match T with
  | TItem => fun x '(mkTables a b c d e f g h i) => mkTables x b c d e f g h i
  | TWarehouse => fun x '(mkTables a b c d e f g h i) => mkTables a x c d e f g h i
  | TStock => fun x '(mkTables a b c d e f g h i) => mkTables a b x d e f g h i
  | TDistrict => fun x '(mkTables a b c d e f g h i) => mkTables a b c x e f g h i
  | TCustomer => fun x '(mkTables a b c d e f g h i) => mkTables a b c d x f g h i
  | THistory => fun x '(mkTables a b c d e f g h i) => mkTables a b c d e x g h i
  | TOrder => fun x '(mkTables a b c d e f g h i) => mkTables a b c d e f x h i
  | TNewOrder => fun x '(mkTables a b c d e f g h i) => mkTables a b c d e f g x i
  | TOrderLine => fun x '(mkTables a b c d e f g h i) => mkTables a b c d e f g h x
  end.
Lemma tab_set {F} T (x : F T) d : tab (set_tab T x d) T = x.
Proof. by destruct T, d. Qed.
Lemma tab_set_ne {F} T T' (x : F T) d : T ≠ T' -> tab (set_tab T x d) T' = tab d T'.
Proof. by destruct T, T', d. Qed.

(** ** Databases *)
Section Database.
Context `{FloatOps}.

Definition DB := Tables (λ T, gmap Z (Row T)).
Definition row (D : DB) (T : Table) (k : Z) : option (Row T) := (tab D T : gmap Z (Row T)) !! k.
Definition upd (T : Table) (k : Z) (r : Row T) (D : DB) : DB := set_tab T (<[k := r]> (tab D T : gmap Z (Row T))) D.
Definition del (T : Table) (k : Z) (D : DB) : DB := set_tab T (delete k (tab D T : gmap Z (Row T))) D.

Lemma row_upd T k r D : row (upd T k r D) T k = Some r.
Proof. unfold row, upd. rewrite tab_set. apply lookup_insert_eq. Qed.
Lemma row_upd_key T k k' r D : k ≠ k' -> row (upd T k r D) T k' = row D T k'.
Proof. intros. unfold row, upd. rewrite tab_set. by apply lookup_insert_ne. Qed.
Lemma row_upd_tab T T' k k' r D : T ≠ T' -> row (upd T k r D) T' k' = row D T' k'.
Proof. intros. unfold row, upd. by rewrite tab_set_ne. Qed.
Lemma row_upd_case T T' k k' r D : row (upd T k r D) T' k' =
  match decide (T = T') with
  | left E => match decide (k = k') with left _ => Some (eq_rect T Row r T' E) | right _ => row D T' k' end
  | right _ => row D T' k'
  end.
Proof.
  destruct (decide (T = T')) as [<-|]; [|by apply row_upd_tab]. simpl.
  case_decide; [subst; apply row_upd|by apply row_upd_key].
Qed.
Lemma row_del T k D : row (del T k D) T k = None.
Proof. unfold row, del. rewrite tab_set. apply lookup_delete_eq. Qed.
Lemma row_del_key T k k' D : k ≠ k' -> row (del T k D) T k' = row D T k'.
Proof. intros. unfold row, del. rewrite tab_set. by apply lookup_delete_ne. Qed.
Lemma row_del_tab T T' k k' D : T ≠ T' -> row (del T k D) T' k' = row D T' k'.
Proof. intros. unfold row, del. by rewrite tab_set_ne. Qed.

Lemma tab_upd_ne T T' k r D : T ≠ T' -> tab (upd T k r D) T' = tab D T'.
Proof. intros. unfold upd. by rewrite tab_set_ne. Qed.
Lemma tab_del_ne T T' k D : T ≠ T' -> tab (del T k D) T' = tab D T'.
Proof. intros. unfold del. by rewrite tab_set_ne. Qed.

(** The rows of a key range, in ascending order of the keys. *)
Definition ranged {A} (low up : Z) (m : gmap Z A) (kvs : list (Z * A)) : Prop :=
  StronglySorted Z.lt kvs.*1 /\ forall k a, (k, a) ∈ kvs <-> m !! k = Some a /\ low <= k < up.
(** A callback over the rows it is given, and one that may change them. *)
Fixpoint visits {A S} (f : A -> S -> outcome S) (l : list A) (s : S) : outcome S :=
  match l with [] => mret s | a :: l => s ← f a s; visits f l s end.
Fixpoint rewrites {A S} (f : A -> S -> outcome (A * S)) (l : list (Z * A)) (s : S) : outcome (list (Z * A) * S) :=
  match l with
  | [] => mret ([], s)
  | (k, a) :: l => '(a, s) ← f a s; '(l, s) ← rewrites f l s; mret ((k, a) :: l, s)
  end.
Definition upds (T : Table) (kvs : list (Z * Row T)) (D : DB) : DB := foldr (λ kv, upd T kv.1 kv.2) D kvs.

Lemma row_upds_tab T T' kvs k D : T ≠ T' -> row (upds T kvs D) T' k = row D T' k.
Proof. intros. induction kvs as [|[] kvs IH]; [done|]. simpl. by rewrite row_upd_tab. Qed.

(** The declared sizes of the character arrays of a record that is to be filled in. *)
Definition row_shape (T : Table) : Row T -> Prop :=
  match T with
  | THistory => λ h, length (h_data h) = 25%nat
  | TOrderLine => λ ol, length (ol_dist_info ol) = 25%nat
  | _ => λ _, True
  end.

(** The customers of a district with a last name; the orders of a customer;
    the new orders from a key on, whichever district they belong to. *)
Definition named (w d : Z) (last : list Z) (D : DB) (k : Z) (r : Customer) : Prop :=
  row D TCustomer k = Some r /\ c_w_id r = w /\ c_d_id r = d /\ same_str (c_last r) last.
Definition ordered_by (w d cid : Z) (D : DB) (k : Z) (r : Order) : Prop :=
  row D TOrder k = Some r /\ o_w_id r = w /\ o_d_id r = d /\ o_c_id r = cid.
Definition no_less_than (low : Z) (D : DB) (k : Z) (r : NewOrder) : Prop := row D TNewOrder k = Some r /\ low <= k.
End Database.
Arguments upd : simpl never.
Arguments del : simpl never.
Arguments row : simpl never.

Inductive Access := UPDATE | INSERT | DELETE.

(** ** The laws *)
Section Laws.
Context `{FloatOps} `{!Transaction}.

(** What an operation on [T] leaves alone: what is committed, and the pointers into the other tables. *)
Definition keeps_others (base : engine -> DB) (handle : forall T, ptr T -> engine -> option (Access * Z))
    (T : Table) (e e' : engine) : Prop :=
  base e' = base e /\ forall T' p, T' ≠ T ->
    (forall r, load T' p e = Some r -> load T' p e' = Some r) /\ handle T' p e' = handle T' p e.
(** An operation that succeeds with [ok], or fails and [fail] is true, or
    aborts; what is committed stays. *)
Definition answers (base : engine -> DB) {A} (m : M engine (Result.t * A)) (e : engine)
    (ok : A -> engine -> Prop) (fail : Prop) : Prop :=
  wp m (λ '(res, a) e', base e' = base e /\
    match res with Result.SUCCESS => ok a e' | Result.FAIL => fail | Result.ABORT => True end) e.
Definition unit_result (m : M engine Result.t) : M engine (Result.t * unit) := r ← m; mret (r, tt).

Class TransactionLaws := {
  base : engine -> DB;
  cur : engine -> DB;
  (** what a pointer was prepared for, and the key *)
  handle : forall T, ptr T -> engine -> option (Access * Z);
  store_law T p r r' e : load T p e = Some r ->
    load T p (store T p r' e) = Some r' /\ handle T p (store T p r' e) = handle T p e /\
    cur (store T p r' e) = cur e /\ keeps_others base handle T e (store T p r' e);
  get_record_law T k e : answers base (get_record T k) e
    (λ p e', keeps_others base handle T e e' /\ cur e' = cur e /\ exists r, row (cur e) T k = Some r /\ load T p e' = Some r)
    (row (cur e) T k = None);
  prepare_update_law T k e : answers base (prepare_record_for_update T k) e
    (λ p e', keeps_others base handle T e e' /\ cur e' = cur e /\ handle T p e' = Some (UPDATE, k) /\
       exists r, row (cur e) T k = Some r /\ load T p e' = Some r)
    (row (cur e) T k = None);
  finish_update_law T p k r e : handle T p e = Some (UPDATE, k) -> load T p e = Some r ->
    answers base (unit_result (finish_update T p)) e
      (λ _ e', keeps_others base handle T e e' /\ load T p e' = Some r /\ cur e' = upd T k r (cur e)) False;
  prepare_insert_law T k e : answers base (prepare_record_for_insert T k) e
    (λ p e', keeps_others base handle T e e' /\ cur e' = cur e /\ handle T p e' = Some (INSERT, k) /\
       row (cur e) T k = None /\ exists r, load T p e' = Some r /\ row_shape T r)
    (is_Some (row (cur e) T k));
  prepare_history_law e : answers base prepare_history_for_insert e
    (λ p e', keeps_others base handle THistory e e' /\ cur e' = cur e /\
       exists k r, handle THistory p e' = Some (INSERT, k) /\ row (cur e) THistory k = None /\
         load THistory p e' = Some r /\ row_shape THistory r) False;
  finish_insert_law T p k r e : handle T p e = Some (INSERT, k) -> load T p e = Some r ->
    answers base (unit_result (finish_insert T p)) e
      (λ _ e', keeps_others base handle T e e' /\ load T p e' = Some r /\ cur e' = upd T k r (cur e)) False;
  prepare_delete_law T k e : answers base (prepare_record_for_delete T k) e
    (λ p e', keeps_others base handle T e e' /\ cur e' = cur e /\ handle T p e' = Some (DELETE, k) /\
       exists r, row (cur e) T k = Some r /\ load T p e' = Some r)
    (row (cur e) T k = None);
  (** the record can still be read *)
  finish_delete_law T p k r e : handle T p e = Some (DELETE, k) -> load T p e = Some r ->
    answers base (unit_result (finish_delete T p)) e
      (λ _ e', keeps_others base handle T e e' /\ load T p e' = Some r /\ cur e' = del T k (cur e)) False;
  by_last_name_law w d last e : answers base (get_customer_by_last_name w d last) e
    (λ p e', keeps_others base handle TCustomer e e' /\ cur e' = cur e /\
       exists k r, named w d last (cur e) k r /\ load TCustomer p e' = Some r)
    (forall k r, ~ named w d last (cur e) k r);
  by_last_name_for_update_law w d last e : answers base (get_customer_by_last_name_and_prepare_for_update w d last) e
    (λ p e', keeps_others base handle TCustomer e e' /\ cur e' = cur e /\
       exists k r, named w d last (cur e) k r /\ load TCustomer p e' = Some r /\ handle TCustomer p e' = Some (UPDATE, k))
    (forall k r, ~ named w d last (cur e) k r);
  by_customer_law w d cid e : answers base (get_order_by_customer_id w d cid) e
    (λ p e', keeps_others base handle TOrder e e' /\ cur e' = cur e /\
       exists k r, ordered_by w d cid (cur e) k r /\ load TOrder p e' = Some r /\
         forall k' r', ordered_by w d cid (cur e) k' r' -> o_id r' <= o_id r)
    (forall k r, ~ ordered_by w d cid (cur e) k r);
  (** the only operation whose [FAIL] does not end the transaction *)
  smallest_neworder_law low e : wp (get_neworder_with_smallest_key_no_less_than low) (λ '(res, p) e', base e' = base e /\
    match res with
    | Result.SUCCESS => keeps_others base handle TNewOrder e e' /\ cur e' = cur e /\
        exists k r, no_less_than low (cur e) k r /\ load TNewOrder p e' = Some r /\
          forall k' r', no_less_than low (cur e) k' r' -> k <= k'
    | Result.FAIL => keeps_others base handle TNewOrder e e' /\ cur e' = cur e /\ forall k r, ~ no_less_than low (cur e) k r
    | Result.ABORT => True
    end) e;
  range_query_law {S} low up (f : OrderLine -> S -> outcome S) s kvs s' e :
    ranged low up (tab (cur e) TOrderLine : gmap Z OrderLine) kvs -> visits f kvs.*2 s = Ok s' ->
    wp (range_query S low up f s) (λ '(res, s1) e', base e' = base e /\
      match res with
      | Result.SUCCESS => keeps_others base handle TOrderLine e e' /\ cur e' = cur e /\ s1 = s'
      | Result.FAIL => kvs = []
      | Result.ABORT => exists n, visits f (take n kvs.*2) s = Ok s1
      end) e;
  range_update_law {S} low up (f : OrderLine -> S -> outcome (OrderLine * S)) s kvs kvs' s' e :
    ranged low up (tab (cur e) TOrderLine : gmap Z OrderLine) kvs -> rewrites f kvs s = Ok (kvs', s') ->
    wp (range_update S low up f s) (λ '(res, s1) e', base e' = base e /\
      match res with
      | Result.SUCCESS => keeps_others base handle TOrderLine e e' /\ cur e' = upds TOrderLine kvs' (cur e) /\ s1 = s'
      | Result.FAIL => kvs = []
      | Result.ABORT => exists n l, rewrites f (take n kvs) s = Ok (l, s1)
      end) e;
  commit_law e : wp commit_ (λ b e', base e' = (if b : bool then cur e else base e) /\ cur e' = base e') e;
  abort_law e : wp abort_ (λ _ e', base e' = base e /\ cur e' = base e) e }.
End Laws.

(** ** Symbolic execution *)
Section Symbolic.
Import Xoshiro256PlusPlus XoshiroFacts.
Context `{BuildConfig} `{FloatOps} `{!Machine} `{!Transaction} `{!TransactionLaws}.
Context (c_ : Config.t).

(** The last pointer per table, the record it points to and what it was prepared for. *)
Definition Slots := Tables (λ T, option (ptr T * Row T * option (Access * Z))).
Definition no_slots : Slots := mkTables None None None None None None None None None.
Definition held (L : Slots) (e : engine) : Prop := forall T p r h, tab L T = Some (p, r, h) ->
  load T p e = Some r /\ (h = None \/ handle T p e = h).
Definition stat_ok (st : Stat.t) : Prop :=
  length st = MAX_TX /\ Forall (λ p, length (Stat.abort_details p) = Stat.ABORT_DETAILS_SIZE) st.
(** The thread's own data: a generator that works, fewer than [t] timestamps taken, the statistics' arrays. *)
Definition good (t : Z) (w : World) : Prop := wf (rand (local w)) /\ timestamp (local w) <= t /\ stat_ok (stat w).
Record at_ (D C : DB) (L : Slots) (t : Z) (w : World) : Prop := {
  at_base : base (eng w) = D; at_cur : cur (eng w) = C; at_held : held L (eng w); at_good : good t w }.
(** How a run on the committed database [D] may end. *)
Definition ends (D : DB) (eff : DB -> Prop) (t : Z) (s : Status) (w : World) : Prop :=
  good t w /\ match s with
  | SUCCESS => eff (base (eng w)) /\ cur (eng w) = base (eng w)
  | USER_ABORT => base (eng w) = D
  | SYSTEM_ABORT => base (eng w) = D /\ cur (eng w) = D
  | BUG => False
  end.
(** [m] returns with [Q], or leaves with [X]. *)
Definition wpx {A} (m : Tx A) (Q : A -> World -> Prop) (X : Status -> World -> Prop) (w : World) : Prop :=
  wp m (λ r w', match r with inl s => X s w' | inr a => Q a w' end) w.

Lemma good_mono t t' w : good t w -> t <= t' -> good t' w.
Proof. intros (? & ? & ?) ?. split_and!; [done|lia|done]. Qed.
Lemma ends_mono D eff eff' t t' s w : ends D eff t s w -> t <= t' -> (forall C, eff C -> eff' C) -> ends D eff' t' s w.
Proof. intros [Hg Hs] Ht He. split; [by eapply good_mono|]. destruct s; [destruct Hs; auto|done..]. Qed.
Lemma wpx_mono {A} (m : Tx A) Q Q' X X' w :
  wpx m Q X w -> (forall a w', Q a w' -> Q' a w') -> (forall s w', X s w' -> X' s w') -> wpx m Q' X' w.
Proof. intros Hm HQ HX. eapply wp_mono; [exact Hm|]. intros [s|a]; auto. Qed.
Lemma wpx_ret {A} (a : A) Q X w : Q a w -> wpx (mret a) Q X w.
Proof. done. Qed.
Lemma wpx_bind {A B} (m : Tx A) (f : A -> Tx B) Q X w : wpx m (λ a, wpx (f a) Q X) X w -> wpx (m ≫= f) Q X w.
Proof. unfold wpx, wp, mbind, Tx_bind. by destruct (m w) as [[[]]|]. Qed.
Lemma wpx_act {A} (m : M World A) Q X w : wp m Q w -> wpx (act m) Q X w.
Proof. unfold wpx, wp, act. by destruct (m w) as [[]|]. Qed.
Lemma wpx_leave {A} (m : M World Status) (Q : A -> World -> Prop) X w : wp m X w -> wpx (leave m) Q X w.
Proof. unfold wpx, wp, leave. by destruct (m w) as [[]|]. Qed.
Lemma wp_run_tx (m : Tx Status) X w : wpx m (λ _ _, False) X w -> wp (run_tx m) X w.
Proof. unfold wpx, wp, run_tx. by destruct (m w) as [[[]]|]. Qed.
Lemma wpx_lift {A} (o : outcome A) Q X w : wpo o (λ a, Q a w) -> wpx (act (lift o)) Q X w.
Proof. intros Ho. by apply wpx_act, wp_lift. Qed.
Lemma wp_on_engine {A} (m : M engine A) Q w :
  wp m (λ a e, Q a (mkWorld e (local w) (stat w) (out w) (ticks w))) (eng w) -> wp (on_engine m) Q w.
Proof. unfold wp, on_engine. by destruct (m (eng w)) as [[]|]. Qed.
Lemma wp_on_local {A} (m : M Local A) Q w :
  wp m (λ a l, Q a (mkWorld (eng w) l (stat w) (out w) (ticks w))) (local w) -> wp (on_local m) Q w.
Proof. unfold wp, on_local. by destruct (m (local w)) as [[]|]. Qed.

(** *** Actions outside the engine *)
Lemma at_tick D C L t w n o : at_ D C L t w -> at_ D C L t (mkWorld (eng w) (local w) (stat w) o n).
Proof. intros []. by constructor. Qed.
Lemma wpx_emit d D C L t w (Q : unit -> World -> Prop) X : at_ D C L t w -> (forall w', at_ D C L t w' -> Q tt w') -> wpx (act (emit d)) Q X w.
Proof. intros Hw HQ. apply wpx_act. apply HQ. by apply at_tick. Qed.
Lemma wpx_tsc D C L t w (Q : Z -> World -> Prop) X : at_ D C L t w -> (forall x w', at_ D C L t w' -> Q x w') -> wpx (act read_tsc) Q X w.
Proof. intros Hw HQ. apply wpx_act. apply HQ. by apply at_tick. Qed.
Lemma at_local D C L t t' w l : at_ D C L t w -> wf (rand l) -> timestamp l <= t' -> 
  at_ D C L t' (mkWorld (eng w) l (stat w) (out w) (ticks w)).
Proof. intros [? ? ? (? & ? & ?)] ? ?. by constructor. Qed.
Lemma wpx_timestamp D C L t w (Q : Z -> World -> Prop) X : at_ D C L t w -> t < 2 ^ 63 - 1 ->
  (forall x w', at_ D C L (t + 1) w' -> Q x w') -> wpx (act (on_local get_timestamp)) Q X w.
Proof.
  intros Hw Ht HQ. apply wpx_act, wp_on_local. destruct (at_good _ _ _ _ _ Hw) as (? & ? & ?).
  unfold wp, get_timestamp. destruct (Z.eqb_spec (timestamp (local w)) (2 ^ 63 - 1)); [lia|].
  apply HQ. apply (at_local _ _ _ t); [done..|simpl; lia].
Qed.

(** *** Statistics *)
Lemma TxProfileID_bound id : (TxProfileID_value id < MAX_TX)%nat.
Proof. destruct id; vm_compute; lia. Qed.
Lemma wp_on_stat id f Q w : stat_ok (stat w) ->
  (forall p, length (Stat.abort_details p) = Stat.ABORT_DETAILS_SIZE ->
     wpo (f p) (λ p', length (Stat.abort_details p') = Stat.ABORT_DETAILS_SIZE)) ->
  (forall st, stat_ok st -> Q tt (mkWorld (eng w) (local w) st (out w) (ticks w))) -> wp (on_stat id f) Q w.
Proof.
  intros [Hl Hf] Hp HQ. unfold wp, on_stat. pose proof (TxProfileID_bound id) as Hb. rewrite <- Hl in Hb.
  destruct (lookup_lt_is_Some_2 _ _ Hb) as [p Ep]. match goal with |- context [deref ?o] => replace o with (Some p) by (symmetry; exact Ep) end. cbn [deref mbind outcome_bind].
  pose proof (Forall_lookup_1 _ _ _ _ Hf Ep) as Hlen. destruct (wpo_elim _ _ (Hp p Hlen)) as (p' & -> & Hp').
  cbn [mbind outcome_bind]. unfold write_at. rewrite decide_True by done. cbn. apply HQ. split; [by rewrite length_insert|].
  by apply Forall_insert.
Qed.
Lemma count_sys_ok a p : (a < Stat.ABORT_DETAILS_SIZE)%nat -> length (Stat.abort_details p) = Stat.ABORT_DETAILS_SIZE ->
  wpo (count_sys_abort a p) (λ p', length (Stat.abort_details p') = Stat.ABORT_DETAILS_SIZE).
Proof.
  intros Ha Hl. unfold count_sys_abort. rewrite <- Hl in Ha. destruct (lookup_lt_is_Some_2 _ _ Ha) as [n ->].
  unfold write_at. cbn [deref mbind outcome_bind]. rewrite decide_True by done. cbn. by rewrite length_insert.
Qed.

(** *** The end of a stage *)
Lemma wp_abort D t w : base (eng w) = D -> good t w ->
  wp (on_engine abort_) (λ _ w', base (eng w') = D /\ cur (eng w') = D /\ good t w') w.
Proof.
  intros <- Hg. apply wp_on_engine. eapply wp_mono; [apply abort_law|]. intros _ e [E1 E2]. split_and!; [done|simpl; congruence|exact Hg].
Qed.
Lemma wp_kill id a D eff t T w : (a < Stat.ABORT_DETAILS_SIZE)%nat -> base (eng w) = D -> cur (eng w) = D -> good t w -> t <= T ->
  wp (kill id Result.ABORT a) (ends D eff T) w.
Proof.
  intros Ha Hb Hc Hg Ht. cbn. apply wp_bind, wp_on_stat; [apply Hg|intros; by apply count_sys_ok|].
  intros st Hst. destruct Hg as (? & ? & ?). split; [|done]. split_and!; simpl; (done || lia).
Qed.
Lemma wpx_aborted {A} c id a t D eff T w (Q : A -> World -> Prop) (k : unit -> Tx A) :
  (a < Stat.ABORT_DETAILS_SIZE)%nat -> base (eng w) = D -> good t w -> t <= T ->
  wpx (require c id a Result.ABORT ≫= k) Q (ends D eff T) w.
Proof.
  intros Ha Hb Hg Ht. unfold require. do 2 apply wpx_bind. apply wpx_act. unfold not_succeeded. rewrite andb_false_r.
  apply wp_bind, wp_ret, wp_bind. eapply wp_mono; [by apply (wp_abort D t)|]. intros _ w1 (? & ? & ?).
  apply wp_ret. cbn -[kill]. apply wpx_leave. by apply (wp_kill _ _ _ _ t).
Qed.
Lemma wp_urand_World lo hi Q w : wf (rand (local w)) -> 0 <= lo <= hi -> hi < 2 ^ 64 -> hi - lo < 2 ^ 64 - 1 ->
  (forall v l, lo <= v <= hi -> wf (rand l) -> timestamp l = timestamp (local w) ->
     Q v (mkWorld (eng w) l (stat w) (out w) (ticks w))) ->
  wp (on_local (urand lo hi)) Q w.
Proof. intros. apply wp_on_local. by apply RecordFacts.wp_urand. Qed.
Lemma wpx_require c id a D C L t w eff T (Q : unit -> World -> Prop) : at_ D C L t w -> (a < Stat.ABORT_DETAILS_SIZE)%nat -> t <= T ->
  (forall w', at_ D C L t w' -> Q tt w') -> wpx (require c id a Result.SUCCESS) Q (ends D eff T) w.
Proof.
  intros Hw Ha Ht HQ. destruct (at_good _ _ _ _ _ Hw) as (Hwf & Hts & Hst).
  unfold require. apply wpx_bind, wpx_act. unfold not_succeeded. rewrite andb_true_r. destruct (Config.does_random_abort c).
  2:{ apply wp_bind, wp_ret, wp_bind, wp_ret, wp_ret. by apply HQ. }
  apply wp_bind, wp_bind. apply wp_urand_World; [done|lia..|]. intros v l _ Hg Hl. apply wp_ret.
  set (w1 := mkWorld _ _ _ _ _). assert (at_ D C L t w1) as Hw1 by (apply (at_local _ _ _ t); [done..|lia]). destruct (v =? 1).
  - apply wp_bind. eapply wp_mono; [apply (wp_abort D t); apply Hw1|]. intros _ w2 (? & ? & ?).
    apply wp_ret. cbn -[kill]. apply wpx_leave. by apply (wp_kill _ _ _ _ t).
  - apply wp_bind, wp_ret, wp_ret. by apply HQ.
Qed.

(** *** Stages: an operation and the test of its result *)
Lemma held_set (L : Slots) T p r h e e' : held L e -> keeps_others base handle T e e' ->
  load T p e' = Some r -> (h = None \/ handle T p e' = h) -> held (set_tab T (Some (p, r, h)) L) e'.
Proof.
  intros HL [_ Hk] Hl Hh T' p' r' h' E. destruct (decide (T = T')) as [<-|Hne].
  - rewrite tab_set in E. by simplify_eq.
  - rewrite tab_set_ne in E by done. destruct (HL _ _ _ _ E) as [E1 E2]. destruct (Hk T' p' (not_eq_sym Hne)) as [K1 K2].
    split; [by apply K1|]. destruct E2 as [|E2]; [by left|right]. congruence.
Qed.
Lemma at_engine D C C' L L' t w e : at_ D C L t w -> base e = base (eng w) -> cur e = C' -> held L' e ->
  at_ D C' L' t (mkWorld e (local w) (stat w) (out w) (ticks w)).
Proof. intros [] ? ? ?. constructor; simpl; congruence || done. Qed.

(** The common shape: on success [ok] leads on, failure is excluded. *)
Lemma wpx_stage {A} c id a (op : M engine (Result.t * A)) D C L t w ok fail eff T (Q : A -> World -> Prop) :
  at_ D C L t w -> (a < Stat.ABORT_DETAILS_SIZE)%nat -> t <= T -> answers base op (eng w) ok fail -> ~ fail ->
  (forall x e, ok x e -> base e = base (eng w) -> exists C' L', cur e = C' /\ held L' e /\ forall w', at_ D C' L' t w' -> Q x w') ->
  wpx (stage c id a op) Q (ends D eff T) w.
Proof.
  intros Hw Ha Ht Hop Hf HQ. unfold stage. apply wpx_bind, wpx_act, wp_on_engine. eapply wp_mono; [exact Hop|].
  intros [res x] e [Hb Hres]. destruct res; [|done|].
  - destruct (HQ x e Hres Hb) as (C' & L' & HC & HL & HQ'). apply wpx_bind.
    eapply wpx_require; [by eapply at_engine|done|done|]. intros w' Hw'. apply wpx_ret. by apply HQ'.
  - apply (wpx_aborted _ _ _ t); [done|simpl; rewrite Hb; apply Hw|apply Hw|done].
Qed.
Lemma wpx_stage_ c id a (op : M engine Result.t) D C L t w ok eff T (Q : unit -> World -> Prop) :
  at_ D C L t w -> (a < Stat.ABORT_DETAILS_SIZE)%nat -> t <= T -> answers base (unit_result op) (eng w) ok False ->
  (forall x e, ok x e -> base e = base (eng w) -> exists C' L', cur e = C' /\ held L' e /\ forall w', at_ D C' L' t w' -> Q tt w') ->
  wpx (stage_ c id a op) Q (ends D eff T) w.
Proof.
  intros Hw Ha Ht Hop HQ.
  pose proof (wpx_stage c id a (unit_result op) D C L t w ok False eff T Q Hw Ha Ht Hop ltac:(tauto)) as Hs.
  specialize (Hs ltac:(intros [] e ? ?; by apply (HQ tt))).
  revert Hs. unfold wpx, wp, stage, stage_, unit_result, mbind, Tx_bind, M_bind, act, on_engine.
  destruct (op (eng w)) as [[res e]|]; [|done]. cbn -[require]. by destruct (require c id a res _) as [[[|[]]]|].
Qed.

(** One rule per operation: what it returns, on the state it is called in. *)
Lemma wpx_get T k r id a D C L t w eff U (Q : ptr T -> World -> Prop) :
  at_ D C L t w -> (a < Stat.ABORT_DETAILS_SIZE)%nat -> t <= U -> row C T k = Some r ->
  (forall p w', at_ D C (set_tab T (Some (p, r, None)) L) t w' -> Q p w') ->
  wpx (stage c_ id a (get_record T k)) Q (ends D eff U) w.
Proof.
  intros Hw Ha Ht Hr HQ. eapply wpx_stage; [exact Hw|done|done|apply get_record_law|rewrite (at_cur _ _ _ _ _ Hw); congruence|].
  intros p e (Hk & HC & r' & Hr' & Hl) _. rewrite (at_cur _ _ _ _ _ Hw) in HC, Hr'. assert (r' = r) as -> by congruence.
  eexists C, _. split; [done|]. split; [|apply HQ]. eapply held_set; [apply Hw|done|done|by left].
Qed.
Lemma wpx_prepare_update T k r id a D C L t w eff U (Q : ptr T -> World -> Prop) :
  at_ D C L t w -> (a < Stat.ABORT_DETAILS_SIZE)%nat -> t <= U -> row C T k = Some r ->
  (forall p w', at_ D C (set_tab T (Some (p, r, Some (UPDATE, k))) L) t w' -> Q p w') ->
  wpx (stage c_ id a (prepare_record_for_update T k)) Q (ends D eff U) w.
Proof.
  intros Hw Ha Ht Hr HQ. eapply wpx_stage; [exact Hw|done|done|apply prepare_update_law|rewrite (at_cur _ _ _ _ _ Hw); congruence|].
  intros p e (Hk & HC & Hh & r' & Hr' & Hl) _. rewrite (at_cur _ _ _ _ _ Hw) in HC, Hr'. assert (r' = r) as -> by congruence.
  eexists C, _. split; [done|]. split; [|apply HQ]. eapply held_set; [apply Hw|done|done|by right].
Qed.
Lemma wpx_prepare_delete T k r id a D C L t w eff U (Q : ptr T -> World -> Prop) :
  at_ D C L t w -> (a < Stat.ABORT_DETAILS_SIZE)%nat -> t <= U -> row C T k = Some r ->
  (forall p w', at_ D C (set_tab T (Some (p, r, Some (DELETE, k))) L) t w' -> Q p w') ->
  wpx (stage c_ id a (prepare_record_for_delete T k)) Q (ends D eff U) w.
Proof.
  intros Hw Ha Ht Hr HQ. eapply wpx_stage; [exact Hw|done|done|apply prepare_delete_law|rewrite (at_cur _ _ _ _ _ Hw); congruence|].
  intros p e (Hk & HC & Hh & r' & Hr' & Hl) _. rewrite (at_cur _ _ _ _ _ Hw) in HC, Hr'. assert (r' = r) as -> by congruence.
  eexists C, _. split; [done|]. split; [|apply HQ]. eapply held_set; [apply Hw|done|done|by right].
Qed.
Lemma wpx_prepare_insert T k id a D C L t w eff U (Q : ptr T -> World -> Prop) :
  at_ D C L t w -> (a < Stat.ABORT_DETAILS_SIZE)%nat -> t <= U -> row C T k = None ->
  (forall p r w', row_shape T r -> at_ D C (set_tab T (Some (p, r, Some (INSERT, k))) L) t w' -> Q p w') ->
  wpx (stage c_ id a (prepare_record_for_insert T k)) Q (ends D eff U) w.
Proof.
  intros Hw Ha Ht Hr HQ. eapply wpx_stage; [exact Hw|done|done|apply prepare_insert_law|rewrite (at_cur _ _ _ _ _ Hw), Hr; by intros []|].
  intros p e (Hk & HC & Hh & _ & r & Hl & Hs) _. rewrite (at_cur _ _ _ _ _ Hw) in HC.
  eexists C, _. split; [done|]. split; [|intros w'; by apply HQ]. eapply held_set; [apply Hw|done|done|by right].
Qed.
Lemma wpx_prepare_history id a D C L t w eff U (Q : ptr THistory -> World -> Prop) :
  at_ D C L t w -> (a < Stat.ABORT_DETAILS_SIZE)%nat -> t <= U ->
  (forall p k r w', row C THistory k = None -> row_shape THistory r ->
     at_ D C (set_tab THistory (Some (p, r, Some (INSERT, k))) L) t w' -> Q p w') ->
  wpx (stage c_ id a prepare_history_for_insert) Q (ends D eff U) w.
Proof.
  intros Hw Ha Ht HQ. eapply wpx_stage; [exact Hw|done|done|apply prepare_history_law|tauto|].
  intros p e (Hk & HC & k & r & Hh & Hr & Hl & Hs) _. rewrite (at_cur _ _ _ _ _ Hw) in HC, Hr.
  eexists C, _. split; [done|]. split; [|intros w'; by eapply HQ]. eapply held_set; [apply Hw|done|exact Hl|by right].
Qed.
Lemma wpx_by_last_name_update wh d last k0 r0 id a D C L t w eff U (Q : ptr TCustomer -> World -> Prop) :
  at_ D C L t w -> (a < Stat.ABORT_DETAILS_SIZE)%nat -> t <= U -> named wh d last C k0 r0 ->
  (forall p k r w', named wh d last C k r -> at_ D C (set_tab TCustomer (Some (p, r, Some (UPDATE, k))) L) t w' -> Q p w') ->
  wpx (stage c_ id a (get_customer_by_last_name_and_prepare_for_update wh d last)) Q (ends D eff U) w.
Proof.
  intros Hw Ha Ht Hr HQ. eapply wpx_stage; [exact Hw|done|done|apply by_last_name_for_update_law|rewrite (at_cur _ _ _ _ _ Hw); intros Hf; by eapply Hf|].
  intros p e (Hk & HC & k & r & Hn & Hl & Hh) _. rewrite (at_cur _ _ _ _ _ Hw) in HC, Hn.
  eexists C, _. split; [done|]. split; [|intros w'; by eapply HQ]. eapply held_set; [apply Hw|done|exact Hl|by right].
Qed.
Lemma wpx_by_last_name wh d last k0 r0 id a D C L t w eff U (Q : ptr TCustomer -> World -> Prop) :
  at_ D C L t w -> (a < Stat.ABORT_DETAILS_SIZE)%nat -> t <= U -> named wh d last C k0 r0 ->
  (forall p k r w', named wh d last C k r -> at_ D C (set_tab TCustomer (Some (p, r, None)) L) t w' -> Q p w') ->
  wpx (stage c_ id a (get_customer_by_last_name wh d last)) Q (ends D eff U) w.
Proof.
  intros Hw Ha Ht Hr HQ. eapply wpx_stage; [exact Hw|done|done|apply by_last_name_law|rewrite (at_cur _ _ _ _ _ Hw); intros Hf; by eapply Hf|].
  intros p e (Hk & HC & k & r & Hn & Hl) _. rewrite (at_cur _ _ _ _ _ Hw) in HC, Hn.
  eexists C, _. split; [done|]. split; [|intros w'; by eapply HQ]. eapply held_set; [apply Hw|done|exact Hl|by left].
Qed.
Lemma wpx_by_customer wh d cid k0 r0 id a D C L t w eff U (Q : ptr TOrder -> World -> Prop) :
  at_ D C L t w -> (a < Stat.ABORT_DETAILS_SIZE)%nat -> t <= U -> ordered_by wh d cid C k0 r0 ->
  (forall p k r w', ordered_by wh d cid C k r -> (forall k' r', ordered_by wh d cid C k' r' -> o_id r' <= o_id r) ->
     at_ D C (set_tab TOrder (Some (p, r, None)) L) t w' -> Q p w') ->
  wpx (stage c_ id a (get_order_by_customer_id wh d cid)) Q (ends D eff U) w.
Proof.
  intros Hw Ha Ht Hr HQ. eapply wpx_stage; [exact Hw|done|done|apply by_customer_law|rewrite (at_cur _ _ _ _ _ Hw); intros Hf; by eapply Hf|].
  intros p e (Hk & HC & k & r & Hn & Hl & Hmax) _. rewrite (at_cur _ _ _ _ _ Hw) in HC, Hn, Hmax.
  eexists C, _. split; [done|]. split; [|intros w'; by eapply HQ]. eapply held_set; [apply Hw|done|exact Hl|by left].
Qed.
Lemma wpx_finish T acc (op : M engine Result.t) (C' : DB) p k r id a D C L t w eff U (Q : unit -> World -> Prop) :
  at_ D C L t w -> (a < Stat.ABORT_DETAILS_SIZE)%nat -> t <= U -> tab L T = Some (p, r, Some (acc, k)) ->
  (handle T p (eng w) = Some (acc, k) -> load T p (eng w) = Some r -> answers base (unit_result op) (eng w)
     (λ _ e', keeps_others base handle T (eng w) e' /\ load T p e' = Some r /\ cur e' = C') False) ->
  (forall w', at_ D C' (set_tab T (Some (p, r, None)) L) t w' -> Q tt w') ->
  wpx (stage_ c_ id a op) Q (ends D eff U) w.
Proof.
  intros Hw Ha Ht Hs Hop HQ. destruct (at_held _ _ _ _ _ Hw _ _ _ _ Hs) as [Hl Hh].
  assert (handle T p (eng w) = Some (acc, k)) as Hh' by (by destruct Hh).
  eapply wpx_stage_; [exact Hw|done|done|by apply Hop|].
  intros [] e (Hk & Hl' & HC) _. exists C', (set_tab T (Some (p, r, None)) L). split; [done|]. split; [|exact HQ].
  eapply held_set; [apply Hw|done|done|by left].
Qed.
Lemma wpx_finish_update T p k r id a D C L t w eff U (Q : unit -> World -> Prop) :
  at_ D C L t w -> (a < Stat.ABORT_DETAILS_SIZE)%nat -> t <= U -> tab L T = Some (p, r, Some (UPDATE, k)) ->
  (forall w', at_ D (upd T k r C) (set_tab T (Some (p, r, None)) L) t w' -> Q tt w') ->
  wpx (stage_ c_ id a (finish_update T p)) Q (ends D eff U) w.
Proof.
  intros Hw Ha Ht Hs HQ. eapply (wpx_finish T UPDATE); [exact Hw|done|done|exact Hs| |exact HQ].
  intros Hh Hl. rewrite <- (at_cur _ _ _ _ _ Hw). by apply finish_update_law.
Qed.
Lemma wpx_finish_insert T p k r id a D C L t w eff U (Q : unit -> World -> Prop) :
  at_ D C L t w -> (a < Stat.ABORT_DETAILS_SIZE)%nat -> t <= U -> tab L T = Some (p, r, Some (INSERT, k)) ->
  (forall w', at_ D (upd T k r C) (set_tab T (Some (p, r, None)) L) t w' -> Q tt w') ->
  wpx (stage_ c_ id a (finish_insert T p)) Q (ends D eff U) w.
Proof.
  intros Hw Ha Ht Hs HQ. eapply (wpx_finish T INSERT); [exact Hw|done|done|exact Hs| |exact HQ].
  intros Hh Hl. rewrite <- (at_cur _ _ _ _ _ Hw). by apply finish_insert_law.
Qed.
Lemma wpx_finish_delete T p k r id a D C L t w eff U (Q : unit -> World -> Prop) :
  at_ D C L t w -> (a < Stat.ABORT_DETAILS_SIZE)%nat -> t <= U -> tab L T = Some (p, r, Some (DELETE, k)) ->
  (forall w', at_ D (del T k C) (set_tab T (Some (p, r, None)) L) t w' -> Q tt w') ->
  wpx (stage_ c_ id a (finish_delete T p)) Q (ends D eff U) w.
Proof.
  intros Hw Ha Ht Hs HQ. eapply (wpx_finish T DELETE); [exact Hw|done|done|exact Hs| |exact HQ].
  intros Hh Hl. rewrite <- (at_cur _ _ _ _ _ Hw). by apply finish_delete_law.
Qed.
Lemma wpx_read T p r h D C L t w (Q : Row T -> World -> Prop) X :
  at_ D C L t w -> tab L T = Some (p, r, h) -> Q r w -> wpx (read T p) Q X w.
Proof.
  intros Hw Hs HQ. destruct (at_held _ _ _ _ _ Hw _ _ _ _ Hs) as [Hl _]. apply wpx_act, wp_on_engine. unfold wp.
  rewrite Hl. cbn. by destruct w.
Qed.
Lemma wpx_modify T p f r r' h D C L t w (Q : unit -> World -> Prop) X :
  at_ D C L t w -> tab L T = Some (p, r, h) -> f r = Ok r' ->
  (forall w', at_ D C (set_tab T (Some (p, r', h)) L) t w' -> Q tt w') -> wpx (modify T p f) Q X w.
Proof.
  intros Hw Hs Hf HQ. destruct (at_held _ _ _ _ _ Hw _ _ _ _ Hs) as [Hl Hh]. apply wpx_act, wp_on_engine. unfold wp.
  rewrite Hl. cbn. rewrite Hf. cbn. destruct (store_law T p r r' (eng w) Hl) as (Hl' & Hh' & HC & Hk).
  apply HQ. eapply at_engine; [exact Hw|apply Hk|by rewrite HC, (at_cur _ _ _ _ _ Hw)|].
  eapply held_set; [apply Hw|done|done|]. destruct Hh; [by left|right; congruence].
Qed.
Lemma wpx_commit {A} id a time D C L t w (eff : DB -> Prop) U (Q : A -> World -> Prop) :
  at_ D C L t w -> (a < Stat.ABORT_DETAILS_SIZE)%nat -> t <= U -> eff C ->
  wpx (leave (commit id a time)) Q (ends D eff U) w.
Proof.
  intros Hw Ha Ht He. apply wpx_leave. unfold commit. apply wp_bind, wp_on_engine.
  eapply wp_mono; [apply commit_law|]. intros b e [Hb Hc]. destruct (at_good _ _ _ _ _ Hw) as (Hr & Hts & Hst).
  destruct b; apply wp_bind; apply wp_on_stat; [done|by intros| |done|intros; by apply count_sys_ok|]; intros st Hs;
    (split; [split_and!; simpl; (done || lia)|]); simpl; rewrite Hc, Hb, ?(at_cur _ _ _ _ _ Hw), ?(at_base _ _ _ _ _ Hw); done.
Qed.
Lemma wpx_usr_abort {A} id D C L t w eff U (Q : A -> World -> Prop) : at_ D C L t w -> t <= U ->
  wpx (leave (usr_abort id)) Q (ends D eff U) w.
Proof.
  intros Hw Ht. apply wpx_leave. unfold usr_abort. destruct (at_good _ _ _ _ _ Hw) as (Hr & Hts & Hst).
  apply wp_bind, wp_on_stat; [done|by intros|]. intros st Hs. split; [split_and!; simpl; (done || lia)|]. apply Hw.
Qed.
End Symbolic.

(** The slot of a table, through the updates of the others. *)
Ltac slot := repeat (rewrite tab_set_ne by discriminate); first [rewrite tab_set; reflexivity | eassumption].
Ltac settle HL := repeat rewrite tab_set_ne in HL by discriminate; rewrite tab_set in HL.
(** One statement of a program; the lookups in the database and the records are left as goals. *)
Ltac sx := lazymatch goal with
  | |- wpx (mbind _ _) _ _ _ => apply wpx_bind
  | |- wpx (mret _) _ _ _ => apply wpx_ret
  | |- wpx (out_u _ _) _ _ _ => eapply wpx_emit; [eassumption|intros ? ?]
  | |- wpx (out_d _) _ _ _ => eapply wpx_emit; [eassumption|intros ? ?]
  | |- wpx (out_s _) _ _ _ => eapply wpx_emit; [eassumption|intros ? ?]
  | |- wpx (out_address _) _ _ _ => eapply wpx_emit; [eassumption|intros ? ?]
  | |- wpx (act read_tsc) _ _ _ => eapply wpx_tsc; [eassumption|intros ? ? ?]
  | |- wpx (act (on_local get_timestamp)) _ _ _ => eapply wpx_timestamp; [eassumption|try lia|intros ? ? ?]
  | |- wpx (read ?T ?p) _ _ _ => eapply (wpx_read T p); [eassumption|slot|]
  | |- wpx (modify ?T ?p ?f) _ _ _ => eapply (wpx_modify T p f); [eassumption|slot|try reflexivity|intros ? ?]
  | |- wpx (stage _ _ _ (get_record ?T ?k)) _ _ _ => eapply (wpx_get _ T k); [eassumption|vm_compute; lia|try lia|try eassumption|intros ? ? ?]
  | |- wpx (stage _ _ _ (prepare_record_for_update ?T ?k)) _ _ _ =>
      eapply (wpx_prepare_update _ T k); [eassumption|vm_compute; lia|try lia|try eassumption|intros ? ? ?]
  | |- wpx (stage _ _ _ (prepare_record_for_delete ?T ?k)) _ _ _ =>
      eapply (wpx_prepare_delete _ T k); [eassumption|vm_compute; lia|try lia|try eassumption|intros ? ? ?]
  | |- wpx (stage _ _ _ (prepare_record_for_insert ?T ?k)) _ _ _ =>
      eapply (wpx_prepare_insert _ T k); [eassumption|vm_compute; lia|try lia|try eassumption|intros ? ? ? ? ?]
  | |- wpx (stage _ _ _ prepare_history_for_insert) _ _ _ =>
      eapply wpx_prepare_history; [eassumption|vm_compute; lia|try lia|intros ? ? ? ? ? ? ?]
  | |- wpx (stage_ _ _ _ (finish_update ?T ?p)) _ _ _ => eapply (wpx_finish_update _ T p); [eassumption|vm_compute; lia|try lia|slot|intros ? ?]
  | |- wpx (stage_ _ _ _ (finish_insert ?T ?p)) _ _ _ => eapply (wpx_finish_insert _ T p); [eassumption|vm_compute; lia|try lia|slot|intros ? ?]
  | |- wpx (stage_ _ _ _ (finish_delete ?T ?p)) _ _ _ => eapply (wpx_finish_delete _ T p); [eassumption|vm_compute; lia|try lia|slot|intros ? ?]
  | |- wpx (leave (commit _ _ _)) _ _ _ => eapply wpx_commit; [eassumption|vm_compute; lia|try lia|]
  | |- wpx (leave (usr_abort _)) _ _ _ => eapply wpx_usr_abort; [eassumption|try lia]
  end; cbv beta.
