(* ===== verification/TpccConsistency.v ===== *)
(** * TpccConsistency: the consistency of a TPC-C database

    What the profiles assume of the database and preserve: the rows that must
    exist, the consistency conditions between a district, its orders, its new
    orders and its order lines ([test/naive/consistency_test.cpp] checks part
    of them after loading), and the ranges of the fields the profiles use. *)
From S2P Require Import Prelude Random TpccRecords TpccKeys TpccTx TpccProfiles TpccContract.

(** ** Keys as numbers *)
Definition in_wd (w d : Z) : Prop := 0 <= w < 2 ^ 16 /\ 0 <= d < 2 ^ 8.
Definition w_key := WarehouseKey.create_key.
Definition d_key := DistrictKey.create_key.
Definition s_key := StockKey.create_key.
Definition c_key := CustomerKey.create_key.
Definition o_key := OrderKey.create_key.
Definition no_key := NewOrderKey.create_key.
Definition ol_key := OrderLineKey.create_key.

Ltac key_value k := let E := fresh in
  assert (get_raw_key k = pack (parts k)) as E by
    (apply raw_key_packs; unfold fits, in_wd in *; simpl; rewrite !Forall_cons, Forall_nil; simpl; intuition lia);
  etransitivity; [exact E|]; unfold pack; simpl; lia.
Lemma d_key_value w d : in_wd w d -> d_key w d = w * 2 ^ 8 + d.
Proof. intros. key_value (KDistrict w d). Qed.
Lemma s_key_value w i : 0 <= w < 2 ^ 16 -> 0 <= i < 2 ^ 32 -> s_key w i = w * 2 ^ 32 + i.
Proof. intros. key_value (KStock w i). Qed.
Lemma c_key_value w d i : in_wd w d -> 0 <= i < 2 ^ 32 -> c_key w d i = (w * 2 ^ 8 + d) * 2 ^ 32 + i.
Proof. intros. key_value (KCustomer w d i). Qed.
Lemma o_key_value w d o : in_wd w d -> 0 <= o < 2 ^ 32 -> o_key w d o = (w * 2 ^ 8 + d) * 2 ^ 32 + o.
Proof. intros. key_value (KOrder w d o). Qed.
Lemma no_key_value w d o : in_wd w d -> 0 <= o < 2 ^ 32 -> no_key w d o = (w * 2 ^ 8 + d) * 2 ^ 32 + o.
Proof. intros. key_value (KNewOrder w d o). Qed.
Lemma ol_key_value w d o l : in_wd w d -> 0 <= o < 2 ^ 32 -> 0 <= l < 2 ^ 8 ->
  ol_key w d o l = ((w * 2 ^ 8 + d) * 2 ^ 32 + o) * 2 ^ 8 + l.
Proof. intros. key_value (KOrderLine w d o l). Qed.

Ltac keys := unfold in_wd in *; rewrite ?d_key_value, ?s_key_value, ?c_key_value, ?o_key_value, ?no_key_value, ?ol_key_value in *
  by (unfold in_wd in *; lia); try lia.
Lemma d_key_inj w d w' d' : in_wd w d -> in_wd w' d' -> d_key w d = d_key w' d' -> w = w' /\ d = d'.
Proof. intros. keys. Qed.
Lemma s_key_inj w i w' i' : 0 <= w < 2 ^ 16 -> 0 <= i < 2 ^ 32 -> 0 <= w' < 2 ^ 16 -> 0 <= i' < 2 ^ 32 -> s_key w i = s_key w' i' -> w = w' /\ i = i'.
Proof. intros. keys. Qed.
Lemma c_key_inj w d o w' d' o' : in_wd w d -> 0 <= o < 2 ^ 32 -> in_wd w' d' -> 0 <= o' < 2 ^ 32 ->
  c_key w d o = c_key w' d' o' -> w = w' /\ d = d' /\ o = o'.
Proof. intros. keys. Qed.
Lemma o_key_inj w d o w' d' o' : in_wd w d -> 0 <= o < 2 ^ 32 -> in_wd w' d' -> 0 <= o' < 2 ^ 32 ->
  o_key w d o = o_key w' d' o' -> w = w' /\ d = d' /\ o = o'.
Proof. intros. keys. Qed.
Lemma no_key_inj w d o w' d' o' : in_wd w d -> 0 <= o < 2 ^ 32 -> in_wd w' d' -> 0 <= o' < 2 ^ 32 ->
  no_key w d o = no_key w' d' o' -> w = w' /\ d = d' /\ o = o'.
Proof. intros. keys. Qed.
Lemma ol_key_inj w d o l w' d' o' l' : in_wd w d -> 0 <= o < 2 ^ 32 -> 0 <= l < 2 ^ 8 -> in_wd w' d' -> 0 <= o' < 2 ^ 32 -> 0 <= l' < 2 ^ 8 ->
  ol_key w d o l = ol_key w' d' o' l' -> w = w' /\ d = d' /\ o = o' /\ l = l'.
Proof. intros. keys. Qed.

(** A key in a range of order lines of one district is the key of an order line. *)
Lemma ol_key_decode w d o o' k : in_wd w d -> 0 <= o <= o' -> o' < 2 ^ 32 -> ol_key w d o 1 <= k < ol_key w d o' 1 ->
  exists q l, k = ol_key w d q l /\ 0 <= l < 2 ^ 8 /\ (o = q /\ 1 <= l \/ o < q < o' \/ q = o' /\ l = 0).
Proof.
  intros Hw Ho Ho' Hk. rewrite !ol_key_value in Hk by (unfold in_wd in *; lia).
  pose proof (Z.div_mod k (2 ^ 8) ltac:(lia)). pose proof (Z.mod_pos_bound k (2 ^ 8) ltac:(lia)).
  exists (k / 2 ^ 8 - (w * 2 ^ 8 + d) * 2 ^ 32), (k mod 2 ^ 8). 
  rewrite ol_key_value by (unfold in_wd in *; lia). unfold in_wd in *. lia.
Qed.
(** A key of the prefix of a district is the key of a new order. *)
Lemma no_key_decode w d k : in_wd w d -> no_key w d 1 <= k -> Z.shiftr k 32 = Z.shiftr (no_key w d 1) 32 ->
  exists o, k = no_key w d o /\ 1 <= o < 2 ^ 32.
Proof.
  intros Hw Hk Hs. rewrite !Z.shiftr_div_pow2, no_key_value in * by (unfold in_wd in *; lia).
  exists (k - (w * 2 ^ 8 + d) * 2 ^ 32). pose proof (Z.div_mod k (2 ^ 32) ltac:(lia)).
  pose proof (Z.mod_pos_bound k (2 ^ 32) ltac:(lia)).
  assert (((w * 2 ^ 8 + d) * 2 ^ 32 + 1) / 2 ^ 32 = w * 2 ^ 8 + d) as E by (symmetry; apply (Z.div_unique _ _ _ 1); lia).
  rewrite E in Hs. rewrite no_key_value by (unfold in_wd in *; lia). unfold in_wd in *. lia.
Qed.
Lemma no_key_prefix w d o : in_wd w d -> 0 <= o < 2 ^ 32 -> Z.shiftr (no_key w d o) 32 = Z.shiftr (no_key w d 1) 32.
Proof.
  intros Hw Ho. rewrite !Z.shiftr_div_pow2, !no_key_value by (unfold in_wd in *; lia).
  transitivity (w * 2 ^ 8 + d); [symmetry; apply (Z.div_unique _ _ _ o); lia|apply (Z.div_unique _ _ _ 1); lia].
Qed.

(** ** Consistency *)
Section Consistency.
Import RecordFacts.
Context `{FloatOps}.

Definition stock_fine (s : Stock) : Prop :=
  length (s_dist s) = 10%nat /\ Forall (holds 25 24 24) (s_dist s) /\ holds 51 26 50 (s_data s) /\ 10 <= s_quantity s <= 101.
Definition customer_fine (r : Customer) : Prop := length (c_credit r) = 3%nat /\ holds 501 0 500 (c_data r).

Definition valid_item (ol : OrderLine) : Prop := 1 <= ol_i_id ol <= 100000.

(** District [d] of warehouse [w], whose orders are numbered from 1 to
    [d_next_o_id dr] (excluded) and delivered up to [lo] (excluded). *)
Record district_at (D : DB) (w d : Z) (dr : District) (lo : Z) : Prop := {
  da_row : row D TDistrict (d_key w d) = Some dr;
  da_name : (10 <= length (d_name dr))%nat;
  da_next : 1 <= lo <= d_next_o_id dr /\ 21 <= d_next_o_id dr < 2 ^ 32;
  (** the orders are exactly those below [d_next_o_id]; a carrier is assigned on delivery *)
  da_order o : 0 <= o < 2 ^ 32 -> match row D TOrder (o_key w d o) with
    | Some r => 1 <= o < d_next_o_id dr /\ o_w_id r = w /\ o_d_id r = d /\ o_id r = o /\ 1 <= o_c_id r <= 3000 /\
        5 <= o_ol_cnt r <= 15 /\ (o_carrier_id r = 0 <-> lo <= o)
    | None => ~ 1 <= o < d_next_o_id dr
    end;
  (** the new orders are the undelivered ones *)
  da_neworder o : 0 <= o < 2 ^ 32 ->
    row D TNewOrder (no_key w d o) = if decide (lo <= o < d_next_o_id dr) then Some (mkNewOrder w d o) else None;
  (** an order has exactly its [o_ol_cnt] lines, of items that exist *)
  da_line o l : 0 <= o < 2 ^ 32 -> 0 <= l < 2 ^ 8 -> match row D TOrderLine (ol_key w d o l) with
    | Some ol => valid_item ol /\ exists r, row D TOrder (o_key w d o) = Some r /\ 1 <= l <= o_ol_cnt r
    | None => forall r, row D TOrder (o_key w d o) = Some r -> ~ 1 <= l <= o_ol_cnt r
    end;
  da_customer c : 1 <= c <= 3000 -> exists r, row D TCustomer (c_key w d c) = Some r /\ c_w_id r = w /\ c_d_id r = d /\ c_id r = c;
  (** every customer has ordered *)
  da_ordered k r : row D TCustomer k = Some r -> c_w_id r = w -> c_d_id r = d ->
    k = c_key w d (c_id r) /\ 1 <= c_id r <= 3000 /\
    exists o ro, 1 <= o < d_next_o_id dr /\ row D TOrder (o_key w d o) = Some ro /\ o_c_id ro = c_id r;
  (** every last name occurs *)
  da_names num : 0 <= num < 1000 -> exists k r, row D TCustomer k = Some r /\ c_w_id r = w /\ c_d_id r = d /\
    c_str (c_last r) = last_name num }.

(** A database of [n] warehouses. *)
Record consistent (n : Z) (D : DB) : Prop := {
  co_items i : 1 <= i <= 100000 -> exists r, row D TItem i = Some r /\ holds 51 26 50 (i_data r);
  co_warehouses w : 1 <= w <= n -> exists r, row D TWarehouse w = Some r /\ (10 <= length (w_name r))%nat;
  co_stocks w i : 1 <= w <= n -> 1 <= i <= 100000 -> exists s, row D TStock (s_key w i) = Some s /\ stock_fine s;
  co_customers k r : row D TCustomer k = Some r -> customer_fine r;
  co_orders k r : row D TOrder k = Some r -> k = o_key (o_w_id r) (o_d_id r) (o_id r) /\ 0 <= o_id r < 2 ^ 32;
  co_districts w d : 1 <= w <= n -> 1 <= d <= 10 -> exists dr lo, district_at D w d dr lo }.

(** No district is about to run out of order numbers. *)
Definition room (n : Z) (D : DB) : Prop := forall w d dr, 1 <= w <= n -> 1 <= d <= 10 ->
  row D TDistrict (d_key w d) = Some dr -> d_next_o_id dr < 2 ^ 32 - 1.

(** ** Updates that keep a database consistent *)

(** What a transaction may change of a customer. *)
Definition same_person (r r' : Customer) : Prop :=
  c_w_id r' = c_w_id r /\ c_d_id r' = c_d_id r /\ c_id r' = c_id r /\ c_last r' = c_last r /\ (customer_fine r -> customer_fine r').
Definition related {A} (R : A -> A -> Prop) (o o' : option A) : Prop :=
  match o, o' with Some a, Some a' => R a a' | None, None => True | _, _ => False end.
#[export] Instance same_person_refl : Reflexive same_person.
Proof. by intros r. Qed.
Lemma related_refl {A} (R : A -> A -> Prop) `{!Reflexive R} o : related R o o.
Proof. by destruct o; simpl. Qed.
Lemma related_upd T (R : Row T -> Row T -> Prop) `{!Reflexive R} k r r' D k' : row D T k = Some r -> R r r' ->
  related R (row D T k') (row (upd T k r' D) T k').
Proof.
  intros Hr HR. destruct (decide (k = k')) as [<-|]; [by rewrite row_upd, Hr|]. rewrite row_upd_key by done. by apply related_refl.
Qed.

(** A district depends on its own rows, and on its customers up to [same_person]. *)
Record same_district (D D' : DB) (w d : Z) (dr dr' : District) : Prop := {
  sd_row : row D' TDistrict (d_key w d) = Some dr';
  sd_next : d_next_o_id dr' = d_next_o_id dr;
  sd_name : d_name dr' = d_name dr;
  sd_order o : 0 <= o < 2 ^ 32 -> row D' TOrder (o_key w d o) = row D TOrder (o_key w d o);
  sd_neworder o : 0 <= o < 2 ^ 32 -> row D' TNewOrder (no_key w d o) = row D TNewOrder (no_key w d o);
  sd_line o l : 0 <= o < 2 ^ 32 -> 0 <= l < 2 ^ 8 -> row D' TOrderLine (ol_key w d o l) = row D TOrderLine (ol_key w d o l);
  sd_customer k : related same_person (row D TCustomer k) (row D' TCustomer k) }.

Lemma related_back {A} (R : A -> A -> Prop) o o' a' : related R o o' -> o' = Some a' -> exists a, o = Some a /\ R a a'.
Proof. intros HR ->. destruct o as [a|]; [by exists a|done]. Qed.
Lemma related_forth {A} (R : A -> A -> Prop) o o' a : related R o o' -> o = Some a -> exists a', o' = Some a' /\ R a a'.
Proof. intros HR ->. destruct o' as [a'|]; [by exists a'|done]. Qed.

Lemma district_transfer D D' w d dr dr' lo : same_district D D' w d dr dr' -> district_at D w d dr lo -> district_at D' w d dr' lo.
Proof.
  intros S A. destruct S as [S0 S1 S2 S3 S4 S5 S6]. constructor; rewrite ?S1, ?S2.
  - done.
  - apply A.
  - apply A.
  - intros o Ho. rewrite S3 by done. by apply A.
  - intros o Ho. rewrite S4 by done. by apply A.
  - intros o l Ho Hl. rewrite S5, S3 by done. by apply A.
  - intros c Hc. destruct (da_customer _ _ _ _ _ A c Hc) as (r & Hr & <- & <- & <-).
    destruct (related_forth _ _ _ _ (S6 _) Hr) as (r' & Hr' & E1 & E2 & E3 & _). by exists r'.
  - intros k r' Hr' <- <-. destruct (related_back _ _ _ _ (S6 _) Hr') as (r & Hr & E1 & E2 & E3 & _). rewrite E1, E2, E3 in *.
    destruct (da_ordered _ _ _ _ _ A k r Hr) as (Hk & Hc & o & ro & Ho & Hro & Hoc); [done..|]. split_and!; [exact Hk|lia..|].
    exists o, ro. split_and!; [lia..| |done]. rewrite S3; [done|]. pose proof (da_next _ _ _ _ _ A). lia.
  - intros num Hn. destruct (da_names _ _ _ _ _ A num Hn) as (k & r & Hr & <- & <- & Hl).
    destruct (related_forth _ _ _ _ (S6 _) Hr) as (r' & Hr' & E1 & E2 & E3 & E4 & _). exists k, r'. rewrite E1, E2, E4. by split_and!.
Qed.

(** Changes that leave every condition true: amounts, counters, stock within its bounds, history. *)
Definition same_warehouse (r r' : Warehouse) : Prop := w_name r' = w_name r.
Definition same_numbers (r r' : District) : Prop := d_next_o_id r' = d_next_o_id r /\ d_name r' = d_name r.
Definition still_fine (r r' : Stock) : Prop := stock_fine r -> stock_fine r'.
#[export] Instance same_warehouse_refl : Reflexive same_warehouse. Proof. done. Qed.
#[export] Instance same_numbers_refl : Reflexive same_numbers. Proof. done. Qed.
#[export] Instance still_fine_refl : Reflexive still_fine. Proof. by intros r ?. Qed.
Record harmless (D D' : DB) : Prop := {
  ha_items k : row D' TItem k = row D TItem k;
  ha_warehouses k : related same_warehouse (row D TWarehouse k) (row D' TWarehouse k);
  ha_stocks k : related still_fine (row D TStock k) (row D' TStock k);
  ha_districts k : related same_numbers (row D TDistrict k) (row D' TDistrict k);
  ha_customers k : related same_person (row D TCustomer k) (row D' TCustomer k);
  ha_orders k : row D' TOrder k = row D TOrder k;
  ha_neworders k : row D' TNewOrder k = row D TNewOrder k;
  ha_lines k : row D' TOrderLine k = row D TOrderLine k }.

Lemma harmless_district D D' w d dr lo : harmless D D' -> district_at D w d dr lo ->
  exists dr', d_next_o_id dr' = d_next_o_id dr /\ district_at D' w d dr' lo.
Proof.
  intros Hh A. destruct (related_forth _ _ _ _ (ha_districts _ _ Hh _) (da_row _ _ _ _ _ A)) as (dr' & Hr' & E1 & E2).
  exists dr'. split; [done|]. eapply district_transfer; [|exact A].
  constructor; first [done | intros; apply Hh].
Qed.
Lemma harmless_consistent n D D' : harmless D D' -> consistent n D -> consistent n D'.
Proof.
  intros Hh A. constructor.
  - intros i Hi. rewrite (ha_items _ _ Hh). by apply (co_items n).
  - intros w Hw. destruct (co_warehouses _ _ A w Hw) as (r & Hr & Hl).
    destruct (related_forth _ _ _ _ (ha_warehouses _ _ Hh _) Hr) as (r' & Hr' & E). exists r'. by rewrite E.
  - intros w i Hw Hi. destruct (co_stocks _ _ A w i Hw Hi) as (r & Hr & Hl).
    destruct (related_forth _ _ _ _ (ha_stocks _ _ Hh _) Hr) as (r' & Hr' & E). exists r'. auto.
  - intros k r' Hr'. destruct (related_back _ _ _ _ (ha_customers _ _ Hh _) Hr') as (r & Hr & _ & _ & _ & _ & E).
    eapply E, co_customers; eauto.
  - intros k r. rewrite (ha_orders _ _ Hh). apply A.
  - intros w d Hw Hd. destruct (co_districts _ _ A w d Hw Hd) as (dr & lo & B).
    destruct (harmless_district _ _ _ _ _ _ Hh B) as (dr' & _ & B'). eauto.
Qed.
Lemma harmless_refl D : harmless D D.
Proof. constructor; intros; (done || apply related_refl, _). Qed.
Ltac one_row T R := constructor; intros;
  (try (rewrite row_upd_tab by done; (reflexivity || (apply related_refl; apply _)))); (eapply (related_upd T R); [eassumption|done]).
Lemma harmless_warehouse k r r' D : row D TWarehouse k = Some r -> same_warehouse r r' -> harmless D (upd TWarehouse k r' D).
Proof. one_row TWarehouse same_warehouse. Qed.
Lemma harmless_stock k r r' D : row D TStock k = Some r -> still_fine r r' -> harmless D (upd TStock k r' D).
Proof. one_row TStock still_fine. Qed.
Lemma harmless_district_row k r r' D : row D TDistrict k = Some r -> same_numbers r r' -> harmless D (upd TDistrict k r' D).
Proof. one_row TDistrict same_numbers. Qed.
Lemma harmless_customer k r r' D : row D TCustomer k = Some r -> same_person r r' -> harmless D (upd TCustomer k r' D).
Proof. one_row TCustomer same_person. Qed.
Lemma harmless_history k r D : harmless D (upd THistory k r D).
Proof. constructor; intros; rewrite row_upd_tab by done; (reflexivity || apply related_refl, _). Qed.
End Consistency.
