(* ===== verification/TpccNewOrder.v ===== *)
(** * TpccNewOrder: NewOrder transforms a consistent database as it should

    The effect of NewOrder as a function of databases, the refinement (a run
    on any engine with [TransactionLaws] ends with that effect committed, or
    leaves what is committed alone, and never in [BUG]) and the proof that the
    effect keeps the database consistent. *)
From S2P Require Import Prelude Random TpccRecords TpccKeys TpccTx TpccProfiles TpccContract TpccConsistency.

Section NewOrder.
Import NewOrderTx RecordFacts.
Context `{FloatOps}.

(** What [generate] draws. *)
Definition line_input (n : Z) (l : Line) : Prop := 1 <= ol_supply_w_id l <= n /\ 1 <= ol_i_id l <= 100000 /\ 1 <= ol_quantity l <= 10.
Record neworder_input (n : Z) (inp : Input) : Prop := {
  ni_w : 1 <= w_id inp <= n;
  ni_d : 1 <= d_id inp <= 10;
  ni_c : 1 <= c_id inp <= 3000;
  ni_cnt : ol_cnt inp = Z.of_nat (length (items inp)) /\ 5 <= ol_cnt inp <= 15;
  ni_items : Forall (line_input n) (items inp) }.

(** ** The effect *)
Definition new_line (inp : Input) (o_id num : Z) (l : Line) (i : Item) (dist : list Z) : OrderLine :=
  mkOrderLine (w_id inp) (d_id inp) o_id num (ol_i_id l) (ol_supply_w_id l) 0 (ol_quantity l)
    (d_mul (d_of_Z (ol_quantity l)) (i_price i)) dist.
Definition line_effect (inp : Input) (o_id num : Z) (l : Line) (D : DB) : option DB :=
  if ol_i_id l =? UNUSED_ITEM then None else
  i ← row D TItem (ol_i_id l);
  s ← row D TStock (s_key (ol_supply_w_id l) (ol_i_id l));
  dist ← s_dist s !! Z.to_nat (d_id inp - 1);
  Some (upd TOrderLine (ol_key (w_id inp) (d_id inp) o_id num) (new_line inp o_id num l i dist)
         (upd TStock (s_key (ol_supply_w_id l) (ol_i_id l)) (modify_stock s (ol_quantity l) (is_remote inp)) D)).
Fixpoint lines_effect (inp : Input) (o_id num : Z) (ls : list Line) (D : DB) : option DB :=
  match ls with [] => Some D | l :: ls => D ← line_effect inp o_id num l D; lines_effect inp o_id (num + 1) ls D end.
Definition new_order (inp : Input) (o_id now : Z) : Order :=
  mkOrder (w_id inp) (d_id inp) o_id (c_id inp) 0 (ol_cnt inp) (if is_remote inp then 0 else 1) now.
(** The rows of the order itself, for district row [dr]. *)
Definition open_order (inp : Input) (now : Z) (dr : District) (D : DB) : DB :=
  let o_id := d_next_o_id dr in
  upd TOrder (o_key (w_id inp) (d_id inp) o_id) (new_order inp o_id now)
    (upd TNewOrder (no_key (w_id inp) (d_id inp) o_id) (mkNewOrder (w_id inp) (d_id inp) o_id)
       (upd TDistrict (d_key (w_id inp) (d_id inp)) (next_o_id dr) D)).
Definition neworder_effect (inp : Input) (now : Z) (D : DB) : option DB :=
  dr ← row D TDistrict (d_key (w_id inp) (d_id inp));
  lines_effect inp (d_next_o_id dr) 1 (items inp) (open_order inp now dr D).

(** ** Pure facts *)
Lemma bytes_full n s rest (b : list Z) : length b = S n -> b = s ++ 0 :: rest -> length s = n -> rest = [].
Proof. intros Hb -> Hs. rewrite length_app in Hb. simpl in Hb. destruct rest; [done|simpl in Hb; lia]. Qed.
(** A string that fills its array is copied to the byte. *)
Lemma copy_full out src : length out = 25%nat -> holds 25 24 24 src -> copy out src = Ok src.
Proof.
  intros Ho Hs. destruct (copy_spec 25 24 24 out src Ho Hs) as (o & -> & (Lo & s1 & r1 & -> & F1 & L1) & Ec).
  destruct Hs as (Ls & s2 & r2 & -> & F2 & L2). rewrite !c_str_app in Ec by done. subst s2. 
  rewrite (bytes_full 24 s1 r1 _ Lo eq_refl), (bytes_full 24 s1 r2 _ Ls eq_refl) by lia. done.
Qed.
Lemma strstr_ok n lo hi b s : holds n lo hi b -> exists v, strstr b s = Ok v.
Proof. intros (_ & t & r & -> & Ht & _). unfold strstr. rewrite strlen_app by done. by eexists. Qed.
Lemma modify_stock_fine s q r : 1 <= q <= 10 -> stock_fine s -> stock_fine (modify_stock s q r).
Proof.
  intros Hq (H1 & H2 & H3 & H4). split_and!; simpl; try done; unfold i16;
    (destruct (Z.ltb_spec (q + 10) (s_quantity s)); rewrite Z.mod_small; lia).
Qed.
End NewOrder.

(** ** The run refines the effect *)
Section Run.
Import NewOrderTx RecordFacts.
Context `{BuildConfig} `{FloatOps} `{!Machine} `{!Transaction} `{!TransactionLaws}.
Context (c : Config.t) (n : Z).

(** The slots that live through the loop. *)
Definition same_slots (L L' : Slots) : Prop := tab L' TWarehouse = tab L TWarehouse /\ tab L' TDistrict = tab L TDistrict /\
  tab L' TCustomer = tab L TCustomer.
Lemma wpx_line inp o num l total D C L t w eff U (Q : double -> World -> Prop) i s :
  at_ D C L t w -> t <= U -> items inp !! Z.to_nat (num - 1) = Some l -> 1 <= d_id inp <= 10 ->
  row C TItem (ol_i_id l) = Some i -> holds 51 26 50 (i_data i) ->
  row C TStock (s_key (ol_supply_w_id l) (ol_i_id l)) = Some s -> stock_fine s ->
  row C TOrderLine (ol_key (w_id inp) (d_id inp) o num) = None ->
  (forall total' C' L' w', line_effect inp o num l C = Some C' -> same_slots L L' -> at_ D C' L' t w' -> Q total' w') ->
  wpx (run_line c inp o total num) Q (ends D eff U) w.
Proof.
  intros Hw Ht Hl Hd Hi Hid Hs (Hs1 & Hs2 & Hs3 & Hs4) Hol HQ. unfold run_line.
  sx. apply wpx_lift. rewrite Hl. simpl. destruct (ol_i_id l =? UNUSED_ITEM) eqn:Eu; [sx|].
  destruct (lookup_lt_is_Some_2 (s_dist s) (Z.to_nat (d_id inp - 1)) ltac:(lia)) as [dist Hdist].
  pose proof (Forall_lookup_1 _ _ _ _ Hs2 Hdist) as Hfull. cbn beta in Hfull.
  destruct (strstr_ok _ _ _ _ "ORIGINAL" Hid) as [v1 Hv1]. destruct (strstr_ok _ _ _ _ "ORIGINAL" Hs3) as [v2 Hv2].
  repeat sx. apply wpx_lift. rewrite Hv1. simpl. sx.
  match goal with |- wpx _ _ _ ?w1 => assert (forall Q' : bool -> World -> Prop, (forall b, Q' b w1) ->
    wpx (if v1 then act (lift (strstr (s_data s) "ORIGINAL")) else mret false) Q' (ends D eff U) w1) as Horig end.
  { intros Q' HQ'. destruct v1; [apply wpx_lift; rewrite Hv2; apply HQ'|apply wpx_ret, HQ']. }
  apply Horig. clear Horig. intros b. repeat (cbv zeta; sx).
  { by rewrite row_upd_tab by done. }
  { cbn [row_shape] in *. unfold create_orderline. simpl. rewrite Hdist. simpl. by rewrite copy_full. }
  repeat (cbv zeta; sx). eapply HQ; [| |eassumption].
  - unfold line_effect. rewrite Eu, Hi. simpl. rewrite Hs. simpl. rewrite Hdist. done.
  - unfold same_slots. by rewrite !tab_set_ne by done.
Qed.

(** What the lines need of the transaction's view. *)
Record lines_room (inp : Input) (o num : Z) (ls : list Line) (C : DB) : Prop := {
  lr_items i : 1 <= i <= 100000 -> exists r, row C TItem i = Some r /\ holds 51 26 50 (i_data r);
  lr_stocks w i : 1 <= w <= n -> 1 <= i <= 100000 -> exists s, row C TStock (s_key w i) = Some s /\ stock_fine s;
  lr_free k : num <= k < num + Z.of_nat (length ls) -> row C TOrderLine (ol_key (w_id inp) (d_id inp) o k) = None }.
Lemma lines_room_step inp o num l ls C C' : 1 <= n < 2 ^ 16 -> neworder_input n inp -> 0 <= o < 2 ^ 32 -> 0 <= num -> line_input n l ->
  num + Z.of_nat (length ls) < 2 ^ 8 ->
  line_effect inp o num l C = Some C' -> lines_room inp o num (l :: ls) C -> lines_room inp o (num + 1) ls C'.
Proof.
  intros Hn Hin Ho Hnum (L1 & L2 & L3) Hlen He [R1 R2 R3]. unfold line_effect in He. destruct (_ =? _); [done|].
  destruct (row C TItem _) as [i|] eqn:Ei; [|done]. simpl in He. destruct (row C TStock _) as [s|] eqn:Es; [|done]. simpl in He.
  destruct (s_dist s !! _); simplify_eq/=. pose proof (ni_w _ _ Hin). pose proof (ni_d _ _ Hin). constructor.
  - intros j Hj. rewrite !row_upd_tab by done. auto.
  - intros w j Hw Hj. rewrite row_upd_tab by done. destruct (decide (s_key (ol_supply_w_id l) (ol_i_id l) = s_key w j)) as [<-|].
    + rewrite row_upd. eexists. split; [done|]. apply modify_stock_fine; [lia|].
      destruct (R2 (ol_supply_w_id l) (ol_i_id l)) as (s' & Hs' & Hf); [lia..|]. by rewrite Es in Hs'; simplify_eq.
    + rewrite row_upd_key by done. auto.
  - intros k Hk. rewrite row_upd_key, row_upd_tab; [apply R3; simpl; lia|done|].
    intros E%ol_key_inj; unfold in_wd; lia.
Qed.
Lemma wpx_lines inp o ls : forall pre num total D C L t w eff U (Q : double -> World -> Prop), 1 <= n < 2 ^ 16 -> neworder_input n inp -> 0 <= o < 2 ^ 32 ->
  items inp = pre ++ ls -> num = Z.of_nat (length pre) + 1 -> lines_room inp o num ls C -> at_ D C L t w -> t <= U ->
  (forall total' C' L' w', lines_effect inp o num ls C = Some C' -> same_slots L L' -> at_ D C' L' t w' -> Q total' w') ->
  wpx (run_lines c inp o total (seqZ num (Z.of_nat (length ls)))) Q (ends D eff U) w.
Proof.
  induction ls as [|l ls IH]; intros pre num total D C L t w eff U Q Hn Hin Ho Hpre Hnum Hr Hw Ht HQ.
  { apply wpx_ret. by eapply HQ. }
  pose proof (ni_items _ _ Hin) as Hit. rewrite Hpre in Hit. apply Forall_app in Hit as [_ (Hl & _)%Forall_cons].
  pose proof (ni_cnt _ _ Hin) as [Hc1 Hc2]. rewrite Hc1, Hpre, length_app in Hc2. simpl in Hc2.
  rewrite seqZ_cons by (simpl; lia). cbn [run_lines]. apply wpx_bind.
  destruct (lr_items _ _ _ _ _ Hr (ol_i_id l)) as (i & Hi & Hid); [apply Hl|].
  destruct (lr_stocks _ _ _ _ _ Hr (ol_supply_w_id l) (ol_i_id l)) as (s & Hs & Hsf); [apply Hl..|].
  eapply (wpx_line inp o num l); [exact Hw|done| |apply Hin|exact Hi|exact Hid|exact Hs|exact Hsf| |].
  { rewrite Hpre, Hnum, lookup_app_r by lia. by replace (Z.to_nat _ - length pre)%nat with 0%nat by lia. }
  { apply (lr_free _ _ _ _ _ Hr). simpl. lia. }
  intros total' C' L' w' He HL Hw'. replace (Z.pred (Z.of_nat (length (l :: ls)))) with (Z.of_nat (length ls)) by (simpl; lia).
  eapply (IH (pre ++ [l])); [done|done|done|by rewrite <- app_assoc|rewrite length_app; simpl; lia| |exact Hw'|done|].
  - eapply lines_room_step; [..|exact Hr]; [done|done|done|lia|exact Hl|lia|exact He].
  - intros total2 C2 L2 w2 He2 HL2 Hw2. eapply HQ; [|..|exact Hw2].
    + cbn [lines_effect]. by rewrite He.
    + destruct HL as (?&?&?), HL2 as (?&?&?). unfold same_slots. by split_and!; etransitivity.
Qed.

(** The rows of the order itself are in place before the lines. *)
Lemma open_order_room inp now dr lo D : 1 <= n < 2 ^ 16 -> neworder_input n inp -> consistent n D -> room n D ->
  district_at D (w_id inp) (d_id inp) dr lo ->
  lines_room inp (d_next_o_id dr) 1 (items inp) (open_order inp now dr D).
Proof.
  intros Hn Hin HD Hroom A. pose proof (ni_w _ _ Hin). pose proof (ni_d _ _ Hin). pose proof (ni_cnt _ _ Hin) as [Hc1 Hc2].
  pose proof (da_next _ _ _ _ _ A) as [Hlo Hnext]. unfold open_order. constructor.
  - intros i Hi. rewrite !row_upd_tab by done. by apply (co_items n).
  - intros w i Hw Hi. rewrite !row_upd_tab by done. by apply (co_stocks n).
  - intros k Hk. rewrite !row_upd_tab by done.
    pose proof (da_line _ _ _ _ _ A (d_next_o_id dr) k ltac:(lia) ltac:(lia)) as Hline.
    destruct (row D TOrderLine _) as [ol|]; [|done]. destruct Hline as (_ & r & Hr & _).
    pose proof (da_order _ _ _ _ _ A (d_next_o_id dr) ltac:(lia)) as Ho. rewrite Hr in Ho. lia.
Qed.
Lemma neworder_run inp D L t w : 1 <= n < 2 ^ 16 -> neworder_input n inp -> consistent n D -> room n D ->
  at_ D D L t w -> t < 2 ^ 63 - 1 ->
  wp (run c inp) (ends D (λ D', exists now, neworder_effect inp now D = Some D') (t + 1)) w.
Proof.
  intros Hn Hin HD Hroom Hw Ht. apply wp_run_tx. unfold body.
  pose proof (ni_w _ _ Hin) as Hwid. pose proof (ni_d _ _ Hin) as Hdid. pose proof (ni_c _ _ Hin) as Hcid.
  pose proof (ni_cnt _ _ Hin) as [Hc1 Hc2].
  destruct (co_warehouses _ _ HD _ Hwid) as (wr & Hwr & _). destruct (co_districts _ _ HD _ _ Hwid Hdid) as (dr & lo & A).
  pose proof (da_row _ _ _ _ _ A) as Hdr. pose proof (Hroom _ _ _ Hwid Hdid Hdr) as Hmax.
  pose proof (da_next _ _ _ _ _ A) as [Hlo Hnext].
  destruct (da_customer _ _ _ _ _ A _ Hcid) as (cr & Hcr & _).
  assert (row D TNewOrder (no_key (w_id inp) (d_id inp) (d_next_o_id dr)) = None) as Hno.
  { rewrite (da_neworder _ _ _ _ _ A) by lia. by rewrite decide_False by lia. }
  assert (row D TOrder (o_key (w_id inp) (d_id inp) (d_next_o_id dr)) = None) as Hor.
  { pose proof (da_order _ _ _ _ _ A (d_next_o_id dr) ltac:(lia)) as Ho. destruct (row D TOrder _); [lia|done]. }
  repeat (cbv zeta; sx).
  { rewrite row_upd_tab by done. exact Hcr. }
  repeat (cbv zeta; sx).
  { by rewrite !row_upd_tab by done. }
  repeat (cbv zeta; sx).
  { by rewrite !row_upd_tab by done. }
  repeat (cbv zeta; sx). rewrite Hc1.
  match goal with Hat : at_ _ ?C _ _ ?w |- wpx _ _ _ ?w => replace C with (open_order inp x0 dr D) in Hat
    by (unfold open_order; f_equal; f_equal; unfold create_neworder, u8; by rewrite Z.mod_small by lia) end.
  eapply (wpx_lines inp (d_next_o_id dr) (items inp) []); [done|done|lia|done|done| |eassumption|lia|].
  { by eapply open_order_room. }
  intros total' C' L' wl He (HL1 & HL2 & HL3) Hwl.
  settle HL1. settle HL2. settle HL3. repeat (cbv zeta; sx).
  exists x0. unfold neworder_effect. by rewrite Hdr.
Qed.
End Run.

(** ** The effect keeps the database consistent *)
Section Preservation.
Import NewOrderTx RecordFacts.
Context `{FloatOps}.
Context (n : Z) (inp : Input) (Hn : 1 <= n < 2 ^ 16) (Hin : neworder_input n inp).

Definition home_in_wd : in_wd (w_id inp) (d_id inp).
Proof. pose proof (ni_w _ _ Hin). pose proof (ni_d _ _ Hin). unfold in_wd. lia. Qed.

(** What the lines [num], [num + 1], ... of order [o] change. *)
Record lines_added (o num len : Z) (D D' : DB) : Prop := {
  la_others T k : T ≠ TStock -> T ≠ TOrderLine -> row D' T k = row D T k;
  la_stocks k : related still_fine (row D TStock k) (row D' TStock k);
  la_lines k : (forall m, num <= m < num + len -> k ≠ ol_key (w_id inp) (d_id inp) o m) -> row D' TOrderLine k = row D TOrderLine k;
  la_added m : num <= m < num + len -> exists ol, row D' TOrderLine (ol_key (w_id inp) (d_id inp) o m) = Some ol /\ valid_item ol }.

Lemma line_added o num l D D' : line_input n l -> line_effect inp o num l D = Some D' -> lines_added o num 1 D D'.
Proof.
  intros (L1 & L2 & L3) He. unfold line_effect in He. destruct (_ =? _); [done|].
  destruct (row D TItem _) as [i|] eqn:Ei; [|done]. simpl in He. destruct (row D TStock _) as [s|] eqn:Es; [|done]. simpl in He.
  destruct (s_dist s !! _); simplify_eq/=. constructor.
  - intros T k ? ?. by rewrite !row_upd_tab by done.
  - intros k. rewrite row_upd_tab by done. eapply (related_upd TStock still_fine); [done|]. intros Hf. by apply modify_stock_fine.
  - intros k Hk. rewrite row_upd_key, row_upd_tab; [done..|]. intros <-. apply (Hk num); [lia|done].
  - intros m Hm. assert (m = num) as -> by lia. rewrite row_upd. by eexists.
Qed.
Lemma lines_added_trans o num a b D1 D2 D3 : 0 <= a -> 0 <= b -> 0 <= num -> num + a + b < 2 ^ 8 -> 0 <= o < 2 ^ 32 ->
  lines_added o num a D1 D2 -> lines_added o (num + a) b D2 D3 -> lines_added o num (a + b) D1 D3.
Proof.
  intros Ha Hb Hnum Hlen Ho A B. constructor.
  - intros T k H1 H2. rewrite (la_others _ _ _ _ _ B) by done. by apply A.
  - intros k. pose proof (la_stocks _ _ _ _ _ A k) as S1. pose proof (la_stocks _ _ _ _ _ B k) as S2.
    destruct (row D1 TStock k), (row D2 TStock k), (row D3 TStock k); simpl in *; unfold still_fine in *; naive_solver.
  - intros k Hk. rewrite (la_lines _ _ _ _ _ B), (la_lines _ _ _ _ _ A); [done|..]; intros m Hm; apply Hk; lia.
  - intros m Hm. destruct (decide (m < num + a)) as [Hl|Hl]; [|apply (la_added _ _ _ _ _ B); lia].
    rewrite (la_lines _ _ _ _ _ B); [apply (la_added _ _ _ _ _ A); lia|]. intros m' Hm' E. pose proof home_in_wd.
    apply ol_key_inj in E; lia || done.
Qed.
Lemma lines_effect_added o ls : forall num D D', 0 <= o < 2 ^ 32 -> 0 <= num -> num + Z.of_nat (length ls) < 2 ^ 8 -> Forall (line_input n) ls ->
  lines_effect inp o num ls D = Some D' -> lines_added o num (Z.of_nat (length ls)) D D'.
Proof.
  induction ls as [|l ls IH]; intros num D D' Ho Hnum Hlen Hls He; simpl in He.
  - simplify_eq. constructor; [done|intros; apply related_refl, _|done|simpl; lia].
  - apply Forall_cons in Hls as [Hl Hls]. destruct (line_effect inp o num l D) as [D1|] eqn:E1; [|done]. simpl in *.
    replace (Z.of_nat (S (length ls))) with (1 + Z.of_nat (length ls)) by lia.
    eapply lines_added_trans; [lia..|by eapply line_added|apply IH; [done|lia..|done|done]].
Qed.

(** The rows of the new order. *)
Record order_added (now : Z) (dr : District) (D D' : DB) : Prop := {
  oa_others T k : T ≠ TStock -> T ≠ TOrderLine -> row D' T k = row (open_order inp now dr D) T k;
  oa_stocks k : related still_fine (row D TStock k) (row D' TStock k);
  oa_lines k : (forall m, 1 <= m <= ol_cnt inp -> k ≠ ol_key (w_id inp) (d_id inp) (d_next_o_id dr) m) ->
    row D' TOrderLine k = row D TOrderLine k;
  oa_added m : 1 <= m <= ol_cnt inp -> exists ol,
    row D' TOrderLine (ol_key (w_id inp) (d_id inp) (d_next_o_id dr) m) = Some ol /\ valid_item ol }.
Lemma effect_added now dr lo D D' : district_at D (w_id inp) (d_id inp) dr lo -> neworder_effect inp now D = Some D' ->
  order_added now dr D D'.
Proof.
  intros A He. pose proof (da_next _ _ _ _ _ A). unfold neworder_effect in He. rewrite (da_row _ _ _ _ _ A) in He. simpl in He.
  pose proof (ni_cnt _ _ Hin) as [Hc1 Hc2]. apply lines_effect_added in He; [|lia..|apply Hin].
  constructor.
  - apply He.
  - intros k. pose proof (la_stocks _ _ _ _ _ He k) as S. unfold open_order in S. by rewrite !row_upd_tab in S by done.
  - intros k Hk. rewrite (la_lines _ _ _ _ _ He) by (intros m Hm; apply Hk; lia). unfold open_order. by rewrite !row_upd_tab by done.
  - intros m Hm. apply (la_added _ _ _ _ _ He). lia.
Qed.

(** The district that got the order. *)
Lemma home_district now dr lo D D' : d_next_o_id dr < 2 ^ 32 - 1 -> district_at D (w_id inp) (d_id inp) dr lo ->
  order_added now dr D D' -> district_at D' (w_id inp) (d_id inp) (next_o_id dr) lo.
Proof.
  intros Hmax A B. pose proof home_in_wd as Hwd. pose proof (da_next _ _ _ _ _ A) as [Hlo Hnx].
  pose proof (ni_cnt _ _ Hin) as [Hc1 Hc2]. pose proof (ni_c _ _ Hin) as Hc.
  assert (d_next_o_id (next_o_id dr) = d_next_o_id dr + 1) as En by (simpl; unfold u32; rewrite Z.mod_small; lia).
  assert (forall o, 0 <= o < 2 ^ 32 -> row D' TOrder (o_key (w_id inp) (d_id inp) o) =
    if decide (o = d_next_o_id dr) then Some (new_order inp (d_next_o_id dr) now) else row D TOrder (o_key (w_id inp) (d_id inp) o)) as HO.
  { intros o Ho. rewrite (oa_others _ _ _ _ B) by done. unfold open_order. case_decide as E; [subst; by rewrite row_upd|].
    rewrite row_upd_key, !row_upd_tab; [done..|]. intros K%o_key_inj; lia || done. }
  assert (forall k, row D' TCustomer k = row D TCustomer k) as HC.
  { intros k. rewrite (oa_others _ _ _ _ B) by done. unfold open_order. by rewrite !row_upd_tab. }
  constructor; rewrite ?En.
  - rewrite (oa_others _ _ _ _ B) by done. unfold open_order. rewrite !row_upd_tab by done. apply (row_upd TDistrict).
  - apply A.
  - lia.
  - intros o Ho. rewrite HO by done. case_decide as E; [subst; simpl; split_and!; (done || lia)|].
    pose proof (da_order _ _ _ _ _ A o Ho) as K. destruct (row D TOrder _); [|lia]. destruct K as (?&K). split; [lia|exact K].
  - intros o Ho. rewrite (oa_others _ _ _ _ B) by done. unfold open_order. rewrite row_upd_tab by done.
    destruct (decide (o = d_next_o_id dr)) as [->|E].
    + rewrite row_upd, decide_True by lia. done.
    + rewrite row_upd_key, row_upd_tab, (da_neworder _ _ _ _ _ A); [|done..|].
      { repeat case_decide; (done || lia). }
      intros K%no_key_inj; lia || done.
  - intros o l Ho Hl. rewrite HO by done. case_decide as E.
    + subst. destruct (decide (1 <= l <= ol_cnt inp)) as [Hm|Hm].
      * destruct (oa_added _ _ _ _ B l Hm) as (ol & -> & Hi). split; [done|]. eexists. split; [done|]. done.
      * rewrite (oa_lines _ _ _ _ B) by (intros m Hm' K%ol_key_inj; lia || done).
        pose proof (da_line _ _ _ _ _ A _ l Ho Hl) as K. pose proof (da_order _ _ _ _ _ A _ Ho) as K2.
        destruct (row D TOrderLine _); [|by intros ? [= <-]]. destruct K as (_ & ro & Hro & _). rewrite Hro in K2. lia.
    + rewrite (oa_lines _ _ _ _ B) by (intros m Hm' K%ol_key_inj; lia || done). by apply A.
  - intros cid Hcid. rewrite HC. by apply (da_customer _ _ _ _ _ A).
  - intros k r. rewrite HC. intros Hr Hw Hd. destruct (da_ordered _ _ _ _ _ A k r Hr Hw Hd) as (? & ? & o & ro & Ho & Hro & Hid).
    split_and!; [done|lia..|]. exists o, ro. split_and!; [lia..| |done]. rewrite HO by lia. by rewrite decide_False by lia.
  - intros num Hnum. destruct (da_names _ _ _ _ _ A num Hnum) as (k & r & Hr & Hrest). exists k, r. by rewrite HC.
Qed.
(** The other districts. *)
Lemma other_district now dr lo D D' w d dr1 lo1 : d_next_o_id dr < 2 ^ 32 -> district_at D (w_id inp) (d_id inp) dr lo ->
  order_added now dr D D' -> in_wd w d -> (w, d) ≠ (w_id inp, d_id inp) -> district_at D w d dr1 lo1 -> district_at D' w d dr1 lo1.
Proof.
  intros Hmax A B Hw Hne A1. pose proof home_in_wd as Hwd. pose proof (da_next _ _ _ _ _ A) as [Hlo Hnx].
  assert (w ≠ w_id inp \/ d ≠ d_id inp) as Hne' by (destruct (decide (w = w_id inp)), (decide (d = d_id inp)); naive_solver).
  eapply district_transfer; [|exact A1]. constructor.
  - rewrite (oa_others _ _ _ _ B) by done. unfold open_order. rewrite !(row_upd_tab _ TDistrict), (row_upd_key TDistrict) by (done || (intros K%d_key_inj; lia || done)).
    apply (da_row _ _ _ _ _ A1).
  - done.
  - done.
  - intros o Ho. rewrite (oa_others _ _ _ _ B) by done. unfold open_order. rewrite row_upd_key, !row_upd_tab; [done..|].
    intros K%o_key_inj; lia || done.
  - intros o Ho. rewrite (oa_others _ _ _ _ B) by done. unfold open_order. rewrite row_upd_tab, row_upd_key, row_upd_tab; [done..| |done].
    intros K%no_key_inj; lia || done.
  - intros o l Ho Hl. apply (oa_lines _ _ _ _ B). intros m Hm K%ol_key_inj; pose proof (ni_cnt _ _ Hin); lia || done.
  - intros k. rewrite (oa_others _ _ _ _ B) by done. unfold open_order. rewrite !row_upd_tab by done. apply related_refl, _.
Qed.
Lemma neworder_consistent now D D' : consistent n D -> room n D -> neworder_effect inp now D = Some D' -> consistent n D'.
Proof.
  intros HD Hroom He. pose proof home_in_wd as Hwd. pose proof (ni_w _ _ Hin) as Hw. pose proof (ni_d _ _ Hin) as Hd.
  destruct (co_districts _ _ HD _ _ Hw Hd) as (dr & lo & A). pose proof (Hroom _ _ _ Hw Hd (da_row _ _ _ _ _ A)) as Hmax.
  pose proof (effect_added _ _ _ _ _ A He) as B. pose proof (da_next _ _ _ _ _ A) as [Hlo Hnx]. constructor.
  - intros i Hi. rewrite (oa_others _ _ _ _ B) by done. unfold open_order. rewrite !row_upd_tab by done. by apply (co_items n).
  - intros w Hw'. rewrite (oa_others _ _ _ _ B) by done. unfold open_order. rewrite !row_upd_tab by done. by apply (co_warehouses n).
  - intros w i Hw' Hi. destruct (co_stocks _ _ HD w i Hw' Hi) as (s & Hs & Hf).
    destruct (related_forth _ _ _ _ (oa_stocks _ _ _ _ B _) Hs) as (s' & Hs' & E). eauto.
  - intros k r. rewrite (oa_others _ _ _ _ B) by done. unfold open_order. rewrite !row_upd_tab by done. apply HD.
  - intros k r. rewrite (oa_others _ _ _ _ B) by done. unfold open_order.
    destruct (decide (o_key (w_id inp) (d_id inp) (d_next_o_id dr) = k)) as [<-|].
    + rewrite row_upd. intros [= <-]. simpl. split; [done|lia].
    + rewrite row_upd_key, !row_upd_tab by done. apply HD.
  - intros w d Hw' Hd'. destruct (decide ((w, d) = (w_id inp, d_id inp))) as [[= -> ->]|Hne].
    + exists (next_o_id dr), lo. by eapply home_district.
    + destruct (co_districts _ _ HD w d Hw' Hd') as (dr1 & lo1 & A1). exists dr1, lo1.
      eapply (other_district _ dr lo D); [lia|done|done|unfold in_wd; lia|done|done].
Qed.
End Preservation.

Section Correct.
Import NewOrderTx.
Context `{BuildConfig} `{FloatOps} `{!Machine} `{!Transaction} `{!TransactionLaws}.

(** C9. NewOrder on any engine that keeps the [Transaction] contract: from a
    consistent database with order numbers left it either commits exactly its
    effect (the district's next order number, the order, its new-order row,
    one line per item and the stock those lines take) and leaves the database
    consistent, or rolls back, or aborts; it never ends in [BUG], fails an
    assertion or touches a null pointer, with the random aborts as well. *)
Theorem neworder_refines_effect c n inp D L t w : 1 <= n < 2 ^ 16 -> neworder_input n inp -> consistent n D -> room n D ->
  at_ D D L t w -> t < 2 ^ 63 - 1 ->
  wp (run c inp) (ends D (λ D', (exists now, neworder_effect inp now D = Some D') /\ consistent n D') (t + 1)) w.
Proof.
  intros Hn Hin HD Hroom Hw Ht. eapply wp_mono; [apply (neworder_run c n inp D L t w Hn Hin HD Hroom Hw Ht)|]. intros s w' He.
  eapply ends_mono; [exact He|lia|]. intros D' (now & HE). split; [by exists now|]. by eapply neworder_consistent.
Qed.
End Correct.
