(* ===== verification/TpccPayment.v ===== *)
(** * TpccPayment: Payment transforms a consistent database as it should

    The strings Payment formats ([modify_customer_data], [create_history]),
    its effect on the database and the refinement. *)
From S2P Require Import Prelude Random TpccRecords TpccKeys TpccTx TpccProfiles TpccContract TpccConsistency.

(** ** Formatted text *)
Section Text.
Import RecordFacts.

Lemma decimal_nonzero fuel z : 0 <= z -> Forall (.≠ 0) (decimal fuel z).
Proof.
  revert z. induction fuel as [|fuel IH]; intros z Hz; simpl; [constructor|].
  destruct (z <? 10); [repeat constructor; lia|]. apply Forall_app. split; [apply IH, Z.div_pos; lia|].
  pose proof (Z.mod_pos_bound z 10 ltac:(lia)). repeat constructor. lia.
Qed.
Lemma decimal_length fuel z : (length (decimal fuel z) <= fuel)%nat.
Proof.
  revert z. induction fuel as [|fuel IH]; intros z; simpl; [lia|]. destruct (z <? 10); simpl; [lia|].
  rewrite length_app. simpl. specialize (IH (z / 10)). lia.
Qed.
Lemma pad_left_text k z : 0 <= z -> Forall (.≠ 0) (pad_left k (print_u z)) /\ (length (pad_left k (print_u z)) <= max k 20)%nat.
Proof.
  intros Hz. unfold pad_left, print_u. split.
  - apply Forall_app. split; [by apply Forall_replicate|by apply decimal_nonzero].
  - rewrite length_app, length_replicate. pose proof (decimal_length 20 z). lia.
Qed.
Lemma str_prec_ok k s : (k <= length s)%nat -> exists t, str_prec k s = Ok t /\ Forall (.≠ 0) t /\ (length t <= k)%nat.
Proof.
  revert s. induction k as [|k IH]; intros [|x s] Hl; simpl in *; try lia; [by exists []..|].
  destruct (Z.eqb_spec x 0); [exists []; by split_and!; simpl; try lia|].
  destruct (IH s) as (t & -> & Ht & Hk); [lia|]. exists (x :: t). simpl. split_and!; [done|by constructor|lia].
Qed.
(** [snprintf] into the whole of an array terminates the text and cuts what does not fit. *)
Lemma snprintf_spec buf s : buf ≠ [] -> Forall (.≠ 0) s ->
  exists rest, snprintf buf (length buf) s = Ok (take (length buf - 1) s ++ 0 :: rest, length s) /\
    length (take (length buf - 1) s ++ 0 :: rest) = length buf.
Proof.
  intros Hb Hs. destruct buf as [|x buf]; [done|]. unfold snprintf. cbn [length].
  set (t := take _ _). assert (length t <= length buf)%nat as Ht by (unfold t; rewrite length_take; lia).
  rewrite write_bytes_spec by (rewrite length_app; simpl; lia). cbn [mbind outcome_bind]. 
  exists (drop (length t + 1) (x :: buf)). simpl. rewrite Nat.sub_0_r. fold t.
  rewrite length_app. simpl. rewrite <- app_assoc. simpl. split; [done|].
  rewrite length_app. simpl. rewrite length_drop. simpl. lia.
Qed.
End Text.

(** ** The records Payment changes *)
Section Records.
Import PaymentTx RecordFacts Facts.
Context `{BuildConfig} `{FloatOps} `{!Machine} `{!MachineLaws}.

Lemma payment_text_ok cid cd cw d w x : 0 <= cid -> 0 <= cd -> 0 <= cw -> 0 <= d -> 0 <= w ->
  Forall (.≠ 0) (payment_text cid cd cw d w x) /\ (length (payment_text cid cd cw d w x) <= 500)%nat.
Proof.
  intros P1 P2 P3 P4 P5. unfold payment_text.
  destruct (pad_left_text 4 cid P1), (pad_left_text 2 cd P2), (pad_left_text 4 cw P3), (pad_left_text 2 d P4), (pad_left_text 4 w P5).
  pose proof (d_fixed_text x). pose proof (d_fixed_length x). split.
  - rewrite !Forall_app. split_and!; first [assumption | by apply (bool_decide_unpack _)].
  - rewrite !length_app.
    repeat match goal with |- context [length (bytes ?s)] => let v := eval vm_compute in (length (bytes s)) in change (length (bytes s)) with v end.
    lia.
Qed.
(** The new text goes in front of the old data; what exceeds the field is cut. *)
Lemma modify_customer_data_spec r w d cw cd x : customer_fine r -> 0 <= TpccRecords.c_id r -> 0 <= cd -> 0 <= cw -> 0 <= d -> 0 <= w ->
  exists data, modify_customer_data r w d cw cd x = Ok (set_c_data data r) /\ holds 501 0 500 data /\
    c_str data = take 500 (payment_text (TpccRecords.c_id r) cd cw d w x ++ c_str (c_data r)).
Proof.
  intros [_ (Hlen & s & rest & Es & Hs & Hl)] P1 P2 P3 P4 P5. unfold modify_customer_data.
  change (Z.to_nat (MAX_DATA + 1)) with 501%nat.
  destruct (payment_text_ok (TpccRecords.c_id r) cd cw d w x) as [Ht Hm]; [done..|]. set (text := payment_text _ _ _ _ _ _) in *.
  destruct (snprintf_spec (garbage 501) text) as (r1 & E1 & L1); [intros E; pose proof (garbage_length 501) as G; by rewrite E in G|done|].
  rewrite garbage_length in E1, L1. rewrite E1. cbn [mbind outcome_bind]. rewrite take_ge in * by lia.
  rewrite assert_true by (apply Z.leb_le; unfold MAX_DATA; lia). cbn [mbind outcome_bind].
  unfold copy_cstr_at. rewrite drop_app_length, take_app_length. rewrite length_app in L1. simpl in L1.
  rewrite Es, copy_cstr_spec by (done || simpl; lia). cbn [mbind outcome_bind].
  set (k := Nat.min _ _). set (tl := drop (S k) _). unfold copy. rewrite <- Es, Hlen, app_assoc. change (mret ((text ++ take k s) ++ 0 :: tl, k)) with (Ok ((text ++ take k s) ++ 0 :: tl, k)). cbn [mbind outcome_bind].
  assert (length (text ++ take k s) <= 500)%nat as Hk by (rewrite length_app, length_take; unfold k; lia).
  rewrite copy_cstr_spec; [|apply Forall_app; split; [done|by apply Forall_take]|lia]. cbn [mbind outcome_bind].
  rewrite Nat.min_r, firstn_all by lia.
  assert (Forall (.≠ 0) (text ++ take k s)) as Hf by (apply Forall_app; split; [done|by apply Forall_take]).
  eexists. split; [done|]. split.
  - apply holds_intro; [|done|lia]. rewrite (length_app (text ++ _)). cbn [length]. rewrite length_drop, Hlen. lia.
  - rewrite c_str_app by done. rewrite Es, c_str_app by done. rewrite take_app, (take_ge text) by lia. f_equal.
    unfold k. destruct (decide (length s <= 500 - length text)%nat); [rewrite !take_ge; lia || done|].
    f_equal. lia.
Qed.
Lemma create_history_spec h w d cid cw cd x wn dn now : length (h_data h) = 25%nat -> (10 <= length wn)%nat -> (10 <= length dn)%nat ->
  exists sw sd data, str_prec 10 wn = Ok sw /\ str_prec 10 dn = Ok sd /\
    create_history h w d cid cw cd x wn dn now = Ok (mkHistory cw cd cid w d now x data) /\
    length data = 25%nat /\ c_str data = pad_right 10 sw ++ bytes "    " ++ sd.
Proof.
  intros Hh Hw Hd. destruct (str_prec_ok 10 wn Hw) as (sw & Ew & Fw & Lw). destruct (str_prec_ok 10 dn Hd) as (sd & Ed & Fd & Ld).
  exists sw, sd. unfold create_history. rewrite Ew, Ed. cbn [mbind outcome_bind].
  set (text := pad_right 10 sw ++ bytes "    " ++ sd).
  assert (Forall (.≠ 0) text) as Ft.
  { repeat (apply Forall_app; split); [done|by apply Forall_replicate|by apply (bool_decide_unpack _)|done]. }
  assert (length text <= 24)%nat as Lt.
  { unfold text, pad_right. rewrite !length_app, length_replicate. change (length (bytes "    ")) with 4%nat. lia. }
  destruct (snprintf_spec (h_data h) text) as (r1 & E1 & L1); [by intros E; rewrite E in Hh|done|].
  rewrite E1. cbn [mbind outcome_bind]. rewrite Hh in *. rewrite take_ge in * by (simpl; lia).
  exists (text ++ 0 :: r1). split_and!; try done. by apply c_str_app.
Qed.
Lemma bad_credit_ok r : customer_fine r -> exists b, bad_credit r = Ok b.
Proof.
  intros [Hl _]. unfold bad_credit. destruct (c_credit r) as [|a [|b l]]; [done..|]. simpl. destruct (a =? 66); eauto.
Qed.
End Records.

(** ** The run refines the effect *)
Section Run.
Import PaymentTx RecordFacts.
Context `{BuildConfig} `{FloatOps} `{!Machine} `{!MachineLaws} `{!Transaction} `{!TransactionLaws}.
Context (c : Config.t) (n : Z).

(** What [generate] draws. *)
Record payment_input (inp : Input) : Prop := {
  pi_w : 1 <= w_id inp <= n;
  pi_d : 1 <= d_id inp <= 10;
  pi_cw : 1 <= c_w_id inp <= n;
  pi_cd : 1 <= c_d_id inp <= 10;
  pi_customer : if by_last_name inp
    then c_id inp = UNUSED_CUSTOMER /\ exists num, 0 <= num < 1000 /\ c_str (c_last inp) = last_name num
    else 1 <= c_id inp <= 3000 }.

(** The customer Payment chooses, the data it leaves and the history row. *)
Definition payer (inp : Input) (D : DB) (k : Z) (r : Customer) : Prop :=
  row D TCustomer k = Some r /\ TpccRecords.c_w_id r = c_w_id inp /\ TpccRecords.c_d_id r = c_d_id inp /\
  if by_last_name inp then same_str (TpccRecords.c_last r) (c_last inp) else TpccRecords.c_id r = c_id inp.
Definition payer_data (inp : Input) (r : Customer) (data : list Z) : Prop :=
  bad_credit r = Ok false /\ data = c_data r \/
  bad_credit r = Ok true /\ holds 501 0 500 data /\ c_str data =
    take 500 (payment_text (TpccRecords.c_id r) (c_d_id inp) (c_w_id inp) (d_id inp) (w_id inp) (h_amount inp) ++ c_str (c_data r)).
Definition history_of (inp : Input) (wr : Warehouse) (dr : District) (r : Customer) (h : History) : Prop :=
  exists sw sd now data, str_prec 10 (w_name wr) = Ok sw /\ str_prec 10 (d_name dr) = Ok sd /\
    h = mkHistory (c_w_id inp) (c_d_id inp) (TpccRecords.c_id r) (w_id inp) (d_id inp) now (h_amount inp) data /\
    c_str data = pad_right 10 sw ++ bytes "    " ++ sd.
(** The payment reaches the warehouse, the district, the customer and a new history row. *)
Definition payment_effect (inp : Input) (D D' : DB) : Prop := exists wr dr k cr data hk h,
  row D TWarehouse (w_key (w_id inp)) = Some wr /\ row D TDistrict (d_key (w_id inp) (d_id inp)) = Some dr /\
  payer inp D k cr /\ payer_data inp cr data /\ row D THistory hk = None /\ history_of inp wr dr cr h /\
  D' = upd THistory hk h (upd TCustomer k (set_c_data data (pay (h_amount inp) cr))
         (upd TDistrict (d_key (w_id inp) (d_id inp)) (set_d_ytd (λ x, d_add x (h_amount inp)) dr)
            (upd TWarehouse (w_key (w_id inp)) (set_w_ytd (λ x, d_add x (h_amount inp)) wr) D))).

Lemma payment_consistent inp D D' : consistent n D -> payment_effect inp D D' -> consistent n D'.
Proof.
  intros HD (wr & dr & k & cr & data & hk & h & Hwr & Hdr & (Hcr & _) & Hdata & _ & _ & ->).
  assert (customer_fine cr) as Hfine by (by eapply co_customers).
  apply (harmless_consistent _ (upd TCustomer k (set_c_data data (pay (h_amount inp) cr))
     (upd TDistrict (d_key (w_id inp) (d_id inp)) (set_d_ytd (λ x, d_add x (h_amount inp)) dr)
        (upd TWarehouse (w_key (w_id inp)) (set_w_ytd (λ x, d_add x (h_amount inp)) wr) D)))); [apply harmless_history|].
  eapply harmless_consistent; [eapply harmless_customer; [by rewrite !row_upd_tab by done|]|].
  { unfold same_person. split_and!; [done..|]. intros [Hl Hh]. split; [done|]. simpl.
    by destruct Hdata as [(_ & ->)|(_ & Hh' & _)]. }
  eapply harmless_consistent; [eapply harmless_district_row; [by rewrite row_upd_tab by done|done]|].
  eapply harmless_consistent; [by eapply harmless_warehouse|done].
Qed.

Lemma wpx_payer inp D C L t w eff U (Q : ptr TCustomer -> World -> Prop) : 1 <= n < 2 ^ 16 -> payment_input inp -> consistent n D ->
  at_ D C L t w -> (forall k, row C TCustomer k = row D TCustomer k) -> t <= U ->
  (forall p k r w', payer inp D k r -> at_ D C (set_tab TCustomer (Some (p, r, Some (UPDATE, k))) L) t w' -> Q p w') ->
  wpx (prepare_customer c inp) Q (ends D eff U) w.
Proof.
  intros Hn [Hwid Hdid Hcw Hcd Hcust] HD Hw HC Ht HQ. destruct (co_districts _ _ HD _ _ Hcw Hcd) as (dr & lo & A).
  unfold prepare_customer, payer in *. destruct (by_last_name inp); sx; apply wpx_lift, wpo_assert.
  - apply Z.eqb_eq, Hcust.
  - destruct Hcust as [_ (num & Hnum & Hlast)]. destruct (da_names _ _ _ _ _ A num Hnum) as (k & r & Hr & Ew & Ed & El).
    eapply wpx_by_last_name_update; [exact Hw|vm_compute; lia|done| |].
    { split; [by rewrite HC|]. split_and!; [done..|]. unfold same_str. congruence. }
    intros p k' r' w' (Hr' & ? & ? & ?) Hw'. rewrite HC in Hr'. by eapply HQ.
  - apply negb_true_iff, Z.eqb_neq. unfold UNUSED_CUSTOMER. lia.
  - destruct (da_customer _ _ _ _ _ A _ Hcust) as (r & Hr & Ew & Ed & Ec).
    eapply (wpx_prepare_update c TCustomer); [exact Hw|vm_compute; lia|done|by rewrite HC|].
    intros p w' Hw'. by eapply HQ.
Qed.
Lemma wpx_record inp start pw pd pc id D C L t w eff U wr dr cr k hw hd (Q : Status -> World -> Prop) :
  at_ D C L t w -> t < 2 ^ 63 - 1 -> t + 1 <= U ->
  tab L TCustomer = Some (pc, cr, Some (UPDATE, k)) -> tab L TWarehouse = Some (pw, wr, hw) -> tab L TDistrict = Some (pd, dr, hd) ->
  (10 <= length (w_name wr))%nat -> (10 <= length (d_name dr))%nat ->
  (forall hk h, row (upd TCustomer k cr C) THistory hk = None ->
     (exists sw sd now data, str_prec 10 (w_name wr) = Ok sw /\ str_prec 10 (d_name dr) = Ok sd /\
        h = mkHistory (c_w_id inp) (c_d_id inp) id (w_id inp) (d_id inp) now (h_amount inp) data /\
        c_str data = pad_right 10 sw ++ bytes "    " ++ sd) -> eff (upd THistory hk h (upd TCustomer k cr C))) ->
  wpx (record_payment c inp start pw pd pc id) Q (ends D eff U) w.
Proof.
  intros Hw Ht HU Hc Hwr Hdr Lw Ld HQ. unfold record_payment. do 2 sx. repeat (cbv zeta; lazymatch goal with |- wpx (modify _ _ _) _ _ _ => fail | _ => sx end).
  destruct (create_history_spec r (w_id inp) (d_id inp) id (c_w_id inp) (c_d_id inp) (h_amount inp) (w_name wr) (d_name dr) x)
    as (sw & sd & data & Esw & Esd & Eh & Lh & Sh); [done..|].
  repeat (cbv zeta; sx); [exact Eh|]. repeat (cbv zeta; sx). apply HQ; [done|]. exists sw, sd, x, data. by split_and!.
Qed.
Lemma payment_run inp D L t w : 1 <= n < 2 ^ 16 -> payment_input inp -> consistent n D -> at_ D D L t w -> t < 2 ^ 63 - 1 ->
  wp (run c inp) (ends D (payment_effect inp D) (t + 1)) w.
Proof.
  intros Hn Hin HD Hw Ht. apply wp_run_tx. unfold body. destruct Hin as [Hwid Hdid Hcw Hcd Hcust].
  destruct (co_warehouses _ _ HD _ Hwid) as (wr & Hwr & Hwn). destruct (co_districts _ _ HD _ _ Hwid Hdid) as (dr & lo & A).
  pose proof (da_row _ _ _ _ _ A) as Hdr. pose proof (da_name _ _ _ _ _ A) as Hdn.
  destruct (co_districts _ _ HD _ _ Hcw Hcd) as (dr2 & lo2 & A2).
  repeat (cbv zeta; sx).
  { by rewrite row_upd_tab by done. }
  repeat (cbv zeta; sx).
  eapply (wpx_payer inp D); [exact Hn|by constructor|exact HD|eassumption|intros k; by rewrite !row_upd_tab by done|lia|].
  intros pc k cr wc Hp Hwc. pose proof Hp as (Hcr & Ecw & Ecd & _).
  destruct (da_ordered _ _ _ _ _ A2 _ _ Hcr Ecw Ecd) as (_ & Hcid & _).
  pose proof (co_customers _ _ HD _ _ Hcr) as Hfine.
  repeat (cbv zeta; sx).
  destruct (bad_credit_ok cr Hfine) as [bad Hbad]. apply wpx_lift. change (bad_credit (pay _ cr)) with (bad_credit cr). rewrite Hbad.
  cbn [wpo]. apply wpx_bind.
  assert (exists data, payer_data inp cr data /\ (bad = true -> modify_customer_data (pay (h_amount inp) cr) (w_id inp) (d_id inp)
    (c_w_id inp) (c_d_id inp) (h_amount inp) = Ok (set_c_data data (pay (h_amount inp) cr))) /\ (bad = false -> data = c_data cr))
    as (data & Hdata & Htrue & Hfalse).
  { destruct bad; [|exists (c_data cr); split; [by left|done]].
    destruct (modify_customer_data_spec (pay (h_amount inp) cr) (w_id inp) (d_id inp) (c_w_id inp) (c_d_id inp) (h_amount inp))
      as (data & E & Hh & Hs); [done|simpl; lia..|]. exists data. split; [right; by split_and!|by split]. }
  destruct bad; repeat (cbv zeta; sx); try (by apply Htrue).
  - eapply wpx_record; [eassumption|lia|lia|slot..|exact Hwn|exact Hdn|]. intros hk h Hhk Hh.
    exists wr, dr, k, cr, data, hk, h. rewrite !row_upd_tab in Hhk by done. by split_and!.
  - rewrite (Hfalse eq_refl) in Hdata.
    eapply wpx_record; [eassumption|lia|lia|slot..|exact Hwn|exact Hdn|]. intros hk h Hhk Hh.
    exists wr, dr, k, cr, (c_data cr), hk, h. rewrite !row_upd_tab in Hhk by done. by split_and!.
Qed.
End Run.

Section Correct.
Import PaymentTx.
Context `{BuildConfig} `{FloatOps} `{!Machine} `{!MachineLaws} `{!Transaction} `{!TransactionLaws}.

(** C11. Payment on any engine that keeps the [Transaction] contract: from a
    consistent database it either commits exactly its effect (the amount added
    to the warehouse and the district, subtracted from the balance of the
    customer of that identifier or last name, whose data gets the payment's
    text in front when the credit is bad, and one history row with both names)
    and leaves the database consistent, or aborts; it never ends in [BUG],
    fails an assertion or overruns a buffer. *)
Theorem payment_refines_effect c n inp D L t w : 1 <= n < 2 ^ 16 -> payment_input n inp -> consistent n D ->
  at_ D D L t w -> t < 2 ^ 63 - 1 ->
  wp (run c inp) (ends D (λ D', payment_effect inp D D' /\ consistent n D') (t + 1)) w.
Proof.
  intros Hn Hin HD Hw Ht. eapply wp_mono; [apply (payment_run c n inp D L t w Hn Hin HD Hw Ht)|]. intros s w' He.
  eapply ends_mono; [exact He|lia|]. intros D' HE. split; [done|]. by eapply payment_consistent.
Qed.
End Correct.
