(* ===== verification/TpccReadOnly.v ===== *)
(** * TpccReadOnly: OrderStatus and StockLevel

    The two profiles that only read: they commit the database they found, and
    what they read is there.  Includes the rows of a key range and what the
    consistency conditions say of the order lines in it. *)
From S2P Require Import Prelude Random TpccRecords TpccKeys TpccTx TpccProfiles TpccContract TpccConsistency.

(** ** Key ranges *)

Lemma sorted_lt_unique (l : list Z) : StronglySorted Z.lt l -> NoDup l.
Proof.
  induction 1 as [|x l _ IH Hx]; constructor; [|done]. intros Hin. rewrite Forall_forall in Hx. specialize (Hx x Hin). lia.
Qed.
Fixpoint insert_row {A} (p : Z * A) (l : list (Z * A)) : list (Z * A) :=
  match l with [] => [p] | q :: l' => if p.1 <? q.1 then p :: q :: l' else q :: insert_row p l' end.
Lemma elem_of_insert_row {A} (p x : Z * A) l : x ∈ insert_row p l <-> x = p \/ x ∈ l.
Proof.
  induction l as [|q l IH]; simpl; [set_solver|]. destruct (p.1 <? q.1); [set_solver|]. rewrite !elem_of_cons, IH. tauto.
Qed.
Lemma insert_row_sorted {A} (p : Z * A) l : p.1 ∉ l.*1 -> StronglySorted Z.lt l.*1 -> StronglySorted Z.lt (insert_row p l).*1.
Proof.
  induction l as [|q l IH]; simpl; intros Hp Hs; [by repeat constructor|].
  apply not_elem_of_cons in Hp as [Hne Hp]. inversion Hs as [|? ? Hs' Hq]; subst. destruct (Z.ltb_spec p.1 q.1).
  - simpl. constructor; [done|]. constructor; [done|]. eapply Forall_impl; [exact Hq|]. simpl. lia.
  - simpl. constructor; [by apply IH|]. apply Forall_forall. intros x (y & -> & Hy)%list_elem_of_fmap.
    apply elem_of_insert_row in Hy as [->|Hy]; [lia|]. rewrite Forall_forall in Hq. apply Hq. by apply list_elem_of_fmap_2.
Qed.
(** Every range of a finite map has its rows. *)
Lemma ranged_exists {A} low up (m : gmap Z A) : exists kvs, ranged low up m kvs.
Proof.
  unfold ranged. induction m as [|k a m Hk (kvs & Hs & Hin)] using map_ind.
  { exists []. split; [constructor|]. intros k a. rewrite lookup_empty. set_solver. }
  destruct (decide (low <= k < up)) as [Hr|Hr].
  - exists (insert_row (k, a) kvs). split.
    + apply insert_row_sorted; [|done]. intros ((k' & a') & E & Hx)%list_elem_of_fmap. apply Hin in Hx as [Hx _]. simpl in E. congruence.
    + intros k' a'. rewrite elem_of_insert_row, Hin, lookup_insert_Some. split.
      * intros [[= -> ->]|[Hx ?]]; [by split; [left|]|]. split; [|done]. right. split; [|done]. intros ->. congruence.
      * intros [[[<- <-]|[? ?]] ?]; [by left|by right].
  - exists kvs. split; [done|]. intros k' a'. rewrite Hin, lookup_insert_Some. split.
    + intros [Hx ?]. split; [|done]. right. split; [|done]. intros ->. done.
    + intros [[[<- <-]|[? ?]] ?]; [done|by split].
Qed.

Section Ranges.
Import RecordFacts.
Context `{FloatOps}.

(** The lines of an order, by key range: exactly its lines, and there are some. *)
Lemma order_lines D w d dr lo o r kvs : in_wd w d -> district_at D w d dr lo -> 0 <= o < 2 ^ 32 -> row D TOrder (o_key w d o) = Some r ->
  ranged (ol_key w d o 1) (ol_key w d (o + 1) 1) (tab D TOrderLine : gmap Z OrderLine) kvs ->
  kvs ≠ [] /\ (length kvs <= 15)%nat /\
  forall k ol, (k, ol) ∈ kvs <-> exists l, 1 <= l <= o_ol_cnt r /\ k = ol_key w d o l /\ row D TOrderLine k = Some ol.
Proof.
  intros Hwd A Ho Hr [Hsort Hin].
  change (forall k ol, (k, ol) ∈ kvs <-> row D TOrderLine k = Some ol /\ ol_key w d o 1 <= k < ol_key w d (o + 1) 1) in Hin. pose proof (da_order _ _ _ _ _ A o Ho) as K. rewrite Hr in K.
  destruct K as (Hlt & _ & _ & _ & _ & Hcnt & _). pose proof (da_next _ _ _ _ _ A) as [_ Hnx].
  assert (forall k ol, (k, ol) ∈ kvs <-> exists l, 1 <= l <= o_ol_cnt r /\ k = ol_key w d o l /\ row D TOrderLine k = Some ol) as Hiff.
  { intros k ol. rewrite Hin. split.
    - intros [Hk Hrange]. apply ol_key_decode in Hrange as (q & l & -> & Hl & Hq); [|done|lia..].
      destruct Hq as [[<- Hl1]|[?|[-> ->]]]; [|lia|].
      + exists l. pose proof (da_line _ _ _ _ _ A o l Ho Hl) as M. rewrite Hk in M.
        destruct M as (_ & r' & Hr' & Hl'). rewrite Hr in Hr'. injection Hr' as <-. split_and!; [lia|lia|done|exact Hk].
      + pose proof (da_line _ _ _ _ _ A (o + 1) 0 ltac:(lia) ltac:(lia)) as M. rewrite Hk in M.
        destruct M as (_ & r2 & _ & ?). lia.
    - intros (l & Hl & -> & Hk). split; [done|]. rewrite !ol_key_value by lia || done. lia. }
  split_and!; [| |exact Hiff].
  - pose proof (da_line _ _ _ _ _ A o 1 Ho ltac:(lia)) as M. destruct (row D TOrderLine _) as [ol|] eqn:E.
    + assert ((ol_key w d o 1, ol) ∈ kvs) as Hx by (apply Hiff; exists 1; split_and!; (done || lia)). intros ->. set_solver.
    + exfalso. apply (M r Hr). lia.
  - apply sorted_lt_unique in Hsort. rewrite <- (length_fmap fst).
    transitivity (length (ol_key w d o <$> seqZ 1 15)); [|by rewrite length_fmap, length_seqZ].
    apply submseteq_length, NoDup_submseteq; [done|]. intros k ((k' & ol) & -> & Hx)%list_elem_of_fmap.
    apply Hiff in Hx as (l & Hl & -> & _). cbn [fst]. apply list_elem_of_fmap. exists l. split; [done|]. apply elem_of_seqZ. lia.
Qed.
(** The lines of the last twenty orders of a district. *)
Definition recent_line (D : DB) (w d next : Z) (ol : OrderLine) : Prop :=
  exists o l, next - 20 <= o < next /\ 0 <= l < 2 ^ 8 /\ row D TOrderLine (ol_key w d o l) = Some ol.
Lemma recent_lines D w d dr lo kvs : in_wd w d -> district_at D w d dr lo ->
  ranged (ol_key w d (d_next_o_id dr - 20) 1) (ol_key w d (d_next_o_id dr) 1) (tab D TOrderLine : gmap Z OrderLine) kvs ->
  kvs ≠ [] /\ Forall valid_item kvs.*2 /\ forall ol, ol ∈ kvs.*2 <-> recent_line D w d (d_next_o_id dr) ol.
Proof.
  intros Hwd A [Hsort Hin].
  change (forall k ol, (k, ol) ∈ kvs <-> row D TOrderLine k = Some ol /\
    ol_key w d (d_next_o_id dr - 20) 1 <= k < ol_key w d (d_next_o_id dr) 1) in Hin. pose proof (da_next _ _ _ _ _ A) as [_ Hnx]. split; [|split].
  - pose proof (da_order _ _ _ _ _ A (d_next_o_id dr - 1) ltac:(lia)) as K.
    destruct (row D TOrder _) as [r|] eqn:Hr; [|lia].
    pose proof (da_line _ _ _ _ _ A (d_next_o_id dr - 1) 1 ltac:(lia) ltac:(lia)) as M. rewrite Hr in M.
    destruct (row D TOrderLine _) as [ol|] eqn:E; [|exfalso; apply (M r eq_refl); lia].
    assert ((ol_key w d (d_next_o_id dr - 1) 1, ol) ∈ kvs) as Hx; [|intros ->; set_solver].
    apply Hin. split; [done|]. rewrite !ol_key_value by lia || done. lia.
  - apply Forall_forall. intros ol ((k & ol') & -> & Hx)%list_elem_of_fmap. apply Hin in Hx as [Hk Hrange].
    apply ol_key_decode in Hrange as (q & l & -> & Hl & Hq); [|done|lia..].
    pose proof (da_line _ _ _ _ _ A q l ltac:(lia) Hl) as M. rewrite Hk in M. apply M.
  - intros ol. split.
    + intros ((k & ol') & -> & Hx)%list_elem_of_fmap. apply Hin in Hx as [Hk Hrange].
      apply ol_key_decode in Hrange as (q & l & -> & Hl & Hq); [|done|lia..].
      pose proof (da_line _ _ _ _ _ A q l ltac:(lia) Hl) as M. rewrite Hk in M. destruct M as (_ & r & Hr & Hrl).
      pose proof (da_order _ _ _ _ _ A q ltac:(lia)) as K. rewrite Hr in K. destruct K as [K _]. exists q, l. split_and!; (done || lia).
    + intros (o & l & Ho & Hl & Hk). apply list_elem_of_fmap. exists (ol_key w d o l, ol). split; [done|]. apply Hin. split; [done|].
      pose proof (da_line _ _ _ _ _ A o l ltac:(lia) Hl) as M. rewrite Hk in M. destruct M as (_ & r & Hr & Hrl).
      rewrite !ol_key_value by lia || done. lia.
Qed.
Lemma visits_total {A S} (f : A -> S -> outcome S) l s : (forall a s, exists s', f a s = Ok s') -> exists s', visits f l s = Ok s'.
Proof.
  intros Hf. revert s. induction l as [|a l IH]; intros s; simpl; [by eexists|]. destruct (Hf a s) as [s1 ->]. apply IH.
Qed.
End Ranges.

(** ** Range queries in a program *)
Section Queries.
Context `{BuildConfig} `{FloatOps} `{!Machine} `{!Transaction} `{!TransactionLaws}.
Context (c : Config.t).

Lemma held_drop (L : Slots) T e e' : held L e -> keeps_others base handle T e e' -> held (set_tab T None L) e'.
Proof.
  intros HL [_ Hk] T' p' r' h' E. destruct (decide (T = T')) as [<-|Hne].
  - by rewrite tab_set in E.
  - rewrite tab_set_ne in E by done. destruct (HL _ _ _ _ E) as [E1 E2]. destruct (Hk T' p' (not_eq_sym Hne)) as [K1 K2].
    split; [by apply K1|]. destruct E2 as [|E2]; [by left|right]. congruence.
Qed.
Lemma wpx_scan {S A} id a low up (f : OrderLine -> S -> outcome S) s0 kvs s' D C L t w eff U (k : S -> Tx A) (Q : A -> World -> Prop) :
  at_ D C L t w -> (a < Stat.ABORT_DETAILS_SIZE)%nat -> t <= U ->
  ranged low up (tab C TOrderLine : gmap Z OrderLine) kvs -> kvs ≠ [] -> visits f kvs.*2 s0 = Ok s' ->
  (forall w', at_ D C (set_tab TOrderLine None L) t w' -> wpx (k s') Q (ends D eff U) w') ->
  wpx ('(res, s1) ← act (on_engine (range_query S low up f s0)); require c id a res;; k s1) Q (ends D eff U) w.
Proof.
  intros Hw Ha Ht Hr Hne Hv HQ. rewrite <- (at_cur _ _ _ _ _ Hw) in Hr. apply wpx_bind, wpx_act, wp_on_engine.
  eapply wp_mono; [by apply (range_query_law low up f s0 kvs s')|]. intros [res s1] e [Hb Hres].
  destruct res; [|done|eapply wpx_aborted; [done|simpl; rewrite Hb; apply Hw|apply Hw|done]].
  destruct Hres as (Hk & HC & ->). apply wpx_bind. eapply wpx_require; [|done|done|exact HQ].
  eapply at_engine; [exact Hw|done|by rewrite HC; apply Hw|]. eapply held_drop; [apply Hw|done].
Qed.
Lemma wpx_scan_out {A} id a low up f kvs D C L t w eff U (k : unit -> Tx A) (Q : A -> World -> Prop) :
  at_ D C L t w -> (a < Stat.ABORT_DETAILS_SIZE)%nat -> t <= U ->
  ranged low up (tab C TOrderLine : gmap Z OrderLine) kvs -> kvs ≠ [] -> (forall ol o, exists o', f ol o = Ok o') ->
  (forall w', at_ D C (set_tab TOrderLine None L) t w' -> wpx (k tt) Q (ends D eff U) w') ->
  wpx (act (OrderStatusTx.with_out (range_query Z low up f))) (λ res, wpx (require c id a res ≫= k) Q (ends D eff U)) (ends D eff U) w.
Proof.
  intros Hw Ha Ht Hr Hne Hf HQ. rewrite <- (at_cur _ _ _ _ _ Hw) in Hr. apply wpx_act.
  destruct (visits_total f kvs.*2 (out w) Hf) as [o' Ho].
  pose proof (range_query_law low up f (out w) kvs o' (eng w) Hr Ho) as Hq. unfold wp, OrderStatusTx.with_out in *.
  destruct (range_query Z low up f (out w) (eng w)) as [[[res o1] e]|]; [|done]. destruct Hq as [Hb Hres].
  set (w1 := mkWorld e (local w) (stat w) o1 (ticks w)).
  destruct res; [|done|eapply wpx_aborted; [done|simpl; rewrite Hb; apply Hw|apply Hw|done]].
  destruct Hres as (Hk & HC & _). apply wpx_bind. eapply wpx_require; [|done|done|intros w'; apply HQ].
  assert (at_ D C (set_tab TOrderLine None L) t (mkWorld e (local w) (stat w) (out w) (ticks w))) as Hw'.
  { eapply at_engine; [exact Hw|done|by rewrite HC; apply Hw|]. eapply held_drop; [apply Hw|done]. }
  exact (at_tick _ _ _ _ _ (ticks w) o1 Hw').
Qed.
End Queries.

(** ** OrderStatus *)
Section OrderStatus.
Import OrderStatusTx RecordFacts.
Context `{BuildConfig} `{FloatOps} `{!Machine} `{!Transaction} `{!TransactionLaws}.
Context (c : Config.t) (n : Z).

Record orderstatus_input (inp : Input) : Prop := {
  oi_w : 1 <= w_id inp <= n;
  oi_d : 1 <= d_id inp <= 10;
  oi_customer : if by_last_name inp
    then c_id inp = UNUSED_CUSTOMER /\ exists num, 0 <= num < 1000 /\ c_str (c_last inp) = last_name num
    else 1 <= c_id inp <= 3000 }.

Lemma wpx_find inp D L t w eff U (Q : ptr TCustomer -> World -> Prop) : orderstatus_input inp -> consistent n D -> at_ D D L t w -> t <= U ->
  (forall p k r w', row D TCustomer k = Some r -> TpccRecords.c_w_id r = w_id inp -> TpccRecords.c_d_id r = d_id inp ->
     at_ D D (set_tab TCustomer (Some (p, r, None)) L) t w' -> Q p w') ->
  wpx (find_customer c inp) Q (ends D eff U) w.
Proof.
  intros [Hwid Hdid Hcust] HD Hw Ht HQ. destruct (co_districts _ _ HD _ _ Hwid Hdid) as (dr & lo & A).
  unfold find_customer. destruct (by_last_name inp); sx; apply wpx_lift, wpo_assert.
  - apply Z.eqb_eq, Hcust.
  - destruct Hcust as [_ (num & Hnum & Hlast)]. destruct (da_names _ _ _ _ _ A num Hnum) as (k & r & Hr & Ew & Ed & El).
    eapply wpx_by_last_name; [exact Hw|vm_compute; lia|done| |].
    { split; [exact Hr|]. split_and!; [done..|]. unfold same_str. congruence. }
    intros p k' r' w' (Hr' & ? & ? & ?) Hw'. by eapply HQ.
  - apply negb_true_iff, Z.eqb_neq. unfold UNUSED_CUSTOMER. lia.
  - destruct (da_customer _ _ _ _ _ A _ Hcust) as (r & Hr & Ew & Ed & Ec).
    eapply (wpx_get c TCustomer); [exact Hw|vm_compute; lia|done|exact Hr|]. intros p w' Hw'. by eapply HQ.
Qed.
Lemma visit_total ol o : exists o', visit ol o = Ok o'.
Proof. by eexists. Qed.
Lemma orderstatus_run inp D L t w : 1 <= n < 2 ^ 16 -> orderstatus_input inp -> consistent n D -> at_ D D L t w ->
  wp (run c inp) (ends D (λ D', D' = D) t) w.
Proof.
  intros Hn Hin HD Hw. apply wp_run_tx. unfold body.
  destruct (co_districts _ _ HD _ _ (oi_w _ Hin) (oi_d _ Hin)) as (dr & lo & A).
  assert (in_wd (w_id inp) (d_id inp)) as Hwd by (pose proof (oi_w _ Hin); pose proof (oi_d _ Hin); unfold in_wd; lia).
  repeat (cbv zeta; sx). eapply (wpx_find inp D); [done|done|eassumption|lia|].
  intros p k cr w1 Hcr Ew Ed Hw1. destruct (da_ordered _ _ _ _ _ A _ _ Hcr Ew Ed) as (_ & Hcid & o & ro & Ho & Hro & Hoc).
  repeat (cbv zeta; sx).
  pose proof (da_next _ _ _ _ _ A) as [_ Hnx]. pose proof (da_order _ _ _ _ _ A o ltac:(lia)) as K. rewrite Hro in K. destruct K as (_ & E1 & E2 & E3 & _).
  eapply wpx_by_customer; [eassumption|vm_compute; lia|lia|by split_and!|].
  intros po ko ro' w2 (Hro' & F1 & F2 & F3) _ Hw2.
  destruct (co_orders _ _ HD _ _ Hro') as [-> Hoid]. rewrite F1, F2 in Hro'. 
  repeat (cbv zeta; sx). rewrite F1, F2.
  pose proof (da_order _ _ _ _ _ A _ Hoid) as K'. rewrite Hro' in K'. destruct K' as [K' _].
  assert (u32 (o_id ro' + 1) = o_id ro' + 1) as -> by (unfold u32; rewrite Z.mod_small; lia).
  destruct (ranged_exists (OrderLineKey.create_key (w_id inp) (d_id inp) (o_id ro') 1)
    (OrderLineKey.create_key (w_id inp) (d_id inp) (o_id ro' + 1) 1) (tab D TOrderLine : gmap Z OrderLine)) as [kvs Hkvs].
  destruct (order_lines D (w_id inp) (d_id inp) dr lo (o_id ro') ro' kvs) as (Hne & _ & _); [done..|].
  apply (wpx_scan_out c ORDERSTATUS_TX RANGE_GET_ORDERLINE _ _ visit kvs D D) with (t := t)
    (L := set_tab TOrder (Some (po, ro', None)) (set_tab TCustomer (Some (p, cr, None)) L));
    [eassumption|vm_compute; lia|lia|exact Hkvs|exact Hne|exact visit_total|].
  intros w3 Hw3. repeat (cbv zeta; sx). done.
Qed.
End OrderStatus.

(** ** StockLevel *)
Section StockLevel.
Import StockLevelTx RecordFacts.
Context `{BuildConfig} `{FloatOps} `{!Machine} `{!Transaction} `{!TransactionLaws}.
Context (c : Config.t) (n : Z).

Record stocklevel_input (inp : Input) : Prop := {
  si_w : 1 <= w_id inp <= n;
  si_d : 1 <= d_id inp <= 10 }.

Lemma elem_of_set_insert x y l : x ∈ set_insert y l <-> x = y \/ x ∈ l.
Proof.
  induction l as [|z l IH]; simpl; [set_solver|]. destruct (y <? z); [set_solver|]. destruct (Z.eqb_spec y z); set_solver.
Qed.
Lemma set_insert_sorted y l : StronglySorted Z.lt l -> StronglySorted Z.lt (set_insert y l).
Proof.
  induction 1 as [|z l Hs IH Hz]; simpl; [by repeat constructor|]. destruct (Z.ltb_spec y z).
  - constructor; [by constructor|]. constructor; [done|]. eapply Forall_impl; [exact Hz|]. simpl. lia.
  - destruct (Z.eqb_spec y z); [by constructor|]. constructor; [done|]. apply Forall_forall.
    intros x [->|Hx]%elem_of_set_insert; [lia|]. rewrite Forall_forall in Hz. by apply Hz.
Qed.
(** The scan collects the items of the lines, once each, except the unused one. *)
Lemma visit_collects ols : forall s s', visits visit ols s = Ok s' -> StronglySorted Z.lt s -> StronglySorted Z.lt s' /\
  forall x, x ∈ s' <-> x ∈ s \/ x ≠ UNUSED_ITEM /\ exists ol, ol ∈ ols /\ ol_i_id ol = x.
Proof.
  induction ols as [|ol ols IH]; intros s s' E Hs; simpl in E.
  - injection E as <-. split; [done|]. intros x. set_solver.
  - apply IH in E as [Hs' Hin].
    + split; [done|]. intros x. rewrite Hin. case_match eqn:Eu; [apply Z.eqb_eq in Eu|apply Z.eqb_neq in Eu; rewrite elem_of_set_insert];
        setoid_rewrite elem_of_cons; naive_solver.
    + case_match; [done|by apply set_insert_sorted].
Qed.
(** What the loop leaves of the set: the items of low stock. *)
Definition low_stock (inp : Input) (D : DB) (i : Z) : Prop :=
  exists s, row D TStock (s_key (w_id inp) i) = Some s /\ s_quantity s < threshold inp.
Lemma wpx_check inp D t eff U ids : forall L w (Q : list Z -> World -> Prop), stocklevel_input inp -> consistent n D -> at_ D D L t w -> t <= U ->
  Forall (λ i, 1 <= i <= 100000) ids ->
  (forall l L' w', at_ D D L' t w' -> sublist l ids -> (forall i, i ∈ l <-> i ∈ ids /\ low_stock inp D i) -> Q l w') ->
  wpx (check_stocks c inp ids) Q (ends D eff U) w.
Proof.
  induction ids as [|i ids IH]; intros L w Q Hin HD Hw Ht Hids HQ; cbn [check_stocks].
  { apply wpx_ret. eapply HQ; [exact Hw|done|]. set_solver. }
  apply Forall_cons in Hids as [Hi Hids]. destruct (co_stocks _ _ HD _ _ (si_w _ Hin) Hi) as (s & Hs & _).
  sx. sx. do 2 sx. sx. eapply IH; [done|done|eassumption|done|done|]. intros l L' wl Hwl Hsub Hl. sx.
  destruct (Z.leb_spec (threshold inp) (s_quantity s)).
  - eapply HQ; [exact Hwl|by constructor|]. intros x. rewrite Hl, elem_of_cons. split; [naive_solver|].
    intros [[->|?] Hx]; [|done]. destruct Hx as (s' & Hs' & ?). unfold s_key in *. rewrite Hs in Hs'. simplify_eq. lia.
  - eapply HQ; [exact Hwl|by constructor|]. intros x. rewrite !elem_of_cons, Hl. split; [|naive_solver].
    intros [->|[? ?]]; [|naive_solver]. split; [by left|]. by exists s.
Qed.
(** The items counted: those of the last twenty orders whose stock is below the threshold, once each. *)
Definition counted_item (inp : Input) (D : DB) (next i : Z) : Prop :=
  i ≠ UNUSED_ITEM /\ (exists ol, recent_line D (w_id inp) (d_id inp) next ol /\ ol_i_id ol = i) /\ low_stock inp D i.
Lemma sublist_sorted (l ids : list Z) : sublist l ids -> StronglySorted Z.lt ids -> StronglySorted Z.lt l.
Proof.
  induction 1 as [|x l ids Hsub IH|x l ids Hsub IH]; intros Hs; [done|..]; inversion Hs as [|? ? Hs' Hx]; subst; [|by apply IH].
  constructor; [by apply IH|]. rewrite Forall_forall in *. intros y Hy. apply Hx. by eapply elem_of_submseteq, sublist_submseteq.
Qed.
Lemma wpx_low_items inp D L t w eff U dr lo (Q : list Z -> World -> Prop) : 1 <= n < 2 ^ 16 -> stocklevel_input inp -> consistent n D ->
  district_at D (w_id inp) (d_id inp) dr lo -> at_ D D L t w -> t <= U ->
  (forall l L' w', at_ D D L' t w' -> StronglySorted Z.lt l -> (forall i, i ∈ l <-> counted_item inp D (d_next_o_id dr) i) -> Q l w') ->
  wpx (low_items c inp (d_next_o_id dr)) Q (ends D eff U) w.
Proof.
  intros Hn Hin HD A Hw Ht HQ. unfold low_items. cbv zeta.
  assert (in_wd (w_id inp) (d_id inp)) as Hwd by (pose proof (si_w _ Hin); pose proof (si_d _ Hin); unfold in_wd; lia).
  pose proof (da_next _ _ _ _ _ A) as [_ Hnx].
  assert (u32 (d_next_o_id dr - 20) = d_next_o_id dr - 20) as -> by (unfold u32; rewrite Z.mod_small; lia).
  destruct (ranged_exists (OrderLineKey.create_key (w_id inp) (d_id inp) (d_next_o_id dr - 20) 1)
    (OrderLineKey.create_key (w_id inp) (d_id inp) (d_next_o_id dr) 1) (tab D TOrderLine : gmap Z OrderLine)) as [kvs Hkvs].
  destruct (recent_lines D (w_id inp) (d_id inp) dr lo kvs) as (Hne & Hvalid & Hlines); [done..|].
  destruct (visits_total visit kvs.*2 []) as [ids Hids]; [by eexists|].
  eapply wpx_scan; [eassumption|vm_compute; lia|lia|exact Hkvs|exact Hne|exact Hids|].
  intros w1 Hw1. destruct (visit_collects _ _ _ Hids) as [Hsort Hels]; [constructor|].
  eapply wpx_check; [done|done|exact Hw1|lia| |].
  { apply Forall_forall. intros i [?|(_ & ol & Hol & <-)]%Hels; [set_solver|]. rewrite Forall_forall in Hvalid. by apply Hvalid. }
  intros l L' w2 Hw2 Hsub Hl. eapply HQ; [exact Hw2|by eapply sublist_sorted|].
  intros i. rewrite Hl, Hels. unfold counted_item. setoid_rewrite Hlines. set_solver.
Qed.
Lemma stocklevel_run inp D L t w : 1 <= n < 2 ^ 16 -> stocklevel_input inp -> consistent n D -> at_ D D L t w ->
  wp (run c inp) (ends D (λ D', D' = D) t) w.
Proof.
  intros Hn Hin HD Hw. apply wp_run_tx. unfold body.
  destruct (co_districts _ _ HD _ _ (si_w _ Hin) (si_d _ Hin)) as (dr & lo & A). pose proof (da_row _ _ _ _ _ A) as Hdr.
  assert (in_wd (w_id inp) (d_id inp)) as Hwd by (pose proof (si_w _ Hin); pose proof (si_d _ Hin); unfold in_wd; lia).
  pose proof (da_next _ _ _ _ _ A) as [_ Hnx].
  repeat (cbv zeta; sx). eapply wpx_low_items; [done|done|done|exact A|eassumption|lia|].
  intros l L' w2 Hw2 _ _. repeat (cbv zeta; sx). done.
Qed.
End StockLevel.

Section Correct.
Context `{BuildConfig} `{FloatOps} `{!Machine} `{!Transaction} `{!TransactionLaws}.

(** OrderStatus and StockLevel on any engine that keeps the contract: from
    a consistent database they find every row they ask for, commit the
    database they found or abort, and never end in [BUG]. *)
Theorem read_only_profiles c n D L t w : 1 <= n < 2 ^ 16 -> consistent n D -> at_ D D L t w ->
  (forall inp, orderstatus_input n inp -> wp (OrderStatusTx.run c inp) (ends D (λ D', D' = D) t) w) /\
  (forall inp, stocklevel_input n inp -> wp (StockLevelTx.run c inp) (ends D (λ D', D' = D) t) w).
Proof.
  intros Hn HD Hw. split; intros inp Hin; [exact (orderstatus_run c n inp D L t w Hn Hin HD Hw)|exact (stocklevel_run c n inp D L t w Hn Hin HD Hw)].
Qed.

(** C12. What StockLevel counts: exactly the distinct items, other than the
    unused one, of the lines of the district's last twenty orders whose stock
    in the home warehouse is below the threshold. *)
Theorem stock_level_counts c n inp D L t w dr lo : 1 <= n < 2 ^ 16 -> stocklevel_input n inp -> consistent n D -> at_ D D L t w ->
  district_at D (StockLevelTx.w_id inp) (StockLevelTx.d_id inp) dr lo ->
  wpx (StockLevelTx.low_items c inp (d_next_o_id dr))
    (λ l _, StronglySorted Z.lt l /\ forall i, i ∈ l <-> counted_item inp D (d_next_o_id dr) i) (ends D (λ D', D' = D) t) w.
Proof.
  intros Hn Hin HD Hw A. eapply wpx_low_items; [done|done|done|exact A|exact Hw|lia|]. by intros l L' w' _ ? ?.
Qed.
End Correct.
