(* ===== verification/TpccDelivery.v ===== *)
(** * TpccDelivery: Delivery transforms a consistent database as it should

    Delivery takes, in every district of a warehouse, the oldest order that is
    not delivered: its effect, district by district, that the effect keeps the
    database consistent, and the refinement. *)
From S2P Require Import Prelude Random TpccRecords TpccKeys TpccTx TpccProfiles TpccContract TpccConsistency TpccReadOnly.

Section Effect.
Import DeliveryTx.
Context `{FloatOps}.

Record delivery_input (n : Z) (inp : Input) : Prop := {
  di_w : 1 <= w_id inp <= n;
  di_carrier : 1 <= o_carrier_id inp <= 10 }.

(** The lines with a delivery date, and the amount of the order. *)
Definition delivered_lines (kvs kvs' : list (Z * OrderLine)) : Prop :=
  Forall2 (λ kv kv', kv'.1 = kv.1 /\ exists now, kv'.2 = deliver now kv.2) kvs kvs'.
Definition order_total (kvs : list (Z * OrderLine)) : double := foldl (λ t kv, d_add t (ol_amount kv.2)) (d_of_Z 0) kvs.
(** The new orders of a district. *)
Definition undelivered (w d : Z) (D : DB) (k : Z) (r : NewOrder) : Prop :=
  row D TNewOrder k = Some r /\ no_key w d 1 <= k /\ Z.shiftr k 32 = Z.shiftr (no_key w d 1) 32.
(** The profile takes the new order with the smallest key that is not below the
    district's own keys, and does not look at its district: so if a new order
    of a later district exists, the district must have one, too. *)
Definition next_is_own (w d : Z) (D : DB) : Prop :=
  forall k r, no_less_than (no_key w d 1) D k r -> exists k' r', undelivered w d D k' r'.
(** One district: nothing to deliver, or the oldest new order is delivered. *)
Definition district_effect (inp : Input) (d : Z) (D D' : DB) : Prop :=
  let w := w_id inp in
  (forall k r, ~ undelivered w d D k r) /\ D' = D \/
  exists k no o cr kvs kvs',
    undelivered w d D k no /\ (forall k' no', undelivered w d D k' no' -> k <= k') /\
    row D TOrder (o_key w d (no_o_id no)) = Some o /\
    ranged (ol_key w d (no_o_id no) 1) (ol_key w d (no_o_id no + 1) 1) (tab D TOrderLine : gmap Z OrderLine) kvs /\
    delivered_lines kvs kvs' /\
    row D TCustomer (c_key w d (o_c_id o)) = Some cr /\
    D' = upd TCustomer (c_key w d (o_c_id o)) (credit (order_total kvs) cr)
           (upds TOrderLine kvs' (upd TOrder (o_key w d (no_o_id no)) (set_carrier (o_carrier_id inp) o) (del TNewOrder k D))).
(** The districts in turn. *)
Fixpoint steps (R : Z -> DB -> DB -> Prop) (ds : list Z) (D D' : DB) : Prop :=
  match ds with [] => D' = D | d :: ds => exists D1, R d D D1 /\ steps R ds D1 D' end.
Definition delivery_effect (inp : Input) : DB -> DB -> Prop := steps (district_effect inp) (seqZ 1 10).

(** The oldest new order of a consistent district is number [lo]. *)
Lemma oldest_undelivered D w d dr lo k no : in_wd w d -> district_at D w d dr lo -> undelivered w d D k no ->
  (forall k' no', undelivered w d D k' no' -> k <= k') ->
  k = no_key w d lo /\ no = mkNewOrder w d lo /\ lo < d_next_o_id dr.
Proof.
  intros Hwd A (Hk & Hlow & Hpre) Hleast. apply no_key_decode in Hpre as (o & -> & Ho); [|done..].
  pose proof (da_next _ _ _ _ _ A) as [Hlo Hnx]. pose proof (da_neworder _ _ _ _ _ A o ltac:(lia)) as K. rewrite Hk in K.
  case_decide as Hr; [|done]. injection K as ->.
  assert (no_key w d o <= no_key w d lo) as Hle.
  { apply (Hleast _ (mkNewOrder w d lo)). split; [|split].
    - rewrite (da_neworder _ _ _ _ _ A) by lia. by rewrite decide_True by lia.
    - rewrite !no_key_value by lia || done. lia.
    - apply no_key_prefix; [done|lia]. }
  rewrite !no_key_value in Hle by lia || done. assert (o = lo) as -> by lia. split_and!; [done..|lia].
Qed.

(** What the engine finds is the oldest new order of the district. *)
Lemma next_undelivered D w d k no : next_is_own w d D -> no_less_than (no_key w d 1) D k no ->
  (forall k' no', no_less_than (no_key w d 1) D k' no' -> k <= k') ->
  undelivered w d D k no /\ forall k' no', undelivered w d D k' no' -> k <= k'.
Proof.
  intros Hown [Hk Hlow] Hleast. destruct (Hown k no) as (k' & r' & Hk' & Hlow' & Hpre); [by split|].
  assert (k <= k') as Hle by (by apply (Hleast k' r')). split.
  - split_and!; [done|done|]. rewrite !Z.shiftr_div_pow2 in * by lia.
    pose proof (Z.div_le_mono _ _ (2 ^ 32) ltac:(lia) Hlow). pose proof (Z.div_le_mono _ _ (2 ^ 32) ltac:(lia) Hle). lia.
  - intros k2 r2 (Hk2 & Hlow2 & _). by apply (Hleast k2 r2).
Qed.

(** A district's delivery does not touch the new orders of another one. *)
Lemma district_effect_next inp d d' D D' : in_wd (w_id inp) d -> in_wd (w_id inp) d' -> d ≠ d' ->
  district_effect inp d D D' -> next_is_own (w_id inp) d' D -> next_is_own (w_id inp) d' D'.
Proof.
  intros Hwd Hwd' Hne [[_ ->]|(k & no & o & cr & kvs & kvs' & Hk & _ & _ & _ & _ & _ & ->)] Hown; [done|].
  set (D1 := upd TCustomer _ _ _).
  assert (HN : forall x, row D1 TNewOrder x = if decide (k = x) then None else row D TNewOrder x).
  { intros x. unfold D1. rewrite row_upd_tab, row_upds_tab, row_upd_tab by done.
    case_decide as E; [subst; apply row_del|by rewrite row_del_key]. }
  intros x r [Hx Hlow]. rewrite HN in Hx. case_decide; [done|].
  destruct (Hown x r) as (k' & r' & Hk' & Hlow' & Hpre); [by split|]. exists k', r'. split; [|done].
  rewrite HN. case_decide as E; [|done]. exfalso. subst k'. destruct Hk as (_ & _ & Hpre0). rewrite Hpre in Hpre0.
  assert (Hp : forall x, in_wd (w_id inp) x -> Z.shiftr (no_key (w_id inp) x 1) 32 = w_id inp * 2 ^ 8 + x).
  { intros x0 Hx0. rewrite Z.shiftr_div_pow2, no_key_value by (lia || done). symmetry. apply (Z.div_unique _ _ _ 1); lia. }
  rewrite !Hp in Hpre0 by done. lia.
Qed.

(** *** The order lines of the effect *)
Lemma upds_delivered kvs kvs' D D1 : delivered_lines kvs kvs' -> (forall k, row D1 TOrderLine k = row D TOrderLine k) ->
  (forall k ol, (k, ol) ∈ kvs -> row D TOrderLine k = Some ol) ->
  forall k, related (λ a b, b = a \/ exists now, b = deliver now a) (row D TOrderLine k) (row (upds TOrderLine kvs' D1) TOrderLine k).
Proof.
  intros Hd HD Hin k. induction Hd as [|[k1 a] [k2 b] kvs kvs' [E (now & Eb)] Hd IH]; simpl in *; subst.
  - rewrite HD. destruct (row D TOrderLine k); [by left|done].
  - destruct (decide (k1 = k)) as [->|Hne].
    + rewrite row_upd, (Hin k a) by (by left). right. by exists now.
    + rewrite row_upd_key by done. apply IH. intros k' ol Hx. apply Hin. by right.
Qed.
End Effect.

(** *** The effect keeps the database consistent *)
Section Preservation.
Import DeliveryTx.
Context `{FloatOps}.
Context (n : Z) (inp : Input) (Hn : 1 <= n < 2 ^ 16) (Hin : delivery_input n inp) (d : Z) (Hd : 1 <= d <= 10).

(** Without the customer's credit: the order [o] of number [lo] is delivered. *)
Definition order_delivered (lo : Z) (o : Order) (kvs' : list (Z * OrderLine)) (D : DB) : DB :=
  upds TOrderLine kvs' (upd TOrder (o_key (w_id inp) d lo) (set_carrier (o_carrier_id inp) o) (del TNewOrder (no_key (w_id inp) d lo) D)).

Lemma delivery_in_wd : in_wd (w_id inp) d.
Proof. pose proof (di_w _ _ Hin). unfold in_wd. lia. Qed.
Lemma od_order lo o kvs' D k : row (order_delivered lo o kvs' D) TOrder k =
  if decide (o_key (w_id inp) d lo = k) then Some (set_carrier (o_carrier_id inp) o) else row D TOrder k.
Proof.
  unfold order_delivered. rewrite row_upds_tab by done. case_decide as E; [subst; apply (row_upd TOrder)|].
  by rewrite row_upd_key, row_del_tab.
Qed.
Lemma od_neworder lo o kvs' D k : row (order_delivered lo o kvs' D) TNewOrder k =
  if decide (no_key (w_id inp) d lo = k) then None else row D TNewOrder k.
Proof.
  unfold order_delivered. rewrite row_upds_tab, row_upd_tab by done. case_decide as E; [subst; apply row_del|]. by rewrite row_del_key.
Qed.
Lemma od_other T lo o kvs' D k : T ≠ TOrder -> T ≠ TNewOrder -> T ≠ TOrderLine -> row (order_delivered lo o kvs' D) T k = row D T k.
Proof. intros. unfold order_delivered. by rewrite row_upds_tab, row_upd_tab, row_del_tab. Qed.
Lemma od_line lo o kvs kvs' D k : delivered_lines kvs kvs' ->
  ranged (ol_key (w_id inp) d lo 1) (ol_key (w_id inp) d (lo + 1) 1) (tab D TOrderLine : gmap Z OrderLine) kvs ->
  related (λ a b, b = a \/ exists now, b = deliver now a) (row D TOrderLine k) (row (order_delivered lo o kvs' D) TOrderLine k).
Proof.
  intros Hk [_ Hr]. eapply upds_delivered; [exact Hk|intros; by rewrite row_upd_tab, row_del_tab|]. intros k' ol Hx. by apply Hr in Hx as [? _].
Qed.

Lemma delivered_consistent lo o dr kvs kvs' D : consistent n D -> district_at D (w_id inp) d dr lo -> lo < d_next_o_id dr ->
  row D TOrder (o_key (w_id inp) d lo) = Some o -> delivered_lines kvs kvs' ->
  ranged (ol_key (w_id inp) d lo 1) (ol_key (w_id inp) d (lo + 1) 1) (tab D TOrderLine : gmap Z OrderLine) kvs ->
  consistent n (order_delivered lo o kvs' D).
Proof.
  intros HD A Hlt Ho Hdl Hr. pose proof delivery_in_wd as Hwd. pose proof (da_next _ _ _ _ _ A) as [Hlo Hnx].
  pose proof (od_line lo o kvs kvs' D) as HL. specialize (fun k => HL k Hdl Hr).
  assert (forall k r, row (order_delivered lo o kvs' D) TOrder k = Some r -> exists r0, row D TOrder k = Some r0 /\
    o_w_id r = o_w_id r0 /\ o_d_id r = o_d_id r0 /\ o_id r = o_id r0 /\ o_c_id r = o_c_id r0 /\ o_ol_cnt r = o_ol_cnt r0) as Hback.
  { intros k r. rewrite od_order. case_decide; [|by intros ?; exists r]. intros [= <-]. subst. by exists o. }
  assert (forall k r0, row D TOrder k = Some r0 -> exists r, row (order_delivered lo o kvs' D) TOrder k = Some r /\
    o_c_id r = o_c_id r0 /\ o_ol_cnt r = o_ol_cnt r0) as Hforth.
  { intros k r0 Hr0. rewrite od_order. case_decide; [|by exists r0]. subst. rewrite Ho in Hr0. injection Hr0 as <-. by eexists. }
  assert (forall w' d' dr' lo' o' l, in_wd w' d' -> district_at D w' d' dr' lo' -> 0 <= o' < 2 ^ 32 -> 0 <= l < 2 ^ 8 ->
    match row (order_delivered lo o kvs' D) TOrderLine (ol_key w' d' o' l) with
    | Some ol => valid_item ol /\ exists r, row (order_delivered lo o kvs' D) TOrder (o_key w' d' o') = Some r /\ 1 <= l <= o_ol_cnt r
    | None => forall r, row (order_delivered lo o kvs' D) TOrder (o_key w' d' o') = Some r -> ~ 1 <= l <= o_ol_cnt r
    end) as Hlines.
  { intros w' d' dr' lo' o' l Hw' A' Ho' Hl. pose proof (da_line _ _ _ _ _ A' o' l Ho' Hl) as K. specialize (HL (ol_key w' d' o' l)).
    destruct (row D TOrderLine _) as [a|], (row (order_delivered _ _ _ _) TOrderLine _) as [b|]; try done.
    - destruct K as (Hv & r & Hr' & Hl'). split; [destruct HL as [->|(now & ->)]; exact Hv|].
      destruct (Hforth _ _ Hr') as (r1 & Hr1 & _ & Ecnt). exists r1. by rewrite Ecnt.
    - intros r Hr'. destruct (Hback _ _ Hr') as (r0 & Hr0 & _ & _ & _ & _ & ->). by apply K. }
  constructor.
  - intros i Hi. rewrite od_other by done. by apply (co_items n).
  - intros w' Hw'. rewrite od_other by done. by apply (co_warehouses n).
  - intros w' i Hw' Hi. rewrite od_other by done. by apply (co_stocks n).
  - intros k r. rewrite od_other by done. apply HD.
  - intros k r Hr'. destruct (Hback _ _ Hr') as (r0 & Hr0 & E1 & E2 & E3 & _). rewrite E1, E2, E3. by apply HD.
  - intros w' d' Hw' Hd'. destruct (co_districts _ _ HD w' d' Hw' Hd') as (dr' & lo' & A').
    assert (in_wd w' d') as Hwd' by (unfold in_wd; lia).
    assert (exists dr1 lo1 lo2, district_at D w' d' dr1 lo1 /\ lo1 <= lo2 <= d_next_o_id dr1 /\
      forall o', 0 <= o' < 2 ^ 32 -> lo1 <= o' < lo2 <-> (w', d', o') = (w_id inp, d, lo)) as (dr1 & lo1 & lo2 & A1 & Hlo2 & Hiff).
    { destruct (decide ((w', d') = (w_id inp, d))) as [[= -> ->]|Hne].
      - exists dr, lo, (lo + 1). split_and!; [done|lia|lia|]. intros o' _. split; [intros ?; do 2 f_equal; lia|intros [= ->]; lia].
      - exists dr', lo', lo'. split_and!; [done|lia|apply A'|]. intros o' _. split; [lia|intros [= -> -> ->]; done]. }
    pose proof (da_next _ _ _ _ _ A1) as [Hlo1 Hnx1]. pose proof (di_carrier _ _ Hin) as Hcar. exists dr1, lo2. constructor.
    + rewrite od_other by done. apply A1.
    + apply A1.
    + lia.
    + intros o' Ho'. rewrite od_order. pose proof (da_order _ _ _ _ _ A1 o' Ho') as K. specialize (Hiff o' Ho').
      destruct (decide (o_key (w_id inp) d lo = o_key w' d' o')) as [E|E].
      * apply o_key_inj in E as (<- & <- & <-); [|done|lia|done|done]. rewrite Ho in K. destruct Hiff as [_ Hiff]. specialize (Hiff eq_refl).
        destruct K as (K1 & K2 & K3 & K4 & K5 & K6 & K7). simpl. split_and!; (done || lia).
      * destruct (row D TOrder (o_key w' d' o')) as [r|]; [|done]. destruct K as (K1 & K2 & K3 & K4 & K5 & K6 & K7). split_and!; try done; try lia. split.
        -- intros Hc. apply K7 in Hc. destruct (decide (lo2 <= o')); [done|]. destruct E. destruct Hiff as [Hiff _].
           assert ((w', d', o') = (w_id inp, d, lo)) as [= -> -> ->] by (apply Hiff; lia). done.
        -- intros Hc. apply K7. lia.
    + intros o' Ho'. rewrite od_neworder. pose proof (da_neworder _ _ _ _ _ A1 o' Ho') as K. specialize (Hiff o' Ho'). destruct (decide (no_key (w_id inp) d lo = no_key w' d' o')) as [E|E].
      * apply no_key_inj in E as (<- & <- & <-); [|done|lia|done|done]. destruct Hiff as [_ Hiff]. specialize (Hiff eq_refl).
        by rewrite decide_False by lia.
      * rewrite K. destruct (decide (lo1 <= o' < lo2)) as [Hx|Hx].
        -- apply Hiff in Hx as [= -> -> ->]. done.
        -- repeat case_decide; (done || lia).
    + intros o' l Ho' Hl. by eapply Hlines.
    + intros cid Hcid. rewrite od_other by done. by apply (da_customer _ _ _ _ _ A1).
    + intros k r. rewrite od_other by done. intros Hr' Hw2 Hd2. destruct (da_ordered _ _ _ _ _ A1 k r Hr' Hw2 Hd2) as (? & ? & o' & ro & Ho' & Hro & Hid).
      split_and!; [done|lia..|]. destruct (Hforth _ _ Hro) as (r1 & Hr1 & E1 & _). exists o', r1. rewrite E1. split_and!; (done || lia).
    + intros num Hnum. destruct (da_names _ _ _ _ _ A1 num Hnum) as (k & r & Hr' & Hrest). exists k, r. by rewrite od_other.
Qed.
Lemma district_effect_consistent D D' : consistent n D -> district_effect inp d D D' -> consistent n D'.
Proof.
  intros HD [[_ ->]|(k & no & o & cr & kvs & kvs' & Hk & Hleast & Ho & Hr & Hdl & Hcr & ->)]; [done|].
  destruct (co_districts _ _ HD _ _ (di_w _ _ Hin) Hd) as (dr & lo & A).
  destruct (oldest_undelivered _ _ _ _ _ _ _ delivery_in_wd A Hk Hleast) as (-> & -> & Hlt). simpl in Ho, Hr.
  change (upds TOrderLine kvs' _) with (order_delivered lo o kvs' D).
  eapply harmless_consistent; [eapply harmless_customer; [by rewrite od_other|]|by eapply delivered_consistent].
  unfold same_person. by split_and!.
Qed.
End Preservation.

Lemma delivery_consistent `{FloatOps} n inp D D' : 1 <= n < 2 ^ 16 -> delivery_input n inp -> consistent n D ->
  delivery_effect inp D D' -> consistent n D'.
Proof.
  intros Hn Hin. unfold delivery_effect. assert (Forall (λ d, 1 <= d <= 10) (seqZ 1 10)) as Hds.
  { apply Forall_forall. intros d Hd%elem_of_seqZ. lia. }
  revert D. induction Hds as [|d ds Hd _ IH]; intros D HD; simpl; [by intros ->|].
  intros (D1 & H1 & H2). eapply IH; [|exact H2]. eapply district_effect_consistent; [exact Hn|exact Hin|exact Hd|exact HD|exact H1].
Qed.

(** ** The run refines the effect *)
Section Run.
Import DeliveryTx.
Context `{BuildConfig} `{FloatOps} `{!Machine} `{!Transaction} `{!TransactionLaws}.
Context (c : Config.t) (n : Z).

Lemma visit_ok ol tot l : timestamp l < 2 ^ 63 - 1 ->
  visit ol (tot, l) = Ok (deliver (timestamp l) ol, (d_add tot (ol_amount ol), mkLocal (rand l) (timestamp l + 1))).
Proof. intros Hl. unfold visit, get_timestamp. cbn [snd]. by rewrite (proj2 (Z.eqb_neq _ _)) by lia. Qed.
Lemma rewrites_visit kvs : forall tot l, timestamp l + Z.of_nat (length kvs) <= 2 ^ 63 - 1 ->
  exists kvs' l', rewrites visit kvs (tot, l) = Ok (kvs', (foldl (λ t kv, d_add t (ol_amount kv.2)) tot kvs, l')) /\
    delivered_lines kvs kvs' /\ rand l' = rand l /\ timestamp l' = timestamp l + Z.of_nat (length kvs).
Proof.
  induction kvs as [|[k ol] kvs IH]; intros tot l Hl; cbn [length] in Hl.
  - exists [], l. split_and!; [done|constructor|done|simpl; lia].
  - cbn [rewrites]. rewrite visit_ok by lia. simpl.
    destruct (IH (d_add tot (ol_amount ol)) (mkLocal (rand l) (timestamp l + 1))) as (kvs' & l' & E & Hd & Hr & Ht); [simpl; lia|].
    rewrite E. simpl. eexists _, l'. split; [done|]. split_and!; [|done|simpl in Ht; lia].
    constructor; [|done]. split; [done|]. by eexists.
Qed.
Lemma good_rewrites kvs m tot l kvs1 tot1 l1 : rewrites visit (take m kvs) (tot, l) = Ok (kvs1, (tot1, l1)) ->
  timestamp l + Z.of_nat (length kvs) <= 2 ^ 63 - 1 -> rand l1 = rand l /\ timestamp l1 <= timestamp l + Z.of_nat (length kvs).
Proof.
  intros E Hl. destruct (rewrites_visit (take m kvs) tot l) as (kvs' & l' & E' & _ & Hr & Ht); [rewrite length_take; lia|].
  rewrite E in E'. simplify_eq. split; [done|]. rewrite Ht, length_take. lia.
Qed.

Lemma wpx_deliver_lines {A} a low up kvs D C L t w eff U (k : double -> Tx A) (Q : A -> World -> Prop) :
  at_ D C L t w -> (a < Stat.ABORT_DETAILS_SIZE)%nat -> t + 15 <= U -> t + 15 <= 2 ^ 63 - 1 -> (length kvs <= 15)%nat ->
  ranged low up (tab C TOrderLine : gmap Z OrderLine) kvs -> kvs ≠ [] ->
  (forall kvs' w', delivered_lines kvs kvs' -> at_ D (upds TOrderLine kvs' C) (set_tab TOrderLine None L) (t + 15) w' ->
     wpx (k (order_total kvs)) Q (ends D eff U) w') ->
  wpx (act (with_local (λ l, range_update (double * Local) low up visit (d_of_Z 0, l))))
    (λ p, wpx (let '(res, total) := p in require c DELIVERY_TX a res;; k total) Q (ends D eff U)) (ends D eff U) w.
Proof.
  intros Hw Ha HU Ht Hlen Hr Hne HQ. rewrite <- (at_cur _ _ _ _ _ Hw) in Hr. apply wpx_act.
  destruct (at_good _ _ _ _ _ Hw) as (Hwf & Hts & Hst).
  destruct (rewrites_visit kvs (d_of_Z 0) (local w)) as (kvs' & l' & E & Hdl & Hrand & Hts'); [lia|].
  pose proof (range_update_law low up visit (d_of_Z 0, local w) kvs kvs' _ (eng w) Hr E) as Hq. unfold wp, with_local in *.
  destruct (range_update _ low up visit _ (eng w)) as [[[res [tot l1]] e]|]; [|done]. destruct Hq as [Hb Hres].
  assert (res = Result.SUCCESS \/ res = Result.ABORT) as [->| ->] by (destruct res; (done || auto)).
  - destruct Hres as (Hk & HC & [= -> ->]). apply wpx_bind. eapply (wpx_require _ _ _ _ _ _ (t + 15)); [|done|lia|intros w'; by apply HQ].
    assert (at_ D (upds TOrderLine kvs' C) (set_tab TOrderLine None L) t (mkWorld e (local w) (stat w) (out w) (ticks w))) as Hw'.
    { eapply at_engine; [exact Hw|done|by rewrite HC, (at_cur _ _ _ _ _ Hw)|]. eapply held_drop; [apply Hw|done]. }
    refine (at_local _ _ _ _ _ _ l' Hw' _ _); [by rewrite Hrand|rewrite Hts'; lia].
  - destruct Hres as (m & kvs1 & E1). destruct (good_rewrites _ _ _ _ _ _ _ E1) as [Hr1 Ht1]; [lia|].
    eapply (wpx_aborted _ _ _ (t + 15)); [done|simpl; rewrite Hb; apply Hw| |lia]. split_and!; simpl; [by rewrite Hr1|lia|done].
Qed.

Lemma wpx_district inp d D C L t w eff U (Q : unit -> World -> Prop) : 1 <= n < 2 ^ 16 -> delivery_input n inp -> 1 <= d <= 10 ->
  consistent n C -> next_is_own (w_id inp) d C -> at_ D C L t w -> t + 15 <= U -> U <= 2 ^ 63 - 1 ->
  (forall C' L' w', district_effect inp d C C' -> at_ D C' L' (t + 15) w' -> Q tt w') ->
  wpx (district c inp d) Q (ends D eff U) w.
Proof.
  intros Hn Hin Hd HC Hown Hw HU Hmax HQ. unfold district. apply wpx_bind, wpx_act, wp_on_engine.
  assert (in_wd (w_id inp) d) as Hwd by (pose proof (di_w _ _ Hin); unfold in_wd; lia).
  destruct (co_districts _ _ HC _ _ (di_w _ _ Hin) Hd) as (dr & lo & A). pose proof (da_next _ _ _ _ _ A) as [Hlo Hnx].
  eapply wp_mono; [apply smallest_neworder_law|]. intros [res p] e [Hb Hres].
  assert (forall w', at_ D C (set_tab TNewOrder None L) t w' -> at_ D C (set_tab TNewOrder None L) (t + 15) w') as Hmono.
  { intros w' []. constructor; [done..|]. eapply good_mono; [done|lia]. }
  destruct res.
  - destruct Hres as (Hk & Hcur & k & no & Hp & Hl & Hleast). rewrite (at_cur _ _ _ _ _ Hw) in Hcur, Hp. setoid_rewrite (at_cur _ _ _ _ _ Hw) in Hleast.
    destruct (next_undelivered _ _ _ _ _ Hown Hp Hleast) as [Hp' Hleast']. clear Hp Hleast. rename Hp' into Hp, Hleast' into Hleast.
    destruct (oldest_undelivered _ _ _ _ _ _ _ Hwd A Hp Hleast) as (Ek & Eno & Hlt). pose proof Hp as (Hno & _). rewrite Ek, Eno in *.
    pose proof (da_order _ _ _ _ _ A lo ltac:(lia)) as K. destruct (row C TOrder (o_key (w_id inp) d lo)) as [o|] eqn:Ho; [|lia].
    destruct K as (_ & Ew & Ed & Eo & Hcid & Hcnt & _). destruct (da_customer _ _ _ _ _ A _ Hcid) as (cr & Hcr & _).
    destruct (ranged_exists (ol_key (w_id inp) d lo 1) (ol_key (w_id inp) d (lo + 1) 1) (tab C TOrderLine : gmap Z OrderLine)) as [kvs Hkvs].
    destruct (order_lines C (w_id inp) d dr lo lo o kvs) as (Hne & Hlen & _); [done|done|lia|done|done|].
    apply wpx_bind. eapply (wpx_require _ _ _ D C (set_tab TNewOrder (Some (p, mkNewOrder (w_id inp) d lo, None)) L) t); [|vm_compute; lia|lia|].
    { eapply at_engine; [exact Hw|done|done|].
      eapply held_set; [apply Hw|done|done|by left]. }
    intros w1 Hw1. repeat (cbv zeta; sx); [by rewrite row_del_tab|]. repeat (cbv zeta; sx). simpl. rewrite Ew, Ed, Eo.
    assert (u32 (lo + 1) = lo + 1) as -> by (unfold u32; rewrite Z.mod_small; lia).
    eapply wpx_deliver_lines; [eassumption|vm_compute; lia|lia|lia|exact Hlen| |exact Hne|].
    { rewrite tab_upd_ne, tab_del_ne by done. exact Hkvs. }
    intros kvs' w2 Hdl Hw2. repeat (cbv zeta; sx).
    { rewrite row_upds_tab, row_upd_tab, row_del_tab by done. exact Hcr. }
    repeat (cbv zeta; sx). eapply HQ; [|eassumption].
    right. exists (no_key (w_id inp) d lo), (mkNewOrder (w_id inp) d lo), o, cr, kvs, kvs'. by split_and!.
  - destruct Hres as (Hk & Hcur & Hnone). rewrite (at_cur _ _ _ _ _ Hw) in *. apply wpx_ret. eapply HQ; [left; split; [|reflexivity]|].
    { intros k r (Hk1 & Hk2 & _). by apply (Hnone k r). }
    apply Hmono. eapply at_engine; [exact Hw|done|done|]. eapply held_drop; [apply Hw|done].
  - eapply (wpx_aborted _ _ _ t); [vm_compute; lia|simpl; rewrite Hb; apply Hw|apply Hw|lia].
Qed.

Lemma wpx_districts inp D eff U ds : forall C L t w (Q : unit -> World -> Prop), 1 <= n < 2 ^ 16 -> delivery_input n inp ->
  Forall (λ d, 1 <= d <= 10) ds -> NoDup ds -> consistent n C -> (forall d, d ∈ ds -> next_is_own (w_id inp) d C) -> at_ D C L t w -> t + 15 * Z.of_nat (length ds) <= U -> U <= 2 ^ 63 - 1 ->
  (forall C' L' w', steps (district_effect inp) ds C C' -> at_ D C' L' (t + 15 * Z.of_nat (length ds)) w' -> Q tt w') ->
  wpx (each ds (district c inp)) Q (ends D eff U) w.
Proof.
  induction ds as [|d ds IH]; intros C L t w Q Hn Hin Hds Hnd HC Hown Hw HU Hmax HQ; cbn [each length] in *.
  { apply wpx_ret. eapply HQ; [done|]. by replace (t + 15 * Z.of_nat 0) with t by lia. }
  apply Forall_cons in Hds as [Hd Hds]. apply NoDup_cons in Hnd as [Hdd Hnd]. apply wpx_bind.
  eapply wpx_district; [done|done|exact Hd|exact HC|apply Hown; by left|exact Hw|lia|lia|]. intros C1 L1 w1 He Hw1.
  pose proof (di_w _ _ Hin) as Hwid.
  eapply IH; [done|done|done|done|by eapply district_effect_consistent| |exact Hw1|lia|lia|].
  { intros d' Hd'. rewrite Forall_forall in Hds. specialize (Hds d' Hd').
    eapply district_effect_next; [..|exact He|apply Hown; by right]; [unfold in_wd; lia..|]. by intros ->. }
  intros C2 L2 w2 He2 Hw2. eapply HQ; [by exists C1|].
  by replace (t + 15 * Z.of_nat (S (length ds))) with (t + 15 + 15 * Z.of_nat (length ds)) by lia.
Qed.
Lemma delivery_run inp D L t w : 1 <= n < 2 ^ 16 -> delivery_input n inp -> consistent n D ->
  (forall d, 1 <= d <= 10 -> next_is_own (w_id inp) d D) -> at_ D D L t w -> t + 150 <= 2 ^ 63 - 1 ->
  wp (run c inp) (ends D (delivery_effect inp D) (t + 150)) w.
Proof.
  intros Hn Hin HD Hown Hw Ht. apply wp_run_tx. unfold body. repeat (cbv zeta; sx).
  eapply wpx_districts; [done|done| |apply NoDup_seqZ|exact HD| |eassumption|simpl; lia|lia|].
  2:{ intros d Hd%elem_of_seqZ. unfold DISTS_PER_WARE in Hd. apply Hown. lia. }
  { apply Forall_forall. intros d Hd%elem_of_seqZ. unfold DISTS_PER_WARE in Hd. lia. }
  intros C' L' w1 He Hw1. change (Z.of_nat (length (seqZ 1 DISTS_PER_WARE))) with 10 in Hw1. replace (t + 15 * 10) with (t + 150) in Hw1 by lia.
  repeat (cbv zeta; sx). exact He.
Qed.

(** C10. Delivery on any engine that keeps the contract, where the search for a
    new order goes through the whole table from a key on: from a consistent
    database in which no district of the warehouse is out of new orders while a
    later one has some ([next_is_own]; the code would deliver the later one's),
    it either commits, in every district that has one, the delivery of exactly
    its oldest new order (the new-order row goes, the order gets the carrier,
    every line of it and no other a delivery date, the customer the total of the
    lines) and leaves the database consistent, or aborts; it never ends in [BUG]. *)
Theorem delivery_refines_effect inp D L t w : 1 <= n < 2 ^ 16 -> delivery_input n inp -> consistent n D ->
  (forall d, 1 <= d <= 10 -> next_is_own (w_id inp) d D) -> at_ D D L t w ->
  t + 150 <= 2 ^ 63 - 1 ->
  wp (run c inp) (ends D (λ D', delivery_effect inp D D' /\ consistent n D') (t + 150)) w.
Proof.
  intros Hn Hin HD Hown Hw Ht. eapply wp_mono; [apply (delivery_run inp D L t w Hn Hin HD Hown Hw Ht)|]. intros s w' He.
  eapply ends_mono; [exact He|lia|]. intros D' HE. split; [done|]. by eapply delivery_consistent.
Qed.
End Run.
