(* ===== verification/TpccRunner.v ===== *)
(** * TpccRunner: a TPC-C worker runs transactions from start to end

    [tx_runner.hpp] over the five profiles: what their [generate]s draw is
    what the refinements of the profiles need, so [run] refines the effect of
    the profile it is instantiated with, and [run_with_retry] commits it, rolls
    it back, or is aborted by the engine at every attempt.  The one loop of the
    source that may not end, the draw of a remote warehouse, ends as soon as
    one of its draws is not the home warehouse. *)
From S2P Require Import Prelude Random TpccRecords TpccKeys TpccTx TpccProfiles TpccStat TpccContract TpccConsistency TpccNewOrder TpccPayment TpccReadOnly TpccDelivery.

(** ** Programs with a bounded loop *)

(** [m] returns with [Q]; if a bound of the model is reached, [P]. *)
Definition wpf {S A} (P : Prop) (m : M S A) (Q : A -> S -> Prop) (s : S) : Prop :=
  match m s with Ok (a, s') => Q a s' | Err OutOfFuel => P | Err _ => False end.
Section Bounded.
Context {S : Type} (P : Prop).
Lemma wpf_wp {A} (m : M S A) Q s : wp m Q s -> wpf P m Q s.
Proof. unfold wp, wpf. by destruct (m s) as [[]|[]]. Qed.
Lemma wpf_ret {A} (a : A) Q (s : S) : Q a s -> wpf P (mret a) Q s.
Proof. done. Qed.
Lemma wpf_bind {A B} (m : M S A) (f : A -> M S B) Q s : wpf P m (λ a, wpf P (f a) Q) s -> wpf P (m ≫= f) Q s.
Proof. unfold wpf, mbind, M_bind. by destruct (m s) as [[]|[]]. Qed.
Lemma wpf_mono {A} (m : M S A) Q Q' s : wpf P m Q s -> (forall a s', Q a s' -> Q' a s') -> wpf P m Q' s.
Proof. unfold wpf. destruct (m s) as [[]|[]]; auto. Qed.
(** A step that cannot run out of its bound. *)
Lemma wpf_step {A B} (m : M S A) (f : A -> M S B) Q s : wp m (λ a, wpf P (f a) Q) s -> wpf P (m ≫= f) Q s.
Proof. intros Hm. by apply wpf_bind, wpf_wp. Qed.
Lemma wpf_lift {A} (o : outcome A) Q (s : S) : wpo o (λ a, Q a s) -> wpf P (lift o) Q s.
Proof. intros. by apply wpf_wp, wp_lift. Qed.
(** [I k]: the state before element number [k]. *)
Lemma wpf_forM {A B} (l : list A) (f : A -> M S B) (I : nat -> S -> Prop) (R : A -> B -> Prop) (Q : list B -> S -> Prop) s :
  I O s -> (forall k x s, l !! k = Some x -> I k s -> wpf P (f x) (λ y s', R x y /\ I (Datatypes.S k) s') s) ->
  (forall ys s', Forall2 R l ys -> I (length l) s' -> Q ys s') -> wpf P (forM l f) Q s.
Proof.
  revert I Q s. induction l as [|x l IH]; intros I Q s HI Hf HQ; simpl; [by apply wpf_ret, HQ|].
  apply wpf_bind. eapply wpf_mono; [by apply (Hf O x)|]. intros y s1 [Hy HI1]. apply wpf_bind, (IH (λ k, I (Datatypes.S k))); [done| |].
  - intros k x' s' Hk. by apply (Hf (Datatypes.S k)).
  - intros ys s2 Hys HI2. apply wpf_ret, HQ; [by constructor|done].
Qed.
Lemma wpf_weaken (P' : Prop) {A} (m : M S A) Q s : (P -> P') -> wpf P m Q s -> wpf P' m Q s.
Proof. unfold wpf. destruct (m s) as [[]|[]]; auto. Qed.
End Bounded.

(** ** What the profiles generate *)
Section Generate.
Import Xoshiro256PlusPlus XoshiroFacts RecordFacts.
Context `{BuildConfig} `{FloatOps} `{!Machine} `{!MachineLaws}.
Context (c : Config.t) (spins : nat).
#[local] Abbreviation n := (Config.num_warehouses c).
Context (Hn : 1 <= n < 2 ^ 16).

(** The next [k] draws of a warehouse are all [w]. *)
Fixpoint only_home (k : nat) (w : Z) (l : Local) : Prop :=
  match k with
  | O => True
  | S k => match urand 1 n l with Ok (r, l') => u16 r = w /\ only_home k w l' | Err _ => False end
  end.
(** The generator has gone at most [k] steps from [origin]. *)
Definition reaches (k : N) (origin l : Local) : Prop :=
  wf (rand l) /\ exists j, (j <= k)%N /\ rand l = advance j (rand origin).
(** The calls of the generator in a run: one for the warehouse, at most six for
    the head of an order, and for each line one of a quantity, two of an item
    and at most [spins] of a remote warehouse. *)
Definition draws : N := 7 + 15 * (3 + N.of_nat spins).
(** Within its first [draws] calls from [origin] the generator comes to a state
    from which [spins] draws of a warehouse all yield [w]. *)
Definition unlucky (w : Z) (origin : Local) : Prop := 1 < n /\ exists l, reaches draws origin l /\ only_home spins w l.

Lemma u16_id z : 0 <= z < 2 ^ 16 -> u16 z = z.
Proof. intros. unfold u16. by rewrite Z.mod_small. Qed.
Lemma reaches_refl l : wf (rand l) -> reaches 0 l l.
Proof. intros Hl. split; [done|]. by exists 0%N. Qed.
Lemma reaches_mono k k' a l : reaches k a l -> (k <= k')%N -> reaches k' a l.
Proof. intros (Hl & j & Hj & E) Hk. split; [done|]. exists j. split; [lia|done]. Qed.
Lemma reaches_trans k k' a l l' : reaches k a l -> reaches k' l l' -> reaches (k + k') a l'.
Proof.
  intros (_ & j & Hj & E) (Hl & j' & Hj' & E'). split; [done|]. exists (j' + j)%N. split; [lia|]. by rewrite advance_add, <- E.
Qed.
Lemma urand_from a b l v l' : wf (rand l) -> urand a b l = Ok (v, l') -> reaches 1 l l'.
Proof.
  intros Hl. unfold urand, with_rand, urand_int. destruct (next (rand l)) as [r g] eqn:En. destruct (_ =? 0); [done|]. intros [= <- <-].
  assert (g = step (rand l)) as Hg by (unfold step; by rewrite En). split; simpl; [rewrite Hg; by apply wf_step|]. by exists 1%N.
Qed.
Lemma wp_and {S A} (m : M S A) (Q : A -> S -> Prop) (R : S -> Prop) s :
  (forall a s', m s = Ok (a, s') -> R s') -> wp m (λ a s', R s' -> Q a s') s -> wp m Q s.
Proof. unfold wp. destruct (m s) as [[a s']|]; [|done]. intros HR HQ. apply HQ. by eapply HR. Qed.
Lemma nurand_from A x y l v l' : wf (rand l) -> nurand_int A false x y l = Ok (v, l') -> reaches 2 l l'.
Proof.
  intros Hl. unfold nurand_int. destruct (_ =? _); [done|]. intros (a & l1 & E1 & (b & l2 & E2 & E3)%bindM_inv)%bindM_inv.
  apply urand_from in E1; [|done]. apply urand_from in E2; [|by destruct E1].
  destruct (_ =? 0); [done|]. injection E3 as _ <-. by apply (reaches_trans 1 1 _ l1).
Qed.
Lemma remote_spec k w l : wf (rand l) ->
  wpf (only_home k w l) (remote_warehouse c k w) (λ r l', 1 <= r <= n /\ r ≠ w /\ reaches (N.of_nat k) l l' /\ timestamp l' = timestamp l) l.
Proof.
  revert l. induction k as [|k IH]; intros l Hl; [done|]. cbn [remote_warehouse only_home].
  assert (wp (urand 1 n) (λ r l', 1 <= r <= n /\ reaches 1 l l' /\ timestamp l' = timestamp l) l) as Hu.
  { eapply (wp_and _ _ (reaches 1 l)); [intros a s'; by apply urand_from|]. apply wp_urand; [done|lia..|]. auto. }
  unfold wpf, mbind, M_bind. unfold wp in Hu. destruct (urand 1 n l) as [[r l1]|]; [|done]. destruct Hu as (Hr & Hl1 & Ht).
  rewrite !u16_id by lia. destruct (Z.eqb_spec r w) as [->|Hne].
  2: { cbn. split_and!; try (done || lia). eapply reaches_mono; [done|lia]. }
  specialize (IH l1 (proj1 Hl1)). unfold wpf in IH. destruct (remote_warehouse c k w l1) as [[r' l2]|[]]; try done.
  destruct IH as (? & ? & Hl2 & ?). split_and!; try (done || lia || congruence).
  eapply reaches_mono; [by eapply reaches_trans|lia].
Qed.

(** *** What the constructors draw *)

(** Line [i] of an order: the item of the last line of an order that is to be
    rolled back is the unused one; a remote order has remote lines only. *)
Definition line_drawn (inp : NewOrderTx.Input) (i : Z) (line : NewOrderTx.Line) : Prop :=
  1 <= NewOrderTx.ol_i_id line <= 100000 /\
  (i = NewOrderTx.ol_cnt inp -> NewOrderTx.rbk inp = true -> NewOrderTx.ol_i_id line = UNUSED_ITEM) /\
  1 <= NewOrderTx.ol_quantity line <= 10 /\
  if NewOrderTx.is_remote inp && (1 <? n) then 1 <= NewOrderTx.ol_supply_w_id line <= n /\ NewOrderTx.ol_supply_w_id line ≠ NewOrderTx.w_id inp
  else NewOrderTx.ol_supply_w_id line = NewOrderTx.w_id inp.
Record neworder_drawn (w now : Z) (inp : NewOrderTx.Input) : Prop := {
  nd_w : NewOrderTx.w_id inp = w;
  nd_d : 1 <= NewOrderTx.d_id inp <= 10;
  nd_c : 1 <= NewOrderTx.c_id inp <= 3000;
  nd_cnt : 5 <= NewOrderTx.ol_cnt inp <= 15;
  nd_date : NewOrderTx.o_entry_d inp = now;
  nd_items : Forall2 (line_drawn inp) (seqZ 1 (NewOrderTx.ol_cnt inp)) (NewOrderTx.items inp) }.
(** A customer by last name, one of the thousand, or by identifier. *)
Definition customer_drawn (by_last_name : bool) (id : Z) (last : list Z) : Prop :=
  if by_last_name then id = UNUSED_CUSTOMER /\ exists num, 0 <= num < 1000 /\ c_str last = last_name num else 1 <= id <= 3000.
Record payment_drawn (w now : Z) (inp : PaymentTx.Input) : Prop := {
  pd_w : PaymentTx.w_id inp = w;
  pd_d : 1 <= PaymentTx.d_id inp <= 10;
  pd_amount : exists cents, 100 <= cents <= 500000 /\ PaymentTx.h_amount inp = d_div (d_of_Z cents) (d_of_Z 100);
  pd_date : PaymentTx.h_date inp = now;
  (** the customer's own district, or one of another warehouse *)
  pd_home : PaymentTx.c_w_id inp = w /\ PaymentTx.c_d_id inp = PaymentTx.d_id inp \/
    1 < n /\ 1 <= PaymentTx.c_w_id inp <= n /\ PaymentTx.c_w_id inp ≠ w /\ 1 <= PaymentTx.c_d_id inp <= 10;
  pd_customer : customer_drawn (PaymentTx.by_last_name inp) (PaymentTx.c_id inp) (PaymentTx.c_last inp) }.
Record orderstatus_drawn (w : Z) (inp : OrderStatusTx.Input) : Prop := {
  od_w : OrderStatusTx.w_id inp = w;
  od_d : 1 <= OrderStatusTx.d_id inp <= 10;
  od_customer : customer_drawn (OrderStatusTx.by_last_name inp) (OrderStatusTx.c_id inp) (OrderStatusTx.c_last inp) }.
Record delivery_drawn (w now : Z) (inp : DeliveryTx.Input) : Prop := {
  dd_w : DeliveryTx.w_id inp = w;
  dd_carrier : 1 <= DeliveryTx.o_carrier_id inp <= 10;
  dd_date : DeliveryTx.ol_delivery_d inp = now }.
Record stocklevel_drawn (w : Z) (inp : StockLevelTx.Input) : Prop := {
  sd_w : StockLevelTx.w_id inp = w;
  sd_d : 1 <= StockLevelTx.d_id inp <= 10;
  sd_threshold : 10 <= StockLevelTx.threshold inp <= 20 }.

(** It is what the refinements of the profiles need. *)
Lemma neworder_drawn_input w now inp : 1 <= w <= n -> neworder_drawn w now inp -> neworder_input n inp.
Proof.
  intros Hw [D1 D2 D3 D4 D5 D6]. constructor; [lia|lia|lia| |].
  - pose proof (Forall2_length _ _ _ D6) as Hl. rewrite length_seqZ in Hl. lia.
  - apply Forall_forall. intros line Hline. apply list_elem_of_lookup in Hline as [k Hk].
    destruct (Forall2_lookup_r _ _ _ k _ D6 Hk) as (i & _ & Hi & _ & Hq & Hs). split; [|split; [lia|lia]].
    destruct (_ && _); lia.
Qed.
Lemma payment_drawn_input w now inp : 1 <= w <= n -> payment_drawn w now inp -> payment_input n inp.
Proof. intros Hw [D1 D2 D3 D4 D5 D6]. constructor; [lia|lia|lia|lia|exact D6]. Qed.
Lemma orderstatus_drawn_input w inp : 1 <= w <= n -> orderstatus_drawn w inp -> orderstatus_input n inp.
Proof. intros Hw [D1 D2 D3]. constructor; [lia|lia|exact D3]. Qed.
Lemma delivery_drawn_input w now inp : 1 <= w <= n -> delivery_drawn w now inp -> delivery_input n inp.
Proof. intros Hw [D1 D2 D3]. constructor; lia. Qed.
Lemma stocklevel_drawn_input w inp : 1 <= w <= n -> stocklevel_drawn w inp -> stocklevel_input n inp.
Proof. intros Hw [D1 D2 D3]. constructor; lia. Qed.

Section Origin.
Context (origin : Local).
#[local] Abbreviation from k := (reaches k origin).
Lemma remote_any k w l : 1 < n -> from k l -> (k <= draws)%N ->
  wpf (unlucky w origin) (remote_warehouse c spins w)
    (λ r l', 1 <= r <= n /\ r ≠ w /\ from (k + N.of_nat spins) l' /\ timestamp l' = timestamp l) l.
Proof.
  intros Hmany Hl Hk. eapply wpf_mono; [eapply wpf_weaken, remote_spec; [|by destruct Hl]|].
  - intros. split; [done|]. exists l. split; [by eapply reaches_mono|done].
  - intros r l' (? & ? & ? & ?). split_and!; [lia..|done| |done]. by eapply reaches_trans.
Qed.

(** One draw. *)
Lemma wpf_urand P k a b Q l : from k l -> 0 <= a <= b -> b < 2 ^ 32 ->
  (forall v l', a <= v <= b -> from (k + 1) l' -> timestamp l' = timestamp l -> Q v l') -> wpf P (urand a b) Q l.
Proof.
  intros Hl Hab Hb HQ. apply wpf_wp. eapply (wp_and _ _ (reaches 1 l)); [intros v s'; apply urand_from, Hl|].
  apply wp_urand; [apply Hl|lia..|]. intros. apply HQ; [done| |done]. by eapply reaches_trans.
Qed.
Lemma wpf_nurand P k A x y Q l : A = 255 \/ A = 1023 \/ A = 8191 -> 0 <= x <= y -> y < 2 ^ 32 -> from k l ->
  (forall v l', x <= v <= y -> from (k + 2) l' -> timestamp l' = timestamp l -> Q v l') -> wpf P (nurand_int A false x y) Q l.
Proof.
  intros HA Hxy Hy Hl HQ. apply wpf_wp. eapply (wp_and _ _ (reaches 2 l)); [intros v s'; apply nurand_from, Hl|].
  apply wp_nurand; [done..|apply Hl|]. intros. apply HQ; [done| |done]. by eapply reaches_trans.
Qed.
Lemma wpf_timestamp P k Q l : timestamp l < 2 ^ 63 - 1 -> from k l ->
  (forall l', from k l' -> timestamp l' = timestamp l + 1 -> Q (timestamp l) l') -> wpf P get_timestamp Q l.
Proof.
  intros Ht Hl HQ. apply wpf_wp. unfold wp, get_timestamp. rewrite (proj2 (Z.eqb_neq _ _)) by lia. by apply HQ.
Qed.
Lemma u8_id z : 0 <= z < 2 ^ 8 -> u8 z = z.
Proof. intros. unfold u8. by rewrite Z.mod_small. Qed.
Lemma u32_id z : 0 <= z < 2 ^ 32 -> u32 z = z.
Proof. intros. unfold u32. by rewrite Z.mod_small. Qed.
Lemma wpf_last_name P size {B} num (f : list Z * nat -> M Local B) Q l : (17 <= size)%nat -> 0 <= num < 1000 ->
  (forall last len, c_str last = last_name num -> wpf P (f (last, len)) Q l) -> wpf P (lift (make_clast (garbage size) num) ≫= f) Q l.
Proof.
  intros Hs Hnum HQ. apply wpf_step, wp_lift.
  destruct (make_clast_spec (garbage size) num size (garbage_length size) Hs Hnum) as (o & -> & _ & E). by apply HQ.
Qed.

Tactic Notation "draw" "as" ident(v) ident(s) ident(Hv) ident(Hs) ident(Ht) :=
  try lazymatch goal with |- wpf _ (mbind _ _) _ _ => apply wpf_bind end; first
  [ eapply wpf_urand; [eassumption|lia|lia|intros v s Hv Hs Ht] | eapply wpf_nurand; [tauto|lia|lia|eassumption|intros v s Hv Hs Ht] ].
Ltac draw := try lazymatch goal with |- wpf _ (mbind _ _) _ _ => apply wpf_bind end; first
  [ eapply wpf_urand; [eassumption|lia|lia|intros ? ? ? ? ?]
  | eapply wpf_nurand; [tauto|lia|lia|eassumption|intros ? ? ? ? ?]
  | eapply wpf_timestamp; [lia|eassumption|intros ? ? ?] ].

Lemma neworder_generated w l : 1 <= w <= n -> from 1 l -> timestamp l < 2 ^ 63 - 1 ->
  wpf (unlucky w origin) (NewOrderTx.generate c spins w)
    (λ inp l', neworder_drawn w (timestamp l) inp /\ from draws l' /\ timestamp l' = timestamp l + 1) l.
Proof.
  intros Hw Hl Ht. unfold NewOrderTx.generate. change DISTS_PER_WARE with 10.
  draw as d l1 Hd Hl1 Ht1. draw as cu l2 Hcu Hl2 Ht2. draw as cnt l3 Hcnt Hl3 Ht3. draw. draw as x l5 Hx Hl5 Ht5. draw as y s0 Hy Hs0 Ht6.
  rewrite !u8_id by lia. rewrite u32_id by lia. replace (timestamp l3) with (timestamp l) by congruence.
  set (rbk := x =? 1). set (rem := y =? 1). set (inp0 := NewOrderTx.mkInput w d cu cnt (timestamp l) rbk rem []).
  apply wpf_bind. eapply (wpf_forM _ _ _ (λ k l', from (7 + N.of_nat k * (3 + N.of_nat spins)) l' /\ timestamp l' = timestamp l + 1)
    (line_drawn inp0)).
  - split; [eapply reaches_mono; [exact Hs0|lia]|lia].
  - intros k i s Hi [Hs Hts]. apply lookup_seqZ in Hi as [-> Hk]. unfold NewOrderTx.generate_line.
    assert (Hk14 : (N.of_nat k <= 14)%N) by lia.
    apply wpf_bind.
    eapply (wpf_mono _ _ (λ v l', (1 <= v <= 100000 /\ (1 + Z.of_nat k = cnt -> rbk = true -> v = UNUSED_ITEM)) /\
      from (9 + N.of_nat k * (3 + N.of_nat spins)) l' /\ timestamp l' = timestamp l + 1)).
    + destruct (_ && _) eqn:Eb.
      * apply wpf_ret. unfold UNUSED_ITEM. split_and!; try (done || lia). eapply reaches_mono; [exact Hs|lia].
      * draw as v s1 Hv Hs1 Hts1. split; [split; [done|]|split; [eapply reaches_mono; [exact Hs1|lia]|lia]].
        intros E1 E2. rewrite E2, E1, Z.eqb_refl in Eb. done.
    + intros id s1 ((Hid & Hlast) & Hs1 & Hts1). apply wpf_bind.
      eapply (wpf_mono _ _ (λ v l', (if rem && (1 <? n) then 1 <= v <= n /\ v ≠ w else v = w) /\
        from (9 + N.of_nat k * (3 + N.of_nat spins) + N.of_nat spins) l' /\ timestamp l' = timestamp l + 1)).
      * destruct (_ && _) eqn:Eb.
        -- apply andb_prop in Eb as [_ Eb]. apply Z.ltb_lt in Eb.
           apply wpf_bind. eapply wpf_mono; [apply (remote_any _ w s1 Eb Hs1); unfold draws; nia|]. intros r s2 (Hr & Hne & Hs2 & Hts2).
           apply wpf_bind, wpf_lift, wpo_assert; [by apply negb_true_iff, Z.eqb_neq|]. apply wpf_ret. split_and!; (done || lia).
        -- apply wpf_ret. split_and!; try (done || lia). eapply reaches_mono; [exact Hs1|lia].
      * intros sup s2 (Hsup & Hs2 & Hts2). draw. apply wpf_ret. rewrite u32_id, u8_id by lia.
        split; [split_and!; simpl; (lia || done)|]. split; [eapply reaches_mono; [eassumption|lia]|lia].
  - intros ys s Hys [Hs Hts]. rewrite length_seqZ in Hs. apply wpf_ret. split_and!; [|eapply reaches_mono; [exact Hs|unfold draws; nia]|done].
    constructor; simpl; [done|lia|lia|lia|done|exact Hys].
Qed.

(** Both profiles that look a customer up draw a last name or an identifier. *)
Lemma payment_generated w l : 1 <= w <= n -> from 1 l -> timestamp l < 2 ^ 63 - 1 ->
  wpf (unlucky w origin) (PaymentTx.generate c spins w)
    (λ inp l', payment_drawn w (timestamp l) inp /\ from draws l' /\ timestamp l' = timestamp l + 1) l.
Proof.
  intros Hw Hl Ht. unfold PaymentTx.generate, urand_double. change DISTS_PER_WARE with 10. draw as d l1 Hd Hl1 Ht1.
  apply wpf_bind. draw as cents l2 Hcents Hl2 Ht2. apply wpf_ret.
  apply wpf_bind. eapply wpf_timestamp; [lia|eassumption|intros s0 Hs0 Ht0].
  replace (timestamp l2) with (timestamp l) by congruence.
  rewrite !u8_id by lia. apply wpf_bind.
  eapply (wpf_mono _ _ (λ b l', (b = false -> 1 < n) /\ from 4 l' /\ timestamp l' = timestamp l + 1)).
  { destruct (Z.eqb_spec n 1) as [E|E]; [apply wpf_ret; split_and!; try (done || lia); eapply reaches_mono; [exact Hs0|lia]|].
    draw as r s1 Hr Hs1 Hts1. apply wpf_ret. split; [intros _; lia|]. split; [eapply reaches_mono; [exact Hs1|lia]|lia]. }
  intros home s (Hhome & Hs & Hts). apply wpf_bind.
  eapply (wpf_mono _ _ (λ p l', (p.1 = w /\ p.2 = d \/ 1 < n /\ 1 <= p.1 <= n /\ p.1 ≠ w /\ 1 <= p.2 <= 10) /\
    from (5 + N.of_nat spins) l' /\ timestamp l' = timestamp l + 1)).
  { destruct home; [apply wpf_ret; split_and!; [by left|eapply reaches_mono; [exact Hs|lia]|done]|]. apply wpf_bind.
    eapply wpf_mono; [apply (remote_any _ w s (Hhome eq_refl) Hs); unfold draws; lia|]. intros r s2 (Hr & Hne & Hs2 & Hts2).
    apply wpf_bind, wpf_lift, wpo_assert; [by apply negb_true_iff, Z.eqb_neq|]. draw. rewrite u8_id by lia.
    apply wpf_ret. split_and!; [right; simpl; split_and!; (done || lia)|eapply reaches_mono; [eassumption|lia]|lia]. }
  intros [cw cd] s1 (Hc & Hs1 & Hts1). simpl in Hc. draw. case_match.
  - draw. eapply wpf_last_name; [unfold MAX_LAST; lia|lia|]. intros last len El. apply wpf_ret.
    split_and!; [|eapply reaches_mono; [eassumption|unfold draws; lia]|lia].
    constructor; simpl; [done|lia|by exists cents|done|done|]. split; [done|]. eexists. split; [|exact El]. lia.
  - draw. rewrite u32_id by lia. apply wpf_ret. split_and!; [|eapply reaches_mono; [eassumption|unfold draws; lia]|lia].
    constructor; simpl; [done|lia|by exists cents|done|done|]. simpl. lia.
Qed.
End Origin.
Lemma orderstatus_generated w l : 1 <= w <= n -> wf (rand l) ->
  wp (OrderStatusTx.generate w) (λ inp l', orderstatus_drawn w inp /\ wf (rand l') /\ timestamp l' = timestamp l) l.
Proof.
  intros Hw Hl. unfold OrderStatusTx.generate. change DISTS_PER_WARE with 10.
  wp_steps; apply wp_urand; [done|lia..|]. intros d l1 Hd Hl1 Ht1. wp_steps; apply wp_urand; [done|lia..|]. intros r l2 Hr Hl2 Ht2.
  rewrite u8_id by lia. case_match.
  - wp_steps; apply wp_nurand; [tauto|lia..|done|]. intros num l3 Hnum Hl3 Ht3. wp_steps.
    destruct (make_clast_spec (garbage 501) num 501 (garbage_length 501) ltac:(lia) ltac:(lia)) as (o & -> & _ & El).
    apply wpo_Ok, wp_ret. split_and!; [|done|lia]. constructor; simpl; [done|lia|]. split; [done|]. exists num. split; [lia|done].
  - wp_steps; apply wp_nurand; [tauto|lia..|done|]. intros id l3 Hid Hl3 Ht3. wp_steps. rewrite u32_id by lia.
    split_and!; [|done|lia]. constructor; simpl; [done|lia|]. simpl. lia.
Qed.
Lemma delivery_generated w l : 1 <= w <= n -> wf (rand l) -> timestamp l < 2 ^ 63 - 1 ->
  wp (DeliveryTx.generate w) (λ inp l', delivery_drawn w (timestamp l) inp /\ wf (rand l') /\ timestamp l' = timestamp l + 1) l.
Proof.
  intros Hw Hl Ht. unfold DeliveryTx.generate. wp_steps; apply wp_urand; [done|lia..|]. intros v l1 Hv Hl1 Ht1. wp_steps.
  unfold wp, get_timestamp. rewrite (proj2 (Z.eqb_neq _ _)) by lia. cbn. rewrite u8_id by lia.
  split_and!; [|done|lia]. constructor; simpl; (lia || done).
Qed.
Lemma stocklevel_generated w l : 1 <= w <= n -> wf (rand l) ->
  wp (StockLevelTx.generate w) (λ inp l', stocklevel_drawn w inp /\ wf (rand l') /\ timestamp l' = timestamp l) l.
Proof.
  intros Hw Hl. unfold StockLevelTx.generate. change DISTS_PER_WARE with 10.
  wp_steps; apply wp_urand; [done|lia..|]. intros d l1 Hd Hl1 Ht1. wp_steps; apply wp_urand; [done|lia..|]. intros r l2 Hr Hl2 Ht2.
  wp_steps. rewrite !u8_id by lia. split_and!; [|done|lia]. constructor; simpl; (lia || done).
Qed.
End Generate.

(** ** One transaction, and the transaction until it is decided *)
Section Runner.
Import XoshiroFacts RecordFacts.
Context `{BuildConfig} `{FloatOps} `{!Machine} `{!MachineLaws} `{!Transaction} `{!TransactionLaws}.
Context (c : Config.t) (spins : nat).
#[local] Abbreviation n := (Config.num_warehouses c).

(** What each profile may do to the database. *)
Definition profile_effect (id : TxProfileID) (D D' : DB) : Prop :=
  match id with
  | NEWORDER_TX => exists inp now, neworder_input n inp /\ neworder_effect inp now D = Some D'
  | PAYMENT_TX => exists inp, payment_input n inp /\ payment_effect inp D D'
  | DELIVERY_TX => exists inp, delivery_input n inp /\ delivery_effect inp D D'
  | ORDERSTATUS_TX | STOCKLEVEL_TX => D' = D
  end.
(** The effect leads to a consistent database. *)
Definition good_effect (id : TxProfileID) (D D' : DB) : Prop := profile_effect id D D' /\ consistent n D'.

(** Delivery can tell whose new orders it is given: no district is out of them
    while a later one has some. *)
Definition deliverable (id : TxProfileID) (D : DB) : Prop :=
  id = DELIVERY_TX -> forall w d, 1 <= w <= n -> 1 <= d <= 10 -> next_is_own w d D.

Context (Hn : 1 <= n < 2 ^ 16).

Lemma at_started D L t w l : at_ D D L t w -> wf (rand l) -> timestamp l <= timestamp (local w) + 1 ->
  at_ D D L (t + 1) (mkWorld (eng w) l (stat w) (out w) (ticks w)).
Proof. intros Hw Hl Ht. eapply at_local; [exact Hw|done|]. pose proof (at_good _ _ _ _ _ Hw) as (_ & ? & _). lia. Qed.
Lemma wpf_on_local {A} P (m : M Local A) (Q : A -> World -> Prop) w :
  wpf P m (λ a l, Q a (mkWorld (eng w) l (stat w) (out w) (ticks w))) (local w) -> wpf P (on_local m) Q w.
Proof. unfold wpf, on_local. by destruct (m (local w)) as [[]|[]]. Qed.

(** A profile on generated input. *)
Lemma run_profile_spec origin id wh D L t w : reaches 1 origin (local w) -> 1 <= wh <= n -> consistent n D -> room n D ->
  deliverable id D -> at_ D D L t w -> t + 151 <= 2 ^ 63 - 1 ->
  wpf (unlucky c spins wh origin) (run_profile c spins id wh) (ends D (good_effect id D) (t + 151)) w.
Proof.
  intros Hor Hwh HD Hroom Hown Hw Ht. pose proof (at_good _ _ _ _ _ Hw) as (Hl & Hts & _). destruct id; cbn [run_profile]; apply wpf_bind, wpf_on_local.
  - eapply wpf_mono; [by apply neworder_generated; (done || lia)|]. intros inp l (Hin & [Hl' _] & Ht'). apply neworder_drawn_input in Hin; [|done..]. apply wpf_wp.
    eapply wp_mono; [eapply (neworder_run c n inp D L (t + 1)); (done || lia || (eapply at_started; (done || lia)))|].
    intros s w' He. eapply ends_mono; [exact He|lia|]. intros D' (now & HE).
    split; [by exists inp, now|]. by eapply neworder_consistent.
  - eapply wpf_mono; [by apply payment_generated; (done || lia)|]. intros inp l (Hin & [Hl' _] & Ht'). apply payment_drawn_input in Hin; [|done..]. apply wpf_wp.
    eapply wp_mono; [eapply (payment_run c n inp D L (t + 1)); (done || lia || (eapply at_started; (done || lia)))|].
    intros s w' He. eapply ends_mono; [exact He|lia|]. intros D' HE. split; [by exists inp|]. by eapply payment_consistent.
  - apply wpf_wp. eapply wp_mono; [by apply (orderstatus_generated c)|]. intros inp l (Hin & Hl' & Ht'). apply (orderstatus_drawn_input c) in Hin; [|done..].
    apply wpf_wp. eapply wp_mono; [eapply (orderstatus_run c n inp D L (t + 1)); (done || lia || (eapply at_started; (done || lia)))|].
    intros s w' He. eapply ends_mono; [exact He|lia|]. by intros D' ->.
  - apply wpf_wp. eapply wp_mono; [by apply (delivery_generated c); (done || lia)|]. intros inp l (Hin & Hl' & Ht'). apply (delivery_drawn_input c) in Hin; [|done..].
    apply wpf_wp. eapply wp_mono; [eapply (delivery_run c n inp D L (t + 1)); (done || lia || (eapply at_started; (done || lia)) || idtac)|].
    { intros d Hd. apply (Hown eq_refl); [apply (di_w _ _ Hin)|done]. }
    intros s w' He. eapply ends_mono; [exact He|lia|]. intros D' HE. split; [by exists inp|]. by eapply delivery_consistent.
  - apply wpf_wp. eapply wp_mono; [by apply (stocklevel_generated c)|]. intros inp l (Hin & Hl' & Ht'). apply (stocklevel_drawn_input c) in Hin; [|done..].
    apply wpf_wp. eapply wp_mono; [eapply (stocklevel_run c n inp D L (t + 1)); (done || lia || (eapply at_started; (done || lia)))|].
    intros s w' He. eapply ends_mono; [exact He|lia|]. by intros D' ->.
Qed.
(** A draw of the remote warehouse is going to exhaust its bound. *)
Definition unlucky_run (w : World) : Prop := exists wh, 1 <= wh <= n /\ unlucky c spins wh (local w).
Lemma run_spec id D L t w : consistent n D -> room n D -> deliverable id D -> at_ D D L t w -> t + 151 <= 2 ^ 63 - 1 ->
  wpf (unlucky_run w) (run c spins id) (ends D (good_effect id D) (t + 151)) w.
Proof.
  intros HD Hroom Hown Hw Ht. unfold run. apply wpf_bind. pose proof (at_good _ _ _ _ _ Hw) as (Hl & Hts & _).
  eapply (wpf_mono _ _ (λ v w', 1 <= v <= n /\ at_ D D L t w' /\ reaches 1 (local w) (local w'))).
  - destruct (Config.fixed_ware c).
    + apply wpf_bind, wpf_wp, wp_get, wpf_lift. rewrite (proj2 (Z.eqb_neq n 0)) by lia.
      split; [|split; [done|by eapply reaches_mono; [apply reaches_refl|]]].
      pose proof (Z.mod_pos_bound (thread_id (eng w)) n ltac:(lia)). lia.
    + apply wpf_on_local, wpf_wp. eapply (wp_and _ _ (reaches 1 (local w))); [intros v s'; by apply urand_from|]. apply wp_urand; [done|lia..|].
      intros v l' Hv Hl' Ht' Hr. split_and!; [lia..| |done]. eapply at_local; [exact Hw|done|lia].
  - intros v w' (Hv & Hw' & Hr). rewrite u16_id by lia. eapply wpf_weaken; [|by eapply run_profile_spec]. intros Hu. by exists v.
Qed.

(** [k] runs in a row end in [SYSTEM_ABORT], or one of them in a draw that exhausts its bound. *)
Fixpoint keeps_failing (k : nat) (id : TxProfileID) (w : World) : Prop :=
  match k with
  | O => True
  | S k => run c spins id w = Err OutOfFuel /\ unlucky_run w \/
           exists w', run c spins id w = Ok (SYSTEM_ABORT, w') /\ keeps_failing k id w'
  end.
Lemma no_slots_held e : held no_slots e.
Proof. by intros [] p r h. Qed.

(** C7. [run<TxProfile>] for each of the five profiles, on any engine that
    keeps the contract, with the warehouse drawn or fixed per thread: from a
    consistent database it generates an input, and ends with the effect of the
    profile on that input committed and the database consistent, or with
    nothing committed; never with [BUG].  For Delivery, no district is out of new
    orders while a later one has some (the profile does not look at the district
    of the new order it is given).  It returns, unless there are other warehouses
    and one of the first [draws spins] states that the generator goes through
    is followed by [spins] draws of a warehouse that are all the home warehouse. *)
Theorem run_refines_profile id D L t w : consistent n D -> room n D -> deliverable id D -> at_ D D L t w -> t + 151 <= 2 ^ 63 - 1 ->
  wpf (unlucky_run w) (run c spins id) (ends D (good_effect id D) (t + 151)) w.
Proof. exact (run_spec id D L t w). Qed.

(** C8. [run_with_retry] never gives up wrongly: it returns [true] when and
    only when it left the effect of one run of the profile committed, [false]
    with what is committed as it was, in both cases with no transaction left
    open; and it retries only as long as every run ends in [SYSTEM_ABORT], which
    is the engine aborting or, if the configuration asks for random aborts, such
    an abort ([attempts] bounds the model's retries, which the source does not).
    The condition on Delivery and on the draws of a remote warehouse is that of
    [run_refines_profile]. *)
Theorem run_with_retry_decides attempts id D L t w : consistent n D -> room n D -> deliverable id D -> at_ D D L t w ->
  t + 151 * Z.of_nat attempts <= 2 ^ 63 - 1 ->
  wpf (keeps_failing attempts id w) (run_with_retry c spins attempts id)
    (λ b w', good (t + 151 * Z.of_nat attempts) w' /\ cur (eng w') = base (eng w') /\
       if b : bool then good_effect id D (base (eng w')) else base (eng w') = D) w.
Proof.
  revert L t w. induction attempts as [|k IH]; intros L t w HD Hroom Hown Hw Ht; [done|]. cbn [run_with_retry keeps_failing].
  pose proof (run_spec id D L t w HD Hroom Hown Hw ltac:(lia)) as Hr. unfold wpf, mbind, M_bind in *.
  destruct (run c spins id w) as [[s w1]|[]] eqn:E; try done; [|by left].
  destruct Hr as [Hg Hs]. destruct s; [| | |done].
  - destruct Hs as [He Hc]. cbn. split; [|done]. eapply good_mono; [exact Hg|lia].
  - pose proof (wp_abort D _ w1 Hs Hg) as Ha. unfold wp in Ha. destruct (on_engine abort_ w1) as [[u w2]|]; [|done].
    destruct Ha as (Hb & Hc & Hg2). cbn. split; [|by rewrite Hc, Hb]. eapply good_mono; [exact Hg2|lia].
  - destruct Hs as [Hb Hc]. pose proof (IH no_slots (t + 151) w1 HD Hroom Hown) as Hk.
    specialize (Hk ltac:(constructor; [done|done|apply no_slots_held|done]) ltac:(lia)). unfold wpf in Hk.
    destruct (run_with_retry c spins k id w1) as [[b w2]|[]]; try done.
    + destruct Hk as (Hg2 & Hk). split; [|done]. eapply good_mono; [exact Hg2|lia].
    + right. by exists w1.
Qed.
End Runner.

