(* ===== verification/TpccEngine.v ===== *)
(** * TpccEngine: a reference engine that keeps the contract

    [TransactionLaws] is not an empty promise: this file instantiates
    [Transaction] with an in-memory engine that keeps one copy of the database
    for what is committed and one for the running transaction, hands out
    records through an array per table, answers ranges and searches from the
    tables, and can refuse a number of commits; and proves the laws of it. *)
From stdpp Require Import sorting.
From S2P Require Import Prelude Random TpccRecords TpccKeys TpccTx TpccContract.

(** ** Sorted ranges *)
Section Ranges.
Context {A : Type}.
#[local] Definition by_key (x y : Z * A) : Prop := x.1 <= y.1.
#[local] Instance by_key_dec : RelDecision by_key.
Proof. intros x y. unfold by_key. apply _. Defined.
#[local] Instance by_key_total : Total by_key.
Proof. intros x y. unfold by_key. lia. Qed.
#[local] Instance by_key_trans : Transitive by_key.
Proof. intros x y z. unfold by_key. lia. Qed.

(** The entries of a key range, sorted. *)
Definition entries (low up : Z) (m : gmap Z A) : list (Z * A) :=
  merge_sort by_key (map_to_list (filter (λ kv, low <= kv.1 < up) m)).

Lemma entries_elem low up m k a : (k, a) ∈ entries low up m <-> m !! k = Some a /\ low <= k < up.
Proof.
  unfold entries. rewrite merge_sort_Permutation, elem_of_map_to_list, map_lookup_filter_Some. done.
Qed.
Lemma sorted_strict (l : list (Z * A)) : StronglySorted by_key l -> NoDup l.*1 -> StronglySorted Z.lt l.*1.
Proof.
  induction 1 as [|x l Hs IH Hx]; intros Hd; simpl; [constructor|]. apply NoDup_cons in Hd as [Hn Hd]. constructor; [by apply IH|].
  apply Forall_fmap, Forall_forall. intros y Hy. rewrite Forall_forall in Hx. specialize (Hx y Hy). unfold by_key in Hx. simpl.
  assert (x.1 ≠ y.1); [|lia]. intros E. apply Hn. rewrite E. by apply list_elem_of_fmap_2.
Qed.
Lemma entries_ranged low up m : ranged low up m (entries low up m).
Proof.
  split; [|intros; apply entries_elem]. apply sorted_strict; [unfold entries; apply (StronglySorted_merge_sort by_key)|].
  unfold entries. rewrite merge_sort_Permutation. apply NoDup_fst_map_to_list.
Qed.
(** A range has one sorted list of entries. *)
Lemma sorted_weak (l : list (Z * A)) : StronglySorted Z.lt l.*1 -> StronglySorted by_key l /\ NoDup l.
Proof.
  induction l as [|x l IH]; simpl; [by split; constructor|]. intros Hl. inversion Hl as [|? ? Hl1 Hl2]; subst.
  destruct (IH Hl1) as [Hs Hd]. rewrite Forall_fmap, Forall_forall in Hl2. split; constructor; [done| |intros Hx|done].
  - apply Forall_forall. intros y Hy. specialize (Hl2 y Hy). unfold by_key. simpl in Hl2. lia.
  - specialize (Hl2 x Hx). simpl in Hl2. lia.
Qed.
Lemma ranged_entries low up m kvs : ranged low up m kvs -> kvs = entries low up m.
Proof.
  intros [Hs Hin]. destruct (entries_ranged low up m) as [Hs' Hin'].
  apply sorted_weak in Hs as [Hs Hd], Hs' as [Hs' Hd']. eapply (StronglySorted_unique_strong by_key); [|done|done|].
  - intros [k1 a1] [k2 a2] H1 H2. unfold by_key. simpl. intros. assert (k1 = k2) as -> by lia.
    apply Hin in H1 as [H1 _]. apply Hin' in H2 as [H2 _]. congruence.
  - apply NoDup_Permutation; [done|done|]. intros [k a]. by rewrite Hin, Hin'.
Qed.
End Ranges.

(** The element with the least measure. *)
Fixpoint least {A} (f : A -> Z) (l : list A) : option A :=
  match l with
  | [] => None
  | x :: l => match least f l with Some y => if f x <=? f y then Some x else Some y | None => Some x end
  end.
Lemma least_spec {A} (f : A -> Z) l :
  match least f l with Some x => x ∈ l /\ forall y, y ∈ l -> f x <= f y | None => l = [] end.
Proof.
  induction l as [|x l IH]; simpl; [done|]. destruct (least f l) as [y|].
  - destruct IH as [Hy IH]. destruct (Z.leb_spec (f x) (f y)); (split; [set_solver|]).
    + intros z [->|Hz]%elem_of_cons; [done|]. specialize (IH z Hz). lia.
    + intros z [->|Hz]%elem_of_cons; [lia|]. by apply IH.
  - subst. split; [set_solver|]. intros z ->%list_elem_of_singleton. done.
Qed.

(** ** The engine *)
#[local] Instance Access_eq_dec : EqDecision Access.
Proof. solve_decision. Defined.
Section Engine.
Context `{FloatOps}.

(** The memory the pointers point into, one array per table; [e_refused] is
    the number of commits the engine is going to refuse. *)
Definition Memory := Tables (λ T, list (Row T * option (Access * Z))).
Record Engine := mkEngine { e_base : DB; e_cur : DB; e_mem : Memory; e_refused : nat; e_thread : Z }.
Definition cell (T : Table) (p : nat) (e : Engine) : option (Row T * option (Access * Z)) := tab (e_mem e) T !! p.
Definition set_mem (T : Table) (l : list (Row T * option (Access * Z))) (e : Engine) : Engine :=
  mkEngine (e_base e) (e_cur e) (set_tab T l (e_mem e)) (e_refused e) (e_thread e).
Definition set_cur (D : DB) (e : Engine) : Engine := mkEngine (e_base e) D (e_mem e) (e_refused e) (e_thread e).

Definition e_load (T : Table) (p : nat) (e : Engine) : option (Row T) := fst <$> cell T p e.
Definition e_handle (T : Table) (p : nat) (e : Engine) : option (Access * Z) := cell T p e ≫= snd.
Definition e_store (T : Table) (p : nat) (r : Row T) (e : Engine) : Engine :=
  match cell T p e with Some (_, h) => set_mem T (<[p := (r, h)]> (tab (e_mem e) T)) e | None => e end.
(** A record for the program, if there is one. *)
Definition give (T : Table) (o : option (Row T * option (Access * Z))) : M Engine (Result.t * nat) := fun e =>
  match o with
  | Some x => Ok ((Result.SUCCESS, length (tab (e_mem e) T)), set_mem T (tab (e_mem e) T ++ [x]) e)
  | None => Ok ((Result.FAIL, O), e)
  end.
Definition give_at (T : Table) (acc : option Access) (o : option (Z * Row T)) : M Engine (Result.t * nat) :=
  give T ((λ kr, (kr.2, (λ a, (a, kr.1)) <$> acc)) <$> o).
Definition blank (T : Table) : Row T :=
  let z := d_of_Z 0 in let a := mkAddress [] [] [] [] [] in
  match T with
  | TItem => mkItem 0 0 z [] [] | TWarehouse => mkWarehouse 0 z z [] a | TStock => mkStock 0 0 0 0 0 0 [] []
  | TDistrict => mkDistrict 0 0 0 z z [] a | TCustomer => mkCustomer 0 0 0 0 0 0 z z z z [] [] [] [] [] [] a
  | THistory => mkHistory 0 0 0 0 0 0 z (replicate 25 0) | TOrder => mkOrder 0 0 0 0 0 0 0 0
  | TNewOrder => mkNewOrder 0 0 0 | TOrderLine => mkOrderLine 0 0 0 0 0 0 0 0 z (replicate 25 0)
  end.
Lemma blank_shape T : row_shape T (blank T).
Proof. by destruct T. Qed.
(** The end of an update, an insertion or a deletion. *)
Definition finish (T : Table) (acc : Access) (p : nat) (f : Z -> Row T -> DB -> DB) : M Engine Result.t := fun e =>
  match cell T p e with
  | Some (r, Some (a, k)) => if decide (a = acc) then Ok (Result.SUCCESS, set_cur (f k r (e_cur e)) e) else Ok (Result.FAIL, e)
  | _ => Ok (Result.FAIL, e)
  end.
Definition table (T : Table) (D : DB) : gmap Z (Row T) := tab D T.
Definition rows_with (T : Table) (P : Z * Row T -> Prop) `{!forall x, Decision (P x)} (D : DB) : list (Z * Row T) :=
  filter P (map_to_list (table T D)).
Definition search (T : Table) (P : Z * Row T -> Prop) `{!forall x, Decision (P x)} (f : Z * Row T -> Z) (D : DB) : option (Z * Row T) :=
  least f (rows_with T P D).
Definition name_is (w d : Z) (last : list Z) (kr : Z * Customer) : Prop :=
  c_w_id kr.2 = w /\ c_d_id kr.2 = d /\ c_str (c_last kr.2) = c_str last.
Definition customer_is (w d id : Z) (kr : Z * Order) : Prop := o_w_id kr.2 = w /\ o_d_id kr.2 = d /\ o_c_id kr.2 = id.
Definition latest (kr : Z * Order) : Z := - o_id kr.2.
Definition key_from (low : Z) (kr : Z * NewOrder) : Prop := low <= kr.1.
#[export] Instance key_from_dec low kr : Decision (key_from low kr).
Proof. unfold key_from. apply _. Defined.
Definition updates (kvs : list (Z * OrderLine)) (e : Engine) : Engine := set_cur (upds TOrderLine kvs (e_cur e)) e.
Definition history_key (D : DB) : Z := fresh (dom (table THistory D) : gset Z).

#[export] Instance memory_transaction : Transaction := {|
  engine := Engine;
  ptr := λ _, nat;
  load := e_load;
  store := e_store;
  thread_id := e_thread;
  get_record := λ T k e, give_at T None (pair k <$> row (e_cur e) T k) e;
  prepare_record_for_update := λ T k e, give_at T (Some UPDATE) (pair k <$> row (e_cur e) T k) e;
  finish_update := λ T p, finish T UPDATE p (upd T);
  prepare_record_for_insert := λ T k e,
    give_at T (Some INSERT) (match row (e_cur e) T k with Some _ => None | None => Some (k, blank T) end) e;
  prepare_history_for_insert := λ e, give_at THistory (Some INSERT) (Some (history_key (e_cur e), blank THistory)) e;
  finish_insert := λ T p, finish T INSERT p (upd T);
  prepare_record_for_delete := λ T k e, give_at T (Some DELETE) (pair k <$> row (e_cur e) T k) e;
  finish_delete := λ T p, finish T DELETE p (λ k _, del T k);
  get_customer_by_last_name := λ w d last e,
    give_at TCustomer None (search TCustomer (name_is w d last) (λ _, 0) (e_cur e)) e;
  get_customer_by_last_name_and_prepare_for_update := λ w d last e,
    give_at TCustomer (Some UPDATE) (search TCustomer (name_is w d last) (λ _, 0) (e_cur e)) e;
  get_order_by_customer_id := λ w d id e,
    give_at TOrder None (search TOrder (customer_is w d id) latest (e_cur e)) e;
  get_neworder_with_smallest_key_no_less_than := λ low e,
    give_at TNewOrder None (search TNewOrder (key_from low) fst (e_cur e)) e;
  range_query := λ S low up f s e, s ← visits f (entries low up (table TOrderLine (e_cur e))).*2 s; mret ((Result.SUCCESS, s), e);
  range_update := λ S low up f s e, '(kvs, s) ← rewrites f (entries low up (table TOrderLine (e_cur e))) s;
    mret ((Result.SUCCESS, s), updates kvs e);
  commit_ := λ e, match e_refused e with
    | O => Ok (true, mkEngine (e_cur e) (e_cur e) (e_mem e) O (e_thread e))
    | Datatypes.S k => Ok (false, mkEngine (e_base e) (e_base e) (e_mem e) k (e_thread e))
    end;
  abort_ := λ e, Ok (tt, set_cur (e_base e) e) |}.
End Engine.

(** ** It keeps the contract *)
Section Keeps.
Context `{FloatOps}.
#[local] Abbreviation keeps := (keeps_others e_base e_handle).

Lemma cell_set_mem T l p e : cell T p (set_mem T l e) = l !! p.
Proof. unfold cell. simpl. by rewrite tab_set. Qed.
Lemma cell_set_mem_ne T T' l p e : T ≠ T' -> cell T' p (set_mem T l e) = cell T' p e.
Proof. intros. unfold cell. simpl. by rewrite tab_set_ne. Qed.
Lemma keeps_set_mem T l e : keeps T e (set_mem T l e).
Proof. split; [done|]. intros T' p HT. simpl. unfold e_load, e_handle. by rewrite !cell_set_mem_ne. Qed.
Lemma keeps_set_cur T D e : keeps T e (set_cur D e).
Proof. by split. Qed.

Lemma cell_given T l x e : cell T (length l) (set_mem T (l ++ [x]) e) = Some x.
Proof. by rewrite cell_set_mem, lookup_app_r, Nat.sub_diag by lia. Qed.

(** What a program is given. *)
Lemma give_spec T acc o e (ok : nat -> Engine -> Prop) (fail : Prop) :
  (o = None -> fail) ->
  (forall k r p e', o = Some (k, r) -> keeps T e e' -> e_cur e' = e_cur e -> e_load T p e' = Some r ->
     e_handle T p e' = (λ a, (a, k)) <$> acc -> ok p e') ->
  answers e_base (give_at T acc o) e ok fail.
Proof.
  intros Hf Hok. unfold answers, wp, give_at, give. destruct o as [[k r]|]; simpl; [|by split; [|apply Hf]].
  split; [done|]. apply (Hok k r); [done|apply keeps_set_mem|done|..]; unfold e_load, e_handle; by rewrite cell_given.
Qed.
Lemma finish_spec T acc p k r f e : e_handle T p e = Some (acc, k) -> e_load T p e = Some r ->
  answers e_base (unit_result (finish T acc p f)) e
    (λ _ e', keeps T e e' /\ e_load T p e' = Some r /\ e_cur e' = f k r (e_cur e)) False.
Proof.
  unfold e_handle, e_load, answers, wp, unit_result, finish, mbind, M_bind. destruct (cell T p e) as [[r' [[a k']|]]|] eqn:E; simpl; try done.
  intros [= -> ->] [= ->]. rewrite decide_True by done. simpl. split; [done|]. split; [done|]. unfold e_load. split; [|done].
  change (cell T p (set_cur (f k r (e_cur e)) e)) with (cell T p e). by rewrite E.
Qed.
Lemma row_table T k D : table T D !! k = row D T k.
Proof. done. Qed.
Lemma rows_with_elem T P `{!forall x, Decision (P x)} D k r : (k, r) ∈ rows_with T P D <-> row D T k = Some r /\ P (k, r).
Proof. unfold rows_with. rewrite list_elem_of_filter, elem_of_map_to_list, row_table. tauto. Qed.
Lemma search_spec T P `{!forall x, Decision (P x)} f D : match search T P f D with
  | Some (k, r) => row D T k = Some r /\ P (k, r) /\ forall k' r', row D T k' = Some r' -> P (k', r') -> f (k, r) <= f (k', r')
  | None => forall k r, row D T k = Some r -> ~ P (k, r)
  end.
Proof.
  unfold search. pose proof (least_spec f (rows_with T P D)) as HL. destruct (least f _) as [[k r]|].
  - destruct HL as [Hx Hmin]. apply rows_with_elem in Hx as [Hr HP]. split_and!; [done..|]. intros. apply Hmin. by apply rows_with_elem.
  - intros k r Hr HP. assert ((k, r) ∈ rows_with T P D) as Hx by (by apply rows_with_elem). rewrite HL in Hx. by apply elem_of_nil in Hx.
Qed.
Lemma history_key_fresh D : row D THistory (history_key D) = None.
Proof. rewrite <- row_table. apply not_elem_of_dom. apply is_fresh. Qed.
Lemma range_visits {S} low up D f (s s' : S) kvs :
  ranged low up (tab D TOrderLine : gmap Z OrderLine) kvs -> visits f kvs.*2 s = Ok s' -> visits f (entries low up (table TOrderLine D)).*2 s = Ok s'.
Proof. intros Hr. by rewrite (ranged_entries low up _ _ Hr). Qed.

#[export] Instance memory_laws : TransactionLaws.
Proof.
  refine {| base := e_base; cur := e_cur; handle := e_handle |}.
  - intros T p r r' e. simpl. unfold e_load, e_store, e_handle. destruct (cell T p e) as [[r0 h]|] eqn:E; [|done]. intros [= ->].
    rewrite !cell_set_mem. pose proof (lookup_lt_Some _ _ _ E). rewrite list_lookup_insert_eq by done.
    split_and!; [done|done|done|apply keeps_set_mem].
  - intros T k e. apply give_spec; [by destruct (row _ _ _)|]. intros k' r p e' Ho ? ? ? ?.
    destruct (row _ _ _) as [r0|]; simplify_eq/=. eauto.
  - intros T k e. apply give_spec; [by destruct (row _ _ _)|]. intros k' r p e' Ho ? ? ? ?.
    destruct (row _ _ _) as [r0|]; simplify_eq/=. eauto 6.
  - intros T p k r e Hh Hl. by apply finish_spec.
  - intros T k e. apply give_spec; [by destruct (row _ _ _)|]. intros k' r p e' Ho ? ? ? ?.
    destruct (row _ _ _) as [r0|]; simplify_eq/=. split_and!; [done..|]. exists (blank T). split; [done|apply blank_shape].
  - intros e. apply give_spec; [done|]. intros k' r p e' Ho ? ? ? ?. simplify_eq/=.
    split_and!; [done..|]. eexists _, _. split_and!; [done|apply history_key_fresh|done|apply (blank_shape THistory)].
  - intros T p k r e Hh Hl. by apply finish_spec.
  - intros T k e. apply give_spec; [by destruct (row _ _ _)|]. intros k' r p e' Ho ? ? ? ?.
    destruct (row _ _ _) as [r0|]; simplify_eq/=. eauto 6.
  - intros T p k r e Hh Hl. by apply (finish_spec T DELETE p k r (λ k _, del T k)).
  - intros w d last e. pose proof (search_spec TCustomer (name_is w d last) (λ _, 0) (e_cur e)) as HL.
    apply give_spec; [intros E; rewrite E in HL; intros k r (Hr & Hn); by eapply HL|].
    intros k r p e' E ? ? ? ?. rewrite E in HL. destruct HL as (Hr & Hn & _). split_and!; [done..|]. exists k, r. by split.
  - intros w d last e. pose proof (search_spec TCustomer (name_is w d last) (λ _, 0) (e_cur e)) as HL.
    apply give_spec; [intros E; rewrite E in HL; intros k r (Hr & Hn); by eapply HL|].
    intros k r p e' E ? ? ? ?. rewrite E in HL. destruct HL as (Hr & Hn & _). split_and!; [done..|]. exists k, r. by split.
  - intros w d id e. pose proof (search_spec TOrder (customer_is w d id) latest (e_cur e)) as HL.
    apply give_spec; [intros E; rewrite E in HL; intros k r (Hr & Hn); by eapply HL|].
    intros k r p e' E ? ? ? ?. rewrite E in HL. destruct HL as (Hr & Hn & Hmin). split_and!; [done..|].
    exists k, r. split; [by split|]. split; [done|]. intros k0 r0 (Hr0 & Hn0). pose proof (Hmin k0 r0 Hr0 Hn0) as Hle. unfold latest in Hle. cbn [snd] in Hle. change (o_id r0 <= o_id r). lia.
  - intros low e. pose proof (search_spec TNewOrder (key_from low) fst (e_cur e)) as HL. unfold wp. simpl.
    destruct (search _ _ _ _) as [[k r]|].
    + simpl. split; [done|]. split; [apply keeps_set_mem|]. split; [done|]. destruct HL as (Hr & Hk & Hmin). exists k, r.
      split; [by split|]. split.
      * unfold e_load. by rewrite (cell_given TNewOrder).
      * intros k' r' [Hr' Hk']. by apply (Hmin k' r').
    + simpl. split_and!; [done..|]. intros k r [Hr Hk]. by apply (HL k r).
  - intros S low up f s kvs s' e Hr Hv. unfold wp. simpl. pose proof (range_visits _ _ _ _ _ _ _ Hr Hv) as E.
    match goal with |- context [visits f ?l s] => replace (visits f l s) with (Ok s') by (symmetry; exact E) end. done.
  - intros S low up f s kvs kvs' s' e Hr Hv. unfold wp. simpl.
    rewrite (ranged_entries low up _ _ Hr) in Hv.
    match goal with |- context [rewrites f ?l s] => replace (rewrites f l s) with (Ok (kvs', s')) by (symmetry; exact Hv) end. simpl. split; [done|]. split; [apply keeps_set_cur|done].
  - intros e. unfold wp. simpl. by destruct (e_refused e).
  - done.
Defined.
End Keeps.
