(* ===== verification/TpccWarehouse.v ===== *)
(** * TpccWarehouse: a warehouse at the benchmark's sizes, and the theorems on it

    A consistent database of one warehouse: 100000 items with stock, ten
    districts of 3000 customers and 3000 orders of five lines, the last 900 of
    each district undelivered.  The theorems about the profiles are applied to
    this database and the engine of [TpccEngine]. *)
From S2P Require Import Prelude Random TpccRecords TpccKeys TpccTx TpccProfiles TpccStat TpccContract TpccConsistency TpccNewOrder TpccPayment TpccReadOnly TpccDelivery TpccRunner TpccEngine.

(** ** Tables given by a function on a list of indices *)
Section Tabulate.
Context {I A : Type} (key : I -> Z) (f : I -> A).
Definition tabulate (l : list I) : gmap Z A := list_to_map ((λ i, (key i, f i)) <$> l).
Context (l : list I) (Hinj : forall i j, i ∈ l -> j ∈ l -> key i = key j -> i = j).
Lemma tabulate_lookup i : i ∈ l -> tabulate l !! key i = Some (f i).
Proof.
  intros Hi. apply elem_of_list_to_map_1'; [|by apply (list_elem_of_fmap_2 (λ i, (key i, f i)))].
  intros y (j & [= Hk ->] & Hj)%list_elem_of_fmap. f_equal. by apply Hinj.
Qed.
Lemma tabulate_inv k a : tabulate l !! k = Some a -> exists i, i ∈ l /\ k = key i /\ a = f i.
Proof. intros (i & [= -> ->] & Hi)%elem_of_list_to_map_2%list_elem_of_fmap. by exists i. Qed.
Lemma tabulate_none k : tabulate l !! k = None -> forall i, i ∈ l -> k ≠ key i.
Proof. intros E i Hi ->. by rewrite tabulate_lookup in E. Qed.
End Tabulate.
#[global] Opaque tabulate.

(** ** The rows *)
Section Warehouse.
Import RecordFacts.
Context `{FloatOps}.
#[local] Abbreviation zero := (d_of_Z 0).

#[local] Abbreviation text := RecordWitness.text.
Definition an_address : Address := mkAddress (text 10 10) (text 10 10) (text 10 10) (text 2 0) (text 9 0).
Definition an_item (i : Z) : Item := mkItem i 1 zero (text 14 10) (text 30 20).
Definition a_warehouse : Warehouse := mkWarehouse 1 zero zero (text 6 4) an_address.
Definition a_stock (i : Z) : Stock := mkStock 1 i 50 0 0 0 (replicate 10 (text 24 0)) (text 30 20).
Definition a_district (d : Z) : District := mkDistrict 1 d 3001 zero zero (text 6 4) an_address.
Definition a_name (num : Z) : list Z := last_name num ++ 0 :: replicate (16 - length (last_name num)) 0.
Definition a_customer (di : Z * Z) : Customer :=
  mkCustomer 1 di.1 di.2 0 0 0 zero zero zero zero (text 8 8) (text 2 0) (a_name ((di.2 - 1) mod 1000)) (text 16 0) (text 2 0)
    (text 300 200) an_address.
Definition an_order (d_o : Z * Z) : Order := mkOrder 1 d_o.1 d_o.2 d_o.2 (if d_o.2 <? 2101 then 1 else 0) 5 1 0.
Definition a_neworder (d_o : Z * Z) : NewOrder := mkNewOrder 1 d_o.1 d_o.2.
Definition a_line (dol : Z * Z * Z) : OrderLine :=
  mkOrderLine 1 dol.1.1 dol.1.2 dol.2 (1 + dol.1.2) 1 0 5 zero (text 24 0).

Definition pairs (l l' : list Z) : list (Z * Z) := x ← l; pair x <$> l'.
Definition triples (l l' l'' : list Z) : list (Z * Z * Z) := x ← pairs l l'; pair x <$> l''.
Lemma pairs_elem l l' x : x ∈ pairs l l' <-> x.1 ∈ l /\ x.2 ∈ l'.
Proof.
  unfold pairs. rewrite list_elem_of_bind. split.
  - intros (a & (b & -> & Hb)%list_elem_of_fmap & Ha). done.
  - intros [H1 H2]. exists x.1. split; [|done]. destruct x. by apply (list_elem_of_fmap_2 (pair z)).
Qed.
Lemma triples_elem l l' l'' x : x ∈ triples l l' l'' <-> x.1.1 ∈ l /\ x.1.2 ∈ l' /\ x.2 ∈ l''.
Proof.
  unfold triples. rewrite list_elem_of_bind. split.
  - intros (a & (b & -> & Hb)%list_elem_of_fmap & Ha). apply pairs_elem in Ha as [? ?]. done.
  - intros (H1 & H2 & H3). exists x.1. split; [|by apply pairs_elem]. destruct x. by apply (list_elem_of_fmap_2 (pair p)).
Qed.

Definition items := seqZ 1 100000.
Definition districts := seqZ 1 10.
Definition customers := pairs districts (seqZ 1 3000).
Definition neworders := pairs districts (seqZ 2101 900).
Definition lines := triples districts (seqZ 1 3000) (seqZ 1 5).
Definition key2 (f : Z -> Z -> Z -> Z) (x : Z * Z) : Z := f 1 x.1 x.2.
Definition line_key (x : Z * Z * Z) : Z := ol_key 1 x.1.1 x.1.2 x.2.

Definition warehouse_db : DB := mkTables
  (tabulate id an_item items) (tabulate (λ _ : unit, 1) (λ _, a_warehouse) [tt]) (tabulate (s_key 1) a_stock items)
  (tabulate (d_key 1) a_district districts) (tabulate (key2 c_key) a_customer customers) ∅
  (tabulate (key2 o_key) an_order customers) (tabulate (key2 no_key) a_neworder neworders) (tabulate line_key a_line lines).

(** ** What is in it *)
Lemma last_name_nonzero num : 0 <= num < 1000 -> Forall (.≠ 0) (last_name num).
Proof.
  intros Hn. unfold last_name. pose proof (Z.mod_pos_bound num 100 ltac:(lia)). pose proof (Z.mod_pos_bound num 10 ltac:(lia)).
  assert (0 <= num / 100 < 10) by (split; [apply Z.div_pos; lia|apply Z.div_lt_upper_bound; lia]).
  assert (0 <= num mod 100 / 10 < 10) by (split; [apply Z.div_pos; lia|apply Z.div_lt_upper_bound; lia]).
  repeat apply Forall_app_2; by apply syllable_ok.
Qed.

Ltac members := repeat match goal with
  | H : _ ∈ items |- _ => unfold items in H
  | H : _ ∈ districts |- _ => unfold districts in H
  | H : _ ∈ customers |- _ => apply pairs_elem in H as [? ?]
  | H : _ ∈ neworders |- _ => apply pairs_elem in H as [? ?]
  | H : _ ∈ lines |- _ => apply triples_elem in H as (? & ? & ?)
  | H : _ ∈ seqZ _ _ |- _ => apply elem_of_seqZ in H
  end.
Ltac member := unfold items, customers, neworders, lines, districts; rewrite ?pairs_elem, ?triples_elem, ?elem_of_seqZ; simpl; lia.

Lemma stock_key_inj i j : i ∈ items -> j ∈ items -> s_key 1 i = s_key 1 j -> i = j.
Proof. intros Hi Hj E. members. apply s_key_inj in E as [_ ?]; lia. Qed.
Lemma district_key_inj i j : i ∈ districts -> j ∈ districts -> d_key 1 i = d_key 1 j -> i = j.
Proof. intros Hi Hj E. members. apply d_key_inj in E as [_ ?]; unfold in_wd; lia. Qed.
Lemma customer_key_inj i j : i ∈ customers -> j ∈ customers -> key2 c_key i = key2 c_key j -> i = j.
Proof. intros Hi Hj E. members. destruct i, j; unfold key2 in *; simpl in *. apply c_key_inj in E as (_ & -> & ->); [done|unfold in_wd; lia..]. Qed.
Lemma order_key_inj i j : i ∈ customers -> j ∈ customers -> key2 o_key i = key2 o_key j -> i = j.
Proof. intros Hi Hj E. members. destruct i, j; unfold key2 in *; simpl in *. apply o_key_inj in E as (_ & -> & ->); [done|unfold in_wd; lia..]. Qed.
Lemma neworder_key_inj i j : i ∈ neworders -> j ∈ neworders -> key2 no_key i = key2 no_key j -> i = j.
Proof. intros Hi Hj E. members. destruct i, j; unfold key2 in *; simpl in *. apply no_key_inj in E as (_ & -> & ->); [done|unfold in_wd; lia..]. Qed.
Lemma line_key_inj i j : i ∈ lines -> j ∈ lines -> line_key i = line_key j -> i = j.
Proof.
  intros Hi Hj E. members. destruct i as [[? ?] ?], j as [[? ?] ?]; unfold line_key in *; simpl in *.
  apply ol_key_inj in E as (_ & -> & -> & ->); [done|unfold in_wd; lia..].
Qed.

(** The rows of one district. *)
Lemma db_order d o : 1 <= d <= 10 -> 0 <= o < 2 ^ 32 ->
  row warehouse_db TOrder (o_key 1 d o) = if decide (1 <= o < 3001) then Some (an_order (d, o)) else None.
Proof.
  intros Hd Ho. case_decide as Hr; [apply (tabulate_lookup (key2 o_key) an_order customers order_key_inj (d, o)); member|].
  destruct (row _ _ _) as [r|] eqn:E; [|reflexivity]. apply tabulate_inv in E as ([d' o'] & Hx & E & _). members. unfold key2, line_key in *. simpl in *.
  apply o_key_inj in E as (_ & -> & ->); unfold in_wd; lia.
Qed.
Lemma db_neworder d o : 1 <= d <= 10 -> 0 <= o < 2 ^ 32 ->
  row warehouse_db TNewOrder (no_key 1 d o) = if decide (2101 <= o < 3001) then Some (mkNewOrder 1 d o) else None.
Proof.
  intros Hd Ho. case_decide as Hr; [apply (tabulate_lookup (key2 no_key) a_neworder neworders neworder_key_inj (d, o)); member|].
  destruct (row _ _ _) as [r|] eqn:E; [|reflexivity]. apply tabulate_inv in E as ([d' o'] & Hx & E & _). members. unfold key2, line_key in *. simpl in *.
  apply no_key_inj in E as (_ & -> & ->); unfold in_wd; lia.
Qed.
Lemma db_line d o l : 1 <= d <= 10 -> 0 <= o < 2 ^ 32 -> 0 <= l < 2 ^ 8 ->
  row warehouse_db TOrderLine (ol_key 1 d o l) = if decide (1 <= o < 3001 /\ 1 <= l <= 5) then Some (a_line (d, o, l)) else None.
Proof.
  intros Hd Ho Hl. case_decide as Hr; [apply (tabulate_lookup line_key a_line lines line_key_inj (d, o, l)); member|].
  destruct (row _ _ _) as [r|] eqn:E; [|reflexivity]. apply tabulate_inv in E as ([[d' o'] l'] & Hx & E & _). members. unfold key2, line_key in *. simpl in *.
  apply ol_key_inj in E as (_ & -> & -> & ->); unfold in_wd; lia.
Qed.
Lemma db_customer d i : 1 <= d <= 10 -> 1 <= i <= 3000 -> row warehouse_db TCustomer (c_key 1 d i) = Some (a_customer (d, i)).
Proof. intros. apply (tabulate_lookup (key2 c_key) a_customer customers customer_key_inj (d, i)). member. Qed.
Lemma db_customer_inv k r : row warehouse_db TCustomer k = Some r -> exists d i,
  1 <= d <= 10 /\ 1 <= i <= 3000 /\ k = c_key 1 d i /\ r = a_customer (d, i).
Proof. intros E. apply tabulate_inv in E as ([d i] & Hx & -> & ->). members. exists d, i. simpl in *. split_and!; (done || lia). Qed.

Lemma warehouse_district d : 1 <= d <= 10 -> district_at warehouse_db 1 d (a_district d) 2101.
Proof.
  intros Hd. constructor.
  - apply (tabulate_lookup (d_key 1) a_district districts district_key_inj d). member.
  - simpl. lia.
  - simpl. lia.
  - intros o Ho. rewrite db_order by done. case_decide; [|simpl; lia]. simpl. split_and!; try lia.
    destruct (Z.ltb_spec o 2101); lia.
  - intros o Ho. by rewrite db_neworder.
  - intros o l Ho Hl. rewrite db_line by done. case_decide as Hr.
    + split; [unfold valid_item; simpl; lia|]. exists (an_order (d, o)). rewrite db_order, decide_True by (done || lia). simpl. split; [done|lia].
    + intros r. rewrite db_order by done. case_decide; [|done]. intros [= <-]. simpl. lia.
  - intros i Hi. exists (a_customer (d, i)). by rewrite db_customer.
  - intros k r E <- <-. apply db_customer_inv in E as (d' & i & Hd' & Hi & -> & ->). simpl in *. split; [done|]. split; [done|].
    exists i, (an_order (d', i)). rewrite db_order, decide_True by (done || lia). simpl. split_and!; (done || lia).
  - intros num Hn. exists (c_key 1 d (num + 1)), (a_customer (d, num + 1)). rewrite db_customer by lia. simpl.
    split_and!; [done..|]. unfold a_name. replace (num + 1 - 1) with num by lia. rewrite Z.mod_small by lia.
    apply c_str_app. by apply last_name_nonzero.
Qed.
Lemma warehouse_consistent : consistent 1 warehouse_db.
Proof.
  constructor.
  - intros i Hi. exists (an_item i). split; [apply (tabulate_lookup id an_item items (λ i j _ _ E, E) i); member|].
    eapply holds_weaken; [by apply RecordWitness.text_holds|lia|lia].
  - intros w Hw. assert (w = 1) as -> by lia. exists a_warehouse. split; [|simpl; lia].
    apply (tabulate_lookup (λ _ : unit, 1) (λ _, a_warehouse) [tt] ltac:(by intros [] []) tt). set_solver.
  - intros w i Hw Hi. assert (w = 1) as -> by lia. exists (a_stock i).
    split; [apply (tabulate_lookup (s_key 1) a_stock items stock_key_inj i); member|]. split_and!; [done| | |simpl; lia|simpl; lia].
    + apply Forall_replicate. by apply RecordWitness.text_holds.
    + eapply holds_weaken; [by apply RecordWitness.text_holds|lia|lia].
  - intros k r E. apply db_customer_inv in E as (d & i & _ & _ & _ & ->). split; [done|].
    eapply holds_weaken; [by apply RecordWitness.text_holds|lia|lia].
  - intros k r E. apply tabulate_inv in E as ([d o] & Hx & -> & ->). members. simpl in *. split; [done|lia].
  - intros w d Hw Hd. assert (w = 1) as -> by lia. exists (a_district d), 2101. by apply warehouse_district.
Qed.
Lemma warehouse_room : room 1 warehouse_db.
Proof.
  intros w d dr Hw Hd. assert (w = 1) as -> by lia.
  rewrite (da_row _ _ _ _ _ (warehouse_district d Hd)). intros [= <-]. simpl. lia.
Qed.
(** Every district has new orders of its own. *)
Lemma warehouse_next d : 1 <= d <= 10 -> next_is_own 1 d warehouse_db.
Proof.
  intros Hd k r _. assert (in_wd 1 d) as Hwd by (unfold in_wd; lia). exists (no_key 1 d 2101), (mkNewOrder 1 d 2101).
  split; [|split].
  - rewrite db_neworder by lia. by rewrite decide_True by lia.
  - rewrite !no_key_value by (done || lia). lia.
  - apply no_key_prefix; [done|lia].
Qed.
Lemma warehouse_deliverable c id : Config.num_warehouses c = 1 -> deliverable c id warehouse_db.
Proof. intros Hc _ w d Hw Hd. assert (w = 1) as -> by lia. by apply warehouse_next. Qed.
End Warehouse.

(** ** The theorems on this warehouse *)
Module WarehouseWitness.
Import Xoshiro256PlusPlus XoshiroFacts.
#[local] Existing Instance RecordWitness.ieee.
#[local] Existing Instance debug_build.
Definition machine : Machine := {| d_bytes := λ _, replicate 8 0; d_fixed := λ _, bytes "1.00"; rdtscp := Z.of_nat; garbage := λ n, replicate n 0 |}.
#[local] Existing Instance machine.
#[local] Instance machine_laws : MachineLaws.
Proof. constructor; [intros x; by apply (bool_decide_unpack _)|intros x; vm_compute; lia|intros n; apply length_replicate]. Qed.

Definition empty_memory : Memory := mkTables [] [] [] [] [] [] [] [] [].
(** A worker that starts on [D], with an engine that refuses the first [k] commits. *)
Definition worker (D : DB) (k : nat) : World := mkWorld (mkEngine D D empty_memory k 0) RecordWitness.l0 Stat.init 0 0.
Lemma worker_at D k : at_ D D no_slots 0 (worker D k).
Proof.
  constructor; [done|done|apply no_slots_held|]. split_and!; [apply RecordWitness.wf_l0|done|].
  split; [done|]. by apply Forall_replicate.
Qed.
Definition aborting : Config.t := Config.enable_random_abort Config.init.

Definition order_input : NewOrderTx.Input := NewOrderTx.mkInput 1 1 1 5 0 false false
  [NewOrderTx.mkLine 1 2 1; NewOrderTx.mkLine 1 3 10; NewOrderTx.mkLine 1 4 1; NewOrderTx.mkLine 1 5 1; NewOrderTx.mkLine 1 2 7].
Lemma order_input_ok : neworder_input 1 order_input.
Proof. constructor; simpl; [lia|lia|lia|lia|]. repeat constructor; simpl; lia. Qed.
Lemma neworder_refines_effect_witness :
  wp (NewOrderTx.run aborting order_input)
    (ends warehouse_db (λ D', (exists now, neworder_effect order_input now warehouse_db = Some D') /\ consistent 1 D') 1) (worker warehouse_db 0).
Proof.
  apply (neworder_refines_effect aborting 1 order_input warehouse_db no_slots 0 (worker warehouse_db 0)).
  - lia.
  - apply order_input_ok.
  - apply warehouse_consistent.
  - apply warehouse_room.
  - apply worker_at.
  - lia.
Defined.

Definition pay_input : PaymentTx.Input := PaymentTx.mkInput 1 1 0 1 2 (d_of_Z 7) 0 true (a_name 371).
Lemma pay_input_ok : payment_input 1 pay_input.
Proof.
  constructor; [simpl; lia..|]. split; [done|]. exists 371. split; [lia|].
  change (c_str (a_name 371) = RecordFacts.last_name 371). apply RecordFacts.c_str_app. apply last_name_nonzero. lia.
Qed.
Lemma payment_refines_effect_witness :
  wp (PaymentTx.run aborting pay_input)
    (ends warehouse_db (λ D', payment_effect pay_input warehouse_db D' /\ consistent 1 D') 1) (worker warehouse_db 0).
Proof.
  apply (payment_refines_effect aborting 1 pay_input warehouse_db no_slots 0 (worker warehouse_db 0)).
  - lia.
  - apply pay_input_ok.
  - apply warehouse_consistent.
  - apply worker_at.
  - lia.
Defined.
Lemma read_only_profiles_witness :
  wp (OrderStatusTx.run aborting (OrderStatusTx.mkInput 1 2 17 false [])) (ends warehouse_db (λ D', D' = warehouse_db) 0) (worker warehouse_db 0) /\
  wp (StockLevelTx.run aborting (StockLevelTx.mkInput 1 2 15)) (ends warehouse_db (λ D', D' = warehouse_db) 0) (worker warehouse_db 0).
Proof.
  destruct (read_only_profiles aborting 1 warehouse_db no_slots 0 (worker warehouse_db 0) ltac:(lia) warehouse_consistent (worker_at _ _)) as [HO HS].
  split; [apply HO|apply HS]; constructor; simpl; lia.
Defined.
Lemma stock_level_counts_witness :
  wpx (StockLevelTx.low_items Config.init (StockLevelTx.mkInput 1 2 15) 3001)
    (λ l _, StronglySorted Z.lt l /\ forall i, i ∈ l <-> counted_item (StockLevelTx.mkInput 1 2 15) warehouse_db 3001 i)
    (ends warehouse_db (λ D', D' = warehouse_db) 0) (worker warehouse_db 0).
Proof.
  apply (stock_level_counts Config.init 1 (StockLevelTx.mkInput 1 2 15) warehouse_db no_slots 0 (worker warehouse_db 0) (a_district 2) 2101).
  - lia.
  - constructor; simpl; lia.
  - apply warehouse_consistent.
  - apply worker_at.
  - apply warehouse_district. lia.
Defined.
Lemma delivery_refines_effect_witness :
  wp (DeliveryTx.run aborting (DeliveryTx.mkInput 1 4 0))
    (ends warehouse_db (λ D', delivery_effect (DeliveryTx.mkInput 1 4 0) warehouse_db D' /\ consistent 1 D') 150) (worker warehouse_db 0).
Proof.
  apply (delivery_refines_effect aborting 1 (DeliveryTx.mkInput 1 4 0) warehouse_db no_slots 0 (worker warehouse_db 0)).
  - lia.
  - constructor; simpl; lia.
  - apply warehouse_consistent.
  - intros d. apply warehouse_next.
  - apply worker_at.
  - lia.
Defined.

(** District 1 is out of new orders, district 2 has number 5: Delivery takes it
    for district 1, and marks order 5 of district 1 as delivered. *)
Definition stray_db : DB := mkTables ∅ ∅ ∅ ∅
  {[c_key 1 1 3 := a_customer (1, 3)]} ∅ {[o_key 1 1 5 := mkOrder 1 1 5 3 7 1 1 0]} {[no_key 1 2 5 := mkNewOrder 1 2 5]}
  {[ol_key 1 1 5 1 := a_line (1, 5, 1)]}.
Example another_district_delivered :
  match DeliveryTx.run Config.init (DeliveryTx.mkInput 1 4 0) (worker stray_db 0) with
  | Ok (s, w) => s = SUCCESS /\ row (base (eng w)) TNewOrder (no_key 1 2 5) = None /\
      (o_carrier_id <$> row (base (eng w)) TOrder (o_key 1 1 5)) = Some 4 /\
      (c_delivery_cnt <$> row (base (eng w)) TCustomer (c_key 1 1 3)) = Some 1
  | Err _ => False
  end.
Proof. vm_compute. done. Qed.

Lemma run_refines_profile_witness :
  wpf (unlucky_run aborting 0 (worker warehouse_db 0)) (run aborting 0 NEWORDER_TX) (ends warehouse_db (good_effect aborting NEWORDER_TX warehouse_db) 151) (worker warehouse_db 0) /\
  wpf (unlucky_run aborting 0 (worker warehouse_db 0)) (run aborting 0 DELIVERY_TX) (ends warehouse_db (good_effect aborting DELIVERY_TX warehouse_db) 151) (worker warehouse_db 0) /\
  ~ unlucky_run aborting 0 (worker warehouse_db 0).
Proof.
  assert (Hrun : forall id, wpf (unlucky_run aborting 0 (worker warehouse_db 0)) (run aborting 0 id)
    (ends warehouse_db (good_effect aborting id warehouse_db) 151) (worker warehouse_db 0)).
  { intros id. apply (run_refines_profile aborting 0 ltac:(simpl; lia) id warehouse_db no_slots 0).
    - apply warehouse_consistent.
    - apply warehouse_room.
    - by apply warehouse_deliverable.
    - apply worker_at.
    - lia. }
  split; [apply Hrun|]. split; [apply Hrun|]. intros (wh & _ & Hn & _). simpl in Hn. lia.
Defined.
(** The engine refuses the first two commits. *)
Lemma run_with_retry_decides_witness :
  wpf (keeps_failing Config.init 0 5 PAYMENT_TX (worker warehouse_db 2)) (run_with_retry Config.init 0 5 PAYMENT_TX)
    (λ b w', good (0 + 151 * Z.of_nat 5) w' /\ cur (eng w') = base (eng w') /\
       if b : bool then good_effect Config.init PAYMENT_TX warehouse_db (base (eng w')) else base (eng w') = warehouse_db)
    (worker warehouse_db 2).
Proof.
  apply (run_with_retry_decides Config.init 0 ltac:(simpl; lia) 5 PAYMENT_TX warehouse_db no_slots 0).
  - apply warehouse_consistent.
  - apply warehouse_room.
  - by apply warehouse_deliverable.
  - apply worker_at.
  - simpl. lia.
Defined.

(** StockLevel on districts without orders: three runs, the first one with a
    commit the engine refuses. *)
Definition bare_db : DB :=
  mkTables ∅ ∅ ∅ (list_to_map ((λ d, (d_key 1 d, a_district d)) <$> seqZ 1 10)) ∅ ∅ ∅ ∅ ∅.
Definition status_of (o : outcome (Status * World)) : option Status := match o with Ok (s, _) => Some s | Err _ => None end.
Definition ends_counted (id : TxProfileID) (s : Status) (w : World) : Prop :=
  exists w', run Config.init 0 id w = Ok (s, w') /\ counted id s (stat w) (stat w').
Lemma status_of_run o s : status_of o = Some s -> exists w', o = Ok (s, w').
Proof. destruct o as [[s' w']|]; [|done]. intros [= ->]. by exists w'. Qed.
Lemma bare_aborts : status_of (run Config.init 0 STOCKLEVEL_TX (worker bare_db 1)) = Some SYSTEM_ABORT.
Proof. vm_compute. reflexivity. Qed.
Lemma bare_commits : status_of (run Config.init 0 STOCKLEVEL_TX (worker bare_db 0)) = Some SUCCESS.
Proof. vm_compute. reflexivity. Qed.
Lemma bare_bug : status_of (run Config.init 0 ORDERSTATUS_TX (worker bare_db 0)) = Some BUG.
Proof. vm_compute. reflexivity. Qed.
Lemma every_run_is_counted_witness :
  ends_counted STOCKLEVEL_TX SYSTEM_ABORT (worker bare_db 1) /\ ends_counted STOCKLEVEL_TX SUCCESS (worker bare_db 0) /\
  ends_counted ORDERSTATUS_TX BUG (worker bare_db 0).
Proof.
  pose proof (status_of_run _ _ bare_aborts) as H1. pose proof (status_of_run _ _ bare_commits) as H2. pose proof (status_of_run _ _ bare_bug) as H3.
  destruct H1 as [w1 E1], H2 as [w2 E2], H3 as [w3 E3].
  split; [exists w1|split; [exists w2|exists w3]]; (split; [assumption|]).
  - exact (every_run_is_counted Config.init 0 STOCKLEVEL_TX _ SYSTEM_ABORT w1 E1).
  - exact (every_run_is_counted Config.init 0 STOCKLEVEL_TX _ SUCCESS w2 E2).
  - exact (every_run_is_counted Config.init 0 ORDERSTATUS_TX _ BUG w3 E3).
Defined.

(** The retry goes on after the refused commits. *)
Example stock_level_retried :
  match run_with_retry Config.init 0 5 STOCKLEVEL_TX (worker bare_db 2) with
  | Ok (b, w) => b = true /\ (Stat.num_commits <$> stat w !! 4%nat) = Some 1 /\ (Stat.num_sys_aborts <$> stat w !! 4%nat) = Some 2
  | Err _ => False
  end.
Proof. vm_compute. done. Qed.
End WarehouseWitness.
