(* ===== verification/Index.v ===== *)
(** * Index: the ordered index of [indexes/masstree_wrapper.hpp] and [indexes/masstree.hpp]

    [Wrapper] is [MasstreeWrapper]: point operations and the two range scanners
    over a table of byte-string keys.  [MasstreeIndexes] is the class of the
    same name: one table per [TableID], with 64-bit keys stored big-endian.
    The table itself ([Masstree::basic_table], third party) is the parameter
    [BasicTable]; what the code relies on is [BasicTableLaws]. *)
From stdpp Require Import sorting.
From S2P Require Import Prelude.

Abbreviation bytes := (list Z).

(** Lexicographic order of byte strings, as [memcmp] on the common prefix and
    then the length. *)
Fixpoint lex_compare (a b : bytes) : comparison :=
  match a, b with
  | [], [] => Eq
  | [], _ :: _ => Lt
  | _ :: _, [] => Gt
  | x :: a', y :: b' => match x ?= y with Eq => lex_compare a' b' | c => c end
  end.
Definition lex_lt (a b : bytes) : Prop := lex_compare a b = Lt.
#[export] Instance lex_lt_dec a b : Decision (lex_lt a b).
Proof. unfold lex_lt. apply _. Defined.
#[global] Typeclasses Opaque lex_lt.

(** What a scan shows its visitor, in order: leaves and the values in them. *)
Inductive event (leaf V : Type) :=
| VisitLeaf (n : leaf) (version : Z)
| VisitValue (key : bytes) (v : V).
Arguments VisitLeaf {leaf V}.
Arguments VisitValue {leaf V}.

Definition values_of {leaf V} (l : list (event leaf V)) : list (bytes * V) :=
  omap (fun ev => match ev with VisitValue k v => Some (k, v) | VisitLeaf _ _ => None end) l.

(** [Masstree::basic_table<table_params>] and its cursors. *)
Class BasicTable (V leaf : Type) := {
  table_type : Type;
  initialize : table_type;
  table_get : table_type -> bytes -> option V;
  table_set : table_type -> bytes -> V -> table_type;      (* insert or overwrite *)
  table_del : table_type -> bytes -> table_type;
  (* the leaf a cursor for the key stands on, and its version counters *)
  node_at : table_type -> bytes -> leaf;
  full_version_value : table_type -> leaf -> Z;
  previous_full_version_value : table_type -> bytes -> Z;
  next_full_version_value : table_type -> bytes -> Z -> Z;
  (* [scan(firstkey, emit_firstkey, ..)] and [rscan] *)
  table_scan : table_type -> bytes -> bool -> list (event leaf V);
  table_rscan : table_type -> bytes -> bool -> list (event leaf V)
}.
Arguments table_type {V leaf _}.

(** The documented behaviour of the table. *)
Class BasicTableLaws (V leaf : Type) `{BasicTable V leaf} := {
  get_initialize : forall k, table_get initialize k = None;
  get_set : forall t k v k', table_get (table_set t k v) k' = if decide (k = k') then Some v else table_get t k';
  get_del : forall t k k', table_get (table_del t k) k' = if decide (k = k') then None else table_get t k';
  scan_sorted : forall t k emit, StronglySorted lex_lt (values_of (table_scan t k emit)).*1;
  scan_elem : forall t k emit k' v, (k', v) ∈ values_of (table_scan t k emit) <->
    table_get t k' = Some v /\ (lex_lt k k' \/ emit = true /\ k' = k);
  rscan_sorted : forall t k emit, StronglySorted (flip lex_lt) (values_of (table_rscan t k emit)).*1;
  rscan_elem : forall t k emit k' v, (k', v) ∈ values_of (table_rscan t k emit) <->
    table_get t k' = Some v /\ (lex_lt k' k \/ emit = true /\ k' = k)
}.

(** ** [MasstreeWrapper] *)
Section Wrapper.
Context {T leaf : Type} `{BasicTable (option T) leaf} `{BuildConfig}.

(** [struct node_info_t]. *)
Record node_info_t := mk_node_info { node : option leaf; old_version : Z; new_version : Z }.
Definition node_info_init : node_info_t := mk_node_info None 0 0.

Definition insert_value (t : table_type) (key : bytes) (value : option T) : table_type * bool :=
  match table_get t key with
  | Some _ => (t, false)
  | None => (table_set t key value, true)
  end.

Definition insert_value_and_get_nodeinfo_on_success (t : table_type) (key : bytes)
    (value : option T) (node_info : node_info_t) : table_type * node_info_t * bool :=
  match table_get t key with
  | Some _ => (t, node_info, false)
  | None => (table_set t key value,
             mk_node_info (Some (node_at t key)) (previous_full_version_value t key)
                          (next_full_version_value t key 1), true)
  end.

Definition get_value (t : table_type) (key : bytes) : option T :=
  match table_get t key with Some v => v | None => None end.

Definition get_value_and_get_nodeinfo_on_failure (t : table_type) (key : bytes)
    (node_info : node_info_t) : option T * node_info_t :=
  match table_get t key with
  | Some v => (v, node_info)
  | None => let old := full_version_value t (node_at t key) in
            (None, mk_node_info (Some (node_at t key)) old old)
  end.

Definition update_value (t : table_type) (key : bytes) (value : option T) : outcome (table_type * bool) :=
  match table_get t key with
  | Some _ =>
      let t' := table_set t key value in
      assert_ (previous_full_version_value t' key =? next_full_version_value t' key 0);;
      mret (t', true)
  | None => mret (t, false)
  end.

Definition update_value_and_get_nodeinfo_on_failure (t : table_type) (key : bytes) (value : option T)
    (node_info : node_info_t) : outcome (table_type * node_info_t * bool) :=
  match table_get t key with
  | Some _ =>
      let t' := table_set t key value in
      assert_ (previous_full_version_value t' key =? next_full_version_value t' key 0);;
      mret (t', node_info, true)
  | None =>
      let info := mk_node_info (Some (node_at t key)) (previous_full_version_value t key)
                    (next_full_version_value t key 0) in
      assert_ (old_version info =? new_version info);;
      mret (t, info, false)
  end.

Definition remove_value (t : table_type) (key : bytes) : outcome (table_type * bool) :=
  match table_get t key with
  | Some _ => mret (table_del t key, true)
  | None =>
      assert_ (previous_full_version_value t key =? next_full_version_value t key 0);;
      mret (t, false)
  end.

Definition remove_value_and_get_nodeinfo_on_failure (t : table_type) (key : bytes)
    (node_info : node_info_t) : outcome (table_type * node_info_t * bool) :=
  match table_get t key with
  | Some _ => mret (table_del t key, node_info, true)
  | None =>
      let info := mk_node_info (Some (node_at t key)) (previous_full_version_value t key)
                    (next_full_version_value t key 0) in
      assert_ (old_version info =? new_version info);;
      mret (t, info, false)
  end.

(** The scanners.  [S] is what the callbacks mutate; they may also clear
    [continue_flag]. *)
Section Scanner.
Context {S : Type}.
Record Callback := mkCallback {
  per_node_func : S -> leaf -> Z -> bool -> S * bool;
  per_kv_func : S -> bytes -> option T -> bool -> S * bool
}.
Record Scanner := mkScanner { scan_num_cnt_ : Z; continue_flag : bool; data : S }.

(** [memcmp] of the common prefix. *)
Definition memcmp_prefix (a b : bytes) : comparison :=
  let n := Nat.min (length a) (length b) in lex_compare (take n a) (take n b).

Section Scan.
Context (cb : Callback) (max_scan_num_ : Z).

Definition visit_leaf (sc : Scanner) (n : leaf) (version : Z) : Scanner :=
  let (d, flag) := per_node_func cb (data sc) n version (continue_flag sc) in
  mkScanner (scan_num_cnt_ sc) flag d.

Definition call_kv (sc : Scanner) (key : bytes) (val : option T) : Scanner :=
  let (d, flag) := per_kv_func cb (data sc) key val (continue_flag sc) in
  mkScanner (scan_num_cnt_ sc) flag d.

(** [SearchRangeScanner::visit_value]. *)
Definition visit_value (rkey_ : option bytes) (r_exclusive_ : bool) (sc : Scanner)
    (key : bytes) (val : option T) : Scanner * bool :=
  if negb (continue_flag sc) || ((0 <=? max_scan_num_) && (max_scan_num_ <=? scan_num_cnt_ sc))
  then (sc, false)
  else
    let sc := mkScanner (scan_num_cnt_ sc + 1) (continue_flag sc) (data sc) in
    match rkey_ with
    | None => (call_kv sc key val, true)
    | Some rkey =>
        let res := memcmp_prefix rkey key in
        let smaller_than_end_key := bool_decide (res = Gt) in
        let same_as_end_key_but_shorter :=
          bool_decide (res = Eq) && (length key <? length rkey)%nat in
        let same_as_end_key_inclusive :=
          bool_decide (res = Eq) && (length rkey =? length key)%nat && negb r_exclusive_ in
        if smaller_than_end_key || same_as_end_key_but_shorter || same_as_end_key_inclusive
        then (call_kv sc key val, true)
        else (sc, false)
    end.

(** [BackwordScanner::visit_value]. *)
Definition visit_value_backward (lkey_ : option bytes) (l_exclusive_ : bool) (sc : Scanner)
    (key : bytes) (val : option T) : Scanner * bool :=
  if negb (continue_flag sc) || ((0 <=? max_scan_num_) && (max_scan_num_ <=? scan_num_cnt_ sc))
  then (sc, false)
  else
    let sc := mkScanner (scan_num_cnt_ sc + 1) (continue_flag sc) (data sc) in
    match lkey_ with
    | None => (call_kv sc key val, true)
    | Some lkey =>
        let res := memcmp_prefix lkey key in
        let bigger_than_end_key := bool_decide (res = Lt) in
        let same_as_end_key_but_longer :=
          bool_decide (res = Eq) && (length lkey <? length key)%nat in
        let same_as_end_key_inclusive :=
          bool_decide (res = Eq) && (length lkey =? length key)%nat && negb l_exclusive_ in
        if bigger_than_end_key || same_as_end_key_but_longer || same_as_end_key_inclusive
        then (call_kv sc key val, true)
        else (sc, false)
    end.

(** The table shows the events to the visitor until [visit_value] says no. *)
Fixpoint run_visitor (visit : Scanner -> bytes -> option T -> Scanner * bool)
    (sc : Scanner) (l : list (event leaf (option T))) : Scanner :=
  match l with
  | [] => sc
  | VisitLeaf n version :: l' => run_visitor visit (visit_leaf sc n version) l'
  | VisitValue k v :: l' =>
      let (sc', go) := visit sc k v in
      if go : bool then run_visitor visit sc' l' else sc'
  end.
End Scan.

(** [lkey == nullptr] starts from the empty string. *)
Definition scan (t : table_type) (lkey : option bytes) (l_exclusive : bool)
    (rkey : option bytes) (r_exclusive : bool) (cb : Callback) (max_scan_num : Z) (d : S) : S :=
  let mtkey := default [] lkey in
  data (run_visitor cb (visit_value cb max_scan_num rkey r_exclusive) (mkScanner 0 true d)
    (table_scan t mtkey (negb l_exclusive))).

Definition rscan (t : table_type) (lkey : option bytes) (l_exclusive : bool)
    (rkey : option bytes) (r_exclusive : bool) (cb : Callback) (max_scan_num : Z) (d : S) : S :=
  let mtkey := match lkey with None => [] | Some _ => default [] rkey end in
  data (run_visitor cb (visit_value_backward cb max_scan_num lkey l_exclusive) (mkScanner 0 true d)
    (table_rscan t mtkey (negb r_exclusive))).
End Scanner.

Definition get_version_value_ (t : table_type) (n : leaf) : Z := full_version_value t n.
End Wrapper.
Arguments Callback : clear implicits.
Arguments Scanner : clear implicits.

(** ** The index as its clients see it *)
Class Indexes (I V : Type) := {
  idx_empty : I;
  idx_find : I -> Z -> Z -> option V;                 (* [find]: the pointer it returns *)
  idx_insert : I -> Z -> Z -> option V -> I
}.
Class IndexesLaws (I V : Type) `{Indexes I V} := {
  idx_entry : I -> Z -> Z -> option (option V);       (* what is stored under a key *)
  idx_find_entry : forall i t k, is_key k -> idx_find i t k = match idx_entry i t k with Some v => v | None => None end;
  idx_entry_empty : forall t k, idx_entry idx_empty t k = None;
  idx_entry_insert : forall i t k v t' k', is_key k -> is_key k' ->
    idx_entry (idx_insert i t k v) t' k' =
    if decide (idx_entry i t k = None /\ t = t' /\ k = k') then Some v else idx_entry i t' k'
}.

(** ** [MasstreeIndexes] *)
Module MasstreeIndexes.
(** [__builtin_bswap64] and the bytes of a 64-bit word in memory (little endian). *)
Definition byte_of (k : Z) (i : Z) : Z := Z.land (Z.shiftr k (8 * i)) 255.
Definition le_bytes (k : Z) : bytes := (fun i => byte_of k (Z.of_nat i)) <$> seq 0 8.
Fixpoint le_word (b : bytes) : Z := match b with [] => 0 | x :: b' => x + 256 * le_word b' end.
Definition byte_swap (key : Z) : Z := le_word (rev (le_bytes key)).
Definition key_buf (key : Z) : bytes := le_bytes (byte_swap key).
(** [__builtin_bswap64( *reinterpret_cast<const uint64_t *>(key.s))]. *)
Definition actual_key (s : bytes) : Z := byte_swap (le_word (take 8 s)).

Inductive Result := OK | NOT_FOUND | BAD_INSERT | NOT_INSERTED | NOT_DELETED | BAD_SCAN.

Section MasstreeIndexes.
Context {Value leaf : Type} `{Countable leaf} `{BasicTable (option Value) leaf} `{BuildConfig}.
Abbreviation TableID := Z.
Abbreviation Key := Z.
Abbreviation NodeMap := (gmap (option leaf) Z).     (* keys are [LeafNode *] *)
Abbreviation NodeInfo := (node_info_t (leaf := leaf)).
Definition UINT64_MAX : Z := 2 ^ 64 - 1.

(** [std::unordered_map<TableID, MT> indexes]: [operator[]] makes a fresh table. *)
Abbreviation indexes := (gmap TableID (table_type (V := option Value) (leaf := leaf))).
Definition table_of (idx : indexes) (table_id : TableID) : table_type :=
  default initialize (idx !! table_id).

Definition find (idx : indexes) (table_id : TableID) (key : Key) : Result * option Value :=
  let val := get_value (table_of idx table_id) (key_buf key) in
  (match val with None => NOT_FOUND | Some _ => OK end, val).

Definition emplace {K A} `{Countable K} (m : gmap K A) (k : K) (v : A) : gmap K A :=
  match m !! k with Some _ => m | None => <[k := v]> m end.

Definition find_nm (idx : indexes) (table_id : TableID) (key : Key) (nm : NodeMap)
  : Result * option Value * NodeMap :=
  let (val, ni) := get_value_and_get_nodeinfo_on_failure (table_of idx table_id) (key_buf key)
                     node_info_init in
  match val with
  | None => (NOT_FOUND, val, emplace nm (node ni) (new_version ni))
  | Some _ => (OK, val, nm)
  end.

Definition insert (idx : indexes) (table_id : TableID) (key : Key) (val : option Value)
  : indexes * Result :=
  let (mt, inserted) := insert_value (table_of idx table_id) (key_buf key) val in
  (<[table_id := mt]> idx, if inserted : bool then OK else NOT_INSERTED).

Definition insert_ni (idx : indexes) (table_id : TableID) (key : Key) (val : option Value)
    (ni : NodeInfo) : indexes * NodeInfo * Result :=
  let '(mt, ni', inserted) :=
    insert_value_and_get_nodeinfo_on_success (table_of idx table_id) (key_buf key) val ni in
  (<[table_id := mt]> idx, ni', if inserted : bool then OK else NOT_INSERTED).

Definition insert_nm (idx : indexes) (table_id : TableID) (key : Key) (val : option Value)
    (nm : NodeMap) : indexes * NodeMap * Result :=
  let '(mt, ni, inserted) :=
    insert_value_and_get_nodeinfo_on_success (table_of idx table_id) (key_buf key) val node_info_init in
  let idx' := <[table_id := mt]> idx in
  if inserted : bool then
    match nm !! node ni with
    | None => (idx', nm, OK)
    | Some version =>
        if negb (version =? old_version ni) then (idx', nm, BAD_INSERT)
        else (idx', <[node ni := new_version ni]> nm, OK)
    end
  else (idx', nm, NOT_INSERTED).

(** The output parameters [next_key], [next_value] keep their values when
    nothing is found. *)
Definition get_next_kv (idx : indexes) (table_id : TableID) (lkey : Key)
    (next : Key * option Value) : (Key * option Value) * Result :=
  (scan (table_of idx table_id) (Some (key_buf lkey)) true (Some (key_buf UINT64_MAX)) false
     (mkCallback (fun d _ _ flag => (d, flag)) (fun _ k v flag => ((actual_key k, v), flag))) 1 next,
   OK).

Definition get_kv_in_range_with {S} (idx : indexes) (table_id : TableID) (lkey rkey : Key)
    (per_node_func : S -> leaf -> Z -> bool -> S * bool)
    (per_kv_func : S -> Key -> option Value -> bool -> S * bool) (d : S) : S * Result :=
  (scan (table_of idx table_id) (Some (key_buf lkey)) false (Some (key_buf rkey)) true
     (mkCallback per_node_func (fun d k v flag => per_kv_func d (actual_key k) v flag)) (-1) d, OK).

Abbreviation kv_map := (gmap Key (option Value)).

(** The callback of the two counted scans: [kv_map.emplace], then stop at [count]. *)
Definition collect_kv (count : Z) (m : kv_map) (key : Key) (val : option Value) (flag : bool)
  : kv_map * bool :=
  let m' := emplace m key val in
  (m', if negb (count =? -1) && (count <=? Z.of_nat (size m')) then false else flag).

(** [[lkey --> rkey)]. *)
Definition get_kv_in_range (idx : indexes) (table_id : TableID) (lkey rkey : Key) (count : Z)
    (m : kv_map) : kv_map * Result :=
  (fst (get_kv_in_range_with idx table_id lkey rkey (fun d _ _ flag => (d, flag)) (collect_kv count) m),
   OK).

(** The node callback that validates versions: the state is the node map and
    [exception_caught]. *)
Definition check_node (nm : NodeMap) (exception_caught : bool) (n : leaf) (version : Z) (flag : bool)
  : NodeMap * bool * bool :=
  match nm !! Some n with
  | None => (<[Some n := version]> nm, exception_caught, flag)
  | Some v => if negb (v =? version) then (nm, true, false) else (nm, exception_caught, flag)
  end.

Definition get_kv_in_range_nm (idx : indexes) (table_id : TableID) (lkey rkey : Key) (count : Z)
    (m : kv_map) (nm : NodeMap) : kv_map * NodeMap * Result :=
  let '((m', nm', exception_caught), _) :=
    get_kv_in_range_with idx table_id lkey rkey
      (fun '(m, nm, ex) n version flag =>
         let '(nm', ex', flag') := check_node nm ex n version flag in ((m, nm', ex'), flag'))
      (fun '(m, nm, ex) key val flag =>
         let (m', flag') := collect_kv count m key val flag in ((m', nm, ex), flag'))
      (m, nm, false) in
  (m', nm', if exception_caught : bool then BAD_SCAN else OK).

Definition get_kv_in_rev_range_with {S} (idx : indexes) (table_id : TableID) (lkey rkey : Key)
    (per_node_func : S -> leaf -> Z -> bool -> S * bool)
    (per_kv_func : S -> Key -> option Value -> bool -> S * bool) (d : S) : S * Result :=
  (rscan (table_of idx table_id) (Some (key_buf lkey)) true (Some (key_buf rkey)) false
     (mkCallback per_node_func (fun d k v flag => per_kv_func d (actual_key k) v flag)) (-1) d, OK).

(** [(lkey <-- rkey]]. *)
Definition get_kv_in_rev_range (idx : indexes) (table_id : TableID) (lkey rkey : Key) (count : Z)
    (m : kv_map) : kv_map * Result :=
  (fst (get_kv_in_rev_range_with idx table_id lkey rkey (fun d _ _ flag => (d, flag))
          (collect_kv count) m), OK).

Definition get_kv_in_rev_range_nm (idx : indexes) (table_id : TableID) (lkey rkey : Key) (count : Z)
    (m : kv_map) (nm : NodeMap) : kv_map * NodeMap * Result :=
  let '((m', nm', exception_caught), _) :=
    get_kv_in_rev_range_with idx table_id lkey rkey
      (fun '(m, nm, ex) n version flag =>
         let '(nm', ex', flag') := check_node nm ex n version flag in ((m, nm', ex'), flag'))
      (fun '(m, nm, ex) key val flag =>
         let (m', flag') := collect_kv count m key val flag in ((m', nm, ex), flag'))
      (m, nm, false) in
  (m', nm', if exception_caught : bool then BAD_SCAN else OK).

Definition remove (idx : indexes) (table_id : TableID) (key : Key) : outcome (indexes * Result) :=
  '(mt, removed) ← remove_value (table_of idx table_id) (key_buf key);
  mret (<[table_id := mt]> idx, if removed : bool then OK else NOT_DELETED).

Definition get_version_value (idx : indexes) (table_id : TableID) (n : leaf) : Z :=
  get_version_value_ (table_of idx table_id) n.
End MasstreeIndexes.

(** ** Facts about keys *)
Definition is_byte (x : Z) : Prop := 0 <= x < 256.

Lemma byte_of_div k i : 0 <= i -> byte_of k i = (k / 2 ^ (8 * i)) mod 256.
Proof.
  intros Hi. unfold byte_of. change 255 with (Z.ones 8). rewrite Z.land_ones, Z.shiftr_div_pow2 by lia. done.
Qed.

Lemma le_bytes_bytes k : Forall is_byte (le_bytes k).
Proof.
  apply Forall_forall. intros x (i & -> & _)%list_elem_of_fmap. rewrite byte_of_div by lia.
  apply Z.mod_pos_bound. lia.
Qed.
Lemma le_bytes_length k : length (le_bytes k) = 8%nat.
Proof. done. Qed.

Lemma byte_of_succ k i : 0 <= i -> byte_of k (i + 1) = byte_of (k / 256) i.
Proof.
  intros Hi. rewrite !byte_of_div by lia. f_equal. replace (8 * (i + 1)) with (8 + 8 * i) by lia.
  rewrite Z.pow_add_r, Z.div_div by lia. done.
Qed.

(** The first [n] bytes of a word. *)
Lemma le_word_bytes n k :
  0 <= k < 256 ^ Z.of_nat n -> le_word ((fun i => byte_of k (Z.of_nat i)) <$> seq 0 n) = k.
Proof.
  revert k. induction n as [|n IH]; intros k Hk; [simpl in *; lia|].
  rewrite Nat2Z.inj_succ, Z.pow_succ_r in Hk by lia.
  cbn [seq]. rewrite fmap_cons. cbn [le_word]. rewrite <- fmap_S_seq, <- list_fmap_compose.
  rewrite (list_fmap_ext _ (fun i => byte_of (k / 256) (Z.of_nat i))).
  - rewrite IH; [|split; [apply Z.div_pos; lia|apply Z.div_lt_upper_bound; lia]].
    rewrite byte_of_div by lia. change (8 * Z.of_nat 0) with 0. rewrite Z.pow_0_r, Z.div_1_r.
    pose proof (Z.div_mod k 256). lia.
  - intros i x _. simpl. rewrite <- byte_of_succ by lia. f_equal. lia.
Qed.

Lemma le_word_le_bytes k : is_key k -> le_word (le_bytes k) = k.
Proof. intros Hk. unfold le_bytes. apply le_word_bytes. exact Hk. Qed.

Lemma le_word_bound b : Forall is_byte b -> 0 <= le_word b < 256 ^ Z.of_nat (length b).
Proof.
  induction 1 as [|x b Hx _ IH]; [simpl; lia|]. cbn [le_word length].
  rewrite Nat2Z.inj_succ, Z.pow_succ_r by lia. unfold is_byte in Hx. lia.
Qed.

Lemma bytes_le_word b : Forall is_byte b ->
  (fun i => byte_of (le_word b) (Z.of_nat i)) <$> seq 0 (length b) = b.
Proof.
  induction 1 as [|x b Hx Hb IH]; [done|]. cbn [length seq]. rewrite fmap_cons.
  rewrite <- fmap_S_seq, <- list_fmap_compose. unfold is_byte in Hx.
  assert (Hdiv : le_word (x :: b) / 256 = le_word b).
  { cbn [le_word]. rewrite (Z.mul_comm 256), Z.div_add, Z.div_small by lia. lia. }
  f_equal.
  - rewrite byte_of_div by lia. change (8 * Z.of_nat 0) with 0. rewrite Z.pow_0_r, Z.div_1_r.
    cbn [le_word]. rewrite (Z.mul_comm 256), Z_mod_plus_full, Z.mod_small; lia.
  - rewrite <- IH at 2. apply list_fmap_ext. intros i y _. simpl.
    rewrite Nat2Z.inj_succ, <- Z.add_1_r, byte_of_succ by lia. f_equal. exact Hdiv.
Qed.

Lemma le_bytes_le_word b : Forall is_byte b -> length b = 8%nat -> le_bytes (le_word b) = b.
Proof. intros Hb Hl. unfold le_bytes. rewrite <- Hl. by apply bytes_le_word. Qed.

Lemma rev_le_bytes k : Forall is_byte (rev (le_bytes k)).
Proof. apply Forall_rev, le_bytes_bytes. Qed.

(** A key is stored most significant byte first. *)
Lemma key_buf_rev k : key_buf k = rev (le_bytes k).
Proof.
  unfold key_buf, byte_swap. apply le_bytes_le_word; [apply rev_le_bytes|].
  by rewrite length_rev.
Qed.

Lemma byte_swap_key k : is_key (byte_swap k).
Proof.
  unfold byte_swap, is_key. pose proof (le_word_bound _ (rev_le_bytes k)) as Hb.
  rewrite length_rev in Hb. exact Hb.
Qed.

Lemma byte_swap_swap k : is_key k -> byte_swap (byte_swap k) = k.
Proof.
  intros Hk. unfold byte_swap at 1. fold (key_buf k). rewrite key_buf_rev, rev_involutive.
  by apply le_word_le_bytes.
Qed.

Lemma actual_key_buf k : is_key k -> actual_key (key_buf k) = k.
Proof.
  intros Hk. unfold actual_key. rewrite take_ge by done. unfold key_buf.
  rewrite le_word_le_bytes by apply byte_swap_key. by apply byte_swap_swap.
Qed.

Fixpoint be_word (b : bytes) : Z :=
  match b with [] => 0 | x :: b' => x * 256 ^ Z.of_nat (length b') + be_word b' end.

Lemma be_word_bound b : Forall is_byte b -> 0 <= be_word b < 256 ^ Z.of_nat (length b).
Proof.
  induction 1 as [|x b Hx _ IH]; [simpl; lia|]. cbn [be_word length].
  rewrite Nat2Z.inj_succ, Z.pow_succ_r by lia. unfold is_byte in Hx. nia.
Qed.

Lemma be_word_app a b : be_word (a ++ b) = be_word a * 256 ^ Z.of_nat (length b) + be_word b.
Proof.
  induction a as [|x a IH]; [done|]. cbn [be_word app]. rewrite IH, length_app, Nat2Z.inj_add, Z.pow_add_r by lia.
  lia.
Qed.

Lemma be_word_rev b : be_word (rev b) = le_word b.
Proof.
  induction b as [|x b IH]; [done|]. cbn [rev le_word]. rewrite be_word_app, IH. cbn. lia.
Qed.

(** Lexicographic order is numeric order on words of the same length. *)
Lemma lex_compare_word a b :
  length a = length b -> Forall is_byte a -> Forall is_byte b ->
  lex_compare a b = (be_word a ?= be_word b).
Proof.
  revert b. induction a as [|x a IH]; intros [|y b] Hl Ha Hb; try done.
  apply Forall_cons in Ha as [Hx Ha]. apply Forall_cons in Hb as [Hy Hb].
  simpl in Hl. injection Hl as Hl. cbn [lex_compare be_word]. rewrite <- Hl.
  pose proof (be_word_bound a Ha). pose proof (be_word_bound b Hb). rewrite <- Hl in *.
  symmetry. destruct (Z.compare_spec x y) as [->|Hlt|Hgt].
  - rewrite IH by done. destruct (Z.compare_spec (be_word a) (be_word b)).
    + apply Z.compare_eq_iff. lia.
    + apply Z.compare_lt_iff. lia.
    + apply Z.compare_gt_iff. lia.
  - apply Z.compare_lt_iff. nia.
  - apply Z.compare_gt_iff. nia.
Qed.

Lemma key_buf_compare a b : is_key a -> is_key b -> lex_compare (key_buf a) (key_buf b) = (a ?= b).
Proof.
  intros Ha Hb. rewrite lex_compare_word; [|done|apply le_bytes_bytes..].
  rewrite !key_buf_rev, !be_word_rev, !le_word_le_bytes by done. done.
Qed.

Lemma key_buf_lt a b : is_key a -> is_key b -> lex_lt (key_buf a) (key_buf b) <-> a < b.
Proof. intros Ha Hb. unfold lex_lt. rewrite key_buf_compare by done. apply Z.compare_lt_iff. Qed.

Lemma key_buf_inj a b : is_key a -> is_key b -> key_buf a = key_buf b -> a = b.
Proof. intros Ha Hb Heq. rewrite <- (actual_key_buf a), <- (actual_key_buf b) by done. by rewrite Heq. Qed.

Lemma memcmp_key_buf a b : is_key a -> is_key b -> memcmp_prefix (key_buf a) (key_buf b) = (a ?= b).
Proof. intros Ha Hb. unfold memcmp_prefix. rewrite !take_ge by done. by apply key_buf_compare. Qed.

#[global] Arguments key_buf : simpl never.

Section Laws.
Context {Value leaf : Type} `{Countable leaf}
  `{BasicTable (option Value) leaf} `{!BasicTableLaws (option Value) leaf} `{BuildConfig}.
Local Abbreviation indexes := (gmap Z (table_type (V := option Value) (leaf := leaf))).
Implicit Types idx : indexes.

Definition entry idx (t k : Z) : option (option Value) := table_get (table_of idx t) (key_buf k).

Lemma table_of_insert idx t t' mt :
  table_of (<[t := mt]> idx) t' = if decide (t = t') then mt else table_of idx t'.
Proof.
  unfold table_of. destruct (decide (t = t')) as [->|Hne]; [by rewrite lookup_insert_eq|].
  by rewrite lookup_insert_ne.
Qed.

Lemma entry_set idx t k v t' k' : is_key k -> is_key k' ->
  entry (<[t := table_set (table_of idx t) (key_buf k) v]> idx) t' k' =
  if decide (t = t' /\ k = k') then Some v else entry idx t' k'.
Proof.
  intros Hk Hk'. unfold entry. rewrite table_of_insert.
  destruct (decide (t = t')) as [->|Hne].
  - rewrite get_set. destruct (decide (k = k')) as [->|Hkn].
    + by rewrite !decide_True by done.
    + rewrite !decide_False; [done|by intros []|]. intros ?%key_buf_inj; done.
  - rewrite decide_False; [done|by intros []].
Qed.

Lemma entry_insert idx t k v t' k' : is_key k -> is_key k' ->
  entry (insert idx t k v).1 t' k' =
  if decide (entry idx t k = None /\ t = t' /\ k = k') then Some v else entry idx t' k'.
Proof.
  intros Hk Hk'. unfold insert, insert_value.
  destruct (table_get (table_of idx t) (key_buf k)) as [w|] eqn:Hg; simpl.
  - rewrite decide_False by (unfold entry; rewrite Hg; by intros []).
    unfold entry. rewrite table_of_insert. by destruct (decide (t = t')) as [->|].
  - rewrite entry_set by done. assert (entry idx t k = None) as Hn by done.
    destruct (decide (t = t' /\ k = k')) as [[? ?]|Hne].
    + by rewrite decide_True.
    + rewrite decide_False; [done|]. intros (_ & ? & ?). by apply Hne.
Qed.

Lemma entry_del idx t k t' k' : is_key k -> is_key k' ->
  entry (<[t := table_del (table_of idx t) (key_buf k)]> idx) t' k' =
  if decide (t = t' /\ k = k') then None else entry idx t' k'.
Proof.
  intros Hk Hk'. unfold entry. rewrite table_of_insert.
  destruct (decide (t = t')) as [->|Hne].
  - rewrite get_del. destruct (decide (k = k')) as [->|Hkn].
    + by rewrite !decide_True by done.
    + rewrite !decide_False; [done|by intros []|]. intros ?%key_buf_inj; done.
  - rewrite decide_False; [done|by intros []].
Qed.

#[export] Instance masstree_indexes : Indexes indexes Value := {
  idx_empty := ∅;
  idx_find i t k := (find i t k).2;
  idx_insert i t k v := (insert i t k v).1
}.
#[export] Program Instance masstree_laws : IndexesLaws indexes Value := { idx_entry := entry }.
Next Obligation. done. Qed.
Next Obligation. intros t k. unfold entry, table_of. simpl. rewrite lookup_empty. apply get_initialize. Qed.
Next Obligation. intros. by apply entry_insert. Qed.

(** ** Range scans *)
(** All keys of a table are 64-bit keys. *)
Definition keys_ok (t : table_type) : Prop :=
  forall b v, table_get t b = Some v -> exists k, is_key k /\ b = key_buf k.

(** A callback pair that only collects values, scanned over values whose keys
    are in range up to some point and out of range from there on. *)
Section Collect.
Context {S : Type} (cb : Callback Value leaf S).
Context (visit : Scanner S -> bytes -> option Value -> Scanner S * bool) (inr : Z -> bool).
Context (push : S -> Z -> option Value -> S) (full : S -> bool).
Hypothesis node_neutral : forall d n v flag, per_node_func cb d n v flag = (d, flag).
Hypothesis kv_push : forall d k v flag, is_key k ->
  per_kv_func cb d (key_buf k) v flag = (push d k v, if full (push d k v) then false else flag).
Hypothesis visit_spec : forall sc k v, is_key k ->
  visit sc (key_buf k) v =
  if negb (continue_flag sc) then (sc, false)
  else let sc' := mkScanner (scan_num_cnt_ sc + 1) (continue_flag sc) (data sc) in
       if inr k then (call_kv cb sc' (key_buf k) v, true) else (sc', false).

(** Push until full. *)
Fixpoint pushes (d : S) (l : list (Z * option Value)) : S :=
  match l with
  | [] => d
  | (k, v) :: l' => let d' := push d k v in if full d' then d' else pushes d' l'
  end.

Lemma run_stopped l n d : Forall (fun kv => exists k, is_key k /\ kv.1 = key_buf k) (values_of l) ->
  data (run_visitor cb visit (mkScanner n false d) l) = d.
Proof.
  revert n. induction l as [|[nd ver|b v] l IH]; intros n Hl; [done| |]; simpl.
  - unfold visit_leaf. rewrite node_neutral. by apply IH.
  - apply Forall_cons in Hl as [(k & Hk & Hb) _]. simpl in Hb. subst b.
    rewrite visit_spec by done. done.
Qed.

Lemma run_collects l : forall n d kvs,
  values_of l = (fun kv => (key_buf kv.1, kv.2)) <$> kvs -> Forall (fun kv => is_key kv.1) kvs ->
  (forall i j ki kj, (i < j)%nat -> kvs !! i = Some ki -> kvs !! j = Some kj ->
     inr kj.1 = true -> inr ki.1 = true) ->
  data (run_visitor cb visit (mkScanner n true d) l) = pushes d (filter (fun kv => inr kv.1 = true) kvs).
Proof.
  induction l as [|[nd ver|b v] l IH]; intros n d kvs Hv Hk Hmono.
  - destruct kvs; [done|]. done.
  - simpl. unfold visit_leaf. rewrite node_neutral. by apply IH.
  - destruct kvs as [|[k w] kvs]; [done|]. rewrite fmap_cons in Hv. cbn in Hv.
    injection Hv as -> -> Hv. apply Forall_cons in Hk as [Hk Hks]. simpl in Hk.
    cbn [run_visitor]. rewrite visit_spec by done. cbn [continue_flag negb]. rewrite filter_cons. cbn [fst].
    destruct (inr k) eqn:Hin.
    + rewrite decide_True by done. unfold call_kv. cbn [data continue_flag]. rewrite kv_push by done.
      cbn [pushes]. destruct (full (push d k w)).
      * apply run_stopped. unfold values_of in *. rewrite Hv. apply Forall_fmap. eapply Forall_impl; [exact Hks|].
        intros kv ?. by exists kv.1.
      * apply IH; [done|done|]. intros i j ki kj Hij Hi Hj. apply (Hmono (Datatypes.S i) (Datatypes.S j)); [lia|done..].
    + rewrite decide_False by done. simpl. symmetry.
      destruct (filter _ kvs) as [|x xs] eqn:Hf; [done|].
      assert (x ∈ filter (fun kv => inr kv.1 = true) kvs) as Hx by (rewrite Hf; by left).
      apply list_elem_of_filter in Hx as [Hx [j Hj]%list_elem_of_lookup].
      exfalso. assert (inr k = true); [|congruence].
      by apply (Hmono 0%nat (Datatypes.S j) (k, w) x); [lia|..].
Qed.
End Collect.

(** The values of a table of 64-bit keys, by key. *)
Definition by_key (l : list (bytes * option Value)) : list (Z * option Value) :=
  (fun bv => (actual_key bv.1, bv.2)) <$> l.

Lemma by_key_buf l :
  Forall (fun bv => exists k, is_key k /\ bv.1 = key_buf k) l ->
  l = (fun kv => (key_buf kv.1, kv.2)) <$> by_key l /\ Forall (fun kv => is_key kv.1) (by_key l).
Proof.
  unfold by_key. induction 1 as [|[b v] l (k & Hk & Hb) _ [IH1 IH2]]; [done|]. simpl in Hb. subst b.
  rewrite !fmap_cons. simpl. rewrite actual_key_buf by done. split; [by rewrite <- IH1|by constructor].
Qed.

Lemma elem_of_by_key k v l :
  Forall (fun bv => exists k, is_key k /\ bv.1 = key_buf k) l ->
  (k, v) ∈ by_key l <-> is_key k /\ (key_buf k, v) ∈ l.
Proof.
  intros Hl. destruct (by_key_buf l Hl) as [Heq Hk]. split.
  - intros Hin. assert (is_key k) as Hik by (rewrite Forall_forall in Hk; by apply (Hk (k, v))).
    split; [done|]. rewrite Heq. apply list_elem_of_fmap. by exists (k, v).
  - intros [Hik Hin]. apply list_elem_of_fmap. exists (key_buf k, v). simpl.
    by rewrite actual_key_buf.
Qed.

Lemma by_key_sorted (R : Z -> Z -> Prop) (Rb : bytes -> bytes -> Prop) l :
  (forall a b, is_key a -> is_key b -> Rb (key_buf a) (key_buf b) -> R a b) ->
  Forall (fun bv => exists k, is_key k /\ bv.1 = key_buf k) l ->
  StronglySorted Rb l.*1 -> StronglySorted R (by_key l).*1.
Proof.
  intros HR Hl. induction Hl as [|[b v] l (k & Hk & Hb) Hl IH]; [constructor|]. simpl in Hb. subst b.
  rewrite !fmap_cons. intros [Hs Hf]%StronglySorted_inv. constructor; [by apply IH|].
  apply Forall_forall. intros x ([y w] & -> & Hin)%list_elem_of_fmap. cbn [fst].
  apply (elem_of_by_key y w l Hl) in Hin as [Hy Hin]. rewrite actual_key_buf by done.
  apply HR; [done..|]. rewrite Forall_forall in Hf. apply (Hf (key_buf y)).
  apply list_elem_of_fmap. by exists (key_buf y, w).
Qed.

Lemma scan_keys t k emit : keys_ok t ->
  Forall (fun bv => exists k, is_key k /\ bv.1 = key_buf k) (values_of (table_scan t k emit)).
Proof.
  intros Hok. apply Forall_forall. intros [b v] [Hg _]%scan_elem. by apply (Hok b v).
Qed.
Lemma rscan_keys t k emit : keys_ok t ->
  Forall (fun bv => exists k, is_key k /\ bv.1 = key_buf k) (values_of (table_rscan t k emit)).
Proof.
  intros Hok. apply Forall_forall. intros [b v] [Hg _]%rscan_elem. by apply (Hok b v).
Qed.

(** The number of entries a counted scan keeps. *)
Definition limited {A} (count : Z) (l : list A) : list A :=
  if count =? -1 then l else take (Z.to_nat (Z.max 1 count)) l.

Lemma pushes_emplace count (m : gmap Z (option Value)) l :
  NoDup l.*1 -> (forall k, k ∈ l.*1 -> m !! k = None) ->
  pushes emplace (fun m => negb (count =? -1) && (count <=? Z.of_nat (size m))) m l =
  list_to_map (if count =? -1 then l else take (Z.to_nat (Z.max 1 (count - Z.of_nat (size m)))) l) ∪ m.
Proof.
  revert m. induction l as [|[k v] l IH]; intros m Hnd Hnone.
  - simpl. destruct (count =? -1); rewrite ?take_nil; by rewrite left_id_L by apply _.
  - cbn [pushes]. rewrite fmap_cons in Hnd. apply NoDup_cons in Hnd as [Hk Hnd]. simpl in Hk.
    assert (Hm : m !! k = None) by (apply Hnone; rewrite fmap_cons; by left).
    assert (Hem : emplace m k v = <[k := v]> m) by (unfold emplace; by rewrite Hm).
    rewrite Hem. assert (Hsize : size (<[k := v]> m) = S (size m)) by by apply map_size_insert_None.
    assert (Hrec : forall k', k' ∈ l.*1 -> <[k := v]> m !! k' = None).
    { intros k' Hk'. rewrite lookup_insert_ne by (intros ->; done). apply Hnone. rewrite fmap_cons. by right. }
    rewrite Hsize. destruct (Z.eqb_spec count (-1)) as [->|Hne]; simpl negb; cbn [andb].
    + rewrite IH by done. change (-1 =? -1) with true. cbn iota.
      rewrite list_to_map_cons, <- insert_union_l, insert_union_r; [done|].
      by apply not_elem_of_list_to_map_1.
    + destruct (Z.leb_spec count (Z.of_nat (S (size m)))) as [Hle|Hgt].
      * replace (Z.to_nat (Z.max 1 (count - Z.of_nat (size m)))) with 1%nat by lia.
        rewrite firstn_cons, take_0, list_to_map_cons, list_to_map_nil.
        by rewrite <- insert_union_l, left_id_L by apply _.
      * rewrite IH, Hsize by done.
        replace (Z.to_nat (Z.max 1 (count - Z.of_nat (size m))))
          with (S (Z.to_nat (Z.max 1 (count - Z.of_nat (S (size m)))))) by lia.
        rewrite firstn_cons, list_to_map_cons, <- insert_union_l, insert_union_r; [done|].
        apply not_elem_of_list_to_map_1. intros Hin. apply Hk.
        apply list_elem_of_fmap in Hin as (x & -> & Hx). apply list_elem_of_fmap. exists x. split; [done|].
        by apply subseteq_take in Hx.
Qed.

(** The entries of a table with a 64-bit key that satisfies [P], listed in the
    order [R]. *)
Definition listed idx (t : Z) (R : Z -> Z -> Prop) (P : Z -> Prop) (kvs : list (Z * option Value)) : Prop :=
  StronglySorted R kvs.*1 /\
  forall k v, (k, v) ∈ kvs <-> is_key k /\ P k /\ entry idx t k = Some v.

Lemma order_NoDup (R : Z -> Z -> Prop) (l : list Z) :
  (forall x, ~ R x x) -> StronglySorted R l -> NoDup l.
Proof.
  intros HR. induction 1 as [|x l Hl IH Hx]; [constructor|]. constructor; [|done].
  intros Hin. rewrite Forall_forall in Hx. by apply (HR x), Hx.
Qed.

Lemma filter_sorted_keys (R : Z -> Z -> Prop) (f : Z -> bool) (l : list (Z * option Value)) :
  StronglySorted R l.*1 -> StronglySorted R (filter (fun kv => f kv.1 = true) l).*1.
Proof.
  induction l as [|[k v] l IH]; [done|]. rewrite fmap_cons. intros [Hs Hf]%StronglySorted_inv.
  rewrite filter_cons. case_decide; [|by apply IH]. rewrite fmap_cons. constructor; [by apply IH|].
  apply Forall_forall. intros x (y & -> & [_ Hy]%list_elem_of_filter)%list_elem_of_fmap.
  rewrite Forall_forall in Hf. apply Hf. by apply list_elem_of_fmap_2.
Qed.

Lemma bool_decide_compare a b : is_key a -> is_key b ->
  (bool_decide (memcmp_prefix (key_buf a) (key_buf b) = Gt) = (b <? a)) /\
  (bool_decide (memcmp_prefix (key_buf a) (key_buf b) = Lt) = (a <? b)) /\
  (bool_decide (memcmp_prefix (key_buf a) (key_buf b) = Eq) = (a =? b)).
Proof.
  intros Ha Hb. rewrite memcmp_key_buf by done.
  destruct (Z.compare_spec a b) as [->|?|?]; split_and!; case_bool_decide; try done; lia.
Qed.

(** The counted scans return the first [count] entries of the range. *)
Lemma counted_scan idx t (R : Z -> Z -> Prop) (P : Z -> Prop) (inr : Z -> bool) count
    (visit : Scanner (gmap Z (option Value)) -> bytes -> option Value -> Scanner (gmap Z (option Value)) * bool)
    (cb : Callback Value leaf (gmap Z (option Value))) evs kvs :
  (forall d n v flag, per_node_func cb d n v flag = (d, flag)) ->
  (forall d k v flag, per_kv_func cb d k v flag = collect_kv count d (actual_key k) v flag) ->
  (forall sc k v, is_key k -> visit sc (key_buf k) v =
    if negb (continue_flag sc) then (sc, false)
    else let sc' := mkScanner (scan_num_cnt_ sc + 1) (continue_flag sc) (data sc) in
         if inr k then (call_kv cb sc' (key_buf k) v, true) else (sc', false)) ->
  values_of evs = (fun kv => (key_buf kv.1, kv.2)) <$> kvs ->
  (forall x, ~ R x x) ->
  (forall x y, is_key x -> is_key y -> R x y -> inr y = true -> inr x = true) ->
  listed idx t R P kvs ->
  data (run_visitor cb visit (mkScanner 0 true ∅) evs) =
    list_to_map (limited count (filter (fun kv => inr kv.1 = true) kvs)) /\
  listed idx t R (fun k => P k /\ inr k = true) (filter (fun kv => inr kv.1 = true) kvs).
Proof.
  intros Hnode Hkv Hvisit Hvals Hirr Hmono [Hs Hl].
  assert (Hks : Forall (fun kv => is_key kv.1) kvs).
  { apply Forall_forall. intros [k v] Hin. by apply Hl in Hin as [? _]. }
  assert (Hsf : StronglySorted R (filter (fun kv => inr kv.1 = true) kvs).*1) by by apply filter_sorted_keys.
  split.
  - rewrite (run_collects cb visit inr emplace
      (fun m => negb (count =? -1) && (count <=? Z.of_nat (size m))) Hnode) with (kvs := kvs); try done.
    + rewrite pushes_emplace; [|by eapply order_NoDup|by intros; apply lookup_empty].
      rewrite map_size_empty, Z.sub_0_r, right_id_L by apply _. done.
    + intros d k v flag Hk. rewrite Hkv, actual_key_buf by done. done.
    + intros i j [ki vi] [kj vj] Hij Hi Hj Hin. simpl in *.
      apply (Hmono ki kj); [by rewrite Forall_lookup in Hks; apply (Hks i (ki, vi))
        |by rewrite Forall_lookup in Hks; apply (Hks j (kj, vj))| |done].
      apply (StronglySorted_lookup_lt R kvs.*1 i j); [done|done|by rewrite list_lookup_fmap, Hi|
        by rewrite list_lookup_fmap, Hj].
  - split; [done|]. intros k v. rewrite list_elem_of_filter, Hl. simpl. tauto.
Qed.

Lemma scan_listed idx t lkey emit :
  keys_ok (table_of idx t) -> is_key lkey ->
  let kvs := by_key (values_of (table_scan (table_of idx t) (key_buf lkey) emit)) in
  values_of (table_scan (table_of idx t) (key_buf lkey) emit) = (fun kv => (key_buf kv.1, kv.2)) <$> kvs /\
  listed idx t Z.lt (fun k => lkey < k \/ emit = true /\ k = lkey) kvs.
Proof.
  intros Hok Hl kvs. pose proof (scan_keys _ (key_buf lkey) emit Hok) as Hkeys.
  split; [by apply by_key_buf|]. split.
  - apply (by_key_sorted Z.lt lex_lt); [intros; by apply key_buf_lt|done|apply scan_sorted].
  - intros k v. unfold kvs. rewrite elem_of_by_key by done. split.
    + intros [Hk [Hg Hr]%scan_elem]. split_and!; [done| |done].
      destruct Hr as [Hr|[-> Hr]]; [left; by apply key_buf_lt|right; split; [done|by apply key_buf_inj]].
    + intros (Hk & Hr & Hg). split; [done|]. apply scan_elem. split; [done|].
      destruct Hr as [Hr|[-> ->]]; [left; by apply key_buf_lt|by right].
Qed.

Lemma rscan_listed idx t rkey emit :
  keys_ok (table_of idx t) -> is_key rkey ->
  let kvs := by_key (values_of (table_rscan (table_of idx t) (key_buf rkey) emit)) in
  values_of (table_rscan (table_of idx t) (key_buf rkey) emit) = (fun kv => (key_buf kv.1, kv.2)) <$> kvs /\
  listed idx t Z.gt (fun k => k < rkey \/ emit = true /\ k = rkey) kvs.
Proof.
  intros Hok Hl kvs. pose proof (rscan_keys _ (key_buf rkey) emit Hok) as Hkeys.
  split; [by apply by_key_buf|]. split.
  - apply (by_key_sorted Z.gt (flip lex_lt)); [|done|apply rscan_sorted].
    intros a b Ha Hb Hab. apply Z.lt_gt. by apply key_buf_lt.
  - intros k v. unfold kvs. rewrite elem_of_by_key by done. split.
    + intros [Hk [Hg Hr]%rscan_elem]. split_and!; [done| |done].
      destruct Hr as [Hr|[-> Hr]]; [left; by apply key_buf_lt|right; split; [done|by apply key_buf_inj]].
    + intros (Hk & Hr & Hg). split; [done|]. apply rscan_elem. split; [done|].
      destruct Hr as [Hr|[-> ->]]; [left; by apply key_buf_lt|by right].
Qed.

Lemma listed_iff idx t R (P Q : Z -> Prop) kvs :
  (forall k, is_key k -> P k <-> Q k) -> listed idx t R P kvs -> listed idx t R Q kvs.
Proof. intros HPQ [Hs Hl]. split; [done|]. intros k v. rewrite Hl. naive_solver. Qed.

Definition next_cb : Callback Value leaf (Z * option Value) :=
  mkCallback (fun d _ _ flag => (d, flag)) (fun _ k v flag => ((actual_key k, v), flag)).

(** A scan limited to one value delivers the first. *)
Lemma run_first evs : forall n flag d kvs, 0 <= n ->
  values_of evs = (fun kv => (key_buf kv.1, kv.2)) <$> kvs -> Forall (fun kv => is_key kv.1) kvs ->
  data (run_visitor next_cb (visit_value next_cb 1 (Some (key_buf UINT64_MAX)) false)
          (mkScanner n flag d) evs) =
  if flag && (n <? 1) then match kvs with kv :: _ => kv | [] => d end else d.
Proof.
  induction evs as [|[nd ver|b v] evs IH]; intros n flag d kvs Hn Hv Hks.
  - destruct kvs; [|done]. by destruct (flag && (n <? 1)).
  - cbn [run_visitor]. unfold visit_leaf. simpl. by apply IH.
  - destruct kvs as [|[k w] kvs]; [done|]. rewrite fmap_cons in Hv. cbn in Hv. injection Hv as -> -> Hv.
    apply Forall_cons in Hks as [Hk Hks]. simpl in Hk. cbn [run_visitor].
    unfold visit_value at 1. cbn [continue_flag scan_num_cnt_ Z.leb andb].
    change (0 <=? 1) with true. cbn [andb]. destruct flag; [|done]. cbn [negb orb andb].
    destruct (Z.leb_spec 1 n), (Z.ltb_spec n 1); try lia; [done|].
    destruct (bool_decide_compare UINT64_MAX k) as (-> & _ & ->); [unfold is_key, UINT64_MAX; lia|done|].
    cbn [Nat.eqb length negb andb]. rewrite !andb_true_r, andb_false_r, orb_false_r.
    assert ((k <? UINT64_MAX) || (UINT64_MAX =? k) = true) as ->.
    { unfold is_key, UINT64_MAX in *. lia. }
    unfold call_kv. cbn [data continue_flag next_cb per_kv_func scan_num_cnt_].
    rewrite (IH (n + 1) true _ kvs) by (done || lia). simpl. rewrite actual_key_buf by done.
    destruct (Z.ltb_spec (n + 1) 1); [|done]. lia.
Qed.

Definition collect_cb (count : Z) : Callback Value leaf (gmap Z (option Value)) :=
  mkCallback (fun d _ _ flag => (d, flag)) (fun d k v flag => collect_kv count d (actual_key k) v flag).
End Laws.

(** C24. [insert], [find] and [remove] of the index agree with a map from
    (table, 64-bit key) to pointers: a fresh key is inserted and found, a key
    already there is left alone and reported [NOT_INSERTED], other entries are
    untouched, and [remove] reports whether the entry was there. *)
Theorem index_is_a_map {Value leaf : Type} `{Countable leaf}
  `{BasicTable (option Value) leaf} `{!BasicTableLaws (option Value) leaf} `{BuildConfig}
  (idx : gmap Z table_type) t k (v : option Value) t' k' (Hk : is_key k) (Hk' : is_key k') :
  (insert idx t k v).2 = (if decide (entry idx t k = None) then OK else NOT_INSERTED) /\
  find (insert idx t k v).1 t' k' =
    (if decide (entry idx t k = None /\ t = t' /\ k = k') then
       (match v with None => NOT_FOUND | Some _ => OK end, v)
     else find idx t' k') /\
  (NDEBUG = true \/ previous_full_version_value (table_of idx t) (key_buf k)
                    = next_full_version_value (table_of idx t) (key_buf k) 0 ->
   exists idx', remove idx t k = Ok (idx', if decide (entry idx t k = None) then NOT_DELETED else OK) /\
     find idx' t' k' = if decide (t = t' /\ k = k') then (NOT_FOUND, None) else find idx t' k').
Proof.
  assert (Hfind : forall idx t k, find idx t k =
    match entry idx t k with Some (Some w) => (OK, Some w) | _ => (NOT_FOUND, None) end).
  { intros i u l. unfold find, get_value, entry. by destruct (table_get _ _) as [[w|]|]. }
  split_and!.
  - unfold insert, insert_value, entry. by destruct (table_get _ _).
  - rewrite !Hfind, entry_insert by done. case_decide; [|done]. by destruct v.
  - intros Hver. unfold remove, remove_value. fold (entry idx t k). destruct (entry idx t k) eqn:He; simpl.
    + eexists. split; [done|]. rewrite !Hfind, entry_del by done. by case_decide.
    + rewrite assert_ok by (destruct Hver as [?|?]; [by left|right; by apply Z.eqb_eq]).
      eexists. split; [done|]. rewrite !Hfind.
      assert (entry (<[t := table_of idx t]> idx) t' k' = entry idx t' k') as ->.
      { unfold entry. rewrite table_of_insert. by destruct (decide (t = t')) as [->|]. }
      case_decide as Heq; [|done]. destruct Heq as [<- <-]. by rewrite He.
Qed.

(** [get_next_kv] delivers the entry with the least key above [lkey], and
    leaves its output parameters alone when there is none; it reports [OK]
    either way. *)
Theorem get_next_kv_least {Value leaf : Type} `{Countable leaf}
  `{BasicTable (option Value) leaf} `{!BasicTableLaws (option Value) leaf} `{BuildConfig}
  (idx : gmap Z table_type) t lkey (next : Z * option Value)
  (Hok : keys_ok (table_of idx t)) (Hl : is_key lkey) :
  exists kvs, listed idx t Z.lt (fun k => lkey < k) kvs /\
    get_next_kv idx t lkey next = (match kvs with kv :: _ => kv | [] => next end, OK).
Proof.
  destruct (scan_listed idx t lkey false Hok Hl) as [Hv Hkvs].
  eexists. split; [eapply listed_iff; [|exact Hkvs]; intros k Hk; simpl; intuition (done || lia)|].
  unfold get_next_kv, scan. cbn [default negb]. f_equal.
  etransitivity; [apply (run_first _ 0 true next _ ltac:(lia) Hv)|done].
  apply Forall_forall. intros [k v] Hin. by apply Hkvs in Hin as [? _].
Qed.

(** C23. Range scans of the index are exact: over a table of 64-bit keys,
    [get_kv_in_range] returns the entries with [lkey <= k < rkey] and
    [get_kv_in_rev_range] those with [lkey < k <= rkey]: all of them when
    [count] is -1, otherwise the [max 1 count] first ones from the left, or
    from the right. *)
Theorem range_scans_exact {Value leaf : Type} `{Countable leaf}
  `{BasicTable (option Value) leaf} `{!BasicTableLaws (option Value) leaf} `{BuildConfig}
  (idx : gmap Z table_type) t lkey rkey count
  (Hok : keys_ok (table_of idx t)) (Hl : is_key lkey) (Hr : is_key rkey) :
  (exists kvs, listed idx t Z.lt (fun k => lkey <= k < rkey) kvs /\
     get_kv_in_range idx t lkey rkey count ∅ = (list_to_map (limited count kvs), OK)) /\
  (exists kvs, listed idx t Z.gt (fun k => lkey < k <= rkey) kvs /\
     get_kv_in_rev_range idx t lkey rkey count ∅ = (list_to_map (limited count kvs), OK)).
Proof.
  split.
  - destruct (scan_listed idx t lkey true Hok Hl) as [Hv Hkvs].
    set (cb := collect_cb (leaf := leaf) (Value := Value) count).
    edestruct (counted_scan idx t Z.lt (fun k => lkey < k \/ true = true /\ k = lkey)
      (fun k => k <? rkey) count (visit_value cb (-1) (Some (key_buf rkey)) true) cb) as [Hrun Hlist];
      [| | |exact Hv| | |exact Hkvs|]; [done|done| |intros x; lia|intros x y ?? ??; lia|].
    + intros sc k v Hk. unfold visit_value. destruct (bool_decide_compare rkey k Hr Hk) as (-> & _ & ->).
      destruct (continue_flag sc); [|done]. cbn [negb orb andb Z.leb].
      rewrite !andb_false_r, orb_false_r. simpl. by rewrite orb_false_r.
    + eexists. split; [eapply listed_iff; [|exact Hlist]; intros k Hk; simpl; lia|].
      unfold get_kv_in_range, get_kv_in_range_with, scan. cbn [fst]. f_equal. exact Hrun.
  - destruct (rscan_listed idx t rkey true Hok Hr) as [Hv Hkvs].
    set (cb := collect_cb (leaf := leaf) (Value := Value) count).
    edestruct (counted_scan idx t Z.gt (fun k => k < rkey \/ true = true /\ k = rkey)
      (fun k => lkey <? k) count (visit_value_backward cb (-1) (Some (key_buf lkey)) true) cb) as [Hrun Hlist];
      [| | |exact Hv| | |exact Hkvs|]; [done|done| |intros x; lia|intros x y ?? ??; lia|].
    + intros sc k v Hk. unfold visit_value_backward. destruct (bool_decide_compare lkey k Hl Hk) as (_ & -> & ->).
      destruct (continue_flag sc); [|done]. cbn [negb orb andb Z.leb].
      rewrite !andb_false_r, orb_false_r. simpl. by rewrite orb_false_r.
    + eexists. split; [eapply listed_iff; [|exact Hlist]; intros k Hk; simpl; lia|].
      unfold get_kv_in_rev_range, get_kv_in_rev_range_with, rscan. cbn [fst]. f_equal. exact Hrun.
Qed.

(** ** A table that satisfies the laws *)
Lemma lex_compare_refl a : lex_compare a a = Eq.
Proof. induction a as [|x a IH]; [done|]. simpl. by rewrite Z.compare_refl. Qed.
Lemma lex_compare_eq a b : lex_compare a b = Eq -> a = b.
Proof.
  revert b. induction a as [|x a IH]; intros [|y b]; simpl; try done.
  destruct (Z.compare_spec x y); try done. intros ?. subst. f_equal. by apply IH.
Qed.
Lemma lex_compare_antisym a b : lex_compare b a = CompOpp (lex_compare a b).
Proof.
  revert b. induction a as [|x a IH]; intros [|y b]; simpl; try done.
  rewrite Z.compare_antisym. destruct (x ?= y); simpl; [apply IH|done|done].
Qed.
Lemma lex_lt_trans a b c : lex_lt a b -> lex_lt b c -> lex_lt a c.
Proof.
  unfold lex_lt. revert b c. induction a as [|x a IH]; intros [|y b] [|z c]; simpl; try done.
  destruct (Z.compare_spec x y), (Z.compare_spec y z); try done; subst; intros H1 H2.
  - rewrite Z.compare_refl. by eapply IH.
  - by rewrite (proj2 (Z.compare_lt_iff _ _)).
  - by rewrite (proj2 (Z.compare_lt_iff _ _)).
  - rewrite (proj2 (Z.compare_lt_iff _ _)); [done|lia].
Qed.

Module RefTable.
Section Table.
Context {V : Type}.
Definition le (p q : bytes * V) : Prop := lex_compare p.1 q.1 <> Gt.
#[local] Instance le_dec p q : Decision (le p q).
Proof. unfold le. apply _. Defined.
#[local] Instance le_total : Total le.
Proof. intros p q. unfold le. rewrite (lex_compare_antisym p.1 q.1). destruct (lex_compare p.1 q.1); auto. Qed.
#[local] Instance le_trans : Transitive le.
Proof.
  intros p q r. unfold le. destruct (lex_compare p.1 q.1) eqn:H1; [|..]; intros Ha Hb; [|..|done].
  - by apply lex_compare_eq in H1 as ->.
  - destruct (lex_compare q.1 r.1) eqn:H2; [|..|done].
    + apply lex_compare_eq in H2 as <-. by rewrite H1.
    + by rewrite (lex_lt_trans p.1 q.1 r.1).
Qed.

(** The entries that satisfy [P], sorted. *)
Definition entries (t : gmap bytes V) (P : bytes -> Prop) `{!forall b, Decision (P b)} : list (bytes * V) :=
  merge_sort le (filter (fun bv => P bv.1) (map_to_list t)).

Lemma elem_of_entries t P `{!forall b, Decision (P b)} b v :
  (b, v) ∈ entries t P <-> t !! b = Some v /\ P b.
Proof.
  unfold entries. rewrite merge_sort_Permutation, list_elem_of_filter, elem_of_map_to_list. simpl. tauto.
Qed.

Lemma entries_sorted t P `{!forall b, Decision (P b)} : StronglySorted lex_lt (entries t P).*1.
Proof.
  assert (Hnd : NoDup (entries t P).*1).
  { unfold entries. rewrite merge_sort_Permutation.
    apply (NoDup_fmap_fst (filter (fun bv => P bv.1) (map_to_list t))).
    - intros b v w [_ Hv]%list_elem_of_filter [_ Hw]%list_elem_of_filter.
      apply elem_of_map_to_list in Hv, Hw. congruence.
    - apply NoDup_filter, NoDup_map_to_list. }
  pose proof (StronglySorted_merge_sort le (filter (fun bv => P bv.1) (map_to_list t))) as Hs.
  fold (entries t P) in Hs. revert Hnd. induction Hs as [|p l Hl IH Hp]; [constructor|].
  rewrite fmap_cons. intros [Hni Hnd]%NoDup_cons. constructor; [by apply IH|].
  apply Forall_forall. intros b (q & -> & Hq)%list_elem_of_fmap. rewrite Forall_forall in Hp.
  specialize (Hp q Hq). unfold le, lex_lt in *. destruct (lex_compare p.1 q.1) eqn:Hc; [|done|done].
  apply lex_compare_eq in Hc. destruct Hni. rewrite Hc. by apply list_elem_of_fmap_2.
Qed.

Definition events (l : list (bytes * V)) : list (event Z V) :=
  VisitLeaf 0 0 :: ((fun bv => VisitValue bv.1 bv.2) <$> l).
Lemma values_of_events l : values_of (events l) = l.
Proof.
  unfold events. change (values_of ((fun bv => VisitValue (leaf := Z) bv.1 bv.2) <$> l) = l).
  induction l as [|[b v] l IH]; [done|]. rewrite fmap_cons.
  change ((b, v) :: values_of ((fun bv => VisitValue (leaf := Z) bv.1 bv.2) <$> l) = (b, v) :: l).
  by rewrite IH.
Qed.

#[export] Instance table : BasicTable V Z := {
  table_type := gmap bytes V;
  initialize := ∅;
  table_get t k := t !! k;
  table_set t k v := <[k := v]> t;
  table_del t k := delete k t;
  node_at _ _ := 0;
  full_version_value _ _ := 0;
  previous_full_version_value _ _ := 0;
  next_full_version_value _ _ n := n;
  table_scan t k emit := events (entries t (fun b => lex_lt k b \/ emit = true /\ b = k));
  table_rscan t k emit := events (reverse (entries t (fun b => lex_lt b k \/ emit = true /\ b = k)))
}.

Lemma sorted_rev {A} (R : A -> A -> Prop) (l : list A) : StronglySorted R l -> StronglySorted (flip R) (reverse l).
Proof.
  induction 1 as [|x l Hl IH Hx]; [constructor|]. rewrite reverse_cons. apply StronglySorted_app_2; [|done|repeat constructor].
  intros a b Ha Hb. apply list_elem_of_singleton in Hb as ->. rewrite Forall_forall in Hx.
  apply Hx. by rewrite elem_of_reverse in Ha.
Qed.

#[export] Instance table_laws : BasicTableLaws V Z.
Proof.
  split; cbn -[events entries values_of].
  - intros k. apply lookup_empty.
  - intros t k v k'. case_decide as Heq; [subst; by rewrite lookup_insert_eq|by rewrite lookup_insert_ne].
  - intros t k k'. case_decide as Heq; [subst; by rewrite lookup_delete_eq|by rewrite lookup_delete_ne].
  - intros t k emit. rewrite values_of_events. apply entries_sorted.
  - intros t k emit b v. rewrite values_of_events. apply elem_of_entries.
  - intros t k emit. rewrite values_of_events, fmap_reverse. apply sorted_rev, entries_sorted.
  - intros t k emit b v. rewrite values_of_events, elem_of_reverse. apply elem_of_entries.
Qed.
End Table.
End RefTable.

(** Three keys in one table. *)
Section Witness.
Import RefTable.
#[local] Existing Instance table.
#[local] Existing Instance table_laws.
#[local] Existing Instance debug_build.

Definition three_keys : gmap Z (table_type (V := option positive) (leaf := Z)) :=
  let i1 := (insert ∅ 7 300 (Some 3%positive)).1 in
  let i2 := (insert i1 7 20 (Some 2%positive)).1 in
  (insert i2 7 1000 (Some 4%positive)).1.

Lemma keys_ok_insert (t : gmap bytes (option positive)) k v :
  is_key k -> keys_ok (t : table_type) -> keys_ok (<[key_buf k := v]> t : table_type).
Proof.
  intros Hk Hok b w. cbn. destruct (decide (key_buf k = b)) as [<-|Hne].
  - intros _. by exists k.
  - rewrite lookup_insert_ne by done. apply Hok.
Qed.

Lemma three_keys_ok : keys_ok (table_of three_keys 7).
Proof.
  assert (table_of three_keys 7 =
    <[key_buf 1000 := Some 4%positive]> (<[key_buf 20 := Some 2%positive]>
      (<[key_buf 300 := Some 3%positive]> ∅))) as -> by by vm_compute.
  repeat (apply keys_ok_insert; [unfold is_key; lia|]). intros b v. cbn. by rewrite lookup_empty.
Qed.

Lemma index_is_a_map_witness :
  find (insert three_keys 7 20 (Some 9%positive)).1 7 20 = (OK, Some 2%positive).
Proof.
  destruct (index_is_a_map three_keys 7 20 (Some 9%positive) 7 20) as (_ & -> & _);
    [split; vm_compute; done..|]. by vm_compute.
Defined.

Lemma range_scans_exact_witness :
  exists kvs, listed three_keys 7 Z.lt (fun k => 20 <= k < 1000) kvs /\
    get_kv_in_range three_keys 7 20 1000 (-1) ∅ = (list_to_map kvs, OK).
Proof.
  destruct (range_scans_exact three_keys 7 20 1000 (-1) three_keys_ok) as [(kvs & Hl & ->) _];
    [split; vm_compute; done..|]. by exists kvs.
Defined.

Lemma get_next_kv_least_witness :
  exists kvs, listed three_keys 7 Z.lt (fun k => 20 < k) kvs /\
    get_next_kv three_keys 7 20 (0, None) = (match kvs with kv :: _ => kv | [] => (0, None) end, OK).
Proof. apply (get_next_kv_least three_keys 7 20 (0, None) three_keys_ok). split; vm_compute; done. Defined.

Example next_of_20 : get_next_kv three_keys 7 20 (0, None) = ((300, Some 3%positive), OK).
Proof. by vm_compute. Qed.
Example two_from_the_right :
  get_kv_in_rev_range three_keys 7 20 1000 1 ∅ = (<[1000 := Some 4%positive]> ∅, OK).
Proof. by vm_compute. Qed.
End Witness.
End MasstreeIndexes.
