(* ===== verification/Ycsb.v ===== *)
(** * Ycsb: configuration and operation sets of the YCSB benchmark

    [benchmarks/ycsb/include/config.hpp] and the operation sets of
    [protocols/*/include/operation_set.hpp].  The random generators are streams
    of draws that a definition consumes. *)
From S2P Require Import Prelude.

(** ** [Workload] and [Config] *)
Record Workload := mkWorkload {
  read_propotion : Z;
  update_propotion : Z;
  readmodifywrite_propotion : Z
}.
Definition Workload_init : Workload := mkWorkload (-1) (-1) (-1).

Record Config := mkConfig {
  w : Workload;
  num_records : Z;
  num_threads : Z;
  reps_per_txn : Z;
  does_random_abort : bool;
  protocol_ : string
}.

Section Configuration.
Local Open Scope string_scope.

(** The fields are assigned before the sum is checked. *)
Definition set_workload (r u rmw : Z) : outcome Workload :=
  if (r + u + rmw =? 100)%Z then Ok (mkWorkload r u rmw) else Err (RuntimeError "invalid workload").

Definition with_workload (c : Config) (wl : Workload) : Config :=
  mkConfig wl (num_records c) (num_threads c) (reps_per_txn c) (does_random_abort c) (protocol_ c).

Definition set_workload_type (c : Config) (workload_type : string) : outcome Config :=
  wl ← (if String.eqb workload_type "A" then set_workload 50 50 0
        else if String.eqb workload_type "B" then set_workload 95 5 0
        else if String.eqb workload_type "C" then set_workload 100 0 0
        else if String.eqb workload_type "F" then set_workload 50 0 50
        else if String.eqb workload_type "X" then set_workload 0 100 0
        else if String.eqb workload_type "W90" then set_workload 10 90 0
        else if String.eqb workload_type "W80" then set_workload 20 80 0
        else Err (RuntimeError "unknown workload"));
  mret (with_workload c wl).

Definition get_read_propotion (c : Config) : outcome Z :=
  if (read_propotion (w c) <? 0)%Z then Err (RuntimeError "workload unset")
  else mret (read_propotion (w c)).
Definition get_update_propotion (c : Config) : outcome Z :=
  if (update_propotion (w c) <? 0)%Z then Err (RuntimeError "workload unset")
  else mret (update_propotion (w c)).
Definition get_readmodifywrite_propotion (c : Config) : outcome Z :=
  if (readmodifywrite_propotion (w c) <? 0)%Z then Err (RuntimeError "workload unset")
  else mret (readmodifywrite_propotion (w c)).

Definition get_max_reps_per_txn : Z := 1000.
Definition set_reps_per_txn (c : Config) (reps : Z) : outcome Config :=
  if (get_max_reps_per_txn <? reps)%Z then Err (RuntimeError "invalid reps per txn")
  else mret (mkConfig (w c) (num_records c) (num_threads c) reps (does_random_abort c) (protocol_ c)).
End Configuration.

(** ** Operations *)
Inductive Ope := Read | Update.
#[export] Instance Ope_eq_dec : EqDecision Ope.
Proof. solve_decision. Defined.

(** [pending_] is the version the initialisation phase installs; [w_set_]
    points at operations of [rw_set_], so it is a list of indices. *)
Record Operation := mkOperation {
  ope_ : Ope;
  index_ : Z;
  value_ : Z;
  pending_ : option positive
}.
Record OperationSet := mkOperationSet {
  rw_set_ : list Operation;
  w_set_ : list nat
}.

Definition Operation_new (ope : Ope) (idx : Z) : Operation := mkOperation ope idx 0 None.

(** Draws left in the two generators: [urand_int(1, 100)] and [zipf_int(..)]. *)
Record Draws := mkDraws { urands : list Z; zipfs : list Z }.

Definition urand_int : M Draws Z := fun d =>
  match urands d with x :: l => Ok (x, mkDraws l (zipfs d)) | [] => Err OutOfFuel end.
Definition zipf_int : M Draws Z := fun d =>
  match zipfs d with x :: l => Ok (x, mkDraws (urands d) l) | [] => Err OutOfFuel end.

Definition has_key (ops : list Operation) (key : Z) : bool :=
  bool_decide (is_Some (list_find (fun o => index_ o = key) ops)).

(** The [while] that redraws until the key is new; every turn consumes a draw. *)
Fixpoint fresh_key (draws : list Z) (key_of : Z -> Z) (ops : list Operation)
  : outcome (Z * list Z) :=
  match draws with
  | [] => Err OutOfFuel
  | d :: ds => if has_key ops (key_of d) then fresh_key ds key_of ops else Ok (key_of d, ds)
  end.

Definition draw_fresh (key_of : Z -> Z) (ops : list Operation) : M Draws Z := fun d =>
  match fresh_key (zipfs d) key_of ops with
  | Ok (k, ds) => Ok (k, mkDraws (urands d) ds)
  | Err e => Err e
  end.

(** [std::vector<int> contented_keys]. *)
Definition contented_keys : list Z := (fun i => 131072 * i) <$> seqZ 0 77.

Definition add_operation (c : Config) (key_of : Z -> Z) (s : OperationSet) : M Draws OperationSet :=
  operationType ← urand_int;
  key ← draw_fresh key_of (rw_set_ s);
  r ← lift (get_read_propotion c);
  if operationType <=? r then mret (mkOperationSet (rw_set_ s ++ [Operation_new Read key]) (w_set_ s))
  else mret (mkOperationSet (rw_set_ s ++ [Operation_new Update key])
               (w_set_ s ++ [length (rw_set_ s)])).

Fixpoint add_operations (n : nat) (c : Config) (key_of : Z -> Z) (s : OperationSet)
  : M Draws OperationSet :=
  match n with
  | O => mret s
  | S n' => s' ← add_operation c key_of s; add_operations n' c key_of s'
  end.

(** The constructor: three keys from the whole table, seven from 77 hot keys.
    [contented_keys[z % 77]]. *)
Definition hot_key (z : Z) : Z := default 0 (contented_keys !! Z.to_nat (z mod 77)).
Definition OperationSet_new (c : Config) : M Draws OperationSet :=
  s ← add_operations 3 c id (mkOperationSet [] []);
  add_operations 7 c hot_key s.

(** Cheetah's check, quadratic as in the code. *)
Definition no_dupulicate_key (s : OperationSet) : bool :=
  forallb (fun ope1 =>
    negb (1 <? Z.of_nat (length (filter (fun ope2 => index_ ope1 = index_ ope2) (rw_set_ s)))))
    (rw_set_ s).

(** ** Facts *)
Definition set_ok (s : OperationSet) : Prop :=
  NoDup (index_ <$> rw_set_ s) /\ NoDup (w_set_ s) /\
  (forall i, i ∈ w_set_ s <-> exists o, rw_set_ s !! i = Some o /\ ope_ o = Update) /\
  Forall (fun o => pending_ o = None) (rw_set_ s).

Lemma has_key_spec ops key : has_key ops key = true <-> key ∈ (index_ <$> ops).
Proof.
  unfold has_key. rewrite bool_decide_eq_true. split.
  - intros [[i o] (Ho & Hk & _)%list_find_Some]. apply list_elem_of_fmap. exists o.
    split; [done|]. by eapply list_elem_of_lookup_2.
  - intros (o & -> & Ho)%list_elem_of_fmap. by eapply list_find_elem_of.
Qed.

Lemma fresh_key_Ok draws key_of ops k ds :
  fresh_key draws key_of ops = Ok (k, ds) ->
  (k ∉ (index_ <$> ops)) /\ (exists d, d ∈ draws /\ k = key_of d).
Proof.
  induction draws as [|d draws IH]; simpl; [done|].
  destruct (has_key ops (key_of d)) eqn:Hk.
  - intros (? & d' & ? & ?)%IH. split; [done|]. exists d'. set_solver.
  - intros [= <- <-]. split; [|exists d; set_solver]. rewrite <- has_key_spec. by rewrite Hk.
Qed.

(** A draw that gives a new key is eventually taken. *)
Lemma fresh_key_total draws key_of ops d :
  d ∈ draws -> key_of d ∉ (index_ <$> ops) -> exists k ds, fresh_key draws key_of ops = Ok (k, ds).
Proof.
  induction draws as [|d' draws IH]; [by intros ?%not_elem_of_nil|]. intros Hd Hk. simpl.
  destruct (has_key ops (key_of d')) eqn:Hh; [|eauto].
  apply IH; [|done]. apply elem_of_cons in Hd as [->|Hd]; [|done].
  by apply has_key_spec in Hh.
Qed.

Lemma add_operation_ok c key_of s d s' d' :
  set_ok s -> add_operation c key_of s d = Ok (s', d') ->
  set_ok s' /\ exists o, rw_set_ s' = rw_set_ s ++ [o] /\ exists z, z ∈ zipfs d /\ index_ o = key_of z.
Proof.
  intros (Hnd & Hw & Hin & Hp). unfold add_operation, urand_int, draw_fresh.
  unfold mbind, M_bind, lift. destruct d as [us zs]; simpl.
  destruct us as [|u us]; [done|]. simpl.
  destruct (fresh_key zs key_of (rw_set_ s)) as [[k ds]|] eqn:Hk; [|done].
  apply fresh_key_Ok in Hk as (Hnot & z & Hz & ->).
  assert (Hlt : forall i, i ∈ w_set_ s -> (i < length (rw_set_ s))%nat).
  { intros i (o & Ho & _)%Hin. by eapply lookup_lt_Some. }
  destruct (get_read_propotion c) as [r|]; [|done].
  assert (Hnd' : forall o, index_ o = key_of z -> NoDup (index_ <$> (rw_set_ s ++ [o]))).
  { intros o Ho. rewrite fmap_app. apply NoDup_app. split_and!; [done| |apply NoDup_singleton].
    intros x Hx ->%list_elem_of_singleton. rewrite Ho in Hx. done. }
  destruct (u <=? r); intros [= <- <-]; simpl; (split; [|eexists; split; [done|]; by exists z]).
  - split_and!; [by apply Hnd'|done| |apply Forall_app; split; [done|by constructor]].
    intros i. simpl. rewrite Hin. split; intros (o & Ho & Hu); exists o.
    + split; [|done]. by apply lookup_app_l_Some.
    + apply lookup_app_Some in Ho as [Ho|[? Ho]]; [done|].
      apply list_lookup_singleton_Some in Ho as [_ <-]. done.
  - split_and!; [by apply Hnd'| | |apply Forall_app; split; [done|by constructor]]; simpl.
    + apply NoDup_app. split_and!; [done| |apply NoDup_singleton].
      intros i Hi%Hlt ->%list_elem_of_singleton. lia.
    + intros i. rewrite elem_of_app, Hin, list_elem_of_singleton. split.
      * intros [(o & Ho & Hu)| ->].
        -- exists o. split; [by apply lookup_app_l_Some|done].
        -- exists (Operation_new Update (key_of z)).
           by rewrite lookup_app_r, Nat.sub_diag by lia.
      * intros (o & [Ho|[Hge Ho]]%lookup_app_Some & Hu); [left; by exists o|right].
        apply list_lookup_singleton_Some in Ho as [Hi _]. lia.
Qed.

Lemma add_operations_ok n c key_of s d s' d' :
  set_ok s -> add_operations n c key_of s d = Ok (s', d') ->
  set_ok s' /\ exists ops, rw_set_ s' = rw_set_ s ++ ops /\ length ops = n /\
    Forall (fun o => exists z, index_ o = key_of z) ops.
Proof.
  revert s d. induction n as [|n IH]; intros s d Hs H; simpl in H.
  - injection H as <- <-. split; [done|]. exists []. by rewrite app_nil_r.
  - unfold mbind, M_bind in H. destruct (add_operation c key_of s d) as [[s1 d1]|] eqn:H1; [|done].
    apply add_operation_ok in H1 as (Hs1 & o & Hrw & z & _ & Hz); [|done].
    apply IH in H as (Hs' & ops & Hrw' & Hlen & Hall); [|done]. split; [done|].
    exists (o :: ops). rewrite Hrw', Hrw, <- app_assoc. simpl. split_and!; [done|by rewrite Hlen|].
    constructor; [by exists z|done].
Qed.

(** Enough draws for [n] operations: [n] values for the type, and [n] blocks
    each with more distinct keys than the set can hold. *)
Definition block_ok (key_of : Z -> Z) (m : nat) (b : list Z) : Prop :=
  exists ks, NoDup ks /\ (m < length ks)%nat /\ forall k, k ∈ ks -> exists z, z ∈ b /\ key_of z = k.

Lemma add_operation_total c key_of s us zs b bs r :
  get_read_propotion c = Ok r -> us <> [] -> block_ok key_of (length (rw_set_ s)) b ->
  exists s' us' zs', add_operation c key_of s (mkDraws us (zs ++ b ++ bs))
    = Ok (s', mkDraws us' (zs' ++ bs)) /\ us = take 1 us ++ us' /\
    length (rw_set_ s') = S (length (rw_set_ s)).
Proof.
  intros Hr Hus (ks & Hnd & Hlen & Hks). destruct us as [|u us]; [done|].
  assert (Hnew : exists k, k ∈ ks /\ k ∉ (index_ <$> rw_set_ s)).
  { destruct (decide (Exists (fun k => k ∉ (index_ <$> rw_set_ s)) ks)) as [He|He].
    - apply Exists_exists in He as (k & ? & ?). eauto.
    - exfalso. apply not_Exists_Forall in He; [|intros k; apply _].
      assert (Hi : (length ks <= length (index_ <$> rw_set_ s))%nat).
      { apply List.NoDup_incl_length; [by apply NoDup_ListNoDup|]. intros k Hk.
        apply list_elem_of_In in Hk. apply list_elem_of_In. rewrite Forall_forall in He.
        apply dec_stable. by apply He. }
      rewrite length_fmap in Hi. lia. }
  destruct Hnew as (k & Hk & Hnot). apply Hks in Hk as (z & Hz & <-).
  assert (Hcut : forall zs1, key_of z ∉ (index_ <$> rw_set_ s) -> z ∈ zs1 -> exists key zs',
    fresh_key (zs1 ++ bs) key_of (rw_set_ s) = Ok (key, zs' ++ bs)).
  { clear -zs. induction zs1 as [|z1 zs1 IH]; [by intros _ ?%not_elem_of_nil|]. intros Hn Hin. simpl.
    destruct (has_key (rw_set_ s) (key_of z1)) eqn:Hh; [|eauto].
    apply IH; [done|]. apply elem_of_cons in Hin as [->|Hin]; [|done].
    by apply has_key_spec in Hh. }
  destruct (Hcut (zs ++ b)) as (key & zs' & Hf); [done|set_solver|].
  unfold add_operation, urand_int, draw_fresh, mbind, M_bind, lift. simpl.
  rewrite <- app_assoc in Hf. rewrite Hf, Hr.
  destruct (u <=? r); simpl; do 3 eexists; (split; [reflexivity|]); simpl;
    (split; [done|]); rewrite length_app; simpl; lia.
Qed.

Lemma add_operations_total c key_of r (bs : list (list Z)) rest :
  get_read_propotion c = Ok r ->
  forall s us zs, (length bs <= length us)%nat ->
  Forall (block_ok key_of (length (rw_set_ s) + length bs)) bs ->
  exists s' us' zs', add_operations (length bs) c key_of s (mkDraws us (zs ++ concat bs ++ rest))
    = Ok (s', mkDraws us' (zs' ++ rest)) /\ (length us = length bs + length us')%nat /\
    length (rw_set_ s') = (length (rw_set_ s) + length bs)%nat.
Proof.
  intros Hr. induction bs as [|b bs IH]; intros s us zs Hlen Hbs; simpl in *.
  - exists s, us, zs. split_and!; [done|lia|lia].
  - inversion Hbs as [|? ? Hb Hbs']; subst.
    destruct (add_operation_total c key_of s us zs b (concat bs ++ rest) r)
      as (s1 & us1 & zs1 & H1 & Hus & Hl1); [done|destruct us; simpl in *; [lia|done]|..].
    { destruct Hb as (ks & ? & ? & ?). exists ks. split_and!; [done|lia|done]. }
    destruct us as [|u us]; simpl in *; [lia|]. injection Hus as ->.
    destruct (IH s1 us1 zs1) as (s' & us' & zs' & H2 & Hl & Hl'); [lia| |].
    { eapply Forall_impl; [exact Hbs'|]. intros b' (ks & ? & ? & ?). exists ks.
      split_and!; [done|lia|done]. }
    exists s', us', zs'. rewrite <- app_assoc. unfold mbind, M_bind. rewrite H1.
    split_and!; [done|lia|lia].
Qed.

Lemma unique_key (ops : list Operation) key :
  NoDup (index_ <$> ops) -> (length (filter (fun o => key = index_ o) ops) <= 1)%nat.
Proof.
  induction ops as [|o ops IH]; csimpl; intros Hnd; [simpl; lia|].
  apply NoDup_cons in Hnd as [Ho Hnd]. destruct (decide (key = index_ o)) as [->|Hne].
  - rewrite filter_cons_True by done. simpl.
    destruct (filter (fun o0 => index_ o = index_ o0) ops) as [|o' l] eqn:Hf; [simpl; lia|].
    assert (o' ∈ o' :: l) as Hin by set_solver.
    rewrite <- Hf in Hin. apply list_elem_of_filter in Hin as [Heq Ho']. exfalso.
    apply Ho, list_elem_of_fmap. by exists o'.
  - rewrite filter_cons_False by done. by apply IH.
Qed.

(** C26. The operation set of a transaction.  Whenever the constructor returns,
    the set holds ten operations on ten distinct keys, the last seven of them
    hot keys; the write set points at exactly the updates, in order and without
    repetition, and no pending version is set.  It does return when the
    generators provide ten draws for the operation types and, for each
    operation, a block of draws with more distinct keys than operations. *)
Theorem operation_set_constructed c r us (b1 b2 : list (list Z)) rest :
  get_read_propotion c = Ok r ->
  (10 <= length us)%nat -> length b1 = 3%nat -> length b2 = 7%nat ->
  Forall (block_ok id 10) b1 -> Forall (block_ok hot_key 10) b2 ->
  exists s d', OperationSet_new c (mkDraws us (concat b1 ++ concat b2 ++ rest)) = Ok (s, d') /\
    set_ok s /\ length (rw_set_ s) = 10%nat /\ no_dupulicate_key s = true /\
    Forall (fun o => exists z, index_ o = hot_key z) (drop 3 (rw_set_ s)).
Proof.
  intros Hr Hus Hl1 Hl2 Hb1 Hb2. unfold OperationSet_new.
  assert (Hinit : set_ok (mkOperationSet [] [])).
  { split_and!; [constructor|constructor| |constructor]. intros i. simpl. split; [by intros ?%not_elem_of_nil|].
    by intros (o & ? & _). }
  destruct (add_operations_total c id r b1 (concat b2 ++ rest) Hr (mkOperationSet [] []) us [])
    as (s1 & us1 & zs1 & H1 & Hlu & Hls1); [lia| |].
  { eapply Forall_impl; [exact Hb1|]. intros b (ks & ? & ? & ?). exists ks. simpl. split_and!; [done|lia|done]. }
  destruct (add_operations_total c hot_key r b2 rest Hr s1 us1 zs1)
    as (s2 & us2 & zs2 & H2 & _ & Hls2); [lia| |].
  { eapply Forall_impl; [exact Hb2|]. intros b (ks & ? & ? & ?). exists ks. simpl in *. split_and!; [done|lia|done]. }
  rewrite Hl1, app_nil_l in H1. rewrite Hl2 in H2. exists s2, (mkDraws us2 (zs2 ++ rest)).
  unfold mbind, M_bind. rewrite H1.
  pose proof (add_operations_ok _ _ _ _ _ _ _ Hinit H1) as (Hs1 & ops1 & Hrw1 & Ho1 & _).
  pose proof (add_operations_ok _ _ _ _ _ _ _ Hs1 H2) as (Hs2 & ops2 & Hrw2 & Ho2 & Hall2).
  split_and!; [done..|simpl in *; lia| |].
  - destruct Hs2 as (Hnd & _). unfold no_dupulicate_key. apply forallb_forall.
    intros o Ho. apply negb_true_iff, Z.ltb_ge.
    pose proof (unique_key _ (index_ o) Hnd). lia.
  - rewrite Hrw2, drop_app_length'; [done|]. rewrite Hrw1. simpl. by rewrite Ho1.
Qed.

Lemma block_ok_map key_of (b : list Z) m :
  NoDup (key_of <$> b) -> (m < length b)%nat -> block_ok key_of m b.
Proof.
  intros Hnd Hlen. exists (key_of <$> b). split_and!; [done|by rewrite length_fmap|].
  intros k (z & -> & Hz)%list_elem_of_fmap. by exists z.
Qed.

(** Workload A; every block of draws has eleven candidate keys. *)
Definition config_A : Config := mkConfig (mkWorkload 50 50 0) 10000000 64 10 false "serval".
Lemma operation_set_constructed_witness :
  exists s d', OperationSet_new config_A
    (mkDraws (replicate 10 30) (concat (replicate 3 (seqZ 0 11)) ++ concat (replicate 7 (seqZ 0 11)) ++ []))
    = Ok (s, d') /\ set_ok s /\ length (rw_set_ s) = 10%nat /\ no_dupulicate_key s = true.
Proof.
  destruct (operation_set_constructed config_A 50 (replicate 10 30) (replicate 3 (seqZ 0 11))
    (replicate 7 (seqZ 0 11)) []) as (s & d' & ? & ? & ? & ? & _); [done|done|done|done| | |by exists s, d'].
  - apply Forall_replicate, block_ok_map; [apply (bool_decide_unpack _); by vm_compute|vm_compute; lia].
  - apply Forall_replicate, block_ok_map; [apply (bool_decide_unpack _); by vm_compute|vm_compute; lia].
Defined.
