(* ===== verification/YcsbTx.v ===== *)
(** * YcsbTx: the YCSB transaction profiles and their runner

    [benchmarks/ycsb/include/read_tx.hpp], [update_tx.hpp],
    [read_modify_write_tx.hpp], [tx_runner.hpp] and the statistics and
    [TxHelper] of [tx_utils.hpp].  The [Transaction] they are templates over is
    only there as a comment ([protocols/*/ycsb/transaction.hpp]): it is the
    class [Transaction], and what the profiles rely on the class
    [TransactionLaws], over a map from keys to payloads. *)
From S2P Require Import Prelude Ycsb.

(** ** [tx_utils.hpp] *)
Inductive Status := SUCCESS | USER_ABORT | SYSTEM_ABORT | BUG.
Inductive TxProfileID := READ_TX | UPDATE_TX | READMODIFYWRITE_TX.
Definition TxProfileID_value (i : TxProfileID) : nat := match i with READ_TX => 0 | UPDATE_TX => 1 | READMODIFYWRITE_TX => 2 end.
Definition MAX_TX : nat := 3.
Inductive Result := Succeeded | Failed | Aborted.

Record PerTxType := mkPerTxType { num_commits : Z; num_usr_aborts : Z; num_sys_aborts : Z }.
Definition zero : PerTxType := mkPerTxType 0 0 0.
Definition add_per (this rhs : PerTxType) : PerTxType :=
  mkPerTxType (u64 (num_commits this + num_commits rhs)) (u64 (num_usr_aborts this + num_usr_aborts rhs))
    (u64 (num_sys_aborts this + num_sys_aborts rhs)).
(** [per_type_], an array of [TxProfileID::MAX] elements. *)
Definition Stat_add (this rhs : list PerTxType) : list PerTxType := zip_with add_per this rhs.
Definition aggregate_perf (this : list PerTxType) : PerTxType := fold_left add_per this zero.

(** A payload is its bytes; [Payload()] clears them. *)
Definition Payload : Type := list Z.
Definition blank (size : nat) : Payload := replicate size 0.

(** The member functions the profiles call. *)
Class Transaction := {
  engine : Type;
  ptr : Type;
  load : ptr -> engine -> option Payload;
  store : ptr -> Payload -> engine -> engine;
  get_record : Z -> M engine (Result * ptr);
  prepare_record_for_update : Z -> M engine (Result * ptr);
  finish_update : ptr -> M engine Result;
  prepare_record_for_write : Z -> M engine (Result * ptr);
  finish_write : ptr -> M engine Result;
  commit_ : M engine bool;
  abort_ : M engine unit }.

(** ** The profiles *)
Section Profiles.
Context `{!Transaction} (c : Config) (PAYLOAD_SIZE : nat).

(** The engine, the generators and the statistics of the worker. *)
Record World := mkWorld { eng : engine; draws : Draws; stat : list PerTxType }.
Definition on_engine {A} (m : M engine A) : M World A := fun w =>
  match m (eng w) with Ok (a, e) => Ok (a, mkWorld e (draws w) (stat w)) | Err x => Err x end.
Definition on_draws {A} (m : M Draws A) : M World A := fun w =>
  match m (draws w) with Ok (a, d) => Ok (a, mkWorld (eng w) d (stat w)) | Err x => Err x end.
Definition on_stat (id : TxProfileID) (f : PerTxType -> PerTxType) : M World unit := fun w =>
  p ← deref (stat w !! TxProfileID_value id);
  mret (tt, mkWorld (eng w) (draws w) (<[TxProfileID_value id := f p]> (stat w))).
Definition count_commit (p : PerTxType) := mkPerTxType (u64 (num_commits p + 1)) (num_usr_aborts p) (num_sys_aborts p).
Definition count_usr_abort (p : PerTxType) := mkPerTxType (num_commits p) (u64 (num_usr_aborts p + 1)) (num_sys_aborts p).
Definition count_sys_abort (p : PerTxType) := mkPerTxType (num_commits p) (num_usr_aborts p) (u64 (num_sys_aborts p + 1)).

Definition succeeded (r : Result) : bool := match r with Succeeded => true | _ => false end.
Definition not_succeeded (res : Result) : M World (bool * Result) :=
  res ← (if does_random_abort c && succeeded res
         then r ← on_draws urand_int; mret (if r =? 1 then Aborted else res) else mret res);
  (match res with Aborted => on_engine abort_ | _ => mret tt end);;
  mret (negb (succeeded res), res).
Definition kill (id : TxProfileID) (res : Result) : M World Status :=
  match res with
  | Failed => mret BUG
  | Aborted => on_stat id count_sys_abort;; mret SYSTEM_ABORT
  | Succeeded => failM (RuntimeError "wrong Transaction::Result")
  end.
Definition commit (id : TxProfileID) : M World Status :=
  b ← on_engine commit_;
  if b : bool then on_stat id count_commit;; mret SUCCESS else on_stat id count_sys_abort;; mret SYSTEM_ABORT.
Definition usr_abort (id : TxProfileID) : M World Status := on_stat id count_usr_abort;; mret USER_ABORT.

(** A part of [run]: it returns a status or goes on. *)
Definition Part : Type := M World (option Status).
Definition require (id : TxProfileID) (res : Result) : Part :=
  '(b, res) ← not_succeeded res; if b : bool then s ← kill id res; mret (Some s) else mret None.
Definition andthen (p : Part) (q : Part) : Part := r ← p; match r with Some s => mret (Some s) | None => q end.
Fixpoint each (f : Z -> Part) (keys : list Z) : Part :=
  match keys with [] => mret None | k :: keys => andthen (f k) (each f keys) end.
Definition finishing (id : TxProfileID) (p : Part) : M World Status := r ← p; match r with Some s => mret s | None => commit id end.

(** [Input::generate]: [reps_per_txn] keys into an array of [get_max_reps_per_txn] elements. *)
Definition generate : M Draws (list Z) :=
  if get_max_reps_per_txn <? reps_per_txn c then failM UndefinedBehaviour
  else forM (seqZ 0 (reps_per_txn c)) (λ _, zipf_int).

(** One iteration of the loop of each profile. *)
Definition read_one (k : Z) : Part := '(res, p) ← on_engine (get_record k); require READ_TX res.
Definition clear (p : ptr) : M engine unit := fun e =>
  _ ← deref (load p e); mret (tt, store p (blank PAYLOAD_SIZE) e).
Definition write_one (id : TxProfileID) (prepare : Z -> M engine (Result * ptr)) (finish : ptr -> M engine Result) (k : Z) : Part :=
  '(res, p) ← on_engine (prepare k);
  andthen (require id res)
    (on_engine (clear p);; res ← on_engine (finish p); require id res).
Definition update_one : Z -> Part := write_one UPDATE_TX prepare_record_for_write finish_write.
Definition read_modify_write_one : Z -> Part := write_one READMODIFYWRITE_TX prepare_record_for_update finish_update.

Definition profile (id : TxProfileID) : Z -> Part :=
  match id with READ_TX => read_one | UPDATE_TX => update_one | READMODIFYWRITE_TX => read_modify_write_one end.
(** [TxProfile p; return p.run(tx, stat);] *)
Definition run (id : TxProfileID) : M World Status :=
  keys ← on_draws generate; finishing id (each (profile id) keys).
(** [attempts] bounds the iterations of [for (;;)]. *)
Fixpoint run_with_retry `{BuildConfig} (attempts : nat) (id : TxProfileID) : M World bool :=
  match attempts with
  | O => failM OutOfFuel
  | S attempts =>
      res ← run id;
      match res with
      | SUCCESS => mret true
      | USER_ABORT => on_engine abort_;; mret false
      | SYSTEM_ABORT => run_with_retry attempts id
      | BUG => lift (assert_ false);; run_with_retry attempts id
      end
  end.
End Profiles.

(** ** What the profiles rely on *)
Section Laws.
Context `{!Transaction}.
Definition DB := gmap Z Payload.
Definition answers (base : engine -> DB) {A} (m : M engine (Result * A)) (e : engine) (ok : A -> engine -> Prop) (fail : Prop) : Prop :=
  wp m (λ '(res, a) e', base e' = base e /\ match res with Succeeded => ok a e' | Failed => fail | Aborted => True end) e.

(** [base] is what is committed, [cur] what the running transaction sees,
    [handle] the key a pointer was prepared for. *)
Class TransactionLaws := {
  base : engine -> DB;
  cur : engine -> DB;
  handle : ptr -> engine -> option Z;
  store_law p v v' e : load p e = Some v ->
    load p (store p v' e) = Some v' /\ handle p (store p v' e) = handle p e /\ base (store p v' e) = base e /\ cur (store p v' e) = cur e;
  get_record_law k e : answers base (get_record k) e (λ p e', cur e' = cur e /\ load p e' = cur e !! k) (cur e !! k = None);
  prepare_update_law k e : answers base (prepare_record_for_update k) e
    (λ p e', cur e' = cur e /\ handle p e' = Some k /\ is_Some (load p e')) (cur e !! k = None);
  prepare_write_law k e : answers base (prepare_record_for_write k) e
    (λ p e', cur e' = cur e /\ handle p e' = Some k /\ is_Some (load p e')) (cur e !! k = None);
  finish_update_law p k v e : handle p e = Some k -> load p e = Some v ->
    wp (finish_update p) (λ res e', base e' = base e /\ match res with Succeeded => cur e' = <[k := v]> (cur e) | Failed => False | Aborted => True end) e;
  finish_write_law p k v e : handle p e = Some k -> load p e = Some v ->
    wp (finish_write p) (λ res e', base e' = base e /\ match res with Succeeded => cur e' = <[k := v]> (cur e) | Failed => False | Aborted => True end) e;
  commit_law e : wp commit_ (λ b e', base e' = (if b : bool then cur e else base e) /\ cur e' = base e') e;
  abort_law e : wp abort_ (λ _ e', base e' = base e /\ cur e' = base e) e }.
End Laws.

(** ** The profiles do what their names say *)
Section Correct.
Context `{!Transaction} `{!TransactionLaws} (c : Config) (PAYLOAD_SIZE : nat).
#[local] Abbreviation run := (run c PAYLOAD_SIZE).
#[local] Abbreviation profile := (profile c PAYLOAD_SIZE).

(** What a profile does with its keys: nothing, or it clears their payloads. *)
Definition step_effect (id : TxProfileID) (D : DB) (k : Z) : DB :=
  match id with READ_TX => D | _ => <[k := blank PAYLOAD_SIZE]> D end.
Definition effect (id : TxProfileID) (keys : list Z) (D : DB) : DB := foldl (step_effect id) D keys.
(** A loaded table, and generators with draws left: [u] numbers and [z] keys below [num_records]. *)
Definition loaded (D : DB) : Prop := forall k, 0 <= k < num_records c -> is_Some (D !! k).
Definition supplied (u z : Z) (d : Draws) : Prop :=
  u <= Z.of_nat (length (urands d)) /\ z <= Z.of_nat (length (zipfs d)) /\ Forall (λ k, 0 <= k < num_records c) (zipfs d).
Record at_ (D C : DB) (st : list PerTxType) (u z : Z) (w : World) : Prop := {
  at_base : base (eng w) = D; at_cur : cur (eng w) = C; at_stat : stat w = st; at_draws : supplied u z (draws w) }.
(** A run ends with its effect committed or with nothing done, and counted. *)
Definition counted (id : TxProfileID) (f : PerTxType -> PerTxType) (st st' : list PerTxType) : Prop :=
  exists p, st !! TxProfileID_value id = Some p /\ st' = <[TxProfileID_value id := f p]> st.
Definition ends (id : TxProfileID) (D : DB) (eff : DB) (st : list PerTxType) (u z : Z) (s : Status) (w : World) : Prop :=
  supplied u z (draws w) /\ cur (eng w) = base (eng w) /\ match s with
  | SUCCESS => base (eng w) = eff /\ counted id count_commit st (stat w)
  | SYSTEM_ABORT => base (eng w) = D /\ counted id count_sys_abort st (stat w)
  | USER_ABORT | BUG => False
  end.
Definition wpp (p : Part) (Q : World -> Prop) (X : Status -> World -> Prop) (w : World) : Prop :=
  wp p (λ r w', match r with Some s => X s w' | None => Q w' end) w.

Lemma supplied_mono u z u' z' d : supplied u z d -> u' <= u -> z' <= z -> supplied u' z' d.
Proof. intros (? & ? & ?) ? ?. split_and!; [lia|lia|done]. Qed.
Lemma ycsb_ends_mono id D D' eff st u z u' z' s w : ends id D eff st u z s w -> D = D' -> u' <= u -> z' <= z -> ends id D' eff st u' z' s w.
Proof. intros (Hd & Hrest) <- Hu Hz. split; [by eapply supplied_mono|done]. Qed.
Lemma ycsb_wp_on_engine {A} (m : M engine A) Q w : wp m (λ a e, Q a (mkWorld e (draws w) (stat w))) (eng w) -> wp (on_engine m) Q w.
Proof. unfold wp, on_engine. by destruct (m (eng w)) as [[]|]. Qed.
Lemma ycsb_wp_on_stat id f Q w : length (stat w) = MAX_TX ->
  (forall st, counted id f (stat w) st -> Q tt (mkWorld (eng w) (draws w) st)) -> wp (on_stat id f) Q w.
Proof.
  intros Hl HQ. unfold wp, on_stat. destruct (lookup_lt_is_Some_2 (stat w) (TxProfileID_value id)) as [p Ep];
    [rewrite Hl; destruct id; vm_compute; lia|]. rewrite Ep. simpl. apply HQ. by exists p.
Qed.
Lemma wpp_mono p Q Q' X X' w : wpp p Q X w -> (forall w', Q w' -> Q' w') -> (forall s w', X s w' -> X' s w') -> wpp p Q' X' w.
Proof. intros Hp HQ HX. eapply wp_mono; [exact Hp|]. intros [s|]; auto. Qed.
Lemma wpp_andthen p q Q X w : wpp p (λ w', wpp q Q X w') X w -> wpp (andthen p q) Q X w.
Proof. intros Hp. apply wp_bind. eapply wp_mono; [exact Hp|]. by intros [s|] w' Hw. Qed.

(** The end of a stage that did not fail. *)
Lemma wpp_require id res D C st u z eff w (Q : World -> Prop) : length st = MAX_TX -> 0 <= u -> res ≠ Failed ->
  base (eng w) = D -> (res = Succeeded -> cur (eng w) = C) -> stat w = st -> supplied (u + 1) z (draws w) ->
  (forall w', res = Succeeded -> at_ D C st u z w' -> eng w' = eng w -> Q w') -> wpp (require c id res) Q (ends id D eff st u z) w.
Proof.
  intros Hst Hu0 Hf Hb Hc Es Hd HQ. unfold require, not_succeeded.
  assert (wp (if does_random_abort c && succeeded res then r ← on_draws urand_int; mret (if r =? 1 then Aborted else res) else mret res)
    (λ r w', (r = Aborted \/ r = res) /\ eng w' = eng w /\ stat w' = st /\ supplied u z (draws w')) w) as Hr.
  { destruct (_ && _); [|apply wp_ret; split_and!; [by right|done|done|eapply supplied_mono; [exact Hd|lia|lia]]].
    destruct Hd as (Hu & Hz & Hk). apply wp_bind. unfold wp, on_draws, urand_int.
    destruct (urands (draws w)) as [|x us] eqn:E; simpl in Hu; [lia|].
    split_and!; [destruct (x =? 1); auto|done|done|split_and!; [simpl; lia|done|done]]. }
  apply wp_bind, wp_bind. eapply wp_mono; [exact Hr|]. intros r w1 (Hres & Ee & Es1 & Hd1). apply wp_bind. destruct r; simpl.
  - destruct Hres as [?|<-]; [done|]. apply wp_ret, wp_ret, wp_ret, HQ; [done| |done]. constructor; rewrite ?Ee; auto.
  - destruct Hres as [?|<-]; done.
  - apply ycsb_wp_on_engine. eapply wp_mono; [apply abort_law|]. intros _ e [E1 E2]. apply wp_ret, wp_bind. cbn [kill].
    apply wp_bind, ycsb_wp_on_stat; [by rewrite Es1|]. intros st' Hst'. apply wp_ret, wp_ret. simpl in Hst'. rewrite Es1 in Hst'.
    rewrite Ee in E1, E2. split; [done|]. simpl. split; [congruence|]. split; [congruence|done].
Qed.

(** One iteration takes two draws at most. *)
Lemma wpp_write prepare finish id k D C st u z eff w (Q : World -> Prop) : length st = MAX_TX -> 0 <= u -> is_Some (C !! k) ->
  (forall e, answers base (prepare k) e (λ p e', cur e' = cur e /\ handle p e' = Some k /\ is_Some (load p e')) (cur e !! k = None)) ->
  (forall p v e, handle p e = Some k -> load p e = Some v -> wp (finish p) (λ res e', base e' = base e /\
     match res with Succeeded => cur e' = <[k := v]> (cur e) | Failed => False | Aborted => True end) e) ->
  at_ D C st (u + 2) z w -> (forall w', at_ D (<[k := blank PAYLOAD_SIZE]> C) st u z w' -> Q w') ->
  wpp (write_one c PAYLOAD_SIZE id prepare finish k) Q (ends id D eff st u z) w.
Proof.
  intros Hst Hu [v Hk] Hp Hfin [Hb Hc Es Hd] HQ. apply wp_bind, ycsb_wp_on_engine. eapply wp_mono; [apply Hp|]. intros [res p] e [Hb' Hres].
  apply wpp_andthen.
  eapply wpp_mono; [eapply (wpp_require id res D C st (u + 1) z eff _ (λ w1, res = Succeeded /\ at_ D C st (u + 1) z w1 /\ eng w1 = e))| |].
  - done.
  - lia.
  - intros ->. simpl in Hres. congruence.
  - simpl. congruence.
  - intros ->. simpl. destruct Hres as [-> _]. done.
  - done.
  - simpl. by replace (u + 1 + 1) with (u + 2) by lia.
  - by intros w1 -> A1 Ee1.
  - intros w1 (-> & [Hb1 Hc1 Es1 Hd1] & Ee1). destruct Hres as (_ & Hh & [v0 Hl]). rewrite Ee1 in *.
    destruct (store_law p v0 (blank PAYLOAD_SIZE) e Hl) as (Hl' & Hh' & Hb2 & Hc2).
    apply wp_bind, ycsb_wp_on_engine. unfold wp at 1, clear. rewrite Ee1, Hl. simpl. apply wp_bind, ycsb_wp_on_engine.
    eapply wp_mono; [eapply Hfin; [simpl; by rewrite Hh'|exact Hl']|]. simpl. intros res e2 [Hb3 Hres2].
    eapply (wpp_require id res D (<[k := blank PAYLOAD_SIZE]> C)); [done|done|by destruct res|simpl; congruence| |done|done|by intros w' _ ? _; apply HQ].
    intros ->. simpl. rewrite Hres2, Hc2. congruence.
  - intros s w1 He. eapply ycsb_ends_mono; [exact He|done|lia|lia].
Qed.
Lemma wpp_one id k D C st u z eff w (Q : World -> Prop) : length st = MAX_TX -> 0 <= u -> is_Some (C !! k) -> at_ D C st (u + 2) z w ->
  (forall w', at_ D (step_effect id C k) st u z w' -> Q w') -> wpp (profile id k) Q (ends id D eff st u z) w.
Proof.
  intros Hst Hu Hk Hw HQ. destruct id; [|eapply wpp_write; eauto; [apply prepare_write_law|intros; by apply finish_write_law]
    |eapply wpp_write; eauto; [apply prepare_update_law|intros; by apply finish_update_law]].
  destruct Hw as [Hb Hc Es Hd]. apply wp_bind, ycsb_wp_on_engine. eapply wp_mono; [apply get_record_law|]. intros [res p] e [Hb' Hres].
  eapply (wpp_require _ res D C); [done|done| |simpl; congruence| |done| |by intros w' _ ? _; apply HQ].
  - intros ->. destruct Hk. congruence.
  - intros ->. simpl. destruct Hres. congruence.
  - eapply supplied_mono; [exact Hd|lia|lia].
Qed.
Lemma step_effect_keys id D k k' : is_Some (D !! k') -> is_Some (step_effect id D k !! k').
Proof. intros Hk. destruct id; [done| |]; apply lookup_insert_is_Some'; by right. Qed.
Lemma wpp_each id D st z eff keys : forall C u w (Q : World -> Prop), length st = MAX_TX -> 0 <= u -> Forall (λ k, is_Some (C !! k)) keys ->
  at_ D C st (u + 2 * Z.of_nat (length keys)) z w -> (forall w', at_ D (effect id keys C) st u z w' -> Q w') ->
  wpp (each (profile id) keys) Q (ends id D eff st u z) w.
Proof.
  induction keys as [|k keys IH]; intros C u w Q Hst Hu Hk Hw HQ; simpl.
  - apply wp_ret, HQ. simpl in Hw. by rewrite Z.add_0_r in Hw.
  - apply Forall_cons in Hk as [Hk Hks]. apply wpp_andthen. eapply wpp_mono; [eapply (wpp_one id k D C st (u + 2 * Z.of_nat (length keys)))| |].
    + done.
    + lia.
    + done.
    + simpl length in Hw. by replace (u + 2 * Z.of_nat (length keys) + 2) with (u + 2 * Z.of_nat (S (length keys))) by lia.
    + intros w' Hw'. exact Hw'.
    + intros w' Hw'. apply (IH (step_effect id C k)); [done|done| |done|done].
      eapply Forall_impl; [exact Hks|]. intros. by apply step_effect_keys.
    + intros s w' He. eapply ycsb_ends_mono; [exact He|done|lia|lia].
Qed.

Lemma forM_zipf D C st u z w m : 0 <= z -> at_ D C st u (z + Z.of_nat m) w -> forall l, length l = m ->
  wp (on_draws (forM l (λ _ : Z, zipf_int))) (λ keys w', length keys = m /\ Forall (λ k, 0 <= k < num_records c) keys /\ at_ D C st u z w') w.
Proof.
  intros Hz [Hb Hc Es (Hu & Hz' & Hk)] l Hl. unfold wp, on_draws.
  assert (forall l d, z + Z.of_nat (length l) <= Z.of_nat (length (zipfs d)) -> Forall (λ k, 0 <= k < num_records c) (zipfs d) ->
    wp (forM l (λ _ : Z, zipf_int)) (λ keys d', length keys = length l /\ Forall (λ k, 0 <= k < num_records c) keys /\ urands d' = urands d /\
      z <= Z.of_nat (length (zipfs d')) /\ Forall (λ k, 0 <= k < num_records c) (zipfs d')) d) as Hall.
  { clear -Hz. induction l as [|x l IH]; intros d Hd HF; simpl; [apply wp_ret; simpl in Hd; split_and!; (done || lia)|].
    apply wp_bind. unfold wp at 1, zipf_int. destruct (zipfs d) as [|y ys] eqn:E; simpl in Hd; [lia|]. apply Forall_cons in HF as [Hy HF].
    apply wp_bind. eapply wp_mono; [apply (IH (mkDraws (urands d) ys)); [simpl; lia|done]|].
    intros keys d' (? & ? & ? & ? & ?). apply wp_ret. simpl in *. split_and!; [lia|by constructor|done|done|done]. }
  specialize (Hall l (draws w)). rewrite Hl in Hall. specialize (Hall Hz' Hk). unfold wp in Hall.
  destruct (forM l _ (draws w)) as [[keys d]|]; [|done]. destruct Hall as (? & ? & ? & ? & ?). split_and!; [done|done|].
  constructor; simpl; try done. split_and!; [congruence|done|done].
Qed.
Lemma wp_finishing id D C st u z w p : length st = MAX_TX -> wpp p (λ w', at_ D C st u z w') (ends id D C st u z) w ->
  wp (finishing id p) (ends id D C st u z) w.
Proof.
  intros Hst Hp. apply wp_bind. eapply wp_mono; [exact Hp|]. intros [s|] w' Hw'; [done|]. destruct Hw' as [Hb Hc Es Hd].
  apply wp_bind, ycsb_wp_on_engine. eapply wp_mono; [apply commit_law|]. intros b e [E1 E2].
  destruct b; apply wp_bind, ycsb_wp_on_stat; [by rewrite <- Es in Hst| |by rewrite <- Es in Hst|]; intros st' Hst'; simpl in *; rewrite Es in Hst';
    (apply wp_ret; split; [done|]; split; [done|]; split; [simpl; congruence|done]).
Qed.

Lemma ycsb_run_spec id D st u z w : 0 <= reps_per_txn c <= get_max_reps_per_txn -> length st = MAX_TX -> loaded D -> 0 <= u -> 0 <= z ->
  at_ D D st (2 * reps_per_txn c + u) (reps_per_txn c + z) w ->
  wp (run id) (λ s w', exists keys, length keys = Z.to_nat (reps_per_txn c) /\ Forall (λ k, 0 <= k < num_records c) keys /\
    ends id D (effect id keys D) st u z s w') w.
Proof.
  intros Hreps Hst HD Hu Hz Hw. unfold YcsbTx.run, generate. rewrite (proj2 (Z.ltb_ge _ _)) by lia.
  apply wp_bind. eapply wp_mono; [apply (forM_zipf D D st (2 * reps_per_txn c + u) z w (Z.to_nat (reps_per_txn c)));
    [lia| |by rewrite length_seqZ]|].
  { rewrite Z2Nat.id by lia. by rewrite (Z.add_comm z). }
  intros keys w' (Hl & Hk & Hw'). eapply wp_mono; [apply (wp_finishing id D (effect id keys D) st u z); [done|]|].
  - apply (wpp_each id D st z (effect id keys D) keys D u); [done|lia| | |by intros].
    + eapply Forall_impl; [exact Hk|]. intros k Hk'. by apply HD.
    + rewrite Hl. by replace (u + 2 * Z.of_nat (Z.to_nat (reps_per_txn c))) with (2 * reps_per_txn c + u) by lia.
  - intros s w1 He. by exists keys.
Qed.
Lemma counted_length id f st st' : counted id f st st' -> length st' = length st.
Proof. intros (p & _ & ->). apply length_insert. Qed.

(** The engine aborts [k] runs in a row. *)
Fixpoint all_aborted (k : nat) (id : TxProfileID) (w : World) : Prop :=
  match k with O => True | S k => exists w', run id w = Ok (SYSTEM_ABORT, w') /\ all_aborted k id w' end.

(** C13. The three YCSB profiles and their runner on any engine that keeps the
    contract, from a table that holds every key below [num_records]: a run
    ends with the payloads of the keys it drew cleared (update, and
    read-modify-write, which does not look at what it read) or the table
    untouched (read) and committed, or with nothing committed, it is counted
    once under its profile, and it never ends in [BUG] or [USER_ABORT]; so
    [run_with_retry] returns [true] with one run's effect committed, or the
    engine aborts every run it starts. *)
Theorem ycsb_runs_refine_effect `{BuildConfig} id D st attempts w :
  0 <= reps_per_txn c <= get_max_reps_per_txn -> length st = MAX_TX -> loaded D ->
  at_ D D st (2 * reps_per_txn c * Z.of_nat (S attempts)) (reps_per_txn c * Z.of_nat (S attempts)) w ->
  wp (run id) (λ s w', exists keys, length keys = Z.to_nat (reps_per_txn c) /\ Forall (λ k, 0 <= k < num_records c) keys /\
    ends id D (effect id keys D) st 0 0 s w') w /\
  match run_with_retry c PAYLOAD_SIZE attempts id w with
  | Ok (b, w') => b = true /\ cur (eng w') = base (eng w') /\ exists keys, length keys = Z.to_nat (reps_per_txn c) /\
      Forall (λ k, 0 <= k < num_records c) keys /\ base (eng w') = effect id keys D
  | Err e => e = OutOfFuel /\ all_aborted attempts id w
  end.
Proof.
  intros Hreps Hst HD Hw. split.
  - apply ycsb_run_spec; [done..|lia|lia|]. destruct Hw as [Hb Hc Es Hd]. constructor; [done..|]. eapply supplied_mono; [exact Hd|nia|nia].
  - revert st w Hst Hw. induction attempts as [|k IH]; intros st w Hst Hw; [done|]. cbn [run_with_retry all_aborted].
    pose proof (ycsb_run_spec id D st (2 * reps_per_txn c * Z.of_nat (S k)) (reps_per_txn c * Z.of_nat (S k)) w Hreps Hst HD ltac:(lia) ltac:(lia)) as Hr.
    specialize (Hr ltac:(destruct Hw as [Hb Hc Es Hd]; constructor; [done..|]; eapply supplied_mono; [exact Hd|lia|lia])).
    unfold wp, mbind, M_bind in *. destruct (run id w) as [[s w1]|] eqn:E; [|done].
    destruct Hr as (keys & Hl & Hk & Hd & Hc & Hs). destruct s; [| done | |done].
    + destruct Hs as [Hb _]. cbn. split_and!; [done|done|]. exists keys. done.
    + destruct Hs as [Hb Hst']. specialize (IH (stat w1) w1). rewrite (counted_length _ _ _ _ Hst') in IH.
      specialize (IH Hst ltac:(constructor; [done|congruence|done|done])).
      destruct (run_with_retry c PAYLOAD_SIZE k id w1) as [[b w2]|e]; [done|]. destruct IH as [-> IH]. split; [done|]. by exists w1.
Qed.
End Correct.

(** ** An engine that keeps the contract, and the profiles on it *)
Module YcsbWitness.
Record Engine := mkEngine { e_base : DB; e_cur : DB; e_mem : option (Z * Payload); e_refused : nat }.
Definition give (k : Z) : M Engine (Result * unit) := fun e =>
  match e_cur e !! k with
  | Some v => Ok ((Succeeded, tt), mkEngine (e_base e) (e_cur e) (Some (k, v)) (e_refused e))
  | None => Ok ((Failed, tt), e)
  end.
Definition finish (_ : unit) : M Engine Result := fun e =>
  match e_mem e with
  | Some (k, v) => Ok (Succeeded, mkEngine (e_base e) (<[k := v]> (e_cur e)) (e_mem e) (e_refused e))
  | None => Ok (Failed, e)
  end.
#[local] Instance memory_transaction : Transaction := {|
  engine := Engine; ptr := unit;
  load := λ _ e, snd <$> e_mem e;
  store := λ _ v e, mkEngine (e_base e) (e_cur e) ((λ kv, (kv.1, v)) <$> e_mem e) (e_refused e);
  get_record := give; prepare_record_for_update := give; finish_update := finish;
  prepare_record_for_write := give; finish_write := finish;
  commit_ := λ e, match e_refused e with
    | O => Ok (true, mkEngine (e_cur e) (e_cur e) (e_mem e) O)
    | S k => Ok (false, mkEngine (e_base e) (e_base e) (e_mem e) k)
    end;
  abort_ := λ e, Ok (tt, mkEngine (e_base e) (e_base e) (e_mem e) (e_refused e)) |}.
#[local] Instance memory_laws : TransactionLaws.
Proof.
  refine {| base := e_base; cur := e_cur; handle := λ _ e, fst <$> e_mem e |}.
  - intros p v v' e. simpl. by destruct (e_mem e) as [[]|].
  - intros k e. unfold answers, wp. simpl. unfold give. by destruct (e_cur e !! k) eqn:E; simpl.
  - intros k e. unfold answers, wp. simpl. unfold give. destruct (e_cur e !! k) eqn:E; simpl; eauto.
  - intros k e. unfold answers, wp. simpl. unfold give. destruct (e_cur e !! k) eqn:E; simpl; eauto.
  - intros p k v e. simpl. unfold wp, finish. destruct (e_mem e) as [[]|]; simpl; [|done]. by intros [= ->] [= ->].
  - intros p k v e. simpl. unfold wp, finish. destruct (e_mem e) as [[]|]; simpl; [|done]. by intros [= ->] [= ->].
  - intros e. unfold wp. simpl. by destruct (e_refused e).
  - done.
Defined.

(** Ten records, four operations per transaction, random aborts; the engine
    refuses the first commit. *)
Definition config : Config := mkConfig (mkWorkload 0 50 50) 10 1 4 true "".
Definition table : DB := list_to_map ((λ k, (k, [k; k])) <$> seqZ 0 10).
Definition supply : Draws := mkDraws (replicate 24 50) (concat (replicate 3 [3; 1; 4; 1])).
Definition worker : World := mkWorld (mkEngine table table None 1) supply (replicate 3 zero).
Lemma reps_ok : 0 <= reps_per_txn config <= get_max_reps_per_txn.
Proof. vm_compute. intuition congruence. Qed.
Lemma table_loaded : loaded config table.
Proof.
  intros k Hk. simpl in Hk. unfold table. exists [k; k]. apply elem_of_list_to_map_1'.
  - intros y (j & [= -> ->] & _)%list_elem_of_fmap. done.
  - apply (list_elem_of_fmap_2 (λ k, (k, [k; k]))). apply elem_of_seqZ. lia.
Qed.
Lemma ycsb_worker_at : at_ config table table (replicate 3 zero) (2 * reps_per_txn config * Z.of_nat 3) (reps_per_txn config * Z.of_nat 3) worker.
Proof.
  constructor; [reflexivity|reflexivity|reflexivity|]. split_and!; [vm_compute; congruence|vm_compute; congruence|].
  apply (bool_decide_unpack _). vm_compute. exact I.
Qed.
Definition status_of (o : outcome (Status * World)) : option Status := match o with Ok (s, _) => Some s | Err _ => None end.
Lemma ycsb_runs_refine_effect_witness :
  status_of (run config 2 UPDATE_TX worker) = Some SYSTEM_ABORT /\
  wp (run config 2 UPDATE_TX) (λ s w', exists keys, length keys = Z.to_nat (reps_per_txn config) /\ Forall (λ k, 0 <= k < num_records config) keys /\
    ends config UPDATE_TX table (effect 2 UPDATE_TX keys table) (replicate 3 zero) 0 0 s w') worker.
Proof.
  split; [vm_compute; reflexivity|].
  pose proof (@ycsb_runs_refine_effect memory_transaction memory_laws config 2 debug_build UPDATE_TX table (replicate 3 zero) 2 worker
    reps_ok eq_refl table_loaded ycsb_worker_at) as Hrun.
  destruct Hrun as [Hrun _]. exact Hrun.
Defined.
(** The second attempt commits. *)
Example update_retried : match @run_with_retry _ config 2 debug_build 3 UPDATE_TX worker with
  | Ok (b, w') => b = true /\ e_base (eng w') !! 4 = Some [0; 0] /\ e_base (eng w') !! 5 = Some [5; 5] /\
      num_commits <$> stat w' !! 1%nat = Some 1
  | Err _ => False
  end.
Proof. vm_compute. done. Qed.
End YcsbWitness.
