(* ===== verification/Conc.v ===== *)
(** * Conc: threads, schedules and rely-guarantee reasoning

    The workers of the program are C++ threads that share the index, the rows,
    the version heap and the barrier.  A thread's code is a [prog]: a tree of
    atomic actions ([Act], a state transformer that can fail) and spin loops
    ([Loop], whose body says whether to go round again).  One action stands for
    one access to a shared atomic variable together with the accesses to data
    no other thread may touch at that point.  [step] runs one action of a
    thread, [run_schedule] an arbitrary interleaving of a pool of threads.
    [rg] is the proof method: a thread's triple under a rely (what the others
    may do) and a guarantee (what its own actions do); [rg_parallel] composes
    the triples of a pool into a statement about every schedule. *)
From Stdlib Require Import FunctionalExtensionality.
From S2P Require Import Prelude.

(** ** Programs *)
Inductive prog (S : Type) (A : Type) : Type :=
| Ret (a : A)
| Act (B : Type) (m : M S B) (k : B -> prog S A)
| Loop (C B : Type) (c : C) (body : C -> prog S (C + B)) (k : B -> prog S A).
Arguments Ret {S A}.
Arguments Act {S A B}.
Arguments Loop {S A C B}.

Fixpoint prog_bind {S A C} (p : prog S A) (f : A -> prog S C) : prog S C :=
  match p with
  | Ret a => f a
  | Act m k => Act m (fun b => prog_bind (k b) f)
  | Loop c body k => Loop c body (fun b => prog_bind (k b) f)
  end.

#[export] Instance prog_ret {S} : MRet (prog S) := fun A a => Ret a.
#[export] Instance prog_mbind {S} : MBind (prog S) := fun A B f p => prog_bind p f.

(** An atomic action; a loop that carries a variable; [while (true) body],
    left with the value of [Some]. *)
Definition act {S A} (m : M S A) : prog S A := Act m Ret.
Definition iter {S A C} (c : C) (body : C -> prog S (C + A)) : prog S A := Loop c body Ret.
Definition loop {S A} (body : prog S (option A)) : prog S A :=
  iter tt (fun _ => r ← body; mret (match r with Some a => inr a | None => inl tt end)).

(** Range-for over a list. *)
Fixpoint forP {S A} (l : list A) (f : A -> prog S unit) : prog S unit :=
  match l with
  | [] => mret tt
  | x :: l' => f x ;; forP l' f
  end.

Definition unroll {S A C B} (c : C) (body : C -> prog S (C + B)) (k : B -> prog S A)
  : prog S A :=
  prog_bind (body c) (fun r => match r with inr b => k b | inl c' => Loop c' body k end).

(** One step of a thread; a finished thread has none. *)
Definition step {S A} (p : prog S A) (s : S) : option (outcome (prog S A * S)) :=
  match p with
  | Ret _ => None
  | Act m k => Some (match m s with Ok (b, s') => Ok (k b, s') | Err e => Err e end)
  | Loop c body k => Some (Ok (unroll c body k, s))
  end.

Lemma prog_bind_assoc {S A B C} (p : prog S A) (f : A -> prog S B) (g : B -> prog S C) :
  prog_bind (prog_bind p f) g = prog_bind p (fun a => prog_bind (f a) g).
Proof.
  induction p as [A a|A B' m k IH|A C' B' c body _ k IH]; simpl; [done| |];
    f_equal; apply functional_extensionality; intros b; apply IH.
Qed.

Lemma step_bind {S A B} (p : prog S A) (f : A -> prog S B) s :
  match p with Ret _ => False | _ => True end ->
  step (prog_bind p f) s =
  match step p s with
  | Some (Ok (p', s')) => Some (Ok (prog_bind p' f, s')) | Some (Err e) => Some (Err e) | None => None
  end.
Proof.
  destruct p as [a|C m k|C D c body k]; [done| |]; intros _; cbn.
  - by destruct (m s) as [[b s']|].
  - unfold unroll. rewrite prog_bind_assoc. do 3 f_equal.
    f_equal. apply functional_extensionality. by intros [].
Qed.

(** ** Running *)

(** A thread on its own, for at most [fuel] steps. *)
Fixpoint run {S A} (fuel : nat) (p : prog S A) (s : S) : outcome (A * S) :=
  match p with
  | Ret a => Ok (a, s)
  | _ =>
      match fuel with
      | O => Err OutOfFuel
      | Datatypes.S fuel' =>
          match step p s with
          | Some (Ok (p', s')) => run fuel' p' s'
          | Some (Err e) => Err e
          | None => Err OutOfFuel
          end
      end
  end.

(** A pool under a schedule: the list of the threads that move, in order.  A
    finished thread, or one that does not exist, lets the turn pass. *)
Fixpoint run_schedule {S A} (sched : list nat) (pool : list (prog S A)) (s : S)
  : outcome (list (prog S A) * S) :=
  match sched with
  | [] => Ok (pool, s)
  | i :: sched' =>
      match pool !! i with
      | None => run_schedule sched' pool s
      | Some p =>
          match step p s with
          | None => run_schedule sched' pool s
          | Some (Err e) => Err e
          | Some (Ok (p', s')) => run_schedule sched' (<[i := p']> pool) s'
          end
      end
  end.

Definition result {S A} (p : prog S A) : option A :=
  match p with Ret a => Some a | _ => None end.

Lemma run_schedule_length {S A} sched : forall (pool : list (prog S A)) s pool' s',
  run_schedule sched pool s = Ok (pool', s') -> length pool' = length pool.
Proof.
  induction sched as [|i sched IH]; intros pool s pool' s' Hr; cbn in Hr; [by simplify_eq|].
  destruct (pool !! i) as [p|]; [|by eapply IH]. destruct (step p s) as [[[p1 s1]|]|]; [|done|by eapply IH].
  rewrite (IH _ _ _ _ Hr). apply length_insert.
Qed.

(** Every worker of the pool has returned. *)
Definition all_done {S A} (pool : list (prog S A)) : Prop :=
  Forall (fun p => match p with Ret _ => True | _ => False end) pool.

#[export] Instance all_done_dec {S A} (pool : list (prog S A)) : Decision (all_done pool).
Proof. unfold all_done. apply Forall_dec. intros [r| |]; [by left|right; tauto|right; tauto]. Defined.

Lemma unroll_bind {S A B C D} (c : C) (body : C -> prog S (C + B)) (k : B -> prog S A)
    (f : A -> prog S D) :
  prog_bind (unroll c body k) f = unroll c body (fun b => prog_bind (k b) f).
Proof.
  unfold unroll. rewrite prog_bind_assoc. f_equal. apply functional_extensionality. by intros [].
Qed.

(** ** Rely-guarantee triples *)
Section RelyGuarantee.
Context {S : Type} (R G : S -> S -> Prop).

(** [p] run from [s] keeps to [G] for [n] steps whatever [R] does in between,
    never fails, and ends in [Q]. *)
Fixpoint safe {A} (n : nat) (p : prog S A) (Q : A -> S -> Prop) (s : S) : Prop :=
  match n with
  | O => True
  | Datatypes.S n' =>
      match p with
      | Ret a => Q a s
      | Act m k =>
          match m s with
          | Err _ => False
          | Ok (b, s') => G s s' /\ forall s'', R s' s'' -> safe n' (k b) Q s''
          end
      | Loop c body k => forall s'', R s s'' -> safe n' (unroll c body k) Q s''
      end
  end.

Definition stable (P : S -> Prop) : Prop := forall s s', P s -> R s s' -> P s'.

Definition rg {A} (P : S -> Prop) (p : prog S A) (Q : A -> S -> Prop) : Prop :=
  forall n s, P s -> safe n p Q s.

Lemma safe_mono {A} n (p : prog S A) (Q Q' : A -> S -> Prop) s :
  (forall a s, Q a s -> Q' a s) -> safe n p Q s -> safe n p Q' s.
Proof.
  intros HQ. revert p s. induction n as [|n IH]; intros p s; [done|].
  destruct p as [a|B m k|C B c body k]; simpl.
  - apply HQ.
  - destruct (m s) as [[b s']|]; [|done]. intros [? Hk]. split; [done|].
    intros s'' Hr. apply IH, Hk, Hr.
  - intros Hk s'' Hr. apply IH, Hk, Hr.
Qed.

Lemma safe_le {A} n (p : prog S A) Q s : safe (Datatypes.S n) p Q s -> safe n p Q s.
Proof.
  revert p s. induction n as [|n IH]; intros p s; [done|].
  destruct p as [a|B m k|C B c body k]; [done| |].
  - cbn [safe]. destruct (m s) as [[b s']|]; [|done]. intros [? Hk]. split; [done|].
    intros s'' Hr. apply IH, Hk, Hr.
  - intros Hk s'' Hr. apply IH, Hk, Hr.
Qed.

Lemma safe_bind {A D} n (p : prog S A) (f : A -> prog S D) (Q : D -> S -> Prop) s :
  safe n p (fun a s' => forall m, (m <= n)%nat -> safe m (f a) Q s') s ->
  safe n (prog_bind p f) Q s.
Proof.
  assert (H : forall N n p s, (n <= N)%nat ->
    safe n p (fun a s' => forall m, (m <= N)%nat -> safe m (f a) Q s') s ->
    safe n (prog_bind p f) Q s).
  { clear n p s. intros N n. induction n as [|n IH]; intros p s Hle; [done|].
    destruct p as [a|B m k|C B c body k]; cbn [prog_bind].
    - intros H. by apply H.
    - cbn [safe]. destruct (m s) as [[b s']|]; [|done]. intros [? Hk]. split; [done|].
      intros s'' Hr. apply IH; [lia|by apply Hk].
    - intros Hk s'' Hr. rewrite <- unroll_bind. apply IH; [lia|by apply Hk]. }
  by apply H.
Qed.

Lemma rg_ret {A} (a : A) (Q : A -> S -> Prop) : rg (Q a) (mret a) Q.
Proof. by intros [|n] s ?. Qed.

Lemma rg_mret {A} (a : A) P (Q : A -> S -> Prop) : (forall s, P s -> Q a s) -> rg P (mret a) Q.
Proof. intros HQ [|n] s HP; [done|]. by apply HQ. Qed.

Lemma rg_bind {A C} P (p : prog S A) (f : A -> prog S C) Q Q' :
  rg P p Q -> (forall a, rg (Q a) (f a) Q') -> rg P (p ≫= f) Q'.
Proof.
  intros Hp Hf n s HP. apply safe_bind. eapply safe_mono; [|by apply Hp].
  intros a s' HQ m _. by apply Hf.
Qed.

Lemma rg_conseq {A} (P P' : S -> Prop) (p : prog S A) (Q Q' : A -> S -> Prop) :
  rg P p Q -> (forall s, P' s -> P s) -> (forall a s, Q a s -> Q' a s) -> rg P' p Q'.
Proof. intros Hp HP HQ n s Hs. eapply safe_mono; [exact HQ|]. by apply Hp, HP. Qed.

Lemma rg_act {A} P (m : M S A) (Q : A -> S -> Prop) :
  (forall a, stable (Q a)) ->
  (forall s, P s -> wp m (fun a s' => G s s' /\ Q a s') s) ->
  rg P (act m) Q.
Proof.
  intros HQ Hm [|n] s HP; [done|]. simpl. apply Hm in HP. unfold wp in HP.
  destruct (m s) as [[a s']|]; [|done]. destruct HP as [HG Ha]. split; [done|].
  intros s'' Hr. destruct n; [done|]. simpl. by eapply HQ.
Qed.

Lemma rg_iter {A C} (I : C -> S -> Prop) c (body : C -> prog S (C + A)) (Q : A -> S -> Prop) :
  (forall c, stable (I c)) ->
  (forall c, rg (I c) (body c) (fun r s => match r with inr a => Q a s | inl c' => I c' s end)) ->
  rg (I c) (iter c body) Q.
Proof.
  intros HI Hb n. revert c. induction n as [|n IH]; intros c s Hs; [done|]. intros s'' Hr.
  unfold unroll. apply safe_bind. eapply safe_mono; [|apply Hb; by eapply HI].
  intros [c'|a] s' Hs' m Hm.
  - assert (Hn : safe n (iter c' body) Q s') by by apply IH.
    clear -Hm Hn. induction Hm as [|n Hm IH]; [done|]. by apply IH, safe_le.
  - by destruct m.
Qed.

Lemma rg_loop {A} P (body : prog S (option A)) (Q : A -> S -> Prop) :
  stable P ->
  rg P body (fun r s => match r with Some a => Q a s | None => P s end) ->
  rg P (loop body) Q.
Proof.
  intros HP Hb. apply (rg_iter (fun _ => P)); [done|]. intros _.
  eapply rg_bind; [exact Hb|]. intros [a|]; intros [|n] s Hs; done.
Qed.

Lemma rg_forP {A} (l : list A) (f : A -> prog S unit) (P : list A -> S -> Prop) :
  (forall x l', rg (P (x :: l')) (f x) (fun _ => P l')) ->
  rg (P l) (forP l f) (fun _ => P []).
Proof.
  intros Hf. induction l as [|x l IH]; simpl; [by intros [|n] s ?|].
  eapply rg_bind; [apply Hf|]. intros []. apply IH.
Qed.

Lemma rg_pure {A} (P : Prop) P' (p : prog S A) Q :
  (P -> rg P' p Q) -> rg (fun s => P /\ P' s) p Q.
Proof. intros H n s [HP HP']. by apply H. Qed.

Lemma rg_exists {A X} (P : X -> S -> Prop) (p : prog S A) Q :
  (forall x, rg (P x) p Q) -> rg (fun s => exists x, P x s) p Q.
Proof. intros H n s [x HP]. by eapply H. Qed.
End RelyGuarantee.

(** ** Parallel composition *)
Section Parallel.
Context {S A : Type} (R G : nat -> S -> S -> Prop).
Hypothesis R_refl : forall i s, R i s s.
Hypothesis R_trans : forall i s1 s2 s3, R i s1 s2 -> R i s2 s3 -> R i s1 s3.
Hypothesis G_R : forall i j s s', i <> j -> G i s s' -> R j s s'.

(** Any number of guaranteed steps of the threads. *)
Definition steps : S -> S -> Prop := rtc (fun s s' => exists i, G i s s').

Definition thread_ok (i : nat) (p : prog S A) (Q : A -> S -> Prop) (s : S) : Prop :=
  forall n s', R i s s' -> safe (R i) (G i) n p Q s'.

Lemma thread_ok_step i p Q s :
  thread_ok i p Q s ->
  match step p s with
  | None => True
  | Some (Err _) => False
  | Some (Ok (p', s')) => (s' = s \/ G i s s') /\ thread_ok i p' Q s'
  end.
Proof.
  intros H. destruct p as [a|B m k|C B c body k]; simpl; [done| |].
  - pose proof (H 1%nat s (R_refl i s)) as H1. simpl in H1.
    destruct (m s) as [[b s']|] eqn:Hm; [|done]. destruct H1 as [HG _]. split; [by right|].
    intros n s'' Hr. pose proof (H (Datatypes.S n) s (R_refl i s)) as H2. simpl in H2.
    rewrite Hm in H2. destruct H2 as [_ H2]. by apply H2.
  - split; [by left|]. intros n s' Hr. pose proof (H (Datatypes.S n) s (R_refl i s)) as H2.
    by apply H2.
Qed.

Lemma thread_ok_stable i p Q s s' : thread_ok i p Q s -> R i s s' -> thread_ok i p Q s'.
Proof. intros H Hr n s'' Hr'. apply H. by eapply R_trans. Qed.

Theorem rg_parallel (pool : list (prog S A)) (P : nat -> S -> Prop) (Q : nat -> A -> S -> Prop) s :
  (forall i p, pool !! i = Some p -> P i s /\ stable (R i) (P i) /\ rg (R i) (G i) (P i) p (Q i)) ->
  forall sched, exists pool' s',
    run_schedule sched pool s = Ok (pool', s') /\ length pool' = length pool /\ steps s s' /\
    forall i a, pool' !! i = Some (Ret a) -> Q i a s'.
Proof.
  intros Hp.
  assert (H : forall i p, pool !! i = Some p -> thread_ok i p (Q i) s).
  { intros i p Hi n s' Hr. destruct (Hp i p Hi) as (HP & Hst & Hrg). apply Hrg. by eapply Hst. }
  clear P Hp. intros sched. revert pool s H.
  induction sched as [|i sched IH]; intros pool s H; simpl.
  - exists pool, s. split_and!; [done|done|apply rtc_refl|].
    intros i a Hi. by specialize (H i _ Hi 1%nat s (R_refl i s)).
  - destruct (pool !! i) as [p|] eqn:Hi; [|by apply IH].
    pose proof (thread_ok_step i p (Q i) s (H i p Hi)) as Hst.
    destruct (step p s) as [[[p' s']|]|] eqn:Hs; [|done|by apply IH].
    destruct Hst as [Hg Hok].
    destruct (IH (<[i := p']> pool) s') as (pool' & s'' & Hrun & Hlen & Hsteps & HQ).
    { intros j q Hj. destruct (decide (i = j)) as [<-|Hne].
      - rewrite list_lookup_insert_eq in Hj by (by eapply lookup_lt_Some). by simplify_eq.
      - rewrite list_lookup_insert_ne in Hj by done. specialize (H j q Hj).
        destruct Hg as [->|Hg]; [done|]. eapply thread_ok_stable; [exact H|]. by eapply G_R. }
    exists pool', s''. split_and!; [done|by rewrite Hlen, length_insert| |done].
    destruct Hg as [->|Hg]; [done|]. eapply rtc_l; [|exact Hsteps]. by exists i.
Qed.

End Parallel.

(** A thread running alone is the schedule that only names it. *)
Lemma run_schedule_alone {S A} fuel (p : prog S A) s a s' :
  run fuel p s = Ok (a, s') ->
  exists n, run_schedule (replicate n 0%nat) [p] s = Ok ([Ret a], s').
Proof.
  revert p s. induction fuel as [|fuel IH]; intros p s H.
  - destruct p; simplify_eq/=. by exists 0%nat.
  - destruct p as [b|B m k|C B c body k]; cbn [run] in H.
    + simplify_eq. by exists 0%nat.
    + cbn [step] in H. destruct (m s) as [[b s1]|] eqn:Hm; [|done].
      apply IH in H as [n Hn]. exists (Datatypes.S n). simpl. by rewrite Hm.
    + cbn [step] in H. apply IH in H as [n Hn]. by exists (Datatypes.S n).
Qed.
