(* ===== verification/Fair.v ===== *)
(** * Fair: pools that finish under fair schedules

    A schedule is fair if it is a sequence of rounds in which every thread gets
    a turn.  A pool of threads that spin on each other finishes under every
    fair schedule if its threads can be given weights such that a live thread's
    step takes weight off, or brings it closer to a step that does ([live]
    says how far that is), and somebody is live as long as not all threads
    have returned ([progress]).  The bound is [K + 1] rounds per unit of
    weight if nobody is ever more than [K] steps away.  The barrier, the
    initialisation phases and the execution phases are instances. *)
From S2P Require Import Prelude Conc.

Definition fair (N : nat) (round : list nat) : Prop := forall i, (i < N)%nat -> i ∈ round.

Lemma run_schedule_app {S A} l1 l2 (pool pool' : list (prog S A)) s s' :
  run_schedule l1 pool s = Ok (pool', s') ->
  run_schedule (l1 ++ l2) pool s = run_schedule l2 pool' s'.
Proof.
  revert pool s. induction l1 as [|i l1 IH]; intros pool s H; cbn in *; [by simplify_eq|].
  destruct (pool !! i) as [p|]; [|by apply IH].
  destruct (step p s) as [[[p' s1]|]|]; [by apply IH|done|by apply IH].
Qed.

Lemma sum_imap_insert {A} (f : nat -> A -> nat) (l : list A) : forall i x y, l !! i = Some x ->
  (sum_list (imap f (<[i := y]> l)) + f i x = sum_list (imap f l) + f i y)%nat.
Proof.
  revert f. induction l as [|z l IH]; intros f [|i] x y Hx; simplify_eq/=; [lia|].
  pose proof (IH (f ∘ S) i x y Hx) as H. unfold compose in *. lia.
Qed.

Section Fair.
Context {S A Pos : Type} (N K : nat).
(** Where a thread is, its program there, its weight.  [live i p s r]: if nobody
    else takes weight off, thread [i] does so after at most [r] other steps. *)
Context (code : nat -> Pos -> prog S A) (weight : nat -> Pos -> nat).
Context (live : nat -> Pos -> S -> nat -> Prop) (ok : list Pos -> S -> Prop).

Definition moved (ps : list Pos) (j : nat) (p p' : Pos) (s s' : S) : Prop :=
  ok (<[j := p']> ps) s' /\ (weight j p' <= weight j p)%nat /\
  (forall r, live j p s r -> (weight j p' < weight j p)%nat \/ exists r', (r' < r)%nat /\ live j p' s' r') /\
  (forall i q r, i <> j -> ps !! i = Some q -> live i q s r -> live i q s' r \/ (weight j p' < weight j p)%nat).

Record progress : Prop := {
  pr_length : forall ps s, ok ps s -> length ps = N;
  pr_turn : forall ps s j p, ok ps s -> ps !! j = Some p ->
    step (code j p) s = None /\ (forall r, ~ live j p s r) \/
    exists p' s', step (code j p) s = Some (Ok (code j p', s')) /\ moved ps j p p' s s';
  pr_live : forall ps s, ok ps s -> ~ all_done (imap code ps) ->
    exists i p r, ps !! i = Some p /\ (r <= K)%nat /\ live i p s r
}.
Hypothesis makes_progress : progress.

Definition pool_at (ps : list Pos) : list (prog S A) := imap code ps.
Definition total (ps : list Pos) : nat := sum_list (imap weight ps).

Lemma pool_at_insert ps i p : <[i := code i p]> (pool_at ps) = pool_at (<[i := p]> ps).
Proof.
  apply list_eq. intros j. unfold pool_at. rewrite list_lookup_imap.
  destruct (decide (i = j)) as [<-|Hne].
  - destruct (decide (i < length ps)%nat) as [Hlt|Hge].
    + rewrite !list_lookup_insert_eq by (by rewrite ?length_imap). done.
    + rewrite !lookup_ge_None_2 by (rewrite ?length_insert, ?length_imap; lia). done.
  - by rewrite !list_lookup_insert_ne, list_lookup_imap by done.
Qed.

(** One turn of thread [j] on the pool. *)
Lemma pool_turn ps s j :
  ok ps s ->
  (forall sched, run_schedule (j :: sched) (pool_at ps) s = run_schedule sched (pool_at ps) s) /\
    (forall p r, ps !! j = Some p -> ~ live j p s r) \/
  exists p p' s', ps !! j = Some p /\
    (forall sched, run_schedule (j :: sched) (pool_at ps) s = run_schedule sched (pool_at (<[j := p']> ps)) s') /\
    moved ps j p p' s s' /\ (total (<[j := p']> ps) + weight j p = total ps + weight j p')%nat.
Proof.
  intros Hok. destruct (ps !! j) as [p|] eqn:Hp.
  2:{ left. split; [|done]. intros sched. cbn [run_schedule]. unfold pool_at at 1. by rewrite list_lookup_imap, Hp. }
  destruct (pr_turn makes_progress ps s j p Hok Hp) as [[Hst Hl]|(p' & s' & Hst & Hm)].
  - left. split; [|by intros q r [= <-]]. intros sched. cbn [run_schedule]. unfold pool_at at 1. rewrite list_lookup_imap, Hp.
    cbn [fmap option_fmap option_map]. by rewrite Hst.
  - right. exists p, p', s'. split; [done|]. split; [|split; [done|by apply sum_imap_insert]].
    intros sched. cbn [run_schedule]. unfold pool_at at 1. rewrite list_lookup_imap, Hp.
    cbn [fmap option_fmap option_map]. by rewrite Hst, pool_at_insert.
Qed.

(** Any turns: the pool stays well formed and never moves back. *)
Lemma pool_runs l : forall ps s, ok ps s ->
  exists ps' s', run_schedule l (pool_at ps) s = Ok (pool_at ps', s') /\ ok ps' s' /\ (total ps' <= total ps)%nat.
Proof.
  induction l as [|j l IH]; intros ps s Hok; [by exists ps, s|].
  destruct (pool_turn ps s j Hok) as [[Hrun _]|(p & p' & s1 & Hp & Hrun & (Hok1 & Hw & _) & Hsum)]; rewrite Hrun.
  - by apply IH.
  - destruct (IH _ _ Hok1) as (ps' & s' & Hr' & Hok' & Hle). exists ps', s'. split_and!; [done|done|lia].
Qed.

(** Any turns: the pool moves on, or a live thread stays live and does not get
    further away; if it has had a turn, it is closer. *)
Lemma pool_runs_live l : forall ps s i p r, ok ps s -> ps !! i = Some p -> live i p s r ->
  exists ps' s', run_schedule l (pool_at ps) s = Ok (pool_at ps', s') /\ ok ps' s' /\
    ((total ps' < total ps)%nat \/
     (total ps' <= total ps)%nat /\ exists p' r', ps' !! i = Some p' /\ live i p' s' r' /\
       (r' <= r)%nat /\ (i ∈ l -> (r' < r)%nat)).
Proof.
  induction l as [|j l IH]; intros ps s i p r Hok Hp Hl.
  { exists ps, s. split_and!; [done|done|]. right. split; [done|]. exists p, r.
    split_and!; [done|done|done|by intros ?%not_elem_of_nil]. }
  destruct (pool_turn ps s j Hok) as [[Hrun Hend]|(q & q' & s1 & Hq & Hrun & (Hok1 & Hw & Hlive & Hkept) & Hsum)]; rewrite Hrun.
  - assert (Hne : i <> j) by (intros ->; by apply (Hend p r)).
    destruct (IH ps s i p r Hok Hp Hl) as (ps' & s' & Hr' & Hok' & Hres). exists ps', s'. split_and!; [done|done|].
    destruct Hres as [|(Hle & p' & r' & Hp' & Hl' & Hs & Hin)]; [by left|right]. split; [done|]. exists p', r'.
    split_and!; [done|done|done|]. intros [?|?]%elem_of_cons; [done|by apply Hin].
  - pose proof (lookup_lt_Some _ _ _ Hp) as Hilt.
    assert (Hless : (weight j q' < weight j q)%nat -> exists ps' s',
      run_schedule l (pool_at (<[j := q']> ps)) s1 = Ok (pool_at ps', s') /\ ok ps' s' /\ (total ps' < total ps)%nat).
    { intros Hlt. destruct (pool_runs l _ _ Hok1) as (ps' & s' & Hr' & Hok' & Hle). exists ps', s'. split_and!; [done|done|lia]. }
    assert (Hon : forall p1 r1, <[j := q']> ps !! i = Some p1 -> live i p1 s1 r1 -> (r1 <= r)%nat ->
      (i = j -> (r1 < r)%nat) -> exists ps' s',
      run_schedule l (pool_at (<[j := q']> ps)) s1 = Ok (pool_at ps', s') /\ ok ps' s' /\
      ((total ps' < total ps)%nat \/ (total ps' <= total ps)%nat /\ exists p' r', ps' !! i = Some p' /\ live i p' s' r' /\
         (r' <= r)%nat /\ (i ∈ j :: l -> (r' < r)%nat))).
    { intros p1 r1 Hp1 Hl1 Hs1 Hj. destruct (IH _ s1 i p1 r1 Hok1 Hp1 Hl1) as (ps' & s' & Hr' & Hok' & Hres).
      exists ps', s'. split_and!; [done|done|]. destruct Hres as [|(Hle & p' & r' & Hp' & Hl' & Hs & Hin)]; [left; lia|right].
      split; [lia|]. exists p', r'. split_and!; [done|done|lia|]. intros [Hij|Hil]%elem_of_cons; [specialize (Hj Hij); lia|].
      specialize (Hin Hil). lia. }
    destruct (decide (i = j)) as [<-|Hne].
    + assert (q = p) as -> by congruence. destruct (Hlive r Hl) as [Hlt|(r1 & Hs & Hl1)].
      { destruct (Hless Hlt) as (ps' & s' & ? & ? & ?). exists ps', s'. split_and!; [done|done|by left]. }
      apply (Hon q' r1); [by apply list_lookup_insert_eq|done|lia|done].
    + destruct (Hkept i p r Hne Hp Hl) as [Hl1|Hlt].
      2:{ destruct (Hless Hlt) as (ps' & s' & ? & ? & ?). exists ps', s'. split_and!; [done|done|by left]. }
      apply (Hon p r); [by rewrite list_lookup_insert_ne by done|done|done|by intros ->].
Qed.

(** Rounds that bring a live thread to its step move the pool. *)
Lemma rounds_move rounds : forall ps s i p r, Forall (fair N) rounds -> ok ps s -> ps !! i = Some p -> live i p s r ->
  (r < length rounds)%nat ->
  exists ps' s', run_schedule (concat rounds) (pool_at ps) s = Ok (pool_at ps', s') /\ ok ps' s' /\ (total ps' < total ps)%nat.
Proof.
  induction rounds as [|l rounds IH]; intros ps s i p r Hf Hok Hp Hl Hs; cbn in Hs; [lia|].
  apply Forall_cons in Hf as [Hf1 Hf]. pose proof (lookup_lt_Some _ _ _ Hp) as Hlt. rewrite (pr_length makes_progress ps s Hok) in Hlt.
  destruct (pool_runs_live l ps s i p r Hok Hp Hl) as (ps1 & s1 & Hrun1 & Hok1 & Hres).
  cbn [concat]. rewrite (run_schedule_app _ _ _ _ _ _ Hrun1).
  destruct Hres as [Hlt1|(Hle1 & p1 & r1 & Hp1 & Hl1 & _ & Hin)].
  - destruct (pool_runs (concat rounds) ps1 s1 Hok1) as (ps' & s' & ? & ? & ?). exists ps', s'. split_and!; [done|done|lia].
  - specialize (Hin (Hf1 i Hlt)). destruct (IH ps1 s1 i p1 r1 Hf Hok1 Hp1 Hl1 ltac:(lia)) as (ps' & s' & ? & ? & ?).
    exists ps', s'. split_and!; [done|done|lia].
Qed.

(** A pool without weight is through: a live thread would still take some off. *)
Lemma weightless_done ps s : ok ps s -> total ps = 0%nat -> all_done (pool_at ps).
Proof.
  intros Hok Hz. destruct (decide (all_done (pool_at ps))) as [|Hnd]; [done|exfalso].
  destruct (pr_live makes_progress ps s Hok Hnd) as (i & p & r & Hp & _ & Hl).
  destruct (rounds_move (replicate (Datatypes.S r) (seq 0 N)) ps s i p r) as (ps' & s' & _ & _ & Hlt); try done; [|rewrite length_replicate|]; try lia.
  apply Forall_replicate. intros j Hj. apply elem_of_seq. lia.
Qed.

Lemma all_done_run {B C} l (pool : list (prog B C)) s : all_done pool -> run_schedule l pool s = Ok (pool, s).
Proof.
  intros Hd. induction l as [|j l IH]; [done|]. cbn [run_schedule]. destruct (pool !! j) as [p|] eqn:Hp; [|done].
  unfold all_done in Hd. rewrite Forall_lookup in Hd. specialize (Hd j p Hp). by destruct p.
Qed.

(** [K + 1] rounds per unit of weight are enough. *)
Theorem fair_pool_finishes rounds : forall ps s,
  Forall (fair N) rounds -> (Datatypes.S K * total ps <= length rounds)%nat -> ok ps s ->
  exists ps' s', run_schedule (concat rounds) (pool_at ps) s = Ok (pool_at ps', s') /\ ok ps' s' /\ all_done (pool_at ps').
Proof.
  intros ps. remember (total ps) as n eqn:Hn. revert ps rounds Hn.
  induction n as [n IH] using (well_founded_induction lt_wf). intros ps rounds -> s Hf Hlen Hok.
  destruct (decide (all_done (pool_at ps))) as [Hd|Hnd].
  { exists ps, s. split; [by apply all_done_run|done]. }
  assert (total ps <> 0%nat) by (intros Hz; by apply Hnd, (weightless_done ps s)).
  destruct (pr_live makes_progress ps s Hok Hnd) as (i & p & r & Hp & Hr & Hl).
  assert (Hk : (Datatypes.S K <= length rounds)%nat) by nia.
  rewrite <- (take_drop (Datatypes.S K) rounds) in Hf |- *. apply Forall_app in Hf as [Hf1 Hf2].
  destruct (rounds_move (take (Datatypes.S K) rounds) ps s i p r Hf1 Hok Hp Hl) as (ps1 & s1 & Hrun1 & Hok1 & Hlt).
  { rewrite length_take. lia. }
  destruct (IH _ Hlt ps1 (drop (Datatypes.S K) rounds) eq_refl s1 Hf2) as (ps' & s' & Hrun' & Hok' & Hd'); [rewrite length_drop; nia|done|].
  exists ps', s'. by rewrite concat_app, (run_schedule_app _ _ _ _ _ _ Hrun1).
Qed.
End Fair.
