(* ===== verification/RWLock.v ===== *)
(** * RWLock: the reader-writer latch of [protocols/common/readwritelock.hpp]

    [cnt] is the word the code swaps: -1 when held exclusively, the number of
    shared holders otherwise.  [holder] and [readers] are ghost fields: they
    record who holds the latch, are written by the operations and never read
    by them.  The operations are [prog]s over any state that holds a latch
    ([LockAt]), one atomic action per access to [cnt]. *)
From S2P Require Import Prelude Conc.

Record RWLock := mkLock {
  cnt : Z;
  holder : option nat;      (* ghost: the exclusive holder *)
  readers : list nat        (* ghost: the shared holders *)
}.
Definition RWLock_init : RWLock := mkLock 0 None [].

(** Where in the state [S] the latch lives. *)
Record LockAt (S : Type) := mkLockAt {
  get_lock : S -> option RWLock;
  set_lock : RWLock -> S -> S
}.
Arguments mkLockAt {S}.
Arguments get_lock {S}.
Arguments set_lock {S}.

(** Removal of one occurrence. *)
Fixpoint remove_one (x : nat) (l : list nat) : list nat :=
  match l with
  | [] => []
  | y :: l' => if decide (x = y) then l' else y :: remove_one x l'
  end.

Section Methods.
Context {S : Type} (ref : LockAt S) (me : nat).

(** One atomic access: [f] returns the result and the new latch, if it writes. *)
Definition access {B} (f : RWLock -> B * option RWLock) : M S B := fun s =>
  match get_lock ref s with
  | None => Err UndefinedBehaviour
  | Some l =>
      match f l with
      | (b, None) => Ok (b, s)
      | (b, Some l') => Ok (b, set_lock ref l' s)
      end
  end.

Definition load_acquire : prog S Z := act (access (fun l => (cnt l, None))).

(** The three transitions the latch makes, with their ghost part. *)
Definition take_exclusive (l : RWLock) : RWLock := mkLock (-1) (Some me) (readers l).
Definition take_upgrade (l : RWLock) : RWLock :=
  mkLock (-1) (Some me) (remove_one me (readers l)).
Definition take_shared (l : RWLock) : RWLock :=
  mkLock (i64 (cnt l + 1)) (holder l) (me :: readers l).
Definition drop_exclusive (l : RWLock) : RWLock := mkLock (i64 (cnt l + 1)) None (readers l).
Definition drop_shared (l : RWLock) : RWLock :=
  mkLock (i64 (cnt l + -1)) (holder l) (remove_one me (readers l)).

(** [compare_exchange(cnt, expected, after)] where the success transition is
    [after]; on failure [expected] is overwritten with the value seen. *)
Definition compare_exchange (expected : Z) (after : RWLock -> RWLock) : prog S (bool * Z) :=
  act (access (fun l => if cnt l =? expected then ((true, expected), Some (after l))
                        else ((false, cnt l), None))).

Definition lock_shared : prog S unit :=
  loop (expected ← load_acquire;
        if 0 <=? expected then
          '(ok, _) ← compare_exchange expected take_shared;
          mret (if ok : bool then Some tt else None)
        else mret None).

Definition lock_upgrade : prog S unit :=
  loop (expected ← load_acquire;
        if expected =? 1 then
          '(ok, _) ← compare_exchange expected take_upgrade;
          mret (if ok : bool then Some tt else None)
        else mret None).

Definition lock : prog S unit :=
  loop (expected ← load_acquire;
        if expected =? 0 then
          '(ok, _) ← compare_exchange expected take_exclusive;
          mret (if ok : bool then Some tt else None)
        else mret None).

(** The [while] retries with the value the failed exchange stored. *)
Definition try_lock_shared : prog S bool :=
  expected ← load_acquire;
  iter expected (fun expected =>
    if 0 <=? expected then
      '(ok, expected') ← compare_exchange expected take_shared;
      mret (if ok : bool then inr true else inl expected')
    else mret (inr false)).

Definition try_lock_upgrade : prog S bool :=
  expected ← load_acquire;
  if expected =? 1 then
    '(ok, _) ← compare_exchange expected take_upgrade; mret ok
  else mret false.

Definition try_lock : prog S bool :=
  expected ← load_acquire;
  if expected =? 0 then
    '(ok, _) ← compare_exchange expected take_exclusive; mret ok
  else mret false.

Definition unlock_shared : prog S unit := act (access (fun l => (tt, Some (drop_shared l)))).
Definition unlock : prog S unit := act (access (fun l => (tt, Some (drop_exclusive l)))).
Definition get_cnt : prog S Z := load_acquire.

End Methods.

(** ** Rules for the operations under any rely and guarantee *)
Section Rules.
Context {S : Type} (ref : LockAt S) (me : nat) (R G : S -> S -> Prop).
Hypothesis client_G_refl : forall s, G s s.
Implicit Types (P : S -> Prop).

Lemma rg_access {B} P (f : RWLock -> B * option RWLock) (Q : B -> S -> Prop) :
  (forall b, stable R (Q b)) ->
  (forall s, P s -> exists l, get_lock ref s = Some l /\
     match f l with
     | (b, None) => Q b s
     | (b, Some l') => G s (set_lock ref l' s) /\ Q b (set_lock ref l' s)
     end) ->
  rg R G P (act (access ref f)) Q.
Proof.
  intros HQ Hf. apply rg_act; [done|]. intros s Hs. unfold wp, access.
  destruct (Hf s Hs) as (l & Hl & Hm). rewrite Hl. destruct (f l) as [b [l'|]]; auto.
Qed.

Lemma rg_load_acquire P :
  stable R P -> (forall s, P s -> is_Some (get_lock ref s)) ->
  rg R G P (load_acquire ref) (fun _ => P).
Proof. intros HP Hl. apply rg_access; [done|]. intros s Hs. destruct (Hl s Hs) as [l ?]. eauto. Qed.

Lemma rg_compare_exchange P (expected : Z) tr Q Q' :
  stable R Q -> stable R Q' -> (forall s, P s -> is_Some (get_lock ref s)) ->
  (forall s, P s -> Q' s) ->
  (forall s l, P s -> get_lock ref s = Some l -> cnt l = expected ->
     G s (set_lock ref (tr l) s) /\ Q (set_lock ref (tr l) s)) ->
  rg R G P (compare_exchange ref expected tr) (fun r => if r.1 then Q else Q').
Proof.
  intros HQ HQ' Hl HF HT. apply rg_access; [by intros [[] ?]|].
  intros s Hs. destruct (Hl s Hs) as [l Hgl]. exists l. split; [done|].
  destruct (cnt l =? expected) eqn:He; simpl; [|by apply HF].
  apply HT; [done..|lia].
Qed.

(** The shape [lock], [lock_shared] and [lock_upgrade] share. *)
Lemma rg_acquire_loop P (guard : Z -> bool) tr Q :
  stable R P -> stable R Q -> (forall s, P s -> is_Some (get_lock ref s)) ->
  (forall s l, P s -> get_lock ref s = Some l -> guard (cnt l) = true ->
     G s (set_lock ref (tr l) s) /\ Q (set_lock ref (tr l) s)) ->
  rg R G P
    (loop (expected ← load_acquire ref;
           if guard expected then
             '(ok, _) ← compare_exchange ref expected tr;
             mret (if ok : bool then Some tt else None)
           else mret None)) (fun _ => Q).
Proof.
  intros HP HQ Hl Htr. apply rg_loop; [done|].
  eapply rg_bind; [by apply rg_load_acquire|]. intros expected; cbn beta.
  destruct (guard expected) eqn:Hg; [|by apply (rg_ret R G None (fun r s => match r with Some _ => Q s | None => P s end))].
  eapply rg_bind; [apply (rg_compare_exchange P expected tr Q P); try done|].
  - intros s l Hs Hgl He. apply Htr; [done..|]. by rewrite He.
  - intros [[] z]; simpl; intros [|n] s Hs; done.
Qed.

Lemma rg_lock P Q :
  stable R P -> stable R Q -> (forall s, P s -> is_Some (get_lock ref s)) ->
  (forall s l, P s -> get_lock ref s = Some l -> cnt l = 0 ->
     G s (set_lock ref (take_exclusive me l) s) /\ Q (set_lock ref (take_exclusive me l) s)) ->
  rg R G P (lock ref me) (fun _ => Q).
Proof.
  intros HP HQ Hl Htr. apply rg_acquire_loop; [done..|].
  intros s l Hs Hgl Hc. apply Htr; [done..|lia].
Qed.

Lemma rg_lock_shared P Q :
  stable R P -> stable R Q -> (forall s, P s -> is_Some (get_lock ref s)) ->
  (forall s l, P s -> get_lock ref s = Some l -> 0 <= cnt l ->
     G s (set_lock ref (take_shared me l) s) /\ Q (set_lock ref (take_shared me l) s)) ->
  rg R G P (lock_shared ref me) (fun _ => Q).
Proof.
  intros HP HQ Hl Htr. apply rg_acquire_loop; [done..|].
  intros s l Hs Hgl Hc. apply Htr; [done..|lia].
Qed.

Lemma rg_lock_upgrade P Q :
  stable R P -> stable R Q -> (forall s, P s -> is_Some (get_lock ref s)) ->
  (forall s l, P s -> get_lock ref s = Some l -> cnt l = 1 ->
     G s (set_lock ref (take_upgrade me l) s) /\ Q (set_lock ref (take_upgrade me l) s)) ->
  rg R G P (lock_upgrade ref me) (fun _ => Q).
Proof.
  intros HP HQ Hl Htr. apply rg_acquire_loop; [done..|].
  intros s l Hs Hgl Hc. apply Htr; [done..|lia].
Qed.

(** A single attempt: [P] survives a failure. *)
Lemma rg_try_once P (expected0 : Z) tr Q :
  stable R P -> stable R Q -> (forall s, P s -> is_Some (get_lock ref s)) ->
  (forall s l, P s -> get_lock ref s = Some l -> cnt l = expected0 ->
     G s (set_lock ref (tr l) s) /\ Q (set_lock ref (tr l) s)) ->
  rg R G P
    (expected ← load_acquire ref;
     if expected =? expected0 then
       '(ok, _) ← compare_exchange ref expected tr; mret ok
     else mret false) (fun b => if b : bool then Q else P).
Proof.
  intros HP HQ Hl Htr. eapply rg_bind; [by apply rg_load_acquire|]. intros expected; cbn beta.
  destruct (expected =? expected0) eqn:Hg; [|intros [|n] s Hs; done].
  eapply rg_bind; [apply (rg_compare_exchange P expected tr Q P); try done|].
  - intros s l Hs Hgl He. apply Htr; [done..|lia].
  - intros [[] z]; simpl; intros [|n] s Hs; done.
Qed.

Lemma rg_try_lock P Q :
  stable R P -> stable R Q -> (forall s, P s -> is_Some (get_lock ref s)) ->
  (forall s l, P s -> get_lock ref s = Some l -> cnt l = 0 ->
     G s (set_lock ref (take_exclusive me l) s) /\ Q (set_lock ref (take_exclusive me l) s)) ->
  rg R G P (try_lock ref me) (fun b => if b : bool then Q else P).
Proof. apply rg_try_once. Qed.

Lemma rg_try_lock_upgrade P Q :
  stable R P -> stable R Q -> (forall s, P s -> is_Some (get_lock ref s)) ->
  (forall s l, P s -> get_lock ref s = Some l -> cnt l = 1 ->
     G s (set_lock ref (take_upgrade me l) s) /\ Q (set_lock ref (take_upgrade me l) s)) ->
  rg R G P (try_lock_upgrade ref me) (fun b => if b : bool then Q else P).
Proof. apply rg_try_once. Qed.

Lemma rg_try_lock_shared P Q :
  stable R P -> stable R Q -> (forall s, P s -> is_Some (get_lock ref s)) ->
  (forall s l, P s -> get_lock ref s = Some l -> 0 <= cnt l ->
     G s (set_lock ref (take_shared me l) s) /\ Q (set_lock ref (take_shared me l) s)) ->
  rg R G P (try_lock_shared ref me) (fun b => if b : bool then Q else P).
Proof.
  intros HP HQ Hl Htr. eapply rg_bind; [by apply rg_load_acquire|]. intros expected; cbn beta.
  apply (rg_iter R G (fun _ => P)); [done|]. intros c.
  destruct (0 <=? c) eqn:Hc; [|intros [|n] s Hs; done].
  eapply rg_bind; [apply (rg_compare_exchange P c (take_shared me) Q P); try done|].
  - intros s l Hs Hgl He. apply Htr; [done..|lia].
  - intros [[] z]; simpl; intros [|n] s Hs; done.
Qed.

Lemma rg_unlock P Q :
  stable R Q -> (forall s, P s -> is_Some (get_lock ref s)) ->
  (forall s l, P s -> get_lock ref s = Some l ->
     G s (set_lock ref (drop_exclusive l) s) /\ Q (set_lock ref (drop_exclusive l) s)) ->
  rg R G P (unlock ref) (fun _ => Q).
Proof.
  intros HQ Hl Htr. apply rg_access; [done|]. intros s Hs.
  destruct (Hl s Hs) as [l Hgl]. exists l. split; [done|]. by apply Htr.
Qed.

Lemma rg_unlock_shared P Q :
  stable R Q -> (forall s, P s -> is_Some (get_lock ref s)) ->
  (forall s l, P s -> get_lock ref s = Some l ->
     G s (set_lock ref (drop_shared me l) s) /\ Q (set_lock ref (drop_shared me l) s)) ->
  rg R G P (unlock_shared ref me) (fun _ => Q).
Proof.
  intros HQ Hl Htr. apply rg_access; [done|]. intros s Hs.
  destruct (Hl s Hs) as [l Hgl]. exists l. split; [done|]. by apply Htr.
Qed.

End Rules.

(** ** The latch invariant *)

(** The word agrees with the holders; at most [n] threads use the latch. *)
Definition lock_ok (n : nat) (l : RWLock) : Prop :=
  NoDup (readers l) /\ Forall (fun i => (i < n)%nat) (readers l) /\
  match holder l with
  | Some h => (h < n)%nat /\ cnt l = -1 /\ readers l = []
  | None => cnt l = Z.of_nat (length (readers l))
  end.

Lemma elem_of_remove_one x y l : NoDup l -> y ∈ remove_one x l <-> y ∈ l /\ y <> x.
Proof.
  induction 1 as [|z l Hz Hl IH]; simpl; [set_solver|].
  destruct (decide (x = z)) as [->|]; set_solver.
Qed.

Lemma NoDup_remove_one x l : NoDup l -> NoDup (remove_one x l).
Proof.
  induction 1 as [|z l Hz Hl IH]; simpl; [constructor|].
  case_decide; [done|]. constructor; [|done]. rewrite elem_of_remove_one by done. tauto.
Qed.

Lemma length_remove_one x l : x ∈ l -> length l = S (length (remove_one x l)).
Proof.
  induction l as [|z l IH]; simpl; intros Hx; [by apply not_elem_of_nil in Hx|].
  case_decide; [done|]. simpl. f_equal. apply IH. set_solver.
Qed.

Lemma NoDup_below n (l : list nat) :
  NoDup l -> Forall (fun i => (i < n)%nat) l -> (length l <= n)%nat.
Proof.
  intros Hnd Hlt. pose proof (List.NoDup_incl_length (l := l) (l' := List.seq 0 n)) as H.
  rewrite List.length_seq in H. apply H; [by apply NoDup_ListNoDup|].
  intros x Hx%list_elem_of_In. apply List.in_seq.
  rewrite Forall_forall in Hlt. apply Hlt in Hx. lia.
Qed.

Lemma readers_bound n l : lock_ok n l -> (length (readers l) <= n)%nat.
Proof.
  intros (Hnd & Hlt & _). by apply NoDup_below.
Qed.

Lemma lock_ok_init n : lock_ok n RWLock_init.
Proof. repeat split; constructor. Qed.

Lemma lock_ok_free n l : lock_ok n l -> cnt l = 0 -> holder l = None /\ readers l = [].
Proof.
  intros (_ & _ & Hh) Hc. destruct (holder l); [lia|]. split; [done|].
  destruct (readers l); simpl in *; [done|lia].
Qed.

Lemma i64_small z : - 2 ^ 63 <= z < 2 ^ 63 -> i64 z = z.
Proof. intros ?. unfold i64. rewrite Z.mod_small; lia. Qed.

Lemma take_exclusive_ok n me l :
  lock_ok n l -> cnt l = 0 -> (me < n)%nat -> lock_ok n (take_exclusive me l).
Proof.
  intros Hok Hc Hme. destruct (lock_ok_free n l Hok Hc) as [_ Hr]. destruct Hok as (? & ? & _).
  repeat split; simpl; auto.
Qed.

Lemma drop_exclusive_ok n me l :
  lock_ok n l -> holder l = Some me -> lock_ok n (drop_exclusive l).
Proof.
  intros (? & ? & Hh) Hl. rewrite Hl in Hh. destruct Hh as (_ & Hc & Hr).
  repeat split; simpl; auto. rewrite Hc, Hr. reflexivity.
Qed.

Lemma take_shared_ok n me l :
  lock_ok n l -> 0 <= cnt l -> Z.of_nat n < 2 ^ 63 -> (me < n)%nat -> me ∉ readers l ->
  lock_ok n (take_shared me l).
Proof.
  intros Hok Hc Hn Hme Hnot. pose proof (readers_bound n l Hok).
  destruct Hok as (Hnd & Hlt & Hh).
  assert (Hlen : (length (me :: readers l) <= n)%nat).
  { apply NoDup_below; by constructor. }
  repeat split; simpl in *; [by constructor..|].
  destruct (holder l); [lia|]. rewrite i64_small; lia.
Qed.

Lemma drop_shared_ok n me l :
  lock_ok n l -> me ∈ readers l -> Z.of_nat n < 2 ^ 63 -> lock_ok n (drop_shared me l).
Proof.
  intros Hok Hme Hn. pose proof (readers_bound n l Hok). destruct Hok as (Hnd & Hlt & Hh).
  pose proof (length_remove_one me (readers l) Hme).
  repeat split; simpl; [by apply NoDup_remove_one| |].
  - apply Forall_forall. intros x [Hx _]%elem_of_remove_one; [|done].
    by eapply Forall_forall in Hlt.
  - destruct (holder l) as [h|]; [destruct Hh as (_ & _ & Hh); rewrite Hh in Hme; set_solver|].
    rewrite i64_small; lia.
Qed.

Lemma take_upgrade_ok n me l :
  lock_ok n l -> cnt l = 1 -> me ∈ readers l -> lock_ok n (take_upgrade me l).
Proof.
  intros (Hnd & Hlt & Hh) Hc Hme. destruct (holder l) as [h|] eqn:Hhl; [lia|].
  destruct (readers l) as [|r [|r' rs]] eqn:Hr; simpl in *; [set_solver| |lia].
  apply list_elem_of_singleton in Hme as ->.
  unfold take_upgrade, lock_ok. simpl. rewrite Hr. simpl. rewrite decide_True by done.
  inversion Hlt; subst. repeat split; try constructor; done.
Qed.

Lemma only_reader n me l : lock_ok n l -> cnt l = 1 -> me ∈ readers l -> readers l = [me].
Proof.
  intros (_ & _ & Hh) Hc Hme. destruct (holder l) as [h|]; [lia|].
  destruct (readers l) as [|r [|r' rs]] eqn:Hr; simpl in *; [set_solver| |lia].
  by apply list_elem_of_singleton in Hme as ->.
Qed.

(** ** Clients: what the latch is for

    Threads that share a cell.  Writers read the cell and store the successor
    in two separate actions, under the latch taken with [lock], [try_lock] or
    [lock_shared]+[lock_upgrade]; readers load the cell twice under a shared
    latch and fail if the values differ.  Any interleaving of any number of
    them loses no update and never shows a reader a change. *)
Module Client.

Record shared := mkShared {
  latch : RWLock;
  cell : Z;
  tally : list Z            (* ghost: how often each thread stored *)
}.
Definition ref : LockAt shared :=
  mkLockAt (fun s => Some (latch s)) (fun l s => mkShared l (cell s) (tally s)).

Inductive op := Increment | TryIncrement | UpgradeIncrement | ReadTwice | TryReadTwice.

Section Programs.
Context (me : nat).

Definition read_cell : prog shared Z := act (fun s => Ok (cell s, s)).
Definition write_cell (x : Z) : prog shared unit := act (fun s =>
  Ok (tt, mkShared (latch s) x (alter (Z.add 1) me (tally s)))).
Definition increment : prog shared unit := x ← read_cell; write_cell (x + 1).
Definition read_twice : prog shared unit :=
  x ← read_cell; y ← read_cell;
  act (fun s => if x =? y then Ok (tt, s) else Err AssertFailed).

Definition perform (o : op) : prog shared unit :=
  match o with
  | Increment => lock ref me ;; increment ;; unlock ref
  | TryIncrement =>
      b ← try_lock ref me;
      if b : bool then increment ;; unlock ref else mret tt
  | UpgradeIncrement =>
      lock_shared ref me ;; x ← read_cell; lock_upgrade ref me ;;
      write_cell (x + 1) ;; unlock ref
  | ReadTwice => lock_shared ref me ;; read_twice ;; unlock_shared ref me
  | TryReadTwice =>
      b ← try_lock_shared ref me;
      if b : bool then read_twice ;; unlock_shared ref me else mret tt
  end.
Definition client (ops : list op) : prog shared unit := forP ops perform.
End Programs.

Definition init (n : nat) : shared := mkShared RWLock_init 0 (replicate n 0).

(** Increments a thread certainly, and possibly, performs. *)
Fixpoint at_least (ops : list op) : Z :=
  match ops with
  | [] => 0
  | (Increment | UpgradeIncrement) :: l => 1 + at_least l
  | _ :: l => at_least l
  end.
Fixpoint at_most (ops : list op) : Z :=
  match ops with
  | [] => 0
  | (Increment | UpgradeIncrement | TryIncrement) :: l => 1 + at_most l
  | _ :: l => at_most l
  end.

Definition sum (l : list Z) : Z := foldr Z.add 0 l.

Section Proof.
Context (n : nat) (Hn : Z.of_nat n < 2 ^ 63).

Definition inv (s : shared) : Prop :=
  lock_ok n (latch s) /\ cell s = sum (tally s) /\ length (tally s) = n.

Definition kept (i : nat) (s s' : shared) : Prop :=
  (holder (latch s') = Some i <-> holder (latch s) = Some i) /\
  (i ∈ readers (latch s') <-> i ∈ readers (latch s)) /\
  (holder (latch s) = Some i \/ i ∈ readers (latch s) -> cell s' = cell s) /\
  tally s' !! i = tally s !! i.

Definition R (i : nat) (s s' : shared) : Prop := inv s -> inv s' /\ kept i s s'.
Definition G (i : nat) (s s' : shared) : Prop :=
  inv s -> inv s' /\ forall j, i <> j -> kept j s s'.

Lemma client_R_refl i s : R i s s.
Proof. intros ?. split; [done|]. by split_and!. Qed.
Lemma client_G_refl i s : G i s s.
Proof. intros ?. split; [done|]. intros j _. by split_and!. Qed.
Lemma client_R_trans i s1 s2 s3 : R i s1 s2 -> R i s2 s3 -> R i s1 s3.
Proof.
  intros H12 H23 H1. destruct (H12 H1) as [H2 (A1 & A2 & A3 & A4)].
  destruct (H23 H2) as [H3 (B1 & B2 & B3 & B4)]. split; [done|].
  unfold kept. rewrite B1, B2, B4. split_and!; [done..| |done].
  intros Hh. rewrite B3, A3 by tauto. done.
Qed.
Lemma client_G_R i j s s' : i <> j -> G i s s' -> R j s s'.
Proof. intros Hne HG Hs. destruct (HG Hs) as [? Hk]. split; [done|]. by apply Hk. Qed.

(** Thread [i] between operations, inside an exclusive and inside a shared
    section; [t] stores made so far. *)
Inductive hold := Free | Excl | Shar.
Definition at_ (i : nat) (h : hold) (t : Z) (s : shared) : Prop :=
  inv s /\ tally s !! i = Some t /\ (i < n)%nat /\
  (holder (latch s) = Some i <-> h = Excl) /\ (i ∈ readers (latch s) <-> h = Shar).

Definition seen (i : nat) (h : hold) (t x : Z) (s : shared) : Prop := at_ i h t s /\ cell s = x.

Lemma at_stable i h t : stable (R i) (at_ i h t).
Proof.
  intros s s' (Hi & Ht & Hlt & Hh & Hr) HR. destruct (HR Hi) as [Hi' (K1 & K2 & _ & K4)].
  unfold at_. rewrite K1, K2, K4. tauto.
Qed.

Lemma seen_stable i h t x : h <> Free -> stable (R i) (seen i h t x).
Proof.
  intros Hh s s' [Hat Hc] HR. split; [by eapply at_stable|].
  destruct Hat as (Hi & _ & _ & H1 & H2). destruct (HR Hi) as [_ (_ & _ & K3 & _)].
  rewrite K3; [done|]. destruct h; tauto.
Qed.

(** A latch transition that concerns only thread [i]. *)
Lemma latch_step i h h' t (tr : RWLock -> RWLock) s :
  at_ i h t s -> lock_ok n (tr (latch s)) ->
  (holder (tr (latch s)) = Some i <-> h' = Excl) ->
  (i ∈ readers (tr (latch s)) <-> h' = Shar) ->
  (forall j, i <> j -> (holder (tr (latch s)) = Some j <-> holder (latch s) = Some j) /\
                       (j ∈ readers (tr (latch s)) <-> j ∈ readers (latch s))) ->
  G i s (set_lock ref (tr (latch s)) s) /\ at_ i h' t (set_lock ref (tr (latch s)) s).
Proof.
  intros ((Hok & Hc & Hlen) & Ht & Hlt & Hh & Hr) Htr H1 H2 Hj. split.
  - intros _. split; [done|]. intros j Hne. destruct (Hj j Hne) as [J1 J2].
    split_and!; simpl; try done; tauto.
  - split_and!; simpl; try done; tauto.
Qed.

Lemma step_take_exclusive i t s :
  at_ i Free t s -> cnt (latch s) = 0 ->
  G i s (set_lock ref (take_exclusive i (latch s)) s) /\
  at_ i Excl t (set_lock ref (take_exclusive i (latch s)) s).
Proof.
  intros Hat Hc. pose proof Hat as ((Hok & _) & _ & Hlt & _).
  destruct (lock_ok_free n _ Hok Hc) as [Hh Hr].
  apply (latch_step i Free); [done|by apply take_exclusive_ok|done| |]; simpl; rewrite ?Hr.
  - split; [by intros ?%not_elem_of_nil|done].
  - intros j Hne. rewrite Hh. split; [|done]. split; congruence.
Qed.

Lemma step_drop_exclusive i t s :
  at_ i Excl t s ->
  G i s (set_lock ref (drop_exclusive (latch s)) s) /\
  at_ i Free t (set_lock ref (drop_exclusive (latch s)) s).
Proof.
  intros Hat. pose proof Hat as ((Hok & _) & _ & _ & Hh & Hr).
  assert (Hhi : holder (latch s) = Some i) by tauto.
  apply (latch_step i Excl); [done|by eapply drop_exclusive_ok|done| |]; simpl.
  - rewrite Hr. done.
  - intros j Hne. rewrite Hhi. split; [|done]. split; congruence.
Qed.

Lemma step_take_shared i t s :
  at_ i Free t s -> 0 <= cnt (latch s) ->
  G i s (set_lock ref (take_shared i (latch s)) s) /\
  at_ i Shar t (set_lock ref (take_shared i (latch s)) s).
Proof.
  intros Hat Hc. pose proof Hat as ((Hok & _) & _ & Hlt & Hh & Hr).
  assert (Hnot : i ∉ readers (latch s)) by (rewrite Hr; done).
  apply (latch_step i Free); [done|by apply take_shared_ok| | |]; simpl.
  - rewrite Hh. split; done.
  - set_solver.
  - intros j Hne. split; [done|]. set_solver.
Qed.

Lemma step_drop_shared i t s :
  at_ i Shar t s ->
  G i s (set_lock ref (drop_shared i (latch s)) s) /\
  at_ i Free t (set_lock ref (drop_shared i (latch s)) s).
Proof.
  intros Hat. pose proof Hat as ((Hok & _) & _ & _ & Hh & Hr).
  assert (Hin : i ∈ readers (latch s)) by tauto. pose proof Hok as (Hnd & _).
  apply (latch_step i Shar); [done|by apply drop_shared_ok| | |]; simpl.
  - rewrite Hh. split; done.
  - rewrite elem_of_remove_one by done. split; [tauto|done].
  - intros j Hne. rewrite elem_of_remove_one by done. split; [done|].
    split; [tauto|]. intros ?; split; [done|congruence].
Qed.

Lemma step_take_upgrade i t s :
  at_ i Shar t s -> cnt (latch s) = 1 ->
  G i s (set_lock ref (take_upgrade i (latch s)) s) /\
  at_ i Excl t (set_lock ref (take_upgrade i (latch s)) s).
Proof.
  intros Hat Hc. pose proof Hat as ((Hok & _) & _ & _ & Hh & Hr).
  assert (Hin : i ∈ readers (latch s)) by tauto. pose proof Hok as (Hnd & _ & Hhold).
  pose proof (only_reader n i _ Hok Hc Hin) as Hone.
  assert (Hnone : holder (latch s) = None).
  { destruct (holder (latch s)); [|done]. destruct Hhold as (_ & Hc' & _). lia. }
  apply (latch_step i Shar); [done|by apply take_upgrade_ok|done| |]; simpl.
  - rewrite Hone. simpl. rewrite decide_True by done. set_solver.
  - intros j Hne. rewrite Hone, Hnone. simpl. rewrite decide_True by done. set_solver.
Qed.

Lemma sum_alter i (l : list Z) t : l !! i = Some t -> sum (alter (Z.add 1) i l) = sum l + 1.
Proof.
  revert i. induction l as [|x l IH]; intros [|i] Hi; simpl in *; [done..| |].
  - unfold sum; simpl. lia.
  - unfold sum in *; simpl in *. change (alter (Z.add 1) i l) with (list_alter (Z.add 1) i l) in IH.
    specialize (IH i Hi). simpl. unfold alter in IH. lia.
Qed.

Lemma rg_read_cell i h t :
  h <> Free -> rg (R i) (G i) (at_ i h t) read_cell (fun x => seen i h t x).
Proof.
  intros Hh. apply rg_act; [intros; by apply seen_stable|].
  intros s Hs. unfold wp. split; [apply client_G_refl|done].
Qed.

Lemma rg_write_cell i t x :
  rg (R i) (G i) (seen i Excl t x) (write_cell i (x + 1)) (fun _ => at_ i Excl (1 + t)).
Proof.
  apply rg_act; [intros _; apply at_stable|].
  intros s [((Hok & Hc & Hlen) & Ht & Hlt & Hh & Hr) Hx]. unfold wp.
  assert (Hinv : inv (mkShared (latch s) (x + 1) (alter (Z.add 1) i (tally s)))).
  { split; [done|]. simpl. split; [erewrite sum_alter by done; lia|by rewrite length_alter]. }
  split.
  - intros _. split; [done|]. intros j Hne. unfold kept; simpl.
    rewrite list_lookup_alter_ne by done. split_and!; try tauto.
    intros Hj. exfalso. destruct Hok as (_ & _ & Hhold).
    assert (Hi : holder (latch s) = Some i) by tauto. rewrite Hi in Hhold, Hj.
    destruct Hhold as (_ & _ & Hrs). rewrite Hrs in Hj. destruct Hj as [Hj|Hj]; [congruence|].
    by apply not_elem_of_nil in Hj.
  - split; [done|]. simpl. rewrite list_lookup_alter_eq, Ht. by split_and!.
Qed.

Lemma rg_increment i t :
  rg (R i) (G i) (at_ i Excl t) (increment i) (fun _ => at_ i Excl (1 + t)).
Proof. eapply rg_bind; [by apply rg_read_cell|]. intros x. apply rg_write_cell. Qed.

Lemma rg_read_twice i t :
  rg (R i) (G i) (at_ i Shar t) read_twice (fun _ => at_ i Shar t).
Proof.
  eapply rg_bind; [by apply rg_read_cell|]. intros x.
  eapply rg_bind.
  { apply (rg_act (R i) (G i) (seen i Shar t x) _ (fun y s => seen i Shar t x s /\ y = x)).
    - intros y s s' [Hs ->] HR. split; [|done]. by eapply seen_stable.
    - intros s [Hs Hc]. unfold wp. split; [apply client_G_refl|done]. }
  intros y. apply rg_act; [intros _; apply at_stable|].
  intros s [[Hs _] ->]. unfold wp. rewrite Z.eqb_refl. split; [apply client_G_refl|done].
Qed.

Lemma rg_unlock_client i t :
  rg (R i) (G i) (at_ i Excl t) (unlock ref) (fun _ => at_ i Free t).
Proof.
  apply (rg_unlock ref (R i) (G i) (client_G_refl i) _ (at_ i Free t)); [apply at_stable|by eexists|].
  intros s l Hs [= <-]. by apply step_drop_exclusive.
Qed.

Lemma rg_unlock_shared_client i t :
  rg (R i) (G i) (at_ i Shar t) (unlock_shared ref i) (fun _ => at_ i Free t).
Proof.
  apply (rg_unlock_shared ref i (R i) (G i) (client_G_refl i) _ (at_ i Free t)); [apply at_stable|by eexists|].
  intros s l Hs [= <-]. by apply step_drop_shared.
Qed.

Definition pre (i : nat) (todo : list op) (all : list op) (s : shared) : Prop :=
  exists t, at_ i Free t s /\ at_least all - at_least todo <= t <= at_most all - at_most todo.

Lemma rg_lift_exists {A B} i (P : A -> shared -> Prop) (p : prog shared B) Q :
  (forall t, rg (R i) (G i) (P t) p Q) -> rg (R i) (G i) (fun s => exists t, P t s) p Q.
Proof. intros H k s [t Ht]. by apply (H t). Qed.

Lemma rg_perform i o todo all :
  rg (R i) (G i) (pre i (o :: todo) all) (perform i o) (fun _ => pre i todo all).
Proof.
  apply rg_lift_exists. intros t. apply rg_conseq with
    (P := fun s => (at_least all - at_least (o :: todo) <= t <= at_most all - at_most (o :: todo))
                   /\ at_ i Free t s)
    (Q := fun _ => pre i todo all); [|by intros s [? ?]|done].
  apply rg_pure. intros Ht.
  assert (Hfin : forall (p : prog shared unit) P t', rg (R i) (G i) P p (fun _ => at_ i Free t') ->
    at_least all - at_least todo <= t' <= at_most all - at_most todo ->
    rg (R i) (G i) P p (fun _ => pre i todo all)).
  { intros p P t' Hp Hb. eapply rg_conseq; [exact Hp|done|]. intros a s Hs. by exists t'. }
  assert (Hret : forall t', at_least all - at_least todo <= t' <= at_most all - at_most todo ->
    rg (R i) (G i) (at_ i Free t') (mret tt) (fun _ => pre i todo all)).
  { intros t' Hb. apply (Hfin _ _ t'); [|done]. apply (rg_ret (R i) (G i) tt (fun _ => at_ i Free t')). }
  destruct o; simpl in Ht; unfold perform.
  - eapply rg_bind; [apply (rg_lock ref i _ _ (client_G_refl i) _ (at_ i Excl t)); try apply at_stable;
      [by eexists|intros s l Hs Hl; injection Hl as <-; by apply step_take_exclusive]|]. intros [].
    eapply rg_bind; [apply rg_increment|]. intros [].
    eapply Hfin; [apply rg_unlock_client|lia].
  - eapply rg_bind; [apply (rg_try_lock ref i _ _ (client_G_refl i) _ (at_ i Excl t)); try apply at_stable;
      [by eexists|intros s l Hs Hl; injection Hl as <-; by apply step_take_exclusive]|].
    intros [|]; [|apply Hret; lia].
    eapply rg_bind; [apply rg_increment|]. intros [].
    eapply Hfin; [apply rg_unlock_client|lia].
  - eapply rg_bind; [apply (rg_lock_shared ref i _ _ (client_G_refl i) _ (at_ i Shar t)); try apply at_stable;
      [by eexists|intros s l Hs Hl; injection Hl as <-; by apply step_take_shared]|]. intros [].
    eapply rg_bind; [by apply rg_read_cell|]. intros x.
    eapply rg_bind; [apply (rg_lock_upgrade ref i _ _ (client_G_refl i) _ (seen i Excl t x));
      try (by apply seen_stable); [by eexists|]|].
    { intros s l [Hs Hx] [= <-] Hc. destruct (step_take_upgrade i t s Hs Hc). by split_and!. }
    intros []. eapply rg_bind; [apply rg_write_cell|]. intros [].
    eapply Hfin; [apply rg_unlock_client|lia].
  - eapply rg_bind; [apply (rg_lock_shared ref i _ _ (client_G_refl i) _ (at_ i Shar t)); try apply at_stable;
      [by eexists|intros s l Hs Hl; injection Hl as <-; by apply step_take_shared]|]. intros [].
    eapply rg_bind; [apply rg_read_twice|]. intros [].
    eapply Hfin; [apply rg_unlock_shared_client|lia].
  - eapply rg_bind; [apply (rg_try_lock_shared ref i _ _ (client_G_refl i) _ (at_ i Shar t)); try apply at_stable;
      [by eexists|intros s l Hs Hl; injection Hl as <-; by apply step_take_shared]|].
    intros [|]; [|apply Hret; lia].
    eapply rg_bind; [apply rg_read_twice|]. intros [].
    eapply Hfin; [apply rg_unlock_shared_client|lia].
Qed.

Lemma pre_init i ops : (i < n)%nat -> pre i ops ops (init n).
Proof.
  intros Hi. exists 0. split; [|lia]. split; [split; [apply lock_ok_init|]|].
  - simpl. split; [|apply length_replicate]. clear. induction n; [done|]. simpl. done.
  - simpl. split; [by apply lookup_replicate_2|]. split_and!; try done; set_solver.
Qed.

Lemma client_pre_stable i todo all : stable (R i) (pre i todo all).
Proof. intros s s' (t & Hat & Ht) HR. exists t. split; [|done]. by eapply at_stable. Qed.

End Proof.

Lemma sum_between (l : list Z) (ops : list (list op)) :
  length l = length ops ->
  (forall i t o, l !! i = Some t -> ops !! i = Some o -> at_least o <= t <= at_most o) ->
  sum (map at_least ops) <= sum l <= sum (map at_most ops).
Proof.
  revert ops. induction l as [|t l IH]; intros [|o ops] Hlen H; simpl in *; try done.
  pose proof (H 0%nat t o eq_refl eq_refl).
  destruct (IH ops) as [? ?]; [lia|intros i t' o' ? ?; by apply (H (S i))|].
  unfold sum in *; simpl; lia.
Qed.

(** C22. Mutual exclusion of the reader-writer latch, over every interleaving.
    Any number of threads run any sequences of operations on a shared cell:
    read-then-store under [lock], under [try_lock], or under [lock_shared]
    followed by [lock_upgrade]; two reads under [lock_shared] or
    [try_lock_shared], failing if they differ.  For every schedule the run
    makes no failing step (no reader ever sees the cell change), and once all
    threads have finished the latch is free and no store has been lost. *)
Theorem latch_mutual_exclusion (ops : list (list op)) :
  Z.of_nat (length ops) < 2 ^ 63 ->
  forall sched, exists pool s,
    run_schedule sched (imap client ops) (init (length ops)) = Ok (pool, s) /\
    ((forall p, p ∈ pool -> result p = Some tt) ->
       cnt (latch s) = 0 /\
       sum (map at_least ops) <= cell s <= sum (map at_most ops)).
Proof.
  intros Hn sched. set (n := length ops) in *.
  destruct (rg_parallel (R n) (G n) (client_R_refl n) (client_R_trans n) (client_G_R n)
    (imap client ops) (fun i => pre n i (default [] (ops !! i)) (default [] (ops !! i)))
    (fun i _ => pre n i [] (default [] (ops !! i))) (init n)) with (sched := sched)
    as (pool & s & Hrun & Hlen & Hsteps & HQ).
  - intros i p Hp. rewrite list_lookup_imap in Hp.
    destruct (ops !! i) as [o|] eqn:Ho; simplify_eq/=. split_and!.
    + apply pre_init; [done|by eapply lookup_lt_Some].
    + apply client_pre_stable.
    + apply (rg_forP (R n i) (G n i) o (perform i) (fun todo => pre n i todo o)).
      intros x l'. by apply rg_perform.
  - exists pool, s. split; [done|]. intros Hall.
    rewrite length_imap in Hlen. fold n in Hlen.
    assert (Hpost : forall i o, ops !! i = Some o -> pre n i [] o s).
    { intros i o Ho. assert (i < length pool)%nat as [p Hp]%lookup_lt_is_Some
        by (rewrite Hlen; by eapply lookup_lt_Some).
      pose proof (Hall p (list_elem_of_lookup_2 _ _ _ Hp)) as Hres.
      destruct p as [[]| |]; try done. specialize (HQ i tt Hp). by rewrite Ho in HQ. }
    assert (Hinv : inv n s).
    { assert (H0 : inv n (init n)).
      { split; [apply lock_ok_init|]. simpl. split; [|apply length_replicate].
        clear. induction n; [done|]. simpl. done. }
      clear -Hsteps H0. induction Hsteps as [|x y z [i Hi] _ IH]; [done|]. apply IH, Hi, H0. }
    destruct Hinv as (Hok & Hc & Hlt). split.
    + pose proof Hok as (_ & Hlts & Hhold).
      assert (Hfree : forall i, (i < n)%nat -> holder (latch s) <> Some i /\ i ∉ readers (latch s)).
      { intros i [o Ho]%lookup_lt_is_Some. destruct (Hpost i o Ho) as (t & (_ & _ & _ & H1 & H2) & _).
        rewrite H1, H2. done. }
      assert (Hr : readers (latch s) = []).
      { destruct (readers (latch s)) as [|r rs]; [done|]. inversion Hlts; subst.
        destruct (Hfree r) as [_ Hnot]; [done|]. set_solver. }
      rewrite Hr in Hhold. destruct (holder (latch s)) as [h|] eqn:Hh; [|done].
      destruct Hhold as [Hlt' _]. by destruct (Hfree h Hlt').
    + rewrite Hc. apply sum_between; [by rewrite Hlt|].
      intros i t o Ht Ho. destruct (Hpost i o Ho) as (t' & (_ & Ht' & _) & Hb).
      simplify_eq. simpl in Hb. lia.
Qed.

End Client.

Lemma latch_mutual_exclusion_witness :
  exists pool s,
    run_schedule (concat (replicate 60 [0; 1; 2]%nat))
      (imap Client.client [[Client.Increment; Client.ReadTwice];
                           [Client.UpgradeIncrement; Client.TryReadTwice];
                           [Client.Increment; Client.TryIncrement]])
      (Client.init 3) = Ok (pool, s) /\
    ((forall p, p ∈ pool -> result p = Some tt) ->
       cnt (Client.latch s) = 0 /\ 3 <= Client.cell s <= 4) .
Proof.
  apply (Client.latch_mutual_exclusion
    [[Client.Increment; Client.ReadTwice];
     [Client.UpgradeIncrement; Client.TryReadTwice];
     [Client.Increment; Client.TryIncrement]]).
  reflexivity.
Defined.

(** The run of the witness does finish: every thread returns. *)
Example latch_run_finishes :
  match run_schedule (concat (replicate 60 [0; 1; 2]%nat))
      (imap Client.client [[Client.Increment; Client.ReadTwice];
                           [Client.UpgradeIncrement; Client.TryReadTwice];
                           [Client.Increment; Client.TryIncrement]])
      (Client.init 3) with
  | Ok (pool, s) => forallb (fun p => if result p is Some _ then true else false) pool = true
                    /\ cnt (Client.latch s) = 0 /\ 3 <= Client.cell s
  | Err _ => False
  end.
Proof. vm_compute. split; [done|]. split; [done|]. by intros ?. Qed.
