(* ===== verification/Latches.v ===== *)
(** * Latches: threads that take latches finish

    In the initialisation phases the workers take the latches of rows and of
    the region and buffer controllers, and spin while somebody else has them.
    [lat n H p] says of a thread [p] that holds the latches [H] that it has at
    most [n] productive steps left; between two of them it may spin, as long as
    the latches above those it holds are taken ([turn], [near]).  A thread that
    spins waits for a latch of a higher level than the ones it holds, so the
    holder of a latch of the highest level taken moves on, and the pool
    finishes under every fair schedule. *)
From Stdlib Require Import FunctionalExtensionality.
From S2P Require Import Prelude Conc Fair RWLock.

Definition taken_by (c : nat) : RWLock := mkLock (-1) (Some c) [].

(** ** The latches of a state *)
Record Latches (S : Type) := mkLatches {
  name : Type;
  latch : name -> LockAt S;
  level : name -> nat;
  same : S -> S -> Prop
}.
Arguments name {S}. Arguments latch {S}. Arguments level {S}. Arguments same {S}.

(** What the latches have to do with each other.  [same s s']: the step from
    [s] to [s'] changed nothing that a spinning thread looks at. *)
Record latches_ok {S} (L : Latches S) : Prop := {
  same_refl : forall s, same L s s;
  same_sym : forall s s', same L s s' -> same L s' s;
  same_trans : forall s1 s2 s3, same L s1 s2 -> same L s2 s3 -> same L s1 s3;
  same_latch : forall s s' l, same L s s' -> get_lock (latch L l) s' = get_lock (latch L l) s;
  latch_set : forall s l x y, get_lock (latch L l) s = Some x -> get_lock (latch L l) (set_lock (latch L l) y s) = Some y;
  latch_other : forall s l l' y, l <> l' -> get_lock (latch L l') (set_lock (latch L l) y s) = get_lock (latch L l') s
}.

Section Threads.
Context {S : Type} (L : Latches S).
Hypothesis ok : latches_ok L.
Local Abbreviation at_ := (fun s l => get_lock (latch L l) s).

Definition others_kept (s s' : S) (l : name L) : Prop := forall l', l' <> l -> at_ s' l' = at_ s l'.

(** What is known of the latches whenever thread [me] holds [H]. *)
Definition fit (me : nat) (H : list (name L)) (s : S) : Prop :=
  (forall l x, at_ s l = Some x -> x = RWLock_init \/ exists c, x = taken_by c) /\
  (forall l, l ∈ H -> at_ s l = Some (taken_by me)).

(** What an action of thread [me] does to the latches, and to the list of those it holds. *)
Definition effect (me : nat) (H H' : list (name L)) (s s' : S) : Prop :=
  (H' = H /\ forall l, at_ s' l = at_ s l) \/
  (exists l, H' = l :: H /\ at_ s l = Some RWLock_init /\ at_ s' l = Some (taken_by me) /\ others_kept s s' l) \/
  (exists l, H = l :: H' /\ at_ s' l = Some RWLock_init /\ others_kept s s' l).

Definition top (H : list (name L)) : nat := list_max (Datatypes.S ∘ level L <$> H).
(** All latches that a thread holding [H] may wait for are free. *)
Definition avail (H : list (name L)) (s : S) : Prop :=
  forall l x, (top H <= level L l)%nat -> at_ s l = Some x -> x = RWLock_init.

(** ** Spinning *)
Section Turn.
Context {A C B : Type} (body : C -> prog S (C + B)) (k : B -> prog S A).

Definition round (r : C + B) : prog S A := match r with inr b => k b | inl c => Loop c body k end.

(** [near r s q]: with nothing changing in [s], the loop is left, or something
    is changed, after fewer than [r] more steps. *)
Fixpoint near (r : nat) (s : S) (q : prog S (C + B)) : Prop :=
  match r with
  | O => False
  | Datatypes.S r' =>
      match q with
      | Ret (inl c) => near r' s (body c)
      | Ret (inr _) => True
      | Act m f => forall s1 b s2, same L s s1 -> m s1 = Ok (b, s2) -> ~ same L s1 s2 \/ near r' s (f b)
      | Loop c body' k' => near r' s (unroll c body' k')
      end
  end.

Lemma near_same r : forall s s' q, same L s s' -> near r s q -> near r s' q.
Proof.
  induction r as [|r IH]; [done|]. intros s s' [[c|b]|B' m f|C' B' c body' k'] Hs; cbn; [by apply IH|done| |by apply IH].
  intros Hn s1 b s2 Hs1 Hm. destruct (Hn s1 b s2) as [?|?]; [by eapply (same_trans L ok)|done|by left|right; by eapply IH].
Qed.

Lemma near_more r : forall r' s q, (r <= r')%nat -> near r s q -> near r' s q.
Proof.
  induction r as [|r IH]; [done|]. intros [|r'] s q Hle Hn; [lia|].
  destruct q as [[c|b]|B' m f|C' B' c body' k']; cbn in *; [apply IH; [lia|done]|done| |apply IH; [lia|done]].
  intros s1 b s2 Hs Hm. destruct (Hn s1 b s2 Hs Hm); [by left|right; apply IH; [lia|done]].
Qed.

(** One traversal of the loop body by a thread that holds [H].  [P n' H' p]:
    the thread goes on as [p], with [n'] productive steps left. *)
Context (K : nat) (again : C -> Prop) (me n : nat) (H : list (name L)) (P : nat -> list (name L) -> prog S A -> Prop).

#[warnings="-register-all"]
Inductive turn : prog S (C + B) -> Prop :=
| turn_again c : again c -> (forall s, avail H s -> near K s (Ret (inl c))) -> turn (Ret (inl c))
| turn_exit b n' : (n' <= n)%nat -> P n' H (k b) -> turn (Ret (inr b))
| turn_act D (m : M S D) f :
    (forall s, avail H s -> near K s (Act m f)) ->
    (forall s d s', fit me H s -> m s = Ok (d, s') ->
       (exists n' H', (n' <= n)%nat /\ effect me H H' s s' /\ P n' H' (prog_bind (f d) round)) \/
       (same L s s' /\ turn (f d))) ->
    turn (Act m f)
| turn_loop C' B' c body' k' :
    (forall s, avail H s -> near K s (Loop c body' k')) ->
    turn (unroll (C := C') (B := B') c body' k') -> turn (Loop c body' k').
End Turn.

(** ** Threads *)
Context (K me : nat).
#[warnings="-register-all"]
Inductive lat {A} : nat -> list (name L) -> prog S A -> Prop :=
| lat_ret a : lat 0 [] (Ret a)
| lat_act B (m : M S B) f n H :
    (forall s b s', fit me H s -> m s = Ok (b, s') -> exists n' H', (n' <= n)%nat /\ effect me H H' s s' /\ lat n' H' (f b)) ->
    lat (Datatypes.S n) H (Act m f)
| lat_spin C B (body : C -> prog S (C + B)) k (again : C -> Prop) n H q :
    (forall c, again c -> turn body k K again me n H lat (body c)) ->
    turn body k K again me n H lat q -> (forall b, q <> Ret (inr b)) ->
    lat (Datatypes.S n) H (prog_bind q (round body k)).

(** Where a thread is: at an action, or on its way round a spin loop. *)
Inductive pos {A} : Type :=
| At (n : nat) (H : list (name L)) (p : prog S A)
| In {C B} (body : C -> prog S (C + B)) (k : B -> prog S A) (q : prog S (C + B)) (n : nat) (H : list (name L)).
Definition code {A} (w : pos (A := A)) : prog S A := match w with At _ _ p => p | In body k q _ _ => prog_bind q (round body k) end.
Definition weight {A} (w : pos (A := A)) : nat := match w with At n _ _ => n | In _ _ _ n _ => Datatypes.S n end.
Definition held {A} (w : pos (A := A)) : list (name L) := match w with At _ H _ => H | In _ _ _ _ H => H end.
Definition pos_ok {A} (w : pos (A := A)) : Prop :=
  match w with
  | At n H (Ret _) => n = 0%nat /\ H = []
  | At n H (Act m f) => exists n0, n = Datatypes.S n0 /\ forall s b s', fit me H s -> m s = Ok (b, s') ->
      exists n' H', (n' <= n0)%nat /\ effect me H H' s s' /\ lat n' H' (f b)
  | At _ _ (Loop _ _ _) => False
  | In body k q n H => exists again, (forall c, again c -> turn body k K again me n H lat (body c)) /\
      turn body k K again me n H lat q /\ (forall b, q <> Ret (inr b))
  end.
Definition live_pos {A} (w : pos (A := A)) (s : S) (r : nat) : Prop :=
  match w with At n _ _ => n <> 0%nat | In body _ q _ _ => near body (Datatypes.S r) s q end.

Lemma lat_pos {A} n H (p : prog S A) : lat n H p -> exists w, code w = p /\ weight w = n /\ held w = H /\ pos_ok w.
Proof.
  destruct 1 as [a|B m f n H Hm|C B body k again n H q Hb Hq Hne].
  - by exists (At 0 [] (Ret a)).
  - exists (At (Datatypes.S n) H (Act m f)). split_and!; [done..|]. by exists n.
  - exists (In body k q n H). split_and!; [done..|]. by exists again.
Qed.

(** Into the loop, or out of it. *)
Lemma enter {A C B} (body : C -> prog S (C + B)) (k : B -> prog S A) again n H q :
  (forall c, again c -> turn body k K again me n H lat (body c)) -> turn body k K again me n H lat q ->
  exists w, code w = prog_bind q (round body k) /\ held w = H /\ pos_ok w /\
    ((weight w < Datatypes.S n)%nat \/ w = In body k q n H).
Proof.
  intros Hb Hq. assert (Hin : (forall b, q <> Ret (inr b)) -> pos_ok (In body k q n H)) by (intros ?; by exists again).
  destruct Hq as [c Hc Hn|b n' Hle HP|D m f Hn Hm|C' B' c body' k' Hn Hq'].
  2:{ destruct (lat_pos _ _ _ HP) as (w & Hc & <- & Hh & Hok). exists w. split_and!; [done..|left; lia]. }
  all: eexists (In body k _ n H); split_and!; [done|done|by apply Hin|by right].
Qed.

(** One step: less weight, or a step nearer to that. *)
Lemma pos_step {A} (w : pos (A := A)) s p' s' :
  pos_ok w -> fit me (held w) s -> step (code w) s = Some (Ok (p', s')) ->
  exists w', code w' = p' /\ pos_ok w' /\ effect me (held w) (held w') s s' /\
    ((weight w' < weight w)%nat \/
     weight w' = weight w /\ same L s s' /\ forall r, live_pos w s r -> exists r', (r' < r)%nat /\ live_pos w' s' r').
Proof.
  assert (Hstay : forall s s', same L s s' -> forall H, effect me H H s s').
  { intros t t' Ht H. left. split; [done|]. intros l. by apply (same_latch L ok). }
  destruct w as [n H p|C B body k q n H]; cbn [code held].
  { destruct p as [a|B m f|]; [done| |done]. cbn [pos_ok step]. intros (n0 & -> & Hm) Hfit.
    destruct (m s) as [[b s1]|] eqn:Hms; [|done]. intros [= <- <-].
    destruct (Hm s b s1 Hfit Hms) as (n' & H' & Hle & Heff & Hl). destruct (lat_pos _ _ _ Hl) as (w & <- & <- & <- & Hok).
    exists w. split_and!; [done..|]. left. cbn. lia. }
  intros (again & Hb & Hq & Hne) Hfit.
  assert (Hgo : forall q', turn body k K again me n H lat q' -> same L s s' -> p' = prog_bind q' (round body k) ->
    (forall r, near body (Datatypes.S r) s q -> exists r0, r = Datatypes.S r0 /\ near body (Datatypes.S r0) s' q') ->
    exists w', code w' = p' /\ pos_ok w' /\ effect me H (held w') s s' /\
    ((weight w' < weight (In body k q n H))%nat \/ weight w' = weight (In body k q n H) /\ same L s s' /\
      forall r, live_pos (In body k q n H) s r -> exists r', (r' < r)%nat /\ live_pos w' s' r')).
  { intros q' Hq' Hs -> Hr. destruct (enter body k again n H q' Hb Hq') as (w & Hc & Hh & Hok & Hw).
    exists w. split_and!; [done|done|rewrite Hh; by apply Hstay|].
    destruct Hw as [Hw| ->]; [by left|right]. split_and!; [done|done|]. intros r Hn. destruct (Hr r Hn) as (r0 & -> & ?).
    exists r0. split; [lia|done]. }
  destruct Hq as [c Hc Hn|b n' Hle HP|D m f Hn Hm|C' B' c body' k' Hn Hq'].
  - cbn. intros [= <- <-]. apply (Hgo (body c)); [by apply Hb|by apply (same_refl L ok)|done|].
    intros r Hnr. destruct r as [|r]; [done|]. by exists r.
  - by destruct (Hne b).
  - cbn. destruct (m s) as [[b s1]|] eqn:Hms; [|done]. intros [= <- <-].
    destruct (Hm s b s1 Hfit Hms) as [(n' & H' & Hle & Heff & Hl)|[Hs Hq']].
    + destruct (lat_pos _ _ _ Hl) as (w & Hcode & <- & <- & Hok). exists w. split_and!; [done..|]. left. lia.
    + apply (Hgo (f b)); [done|done|done|]. intros r Hnr. cbn in Hnr.
      destruct (Hnr s b s1 (same_refl L ok s) Hms) as [?|Hf]; [done|]. destruct r as [|r]; [done|]. exists r. split; [done|].
      by apply (near_same body (Datatypes.S r) s).
  - cbn. intros [= <- <-]. apply (Hgo (unroll c body' k')); [done|by apply (same_refl L ok)| |].
    + unfold unroll. rewrite prog_bind_assoc. f_equal. apply functional_extensionality. by intros [].
    + intros r Hnr. destruct r as [|r]; [done|]. by exists r.
Qed.
End Threads.

(** ** The pool *)
Section Pool.
Context {S A : Type} (L : Latches S) `{eq_name : EqDecision (name L)}.
Hypothesis ok : latches_ok L.
Context (K N : nat) (progs : list (prog S A)) (s0 : S) (n : nat -> nat).
Local Abbreviation at_ := (fun s l => get_lock (latch L l) s).
Local Abbreviation pos := (pos L (A := A)).

Hypothesis progs_lat : forall c p, progs !! c = Some p -> exists n', (n' <= n c)%nat /\ lat L K c n' [] p.
Hypothesis progs_length : length progs = N.
Hypothesis start_free : forall l x, at_ s0 l = Some x -> x = RWLock_init.
Hypothesis no_error : forall sched, exists pool s, run_schedule sched progs s0 = Ok (pool, s).

(** A latch is free, or taken by the thread that holds it. *)
Definition latches_held (ws : list pos) (s : S) : Prop :=
  (forall l x, at_ s l = Some x -> x = RWLock_init \/ exists c w, x = taken_by c /\ ws !! c = Some w /\ l ∈ held L w) /\
  (forall c w l, ws !! c = Some w -> l ∈ held L w -> at_ s l = Some (taken_by c)) /\
  (forall c w, ws !! c = Some w -> NoDup (held L w)).

Definition all_ok (ws : list pos) (s : S) : Prop :=
  (exists sched, run_schedule sched progs s0 = Ok (pool_at (fun _ => code L) ws, s)) /\ length ws = N /\
  (forall c w, ws !! c = Some w -> pos_ok L K c w) /\ latches_held ws s.

Lemma held_fit ws s c (w : pos) : latches_held ws s -> ws !! c = Some w -> fit L c (held L w) s.
Proof.
  intros (H1 & H2 & _) Hw. split; [|intros l Hl; by apply (H2 c w)].
  intros l x Hx. destruct (H1 l x Hx) as [|(d & v & -> & _)]; [by left|right; by exists d].
Qed.

Lemma effect_held ws s s' c w w' :
  latches_held ws s -> ws !! c = Some w -> effect L c (held L w) (held L w') s s' ->
  latches_held (<[c := w']> ws) s'.
Proof.
  intros (H1 & H2 & H3) Hw Heff. pose proof (lookup_lt_Some _ _ _ Hw) as Hlt.
  assert (Hat : forall d v, <[c := w']> ws !! d = Some v -> d = c /\ v = w' \/ d <> c /\ ws !! d = Some v).
  { intros d v Hd. destruct (decide (d = c)) as [->|Hne]; [left|right].
    - rewrite list_lookup_insert_eq in Hd by done. by simplify_eq.
    - by rewrite list_lookup_insert_ne in Hd by done. }
  assert (Hself : <[c := w']> ws !! c = Some w') by by apply list_lookup_insert_eq.
  assert (Hother : forall d v, d <> c -> ws !! d = Some v -> <[c := w']> ws !! d = Some v).
  { intros d v Hne Hd. by rewrite list_lookup_insert_ne. }
  assert (Hmine : forall d v l, d <> c -> ws !! d = Some v -> l ∈ held L v -> l ∉ held L w).
  { intros d v l Hne Hd Hl Hl'. pose proof (H2 d v l Hd Hl) as E1. pose proof (H2 c w l Hw Hl') as E2. unfold taken_by in *. congruence. }
  destruct Heff as [[Hh Hs]|[(l0 & Hh & Hf & Ht & Hs)|(l0 & Hh & Hf & Hs)]].
  - split_and!.
    + intros l x Hx. rewrite Hs in Hx. destruct (H1 l x Hx) as [?|(d & v & -> & Hd & Hl)]; [by left|right].
      destruct (decide (d = c)) as [->|Hne]; [exists c, w'|exists d, v]; split_and!; auto. rewrite Hh. congruence.
    + intros d v l Hd Hl. rewrite Hs. destruct (Hat d v Hd) as [[-> ->]|[Hne Hd']]; [|by eapply H2].
      rewrite Hh in Hl. by apply (H2 c w).
    + intros d v Hd. destruct (Hat d v Hd) as [[-> ->]|[Hne Hd']]; [rewrite Hh|]; by eapply H3.
  - assert (Hnew : l0 ∉ held L w). { intros Hin. pose proof (H2 c w l0 Hw Hin) as E. unfold taken_by, RWLock_init in *. congruence. }
    split_and!.
    + intros l x Hx. destruct (decide (l = l0)) as [->|Hl0].
      { right. exists c, w'. rewrite Ht in Hx. injection Hx as <-. split_and!; [done|done|]. rewrite Hh. by left. }
      rewrite Hs in Hx by done. destruct (H1 l x Hx) as [?|(d & v & -> & Hd & Hl)]; [by left|right].
      destruct (decide (d = c)) as [->|Hne]; [exists c, w'|exists d, v]; split_and!; auto. rewrite Hh. right. congruence.
    + intros d v l Hd Hl. destruct (Hat d v Hd) as [[-> ->]|[Hne Hd']].
      * rewrite Hh in Hl. apply elem_of_cons in Hl as [->|Hl]; [done|]. rewrite Hs; [by apply (H2 c w)|]. by intros ->.
      * pose proof (H2 d v l Hd' Hl). rewrite Hs; [done|]. intros ->. unfold taken_by, RWLock_init in *. congruence.
    + intros d v Hd. destruct (Hat d v Hd) as [[-> ->]|[Hne Hd']]; [rewrite Hh; constructor; [done|]|]; by eapply H3.
  - pose proof (H3 c w Hw) as Hnd. rewrite Hh in Hnd. apply NoDup_cons in Hnd as [Hnot Hnd].
    assert (Hin0 : l0 ∈ held L w) by (rewrite Hh; by left).
    split_and!.
    + intros l x Hx. destruct (decide (l = l0)) as [->|Hl0]; [left; congruence|].
      rewrite Hs in Hx by done. destruct (H1 l x Hx) as [?|(d & v & -> & Hd & Hl)]; [by left|right].
      destruct (decide (d = c)) as [->|Hne]; [exists c, w'|exists d, v]; split_and!; auto.
      assert (v = w) as -> by congruence. rewrite Hh in Hl. by apply elem_of_cons in Hl as [->|Hl].
    + intros d v l Hd Hl. destruct (Hat d v Hd) as [[-> ->]|[Hne Hd']].
      * rewrite Hs; [apply (H2 c w); [done|rewrite Hh; by right]|]. by intros ->.
      * rewrite Hs; [by apply (H2 d v)|]. intros ->. by apply (Hmine d v l0).
    + intros d v Hd. destruct (Hat d v Hd) as [[-> ->]|[Hne Hd']]; [done|by eapply H3].
Qed.

Lemma waits_above c (w : pos) s :
  pos_ok L K c w -> weight L w <> 0%nat -> avail L (held L w) s ->
  exists r, (r <= K)%nat /\ live_pos L w s r.
Proof.
  intros Hok Hw Ha. destruct w as [m H p|C B body k q m H]; [by exists 0%nat; split; [lia|]|].
  destruct Hok as (again & _ & Hq & Hne). cbn in Ha. cbn [live_pos].
  assert (Hn : near L body K s q) by (destruct Hq as [c0 Hc0 Hn|b m0 Hm0 HP|D mm f Hn Hm|C0 B0 c0 b0 k0 Hn Hq]; [by apply Hn|by destruct (Hne b)|by apply Hn..]).
  exists K. split; [done|]. eapply near_more; [|exact Hn]; lia.
Qed.

Lemma top_ge H l : l ∈ H -> (level L l < top L H)%nat.
Proof.
  intros Hl. unfold top. pose proof (proj1 (list_max_le (Datatypes.S ∘ level L <$> H) _) (le_n _)) as Hall.
  rewrite Forall_fmap, Forall_forall in Hall. by apply Hall.
Qed.

(** The holder of a latch of the highest level that is taken does not wait. *)
Lemma somebody_latches (ws : list pos) s :
  all_ok ws s -> ~ all_done (imap (fun _ => code L) ws) ->
  exists c w r, ws !! c = Some w /\ (r <= K)%nat /\ live_pos L w s r.
Proof.
  intros (_ & _ & Hok & H1 & H2 & _) Hnd.
  set (M := list_max ((fun w => top L (held L w)) <$> ws)).
  assert (HM : forall c w, ws !! c = Some w -> (top L (held L w) <= M)%nat).
  { intros c w Hw. pose proof (proj1 (list_max_le ((fun w => top L (held L w)) <$> ws) M) (le_n _)) as Hall.
    rewrite Forall_fmap, Forall_lookup in Hall. by apply (Hall c). }
  assert (Hup : forall d c w, (M - top L (held L w) <= d)%nat -> ws !! c = Some w -> weight L w <> 0%nat ->
    exists c w r, ws !! c = Some w /\ (r <= K)%nat /\ live_pos L w s r).
  { induction d as [|d IH]; intros c w Hd Hw Hwt.
    all: destruct (decide (Exists (fun v => Exists (fun l => (top L (held L w) <= level L l)%nat) (held L v)) ws)) as [He|Hn].
    all: try (destruct (waits_above c w s (Hok c w Hw) Hwt) as (r & ? & ?); [|by exists c, w, r]; intros l x Hl Hx;
      destruct (H1 l x Hx) as [|(e & v & _ & Hv & Hin)]; [done|]; exfalso; apply Hn, Exists_exists; exists v;
      split; [by eapply list_elem_of_lookup_2|]; apply Exists_exists; by exists l).
    all: apply Exists_exists in He as (v & Hv & (l & Hl & Hlev)%Exists_exists).
    all: apply list_elem_of_lookup in Hv as [e Hv]; pose proof (HM e v Hv); pose proof (top_ge _ _ Hl).
    { lia. }
    apply (IH e v); [lia|done|]. destruct v as [m G p|]; [|done]. specialize (Hok e _ Hv). cbn in Hok, Hl.
    destruct p; [|cbn; by destruct Hok as (? & -> & _)|done]. destruct Hok as [_ ->]. by apply not_elem_of_nil in Hl. }
  assert (exists c w, ws !! c = Some w /\ weight L w <> 0%nat) as (c & w & Hw & Hwt); [|by eapply (Hup _ c w)].
  apply not_Forall_Exists, Exists_exists in Hnd as (p & Hp & Hres).
  2:{ intros p. destruct p; [by left|by right; intros ?..]. }
  apply list_elem_of_lookup in Hp as [c Hc]. rewrite list_lookup_imap in Hc. destruct (ws !! c) as [w|] eqn:Hw; [|done].
  injection Hc as <-. exists c, w. split; [done|]. specialize (Hok c w Hw). destruct w as [m H p|]; [|done].
  cbn in *. destruct p; [by destruct Hres|by destruct Hok as (? & -> & _)|done].
Qed.

Lemma latches_progress : progress N K (fun _ => code L) (fun _ => weight L) (fun _ => live_pos L) all_ok.
Proof.
  constructor; [by intros ws s (_ & ? & _)| |by apply somebody_latches].
  intros ws s c w Hall Hw. pose proof Hall as ((sched & Hrun) & Hlen & Hok & Hheld). pose proof (lookup_lt_Some _ _ _ Hw) as Hlt.
  destruct (step (code L w) s) as [[[p' s']|err]|] eqn:Hst.
  2:{ exfalso. destruct (no_error (sched ++ [c])) as (pool' & e' & Hrun').
      rewrite (run_schedule_app _ _ _ _ _ _ Hrun) in Hrun'. cbn [run_schedule] in Hrun'. unfold pool_at in Hrun'.
      rewrite list_lookup_imap, Hw in Hrun'. cbn [fmap option_fmap option_map] in Hrun'. by rewrite Hst in Hrun'. }
  2:{ left. split; [done|]. intros r Hl. specialize (Hok c w Hw). destruct w as [m H p|C B body k q m H]; cbn in Hst.
      - destruct p; [by destruct Hok as [-> _]|done|done].
      - destruct Hok as (again & _ & Hq & Hne). destruct q as [[c'|b]| |]; [done|by destruct (Hne b)|done|done]. }
  right. destruct (pos_step L ok K c w s p' s' (Hok c w Hw) (held_fit _ _ _ _ Hheld Hw) Hst) as (w' & <- & Hok' & Heff & Hless).
  exists w', s'. split; [done|]. split; [|split; [destruct Hless as [|[-> _]]; lia|split]].
  - split; [|split; [by rewrite length_insert|split; [|by eapply effect_held]]].
    + exists (sched ++ [c]). rewrite (run_schedule_app _ _ _ _ _ _ Hrun). cbn [run_schedule]. unfold pool_at at 1.
      rewrite list_lookup_imap, Hw. cbn [fmap option_fmap option_map]. rewrite Hst.
      f_equal. f_equal. apply (pool_at_insert (fun _ => code L)).
    + intros d v Hv. destruct (decide (c = d)) as [<-|Hne].
      * rewrite list_lookup_insert_eq in Hv by done. by injection Hv as <-.
      * rewrite list_lookup_insert_ne in Hv by done. by apply Hok.
  - intros r Hl. destruct Hless as [|(_ & _ & Hr)]; [by left|right]. by apply Hr.
  - intros d v r _ _ Hl. destruct Hless as [|(_ & Hs & _)]; [by right|left].
    destruct v; [done|]. by apply (near_same L ok _ (Datatypes.S r) s).
Qed.

(** The pool at the start. *)
Lemma pool_start : exists ws : list pos, pool_at (fun _ => code L) ws = progs /\
  (total (fun _ => weight L) ws <= sum_list (n <$> seq 0 N))%nat /\ all_ok ws s0.
Proof.
  assert (Hspots : forall (l : list (prog S A)) f, (forall c p, l !! c = Some p -> exists n', (n' <= n (f + c))%nat /\ lat L K (f + c) n' [] p) ->
    exists ws : list pos, length ws = length l /\ imap (fun _ => code L) ws = l /\
      (sum_list (imap (fun _ => weight L) ws) <= sum_list (n <$> seq f (length l)))%nat /\
      forall c w, ws !! c = Some w -> pos_ok L K (f + c) w /\ held L w = []).
  { induction l as [|p l IH]; intros f Hl; [by exists []|].
    destruct (IH (Datatypes.S f)) as (ws & Hlw & Hcode & Hw & Hok).
    { intros c q Hq. rewrite Nat.add_succ_comm. by apply (Hl (Datatypes.S c)). }
    destruct (Hl 0%nat p eq_refl) as (n' & Hn' & Hp). rewrite Nat.add_0_r in *.
    destruct (lat_pos L K _ _ _ _ Hp) as (w & <- & <- & Hh & Hwok). exists (w :: ws). split_and!.
    - cbn. by rewrite Hlw.
    - cbn. f_equal. exact Hcode.
    - cbn. unfold compose. pose proof Hw. lia.
    - intros [|c] v Hv; simplify_eq/=; [by rewrite Nat.add_0_r|]. rewrite <- Nat.add_succ_comm. by apply Hok. }
  destruct (Hspots progs 0%nat progs_lat) as (ws & Hlw & Hcode & Hw & Hok). rewrite progs_length in *.
  exists ws. split; [exact Hcode|]. split; [exact Hw|]. split; [exists []; cbn; unfold pool_at; by rewrite Hcode|]. split; [done|]. split; [intros c w Hcw; by destruct (Hok c w Hcw)|].
    split_and!.
    - intros l x Hx. left. by apply (start_free l).
    - intros c w l Hcw Hl. destruct (Hok c w Hcw) as [_ Hh]. rewrite Hh in Hl. by apply not_elem_of_nil in Hl.
    - intros c w Hcw. destruct (Hok c w Hcw) as [_ ->]. constructor.
Qed.

(** When all threads are through, all latches are free. *)
Lemma latches_free_after sched pool s :
  run_schedule sched progs s0 = Ok (pool, s) -> all_done pool -> forall l x, at_ s l = Some x -> x = RWLock_init.
Proof.
  intros Hrun Hd l x Hx. destruct pool_start as (ws & Hcode & _ & Hok).
  destruct (pool_runs N K _ _ _ _ latches_progress sched ws s0 Hok) as (ws' & s' & Hrun' & (_ & _ & Hpos & H1 & _) & _).
  rewrite Hcode, Hrun in Hrun'. injection Hrun' as -> ->. destruct (H1 l x Hx) as [|(c & w & _ & Hw & Hl)]; [done|exfalso].
  unfold all_done in Hd. rewrite Forall_lookup in Hd.
  assert (Hc : pool_at (fun _ => code L) ws' !! c = Some (code L w)) by (unfold pool_at; by rewrite list_lookup_imap, Hw).
  specialize (Hd c _ Hc). specialize (Hpos c w Hw). destruct w as [m G p|C B body k q m G]; cbn in *.
  - destruct p; [|done|done]. destruct Hpos as [_ ->]. by apply not_elem_of_nil in Hl.
  - destruct Hpos as (? & _ & _ & Hne). destruct q as [[c'|b]| |]; try done. by destruct (Hne b).
Qed.

(** Threads that take latches return under every fair schedule. *)
Theorem latching_pool_finishes rounds :
  Forall (fair N) rounds -> (Datatypes.S K * sum_list (n <$> seq 0 N) <= length rounds)%nat ->
  exists pool s, run_schedule (concat rounds) progs s0 = Ok (pool, s) /\ all_done pool.
Proof.
  intros Hfair Hlen. destruct pool_start as (ws & Hcode & Htotal & Hstart).
  destruct (fair_pool_finishes N K _ _ _ _ latches_progress rounds ws s0 Hfair) as (ws' & s & Hrun & _ & Hd); [nia|done|].
  exists (pool_at (fun _ => code L) ws'), s. split; [|done]. by rewrite <- Hcode.
Qed.
End Pool.

Lemma mbind_prog {S A B} (f : A -> prog S B) p : mbind f p = prog_bind p f.
Proof. done. Qed.

(** ** Programs *)
Section Programs.
Context {S : Type} (L : Latches S).
Hypothesis ok : latches_ok L.
Context (K me : nat).
Local Abbreviation at_ := (fun s l => get_lock (latch L l) s).
Implicit Types H : list (name L).

Definition latw {A} (n : nat) H (p : prog S A) : Prop := exists n', (n' <= n)%nat /\ lat L K me n' H p.

Lemma latw_le {A} n n' H (p : prog S A) : (n <= n')%nat -> latw n H p -> latw n' H p.
Proof. intros Hle (k & ? & ?). exists k. split; [lia|done]. Qed.
Lemma latw_ret {A} n (a : A) : latw n [] (Ret a).
Proof. exists 0%nat. split; [lia|constructor]. Qed.

Lemma latw_bind_ret {A B} n H (b : B) (F : B -> prog S A) : latw n H (F b) -> latw n H (prog_bind (mret b) F).
Proof. done. Qed.

(** An action that leaves the latches alone. *)
Definition quiet {B} (m : M S B) : Prop := forall s b s', m s = Ok (b, s') -> forall l, at_ s' l = at_ s l.

Lemma latw_act {A B} (m : M S B) (F : B -> prog S A) n H :
  quiet m -> (forall s b s', m s = Ok (b, s') -> latw n H (F b)) -> latw (Datatypes.S n) H (prog_bind (act m) F).
Proof.
  intros Hq HF. exists (Datatypes.S n). split; [done|]. apply lat_act. intros s b s' _ Hm.
  destruct (HF s b s' Hm) as (n' & Hle & Hl). exists n', H. split_and!; [done| |exact Hl]. left. split; [done|]. by eapply Hq.
Qed.
Lemma latw_act_all {A B} (m : M S B) (F : B -> prog S A) n H :
  quiet m -> (forall b, latw n H (F b)) -> latw (Datatypes.S n) H (prog_bind (act m) F).
Proof. intros Hq HF. apply latw_act; [done|]. intros s b s' _. apply HF. Qed.

Lemma access_load l : quiet (access (latch L l) (fun x => (cnt x, None))).
Proof. intros s b s'. unfold access. destruct (get_lock _ s); [|done]. by intros [= _ <-]. Qed.

(** The exchange of [try_lock] and [lock], from 0. *)
Definition exchange l : M S (bool * Z) :=
  access (latch L l) (fun x => if cnt x =? 0 then ((true, 0), Some (take_exclusive me x)) else ((false, cnt x), None)).

Lemma exchange_effect l H s r s' :
  fit L me H s -> exchange l s = Ok (r, s') ->
  (r.1 = true /\ effect L me H (l :: H) s s' /\ ~ same L s s') \/ (r.1 = false /\ s' = s).
Proof.
  intros [Hs _]. unfold exchange, access. destruct (get_lock (latch L l) s) as [x|] eqn:Hx; [|done].
  destruct (Z.eqb_spec (cnt x) 0) as [Hz|]; intros [= <- <-]; [left|by right]. split; [done|].
  destruct (Hs l x Hx) as [->|(c & ->)]; [|done].
  assert (Hset : at_ (set_lock (latch L l) (take_exclusive me RWLock_init) s) l = Some (taken_by me)).
  { cbn. by erewrite latch_set. }
  split.
  - right. left. exists l. split_and!; [done|done|done|]. intros l' Hne. by apply (latch_other L ok).
  - intros Hsame. apply (same_latch L ok _ _ l) in Hsame. cbn in Hset. rewrite Hset in Hsame. unfold taken_by, RWLock_init in *. congruence.
Qed.

Lemma latw_try_lock {A} l (F : bool -> prog S A) n H :
  latw n (l :: H) (F true) -> latw n H (F false) -> latw (2 + n) H (prog_bind (try_lock (latch L l) me) F).
Proof.
  intros Ht Hf. unfold try_lock, load_acquire, mbind, prog_mbind. rewrite prog_bind_assoc.
  apply (latw_act_all _ _ (1 + n)); [apply access_load|]. intros x. destruct (Z.eqb_spec x 0) as [->|Hx]; [|by apply (latw_le n); [lia|]].
  exists (Datatypes.S n). split; [done|]. cbn. apply lat_act. intros s [b z] s' Hfit Hm. fold (exchange l) in Hm.
  destruct (exchange_effect l H s (b, z) s' Hfit Hm) as [(Hb & Heff & _)|(Hb & ->)]; cbn in Hb; subst b.
  - destruct Ht as (n' & Hle & Hl). by exists n', (l :: H).
  - destruct Hf as (n' & Hle & Hl). exists n', H. split_and!; [done|by left|done].
Qed.

Lemma latw_unlock {A} l (F : unit -> prog S A) n H :
  latw n H (F tt) -> latw (1 + n) (l :: H) (prog_bind (unlock (latch L l)) F).
Proof.
  intros (n' & Hle & Hl). exists (Datatypes.S n). split; [done|]. cbn. apply lat_act. intros s [] s' [Hs Hh]. unfold access.
  specialize (Hh l ltac:(by left)). cbn in Hh. rewrite Hh. intros [= <-]. exists n', H. split_and!; [done| |done].
  right. right. exists l. split_and!; [done|by erewrite latch_set|]. intros l' Hne. by apply (latch_other L ok).
Qed.

(** ** Loops *)
Hypothesis K_enough : (5 <= K)%nat.

Section Loop.
Context {A C B : Type} (body : C -> prog S (C + B)) (k : B -> prog S A) (again : C -> Prop) (n : nat) (H : list (name L)).
Local Abbreviation turn := (turn L body k K again me n H (lat L K me)).
Local Abbreviation near := (near L body).

Lemma near_try_lock s l (G : bool -> prog S (C + B)) :
  avail L H s -> (top L H <= level L l)%nat -> near 2 s (prog_bind (try_lock (latch L l) me) G).
Proof.
  intros Ha Hlev. cbn. intros s1 b s2 Hs1 Hm. right.
  assert (Hfree : forall s', same L s s' -> forall x, at_ s' l = Some x -> x = RWLock_init).
  { intros s' Hs' x Hx. apply (Ha l); [done|]. by rewrite <- (same_latch L ok _ _ l Hs'). }
  unfold access in Hm. destruct (get_lock (latch L l) s1) as [x|] eqn:Hx; [|done]. pose proof (Hfree s1 Hs1 x Hx) as ->.
  injection Hm as <- <-. cbn. intros s3 r s4 Hs3 Hm3. left. unfold access in Hm3.
  destruct (get_lock (latch L l) s3) as [y|] eqn:Hy; [|done]. pose proof (Hfree s3 Hs3 y Hy) as ->. cbn in Hm3. injection Hm3 as <- <-.
  intros Hsame. apply (same_latch L ok _ _ l) in Hsame. erewrite latch_set in Hsame by done.
  rewrite Hy in Hsame. by injection Hsame.
Qed.

Lemma near_again r s c : near r s (body c) -> near (1 + r) s (Ret (inl c)).
Proof. done. Qed.

Lemma near_bound r s q : (r <= K)%nat -> near r s q -> near K s q.
Proof. intros Hle. by apply near_more. Qed.

Lemma turn_try_lock l (G : bool -> prog S (C + B)) :
  (top L H <= level L l)%nat -> latw n (l :: H) (prog_bind (G true) (round body k)) -> turn (G false) ->
  turn (prog_bind (try_lock (latch L l) me) G).
Proof.
  intros Hlev (n' & Hle & Hl) Hf. apply turn_act.
  { intros s Ha. apply (near_bound 2); [lia|]. by apply (near_try_lock s l G). }
  intros s x s' _ Hm. right. unfold access in Hm. destruct (get_lock _ s) as [y|]; [|done]. injection Hm as <- <-.
  split; [by apply (same_refl L ok)|]. cbn. destruct (Z.eqb_spec (cnt y) 0) as [Hz|]; [|done]. rewrite Hz. apply turn_act.
  { intros s1 Ha. apply (near_bound 1); [lia|]. cbn. intros s2 r s3 Hs2 Hm. left. fold (exchange l) in Hm.
    unfold exchange, access in Hm. destruct (get_lock (latch L l) s2) as [z|] eqn:Hy; [|done].
    assert (z = RWLock_init) as ->. { apply (Ha l); [done|]. by rewrite <- (same_latch L ok _ _ l Hs2). }
    cbn in Hm. injection Hm as <- <-. intros Hsame. apply (same_latch L ok _ _ l) in Hsame.
    erewrite latch_set in Hsame by done. rewrite Hy in Hsame. by injection Hsame. }
  intros s1 [b z] s2 Hfit Hm. fold (exchange l) in Hm.
  destruct (exchange_effect l H s1 (b, z) s2 Hfit Hm) as [(Hb & Heff & _)|(Hb & ->)]; cbn in Hb; subst b; [left|right].
  - exists n', (l :: H). by split_and!.
  - split; [by apply (same_refl L ok)|done].
Qed.

Lemma turn_leave b : latw n H (k b) -> turn (Ret (inr b)).
Proof. intros (n' & Hle & Hl). by apply turn_exit with n'. Qed.

(** An action of the loop body that changes nothing a spinning thread looks at. *)
Definition idle {D} (m : M S D) : Prop := forall s d s', m s = Ok (d, s') -> same L s s'.

Lemma turn_idle {D} (m : M S D) (G : D -> prog S (C + B)) :
  idle m -> (forall s, avail L H s -> near K s (prog_bind (act m) G)) -> (forall d, turn (G d)) ->
  turn (prog_bind (act m) G).
Proof.
  intros Hi Hn HG. apply turn_act; [done|]. intros s d s' _ Hm. right. split; [by eapply Hi|apply HG].
Qed.

Lemma near_idle {D} r s (m : M S D) (G : D -> prog S (C + B)) :
  (forall s1 d s2, same L s s1 -> m s1 = Ok (d, s2) -> near r s (G d)) -> near (1 + r) s (prog_bind (act m) G).
Proof. intros HG. cbn. intros s1 d s2 Hs Hm. right. by eapply HG. Qed.
End Loop.

Lemma latw_spin {A B} (body : prog S (option B)) (F : B -> prog S A) n H :
  (let body' := fun _ : unit => r ← body; mret (match r with Some b => inr b | None => inl tt end) in
   (forall s, avail L H s -> near L body' K s (Ret (inl tt))) /\
   (forall q, q = body' tt -> turn L body' F K (fun _ => True) me n H (lat L K me) (Ret (inl tt)) ->
    turn L body' F K (fun _ => True) me n H (lat L K me) q)) ->
  latw (1 + n) H (prog_bind (loop body) F).
Proof.
  cbn zeta. intros [Hn Ht]. exists (Datatypes.S n). split; [done|].
  apply (lat_spin L K me unit B _ F (fun _ => True) n H (Ret (inl tt))); [intros [] _; apply Ht; [done|]; by apply turn_again|by apply turn_again|done].
Qed.

(** [lock] spins on the latch alone. *)
Lemma lock_eq (l : LockAt S) : lock l me = loop (b ← try_lock l me; mret (if b : bool then Some tt else None)).
Proof.
  unfold lock, try_lock. f_equal. unfold mbind, prog_mbind.
  rewrite !prog_bind_assoc. f_equal. apply functional_extensionality. intros x. destruct (x =? 0); [|done].
  rewrite !prog_bind_assoc. f_equal. apply functional_extensionality. by intros [[] ?].
Qed.

Lemma latw_lock {A} l (F : unit -> prog S A) n H :
  (top L H <= level L l)%nat -> latw n (l :: H) (F tt) -> latw (1 + n) H (prog_bind (lock (latch L l) me) F).
Proof.
  intros Hlev HF. rewrite lock_eq. apply latw_spin. cbn zeta. split.
  - intros s Ha. eapply near_more with (r := 3%nat); [lia|]. apply near_again. unfold mbind, prog_mbind. rewrite prog_bind_assoc.
    by apply (near_try_lock _ H).
  - intros q Hq Hagain. unfold mbind, prog_mbind in Hq. rewrite prog_bind_assoc in Hq. subst q. by apply turn_try_lock.
Qed.
End Programs.
