(* ===== verification/Barrier.v ===== *)
(** * Barrier: the rendezvous between the phases

    [protocols/ycsb_common/rendezvous_barrier.hpp] and
    [rendezvous_barrier_to_start] of the executables.  Worker 63 is the parent:
    it waits until the other 63 workers are ready, resets the counter and
    publishes the barrier's type, on which the children spin.  Ghost fields
    count the barriers each worker has arrived at and passed. *)
From S2P Require Import Prelude Bitmap Conc Fair.

Inductive BarrierType := BeforeExp | Exp | InitPhase | ExecPhase | NewEpoc | Size.
#[export] Instance BarrierType_eq_dec : EqDecision BarrierType.
Proof. solve_decision. Defined.

(** [class RendezvousBarrierVariable]. *)
Record Rendezvous := mkRendezvous {
  start_ : BarrierType;                (* parent to children *)
  ready_ : Z;                          (* children to parent *)
  num_children_ : Z;
  children_arrived_ : list nat;        (* ghost: barriers each child has arrived at *)
  children_passed_ : list nat;         (* ghost: barriers each child has passed *)
  parent_arrived_ : nat;               (* ghost: the same for the parent *)
  parent_passed_ : nat
}.
Definition Rendezvous_init (num_children : nat) : Rendezvous :=
  mkRendezvous BeforeExp (Z.of_nat num_children) (Z.of_nat num_children)
    (replicate num_children 0%nat) (replicate num_children 0%nat) 0 0.

(** Where the barrier lives in a larger state. *)
Record BarrierAt (S : Type) := mkBarrierAt {
  get_rend : S -> Rendezvous;
  set_rend : Rendezvous -> S -> S
}.
Arguments mkBarrierAt {S}.
Arguments get_rend {S}.
Arguments set_rend {S}.

Section Programs.
Context {S : Type} (ref : BarrierAt S).

Definition rend_action {A} (f : Rendezvous -> A * Rendezvous) : prog S A :=
  act (fun s => let (a, r) := f (get_rend ref s) in Ok (a, set_rend ref r s)).

Definition load_ready : prog S Z := rend_action (fun r => (ready_ r, r)).

Definition wait_all_children_ready : prog S unit :=
  loop (ready ← load_ready; mret (if 0 <? ready then None else Some tt)).

Definition send_start_to_all_children (type : BarrierType) : prog S unit :=
  rend_action (fun r => (tt, mkRendezvous type (ready_ r) (num_children_ r) (children_arrived_ r)
                               (children_passed_ r) (parent_arrived_ r) (1 + parent_passed_ r))).

Definition initialize : prog S unit :=
  rend_action (fun r => (tt, mkRendezvous (start_ r) (num_children_ r) (num_children_ r)
                               (children_arrived_ r) (children_passed_ r)
                               (1 + parent_arrived_ r) (parent_passed_ r))).

(** [__atomic_sub_fetch(&ready_, 1)] on an [int]. *)
Definition send_ready_to_parent (child : nat) : prog S unit :=
  rend_action (fun r => (tt, mkRendezvous (start_ r) (i32 (ready_ r - 1)) (num_children_ r)
                               (alter Datatypes.S child (children_arrived_ r)) (children_passed_ r)
                               (parent_arrived_ r) (parent_passed_ r))).

(** The load of [start_]; the ghost counter records that it ended the wait. *)
Definition poll_start (child : nat) (type : BarrierType) : prog S (option unit) :=
  rend_action (fun r =>
    if decide (start_ r = type) then
      (Some tt, mkRendezvous (start_ r) (ready_ r) (num_children_ r) (children_arrived_ r)
                  (alter Datatypes.S child (children_passed_ r)) (parent_arrived_ r) (parent_passed_ r))
    else (None, r)).
Definition wait_start (child : nat) (type : BarrierType) : prog S unit :=
  loop (poll_start child type).

Definition wait_all_children_and_send_start (type : BarrierType) : prog S unit :=
  wait_all_children_ready ;; initialize ;; send_start_to_all_children type.

Definition send_ready_and_wait_start (child : nat) (type : BarrierType) : prog S unit :=
  send_ready_to_parent child ;; wait_start child type.

Definition rendezvous_barrier_to_start (type : BarrierType) (worker_id : nat) : prog S unit :=
  if decide (worker_id = 63%nat) then wait_all_children_and_send_start type
  else send_ready_and_wait_start worker_id type.
End Programs.

(** ** The barrier on its own *)
Section Separation.

Definition self : BarrierAt Rendezvous := mkBarrierAt id (fun r _ => r).

(** A worker that goes through the barriers of [types]. *)
Definition through (types : list BarrierType) (worker_id : nat) : prog Rendezvous unit :=
  forP types (fun type => rendezvous_barrier_to_start self type worker_id).

Definition arrived (i : nat) (r : Rendezvous) : nat :=
  if decide (i = 63%nat) then parent_arrived_ r else default 0%nat (children_arrived_ r !! i).
Definition passed (i : nat) (r : Rendezvous) : nat :=
  if decide (i = 63%nat) then parent_passed_ r else default 0%nat (children_passed_ r !! i).

(** A wait is for a value that is not there yet: consecutive barriers have
    different types, and the first is not the initial value. *)
Definition alternating (types : list BarrierType) : Prop :=
  forall k a b, (BeforeExp :: types) !! k = Some a -> (BeforeExp :: types) !! S k = Some b -> a <> b.

Context (types : list BarrierType).

Definition published (k : nat) : BarrierType := default Size ((BeforeExp :: types) !! k).

Record barrier_inv (r : Rendezvous) : Prop := {
  bi_children : num_children_ r = 63;
  bi_lengths : length (children_arrived_ r) = 63%nat /\ length (children_passed_ r) = 63%nat;
  bi_parent : (parent_passed_ r <= parent_arrived_ r <= S (parent_passed_ r))%nat;
  bi_start : start_ r = published (parent_passed_ r);
  bi_child : forall c, (c < 63)%nat ->
    (passed c r <= arrived c r <= S (passed c r))%nat /\
    (parent_arrived_ r <= arrived c r <= S (parent_arrived_ r))%nat /\
    (passed c r <= parent_passed_ r)%nat;
  bi_ready : ready_ r = 63 * (Z.of_nat (parent_arrived_ r) + 1) - Z.of_nat (sum_list (children_arrived_ r))
}.

Definition kept (i : nat) (r r' : Rendezvous) : Prop :=
  arrived i r' = arrived i r /\ passed i r' = passed i r.
Definition grows (r r' : Rendezvous) : Prop :=
  forall j, (arrived j r <= arrived j r')%nat /\ (passed j r <= passed j r')%nat.
Definition R (i : nat) (r r' : Rendezvous) : Prop :=
  barrier_inv r -> barrier_inv r' /\ kept i r r' /\ grows r r'.
Definition G (i : nat) (r r' : Rendezvous) : Prop :=
  barrier_inv r -> barrier_inv r' /\ (forall j, i <> j -> kept j r r') /\ grows r r'.

Lemma barrier_R_refl i r : R i r r.
Proof. intros Hi. split; [done|]. split; [by split|]. intros j. lia. Qed.
Lemma barrier_G_refl i r : G i r r.
Proof. intros Hi. split; [done|]. split; [by split|]. intros j. lia. Qed.
Lemma barrier_R_trans i r1 r2 r3 : R i r1 r2 -> R i r2 r3 -> R i r1 r3.
Proof.
  intros H12 H23 H1. destruct (H12 H1) as (H2 & [A1 A2] & A3). destruct (H23 H2) as (H3 & [B1 B2] & B3).
  split; [done|]. split; [split; congruence|]. intros j. destruct (A3 j), (B3 j). lia.
Qed.
Lemma barrier_G_R i j r r' : i <> j -> G i r r' -> R j r r'.
Proof. intros Hne HG Hi. destruct (HG Hi) as (? & Hk & ?). split; [done|]. split; [by apply Hk|done]. Qed.

(** A child at barrier [k]: before it, or waiting at it; the parent likewise. *)
Definition at_barrier (i k : nat) (r : Rendezvous) : Prop :=
  barrier_inv r /\ arrived i r = k /\ passed i r = k.
Definition waiting_at (i k : nat) (r : Rendezvous) : Prop :=
  barrier_inv r /\ arrived i r = S k /\ passed i r = k.
Definition all_ready (k : nat) (r : Rendezvous) : Prop :=
  at_barrier 63 k r /\ forall c, (c < 63)%nat -> arrived c r = S k.

Lemma at_barrier_stable i k : stable (R i) (at_barrier i k).
Proof. intros r r' (Hi & Ha & Hp) HR. destruct (HR Hi) as (Hi' & [E1 E2] & _). split_and!; [done|congruence..]. Qed.
Lemma waiting_stable i k : stable (R i) (waiting_at i k).
Proof. intros r r' (Hi & Ha & Hp) HR. destruct (HR Hi) as (Hi' & [E1 E2] & _). split_and!; [done|congruence..]. Qed.
Lemma all_ready_stable k : stable (R 63) (all_ready k).
Proof.
  intros r r' [Hat Hc] HR. pose proof (at_barrier_stable 63 k r r' Hat HR) as Hat'. split; [done|].
  destruct Hat as (Hi & _). destruct (HR Hi) as (_ & _ & Hm). destruct Hat' as (Hi' & Ha' & _).
  intros c Hlt. pose proof (bi_child _ Hi' c Hlt) as (_ & Hr & _). destruct (Hm c) as [Hmc _]. rewrite Hc in Hmc by done.
  unfold arrived at 1 in Ha'. simpl in Ha'. lia.
Qed.

Lemma published_S k t : types !! k = Some t -> published (S k) = t.
Proof. unfold published. simpl. by intros ->. Qed.

Lemma child_lookup {l : list nat} c : length l = 63%nat -> (c < 63)%nat -> l !! c = Some (default 0%nat (l !! c)).
Proof. intros Hl Hc. destruct (lookup_lt_is_Some_2 l c) as [x Hx]; [lia|]. by rewrite Hx. Qed.

Lemma sum_list_alter (l : list nat) c x : l !! c = Some x -> sum_list (alter S c l) = S (sum_list l).
Proof.
  revert c. induction l as [|y l IH]; intros [|c] Hc; simplify_eq/=; [lia|]. by rewrite IH by done.
Qed.

Lemma sum_list_full (l : list nat) k :
  Forall (fun a => (a <= k)%nat) l -> (length l * k <= sum_list l)%nat -> Forall (fun a => a = k) l.
Proof.
  induction 1 as [|a l Ha Hl IH]; [constructor|]. simpl. intros Hs.
  assert (Hsum : (sum_list l <= length l * k)%nat).
  { clear -Hl. induction Hl as [|b l Hb _ IH]; simpl; lia. }
  constructor; [lia|]. apply IH. lia.
Qed.

Lemma sum_list_bound (l : list nat) k : Forall (fun a => (a <= k)%nat) l -> (sum_list l <= length l * k)%nat.
Proof. induction 1 as [|b l Hb _ IH]; simpl; lia. Qed.

Lemma child_alter_ne (f : nat -> nat) c j (l : list nat) : j <> c -> alter f c l !! j = l !! j.
Proof. intros Hne. by apply list_lookup_alter_ne. Qed.

Lemma children_bounds r :
  barrier_inv r -> Forall (fun a => (a <= S (parent_arrived_ r))%nat) (children_arrived_ r).
Proof.
  intros Hi. destruct (bi_lengths _ Hi) as [Hl _]. apply Forall_lookup. intros c a Hc.
  pose proof (lookup_lt_Some _ _ _ Hc) as Hlt. pose proof (bi_child _ Hi c) as (_ & Hr & _); [lia|].
  unfold arrived in Hr. rewrite decide_False, Hc in Hr by lia. simpl in Hr. lia.
Qed.

(** ** The actions of a worker *)
Lemma rg_rend {A} i (P : Rendezvous -> Prop) (f : Rendezvous -> A * Rendezvous) (Q : A -> Rendezvous -> Prop) :
  (forall a, stable (R i) (Q a)) ->
  (forall r, P r -> G i r (f r).2 /\ Q (f r).1 (f r).2) ->
  rg (R i) (G i) P (rend_action self f) Q.
Proof.
  intros HQ Hf. apply rg_act; [done|]. intros r HP. unfold wp. cbn. destruct (Hf r HP) as [? ?].
  by destruct (f r) as [a r'].
Qed.

Lemma arrived_child c r : (c < 63)%nat -> arrived c r = default 0%nat (children_arrived_ r !! c).
Proof. intros Hc. unfold arrived. by rewrite decide_False by lia. Qed.
Lemma passed_child c r : (c < 63)%nat -> passed c r = default 0%nat (children_passed_ r !! c).
Proof. intros Hc. unfold passed. by rewrite decide_False by lia. Qed.
Lemma arrived_parent r : arrived 63 r = parent_arrived_ r.
Proof. done. Qed.
Lemma passed_parent r : passed 63 r = parent_passed_ r.
Proof. done. Qed.

Lemma ready_range r : barrier_inv r -> 0 <= ready_ r <= 63.
Proof.
  intros Hi. rewrite (bi_ready _ Hi). destruct (bi_lengths _ Hi) as [Hl _].
  pose proof (sum_list_bound _ _ (children_bounds r Hi)) as Hub. rewrite Hl in Hub.
  assert (Hlb : (63 * parent_arrived_ r <= sum_list (children_arrived_ r))%nat); [|lia].
  rewrite <- Hl. assert (Hge : Forall (fun a => (parent_arrived_ r <= a)%nat) (children_arrived_ r)).
  { apply Forall_lookup. intros c a Hc. pose proof (lookup_lt_Some _ _ _ Hc) as Hlt.
    pose proof (bi_child _ Hi c) as (_ & Hr & _); [lia|]. rewrite arrived_child, Hc in Hr by lia. simpl in Hr. lia. }
  clear -Hge. induction Hge as [|a l Ha _ IH]; simpl; lia.
Qed.

(** A worker's own counter moves; the others' stay. *)
Lemma step_counter i r r' :
  barrier_inv r' -> (forall j, i <> j -> kept j r r') ->
  (arrived i r <= arrived i r')%nat -> (passed i r <= passed i r')%nat -> G i r r'.
Proof.
  intros Hi' Hk Ha Hp _. split; [done|]. split; [done|]. intros j. destruct (decide (i = j)) as [<-|Hne]; [done|].
  destruct (Hk j Hne) as [-> ->]. done.
Qed.

Lemma rg_send_ready c k :
  (c < 63)%nat -> rg (R c) (G c) (at_barrier c k) (send_ready_to_parent self c) (fun _ => waiting_at c k).
Proof.
  intros Hc. apply rg_rend; [intros _; apply waiting_stable|]. intros r (Hi & Ha & Hp). cbn [fst snd].
  destruct (bi_lengths _ Hi) as [Hla Hlp]. pose proof (child_lookup c Hla Hc) as Hx.
  rewrite <- arrived_child, Ha in Hx by done.
  set (r' := mkRendezvous _ _ _ _ _ _ _).
  assert (Harr : arrived c r' = S k).
  { rewrite arrived_child by done. cbn. by rewrite list_lookup_alter_eq, Hx. }
  assert (Hpas : forall j, passed j r' = passed j r) by done.
  assert (Hoth : forall j, c <> j -> kept j r r').
  { intros j Hj. split; [|done]. unfold arrived. case_decide; [done|]. cbn. by rewrite list_lookup_alter_ne. }
  pose proof (bi_child _ Hi c Hc) as (Hc1 & Hc2 & Hc3). pose proof (bi_parent _ Hi) as Hpar.
  assert (Hi' : barrier_inv r').
  { constructor; [apply Hi|cbn; by rewrite length_alter|apply Hi|apply Hi| |].
    - intros d Hd. destruct (decide (c = d)) as [<-|Hne].
      + rewrite Harr, Hpas. change (parent_arrived_ r') with (parent_arrived_ r).
        change (parent_passed_ r') with (parent_passed_ r). lia.
      + destruct (Hoth d Hne) as [-> ->]. apply (bi_child _ Hi d Hd).
    - cbn. pose proof (ready_range r Hi). rewrite i32_small by lia.
      rewrite (sum_list_alter _ c k) by done. rewrite (bi_ready _ Hi). lia. }
  split; [|by split_and!].
  apply step_counter; [done|done|lia|by rewrite Hpas].
Qed.

Hypothesis types_alternate : alternating types.

Lemma rg_poll_start c k type :
  (c < 63)%nat -> types !! k = Some type ->
  rg (R c) (G c) (waiting_at c k) (poll_start self c type)
    (fun o => match o with Some _ => at_barrier c (S k) | None => waiting_at c k end).
Proof.
  intros Hc Hk. apply rg_rend; [intros []; [apply at_barrier_stable|apply waiting_stable]|].
  intros r (Hi & Ha & Hp). case_decide as Hst; cbn [fst snd].
  2:{ split; [|done]. intros _. split; [done|]. split; [by split|done]. }
  destruct (bi_lengths _ Hi) as [Hla Hlp]. pose proof (child_lookup c Hlp Hc) as Hx.
  rewrite <- passed_child, Hp in Hx by done.
  set (r' := mkRendezvous _ _ _ _ _ _ _).
  assert (Hpas : passed c r' = S k).
  { rewrite passed_child by done. cbn. by rewrite list_lookup_alter_eq, Hx. }
  assert (Harr : forall j, arrived j r' = arrived j r) by done.
  assert (Hoth : forall j, c <> j -> kept j r r').
  { intros j Hj. split; [done|]. unfold passed. case_decide; [done|]. cbn. by rewrite list_lookup_alter_ne. }
  pose proof (bi_child _ Hi c Hc) as (Hc1 & Hc2 & Hc3). pose proof (bi_parent _ Hi) as Hpar.
  assert (Hkp : parent_passed_ r = S k).
  { destruct (decide (parent_passed_ r = k)) as [Heq|]; [|lia]. exfalso.
    rewrite (bi_start _ Hi), Heq in Hst. unfold published in Hst.
    destruct (lookup_lt_is_Some_2 (BeforeExp :: types) k) as [b Hb].
    { apply lookup_lt_Some in Hk. simpl. lia. }
    rewrite Hb in Hst. simpl in Hst. by apply (types_alternate k b type). }
  assert (Hi' : barrier_inv r').
  { constructor; [apply Hi|cbn; by rewrite length_alter|apply Hi|apply Hi| |apply Hi].
    intros d Hd. destruct (decide (c = d)) as [<-|Hne].
    - rewrite Harr, Hpas. change (parent_arrived_ r') with (parent_arrived_ r).
        change (parent_passed_ r') with (parent_passed_ r). lia.
    - destruct (Hoth d Hne) as [-> ->]. apply (bi_child _ Hi d Hd). }
  split; [|by split_and!]. apply step_counter; [done|done|by rewrite Harr|lia].
Qed.

Lemma rg_load_ready k :
  rg (R 63) (G 63) (at_barrier 63 k) (load_ready self)
    (fun n r => at_barrier 63 k r /\ (n <= 0 -> all_ready k r)).
Proof.
  apply rg_rend.
  { intros n r r' [Hat Hall] HR. split; [by eapply at_barrier_stable|]. intros Hn. eapply all_ready_stable; [|done]. auto. }
  intros r Hat. cbn [fst snd]. split.
  { intros Hi. split; [done|]. split; [by split|done]. }
  split; [done|]. intros Hn. split; [done|]. intros c Hc. destruct Hat as (Hi & Ha & _).
  rewrite arrived_parent in Ha. destruct (bi_lengths _ Hi) as [Hl _].
  rewrite (bi_ready _ Hi), Ha in Hn. pose proof (children_bounds r Hi) as Hb. rewrite Ha in Hb.
  pose proof (sum_list_full _ (S k) Hb) as Hf. rewrite Forall_lookup in Hf.
  rewrite arrived_child by done. pose proof (child_lookup c Hl Hc) as Hx. apply (Hf ltac:(lia) c _ Hx).
Qed.

Lemma rg_reinitialize k :
  rg (R 63) (G 63) (all_ready k) (initialize self) (fun _ => waiting_at 63 k).
Proof.
  apply rg_rend; [intros _; apply waiting_stable|]. intros r [(Hi & Ha & Hp) Hall]. cbn [fst snd].
  set (r' := mkRendezvous _ _ _ _ _ _ _). rewrite arrived_parent in Ha. rewrite passed_parent in Hp.
  assert (Hoth : forall j, 63%nat <> j -> kept j r r').
  { intros j Hj. split; unfold arrived, passed; by rewrite !decide_False by done. }
  assert (Hi' : barrier_inv r').
  { constructor; [apply Hi|apply Hi|cbn; lia|apply Hi| |].
    - intros c Hc. destruct (Hoth c) as [E1 E2]; [lia|]. rewrite E1, E2.
      pose proof (bi_child _ Hi c Hc). rewrite Hall in * by done. cbn. lia.
    - cbn. rewrite (bi_children _ Hi), Ha.
      assert (Hs : sum_list (children_arrived_ r) = (63 * S k)%nat); [|lia].
      destruct (bi_lengths _ Hi) as [Hl _]. rewrite <- Hl.
      assert (Hf : Forall (fun a => a = S k) (children_arrived_ r)).
      { apply Forall_lookup. intros c a Hc. pose proof (lookup_lt_Some _ _ _ Hc) as Hlt. rewrite Hl in Hlt.
        specialize (Hall c Hlt). rewrite arrived_child, Hc in Hall by done. done. }
      clear -Hf. induction Hf as [|a l -> _ IH]; simpl; lia. }
  split; [|split_and!; [done|rewrite arrived_parent; unfold r'; cbn; lia|done]].
  apply step_counter; [done|done|rewrite (arrived_parent r), (arrived_parent r')|rewrite (passed_parent r), (passed_parent r')];
    cbn; lia.
Qed.

Lemma rg_send_start k type :
  types !! k = Some type ->
  rg (R 63) (G 63) (waiting_at 63 k) (send_start_to_all_children self type) (fun _ => at_barrier 63 (S k)).
Proof.
  intros Hk. apply rg_rend; [intros _; apply at_barrier_stable|]. intros r (Hi & Ha & Hp). cbn [fst snd].
  set (r' := mkRendezvous _ _ _ _ _ _ _). rewrite arrived_parent in Ha. rewrite passed_parent in Hp.
  assert (Hoth : forall j, 63%nat <> j -> kept j r r').
  { intros j Hj. split; unfold arrived, passed; by rewrite !decide_False by done. }
  assert (Hi' : barrier_inv r').
  { constructor; [apply Hi|apply Hi|cbn; lia| | |apply Hi].
    - change (type = published (S (parent_passed_ r))). by rewrite Hp, (published_S k type).
    - intros c Hc. destruct (Hoth c) as [E1 E2]; [lia|]. rewrite E1, E2.
      pose proof (bi_child _ Hi c Hc). cbn. lia. }
  split; [|split_and!; [done|done|rewrite passed_parent; unfold r'; cbn; lia]].
  apply step_counter; [done|done|rewrite (arrived_parent r), (arrived_parent r')|rewrite (passed_parent r), (passed_parent r')];
    cbn; lia.
Qed.

Lemma rg_barrier i k type :
  (i < 64)%nat -> types !! k = Some type ->
  rg (R i) (G i) (at_barrier i k) (rendezvous_barrier_to_start self type i) (fun _ => at_barrier i (S k)).
Proof.
  intros Hi Hk. unfold rendezvous_barrier_to_start. case_decide as Hp.
  - subst i. apply (rg_bind _ _ _ _ _ (fun _ => all_ready k));
      [|intros []; eapply rg_bind; [apply rg_reinitialize|intros []; by apply rg_send_start]].
    apply rg_loop; [apply at_barrier_stable|]. eapply rg_bind; [apply rg_load_ready|]. intros n.
    apply rg_mret. intros r [Hat Hall]. destruct (Z.ltb_spec 0 n); auto.
  - eapply rg_bind; [apply rg_send_ready; lia|]. intros [].
    eapply rg_conseq; [apply (rg_loop _ _ (waiting_at i k) _ (fun _ => at_barrier i (S k)))|done|done].
    + apply waiting_stable.
    + eapply rg_conseq; [apply rg_poll_start; [lia|done]|done|]. by intros [[]|].
Qed.

Lemma rg_through i :
  (i < 64)%nat ->
  rg (R i) (G i) (at_barrier i 0) (through types i) (fun _ => at_barrier i (length types)).
Proof.
  intros Hi. set (P := fun (l : list BarrierType) r => exists k, (k <= length types)%nat /\ drop k types = l /\ at_barrier i k r).
  eapply rg_conseq; [apply (rg_forP _ _ types _ P)| |].
  - intros type l'. apply rg_exists. intros k. apply rg_pure. intros Hk. apply rg_pure. intros Hd.
    assert (Hk' : types !! k = Some type).
    { rewrite <- (Nat.add_0_r k), <- lookup_drop, Hd. done. }
    eapply rg_conseq; [apply (rg_barrier i k type); done|done|]. intros [] r Hat. exists (S k).
    split_and!; [by apply lookup_lt_Some in Hk'| |done].
    rewrite (drop_S _ type) in Hd by done. congruence.
  - intros r Hat. exists 0%nat. split_and!; [lia|done|done].
  - intros [] r (k & Hk & Hd & Hat). assert (k = length types) as Heq; [|by rewrite Heq in Hat].
    apply (f_equal length) in Hd. rewrite length_drop in Hd. simpl in Hd. lia.
Qed.

Lemma init_inv : barrier_inv (Rendezvous_init 63).
Proof.
  constructor; [done|done|cbn; lia|done| |done].
  intros c Hc. rewrite arrived_child, passed_child by done. cbn [children_arrived_ children_passed_ Rendezvous_init].
  rewrite lookup_replicate_2 by done. cbn. lia.
Qed.

Definition workers : list (prog Rendezvous unit) := through types <$> seq 0 64.

Lemma run_barriers sched :
  exists pool' r, run_schedule sched workers (Rendezvous_init 63) = Ok (pool', r) /\
    length pool' = 64%nat /\ barrier_inv r /\
    forall i, pool' !! i = Some (Ret tt) -> at_barrier i (length types) r.
Proof.
  destruct (rg_parallel R G barrier_R_refl barrier_R_trans barrier_G_R workers (fun i => at_barrier i 0)
    (fun i _ => at_barrier i (length types)) (Rendezvous_init 63)) with (sched := sched)
    as (pool' & r & Hrun & Hlen & Hsteps & Hpost).
  - intros i p Hp. unfold workers in Hp. rewrite list_lookup_fmap in Hp.
    destruct (seq 0 64 !! i) as [j|] eqn:Hj; [|done]. apply lookup_seq in Hj as [-> Hlt]. simplify_eq/=.
    split_and!; [|apply at_barrier_stable|by apply rg_through].
    split; [apply init_inv|]. destruct (decide (i = 63%nat)) as [->|Hne]; [done|].
    rewrite arrived_child, passed_child by lia. cbn [children_arrived_ children_passed_ Rendezvous_init].
    by rewrite lookup_replicate_2 by lia.
  - exists pool', r. split_and!; [done|unfold workers in Hlen; by rewrite length_fmap, length_seq in Hlen| |].
    + clear -Hsteps. assert (Hi := init_inv). induction Hsteps as [|r1 r2 r3 [i HG] _ IH]; [done|].
      apply IH. by destruct (HG Hi).
    + intros i Hi. by apply (Hpost i tt).
Qed.

End Separation.

(** C27. The barrier separates the phases.  64 workers go through any sequence of
    barriers in which consecutive types differ (as in the executables), under
    any schedule: a worker has passed a barrier only if every worker has
    arrived at it, and nobody is more than one barrier ahead of anybody else. *)
Theorem barrier_separates_phases (types : list BarrierType) (Ht : alternating types) :
  forall sched, exists pool' r,
    run_schedule sched (workers types) (Rendezvous_init 63) = Ok (pool', r) /\
    (forall i j, (i < 64)%nat -> (j < 64)%nat ->
       (passed i r <= arrived j r)%nat /\ (arrived i r <= S (arrived j r))%nat) /\
    (forall i, pool' !! i = Some (Ret tt) -> passed i r = length types).
Proof.
  intros sched. destruct (run_barriers types Ht sched) as (pool' & r & Hrun & _ & Hi & Hpost).
  exists pool', r. split_and!; [done| |].
  - assert (Hw : forall i, (i < 64)%nat -> (passed i r <= parent_arrived_ r)%nat /\
      (parent_arrived_ r <= arrived i r <= S (parent_arrived_ r))%nat).
    { intros i Hlt. pose proof (bi_parent _ _ Hi). destruct (decide (i = 63%nat)) as [->|Hne].
      - pose proof (arrived_parent r). pose proof (passed_parent r). lia.
      - pose proof (bi_child _ _ Hi i). lia. }
    intros i j Hilt Hjlt. pose proof (Hw i Hilt). pose proof (Hw j Hjlt). lia.
  - intros i Hret. by apply Hpost.
Qed.

(** ** Completion under fair schedules

    Where a worker is: before barrier [k] ([At]), spinning at it ([Wait], about
    to go round again, or [Poll], about to load), and for the parent about to
    reset the counter ([Reset]) or to publish the type ([Publish]). *)
Inductive pos := At (k : nat) | Wait (k : nat) | Poll (k : nat) | Reset (k : nat) | Publish (k : nat).

Section Completion.
Context (types : list BarrierType).
Hypothesis types_alternate : alternating types.
Local Abbreviation m := (length types).
Local Abbreviation inv := (barrier_inv types).
Local Abbreviation ty k := (published types (S k)).

Definition rest (i k : nat) : prog Rendezvous unit := through (drop k types) i.
Definition spin {A} (body : prog Rendezvous (option A)) : unit -> prog Rendezvous (unit + A) :=
  fun _ => r ← body; mret (match r with Some a => inr a | None => inl tt end).
Definition parent_poll : prog Rendezvous (option unit) :=
  ready ← load_ready self; mret (if 0 <? ready then None else Some tt).

(** Worker [i]'s program within barrier [k]: what is left of the barrier at a
    position; past it, nothing. *)
Definition spot (i k : nat) (p : pos) : prog Rendezvous unit :=
  match p with
  | At j => if decide (j = k) then rendezvous_barrier_to_start self (ty k) i else Ret tt
  | Wait _ => Loop tt (spin (poll_start self i (ty k))) Ret
  | Poll _ =>
      if decide (i = 63%nat) then
        unroll tt (spin parent_poll) (fun _ => initialize self ;; send_start_to_all_children self (ty k))
      else unroll tt (spin (poll_start self i (ty k))) Ret
  | Reset _ => initialize self ;; send_start_to_all_children self (ty k)
  | Publish _ => send_start_to_all_children self (ty k)
  end.
Definition index (p : pos) : nat := match p with At k | Wait k | Poll k | Reset k | Publish k => k end.

(** The whole program of a worker that only goes through barriers. *)
Definition code (i : nat) (p : pos) : prog Rendezvous unit :=
  match p with
  | At k => rest i k
  | _ => prog_bind (spot i (index p) p) (fun _ => rest i (S (index p)))
  end.

(** A position agrees with the counters; [live]: the worker's next load or
    store takes it on, whatever the others do meanwhile. *)
Definition pos_ok (i : nat) (p : pos) (r : Rendezvous) : Prop :=
  match p with
  | At k => (k <= m)%nat /\ arrived i r = k /\ passed i r = k
  | Wait k => (k < m)%nat /\ i <> 63%nat /\ arrived i r = S k /\ passed i r = k
  | Poll k => (k < m)%nat /\ if decide (i = 63%nat) then arrived i r = k /\ passed i r = k
                             else arrived i r = S k /\ passed i r = k
  | Reset k => (k < m)%nat /\ i = 63%nat /\ arrived i r = k /\ passed i r = k /\ ready_ r <= 0
  | Publish k => (k < m)%nat /\ i = 63%nat /\ arrived i r = S k /\ passed i r = k
  end.
Definition live (i : nat) (p : pos) (r : Rendezvous) : Prop :=
  match p with
  | At k => (k < m)%nat /\ (i = 63%nat -> ready_ r <= 0)
  | Wait k => parent_passed_ r = S k
  | Poll k => if decide (i = 63%nat) then ready_ r <= 0 else parent_passed_ r = S k
  | Reset _ | Publish _ => True
  end.

(** Productive steps still to make, and whether the next one is productive. *)
Definition weight (i : nat) (p : pos) : nat :=
  if decide (i = 63%nat) then
    match p with
    | At k | Poll k | Wait k => 3 * (m - k)
    | Reset k => 3 * (m - k) - 1
    | Publish k => 3 * (m - k) - 2
    end
  else
    match p with
    | At k => 2 * (m - k)
    | _ => match p with At k | Wait k | Poll k | Reset k | Publish k => 2 * (m - k) - 1 end
    end.
Definition spinning (i : nat) (p : pos) : bool :=
  match p with Wait _ => true | At _ => bool_decide (i = 63%nat) | _ => false end.

Lemma rest_unfold i k :
  (k < m)%nat -> rest i k = prog_bind (rendezvous_barrier_to_start self (ty k) i) (fun _ => rest i (S k)).
Proof.
  intros Hk. destruct (lookup_lt_is_Some_2 types k Hk) as [t Ht]. unfold rest.
  rewrite (drop_S types t k Ht), (published_S types k t Ht). done.
Qed.

Lemma rest_end i : rest i m = Ret tt.
Proof. unfold rest. by rewrite drop_all. Qed.

(** The outcome of an action, from its triple. *)
Lemma rend_outcome {A} i P (f : Rendezvous -> A * Rendezvous) Q r :
  rg (R types i) (G types i) P (rend_action self f) Q -> P r ->
  G types i r (f r).2 /\ Q (f r).1 (f r).2.
Proof.
  intros Hrg HP. pose proof (Hrg 2%nat r HP) as H2. cbn in H2. destruct (f r) as [a r'].
  destruct H2 as [HG HQ]. split; [done|]. cbn. by apply HQ, barrier_R_refl.
Qed.

Ltac outcome_of lem H :=
  let X := fresh in
  pose proof lem as X;
  unfold send_ready_to_parent, poll_start, load_ready, initialize, send_start_to_all_children in X;
  pose proof (fun r => rend_outcome _ _ _ _ r X) as H; clear X.

Lemma code_spot i k p :
  (k < m)%nat -> index p = k -> code i p = prog_bind (spot i k p) (fun _ => rest i (S k)).
Proof.
  intros Hk <-. destruct p as [k|k|k|k|k]; [|done..]. unfold code, spot. cbn [index].
  by rewrite decide_True, rest_unfold by done.
Qed.
Lemma code_through i k : code i (At (S k)) = prog_bind (spot i k (At (S k))) (fun _ => rest i (S k)).
Proof. unfold spot. by rewrite decide_False by lia. Qed.

(** One step of a worker at barrier [index p]: it keeps to the guarantee, never
    moves back, and a live one moves on, or stops spinning. *)
Definition moves (i : nat) (p : pos) (r : Rendezvous) : Prop :=
  exists p' r', step (spot i (index p) p) r = Some (Ok (spot i (index p) p', r')) /\
    (index p' = index p \/ p' = At (S (index p))) /\
    pos_ok i p' r' /\ G types i r r' /\ (weight i p' <= weight i p)%nat /\
    (live i p r -> (weight i p' < weight i p)%nat \/
       spinning i p = true /\ spinning i p' = false /\ live i p' r').

Lemma move_child_at i k r :
  inv r -> (i < 63)%nat -> (k < m)%nat -> arrived i r = k -> passed i r = k -> moves i (At k) r.
Proof.
  intros Hi Hc Hk Ha Hp.
  outcome_of (rg_send_ready types i k Hc) Hout. destruct (Hout r) as [HG (_ & Ha' & Hp')]; [done|].
  exists (Wait k). eexists. split.
  { unfold spot. cbn [index]. rewrite decide_True by done. unfold rendezvous_barrier_to_start.
    rewrite decide_False by lia. reflexivity. }
  split; [by left|]. split; [split_and!; [done|lia|done|done]|]. split; [done|]. split.
  - unfold weight. rewrite !decide_False by lia. lia.
  - intros _. left. unfold weight. rewrite !decide_False by lia. lia.
Qed.

Lemma move_child_wait i k r :
  inv r -> (i < 63)%nat -> (k < m)%nat -> arrived i r = S k -> passed i r = k -> moves i (Wait k) r.
Proof.
  intros Hi Hc Hk Ha Hp. exists (Poll k), r. split; [unfold spot; cbn [index]; by rewrite decide_False by lia|].
  split; [by left|].
  assert (Hw : weight i (Poll k) = weight i (Wait k)) by (unfold weight; by rewrite !decide_False by lia).
  split; [split; [done|by rewrite decide_False by lia]|]. split; [apply barrier_G_refl|]. split; [lia|].
  intros Hl. right. do 2 (split; [done|]). cbn in *. by rewrite decide_False by lia.
Qed.

Lemma move_child_poll i k r :
  inv r -> (i < 63)%nat -> (k < m)%nat -> arrived i r = S k -> passed i r = k -> moves i (Poll k) r.
Proof.
  intros Hi Hc Hk Ha Hp. destruct (lookup_lt_is_Some_2 types k Hk) as [t Ht].
  pose proof (published_S types k t Ht) as Hty.
  outcome_of (rg_poll_start types types_alternate i k t Hc Ht) Hout. destruct (Hout r) as [HG HQ]; [done|]. cbn beta in HG, HQ. case_decide as Hst; cbn [fst snd] in HG, HQ.
  - destruct HQ as (Hi' & Ha' & Hp'). exists (At (S k)). eexists. split.
    { unfold spot. cbn [index]. rewrite (decide_False (P := i = 63%nat)), Hty by lia. unfold unroll, spin, poll_start, rend_action, act. cbn.
      unfold id. rewrite decide_True by done. rewrite decide_False by lia. reflexivity. }
    split; [by right|]. split; [split_and!; [lia|done|done]|]. split; [done|]. split; [unfold weight; rewrite !decide_False by lia; lia|].
    intros _. left. unfold weight. rewrite !decide_False by lia. lia.
  - exists (Wait k), r. split.
    { unfold spot. cbn [index]. rewrite decide_False, Hty by lia. unfold unroll, spin, poll_start, rend_action, act. cbn.
      unfold id. by rewrite decide_False by done. }
    split; [by left|].
    assert (Hw : weight i (Poll k) = weight i (Wait k)) by (unfold weight; by rewrite !decide_False by lia).
    split; [split_and!; [done|lia|done|done]|]. split; [done|]. split; [lia|]. intros Hl. cbn in Hl. rewrite decide_False in Hl by lia.
    exfalso. apply Hst. by rewrite (bi_start _ _ Hi), Hl.
Qed.

Lemma step_parent_poll (K : unit -> prog Rendezvous unit) r :
  step (unroll tt (spin parent_poll) K) r
  = Some (Ok (if 0 <? ready_ r then Loop tt (spin parent_poll) K else K tt, r)).
Proof. cbn -[Z.ltb]. unfold id. by destruct (0 <? ready_ r). Qed.

Lemma move_parent_at k r :
  inv r -> (k < m)%nat -> arrived 63 r = k -> passed 63 r = k -> moves 63 (At k) r.
Proof.
  intros Hi Hk Ha Hp. exists (Poll k), r. split.
  { unfold spot. cbn [index]. rewrite !decide_True by done. reflexivity. }
  split; [by left|]. split; [done|]. split; [apply barrier_G_refl|]. split; [done|].
  intros [_ Hr]. right. do 2 (split; [done|]). unfold live. rewrite decide_True by done. by apply Hr.
Qed.

Lemma move_parent_poll k r :
  inv r -> (k < m)%nat -> arrived 63 r = k -> passed 63 r = k -> moves 63 (Poll k) r.
Proof.
  intros Hi Hk Ha Hp. destruct (Z.ltb_spec 0 (ready_ r)) as [Hlt|Hle].
  - exists (At k), r. split.
    { unfold spot. cbn [index]. rewrite !decide_True, step_parent_poll by done.
      by rewrite (proj2 (Z.ltb_lt _ _) Hlt). }
    split; [by left|]. split; [split_and!; [lia|done|done]|]. split; [apply barrier_G_refl|]. split; [done|]. intros Hl. unfold live in Hl. rewrite decide_True in Hl by done. lia.
  - exists (Reset k), r. split.
    { unfold spot. cbn [index]. rewrite decide_True, step_parent_poll by done. by rewrite (proj2 (Z.ltb_ge _ _) Hle). }
    split; [by left|]. split; [done|]. split; [apply barrier_G_refl|]. unfold weight; simpl. split; [lia|]. intros _. left. lia.
Qed.

Lemma all_ready_when k r : inv r -> arrived 63 r = k -> passed 63 r = k -> ready_ r <= 0 -> all_ready types k r.
Proof.
  intros Hi Ha Hp Hr.
  outcome_of (rg_load_ready types k) Hout. destruct (Hout r) as [_ [_ Hall]]; [done|]. by apply Hall.
Qed.

Lemma move_parent_reset k r :
  inv r -> (k < m)%nat -> arrived 63 r = k -> passed 63 r = k -> ready_ r <= 0 -> moves 63 (Reset k) r.
Proof.
  intros Hi Hk Ha Hp Hr.
  outcome_of (rg_reinitialize types k) Hout. destruct (Hout r) as [HG (_ & Ha' & Hp')]; [by apply all_ready_when|].
  exists (Publish k). eexists. split; [reflexivity|].
  split; [by left|]. split; [done|]. split; [done|]. unfold weight; simpl. split; [lia|]. intros _. left. lia.
Qed.

Lemma move_parent_publish k r :
  inv r -> (k < m)%nat -> arrived 63 r = S k -> passed 63 r = k -> moves 63 (Publish k) r.
Proof.
  intros Hi Hk Ha Hp. destruct (lookup_lt_is_Some_2 types k Hk) as [t Ht].
  pose proof (published_S types k t Ht) as Hty.
  outcome_of (rg_send_start types k t Ht) Hout. destruct (Hout r) as [HG (_ & Ha' & Hp')]; [done|].
  exists (At (S k)). eexists. split.
  { unfold spot. cbn [index]. rewrite Hty, decide_False by lia. reflexivity. }
  split; [by right|]. split; [split_and!; [lia|done|done]|]. split; [done|]. unfold weight; simpl. split; [lia|]. intros _. left. lia.
Qed.

Lemma worker_moves i p r :
  inv r -> (i < 64)%nat -> pos_ok i p r -> p = At m \/ (index p < m)%nat /\ moves i p r.
Proof.
  intros Hi Hlt Hok. destruct (decide (i = 63%nat)) as [->|Hne].
  - destruct p as [k|k|k|k|k]; cbn in Hok.
    + destruct Hok as (Hk & ? & ?). destruct (decide (k = m)) as [->|]; [by left|right; split; [cbn; lia|]].
      apply move_parent_at; [done|lia|done..].
    + by destruct Hok as (_ & ? & _).
    + destruct Hok as (? & ? & ?). right. split; [done|]. by apply move_parent_poll.
    + destruct Hok as (? & _ & ? & ? & ?). right. split; [done|]. by apply move_parent_reset.
    + destruct Hok as (? & _ & ? & ?). right. split; [done|]. by apply move_parent_publish.
  - destruct p as [k|k|k|k|k]; cbn in Hok.
    + destruct Hok as (Hk & ? & ?). destruct (decide (k = m)) as [->|]; [by left|right; split; [cbn; lia|]].
      apply move_child_at; [done|lia|lia|done..].
    + destruct Hok as (? & _ & ? & ?). right. split; [done|]. apply move_child_wait; [done|lia|done..].
    + rewrite decide_False in Hok by done. destruct Hok as (? & ? & ?). right. split; [done|]. apply move_child_poll; [done|lia|done..].
    + by destruct Hok as (_ & ? & _).
    + by destruct Hok as (_ & ? & _).
Qed.

(** The same, for the whole program. *)
Lemma code_step i p r p' r' :
  (index p < m)%nat -> step (spot i (index p) p) r = Some (Ok (spot i (index p) p', r')) ->
  index p' = index p \/ p' = At (S (index p)) -> step (code i p) r = Some (Ok (code i p', r')).
Proof.
  intros Hk Hst Hp'. rewrite (code_spot i (index p)) by done. rewrite step_bind by (by destruct (spot i (index p) p)).
  rewrite Hst. destruct Hp' as [Hp'| ->]; [by rewrite (code_spot i (index p) p') by done|by rewrite code_through].
Qed.

(** ** The pool *)
Definition pool_ok (ps : list pos) (r : Rendezvous) : Prop :=
  inv r /\ length ps = 64%nat /\ forall i p, ps !! i = Some p -> pos_ok i p r.

Lemma ready_when_all k r :
  inv r -> arrived 63 r = k -> passed 63 r = k -> (forall c, (c < 63)%nat -> arrived c r = S k) -> ready_ r <= 0.
Proof.
  intros Hi Ha Hp Hall. rewrite arrived_parent in Ha. rewrite (bi_ready _ _ Hi), Ha.
  destruct (bi_lengths _ _ Hi) as [Hl _].
  assert (Hf : Forall (fun a => a = S k) (children_arrived_ r)).
  { apply Forall_lookup. intros c a Hc. pose proof (lookup_lt_Some _ _ _ Hc) as Hlt. rewrite Hl in Hlt.
    specialize (Hall c Hlt). rewrite arrived_child, Hc in Hall by done. done. }
  assert (Hs : sum_list (children_arrived_ r) = (63 * S k)%nat); [|lia].
  rewrite <- Hl. clear -Hf. induction Hf as [|a l -> _ IH]; simpl; lia.
Qed.

Lemma ready_kept k r r' :
  inv r -> arrived 63 r = k -> passed 63 r = k -> ready_ r <= 0 -> R types 63 r r' -> ready_ r' <= 0.
Proof.
  intros Hi Ha Hp Hr HR. pose proof (all_ready_when k r Hi Ha Hp Hr) as Hall.
  destruct (all_ready_stable types k r r' Hall HR) as [(Hi' & Ha' & Hp') Hc]. by apply (ready_when_all k).
Qed.

(** The other workers' steps keep a worker's position, and its liveness. *)
Lemma pos_ok_kept i p r r' : inv r -> R types i r r' -> pos_ok i p r -> pos_ok i p r'.
Proof.
  intros Hi HR Hok. destruct (HR Hi) as (_ & [Ea Ep] & _).
  destruct p as [k|k|k|k|k]; unfold pos_ok in *; rewrite ?Ea, ?Ep; [done|done|done| |done].
  destruct Hok as (? & -> & Ha & Hp & Hr). split_and!; [done|done|done|done|].
  by apply (ready_kept k r r').
Qed.

Lemma live_kept i p r r' : inv r -> (i < 64)%nat -> R types i r r' -> pos_ok i p r -> live i p r -> live i p r'.
Proof.
  intros Hi Hlt HR Hok Hl. destruct (HR Hi) as (Hi' & [Ea Ep] & Hg).
  assert (Hwait : forall k, i <> 63%nat -> arrived i r = S k -> parent_passed_ r = S k -> parent_passed_ r' = S k).
  { intros k Hne Ha Hp. pose proof (bi_child _ _ Hi' i) as (_ & Hc & _); [lia|]. pose proof (bi_parent _ _ Hi').
    destruct (Hg 63%nat) as [_ Hgp]. pose proof (passed_parent r). pose proof (passed_parent r'). lia. }
  destruct p as [k|k|k|k|k]; unfold pos_ok, live in *; [| | |done|done].
  - destruct Hl as [? Hr]. split; [done|]. intros ->. destruct Hok as (_ & ? & ?). apply (ready_kept k r r'); auto.
  - destruct Hok as (_ & ? & ? & ?). by apply Hwait.
  - case_decide as Hd; [subst i; destruct Hok as (_ & ? & ?); by apply (ready_kept k r r')|].
    destruct Hok as (_ & ? & ?). by apply Hwait.
Qed.

(** As long as somebody is not through, somebody is live. *)
Lemma somebody_live ps r :
  pool_ok ps r -> ~ Forall (fun p => p = At m) ps -> exists i p, ps !! i = Some p /\ live i p r.
Proof.
  intros (Hi & Hlen & Hok) Hnot.
  assert (Hchild : forall c k p, (c < 63)%nat -> ps !! c = Some p -> arrived c r = k -> (k < m)%nat \/ p <> At m ->
    parent_passed_ r = k \/ (parent_passed_ r = m) -> live c p r).
  { intros c k p Hc Hp Ha Hk Hpp. pose proof (Hok c p Hp) as Hpok. pose proof (bi_child _ _ Hi c Hc) as (H1 & H2 & H3).
    pose proof (bi_parent _ _ Hi). destruct p as [j|j|j|j|j]; unfold pos_ok, live in *; [| | |done|done].
    - destruct Hpok as (Hj & Ha' & _). split; [|lia].
      destruct (decide (j = m)) as [->|]; [destruct Hk; [lia|done]|lia].
    - destruct Hpok as (Hj & _ & Ha' & Hp'). lia.
    - rewrite decide_False in Hpok |- * by lia. destruct Hpok as (Hj & Ha' & Hp'). lia. }
  destruct (lookup_lt_is_Some_2 ps 63) as [p63 Hp63]; [lia|]. pose proof (Hok _ _ Hp63) as H63.
  assert (Hmid : forall k, (k < m)%nat -> arrived 63 r = k -> passed 63 r = k -> p63 = At k \/ p63 = Poll k ->
    exists i p, ps !! i = Some p /\ live i p r).
  { intros k Hk Ha Hp Hpos. destruct (decide (Forall (fun c => arrived c r = S k) (seq 0 63))) as [Hall|Hno].
    - exists 63%nat, p63. split; [done|]. assert (Hr : ready_ r <= 0).
      { apply (ready_when_all k); try done. rewrite Forall_forall in Hall. intros c Hc. apply Hall, elem_of_seq. lia. }
      destruct Hpos as [-> | ->]; [split; auto|]. unfold live. by rewrite decide_True.
    - apply not_Forall_Exists, Exists_exists in Hno as (c & Hc%elem_of_seq & Hne); [|apply _].
      destruct (lookup_lt_is_Some_2 ps c) as [p Hpc]; [lia|]. exists c, p. split; [done|].
      pose proof (bi_child _ _ Hi c) as (_ & Hb & _); [lia|]. rewrite arrived_parent in Ha. rewrite passed_parent in Hp.
      unfold compose in Hne. apply (Hchild c k); [lia|done|lia|by left|by left]. }
  destruct p63 as [k|k|k|k|k]; unfold pos_ok in H63.
  - destruct H63 as (Hk & Ha & Hp). destruct (decide (k = m)) as [->|]; [|apply (Hmid k); auto; lia].
    apply not_Forall_Exists, Exists_exists in Hnot as (p & Hin & Hne).
    2:{ intros p. destruct p as [k|k|k|k|k]; try (right; discriminate).
        destruct (decide (k = m)) as [->|Hne]; [by left|right; congruence]. }
    apply list_elem_of_lookup in Hin as [i Hpi]. exists i, p. split; [done|].
    assert (i <> 63%nat) by (intros ->; congruence). pose proof (lookup_lt_Some _ _ _ Hpi).
    apply (Hchild i (arrived i r)); [lia|done|done|by right|right]. by rewrite <- passed_parent.
  - by destruct H63 as (_ & ? & _).
  - rewrite decide_True in H63 by done. destruct H63 as (? & ? & ?). apply (Hmid k); auto.
  - by exists 63%nat, (Reset k).
  - by exists 63%nat, (Publish k).
Qed.

(** The workers make progress: the conditions of [Fair]. *)
Lemma barrier_progress : progress 64 1 code weight (fun i p r d => live i p r /\ d = Nat.b2n (spinning i p)) pool_ok.
Proof.
  constructor.
  - by intros ps r (_ & ? & _).
  - intros ps r j p (Hi & Hlen & Hok) Hp. pose proof (lookup_lt_Some _ _ _ Hp) as Hlt.
    destruct (worker_moves j p r Hi) as [->|[Hk (p' & r' & Hst & Hp' & Hok' & HG & Hw & Hl)]]; [lia|by apply Hok| |].
    { left. cbn [code]. rewrite rest_end. split; [done|]. intros d [[? _] _]. lia. }
    right. apply (code_step j p r p' r' Hk) in Hst; [|done]. exists p', r'. split; [done|]. destruct (HG Hi) as (Hi' & _).
    split_and!; [|done| |].
    + split_and!; [done|by rewrite length_insert|]. intros i q Hq. destruct (decide (i = j)) as [->|Hne].
      * rewrite list_lookup_insert_eq in Hq by lia. by simplify_eq.
      * rewrite list_lookup_insert_ne in Hq by done. apply (pos_ok_kept i q r r'); [done| |by apply Hok].
        by apply (barrier_G_R types j i).
    + intros d [Hlj ->]. destruct (Hl Hlj) as [?|(-> & Hs & ?)]; [by left|right]. exists 0%nat. split; [cbn; lia|]. by rewrite Hs.
    + intros i q d Hne Hq [Hlq ->]. left. split; [|done]. pose proof (lookup_lt_Some _ _ _ Hq).
      apply (live_kept i q r r'); [done|lia|by apply (barrier_G_R types j i)|by apply Hok|done].
  - intros ps r Hok Hnd. enough (exists i p, ps !! i = Some p /\ live i p r) as (i & p & Hp & Hl).
    { exists i, p, (Nat.b2n (spinning i p)). split_and!; [done|destruct (spinning i p); cbn; lia|done|done]. }
    apply (somebody_live ps r Hok). intros Hall. apply Hnd.
    assert (Hgen : forall f : nat -> pos -> prog Rendezvous unit, (forall i, f i (At m) = Ret tt) -> all_done (imap f ps)).
    { clear -Hall. induction Hall as [|p ps -> _ IH]; intros f Hf; [constructor|]. cbn. constructor; [by rewrite Hf|].
      apply IH. intros i. apply Hf. }
    apply Hgen. intros i. apply rest_end.
Qed.

Lemma start_ok : pool_ok (replicate 64 (At 0)) (Rendezvous_init 63).
Proof.
  split; [apply init_inv|]. split; [by rewrite length_replicate|].
  intros i p [-> Hlt]%lookup_replicate. unfold pos_ok. split; [lia|].
  destruct (decide (i = 63%nat)) as [->|Hne]; [done|].
  rewrite arrived_child, passed_child by lia. cbn [children_arrived_ children_passed_ Rendezvous_init].
  by rewrite lookup_replicate_2 by lia.
Qed.

Lemma start_workers : workers types = pool_at code (replicate 64 (At 0)).
Proof.
  apply list_eq. intros i. unfold workers, pool_at. rewrite list_lookup_fmap, list_lookup_imap.
  destruct (decide (i < 64)%nat) as [Hlt|Hge].
  - rewrite lookup_seq_lt, lookup_replicate_2 by done. done.
  - rewrite !lookup_ge_None_2 by (rewrite ?length_seq, ?length_replicate; lia). done.
Qed.

Lemma start_total : total weight (replicate 64 (At 0)) = (129 * m)%nat.
Proof.
  change (replicate 64 (At 0)) with (replicate 63 (At 0) ++ [At 0]). unfold total. rewrite imap_app, length_replicate.
  rewrite (imap_ext weight (fun _ _ => 2 * m)%nat (replicate 63 (At 0))).
  - assert (Hlast : weight 63 (At 0) = (3 * m)%nat) by (unfold weight; rewrite decide_True by done; lia).
    cbn -[Nat.mul Nat.sub decide weight]. rewrite Hlast. lia.
  - intros i p [-> Hlt]%lookup_replicate. unfold weight. rewrite decide_False by lia. lia.
Qed.

Lemma all_done_unit (pool : list (prog Rendezvous unit)) : all_done pool -> pool = replicate (length pool) (Ret tt).
Proof. induction 1 as [|p pool Hp _ IH]; [done|]. destruct p as [[]| |]; try done. cbn. by rewrite <- IH. Qed.

End Completion.

(** C28. The barrier does not hang.  If every worker gets a turn in every round,
    64 workers are through a sequence of alternating barriers after at most 258
    rounds per barrier, whatever the order within the rounds. *)
Theorem barrier_completes (types : list BarrierType) (rounds : list (list nat))
  (Ht : alternating types) (Hfair : Forall (fair 64) rounds) (Hlen : (258 * length types <= length rounds)%nat) :
  exists r, run_schedule (concat rounds) (workers types) (Rendezvous_init 63) = Ok (replicate 64 (Ret tt), r).
Proof.
  rewrite start_workers. pose proof (start_total types) as Ht0.
  destruct (fair_pool_finishes 64 1 _ _ _ _ (barrier_progress types Ht) rounds (replicate 64 (At 0))
    (Rendezvous_init 63) Hfair ltac:(lia) (start_ok types))
    as (ps & r & Hrun & (_ & Hlps & _) & Hd).
  exists r. rewrite Hrun. f_equal. f_equal. rewrite (all_done_unit _ Hd). unfold pool_at. by rewrite length_imap, Hlps.
Qed.

(** The barriers of two epochs of Cheetah. *)
Definition cheetah_barriers : list BarrierType :=
  [Exp; InitPhase; ExecPhase; NewEpoc; InitPhase; ExecPhase; NewEpoc].
Lemma cheetah_barriers_alternate : alternating cheetah_barriers.
Proof.
  intros k a b Ha Hb. do 8 (destruct k as [|k]; [by simplify_eq/=|]). done.
Qed.
Definition rounds_of (n : nat) : list (list nat) := replicate n (seq 0 64).

Lemma barrier_separates_phases_witness :
  exists pool' r, run_schedule (concat (rounds_of 60)) (workers cheetah_barriers) (Rendezvous_init 63) = Ok (pool', r) /\
    (passed 5 r <= arrived 63 r)%nat.
Proof.
  destruct (barrier_separates_phases cheetah_barriers cheetah_barriers_alternate (concat (rounds_of 60)))
    as (pool' & r & Hrun & Hsep & _). exists pool', r. split; [exact Hrun|]. apply Hsep; lia.
Defined.

Lemma barrier_completes_witness :
  exists r, run_schedule (concat (rounds_of 1806)) (workers cheetah_barriers) (Rendezvous_init 63)
    = Ok (replicate 64 (Ret tt), r).
Proof.
  apply (barrier_completes cheetah_barriers (rounds_of 1806)).
  - apply cheetah_barriers_alternate.
  - apply Forall_replicate. intros i Hi. apply elem_of_seq. lia.
  - unfold rounds_of. rewrite length_replicate. cbn. lia.
Defined.
