(* ===== verification/Phases.v ===== *)
(** * Phases: workers that go through phases closed by the barrier

    [run_tx] of the executables, for any number of phases: a worker passes a
    barrier, runs its part of a phase on the shared state, records the result
    in the shared memory of the transactions, passes the next barrier, and so
    on.  [phases] is the specification: one phase at a time, all workers of a
    phase together.  [run_phases] shows that every interleaving of the workers,
    barriers included, is such a run. *)
From Stdlib Require Import FunctionalExtensionality.
From S2P Require Import Prelude Bitmap Conc Fair Barrier.

(** ** A program on a part of the state *)
Section Zoom.
Context {U S : Type} (get : U -> S) (set : S -> U -> U).

Definition zoomM {A} (m : M S A) : M U A := fun u =>
  match m (get u) with Ok (a, s) => Ok (a, set s u) | Err e => Err e end.
Fixpoint zoom {A} (p : prog S A) : prog U A :=
  match p with
  | Ret a => Ret a
  | Act m k => Act (zoomM m) (fun b => zoom (k b))
  | Loop c body k => Loop c (fun c' => zoom (body c')) (fun b => zoom (k b))
  end.

Lemma zoom_bind {A B} (p : prog S A) (f : A -> prog S B) :
  zoom (prog_bind p f) = prog_bind (zoom p) (fun a => zoom (f a)).
Proof.
  induction p as [A' a|A' C m k IH|A' C D c body _ k IH]; cbn; [done| |];
    f_equal; apply functional_extensionality; intros b; apply IH.
Qed.

Hypothesis set_get : forall u, set (get u) u = u.

Lemma step_zoom {A} (p : prog S A) u :
  step (zoom p) u = match step p (get u) with
                    | Some (Ok (p', s')) => Some (Ok (zoom p', set s' u))
                    | Some (Err e) => Some (Err e)
                    | None => None
                    end.
Proof.
  destruct p as [a|C m k|C D c body k]; cbn; [done| |].
  - unfold zoomM. by destruct (m (get u)) as [[b s']|].
  - rewrite set_get. do 3 f_equal. unfold unroll. rewrite zoom_bind. f_equal.
    apply functional_extensionality. by intros [].
Qed.
End Zoom.

(** What the workers share: the database, the barrier, and the memory of the
    transactions. *)
Record Shared (S T : Type) := mkShared { database : S; rendezvous : Rendezvous; memory : T }.
Arguments mkShared {S T}.
Arguments database {S T}.
Arguments rendezvous {S T}.
Arguments memory {S T}.
Definition set_database {S T} (s : S) (u : Shared S T) := mkShared s (rendezvous u) (memory u).
Definition set_rendezvous {S T} (r : Rendezvous) (u : Shared S T) := mkShared (database u) r (memory u).
Definition set_memory {S T} (t : T) (u : Shared S T) := mkShared (database u) (rendezvous u) t.
Definition shared_barrier {S T} : BarrierAt (Shared S T) := mkBarrierAt rendezvous set_rendezvous.

Lemma zoom_barrier {S T} type i :
  rendezvous_barrier_to_start (@shared_barrier S T) type i
  = zoom rendezvous set_rendezvous (rendezvous_barrier_to_start self type i).
Proof.
  assert (Hact : forall A (f : Rendezvous -> A * Rendezvous),
    rend_action (@shared_barrier S T) f = zoom rendezvous set_rendezvous (rend_action self f)).
  { intros A f. unfold rend_action, act. cbn. f_equal. apply functional_extensionality. intros u.
    unfold zoomM, id. by destruct (f (rendezvous u)). }
  unfold rendezvous_barrier_to_start. case_decide.
  - unfold wait_all_children_and_send_start, wait_all_children_ready, initialize, send_start_to_all_children, load_ready.
    unfold mbind, prog_mbind. rewrite !zoom_bind, <- !Hact. f_equal.
  - unfold send_ready_and_wait_start, wait_start, send_ready_to_parent, poll_start.
    unfold mbind, prog_mbind. rewrite !zoom_bind, <- !Hact. f_equal. apply functional_extensionality. intros [].
    unfold loop, iter. cbn [zoom]. f_equal. apply functional_extensionality. intros [].
    unfold mbind, prog_mbind. by rewrite !zoom_bind, <- !Hact.
Qed.

(** ** The workers *)
Section Workers.
Context {S T L A : Type}.
Context (types : list BarrierType) (m : nat).       (* barriers [0..m], phases [0..m-1] *)
Context (phase : nat -> nat -> L -> T -> prog S A).  (* phase, worker, its local state, the memory *)
Context (record : nat -> nat -> A -> T -> T) (next : nat -> nat -> A -> L -> L).

Definition get_memory : M (Shared S T) T := fun u => Ok (memory u, u).
Definition store_memory (f : T -> T) : M (Shared S T) unit := fun u => Ok (tt, set_memory (f (memory u)) u).
Definition barrier (k i : nat) : prog (Shared S T) unit :=
  rendezvous_barrier_to_start shared_barrier (published types (Datatypes.S k)) i.

(** One worker from phase [k] on: [n] phases. *)
Fixpoint run_from (i k n : nat) (l : L) : prog (Shared S T) L :=
  match n with
  | O => mret l
  | Datatypes.S n' =>
      t ← act get_memory;
      a ← zoom database set_database (phase k i l t);
      act (store_memory (record k i a));;
      barrier (Datatypes.S k) i;;
      run_from i (Datatypes.S k) n' (next k i a l)
  end.
Definition run_worker (i : nat) (l : L) : prog (Shared S T) L := barrier 0 i;; run_from i 0 m l.

(** ** The specification: one phase after the other *)
Record PhaseState := mkPhaseState { ph_locals : nat -> L; ph_mem : T; ph_env : S }.

Definition phase_pool (k : nat) (c : PhaseState) : list (prog S A) :=
  (fun i => phase k i (ph_locals c i) (ph_mem c)) <$> seq 0 64.
Definition recorded (k : nat) (rs : list (nat * A)) (t : T) : T :=
  foldr (fun r t => record k r.1 r.2 t) t rs.
Definition after (k : nat) (c : PhaseState) (rs : list A) (s : S) : PhaseState :=
  mkPhaseState (fun i => match rs !! i with Some a => next k i a (ph_locals c i) | None => ph_locals c i end)
    (recorded k (imap pair rs) (ph_mem c)) s.

Inductive phase_step (k : nat) (c : PhaseState) : PhaseState -> Prop :=
| phase_runs sched rs s' :
    run_schedule sched (phase_pool k c) (ph_env c) = Ok (Ret <$> rs, s') ->
    phase_step k c (after k c rs s').

(** The states of the run that is observed: [follows u u'] if [u'] is the state
    after a step from [u].  [opened k c]: [c] is the state of the run at the step
    by which the parent opens barrier [k]. *)
Context (follows : Shared S T -> Shared S T -> Prop).
Definition opened (k : nat) (c : PhaseState) : Prop :=
  exists u u', follows u u' /\ parent_passed_ (rendezvous u) = k /\ parent_passed_ (rendezvous u') = Datatypes.S k /\
    database u' = ph_env c /\ memory u' = ph_mem c.

(** The phases of the run, each from the state in which it found the workers. *)
Inductive phases (init : PhaseState) : nat -> PhaseState -> Prop :=
| phases_start : opened 0 init -> phases init 0 init
| phases_next k c c' :
    phases init k c -> (k < m)%nat -> phase_step k c c' -> opened (Datatypes.S k) c' -> phases init (Datatypes.S k) c'.

(** No schedule of a phase that is reached fails. *)
Definition phases_safe (init : PhaseState) : Prop :=
  forall k c, phases init k c -> (k < m)%nat -> forall sched,
    exists pool' s', run_schedule sched (phase_pool k c) (ph_env c) = Ok (pool', s').

(** A worker's part of the memory is its own during a phase. *)
Record memory_split : Prop := {
  ms_frame : forall k i j a l t, (i < 64)%nat -> (j < 64)%nat -> i <> j -> phase k i l (record k j a t) = phase k i l t;
  ms_comm : forall k i j a b t, (i < 64)%nat -> (j < 64)%nat -> i <> j -> record k i a (record k j b t) = record k j b (record k i a t)
}.

(** ** Where a worker is *)
Inductive place :=
| InBarrier (k : nat) (p : pos) (l : L)          (* at barrier [k], or just past it *)
| InPhase (k : nat) (q : prog S A) (l : L).      (* [q] is left of phase [k] *)

Definition program (i : nat) (w : place) : prog (Shared S T) L :=
  match w with
  | InBarrier k p l =>
      prog_bind (zoom rendezvous set_rendezvous (spot types i k p)) (fun _ => run_from i k (m - k) l)
  | InPhase k q l =>
      prog_bind (zoom database set_database q) (fun a =>
        act (store_memory (record k i a));; barrier (Datatypes.S k) i;;
        run_from i (Datatypes.S k) (m - Datatypes.S k) (next k i a l))
  end.

(** A place agrees with the barrier's counters. *)
Definition place_ok (i : nat) (w : place) (r : Rendezvous) : Prop :=
  match w with
  | InBarrier k p l => (k <= m)%nat /\ (index p = k \/ p = At (Datatypes.S k)) /\ pos_ok types i p r
  | InPhase k q l => (k < m)%nat /\ arrived i r = Datatypes.S k /\ passed i r = Datatypes.S k
  end.

(** A worker in phase [K], which started from [c] and has recorded [fin]: not
    started, computing, or finished and waiting at the next barrier; [q] is
    what is left of its part. *)
Definition in_phase (K : nat) (c : PhaseState) (fin : list (nat * A)) (i : nat) (w : place) (q : prog S A) : Prop :=
  match w with
  | InBarrier k p l =>
      k = K /\ q = phase K i (ph_locals c i) (ph_mem c) /\ l = ph_locals c i /\ i ∉ fin.*1 \/
      k = Datatypes.S K /\ p <> At (Datatypes.S k) /\
        exists a, q = Ret a /\ (i, a) ∈ fin /\ l = next K i a (ph_locals c i)
  | InPhase k q' l => k = K /\ q = q' /\ l = ph_locals c i /\ i ∉ fin.*1
  end.

Context (init : PhaseState).
Definition before_start (ws : list place) (u : Shared S T) : Prop :=
  memory u = ph_mem init /\ database u = ph_env init /\
  forall i w, ws !! i = Some w -> exists p, w = InBarrier 0 p (ph_locals init i) /\ p <> At 1.
Definition during (K : nat) (ws : list place) (u : Shared S T) : Prop :=
  exists c qs sched fin,
    (K <= m)%nat /\ phases init K c /\ run_schedule sched (phase_pool K c) (ph_env c) = Ok (qs, database u) /\
    memory u = recorded K fin (ph_mem c) /\ NoDup fin.*1 /\
    (forall i a, (i, a) ∈ fin -> qs !! i = Some (Ret a)) /\
    (K = m -> fin = [] /\ database u = ph_env c) /\
    forall i w, ws !! i = Some w -> exists q, qs !! i = Some q /\ in_phase K c fin i w q.

(** The invariant of the whole pool. *)
Definition stage (ws : list place) (u : Shared S T) : Prop :=
  match parent_passed_ (rendezvous u) with
  | O => before_start ws u
  | Datatypes.S K => during K ws u
  end.
Definition all_ok (ws : list place) (u : Shared S T) : Prop :=
  barrier_inv types (rendezvous u) /\ length ws = 64%nat /\
  (forall i w, ws !! i = Some w -> place_ok i w (rendezvous u)) /\ stage ws u.


(** ** Every interleaving *)
Hypothesis types_alternate : alternating types.
Hypothesis types_length : length types = Datatypes.S m.
Hypothesis split : memory_split.
Hypothesis safe : phases_safe init.

Lemma recorded_frame k i l fin t :
  (i < 64)%nat -> Forall (fun r => r.1 < 64)%nat fin -> i ∉ fin.*1 -> phase k i l (recorded k fin t) = phase k i l t.
Proof.
  intros Hi. induction 1 as [|[j a] fin Hj _ IH]; [done|]. cbn. intros [Hne Hin]%not_elem_of_cons.
  rewrite (ms_frame split) by (done || congruence). by apply IH.
Qed.

Lemma recorded_permutation k (l1 l2 : list (nat * A)) t :
  NoDup l1.*1 -> Forall (fun r => r.1 < 64)%nat l1 -> l1 ≡ₚ l2 -> recorded k l1 t = recorded k l2 t.
Proof.
  intros Hnd Hall Hp. rewrite Forall_lookup in Hall. unfold recorded. apply (foldr_permutation eq); [solve_proper| |done].
  intros j1 [i1 a1] j2 [i2 a2] t' Hne H1 H2. apply (ms_comm split); [by apply (Hall j1 (i1, a1))|by apply (Hall j2 (i2, a2))|]. cbn. intros ->.
  apply Hne. apply (NoDup_lookup l1.*1 j1 j2 i2); [done|by rewrite list_lookup_fmap, H1|by rewrite list_lookup_fmap, H2].
Qed.

(** All of phase [K]'s results are in: the memory is the one after the phase. *)
Lemma recorded_all k (rs : list A) fin t :
  NoDup fin.*1 -> (length rs <= 64)%nat -> (forall i a, rs !! i = Some a <-> (i, a) ∈ fin) ->
  recorded k fin t = recorded k (imap pair rs) t.
Proof.
  intros Hnd Hlen Hin. apply recorded_permutation; [done| |].
  { apply Forall_forall. intros [i a] Hi%Hin%lookup_lt_Some. cbn. lia. } apply NoDup_Permutation.
  - by eapply NoDup_fmap_1.
  - apply NoDup_alt. intros i j x. rewrite !list_lookup_imap. intros Hi Hj.
    destruct (rs !! i), (rs !! j); simplify_eq/=. congruence.
  - intros [i a]. rewrite <- Hin, list_elem_of_lookup. split.
    + intros Hi. exists i. by rewrite list_lookup_imap, Hi.
    + intros [j Hj]. rewrite list_lookup_imap in Hj. destruct (rs !! j) eqn:Hr; simplify_eq/=. congruence.
Qed.

Lemma step_within {U V B C} (get : U -> V) (set : V -> U -> U) (q q' : prog V B) (f : B -> prog U C) u s' :
  (forall u, set (get u) u = u) -> step q (get u) = Some (Ok (q', s')) ->
  step (prog_bind (zoom get set q) f) u = Some (Ok (prog_bind (zoom get set q') f, set s' u)).
Proof.
  intros Hsg Hst. rewrite step_bind by (by destruct q). by rewrite step_zoom, Hst.
Qed.

Lemma counters r i : barrier_inv types r -> (i < 64)%nat ->
  (passed i r <= parent_passed_ r /\ parent_passed_ r <= arrived i r <= Datatypes.S (passed i r))%nat.
Proof.
  intros Hi Hlt. pose proof (bi_parent _ _ Hi). destruct (decide (i = 63%nat)) as [->|Hne].
  - rewrite arrived_parent, passed_parent. lia.
  - pose proof (bi_child _ _ Hi i). lia.
Qed.

Lemma place_kept i w r r' : barrier_inv types r -> R types i r r' -> place_ok i w r -> place_ok i w r'.
Proof.
  intros Hi HR. destruct w as [k p l|k q l]; cbn.
  - intros (? & ? & Hp). split_and!; [done|done|]. by eapply pos_ok_kept.
  - destruct (HR Hi) as (_ & [-> ->] & _). done.
Qed.

(** A worker that has arrived at barrier [k] and not passed it is waiting there. *)
Lemma place_waiting i w r k :
  place_ok i w r -> (k < arrived i r)%nat -> (passed i r <= k)%nat -> (arrived i r <= Datatypes.S (passed i r))%nat ->
  exists p l, w = InBarrier k p l /\ index p = k.
Proof.
  intros Hw Ha Hp Hap. destruct w as [k' p l|k' q l]; cbn in Hw; [|lia]. destruct Hw as (_ & Hidx & Hok).
  assert (k' = k /\ index p = k') as [-> ?]; [|by eauto].
  destruct p as [j|j|j|j|j]; cbn in *; [lia| | | |].
  - destruct Hidx; [|done]. lia.
  - destruct Hidx; [|done]. case_decide; lia.
  - destruct Hidx; [|done]. lia.
  - destruct Hidx; [|done]. lia.
Qed.


(** *** A worker at a barrier *)

(** A move that does not open the barrier. *)
Lemma stage_kept ws u i k p p' l r' :
  stage ws u -> parent_passed_ r' = parent_passed_ (rendezvous u) ->
  ws !! i = Some (InBarrier k p l) -> (p = At (Datatypes.S k) -> p' = At (Datatypes.S k)) ->
  (p' = At (Datatypes.S k) -> (k < parent_passed_ r')%nat) ->
  stage (<[i := InBarrier k p' l]> ws) (set_rendezvous r' u).
Proof.
  intros Hst Hpp Hw Hp Hp'. unfold stage in *. cbn [rendezvous set_rendezvous]. rewrite Hpp in *.
  pose proof (lookup_lt_Some _ _ _ Hw) as Hlt.
  destruct (parent_passed_ (rendezvous u)) as [|K].
  - destruct Hst as (Hm & Hd & Hws). split_and!; [done|done|]. intros j w Hj.
    destruct (decide (i = j)) as [<-|Hne].
    + rewrite list_lookup_insert_eq in Hj by done. injection Hj as <-.
      destruct (Hws i _ Hw) as (p0 & [= -> -> ->] & Hne0). exists p'. split; [done|]. intros ->. specialize (Hp' eq_refl). lia.
    + rewrite list_lookup_insert_ne in Hj by done. by apply Hws.
  - destruct Hst as (c & qs & sc & fin & HK & Hph & Hrun & Hmem & Hnd & Hfin & Hend & Hws).
    exists c, qs, sc, fin. split_and!; try done. intros j w Hj. destruct (decide (i = j)) as [<-|Hne].
    + rewrite list_lookup_insert_eq in Hj by done. injection Hj as <-.
      destruct (Hws i _ Hw) as (q & Hq & Hin). exists q. split; [done|].
      destruct Hin as [Hin|(-> & Hne0 & Hin)]; [by left|]. right. split_and!; [done| |done].
      intros He. specialize (Hp' He). lia.
    + rewrite list_lookup_insert_ne in Hj by done. by apply Hws.
Qed.

(** The parent opens barrier [k]: the phase before it is over. *)
Lemma stage_opens ws u k p63 l r' :
  stage ws u -> length ws = 64%nat -> parent_passed_ (rendezvous u) = k -> parent_passed_ r' = Datatypes.S k -> (k <= m)%nat ->
  (forall i w, ws !! i = Some w -> exists p l, w = InBarrier k p l /\ index p = k) ->
  ws !! 63%nat = Some (InBarrier k p63 l) -> follows u (set_rendezvous r' u) ->
  stage (<[63%nat := InBarrier k (At (Datatypes.S k)) l]> ws) (set_rendezvous r' u).
Proof.
  intros Hst Hlen Hk Hk' Hkm Hall H63 Hnow. unfold stage in *. cbn [rendezvous set_rendezvous]. rewrite Hk in Hst. rewrite Hk'.
  assert (Hstart : forall c fin', (fin' : list (nat * A)) = [] ->
    (forall i p l, ws !! i = Some (InBarrier k p l) -> l = ph_locals c i) -> forall i w,
    <[63%nat := InBarrier k (At (Datatypes.S k)) l]> ws !! i = Some w ->
    exists q, phase_pool k c !! i = Some q /\ in_phase k c fin' i w q).
  { intros c fin' -> Hl i w Hw. assert (Hi : (i < 64)%nat).
    { apply lookup_lt_Some in Hw. by rewrite length_insert, Hlen in Hw. }
    exists (phase k i (ph_locals c i) (ph_mem c)). split; [unfold phase_pool; by rewrite list_lookup_fmap, lookup_seq_lt|].
    assert (exists p, w = InBarrier k p (ph_locals c i)) as [p ->].
    { destruct (decide (63%nat = i)) as [<-|Hne].
      - rewrite list_lookup_insert_eq in Hw by lia. injection Hw as <-. rewrite (Hl _ _ _ H63). by eexists.
      - rewrite list_lookup_insert_ne in Hw by done. destruct (Hall i w Hw) as (p & l' & -> & _).
        rewrite (Hl _ _ _ Hw). by eexists. }
    left. split_and!; [done|done|done|]. apply not_elem_of_nil. }
  destruct k as [|K].
  - destruct Hst as (Hm & Hd & Hws). exists init, (phase_pool 0 init), [], [].
    split_and!; [lia|constructor; by exists u, (set_rendezvous r' u)|by rewrite <- Hd|done|constructor|by intros i a ?%not_elem_of_nil|done|].
    apply Hstart; [done|]. intros i p l' Hw. destruct (Hws i _ Hw) as (p' & [= _ ->] & _). done.
  - destruct Hst as (c & qs & sc & fin & HK & Hph & Hrun & Hmem & Hnd & Hfin & _ & Hws).
    assert (Hlq : length qs = 64%nat).
    { rewrite (run_schedule_length _ _ _ _ _ Hrun). unfold phase_pool. by rewrite length_fmap, length_seq. }
    assert (Hdone : forall i, (i < 64)%nat -> exists p a, ws !! i = Some (InBarrier (Datatypes.S K) p (next K i a (ph_locals c i))) /\
      qs !! i = Some (Ret a) /\ (i, a) ∈ fin).
    { intros i Hi. destruct (lookup_lt_is_Some_2 ws i) as [w Hw]; [lia|].
      destruct (Hall i w Hw) as (p & l' & -> & _). destruct (Hws i _ Hw) as (q & Hq & [Hin|(_ & _ & a & -> & Ha & ->)]).
      - destruct Hin; lia.
      - by exists p, a. }
    assert (exists rs, qs = Ret <$> rs) as [rs ->].
    { assert (Hf : Forall (fun q => exists a : A, q = Ret a) qs).
      { apply Forall_lookup. intros i q Hq. destruct (Hdone i) as (_ & a & _ & Ha & _).
        - apply lookup_lt_Some in Hq. lia.
        - exists a. congruence. }
      clear -Hf. induction Hf as [|q qs [a ->] _ [rs ->]]; [by exists []|]. by exists (a :: rs). }
    assert (Hrs : forall i a, rs !! i = Some a <-> (i, a) ∈ fin).
    { intros i a. split.
      - intros Hi. pose proof (lookup_lt_Some _ _ _ Hi) as Hlt. rewrite length_fmap in Hlq.
        destruct (Hdone i) as (_ & b & _ & Hb & Hin); [lia|]. rewrite list_lookup_fmap, Hi in Hb. by simplify_eq/=.
      - intros Hin. specialize (Hfin i a Hin). rewrite list_lookup_fmap in Hfin. destruct (rs !! i); by simplify_eq/=. }
    assert (Hfinal : memory u = ph_mem (after K c rs (database u))).
    { cbn. rewrite Hmem. apply recorded_all; [done| |done]. rewrite length_fmap in Hlq. lia. }
    exists (after K c rs (database u)), (phase_pool (Datatypes.S K) (after K c rs (database u))), [], [].
    split_and!; [done| |done| |constructor|by intros i a ?%not_elem_of_nil|done|].
    + apply (phases_next init K c); [done|lia|by eapply phase_runs|].
      exists u, (set_rendezvous r' u). split_and!; [done|done|done|done|exact Hfinal].
    + exact Hfinal.
    + apply Hstart; [done|]. intros i p l' Hw. pose proof (lookup_lt_Some _ _ _ Hw) as Hlt.
      destruct (Hdone i) as (p' & a & Hw' & _ & Hin); [lia|]. cbn. rewrite (proj2 (Hrs i a) Hin). congruence.
Qed.


Definition moves_on (i : nat) (ws : list place) (w : place) (u : Shared S T) : Prop :=
  exists w' u', step (program i w) u = Some (Ok (program i w', u')) /\ (follows u u' -> all_ok (<[i := w']> ws) u').

Lemma barrier_turn i ws k p l u :
  all_ok ws u -> ws !! i = Some (InBarrier k p l) -> index p = k -> moves_on i ws (InBarrier k p l) u.
Proof.
  intros (Hi & Hlen & Hok & Hst) Hw Hidx. pose proof (lookup_lt_Some _ _ _ Hw) as Hlt.
  destruct (Hok i _ Hw) as (Hkm & _ & Hpos). pose proof (counters _ i Hi ltac:(lia)) as Hcount.
  destruct (worker_moves types types_alternate i p (rendezvous u) Hi) as [->|[Hpm (p' & r' & Hstep & Hp' & Hpos' & HG & _)]];
    [lia|done|exfalso; cbn in Hidx; rewrite types_length in Hidx; lia|]. rewrite Hidx in *.
  exists (InBarrier k p' l), (set_rendezvous r' u). split.
  { apply step_within; [by intros []|done]. }
  intros Hnow. pose proof HG as HG'. destruct (HG Hi) as (Hi' & Hkept & Hgrow). split; [done|]. split; [by rewrite length_insert|]. split.
  { intros j w Hj. destruct (decide (i = j)) as [<-|Hne].
    - rewrite list_lookup_insert_eq in Hj by done. injection Hj as <-. by split_and!.
    - rewrite list_lookup_insert_ne in Hj by done. apply (place_kept j w (rendezvous u)); [done| |by apply Hok].
      by apply (barrier_G_R types i j). }
  assert (Hsame : p = At (Datatypes.S k) -> p' = At (Datatypes.S k)) by (intros ->; cbn in Hidx; lia).
  destruct (decide (parent_passed_ r' = parent_passed_ (rendezvous u))) as [Heq|Hopen].
  - apply (stage_kept ws u i k p); try done. intros ->. destruct Hpos' as (_ & Ha' & Hps').
    pose proof (counters r' i Hi' ltac:(lia)). lia.
  - assert (i = 63%nat) as ->.
    { destruct (decide (i = 63%nat)); [done|]. destruct (Hkept 63%nat) as [_ Hk]; [done|].
      rewrite !passed_parent in Hk. by destruct Hopen. }
    pose proof (passed_parent (rendezvous u)) as Hpp. pose proof (passed_parent r') as Hpp'. pose proof (arrived_parent r') as Hap'.
    assert (Hk : parent_passed_ (rendezvous u) = k).
    { destruct p as [j|j|j|j|j]; unfold pos_ok in Hpos; rewrite ?decide_True in Hpos by done; cbn [index] in Hidx; lia. }
    destruct Hp' as [Hp'| ->].
    { exfalso. apply Hopen. destruct p' as [j|j|j|j|j]; unfold pos_ok in Hpos'; rewrite ?decide_True in Hpos' by done; cbn [index] in Hp'; lia. }
    destruct Hpos' as (_ & Ha' & Hps'). apply (stage_opens ws u k p); try done.
    intros j w Hj. pose proof (lookup_lt_Some _ _ _ Hj) as Hjlt. destruct (decide (j = 63%nat)) as [->|Hne].
    + rewrite Hw in Hj. injection Hj as <-. by exists p, l.
    + destruct (Hkept j) as [Kj1 Kj2]; [done|]. pose proof (bi_child _ _ Hi' j) as (_ & Hc & _); [lia|].
      pose proof (counters _ j Hi ltac:(lia)).
      apply (place_waiting j w (rendezvous u)); [by apply Hok|lia|lia|lia].
Qed.

(** *** A worker in a phase *)
Lemma phase_now i ws w u k :
  all_ok ws u -> ws !! i = Some w -> arrived i (rendezvous u) = Datatypes.S k -> passed i (rendezvous u) = Datatypes.S k ->
  parent_passed_ (rendezvous u) = Datatypes.S k.
Proof.
  intros (Hi & Hlen & _ & _) Hw Ha Hp. pose proof (lookup_lt_Some _ _ _ Hw).
  pose proof (counters _ i Hi ltac:(lia)). lia.
Qed.

(** It loads the transactions and starts. *)
Lemma load_turn i ws k l u :
  all_ok ws u -> ws !! i = Some (InBarrier k (At (Datatypes.S k)) l) -> (k < m)%nat ->
  moves_on i ws (InBarrier k (At (Datatypes.S k)) l) u.
Proof.
  intros Hall Hw Hk. pose proof Hall as (Hi & Hlen & Hok & Hst). pose proof (lookup_lt_Some _ _ _ Hw) as Hlt.
  destruct (Hok i _ Hw) as (_ & _ & (_ & Ha & Hp)). pose proof (phase_now i ws _ u k Hall Hw Ha Hp) as HK.
  unfold stage in Hst. rewrite HK in Hst.
  exists (InPhase k (phase k i l (memory u)) l), u. split.
  { cbn [program]. unfold spot. rewrite decide_False by lia. cbn [zoom prog_bind].
    replace (m - k)%nat with (Datatypes.S (m - Datatypes.S k)) by lia. done. }
  intros _. split; [done|]. split; [by rewrite length_insert|]. split.
  { intros j w Hj. destruct (decide (i = j)) as [<-|Hne].
    - rewrite list_lookup_insert_eq in Hj by done. injection Hj as <-. by split_and!.
    - rewrite list_lookup_insert_ne in Hj by done. by apply Hok. }
  unfold stage. rewrite HK. destruct Hst as (c & qs & sc & fin & HKm & Hph & Hrun & Hmem & Hnd & Hfin & Hend & Hws).
  exists c, qs, sc, fin. split_and!; try done. intros j w Hj. destruct (decide (i = j)) as [<-|Hne].
  - rewrite list_lookup_insert_eq in Hj by done. injection Hj as <-. destruct (Hws i _ Hw) as (q & Hq & Hin).
    exists q. split; [done|]. destruct Hin as [(_ & -> & -> & Hnin)|(? & _)]; [|lia].
    split_and!; [done| |done|done]. rewrite Hmem, recorded_frame; [done|lia| |done].
    apply Forall_forall. intros [j a] Hj%Hfin%lookup_lt_Some. cbn.
    rewrite (run_schedule_length _ _ _ _ _ Hrun) in Hj. unfold phase_pool in Hj. by rewrite length_fmap, length_seq in Hj.
  - rewrite list_lookup_insert_ne in Hj by done. by apply Hws.
Qed.

(** It computes. *)
Lemma run_turn i ws k q l u :
  all_ok ws u -> ws !! i = Some (InPhase k q l) -> result q = None -> moves_on i ws (InPhase k q l) u.
Proof.
  intros Hall Hw Hq. pose proof Hall as (Hi & Hlen & Hok & Hst). pose proof (lookup_lt_Some _ _ _ Hw) as Hlt.
  destruct (Hok i _ Hw) as (Hk & Ha & Hp). pose proof (phase_now i ws _ u k Hall Hw Ha Hp) as HK.
  unfold stage in Hst. rewrite HK in Hst.
  destruct Hst as (c & qs & sc & fin & HKm & Hph & Hrun & Hmem & Hnd & Hfin & Hend & Hws).
  destruct (Hws i _ Hw) as (q0 & Hq0 & (_ & -> & -> & Hnin)).
  destruct (safe k c Hph Hk (sc ++ [i])) as (qs' & s' & Hrun').
  rewrite (run_schedule_app _ _ _ _ _ _ Hrun) in Hrun'. cbn [run_schedule] in Hrun'. rewrite Hq0 in Hrun'.
  destruct (step q (database u)) as [[[q' s1]|]|] eqn:Hstep; [|done|by destruct q].
  injection Hrun' as <- <-. exists (InPhase k q' (ph_locals c i)), (set_database s1 u). split.
  { apply step_within; [by intros []|done]. }
  assert (Hlq : length qs = 64%nat).
  { rewrite (run_schedule_length _ _ _ _ _ Hrun). unfold phase_pool. by rewrite length_fmap, length_seq. }
  intros _. split; [done|]. split; [by rewrite length_insert|]. split.
  { intros j w Hj. destruct (decide (i = j)) as [<-|Hne].
    - rewrite list_lookup_insert_eq in Hj by done. injection Hj as <-. by split_and!.
    - rewrite list_lookup_insert_ne in Hj by done. by apply Hok. }
  unfold stage. cbn [rendezvous set_database]. rewrite HK.
  exists c, (<[i := q']> qs), (sc ++ [i]), fin. split_and!; try done.
  - rewrite (run_schedule_app _ _ _ _ _ _ Hrun). cbn [run_schedule]. by rewrite Hq0, Hstep.
  - intros j a Hin. destruct (decide (i = j)) as [<-|Hne]; [|rewrite list_lookup_insert_ne by done; by apply Hfin].
    exfalso. apply Hnin. apply list_elem_of_fmap. by exists (i, a).
  - intros ->. lia.
  - intros j w Hj. destruct (decide (i = j)) as [<-|Hne].
    + rewrite list_lookup_insert_eq in Hj by done. injection Hj as <-. exists q'.
      rewrite list_lookup_insert_eq by lia. by split_and!.
    + rewrite list_lookup_insert_ne in Hj by done. rewrite list_lookup_insert_ne by done. by apply Hws.
Qed.

(** It records its result and goes to the next barrier. *)
Lemma record_turn i ws k a l u :
  all_ok ws u -> ws !! i = Some (InPhase k (Ret a) l) -> moves_on i ws (InPhase k (Ret a) l) u.
Proof.
  intros Hall Hw. pose proof Hall as (Hi & Hlen & Hok & Hst). pose proof (lookup_lt_Some _ _ _ Hw) as Hlt.
  destruct (Hok i _ Hw) as (Hk & Ha & Hp). pose proof (phase_now i ws _ u k Hall Hw Ha Hp) as HK.
  unfold stage in Hst. rewrite HK in Hst.
  destruct Hst as (c & qs & sc & fin & HKm & Hph & Hrun & Hmem & Hnd & Hfin & Hend & Hws).
  destruct (Hws i _ Hw) as (q0 & Hq0 & (_ & -> & -> & Hnin)).
  exists (InBarrier (Datatypes.S k) (At (Datatypes.S k)) (next k i a (ph_locals c i))), (set_memory (record k i a (memory u)) u). split.
  { cbn [program]. unfold spot. rewrite decide_True by done. unfold barrier. rewrite zoom_barrier. done. }
  intros _. split; [done|]. split; [by rewrite length_insert|]. split.
  { intros j w Hj. destruct (decide (i = j)) as [<-|Hne].
    - rewrite list_lookup_insert_eq in Hj by done. injection Hj as <-. split_and!; [lia|by left|]. split; [lia|done].
    - rewrite list_lookup_insert_ne in Hj by done. by apply Hok. }
  unfold stage. cbn [rendezvous set_memory]. rewrite HK.
  exists c, qs, sc, ((i, a) :: fin). split_and!; try done.
  - cbn. by rewrite Hmem.
  - cbn. by constructor.
  - intros j b [[= -> ->]|Hin]%elem_of_cons; [done|by apply Hfin].
  - intros ->. lia.
  - intros j w Hj. destruct (decide (i = j)) as [<-|Hne].
    + rewrite list_lookup_insert_eq in Hj by done. injection Hj as <-. exists (Ret a). split; [done|].
      right. split_and!; [done|by intros [= ?]; lia|]. exists a. split_and!; [done|by left|done].
    + rewrite list_lookup_insert_ne in Hj by done. destruct (Hws j w Hj) as (q & Hq & Hin). exists q. split; [done|].
      assert (Hin' : forall x, x ∈ fin -> x ∈ (i, a) :: fin) by (intros x ?; by right).
      destruct w as [k' p l'|k' q' l']; cbn in *.
      * destruct Hin as [(? & ? & ? & Hn)|(? & ? & b & ? & ? & ?)].
        -- left. split_and!; try done. apply not_elem_of_cons. by split; [congruence|].
        -- right. split_and!; try done. exists b. split_and!; try done. by apply Hin'.
      * destruct Hin as (? & ? & ? & Hn). split_and!; try done. apply not_elem_of_cons. by split; [congruence|].
Qed.

Lemma turn i ws w u :
  all_ok ws u -> ws !! i = Some w ->
  (exists l, w = InBarrier m (At (Datatypes.S m)) l) \/ moves_on i ws w u.
Proof.
  intros Hall Hw. pose proof Hall as (_ & _ & Hok & _). specialize (Hok i w Hw). destruct w as [k p l|k q l].
  - destruct Hok as (Hk & [Hidx| ->] & _); [right; by apply barrier_turn|].
    destruct (decide (k = m)) as [->|Hne]; [left; by eexists|right]. apply load_turn; [done|done|lia].
  - right. destruct (result q) as [a|] eqn:Hq; [|by apply run_turn].
    destruct q as [b| |]; simplify_eq/=. by apply record_turn.
Qed.


Definition workers : list (prog (Shared S T) L) := (fun i => run_worker i (ph_locals init i)) <$> seq 0 64.
Definition start : Shared S T := mkShared (ph_env init) (Rendezvous_init 63) (ph_mem init).
Definition pool_of_places (ws : list place) : list (prog (Shared S T) L) := imap program ws.

(** A schedule all of whose steps are observed. *)
Definition observed (sched : list nat) (pool : list (prog (Shared S T) L)) (u0 : Shared S T) : Prop :=
  forall n pool1 u1 pool2 u2, run_schedule (take n sched) pool u0 = Ok (pool1, u1) ->
    run_schedule (take (Datatypes.S n) sched) pool u0 = Ok (pool2, u2) -> follows u1 u2.

Lemma observed_step i sched pool p p' u u' :
  observed (i :: sched) pool u -> pool !! i = Some p -> step p u = Some (Ok (p', u')) ->
  follows u u' /\ observed sched (<[i := p']> pool) u'.
Proof.
  intros Ho Hp Hs.
  assert (Hrun : forall l, run_schedule (i :: l) pool u = run_schedule l (<[i := p']> pool) u') by (intros l; cbn; by rewrite Hp, Hs).
  split.
  - apply (Ho 0%nat pool u (<[i := p']> pool) u'); [done|]. cbn [take]. rewrite Hrun. by destruct sched.
  - intros n pool1 u1 pool2 u2 H1 H2. apply (Ho (Datatypes.S n) pool1 u1 pool2 u2); cbn [take] in *; by rewrite Hrun.
Qed.

Lemma observed_skip i sched pool u :
  observed (i :: sched) pool u -> (forall l, run_schedule (i :: l) pool u = run_schedule l pool u) -> observed sched pool u.
Proof.
  intros Ho Hrun n pool1 u1 pool2 u2 H1 H2. apply (Ho (Datatypes.S n) pool1 u1 pool2 u2); cbn [take] in *; by rewrite Hrun.
Qed.

Lemma places_run sched : forall ws u, all_ok ws u -> observed sched (pool_of_places ws) u ->
  exists ws' u', run_schedule sched (pool_of_places ws) u = Ok (pool_of_places ws', u') /\ all_ok ws' u'.
Proof.
  induction sched as [|i sched IH]; intros ws u Hall Hobs; [by exists ws, u|].
  assert (Hlook : pool_of_places ws !! i = program i <$> ws !! i) by (unfold pool_of_places; by rewrite list_lookup_imap).
  assert (Hidle : (forall l, run_schedule (i :: l) (pool_of_places ws) u = run_schedule l (pool_of_places ws) u) ->
    exists ws' u', run_schedule (i :: sched) (pool_of_places ws) u = Ok (pool_of_places ws', u') /\ all_ok ws' u').
  { intros Hskip. rewrite Hskip. apply IH; [done|]. by eapply observed_skip. }
  destruct (ws !! i) as [w|] eqn:Hw; cbn [fmap option_fmap option_map] in Hlook.
  2:{ apply Hidle. intros l. cbn [run_schedule]. by rewrite Hlook. }
  destruct (turn i ws w u Hall Hw) as [[l ->]|(w' & u' & Hst & Hall')].
  - apply Hidle. intros l'. cbn [run_schedule]. rewrite Hlook. cbn [program]. rewrite Nat.sub_diag. unfold spot.
    by rewrite decide_False by lia.
  - destruct (observed_step i sched _ _ _ u u' Hobs Hlook Hst) as [Hnow Hobs'].
    assert (Hpool : <[i := program i w']> (pool_of_places ws) = pool_of_places (<[i := w']> ws)).
    { unfold pool_of_places. apply list_eq. intros j. rewrite list_lookup_imap.
      pose proof (lookup_lt_Some _ _ _ Hw). destruct (decide (i = j)) as [<-|Hne].
      - by rewrite !list_lookup_insert_eq by (by rewrite ?length_imap).
      - by rewrite !list_lookup_insert_ne, list_lookup_imap by done. }
    rewrite Hpool in Hobs'. cbn [run_schedule]. rewrite Hlook, Hst, Hpool. apply IH; auto.
Qed.

Definition places_at_start : list place := (fun i => InBarrier 0 (At 0) (ph_locals init i)) <$> seq 0 64.

Lemma workers_at_start : workers = pool_of_places places_at_start.
Proof.
  apply list_eq. intros i. unfold workers, pool_of_places, places_at_start.
  rewrite list_lookup_fmap, list_lookup_imap, list_lookup_fmap.
  destruct (decide (i < 64)%nat) as [Hlt|Hge].
  - rewrite lookup_seq_lt by done. cbn [fmap option_fmap option_map program].
    unfold spot. rewrite decide_True by done. rewrite Nat.sub_0_r, <- zoom_barrier. done.
  - by rewrite lookup_ge_None_2 by (rewrite length_seq; lia).
Qed.

Lemma start_all_ok : all_ok places_at_start start.
Proof.
  assert (Hlook : forall i w, places_at_start !! i = Some w -> (i < 64)%nat /\ w = InBarrier 0 (At 0) (ph_locals init i)).
  { intros i w Hw. unfold places_at_start in Hw. rewrite list_lookup_fmap in Hw.
    destruct (seq 0 64 !! i) as [j|] eqn:Hj; [|done]. apply lookup_seq in Hj as [-> ?]. by simplify_eq/=. }
  split; [apply init_inv|]. split; [done|]. split.
  - intros i w (Hi & ->)%Hlook. split_and!; [lia|by left|].
    destruct (start_ok types) as (_ & _ & Hs). apply Hs. by apply lookup_replicate_2.
  - split_and!; [done|done|]. intros i w (Hi & ->)%Hlook. by exists (At 0).
Qed.

Lemma program_done i ws w u l :
  all_ok ws u -> ws !! i = Some w -> program i w = Ret l -> w = InBarrier m (At (Datatypes.S m)) l.
Proof.
  intros Hall Hw Hp. destruct (turn i ws w u Hall Hw) as [[l' ->]|(w' & u' & Hst & _)]; [|by rewrite Hp in Hst].
  cbn [program] in Hp. unfold spot in Hp. rewrite decide_False, Nat.sub_diag in Hp by lia. cbn in Hp. by injection Hp as ->.
Qed.

(** Every interleaving of the workers, barriers included, is a run of the
    phases one after the other. *)
Theorem workers_refine_phases sched :
  observed sched workers start ->
  exists pool' u', run_schedule sched workers start = Ok (pool', u') /\
    (all_done pool' -> exists c, phases init m c /\ database u' = ph_env c /\ memory u' = ph_mem c /\
       forall i, (i < 64)%nat -> pool' !! i = Some (Ret (ph_locals c i))).
Proof.
  rewrite workers_at_start. intros Hobs. destruct (places_run sched _ _ start_all_ok Hobs) as (ws & u & Hrun & Hall).
  exists (pool_of_places ws), u. split; [done|]. intros Hd. unfold all_done, pool_of_places in Hd.
  rewrite Forall_lookup in Hd. pose proof Hall as (Hi & Hlen & Hok & Hst).
  assert (Hend : forall i, (i < 64)%nat -> exists l, ws !! i = Some (InBarrier m (At (Datatypes.S m)) l)).
  { intros i Hlt. destruct (lookup_lt_is_Some_2 ws i) as [w Hw]; [lia|]. specialize (Hd i (program i w)).
    rewrite list_lookup_imap, Hw in Hd. specialize (Hd eq_refl). destruct (program i w) as [l| |] eqn:Hp; [|done|done].
    exists l. by rewrite Hw, (program_done i ws w u l). }
  destruct (Hend 0%nat) as [l0 H0]; [lia|]. destruct (Hok _ _ H0) as (_ & _ & (_ & Ha & Hp)).
  pose proof (phase_now 0 ws _ u m Hall H0 Ha Hp) as HK. unfold stage in Hst. rewrite HK in Hst.
  destruct Hst as (c & qs & sc & fin & _ & Hph & _ & Hmem & _ & _ & Hlast & Hws).
  destruct (Hlast eq_refl) as [-> Hdb]. exists c. split_and!; [done|done|done|].
  intros i Hlt. destruct (Hend i Hlt) as [l Hl]. unfold pool_of_places. rewrite list_lookup_imap, Hl. cbn [fmap option_fmap option_map program].
  destruct (Hws i _ Hl) as (q & _ & [(_ & _ & -> & _)|(? & _)]); [|lia].
  unfold spot. by rewrite decide_False, Nat.sub_diag by lia.
Qed.

End Workers.

(** The consecutive states of a run. *)
Definition steps_of {U A} (sched : list nat) (pool : list (prog U A)) (u0 u u' : U) : Prop :=
  exists n pool1 pool2, run_schedule (take n sched) pool u0 = Ok (pool1, u) /\
    run_schedule (take (Datatypes.S n) sched) pool u0 = Ok (pool2, u').
Lemma steps_of_observed {S T L} sched (pool : list (prog (Shared S T) L)) u0 :
  observed (steps_of sched pool u0) sched pool u0.
Proof. intros n pool1 u1 pool2 u2 H1 H2. by exists n, pool1, pool2. Qed.
