(* ===== verification/Memory.v ===== *)
(** * Memory: versions, records and statistics

    The heap the three protocols share.  [Version] is the class of
    [protocols/*/include/version.hpp] and [row_region.hpp]; a [Version *] is a
    [ptr], [None] being [nullptr].  Records ([operator new(record_size)]) are
    only allocated and deleted by the modelled code, never read through, so a
    record is an address of the [records] set.  [Stat] is the array of counters
    of [benchmarks/ycsb/include/tx_utils.hpp].  [Env P R] adds what the
    protocols keep: the pool of row buffers or regions of the controller
    (element type [P]), its counter [used_], and the rows of the index
    (type [R]). *)
From S2P Require Import Prelude Bitmap Conc RWLock.

(** [protocols/ycsb_common/definitions.hpp]. *)
Definition LOGICAL_CORE_SIZE : Z := 64.
Definition NUM_REGIONS : Z := 10000.
Definition NUM_EPOCH : Z := 1000.
Abbreviation NUM_CORE := 64.
Definition NUM_TXS_IN_ONE_EPOCH_IN_ONE_CORE `{BuildConfig} : Z := NUM_TXS_IN_ONE_EPOCH / NUM_CORE.

Abbreviation addr := positive.
Abbreviation ptr := (option positive).

(** [p != nullptr] as a condition. *)
Definition nonnull (p : ptr) : bool := bool_decide (is_Some p).

(** [v[index]]: undefined outside the vector. *)
Definition vector_at {A} (l : list A) (index : Z) : outcome A :=
  if decide (0 <= index) then deref (l !! Z.to_nat index) else Err UndefinedBehaviour.

Lemma nonnull_Some p : is_Some p -> nonnull p = true.
Proof. apply bool_decide_eq_true_2. Qed.

(** ** Versions *)
Inductive VersionStatus := PENDING | STABLE.
#[export] Instance VersionStatus_eq_dec : EqDecision VersionStatus.
Proof. solve_decision. Defined.

Record Version := mkVersion {
  rec : ptr;
  status : VersionStatus;
  deleted : bool
}.

#[export] Instance Version_eq_dec : EqDecision Version.
Proof. solve_decision. Defined.

(** ** Statistics *)
Inductive MeasureType :=
| Core | Node | Create | Delete | TotalTime | InitializationTime | ExecutionTime
| Sync1Time | Sync2Time | WaitInInitialization | WaitInExecution | WaitInGC
| PerfLeader | PerfMember.

Definition measure_index (t : MeasureType) : nat :=
  match t with
  | Core => 0 | Node => 1 | Create => 2 | Delete => 3 | TotalTime => 4
  | InitializationTime => 5 | ExecutionTime => 6 | Sync1Time => 7 | Sync2Time => 8
  | WaitInInitialization => 9 | WaitInExecution => 10 | WaitInGC => 11
  | PerfLeader => 12 | PerfMember => 13
  end.

(** [measures_[MeasureType::Size] = {0}]. *)
Definition Stat := list Z.
Definition Stat_init : Stat := replicate 14 0.
Definition Stat_get (st : Stat) (t : MeasureType) : Z := default 0 (st !! measure_index t).
Definition Stat_record (st : Stat) (t : MeasureType) (n : Z) : Stat :=
  <[measure_index t := n]> st.
Definition Stat_add (st : Stat) (t : MeasureType) (n : Z) : Stat :=
  Stat_record st t (u64 (Stat_get st t + n)).
Definition Stat_increment (st : Stat) (t : MeasureType) : Stat :=
  Stat_record st t (u64 (Stat_get st t + 1)).

(** ** The environment *)
Record Env (P R : Type) := mkEnv {
  versions : gmap addr Version;      (* live [Version] objects *)
  records : gset addr;               (* live record allocations *)
  brk : addr;                        (* every address below is taken *)
  stat_ : Stat;
  pool : list P;                     (* the controller's preallocated array *)
  used_ : Z;                         (* how many of them are handed out *)
  rows : gmap addr R;                (* the [Value] objects, by address *)
  lock_ : RWLock;                    (* the controller's latch *)
  handed_ : list addr                (* ghost: the row each region or buffer went to *)
}.
Arguments mkEnv {P R}.
Arguments versions {P R}.
Arguments records {P R}.
Arguments brk {P R}.
Arguments stat_ {P R}.
Arguments pool {P R}.
Arguments used_ {P R}.
Arguments rows {P R}.
Arguments lock_ {P R}.
Arguments handed_ {P R}.

Section Operations.
Context {P R : Type} `{BuildConfig}.
Local Abbreviation E := (Env P R).

Definition set_versions (f : gmap addr Version -> gmap addr Version) (e : E) : E :=
  mkEnv (f (versions e)) (records e) (brk e) (stat_ e) (pool e) (used_ e) (rows e) (lock_ e) (handed_ e).
Definition set_records (f : gset addr -> gset addr) (e : E) : E :=
  mkEnv (versions e) (f (records e)) (brk e) (stat_ e) (pool e) (used_ e) (rows e) (lock_ e) (handed_ e).
Definition set_brk (b : addr) (e : E) : E :=
  mkEnv (versions e) (records e) b (stat_ e) (pool e) (used_ e) (rows e) (lock_ e) (handed_ e).
Definition set_stat (f : Stat -> Stat) (e : E) : E :=
  mkEnv (versions e) (records e) (brk e) (f (stat_ e)) (pool e) (used_ e) (rows e) (lock_ e) (handed_ e).
Definition set_pool (f : list P -> list P) (e : E) : E :=
  mkEnv (versions e) (records e) (brk e) (stat_ e) (f (pool e)) (used_ e) (rows e) (lock_ e) (handed_ e).
Definition set_used (u : Z) (e : E) : E :=
  mkEnv (versions e) (records e) (brk e) (stat_ e) (pool e) u (rows e) (lock_ e) (handed_ e).
Definition set_rows (f : gmap addr R -> gmap addr R) (e : E) : E :=
  mkEnv (versions e) (records e) (brk e) (stat_ e) (pool e) (used_ e) (f (rows e)) (lock_ e) (handed_ e).
Definition set_lock_ (l : RWLock) (e : E) : E :=
  mkEnv (versions e) (records e) (brk e) (stat_ e) (pool e) (used_ e) (rows e) l (handed_ e).
Definition set_handed (h : list addr) (e : E) : E :=
  mkEnv (versions e) (records e) (brk e) (stat_ e) (pool e) (used_ e) (rows e) (lock_ e) h.

Definition modifyM (f : E -> E) : M E unit := fun e => Ok (tt, f e).
Definition readM {A} (f : E -> A) : M E A := fun e => Ok (f e, e).
Definition assertM (b : bool) : M E unit := lift (assert_ b).
Definition derefM {A} (o : option A) : M E A := lift (deref o).

(** [stat.increment(t)], [stat.add(t, n)]. *)
Definition stat_increment (t : MeasureType) : M E unit :=
  modifyM (set_stat (fun st => Stat_increment st t)).
Definition stat_add (t : MeasureType) (n : Z) : M E unit :=
  modifyM (set_stat (fun st => Stat_add st t n)).

(** [new Version] followed by the stores that initialise it. *)
Definition new_version (v : Version) : M E addr := fun e =>
  Ok (brk e, set_brk (Pos.succ (brk e)) (set_versions (insert (brk e) v) e)).
(** [operator new(record_size)]. *)
Definition new_record : M E addr := fun e =>
  Ok (brk e, set_brk (Pos.succ (brk e)) (set_records (union {[brk e]}) e)).

(** [*p] for a [Version *p]: undefined for null and dangling pointers. *)
Definition load_version (p : ptr) : M E Version :=
  a ← derefM p; e ← getM; derefM (versions e !! a).
Definition store_version (p : ptr) (v : Version) : M E unit :=
  a ← derefM p; e ← getM; _ ← derefM (versions e !! a);
  modifyM (set_versions (insert a v)).

(** [new Value]. *)
Definition new_row (v : R) : M E addr := fun e =>
  Ok (brk e, set_brk (Pos.succ (brk e)) (set_rows (<[brk e := v]>) e)).
(** [*val] for a [Value *val], and the stores into it. *)
Definition load_row (a : addr) : M E R := e ← getM; derefM (rows e !! a).
Definition store_row (a : addr) (v : R) : M E unit := modifyM (set_rows (insert a v)).

(** [delete reinterpret_cast<Record *>(r)]: a no-op on null, undefined when dangling. *)
Definition delete_record (r : ptr) : M E unit :=
  match r with
  | None => mret tt
  | Some a => e ← getM;
      if decide (a ∈ records e) then modifyM (set_records (fun s => s ∖ {[a]}))
      else failM UndefinedBehaviour
  end.
(** [delete p] for a [Version *p]. *)
Definition delete_version (p : ptr) : M E unit :=
  match p with
  | None => mret tt
  | Some a => e ← getM;
      _ ← derefM (versions e !! a);
      modifyM (set_versions (delete a))
  end.

End Operations.

(** ** Well-formed heaps and ownership *)
Section Heap.
Context {P R : Type}.
Local Abbreviation E := (Env P R).

(** Live records belong to exactly one live version; addresses are below [brk]. *)
Record heap_ok (e : E) : Prop := {
  heap_fresh : forall a v, versions e !! a = Some v -> (a < brk e)%positive;
  heap_rec_live : forall a v r, versions e !! a = Some v -> rec v = Some r -> r ∈ records e;
  heap_rec_fresh : forall r, r ∈ records e -> (r < brk e)%positive;
  heap_rec_inj : forall a1 a2 v1 v2 r,
    versions e !! a1 = Some v1 -> versions e !! a2 = Some v2 ->
    rec v1 = Some r -> rec v2 = Some r -> a1 = a2
}.

(** A version that a garbage collector may delete: stable, with a record. *)
Definition collectable (e : E) (a : addr) : Prop :=
  exists v r, versions e !! a = Some v /\ status v = STABLE /\ rec v = Some r.

(** A version that was created and not yet written. *)
Definition pending (e : E) (a : addr) : Prop :=
  exists v, versions e !! a = Some v /\ status v = PENDING /\ rec v = None.

Definition live (e : E) (a : addr) : Prop := is_Some (versions e !! a).

(** [e'] is [e] after deleting exactly the versions of [l] (and their records). *)
Definition freed (l : list addr) (e e' : E) : Prop :=
  (forall a, versions e' !! a = if decide (a ∈ l) then None else versions e !! a) /\
  brk e' = brk e /\ pool e' = pool e /\ used_ e' = used_ e /\ rows e' = rows e /\
  lock_ e' = lock_ e /\ handed_ e' = handed_ e.

End Heap.

Section Collect.
Context {P R : Type} `{BuildConfig}.
Local Abbreviation E := (Env P R).

(** The three statements every collector of the sources ends with:
    [delete version->rec] (as a [Record]), [delete version],
    [stat.increment(Delete)]. *)
Definition collect_version (p : ptr) : M E unit :=
  v ← load_version p; delete_record (rec v);; delete_version p;; stat_increment Delete.

(** ** Lemmas *)
Lemma freed_nil e : freed [] e (e : E).
Proof. by repeat split. Qed.

Lemma freed_trans l1 l2 (e1 e2 e3 : E) :
  freed l1 e1 e2 -> freed l2 e2 e3 -> freed (l1 ++ l2) e1 e3.
Proof.
  intros (F1 & ? & ? & ? & ? & ? & ?) (F2 & ? & ? & ? & ? & ? & ?). repeat split; try congruence.
  intros a. rewrite F2, F1. repeat case_decide; try done; set_solver.
Qed.

Lemma freed_lookup_ne l (e e' : E) a : freed l e e' -> a ∉ l -> versions e' !! a = versions e !! a.
Proof. intros [Hf _] Ha. by rewrite Hf, decide_False. Qed.

Lemma freed_lookup l (e e' : E) a : freed l e e' -> a ∈ l -> versions e' !! a = None.
Proof. intros [Hf _] Ha. by rewrite Hf, decide_True. Qed.

Lemma freed_collectable l (e e' : E) a :
  freed l e e' -> a ∉ l -> collectable e a -> collectable e' a.
Proof.
  intros Hf Ha (v & r & Hv & ?). exists v, r. by rewrite (freed_lookup_ne _ _ _ _ Hf Ha).
Qed.

Lemma freed_pending l (e e' : E) a :
  freed l e e' -> a ∉ l -> pending e a -> pending e' a.
Proof.
  intros Hf Ha (v & Hv & ?). exists v. by rewrite (freed_lookup_ne _ _ _ _ Hf Ha).
Qed.

(** What [collect_version] does to a collectable version. *)
Lemma collect_version_eq (e : E) a v r :
  heap_ok e -> versions e !! a = Some v -> rec v = Some r ->
  collect_version (Some a) e
  = Ok (tt, set_stat (fun st => Stat_increment st Delete)
              (set_versions (delete a) (set_records (fun s => s ∖ {[r]}) e))).
Proof.
  intros Hok Hv Hr. unfold collect_version, load_version, derefM, delete_record, delete_version.
  unfold mbind, M_bind, lift, deref, getM. cbn. rewrite Hv. cbn. rewrite Hr. cbn.
  rewrite decide_True by (by eapply heap_rec_live). cbn. by rewrite Hv.
Qed.

Lemma collect_version_heap_ok (e : E) a v r :
  heap_ok e -> versions e !! a = Some v -> rec v = Some r ->
  heap_ok (set_stat (fun st => Stat_increment st Delete)
             (set_versions (delete a) (set_records (fun s => s ∖ {[r]}) e))).
Proof.
  intros [Hf Hl Hrf Hi] Hv Hr. constructor; cbn.
  - intros b w [_ Hb]%lookup_delete_Some. by eapply Hf.
  - intros b w r' [Hne Hb]%lookup_delete_Some Hr'. apply elem_of_difference. split.
    + by eapply Hl.
    + rewrite elem_of_singleton. intros ->. apply Hne. by eapply Hi.
  - intros r' [? _]%elem_of_difference. by apply Hrf.
  - intros b1 b2 w1 w2 r' [_ H1]%lookup_delete_Some [_ H2]%lookup_delete_Some. by eapply Hi.
Qed.

Lemma wp_collect_version (e : E) a Q :
  heap_ok e -> collectable e a ->
  (forall e', heap_ok e' -> freed [a] e e' ->
     stat_ e' = Stat_increment (stat_ e) Delete -> Q tt e') ->
  wp (collect_version (Some a)) Q e.
Proof.
  intros Hok (v & r & Hv & Hs & Hr) HQ. unfold wp.
  rewrite (collect_version_eq e a v r) by done. apply HQ.
  - by eapply collect_version_heap_ok.
  - repeat split. intros b. cbn. destruct (decide (b = a)) as [->|Hne].
    + rewrite lookup_delete_eq, decide_True by set_solver. done.
    + rewrite lookup_delete_ne, decide_False by set_solver. done.
  - done.
Qed.

Lemma heap_ok_set_stat f (e : E) : heap_ok e -> heap_ok (set_stat f e).
Proof. by intros [????]; constructor. Qed.
Lemma heap_ok_set_pool f (e : E) : heap_ok e -> heap_ok (set_pool f e).
Proof. by intros [????]; constructor. Qed.
Lemma heap_ok_set_used u (e : E) : heap_ok e -> heap_ok (set_used u e).
Proof. by intros [????]; constructor. Qed.
Lemma heap_ok_set_rows f (e : E) : heap_ok e -> heap_ok (set_rows f e).
Proof. by intros [????]; constructor. Qed.
Lemma heap_ok_set_handed h (e : E) : heap_ok e -> heap_ok (set_handed h e).
Proof. by intros [????]; constructor. Qed.
Lemma heap_ok_set_lock l (e : E) : heap_ok e -> heap_ok (set_lock_ l e).
Proof. by intros [????]; constructor. Qed.

(** A fresh pending version. *)
Lemma new_version_spec (e : E) d :
  heap_ok e ->
  exists e', new_version (mkVersion None PENDING d) e = Ok (brk e, e') /\
    heap_ok e' /\ pending e' (brk e) /\ versions e !! brk e = None /\
    (forall a, a <> brk e -> versions e' !! a = versions e !! a) /\
    stat_ e' = stat_ e /\ pool e' = pool e /\ used_ e' = used_ e /\ rows e' = rows e /\
    lock_ e' = lock_ e /\ handed_ e' = handed_ e /\ (brk e < brk e')%positive.
Proof.
  intros [Hf Hl Hrf Hi]. eexists. split; [reflexivity|].
  assert (Hnone : versions e !! brk e = None).
  { destruct (versions e !! brk e) eqn:Hb; [|done]. apply Hf in Hb. lia. }
  split; [|split; [|split; [done|split]]].
  - constructor; cbn.
    + intros a v [[<- _]|[_ Ha]]%lookup_insert_Some; [lia|]. apply Hf in Ha. lia.
    + intros a v r [[<- <-]|[_ Ha]]%lookup_insert_Some Hr; [done|]. by eapply Hl.
    + intros r Hr%Hrf. lia.
    + intros a1 a2 v1 v2 r [[<- <-]|[_ H1]]%lookup_insert_Some
        [[<- <-]|[_ H2]]%lookup_insert_Some; try done. by eapply Hi.
  - eexists. split; [apply lookup_insert_eq|done].
  - intros a Ha. cbn. by rewrite lookup_insert_ne.
  - cbn. repeat split. lia.
Qed.

End Collect.
#[export] Hint Resolve heap_ok_set_stat heap_ok_set_pool heap_ok_set_used heap_ok_set_rows
  heap_ok_set_lock heap_ok_set_handed : mvdcc.

(** ** Collecting a list of versions *)
Section CollectLoop.
Context {P R : Type} `{BuildConfig}.
Local Abbreviation E := (Env P R).

(** The addresses of the non-null pointers of a list. *)
Definition addrs (l : list ptr) : list addr := omap id l.

Definition collectable_ptr (e : E) (p : ptr) : Prop := from_option (collectable e) False p.
Definition live_ptr (e : E) (p : ptr) : Prop := from_option (live e) False p.

Lemma collectable_live (e : E) p : collectable_ptr e p -> live_ptr e p.
Proof. destruct p as [a|]; [|done]. intros (v & r & Hv & _). by exists v. Qed.

Lemma live_ptr_is_Some (e : E) p : live_ptr e p -> is_Some p.
Proof. destruct p; [done|]. by intros []. Qed.

Lemma elem_of_addrs a (l : list ptr) : a ∈ addrs l <-> Some a ∈ l.
Proof.
  unfold addrs. rewrite list_elem_of_omap. split; [intros (p & Hp & Hid)|intros Ha].
  - unfold id in Hid. by subst p.
  - by exists (Some a).
Qed.

Lemma addrs_app (l1 l2 : list ptr) : addrs (l1 ++ l2) = addrs l1 ++ addrs l2.
Proof. apply omap_app. Qed.

(** The collectors' loop body. *)
Definition gc_body (version : ptr) : M E unit :=
  assertM (nonnull version);;
  v ← load_version version;
  assertM (nonnull (rec v));;
  assertM (bool_decide (status v = STABLE));;
  collect_version version.

Lemma wp_assertM b (Q : unit -> E -> Prop) e : b = true -> Q tt e -> wp (assertM b) Q e.
Proof. intros -> HQ. unfold assertM. apply wp_lift, wpo_assert; done. Qed.

Lemma wp_load_version a v (Q : Version -> E -> Prop) e :
  versions e !! a = Some v -> Q v e -> wp (load_version (Some a)) Q e.
Proof. intros Hv HQ. unfold wp, load_version, derefM, mbind, M_bind, lift, deref, getM. cbn. by rewrite Hv. Qed.

Lemma wp_load_row a (v : R) (Q : R -> E -> Prop) e : rows e !! a = Some v -> Q v e -> wp (load_row a) Q e.
Proof. intros Hv HQ. unfold wp, load_row, derefM, mbind, M_bind, lift, deref, getM. by rewrite Hv. Qed.

Lemma wp_gc_body (e : E) p (Q : unit -> E -> Prop) :
  heap_ok e -> collectable_ptr e p ->
  (forall e', heap_ok e' -> freed (addrs [p]) e e' ->
     stat_ e' = Stat_increment (stat_ e) Delete -> Q tt e') ->
  wp (gc_body p) Q e.
Proof.
  intros Hok Hc HQ. destruct p as [a|]; [|done]. pose proof Hc as (v & r & Hv & Hs & Hr).
  unfold gc_body. wp_step. apply wp_assertM; [done|].
  wp_step. eapply wp_load_version; [exact Hv|].
  wp_step. apply wp_assertM; [by rewrite Hr|].
  wp_step. apply wp_assertM; [by apply bool_decide_eq_true_2|].
  apply wp_collect_version; auto.
Qed.

Lemma freed_collectable_ptr l (e e' : E) p :
  freed l e e' -> Forall (fun a => Some a <> p) l -> collectable_ptr e p -> collectable_ptr e' p.
Proof.
  intros Hf Hn. destruct p as [a|]; [|done]. simpl. eapply freed_collectable; [done|].
  intros Ha. rewrite Forall_forall in Hn. by apply (Hn a Ha).
Qed.

(** The counter of deleted versions after [n] collections. *)
Definition deletes (n : nat) (st : Stat) : Stat := Nat.iter n (fun s => Stat_increment s Delete) st.

Lemma deletes_S n st : deletes n (Stat_increment st Delete) = deletes (S n) st.
Proof. unfold deletes. induction n as [|n IH]; [done|]. simpl in *. by rewrite IH. Qed.

Lemma wp_collect_loop {X Y} (f : X -> M E Y) (ptr_of : X -> ptr) (y : X -> Y)
    (l : list X) (e : E) (Q : list Y -> E -> Prop) :
  (forall x e Q, wp (gc_body (ptr_of x)) (fun _ => Q (y x)) e -> wp (f x) Q e) ->
  heap_ok e -> NoDup (ptr_of <$> l) -> Forall (fun x => collectable_ptr e (ptr_of x)) l ->
  (forall e', heap_ok e' -> freed (addrs (ptr_of <$> l)) e e' ->
     stat_ e' = deletes (length l) (stat_ e) -> Q (y <$> l) e') ->
  wp (forM l f) Q e.
Proof.
  intros Hf. revert e Q. induction l as [|x l IH]; intros e Q Hok Hnd Hc HQ; simpl.
  - apply wp_ret, HQ; [done|apply freed_nil|done].
  - apply NoDup_cons in Hnd as [Hx Hnd]. apply Forall_cons in Hc as [Hcx Hc].
    wp_step. apply Hf. apply wp_gc_body; [done..|]. intros e1 Hok1 Hf1 Hst1.
    wp_step. apply IH; [done..| |].
    + apply Forall_forall. intros z Hz. rewrite Forall_forall in Hc.
      eapply freed_collectable_ptr; [exact Hf1| |by apply Hc].
      apply Forall_forall. intros a Ha%elem_of_addrs Heq.
      apply list_elem_of_singleton in Ha. apply Hx, list_elem_of_fmap. exists z. by rewrite <- Ha.
    + intros e2 Hok2 Hf2 Hst2. wp_step. apply HQ; [done| |].
      * rewrite fmap_cons. change (ptr_of x :: ?t) with ([ptr_of x] ++ t).
        rewrite addrs_app. by eapply freed_trans.
      * rewrite Hst2, Hst1. cbn [length]. by rewrite deletes_S.
Qed.
End CollectLoop.

(** ** What survives an action *)
Section Frames.
Context {P R : Type} `{BuildConfig}.
Local Abbreviation E := (Env P R).

(** The frame of an action: it leaves the controller alone. *)
Definition same_control (e e' : E) : Prop :=
  used_ e' = used_ e /\ lock_ e' = lock_ e /\ handed_ e' = handed_ e.

Definition pending_ptr (e : E) (p : ptr) : Prop := from_option (pending e) False p.

Lemma pending_ptr_live (e : E) p : pending_ptr e p -> live_ptr e p.
Proof. destruct p as [a|]; [|done]. intros (v & Hv & _). by exists v. Qed.

Lemma pending_ptr_frame (e e' : E) p :
  (forall q, p = Some q -> versions e' !! q = versions e !! q) ->
  pending_ptr e p -> pending_ptr e' p.
Proof.
  destruct p as [q|]; [|done]. intros Hq (v & Hv & ?). exists v. by rewrite Hq.
Qed.
Lemma collectable_ptr_frame (e e' : E) p :
  (forall q, p = Some q -> versions e' !! q = versions e !! q) ->
  collectable_ptr e p -> collectable_ptr e' p.
Proof.
  destruct p as [q|]; [|done]. intros Hq (v & r & Hv & ?). exists v, r. by rewrite Hq.
Qed.
Lemma live_ptr_frame (e e' : E) p :
  (forall q, p = Some q -> versions e' !! q = versions e !! q) ->
  live_ptr e p -> live_ptr e' p.
Proof. destruct p as [q|]; [|done]. intros Hq [v Hv]. exists v. by rewrite Hq. Qed.

Lemma fmap_Some_addrs (l : list ptr) : Forall is_Some l -> Some <$> addrs l = l.
Proof. induction 1 as [|p l [a ->] _ IH]; [done|]. csimpl. by rewrite IH. Qed.

Lemma live_is_Some (e : E) l : Forall (live_ptr e) l -> Forall is_Some l.
Proof. intros Hl. eapply Forall_impl; [exact Hl|]. apply live_ptr_is_Some. Qed.

Lemma freed_live_ptr l (e e' : E) p :
  freed l e e' -> p ∉ Some <$> l -> live_ptr e p -> live_ptr e' p.
Proof.
  intros Hf Hp. destruct p as [a|]; [|done]. simpl. unfold live.
  rewrite (freed_lookup_ne _ _ _ _ Hf); [done|]. intros Ha. apply Hp.
  by apply list_elem_of_fmap_2.
Qed.

Lemma freed_collectable_ptr' l (e e' : E) p :
  freed l e e' -> p ∉ Some <$> l -> collectable_ptr e p -> collectable_ptr e' p.
Proof.
  intros Hf Hp. apply (freed_collectable_ptr _ _ _ _ Hf). apply Forall_forall.
  intros a Ha <-. apply Hp. by apply list_elem_of_fmap_2.
Qed.

Lemma freed_Forall_live l (e e' : E) ps :
  freed l e e' -> NoDup ((Some <$> l) ++ ps) -> Forall (live_ptr e) ps -> Forall (live_ptr e') ps.
Proof.
  intros Hf (_ & Hd & _)%NoDup_app Hl. apply Forall_forall. intros p Hp.
  rewrite Forall_forall in Hl. eapply freed_live_ptr; [done| |by apply Hl].
  intros Hin. by apply (Hd p).
Qed.

(** [create_pending_version] of Serval and Caracal. *)
Lemma wp_new_pending (e : E) (Q : addr -> E -> Prop) :
  heap_ok e ->
  (forall q e', heap_ok e' -> versions e !! q = None -> pending e' q ->
     (forall x, x <> q -> versions e' !! x = versions e !! x) ->
     pool e' = pool e -> rows e' = rows e -> same_control e e' -> Q q e') ->
  wp (version ← new_version (mkVersion None PENDING false); stat_increment Create;; mret version) Q e.
Proof.
  intros Hok HQ. wp_step.
  destruct (new_version_spec e false Hok)
    as (e1 & Hnew & Hok1 & Hp1 & Hnone & Hv1 & _ & Hpool & Hused & Hrows & Hlock & Hh & _).
  unfold wp at 1. rewrite Hnew. wp_step. unfold wp at 1, stat_increment, modifyM. wp_steps.
  apply HQ; try done; eauto with mvdcc.
Qed.
End Frames.

(** ** A small heap for concrete runs: three stable versions *)
Module SmallHeap.
Section Env.
Context {P R : Type}.
Local Abbreviation E := (Env P R).

Definition env : E :=
  mkEnv {[1%positive := mkVersion (Some 11%positive) STABLE false;
          2%positive := mkVersion (Some 12%positive) STABLE false;
          3%positive := mkVersion (Some 13%positive) STABLE false]}
        {[11%positive; 12%positive; 13%positive]} 20%positive Stat_init [] 0 ∅ RWLock_init [].
Lemma env_lookup a v : versions env !! a = Some v ->
  a = 1%positive /\ v = mkVersion (Some 11%positive) STABLE false \/
  a = 2%positive /\ v = mkVersion (Some 12%positive) STABLE false \/
  a = 3%positive /\ v = mkVersion (Some 13%positive) STABLE false.
Proof.
  unfold env. cbn [versions].
  intros [(<- & <-)|(_ & [(<- & <-)|(_ & [<- <-]%lookup_singleton_Some)]%lookup_insert_Some)]%lookup_insert_Some;
    auto.
Qed.
Lemma env_ok : heap_ok env.
Proof.
  constructor.
  - intros a v [[-> _]|[[-> _]|[-> _]]]%env_lookup; by vm_compute.
  - intros a v r [[_ ->]|[[_ ->]|[_ ->]]]%env_lookup [= <-]; simpl; set_solver.
  - intros r. simpl. rewrite !elem_of_union, !elem_of_singleton. intros [[-> | ->]| ->]; by vm_compute.
  - intros a1 a2 v1 v2 r [[-> ->]|[[-> ->]|[-> ->]]]%env_lookup
      [[-> ->]|[[-> ->]|[-> ->]]]%env_lookup [=] [=]; congruence.
Qed.

Lemma env_collectable p : p ∈ [Some 1; Some 2; Some 3]%positive -> collectable_ptr env p.
Proof.
  intros Hp. repeat (apply elem_of_cons in Hp as [->|Hp]; [by do 2 eexists|]).
  by apply not_elem_of_nil in Hp.
Qed.
End Env.
End SmallHeap.
