(* ===== verification/RowLatches.v ===== *)
(** * RowLatches: the latches of the rows and of a controller

    The instance of [Latches] for the environments of the protocols: the
    controller's latch is above those of the rows.  Which actions leave the
    latches alone is decided action by action ([keeps], [stores]); [latching]
    is the tactic that does it. *)
From S2P Require Import Prelude Conc RWLock Latches Memory.

Section RowLatches.
Context {P R : Type} (lock_of : R -> RWLock) (with_lock : RWLock -> R -> R).
Hypothesis lock_of_with : forall l v, lock_of (with_lock l v) = l.
Local Abbreviation E := (Env P R).

Definition latch_of_row (val : addr) : LockAt E :=
  mkLockAt (fun e => lock_of <$> rows e !! val) (fun l e => set_rows (alter (with_lock l) val) e).
Definition controller_latch : LockAt E := mkLockAt (fun e => Some (lock_ e)) set_lock_.

Definition row_latches : Latches E :=
  mkLatches E ptr (fun o => match o with Some val => latch_of_row val | None => controller_latch end)
    (fun o => match o with Some _ => 0 | None => 1 end)%nat
    (fun e e' => rows e' = rows e /\ lock_ e' = lock_ e).

Lemma row_latches_ok : latches_ok row_latches.
Proof.
  constructor.
  - done.
  - by intros s s' [H1 H2]; split.
  - intros s1 s2 s3 [H1 H2] [H3 H4]. split; congruence.
  - intros s s' [a|] [H1 H2]; cbn; congruence.
  - intros s [a|] x y; cbn; [|done]. rewrite lookup_alter_eq. destruct (rows s !! a) as [v|]; [|done]. intros _. cbn.
    by rewrite lock_of_with.
  - intros s [a|] [b|] y Hne; cbn; try done. rewrite lookup_alter_ne; [done|congruence].
Qed.

(** [m] touches neither the rows nor the controller's latch. *)
Definition keeps {A} (m : M E A) : Prop := forall e a e', m e = Ok (a, e') -> rows e' = rows e /\ lock_ e' = lock_ e.
(** [m] keeps the latches when the row [val] is [v]. *)
Definition stores {A} (val : addr) (v : R) (m : M E A) : Prop :=
  forall e a e', rows e !! val = Some v -> m e = Ok (a, e') ->
    forall l, get_lock (latch row_latches l) e' = get_lock (latch row_latches l) e.

Lemma bind_ok {A B} (m : M E A) (f : A -> M E B) e r :
  mbind f m e = Ok r -> exists a e1, m e = Ok (a, e1) /\ f a e1 = Ok r.
Proof. unfold mbind, M_bind. destruct (m e) as [[a e1]|]; [|done]. intros H. by exists a, e1. Qed.

Lemma keeps_bind {A B} (m : M E A) (f : A -> M E B) : keeps m -> (forall a, keeps (f a)) -> keeps (mbind f m).
Proof.
  intros Hm Hf e b e' (a & e1 & H1 & H2)%bind_ok. destruct (Hm _ _ _ H1), (Hf _ _ _ _ H2). split; congruence.
Qed.
Lemma keeps_ret {A} (a : A) : keeps (mret a).
Proof. by intros e b e' [= _ <-]. Qed.
Lemma keeps_lift {A} (o : outcome A) : keeps (lift o).
Proof. intros e b e'. unfold lift. destruct o; [|done]. by intros [= _ <-]. Qed.
Lemma keeps_get : keeps getM.
Proof. by intros e b e' [= _ <-]. Qed.
Lemma keeps_fail {A} err : keeps (failM (A := A) err).
Proof. by intros e b e'. Qed.
Lemma keeps_read {A} (f : E -> A) : keeps (readM f).
Proof. by intros e b e' [= _ <-]. Qed.
Lemma keeps_modify f : (forall e, rows (f e) = rows e /\ lock_ (f e) = lock_ e) -> keeps (modifyM f).
Proof. intros Hf e b e' [= _ <-]. apply Hf. Qed.
Lemma keeps_forM {A B} (l : list A) (f : A -> M E B) : (forall x, keeps (f x)) -> keeps (forM l f).
Proof.
  intros Hf. induction l as [|x l IH]; [apply keeps_ret|]. cbn. apply keeps_bind; [done|]. intros y.
  apply keeps_bind; [done|]. intros ys. apply keeps_ret.
Qed.
Lemma keeps_new_version v : keeps (new_version v).
Proof. by intros e b e' [= _ <-]. Qed.
Lemma keeps_new_record : keeps new_record.
Proof. by intros e b e' [= _ <-]. Qed.
Lemma keeps_load_row a : keeps (load_row a).
Proof. apply keeps_bind; [apply keeps_get|]. intros e. apply keeps_lift. Qed.

Lemma keeps_assert `{BuildConfig} b : keeps (assertM b).
Proof. apply keeps_lift. Qed.
Lemma keeps_deref {A} (o : option A) : keeps (derefM o).
Proof. apply keeps_lift. Qed.
Lemma keeps_stat_add t n : keeps (stat_add t n).
Proof. by apply keeps_modify. Qed.
Lemma keeps_stat_increment t : keeps (stat_increment t).
Proof. by apply keeps_modify. Qed.
Lemma keeps_load_version p : keeps (load_version p).
Proof. apply keeps_bind; [apply keeps_lift|intros a]. apply keeps_bind; [apply keeps_get|intros e; apply keeps_lift]. Qed.
Lemma keeps_store_version p v : keeps (store_version p v).
Proof.
  apply keeps_bind; [apply keeps_lift|intros a]. apply keeps_bind; [apply keeps_get|intros e].
  apply keeps_bind; [apply keeps_lift|intros w]. by apply keeps_modify.
Qed.
Lemma keeps_collect p : keeps (collect_version p).
Proof.
  apply keeps_bind; [apply keeps_load_version|intros v]. apply keeps_bind.
  { unfold delete_record. destruct (rec v); [|apply keeps_ret]. apply keeps_bind; [apply keeps_get|intros e].
    case_decide; [by apply keeps_modify|apply keeps_fail]. }
  intros []. apply keeps_bind; [|intros []; apply keeps_stat_increment].
  unfold delete_version. destruct p; [|apply keeps_ret]. apply keeps_bind; [apply keeps_get|intros e].
  apply keeps_bind; [apply keeps_lift|intros w]. by apply keeps_modify.
Qed.

Lemma keeps_quiet {A} (m : M E A) : keeps m -> quiet row_latches m.
Proof. intros Hm e b e' H l. destruct (Hm _ _ _ H) as [H1 H2]. destruct l; cbn; congruence. Qed.
Lemma keeps_idle {A} (m : M E A) : keeps m -> idle row_latches m.
Proof. intros Hm e b e' H. by apply (Hm _ b). Qed.

Lemma quiet_bind {A B} (m : M E A) (f : A -> M E B) :
  quiet row_latches m -> (forall a, quiet row_latches (f a)) -> quiet row_latches (mbind f m).
Proof.
  intros Hm Hf e b e' (a & e1 & H1 & H2)%bind_ok l. by rewrite (Hf _ _ _ _ H2), (Hm _ _ _ H1).
Qed.

Lemma quiet_load {A} val (f : R -> M E A) : (forall v, stores val v (f v)) -> quiet row_latches (mbind f (load_row val)).
Proof.
  intros Hf e b e' (v & e1 & H1 & H2)%bind_ok l. unfold load_row, derefM, lift, deref, getM, mbind, M_bind in H1. cbn in H1.
  destruct (rows e !! val) as [w|] eqn:Hw; [|done]. injection H1 as -> ->. by apply (Hf v e1 b e').
Qed.

Lemma stores_bind_with {A B} (Q : A -> Prop) val v (m : M E A) (f : A -> M E B) :
  keeps m -> (forall e a e', m e = Ok (a, e') -> Q a) -> (forall a, Q a -> stores val v (f a)) -> stores val v (mbind f m).
Proof.
  intros Hm HQ Hf e b e' Hv (a & e1 & H1 & H2)%bind_ok l. destruct (Hm _ _ _ H1) as [Hr Hl].
  rewrite (Hf a (HQ _ _ _ H1) e1 b e'); [|by rewrite Hr|done]. destruct l; cbn; congruence.
Qed.
Lemma stores_bind {A B} val v (m : M E A) (f : A -> M E B) :
  keeps m -> (forall a, stores val v (f a)) -> stores val v (mbind f m).
Proof. intros Hm Hf. by apply (stores_bind_with (fun _ => True)). Qed.
Lemma stores_keeps {A} val v (m : M E A) : keeps m -> stores val v m.
Proof. intros Hm e a e' _ H. by apply (keeps_quiet m Hm e a). Qed.

Lemma stores_store val v w : lock_of w = lock_of v -> stores val v (store_row val w).
Proof.
  intros Hw e a e' Hv [= _ <-] [b|]; cbn; [|done]. destruct (decide (b = val)) as [->|Hne].
  - rewrite lookup_insert_eq, Hv. cbn. by rewrite Hw.
  - by rewrite lookup_insert_ne.
Qed.
Lemma stores_store_then {A} val v w (f : unit -> M E A) :
  lock_of w = lock_of v -> (forall u, keeps (f u)) -> stores val v (mbind f (store_row val w)).
Proof.
  intros Hw Hf e b e' Hv (a & e1 & H1 & H2)%bind_ok l. rewrite (keeps_quiet _ (Hf a) _ _ _ H2). by apply (stores_store val v w Hw _ a).
Qed.
End RowLatches.

Create HintDb keeps.
#[export] Hint Resolve keeps_ret keeps_lift keeps_get keeps_fail keeps_read keeps_new_version keeps_new_record
  keeps_load_row keeps_assert keeps_deref keeps_stat_add keeps_stat_increment keeps_load_version keeps_store_version keeps_collect : keeps.

(** Takes an action apart into those of the hint database. *)
Ltac keeping :=
  repeat first
    [ solve [auto with keeps nocore]
    | apply keeps_forM; intros ?
    | apply keeps_bind; [|intros ?]
    | apply keeps_modify; by split
    | match goal with |- keeps (match ?x with _ => _ end) => destruct x end
    | progress cbn beta iota zeta ].
