(* ===== verification/Txs.v ===== *)
(** * Txs: the transactions of an epoch

    What the initialisation phases of Serval and Caracal share: both walk the
    write sets of the transactions assigned to a worker and append a pending
    version per update.  [L a] is the list of the writes a worker has made to
    row [a]: serial number and version.  The loops are verified once, for any
    protocol whose [append_pending_version] records its write. *)
From S2P Require Import Prelude Ycsb Conc Memory.

(** What [terminate_transaction] leaves in the write set. *)
Lemma lookup_cleared (t : Z) (w : gmap Z (list Z)) (ts : gset Z) :
  set_fold (fun table_id w => <[table_id := []]> w) w ts !! t =
  if decide (t ∈ ts) then Some [] else w !! t.
Proof.
  unfold set_fold. simpl. rewrite (decide_ext (t ∈ ts) (t ∈ elements ts)) by (by rewrite elem_of_elements).
  generalize (elements ts) as l. induction l as [|x l IH]; [done|]. simpl.
  destruct (decide (x = t)) as [->|Hne].
  - rewrite lookup_insert_eq, decide_True by set_solver. done.
  - rewrite lookup_insert_ne, IH by done. destruct (decide (t ∈ l)).
    + by rewrite decide_True by set_solver.
    + by rewrite decide_False by set_solver.
Qed.

Section Txs.
Context (find : Z -> Z -> option addr) (table : Z) (W : gset addr).
Implicit Types L : addr -> list (Z * ptr).

(** ** Writes of a transaction *)
Definition op_row (ops : list Operation) (j : nat) : option addr :=
  op ← ops !! j; find table (index_ op).
Definition rows_written (ops : list Operation) (ws : list nat) : list addr := omap (op_row ops) ws.

(** Operations that may be appended: distinct keys, known to the index, not yet written. *)
Definition appendable (ops : list Operation) (ws : list nat) : Prop :=
  NoDup ws /\ NoDup (index_ <$> ops) /\
  forall j, j ∈ ws -> exists op a, ops !! j = Some op /\ pending_ op = None /\
    is_key (index_ op) /\ find table (index_ op) = Some a /\ a ∈ W.

(** [ops'] is [ops] with the pending versions of [ws] filled in, as recorded in [L]. *)
Definition installed L (serial : Z) (ops ops' : list Operation) (ws : list nat) : Prop :=
  length ops' = length ops /\
  forall j op, ops !! j = Some op -> exists op', ops' !! j = Some op' /\
    ope_ op' = ope_ op /\ index_ op' = index_ op /\ value_ op' = value_ op /\
    (j ∉ ws -> op' = op) /\
    (j ∈ ws -> exists a, find table (index_ op) = Some a /\ is_Some (pending_ op') /\
                         (serial, pending_ op') ∈ L a).

(** [L'] extends [L] by one write of [serial] to each row of [as_]. *)
Definition extends L L' (serial : Z) (as_ : list addr) : Prop :=
  forall a, exists more, L' a = L a ++ more /\
    ids more = if decide (a ∈ as_) then [serial] else [].

Definition record_write L (a : addr) (w : Z * ptr) : addr -> list (Z * ptr) :=
  fun b => if decide (b = a) then L a ++ [w] else L b.

(** ** Writes of several transactions, each with its serial number *)
Implicit Types b : list (Z * OperationSet).
Definition written_serials b (a : addr) : list Z :=
  (filter (fun st => a ∈ rows_written (rw_set_ st.2) (w_set_ st.2)) b).*1.
Definition all_installed L b (outs : list OperationSet) : Prop :=
  Forall2 (fun st out => installed L st.1 (rw_set_ st.2) (rw_set_ out) (w_set_ st.2) /\
                         w_set_ out = w_set_ st.2) b outs.

Lemma appendable_insert j op op' ops ws :
  appendable ops (j :: ws) -> ops !! j = Some op -> index_ op' = index_ op ->
  appendable (<[j := op']> ops) ws /\ rows_written (<[j := op']> ops) ws = rows_written ops ws.
Proof.
  intros (Hnd & Hkeys & Hall) Hj Hidx. apply NoDup_cons in Hnd as [Hjw Hnd].
  assert (Hidxs : index_ <$> <[j := op']> ops = index_ <$> ops).
  { rewrite list_fmap_insert, Hidx. apply list_insert_id. by rewrite list_lookup_fmap, Hj. }
  split.
  - split_and!; [done|by rewrite Hidxs|]. intros k Hk.
    destruct (Hall k) as (opk & a & Hk' & ? & ? & ? & ?); [set_solver|]. exists opk, a.
    rewrite list_lookup_insert_ne by (intros ->; done). done.
  - unfold rows_written. clear -Hjw. induction ws as [|k ws IH]; [done|]. csimpl.
    assert (op_row (<[j := op']> ops) k = op_row ops k) as ->.
    { unfold op_row. rewrite list_lookup_insert_ne; [done|]. intros ->. set_solver. }
    rewrite IH by set_solver. done.
Qed.

Lemma installed_mono L L' s ops ops' ws' :
  (forall a, L a ⊆ L' a) -> installed L s ops ops' ws' -> installed L' s ops ops' ws'.
Proof.
  intros Hsub [Hlen Hin]. split; [done|]. intros j op Hj.
  destruct (Hin j op Hj) as (op' & ? & ? & ? & ? & ? & Hp). exists op'. split_and!; try done.
  intros Hjw. destruct (Hp Hjw) as (a & ? & ? & ?). exists a. split_and!; try done. by apply Hsub.
Qed.

Lemma all_installed_mono L L' b outs :
  (forall a, L a ⊆ L' a) -> all_installed L b outs -> all_installed L' b outs.
Proof.
  intros Hsub Hall. eapply Forall2_impl; [exact Hall|]. intros st out [? ?]. split; [by eapply installed_mono|done].
Qed.

Lemma written_serials_cons s tx b a :
  written_serials ((s, tx) :: b) a
  = (if decide (a ∈ rows_written (rw_set_ tx) (w_set_ tx)) then [s] else []) ++ written_serials b a.
Proof. unfold written_serials. rewrite filter_cons. simpl. by destruct (decide _). Qed.

Lemma elem_of_written_serials b a x :
  x ∈ written_serials b a <->
  exists tx, (x, tx) ∈ b /\ a ∈ rows_written (rw_set_ tx) (w_set_ tx).
Proof.
  unfold written_serials. rewrite list_elem_of_fmap. setoid_rewrite list_elem_of_filter. split.
  - intros ([s tx] & -> & ? & ?). by exists tx.
  - intros (tx & ? & ?). by exists (x, tx).
Qed.

(** The transactions with the serials [ss]: serial [s] is [txs[head + s]]. *)
Definition assigned (txs : list OperationSet) (head : Z) (ss : list Z) : list (Z * OperationSet) :=
  omap (fun s => tx ← txs !! Z.to_nat (head + s); Some (s, tx)) ss.
Definition txs_ready (txs : list OperationSet) (head : Z) (ss : list Z) : Prop :=
  Forall (fun s => exists tx, txs !! Z.to_nat (head + s) = Some tx /\
                              appendable (rw_set_ tx) (w_set_ tx)) ss.
(** Serial [s] writes row [a]. *)
Definition writes_row (txs : list OperationSet) (head s : Z) (a : addr) : Prop :=
  match txs !! Z.to_nat (head + s) with
  | Some tx => a ∈ rows_written (rw_set_ tx) (w_set_ tx)
  | None => False
  end.
#[global] Instance writes_row_dec txs head s a : Decision (writes_row txs head s a).
Proof. unfold writes_row. destruct (txs !! _); apply _. Defined.

Lemma assigned_ready txs head ss :
  txs_ready txs head ss ->
  Forall2 (fun s st => st.1 = s /\ txs !! Z.to_nat (head + s) = Some st.2 /\
             appendable (rw_set_ st.2) (w_set_ st.2)) ss (assigned txs head ss).
Proof.
  induction 1 as [|s ss (tx & Htx & Happ) _ IH]; [constructor|]. unfold assigned in *. csimpl.
  rewrite Htx. csimpl. by constructor.
Qed.

(** Only the rows of [W] matter to what is installed. *)
Lemma assigned_installed_mono L L' txs head ss outs :
  (forall a, a ∈ W -> L a ⊆ L' a) -> txs_ready txs head ss ->
  all_installed L (assigned txs head ss) outs -> all_installed L' (assigned txs head ss) outs.
Proof.
  intros Hsub Hready%assigned_ready. revert outs Hready. generalize (assigned txs head ss) as b. intros b.
  revert ss. induction b as [|st b IH]; intros ss outs Hready Hall.
  { apply Forall2_nil_inv_l in Hall as ->. constructor. }
  apply Forall2_cons_inv_l in Hall as (out & outs' & [[Hlen Hin] Hw] & Hall & ->).
  apply Forall2_cons_inv_r in Hready as (s & ss' & (_ & _ & _ & _ & Hj) & Hready & ->).
  constructor; [|by eapply IH]. split; [|done]. split; [done|]. intros j op Hop.
  destruct (Hin j op Hop) as (op' & ? & ? & ? & ? & ? & Hwr). exists op'. split_and!; try done.
  intros Hjw. destruct (Hwr Hjw) as (a & Ha & ? & ?). exists a. split_and!; try done.
  apply Hsub; [|done]. destruct (Hj j Hjw) as (op2 & a2 & Hop2 & _ & _ & Ha2 & HaW).
  assert (a2 = a) as -> by congruence. done.
Qed.

Lemma elem_of_assigned txs head ss st :
  st ∈ assigned txs head ss <-> st.1 ∈ ss /\ txs !! Z.to_nat (head + st.1) = Some st.2.
Proof.
  unfold assigned. rewrite list_elem_of_omap. split.
  - intros (s & Hs & Heq). destruct (txs !! _) as [tx|] eqn:Htx; [|done]. by injection Heq as <-.
  - intros [Hs Htx]. exists st.1. split; [done|]. rewrite Htx. by destruct st.
Qed.

Lemma elem_of_assigned_serials txs head ss a x :
  x ∈ written_serials (assigned txs head ss) a <-> x ∈ ss /\ writes_row txs head x a.
Proof.
  rewrite elem_of_written_serials. setoid_rewrite elem_of_assigned. unfold writes_row. simpl. split.
  - by intros (tx & [? ->] & ?).
  - intros [? Hw]. destruct (txs !! _) as [tx|]; [|done]. by exists tx.
Qed.

(** ** The operation sets the phase leaves in [txs]

    Worker [c] returns the operation sets of the serials [ss c], in that order;
    the phase has stored them at their places. *)
Definition serial_outputs (ss : nat -> list Z) (outss : list (list OperationSet)) : list (Z * OperationSet) :=
  concat (imap (fun c outs => zip (ss c) outs) outss).
Definition store_outputs (txs : list OperationSet) (head : Z) (ps : list (Z * OperationSet)) : list OperationSet :=
  foldr (fun p t => <[Z.to_nat (head + p.1) := p.2]> t) txs ps.

Lemma length_store_outputs txs head ps : length (store_outputs txs head ps) = length txs.
Proof. induction ps as [|p ps IH]; [done|]. simpl. by rewrite length_insert. Qed.

Lemma store_outputs_lookup txs head ps s out :
  0 <= head -> Forall (fun p => 0 <= p.1) ps -> 0 <= s -> (Z.to_nat (head + s) < length txs)%nat ->
  (forall o, (s, o) ∈ ps -> o = out) -> (s, out) ∈ ps ->
  store_outputs txs head ps !! Z.to_nat (head + s) = Some out.
Proof.
  intros Hh Hps Hs Hlt Hfun Hin. induction ps as [|[s' o] ps IH]; [by apply not_elem_of_nil in Hin|].
  apply Forall_cons in Hps as [Hs' Hps]. simpl in *. destruct (decide (s' = s)) as [->|Hne].
  - rewrite list_lookup_insert_eq by (by rewrite length_store_outputs). f_equal. apply Hfun. by left.
  - rewrite list_lookup_insert_ne by lia. apply IH; [done|set_solver|].
    apply elem_of_cons in Hin as [[=]|]; [congruence|done].
Qed.

Lemma store_outputs_ne txs head ps x :
  Forall (fun p => head + p.1 <> Z.of_nat x /\ 0 <= head + p.1) ps -> store_outputs txs head ps !! x = txs !! x.
Proof.
  induction 1 as [|p ps Hp _ IH]; [done|]. simpl. by rewrite list_lookup_insert_ne by lia.
Qed.

Lemma elem_of_serial_outputs ss outss s out :
  (s, out) ∈ serial_outputs ss outss <-> exists c outs k, outss !! c = Some outs /\ ss c !! k = Some s /\ outs !! k = Some out.
Proof.
  unfold serial_outputs. rewrite list_elem_of_In, in_concat. split.
  - intros (l & Hl & Hin). apply list_elem_of_In, elem_of_lookup_imap in Hl as (c & outs & -> & Hc).
    apply list_elem_of_In, list_elem_of_lookup in Hin as [k Hk].
    apply lookup_zip_Some in Hk as [? ?]. by exists c, outs, k.
  - intros (c & outs & k & Hc & Hs & Ho). exists (zip (ss c) outs). split; apply list_elem_of_In.
    + apply elem_of_lookup_imap. by exists c, outs.
    + apply list_elem_of_lookup. exists k. by apply lookup_zip_Some.
Qed.

(** Every serial the workers were given is installed. *)
Lemma all_installed_stored L txs head ss outss n :
  0 <= head -> length outss = n ->
  (forall c outs, outss !! c = Some outs -> txs_ready txs head (ss c) /\
     all_installed L (assigned txs head (ss c)) outs) ->
  (forall c s, s ∈ ss c -> 0 <= s) -> (forall c, NoDup (ss c)) ->
  (forall c d s, (c < n)%nat -> (d < n)%nat -> s ∈ ss c -> s ∈ ss d -> c = d) ->
  forall c s, (c < n)%nat -> s ∈ ss c -> exists tx out, txs !! Z.to_nat (head + s) = Some tx /\
    store_outputs txs head (serial_outputs ss outss) !! Z.to_nat (head + s) = Some out /\
    appendable (rw_set_ tx) (w_set_ tx) /\ installed L s (rw_set_ tx) (rw_set_ out) (w_set_ tx) /\
    w_set_ out = w_set_ tx.
Proof.
  intros Hh Hn Hall Hpos Hnd Hdisj c s Hc Hs.
  assert (Hget : forall d outs k x, outss !! d = Some outs -> ss d !! k = Some x ->
    exists tx out, txs !! Z.to_nat (head + x) = Some tx /\ outs !! k = Some out /\
      appendable (rw_set_ tx) (w_set_ tx) /\ installed L x (rw_set_ tx) (rw_set_ out) (w_set_ tx) /\ w_set_ out = w_set_ tx).
  { intros d outs k x Hd Hk. destruct (Hall d outs Hd) as [Hready%assigned_ready Hinst].
    destruct (Forall2_lookup_l _ _ _ k x Hready Hk) as ([x' tx] & Hst & Hx & Htx & Happ). cbn [fst snd] in *. subst x'.
    destruct (Forall2_lookup_l _ _ _ k _ Hinst Hst) as (out & Hout & Hi & Hw). by exists tx, out. }
  destruct (lookup_lt_is_Some_2 outss c) as [outs Houts]; [lia|].
  apply list_elem_of_lookup in Hs as [k Hk]. destruct (Hget c outs k s Houts Hk) as (tx & out & Htx & Hout & Happ & Hi & Hw).
  exists tx, out. split; [done|]. split; [|done]. apply store_outputs_lookup; try done.
  - apply Forall_forall. intros [x o] (d & outs' & k' & _ & Hx & _)%elem_of_serial_outputs. simpl.
    apply (Hpos d). by eapply list_elem_of_lookup_2.
  - apply (Hpos c). by eapply list_elem_of_lookup_2.
  - by eapply lookup_lt_Some.
  - intros o (d & outs' & k' & Hd & Hx & Ho)%elem_of_serial_outputs.
    assert (d = c) as ->.
    { apply (Hdisj d c s); [apply lookup_lt_Some in Hd; lia|done|by eapply list_elem_of_lookup_2|by eapply list_elem_of_lookup_2]. }
    pose proof (NoDup_lookup _ _ _ _ (Hnd c) Hx Hk) as ->. congruence.
  - apply elem_of_serial_outputs. by exists c, outs, k.
Qed.

(** ** The loops, for a protocol with objects of type [T] *)
Section Loops.
Context {S T : Type} (R G : S -> S -> Prop).
Context (serial : T -> Z) (keys : T -> list Z) (ok : T -> Prop) (A : T -> (addr -> list (Z * ptr)) -> S -> Prop).
Context (append : T -> Z -> ptr -> prog S (ptr * T)).

(** One pending version for each position of [ws]; the operations get them. *)
Fixpoint append_all (s : T) (ops : list Operation) (ws : list nat) : prog S (list Operation * T) :=
  match ws with
  | [] => mret (ops, s)
  | j :: ws' =>
      op ← act (lift (deref (ops !! j)));
      '(p, s') ← append s (index_ op) (pending_ op);
      append_all s' (<[j := mkOperation (ope_ op) (index_ op) (value_ op) p]> ops) ws'
  end.

Hypothesis A_stable : forall s L, stable R (A s L).
Hypothesis G_refl : forall e, G e e.
Hypothesis find_inj : forall k1 k2 a, is_key k1 -> is_key k2 ->
  find table k1 = Some a -> find table k2 = Some a -> k1 = k2.
(** Whether a row has room for the writes of these serials. *)
Context (fits : list Z -> Prop).
Hypothesis fits_prefix : forall l1 l2, fits (l1 ++ l2) -> fits l1.
Hypothesis rg_append : forall L s a key,
  ok s -> find table key = Some a -> a ∈ W -> key ∉ keys s ->
  Forall (fun q => q.1 < serial s) (L a) -> fits (ids (L a) ++ [serial s]) ->
  rg R G (A s L) (append s key None)
    (fun r e => (is_Some r.1 /\ ok r.2 /\ serial r.2 = serial s /\ keys r.2 = keys s ++ [key]) /\
       A r.2 (record_write L a (serial s, r.1)) e).

Lemma rg_quiet {B} s L (m : M S B) x :
  (forall e, m e = Ok (x, e)) -> rg R G (A s L) (act m) (fun y e => y = x /\ A s L e).
Proof.
  intros Hm. apply rg_act.
  - intros y e e' [-> HA] HR. split; [done|]. by eapply A_stable.
  - intros e HA. unfold wp. rewrite Hm. by split_and!.
Qed.

Lemma rg_append_all ws : forall L s ops,
  ok s -> appendable ops ws ->
  (forall j op, j ∈ ws -> ops !! j = Some op -> index_ op ∉ keys s) ->
  (forall j a, j ∈ ws -> op_row ops j = Some a -> Forall (fun q => q.1 < serial s) (L a) /\
     fits (ids (L a) ++ [serial s])) ->
  rg R G (A s L) (append_all s ops ws)
    (fun r e => exists L', (ok r.2 /\ serial r.2 = serial s /\
       extends L L' (serial s) (rows_written ops ws) /\
       installed L' (serial s) ops r.1 ws) /\ A r.2 L' e).
Proof.
  induction ws as [|j ws IH]; intros L s ops Hw Happ Hkeys Hlt; cbn [append_all].
  - apply rg_mret. intros e He. exists L. split; [|done]. split_and!; try done.
    + intros a. exists []. rewrite app_nil_r, decide_False; [done|]. apply not_elem_of_nil.
    + split; [done|]. intros j op Hj. exists op. split_and!; try done.
      intros Hin. by apply not_elem_of_nil in Hin.
  - pose proof Happ as (Hnd & Hkd & Hall). pose proof Hnd as [Hjw Hnd']%NoDup_cons.
    destruct (Hall j) as (op & a & Hj & Hpend & Hik & Hfind & HaW); [set_solver|].
    assert (Hrow : op_row ops j = Some a) by (unfold op_row; rewrite Hj; done).
    eapply rg_bind; [apply (rg_quiet s L _ op); intros e; unfold lift; by rewrite Hj|].
    intros o; cbn beta. apply rg_pure. intros ->. rewrite Hpend.
    eapply rg_bind; [apply (rg_append L s a (index_ op)); try done|].
    { apply (Hkeys j); [set_solver|done]. }
    { apply (Hlt j); [set_solver|done]. }
    { apply (Hlt j); [set_solver|done]. }
    intros [p s1]; cbn beta iota. apply rg_pure. simpl. intros (Hp & Hw1 & Hser1 & Hkeys1).
    set (op' := mkOperation (ope_ op) (index_ op) (value_ op) p).
    destruct (appendable_insert j op op' ops ws Happ Hj eq_refl) as [Happ' Hrows].
    assert (Hsame : forall k opk, ops !! k = Some opk -> index_ opk = index_ op -> j = k).
    { intros k opk Hopk Heq. apply (NoDup_lookup (index_ <$> ops) j k (index_ op) Hkd);
        rewrite list_lookup_fmap, ?Hj, ?Hopk; simpl; congruence. }
    assert (Hdiff : forall k a', k ∈ ws -> op_row ops k = Some a' -> a' <> a).
    { intros k a' Hk Hka ->. destruct (Hall k) as (opk & ak & Hopk & _ & Hikk & _ & _); [set_solver|].
      unfold op_row in Hka. rewrite Hopk in Hka. simpl in Hka.
      pose proof (find_inj _ _ _ Hik Hikk Hfind Hka) as Heq.
      by assert (j = k) as -> by (by eapply Hsame). }
    set (L1 := record_write L a (serial s, p)).
    eapply rg_conseq; [apply (IH L1 s1 (<[j := op']> ops)); try done|done|].
    + intros k opk Hk Hopk. rewrite list_lookup_insert_ne in Hopk by (intros ->; done).
      rewrite Hkeys1. intros [Hin|Hin]%elem_of_app.
      * by apply (Hkeys k opk); [set_solver|..].
      * apply list_elem_of_singleton in Hin. apply Hjw. by rewrite (Hsame k opk).
    + intros k a' Hk Hka. assert (Hka' : op_row ops k = Some a').
      { unfold op_row in *. rewrite list_lookup_insert_ne in Hka by (intros ->; done). done. }
      unfold L1, record_write. rewrite decide_False by (by apply (Hdiff k)).
      rewrite Hser1. apply (Hlt k); [set_solver|done].
    + intros [ops' s'] e (L' & (Hw' & Hser' & Hext & Hinst) & HA). simpl in *. rewrite Hser1 in *.
      exists L'. split; [|done]. split_and!; try done.
      * intros b. destruct (Hext b) as (more & Hm & Hids). rewrite Hrows in Hids.
        unfold rows_written. simpl. rewrite Hrow. fold (rows_written ops ws).
        unfold L1, record_write in Hm. destruct (decide (b = a)) as [->|Hne].
        -- exists ((serial s, p) :: more). rewrite Hm, <- app_assoc. split; [done|].
           rewrite decide_True by set_solver. rewrite decide_False in Hids.
           ++ unfold ids in *. csimpl. by rewrite Hids.
           ++ intros Hin. apply list_elem_of_omap in Hin as (k & Hk & Hka). by apply (Hdiff k a).
        -- exists more. split; [done|]. rewrite Hids.
           destruct (decide (b ∈ rows_written ops ws)); [by rewrite decide_True by set_solver|].
           rewrite decide_False; [done|]. set_solver.
      * destruct Hinst as [Hlen Hinst]. split; [by rewrite Hlen, length_insert|].
        intros k opk Hk. destruct (decide (k = j)) as [->|Hne].
        -- assert (opk = op) as -> by congruence.
           destruct (Hinst j op') as (op2 & Hj2 & H1 & H2 & H3 & H4 & _).
           { apply list_lookup_insert_eq. by eapply lookup_lt_Some. }
           exists op2. rewrite H4 by done. split_and!; try done; [by rewrite H4 in Hj2| |].
           ++ intros Hn. set_solver.
           ++ intros _. exists a. split_and!; [done|done|]. simpl.
              destruct (Hext a) as (more & Hm & _). rewrite Hm. unfold L1, record_write.
              rewrite decide_True by done. set_solver.
        -- destruct (Hinst k opk) as (op2 & Hk2 & H1 & H2 & H3 & H4 & H5).
           { by rewrite list_lookup_insert_ne. }
           exists op2. split_and!; try done; intros Hk'; [apply H4|apply H5]; set_solver.
Qed.

(** The transactions at the positions [is] of the worker; [start] gives the
    object the transaction's serial, [terminate] empties the write set. *)
Context (start : T -> Z -> T) (terminate : T -> T) (index serial_of : Z -> Z).
Fixpoint initialize_all (txs : list OperationSet) (s : T) (is_ : list Z) : prog S (list OperationSet * T) :=
  match is_ with
  | [] => mret ([], s)
  | i :: is' =>
      tx ← act (lift (vector_at txs (index i)));
      '(ops, s1) ← append_all (start s i) (rw_set_ tx) (w_set_ tx);
      '(done, s2) ← initialize_all txs (terminate s1) is';
      mret (mkOperationSet ops (w_set_ tx) :: done, s2)
  end.

(** [between s]: what the object keeps from one transaction to the next. *)
Context (between : T -> Prop) (valid : Z -> Prop).
Hypothesis start_ok : forall s i, between s -> valid i ->
  ok (start s i) /\ serial (start s i) = serial_of i /\ keys (start s i) = [].
Hypothesis terminate_ok : forall s, ok s -> between (terminate s).
Hypothesis start_A : forall s i L e, A s L e -> A (start s i) L e.
Hypothesis terminate_A : forall s L e, A s L e -> A (terminate s) L e.

Lemma extends_below L L' s as_ s' a :
  extends L L' s as_ -> s < s' -> Forall (fun q => q.1 < s) (L a) -> Forall (fun q => q.1 < s') (L' a).
Proof.
  intros Hext Hs Hlt. destruct (Hext a) as (more & -> & Hids). apply Forall_app. split.
  - eapply Forall_impl; [exact Hlt|]. simpl. intros; lia.
  - apply Forall_forall. intros q Hq. assert (q.1 ∈ ids more) as Hin by (by apply list_elem_of_fmap_2).
    rewrite Hids in Hin. case_decide; [|by apply not_elem_of_nil in Hin].
    apply list_elem_of_singleton in Hin. lia.
Qed.

Lemma rg_initialize_all txs is_ : forall L s b,
  between s -> Forall valid is_ -> StronglySorted Z.lt (serial_of <$> is_) ->
  Forall2 (fun i st => 0 <= index i /\ txs !! Z.to_nat (index i) = Some st.2 /\ st.1 = serial_of i /\
             appendable (rw_set_ st.2) (w_set_ st.2)) is_ b ->
  (forall a i, i ∈ is_ -> Forall (fun q => q.1 < serial_of i) (L a)) ->
  (forall a, fits (ids (L a) ++ written_serials b a)) ->
  rg R G (A s L) (initialize_all txs s is_)
    (fun r e => exists L', ((forall a, L a ⊆ L' a /\ ids (L' a) = ids (L a) ++ written_serials b a) /\
       all_installed L' b r.1 /\ between r.2) /\ A r.2 L' e).
Proof.
  induction is_ as [|i is_ IH]; intros L s b Hb Hvalid Hsort Hall Hlt Hfits; cbn [initialize_all].
  - apply Forall2_nil_inv_l in Hall as ->. apply rg_mret. intros e HA. exists L. split; [|done].
    split_and!; [|by constructor|done]. intros a. split; [done|]. by rewrite app_nil_r.
  - apply Forall2_cons_inv_l in Hall as ([sx tx] & b' & (Hi & Htx & Hse & Happ) & Hall & ->). cbn [fst snd] in *. subst sx.
    apply StronglySorted_inv in Hsort as [Hsort Hfirst].
    eapply rg_bind; [apply (rg_quiet s L _ tx); intros e; unfold lift, vector_at, deref|].
    { by rewrite decide_True, Htx by done. }
    intros t; cbn beta. apply rg_pure. intros ->. apply Forall_cons in Hvalid as [Hvi Hvalid].
    destruct (start_ok s i Hb Hvi) as (Hok1 & Hs1 & Hk1).
    eapply rg_bind; [eapply rg_conseq; [apply (rg_append_all (w_set_ tx) L (start s i)); try done| |]|].
    + intros j op _ _. rewrite Hk1. apply not_elem_of_nil.
    + intros j a Hj Ha. rewrite Hs1. split; [apply Hlt; by left|]. specialize (Hfits a).
      rewrite written_serials_cons, decide_True, app_assoc in Hfits; [by eapply fits_prefix|].
      apply list_elem_of_omap. by exists j.
    + intros e HA. by apply start_A.
    + intros r e H. exact H.
    + intros [ops s1]; cbn beta iota. apply rg_exists; intros L1. apply rg_pure. simpl.
      intros (Hok2 & _ & Hext & Hinst). rewrite Hs1 in *.
      assert (Hsub1 : forall a, L a ⊆ L1 a).
      { intros a. destruct (Hext a) as (more & -> & _). by apply list_subseteq_app_l. }
      eapply rg_bind; [eapply rg_conseq; [apply (IH L1 (terminate s1) b')| |]|].
      * by apply terminate_ok.
      * done.
      * done.
      * done.
      * intros a i' Hi'. apply (extends_below L L1 (serial_of i) (rows_written (rw_set_ tx) (w_set_ tx))); [done| |].
        -- rewrite Forall_forall in Hfirst. by apply Hfirst, list_elem_of_fmap_2.
        -- apply Hlt. by left.
      * intros a. destruct (Hext a) as (more & -> & Hids). unfold ids in *. rewrite fmap_app, Hids, <- app_assoc.
        specialize (Hfits a). by rewrite written_serials_cons in Hfits.
      * intros e HA. by apply terminate_A.
      * intros r e H. exact H.
      * intros [done s2]; cbn beta iota. apply rg_mret. simpl.
        intros e (L2 & (Hids2 & Hinst2 & Hb2) & HA). exists L2. split; [|done]. split_and!; [| |done].
        -- intros a. destruct (Hids2 a) as [Hs2 Hi2]. split; [by rewrite Hsub1|].
           rewrite Hi2, written_serials_cons. destruct (Hext a) as (more & -> & Hids). unfold ids in *.
           by rewrite fmap_app, Hids, <- app_assoc.
        -- constructor; [|done]. split; [|done]. eapply installed_mono; [|done]. intros a. apply Hids2.
Qed.

End Loops.
End Txs.
