(* ===== verification/Run.v ===== *)
(** * Run: the worker threads of the executables

    [run_tx] of [executables/ycsb_serval.cpp] and [ycsb_caracal.cpp]: the start
    barrier, then in every epoch the initialisation phase, a barrier, the
    execution phase and a barrier.  The shared memory is the vector of the
    transactions, whose operations receive their pending versions in the
    initialisation phase, and a ghost record of what the reads returned.  From
    correctness of the two phases on their own, [threads_run_epochs] derives it
    for every interleaving of the threads. *)
From Stdlib Require Import FunctionalExtensionality.
From S2P Require Import Prelude Schema Ycsb Conc Barrier Phases Memory Txs.

(** ** Mapping the results of a pool *)
Section Mapped.
Context {S A B : Type} (f : A -> B).

Definition mapped (p : prog S A) : prog S B := prog_bind p (fun a => Ret (f a)).

Lemma run_schedule_mapped sched : forall (pool : list (prog S A)) s,
  run_schedule sched (mapped <$> pool) s =
  match run_schedule sched pool s with
  | Ok (pool', s') => Ok (mapped <$> pool', s')
  | Err e => Err e
  end.
Proof.
  induction sched as [|i sched IH]; intros pool s; [done|]. cbn [run_schedule]. rewrite list_lookup_fmap.
  destruct (pool !! i) as [p|]; [|by rewrite IH]. cbn [fmap option_fmap option_map].
  destruct (result p) as [a|] eqn:Hp.
  - destruct p; simplify_eq/=. by rewrite IH.
  - unfold mapped at 1. rewrite step_bind by (by destruct p).
    destruct (step p s) as [[[p' s']|]|]; [|done|by rewrite IH].
    change (prog_bind p' (fun a => Ret (f a))) with (mapped p'). by rewrite <- list_fmap_insert, IH.
Qed.

Lemma mapped_results (pool : list (prog S A)) (rs : list B) :
  mapped <$> pool = Ret <$> rs -> exists as_ : list A, pool = Ret <$> as_ /\ rs = f <$> as_.
Proof.
  revert rs. induction pool as [|p pool IH]; intros [|r rs] H; try done; [by exists []|].
  injection H as Hp Hpool. destruct (IH rs Hpool) as (as_ & -> & ->). destruct p as [a| |]; try done.
  injection Hp as <-. by exists (a :: as_).
Qed.
End Mapped.

Lemma all_done_results {S A} (rs : list A) : all_done (@Ret S A <$> rs).
Proof. unfold all_done. induction rs; constructor; done. Qed.

(** ** The shared memory of a run *)
Record RunMemory (R : Type) := mkRunMemory {
  txs_ : list OperationSet;
  returned_ : gmap (Z * nat) R     (* ghost: per epoch and worker, what its reads returned *)
}.
Arguments mkRunMemory {R}.
Arguments txs_ {R}.
Arguments returned_ {R}.

Section Run.
Context `{BuildConfig} {E Obj R : Type}.
(** A protocol's two phases for a worker, the serials it initialises, and
    [protocol.epoch_ = epoch]. *)
Context (at_epoch : Z -> Obj -> Obj) (serials : nat -> list Z).
Context (initialization_phase : nat -> Z -> Obj -> list OperationSet -> prog E (list OperationSet * Obj)).
Context (execution_phase : nat -> Z -> Obj -> list OperationSet -> prog E R).

Local Abbreviation Threads := (prog (Shared E (RunMemory R))).
Definition head_in_the_epoch (epoch : Z) : Z := (epoch - 1) * NUM_TXS_IN_ONE_EPOCH.

(** The worker's transactions with their pending versions; what its reads returned. *)
Definition set_outputs (worker_id : nat) (epoch : Z) (outs : list OperationSet) (t : RunMemory R) : RunMemory R :=
  mkRunMemory (store_outputs (txs_ t) (head_in_the_epoch epoch) (zip (serials worker_id) outs)) (returned_ t).
Definition set_returned (worker_id : nat) (epoch : Z) (r : R) (t : RunMemory R) : RunMemory R :=
  mkRunMemory (txs_ t) (<[(epoch, worker_id) := r]> (returned_ t)).

Definition rendezvous_to_start (type : BarrierType) (worker_id : nat) : Threads unit :=
  rendezvous_barrier_to_start shared_barrier type worker_id.

(** [while (epoch <= NUM_EPOCH)], [n] epochs still to go.  A phase touches no
    transaction that another worker changes during the phase, so it can be
    given the vector as it is at its start. *)
Fixpoint run_epochs (worker_id : nat) (epoch : Z) (n : nat) (protocol : Obj) : Threads Obj :=
  match n with
  | O => mret protocol
  | Datatypes.S n' =>
      t ← act get_memory;
      '(outs, protocol') ← zoom database set_database
        (initialization_phase worker_id (head_in_the_epoch epoch) (at_epoch epoch protocol) (txs_ t));
      act (store_memory (set_outputs worker_id epoch outs));;
      rendezvous_to_start ExecPhase worker_id;;
      t ← act get_memory;
      r ← zoom database set_database
        (execution_phase worker_id (head_in_the_epoch epoch) protocol' (txs_ t));
      act (store_memory (set_returned worker_id epoch r));;
      rendezvous_to_start NewEpoc worker_id;;
      run_epochs worker_id (epoch + 1) n' protocol'
  end.

Definition run_tx (worker_id : nat) (protocol : Obj) : Threads Obj :=
  rendezvous_to_start Exp worker_id;; run_epochs worker_id 1 (Z.to_nat NUM_EPOCH) protocol.

(** The threads that [main] starts and joins. *)
Definition threads (objs : nat -> Obj) : list (Threads Obj) := (fun i => run_tx i (objs i)) <$> seq 0 64.

(** ** As phases *)
Local Abbreviation m := (2 * Z.to_nat NUM_EPOCH)%nat.
Definition epoch_of (k : nat) : Z := Z.of_nat (Nat.div2 k) + 1.

Definition phase (k i : nat) (o : Obj) (t : RunMemory R) : prog E ((list OperationSet * Obj) + R) :=
  if Nat.even k
  then mapped inl (initialization_phase i (head_in_the_epoch (epoch_of k)) (at_epoch (epoch_of k) o) (txs_ t))
  else mapped inr (execution_phase i (head_in_the_epoch (epoch_of k)) o (txs_ t)).
Definition record (k i : nat) (r : (list OperationSet * Obj) + R) (t : RunMemory R) : RunMemory R :=
  match r with
  | inl (outs, _) => if Nat.even k then set_outputs i (epoch_of k) outs t else t
  | inr r => if Nat.even k then t else set_returned i (epoch_of k) r t
  end.
Definition next (k i : nat) (r : (list OperationSet * Obj) + R) (o : Obj) : Obj :=
  match r with inl (_, o') => o' | inr _ => o end.

Definition epoch_barriers (n : nat) : list BarrierType := Exp :: concat (replicate n [ExecPhase; NewEpoc]).

Lemma epoch_barriers_lookup n k :
  epoch_barriers n !! k =
  match k with
  | O => Some Exp
  | Datatypes.S j => if decide (j < 2 * n)%nat then Some (if Nat.even j then ExecPhase else NewEpoc) else None
  end.
Proof.
  destruct k as [|j]; [done|]. cbn [epoch_barriers lookup list_lookup]. revert j.
  induction n as [|n IH]; intros j; [done|]. destruct j as [|[|j]].
  - cbn. by rewrite decide_True by lia.
  - cbn. by rewrite decide_True by lia.
  - cbn [replicate concat app]. change ((?x :: ?y :: ?l) !! Datatypes.S (Datatypes.S j)) with (l !! j). rewrite IH.
    rewrite (decide_ext (j < 2 * n)%nat (Datatypes.S (Datatypes.S j) < 2 * Datatypes.S n)%nat) by lia. done.
Qed.

Lemma epoch_barriers_length n : length (epoch_barriers n) = Datatypes.S (2 * n).
Proof. cbn [epoch_barriers length]. f_equal. induction n as [|n IH]; [done|]. cbn. cbn in IH. lia. Qed.

Lemma epoch_barriers_alternate n : alternating (epoch_barriers n).
Proof.
  intros [|k] a b Ha Hb; [by simplify_eq/=|]. cbn in Ha, Hb.
  change ((epoch_barriers n) !! k = Some a) in Ha. change ((epoch_barriers n) !! Datatypes.S k = Some b) in Hb.
  rewrite epoch_barriers_lookup in Ha, Hb. case_decide; [|done]. simplify_eq. destruct k as [|j].
  - by simplify_eq.
  - case_decide; [|done]. simplify_eq. rewrite Nat.even_succ, <- Nat.negb_even. by destruct (Nat.even j).
Qed.

(** [run_tx] is a worker of [Phases]. *)
Local Abbreviation types := (epoch_barriers (Z.to_nat NUM_EPOCH)).

Lemma bind_mapped {A B C} (f : A -> B) (p : prog E A) (K : B -> Threads C) :
  prog_bind (zoom database set_database (mapped f p)) K = prog_bind (zoom database set_database p) (fun a => K (f a)).
Proof. unfold mapped. by rewrite zoom_bind, prog_bind_assoc. Qed.

Lemma run_epochs_from i n : forall e o, (e + n <= Z.to_nat NUM_EPOCH)%nat ->
  run_epochs i (Z.of_nat e + 1) n o = run_from types phase record next i (2 * e) (2 * n) o.
Proof.
  induction n as [|n IH]; intros e o Hle; [done|].
  replace (2 * Datatypes.S n)%nat with (Datatypes.S (Datatypes.S (2 * n))) by lia.
  assert (He : Nat.even (2 * e) = true) by (by rewrite Nat.even_mul).
  assert (Ho : Nat.even (Datatypes.S (2 * e)) = false) by (by rewrite Nat.even_succ, <- Nat.negb_even, He).
  assert (Hk : epoch_of (2 * e) = Z.of_nat e + 1) by (unfold epoch_of; by rewrite Nat.div2_double).
  assert (Hk' : epoch_of (Datatypes.S (2 * e)) = Z.of_nat e + 1) by (unfold epoch_of; by rewrite Nat.div2_succ_double).
  assert (Hb : forall k t, types !! k = Some t -> @barrier E (RunMemory R) types k i = rendezvous_to_start t i).
  { intros k t Ht. unfold barrier. by rewrite (published_S types k t Ht). }
  cbn [run_epochs run_from]. unfold mbind, prog_mbind. f_equal. apply functional_extensionality. intros t.
  unfold phase at 1. rewrite He, Hk, bind_mapped. f_equal. apply functional_extensionality. intros [outs o'].
  f_equal.
  { f_equal. apply functional_extensionality. intros u. unfold store_memory, record. by rewrite He, Hk. }
  apply functional_extensionality. intros _. f_equal.
  { symmetry. apply Hb. rewrite epoch_barriers_lookup, decide_True, He by lia. done. }
  apply functional_extensionality. intros _. f_equal. apply functional_extensionality. intros t'.
  unfold phase at 1. rewrite Ho, Hk', bind_mapped. f_equal. apply functional_extensionality. intros r.
  f_equal.
  { f_equal. apply functional_extensionality. intros u. unfold store_memory, record. by rewrite Ho, Hk'. }
  apply functional_extensionality. intros _. f_equal.
  { symmetry. apply Hb. rewrite epoch_barriers_lookup, decide_True, Ho by lia. done. }
  apply functional_extensionality. intros _.
  specialize (IH (Datatypes.S e) o'). replace (2 * Datatypes.S e)%nat with (Datatypes.S (Datatypes.S (2 * e))) in IH by lia.
  change (next (Datatypes.S (2 * e)) i (inr r) (next (2 * e) i (inl (outs, o')) o)) with o'.
  rewrite <- IH by lia. f_equal. lia.
Qed.

Lemma run_tx_worker i o : run_tx i o = run_worker types m phase record next i o.
Proof.
  unfold run_tx, run_worker, mbind, prog_mbind. f_equal.
  apply functional_extensionality. intros _. apply (run_epochs_from i _ 0 o). lia.
Qed.

(** ** Workers do not disturb each other *)
Hypothesis serials_ok : forall c s, s ∈ serials c -> 0 <= s.
Hypothesis serials_disjoint : forall c d s, (c < 64)%nat -> (d < 64)%nat -> c <> d -> s ∈ serials c -> s ∉ serials d.
Hypothesis epoch_size : 0 <= NUM_TXS_IN_ONE_EPOCH.
Hypothesis initialization_frame : forall c d head o txs outs, (c < 64)%nat -> (d < 64)%nat -> c <> d -> 0 <= head ->
  initialization_phase c head o (store_outputs txs head (zip (serials d) outs)) = initialization_phase c head o txs.

Lemma head_nonneg k : 0 <= head_in_the_epoch (epoch_of k).
Proof. unfold head_in_the_epoch, epoch_of. generalize (Nat.div2 k). intros n. apply Z.mul_nonneg_nonneg; [lia|done]. Qed.

Lemma store_outputs_comm txs head l1 l2 :
  0 <= head -> (forall p, p ∈ l1 -> 0 <= p.1) -> (forall p, p ∈ l2 -> 0 <= p.1) ->
  (forall p q, p ∈ l1 -> q ∈ l2 -> p.1 <> q.1) ->
  store_outputs (store_outputs txs head l2) head l1 = store_outputs (store_outputs txs head l1) head l2.
Proof.
  intros Hh H1 H2 Hne. induction l1 as [|p l1 IH]; [done|]. cbn [store_outputs foldr].
  change (foldr _ ?t l1) with (store_outputs t head l1). rewrite IH; [|set_solver..].
  assert (Hp : forall q, q ∈ l2 -> p.1 <> q.1) by (intros q; apply Hne; by left).
  assert (Hp1 : 0 <= p.1) by (apply H1; by left).
  clear -Hh H2 Hp Hp1. generalize (store_outputs txs head l1) as t. intros t.
  induction l2 as [|q l2 IH]; [done|]. cbn [store_outputs foldr]. rewrite list_insert_insert_ne.
  - f_equal. apply IH; set_solver.
  - specialize (Hp q ltac:(by left)). specialize (H2 q ltac:(by left)). lia.
Qed.

Lemma elem_of_zip_serials c (outs : list OperationSet) p : p ∈ zip (serials c) outs -> p.1 ∈ serials c.
Proof. destruct p as [s o]. by intros H1%elem_of_zip_l. Qed.

Lemma run_memory_split : memory_split phase record.
Proof.
  constructor.
  - intros k i j r l t Hi Hj Hne. unfold phase, record. destruct (Nat.even k), r as [[outs o']|r]; try done.
    unfold set_outputs. cbn [txs_]. by rewrite initialization_frame by auto using head_nonneg.
  - intros k i j r1 r2 t Hi Hj Hne. unfold record. destruct (Nat.even k), r1 as [[outs1 o1]|r1], r2 as [[outs2 o2]|r2]; try done.
    + unfold set_outputs. cbn [txs_ returned_]. f_equal. apply store_outputs_comm; [apply head_nonneg|..].
      * intros p Hp%elem_of_zip_serials. by eapply serials_ok.
      * intros p Hp%elem_of_zip_serials. by eapply serials_ok.
      * intros p q Hp%elem_of_zip_serials Hq%elem_of_zip_serials Heq. rewrite Heq in Hp. by apply (serials_disjoint i j q.1).
    + unfold set_returned. cbn [txs_ returned_]. f_equal. apply insert_insert_ne. congruence.
Qed.

(** ** Correctness of a run from correctness of an epoch *)
Record EpochState := mkEpochState { ep_txs : list OperationSet; ep_objects : nat -> Obj; ep_env : E }.

Lemma epoch_state_eta (st : EpochState) : mkEpochState (ep_txs st) (ep_objects st) (ep_env st) = st.
Proof. by destruct st. Qed.

(** The pools of an epoch's phases, the transactions and objects in between. *)
Definition initialization_pool (epoch : Z) (st : EpochState) : list (prog E (list OperationSet * Obj)) :=
  (fun c => initialization_phase c (head_in_the_epoch epoch) (at_epoch epoch (ep_objects st c)) (ep_txs st)) <$> seq 0 64.
Definition initialized_state (epoch : Z) (st : EpochState) (rs : list (list OperationSet * Obj)) (e : E) : EpochState :=
  mkEpochState
    (store_outputs (ep_txs st) (head_in_the_epoch epoch) (concat (imap (fun c r => zip (serials c) r.1) rs)))
    (fun c => match rs !! c with Some r => r.2 | None => ep_objects st c end) e.
Definition execution_pool (epoch : Z) (st : EpochState) : list (prog E R) :=
  (fun c => execution_phase c (head_in_the_epoch epoch) (ep_objects st c) (ep_txs st)) <$> seq 0 64.
Definition executed_state (st : EpochState) (e : E) : EpochState := mkEpochState (ep_txs st) (ep_objects st) e.

(** What holds between epochs, and what an epoch from [st] to [st'] has done if
    worker [c]'s reads returned [ret c]. *)
Context (boundary : Z -> EpochState -> Prop).
Context (outcome : Z -> EpochState -> EpochState -> (nat -> option R) -> Prop).

Definition epoch_correct : Prop := forall epoch st, boundary epoch st -> 1 <= epoch <= NUM_EPOCH ->
  forall sched, exists pool e1,
    run_schedule sched (initialization_pool epoch st) (ep_env st) = Ok (pool, e1) /\
    (forall rs, pool = Ret <$> rs ->
     let st1 := initialized_state epoch st rs e1 in
     forall sched', exists pool' e2,
       run_schedule sched' (execution_pool epoch st1) e1 = Ok (pool', e2) /\
       (forall outs, pool' = Ret <$> outs ->
          boundary (epoch + 1) (executed_state st1 e2) /\
          outcome epoch st (executed_state st1 e2) (fun c => outs !! c))).

(** The consecutive states of a run: [follows u u'] if a step leads from [u] to [u']. *)
Context (follows : Shared E (RunMemory R) -> Shared E (RunMemory R) -> Prop).

(** [st] is what the run has in memory when [epoch] starts: at the step by which
    the parent opens the barrier before the epoch, its barrier number
    [2 * (epoch - 1)]. *)
Definition starts_epoch (epoch : Z) (st : EpochState) : Prop :=
  exists u u', follows u u' /\
    parent_passed_ (rendezvous u) = (2 * Z.to_nat (epoch - 1))%nat /\
    parent_passed_ (rendezvous u') = Datatypes.S (2 * Z.to_nat (epoch - 1)) /\
    database u' = ep_env st /\ txs_ (memory u') = ep_txs st.

(** The epochs before [epoch] have been executed one after the other, each from
    the state in which the run started it to the one in which it started the next. *)
Inductive epochs_executed (init : EpochState) (ret : gmap (Z * nat) R) : Z -> EpochState -> Prop :=
| no_epoch : starts_epoch 1 init -> epochs_executed init ret 1 init
| one_more_epoch epoch st st' :
    epochs_executed init ret epoch st -> epoch <= NUM_EPOCH -> starts_epoch (epoch + 1) st' ->
    outcome epoch st st' (fun c => ret !! (epoch, c)) -> epochs_executed init ret (epoch + 1) st'.

Lemma epochs_executed_mono init ret ret' epoch st :
  epochs_executed init ret epoch st ->
  (forall x c, x < epoch -> ret' !! (x, c) = ret !! (x, c)) -> epochs_executed init ret' epoch st.
Proof.
  induction 1 as [H0|epoch st st' H1 IH Hle Hs Ho]; intros Hret; [by constructor|].
  apply (one_more_epoch _ _ epoch st); [|done|done|].
  - apply IH. intros x c Hx. apply Hret. lia.
  - replace (fun c => ret' !! (epoch, c)) with (fun c => ret !! (epoch, c)); [done|].
    apply functional_extensionality. intros c. symmetry. apply Hret. lia.
Qed.

(** The memory after a phase. *)
Lemma recorded_outputs k (rs : list (list OperationSet * Obj)) t (g : nat -> nat) :
  Nat.even k = true ->
  recorded record k (imap (fun i r => (g i, inl r)) rs) t =
  mkRunMemory (store_outputs (txs_ t) (head_in_the_epoch (epoch_of k)) (concat (imap (fun i r => zip (serials (g i)) r.1) rs)))
    (returned_ t).
Proof.
  intros Hk. revert g. induction rs as [|[outs o] rs IH]; intros g; [by destruct t|].
  cbn [imap concat]. unfold recorded. cbn [foldr fst snd]. change (foldr _ t ?l) with (recorded record k l t).
  specialize (IH (g ∘ Datatypes.S)).
  match goal with |- context [recorded record k ?l t] =>
    change l with (imap (fun i (r : list OperationSet * Obj) => ((g ∘ Datatypes.S) i, @inl _ R r)) rs) end.
  rewrite IH. unfold record. rewrite Hk. unfold set_outputs. cbn [txs_ returned_]. f_equal.
  unfold store_outputs. by rewrite foldr_app.
Qed.

Lemma recorded_returned k (rs : list R) t : forall off,
  Nat.even k = false ->
  let t' := recorded record k (imap (fun i r => ((off + i)%nat, inr r)) rs) t in
  txs_ t' = txs_ t /\
  (forall x c, x <> epoch_of k -> returned_ t' !! (x, c) = returned_ t !! (x, c)) /\
  (forall c, returned_ t' !! (epoch_of k, c) =
     if decide (off <= c)%nat then
       match rs !! (c - off)%nat with Some r => Some r | None => returned_ t !! (epoch_of k, c) end
     else returned_ t !! (epoch_of k, c)).
Proof.
  induction rs as [|r rs IH]; intros off Hk.
  { cbn. split_and!; [done|done|]. intros c. by case_decide. }
  specialize (IH (Datatypes.S off) Hk). cbn [imap]. unfold recorded in *. cbn [foldr fst snd].
  rewrite (imap_ext (_ ∘ Datatypes.S) (fun i r => ((Datatypes.S off + i)%nat, inr r)))
    by (intros i x _; unfold compose; f_equal; lia).
  set (t1 := foldr _ _ _) in *. destruct IH as (H1 & H2 & H3). unfold record. rewrite Hk. unfold set_returned. cbn [txs_ returned_].
  rewrite Nat.add_0_r. split_and!; [done| |].
  - intros x c Hx. rewrite lookup_insert_ne by congruence. by apply H2.
  - intros c. destruct (decide (c = off)) as [->|Hne].
    + rewrite lookup_insert_eq, decide_True, Nat.sub_diag by lia. done.
    + rewrite lookup_insert_ne, H3 by congruence. destruct (decide (off <= c)%nat).
      * rewrite decide_True by lia. by replace (c - off)%nat with (Datatypes.S (c - Datatypes.S off)) by lia.
      * by rewrite decide_False by lia.
Qed.

(** *** The invariant along the phases *)
Context (init : EpochState).
Hypothesis boundary_init : boundary 1 init.
Hypothesis correct : epoch_correct.

Local Abbreviation Conf := (@PhaseState E (RunMemory R) Obj).
Definition state_of (c : Conf) : EpochState := mkEpochState (txs_ (ph_mem c)) (ph_locals c) (ph_env c).
Definition conf_init : Conf := mkPhaseState (ep_objects init) (mkRunMemory (ep_txs init) ∅) (ep_env init).
Definition not_yet (epoch : Z) (c : Conf) : Prop := forall x i, epoch <= x -> returned_ (ph_mem c) !! (x, i) = None.

Definition between_epochs (epoch : Z) (c : Conf) : Prop :=
  boundary epoch (state_of c) /\ epochs_executed init (returned_ (ph_mem c)) epoch (state_of c) /\ not_yet epoch c.
Definition between_phases (epoch : Z) (c : Conf) : Prop :=
  exists st sched rs e1, boundary epoch st /\ epochs_executed init (returned_ (ph_mem c)) epoch st /\ not_yet epoch c /\
    run_schedule sched (initialization_pool epoch st) (ep_env st) = Ok (Ret <$> rs, e1) /\
    state_of c = initialized_state epoch st rs e1.

Lemma phase_pool_even k c :
  Nat.even k = true -> phase_pool phase k c = mapped inl <$> initialization_pool (epoch_of k) (state_of c).
Proof.
  intros Hk. unfold phase_pool, initialization_pool. rewrite <- list_fmap_compose. apply list_fmap_ext.
  intros _ i _. unfold phase. by rewrite Hk.
Qed.
Lemma phase_pool_odd k c :
  Nat.even k = false -> phase_pool phase k c = mapped inr <$> execution_pool (epoch_of k) (state_of c).
Proof.
  intros Hk. unfold phase_pool, execution_pool. rewrite <- list_fmap_compose. apply list_fmap_ext.
  intros _ i _. unfold phase. by rewrite Hk.
Qed.

Lemma locals_next {X} (f : X -> (list OperationSet * Obj) + R) k (rs : list X) (o : nat -> Obj) :
  (fun i => match (f <$> rs) !! i with Some a => next k i a (o i) | None => o i end)
  = (fun i => match rs !! i with Some x => match f x with inl r => r.2 | inr _ => o i end | None => o i end).
Proof.
  apply functional_extensionality. intros i. rewrite list_lookup_fmap. destruct (rs !! i) as [x|]; [|done]. cbn.
  by destruct (f x) as [[]|].
Qed.

Lemma after_initialization k (c : Conf) rs s' :
  Nat.even k = true -> let c' := after record next k c (inl <$> rs) s' in
  state_of c' = initialized_state (epoch_of k) (state_of c) rs s' /\ returned_ (ph_mem c') = returned_ (ph_mem c).
Proof.
  intros Hk. unfold after, state_of. cbn [ph_mem ph_locals ph_env].
  assert (Himap : imap pair (inl <$> rs) = imap (fun i (r : list OperationSet * Obj) => (i, @inl _ R r)) rs)
    by apply imap_fmap.
  rewrite Himap. rewrite (recorded_outputs k rs (ph_mem c) (fun i => i) Hk). cbn [txs_ returned_].
  split; [|done]. unfold initialized_state. cbn [ep_txs ep_objects]. f_equal.
  rewrite (locals_next inl). done.
Qed.

Lemma after_execution k (c : Conf) outs s' :
  Nat.even k = false -> not_yet (epoch_of k) c -> let c' := after record next k c (inr <$> outs) s' in
  state_of c' = executed_state (state_of c) s' /\ not_yet (epoch_of k + 1) c' /\
  (forall x i, x < epoch_of k -> returned_ (ph_mem c') !! (x, i) = returned_ (ph_mem c) !! (x, i)) /\
  (fun i => returned_ (ph_mem c') !! (epoch_of k, i)) = (fun i => outs !! i).
Proof.
  intros Hk Hnot. unfold after, state_of, not_yet. cbn [ph_mem ph_locals ph_env].
  assert (Himap : imap pair (inr <$> outs) = imap (fun i (r : R) => ((0 + i)%nat, @inr (list OperationSet * Obj) R r)) outs)
    by apply imap_fmap.
  rewrite Himap. destruct (recorded_returned k outs (ph_mem c) 0 Hk) as (H1 & H2 & H3). split_and!.
  - rewrite H1. unfold executed_state. cbn. f_equal. rewrite (locals_next inr).
    apply functional_extensionality. intros i. by destruct (outs !! i).
  - intros x i Hx. rewrite H2 by lia. apply Hnot. lia.
  - intros x i Hx. apply H2. lia.
  - apply functional_extensionality. intros i. rewrite H3, decide_True, Nat.sub_0_r by lia.
    destruct (outs !! i); [done|]. apply Hnot. lia.
Qed.

Lemma executed_epochs_kept (c c' : Conf) epoch st :
  epochs_executed init (returned_ (ph_mem c)) epoch st ->
  (forall x i, x < epoch -> returned_ (ph_mem c') !! (x, i) = returned_ (ph_mem c) !! (x, i)) ->
  epochs_executed init (returned_ (ph_mem c')) epoch st.
Proof. intros. by eapply epochs_executed_mono. Qed.

Lemma epoch_of_odd k : Nat.even k = false -> epoch_of (Datatypes.S k) = epoch_of k + 1.
Proof.
  intros Hk. unfold epoch_of. rewrite <- Nat.negb_odd in Hk. apply negb_false_iff, Nat.odd_spec in Hk as [j ->].
  replace (Datatypes.S (2 * j + 1)) with (2 * Datatypes.S j)%nat by lia. rewrite Nat.div2_double.
  rewrite Nat.add_1_r, Nat.div2_succ_double. lia.
Qed.
Lemma epoch_of_even k : Nat.even k = true -> epoch_of (Datatypes.S k) = epoch_of k.
Proof. intros Hk. apply Nat.even_spec in Hk as [j ->]. unfold epoch_of. by rewrite Nat.div2_double, Nat.div2_succ_double. Qed.

Lemma epoch_range k : (k < m)%nat -> 1 <= epoch_of k <= NUM_EPOCH.
Proof. intros Hk. unfold epoch_of. rewrite Nat.div2_div. pose proof (Nat.Div0.mul_div_le k 2). lia. Qed.

Lemma opened_starts k (c : Conf) : Nat.even k = true -> opened follows k c -> starts_epoch (epoch_of k) (state_of c).
Proof.
  intros Hk (u & u' & Hf & Hp & Hp' & Hd & Hm). exists u, u'. apply Nat.even_spec in Hk as [j ->].
  unfold epoch_of. rewrite Nat.div2_double. replace (Z.to_nat (Z.of_nat j + 1 - 1)) with j by lia.
  split_and!; [done|done|done|done|by rewrite Hm].
Qed.

(** Every phase that is reached starts from a correct state. *)
Lemma phases_reached k c :
  phases m phase record next follows conf_init k c ->
  if Nat.even k then between_epochs (epoch_of k) c else between_phases (epoch_of k) c.
Proof.
  induction 1 as [Hopen|k c c' Hph IH Hk Hstep Hopen].
  - assert (Hst : state_of conf_init = init) by (apply epoch_state_eta). cbn [Nat.even]. unfold between_epochs. rewrite Hst.
    split_and!; [done|constructor|intros x i _; apply lookup_empty].
    rewrite <- Hst. by apply (opened_starts 0 conf_init).
  - pose proof (epoch_range k Hk) as Hrange. destruct Hstep as [sched rs s' Hrun].
    rewrite Nat.even_succ, <- Nat.negb_even. destruct (Nat.even k) eqn:He; cbn [negb].
    + destruct IH as (Hb & Hex & Hnot). rewrite phase_pool_even, run_schedule_mapped in Hrun by done.
      destruct (correct (epoch_of k) (state_of c) Hb Hrange sched) as (pool & e1 & Hinit & _).
      change (ep_env (state_of c)) with (ph_env c) in Hinit. rewrite Hinit in Hrun. injection Hrun as Hrs <-.
      apply mapped_results in Hrs as (rs' & -> & ->).
      destruct (after_initialization k c rs' e1 He) as [Hst Hret]. rewrite epoch_of_even by done.
      exists (state_of c), sched, rs', e1. split_and!; try done.
      * by rewrite Hret.
      * intros x i Hx. rewrite Hret. by apply Hnot.
    + destruct IH as (st & sched1 & rs1 & e1 & Hb & Hex & Hnot & Hinit & Hst).
      rewrite phase_pool_odd, run_schedule_mapped in Hrun by done.
      destruct (correct (epoch_of k) st Hb Hrange sched1) as (pool & e1' & Hinit' & Hrest).
      rewrite Hinit in Hinit'. injection Hinit' as <- <-.
      destruct (Hrest rs1 eq_refl sched) as (pool' & e2 & Hexec & Hdone). rewrite <- Hst in Hexec, Hdone.
      assert (Henv : ph_env c = e1) by (change (ep_env (state_of c) = e1); by rewrite Hst).
      rewrite Henv, Hexec in Hrun. injection Hrun as Hrs <-.
      apply mapped_results in Hrs as (outs & -> & ->). destruct (Hdone outs eq_refl) as [Hb' Hout].
      destruct (after_execution k c outs e2 He Hnot) as (Hst' & Hnot' & Hret & Hret').
      rewrite epoch_of_odd by done. split_and!; [by rewrite Hst'| |done].
      apply (one_more_epoch _ _ (epoch_of k) st); [by eapply executed_epochs_kept|lia| |].
      { rewrite <- epoch_of_odd by done. apply opened_starts; [|done]. by rewrite Nat.even_succ, <- Nat.negb_even, He. }
      by rewrite Hst', Hret'.
Qed.

Lemma run_phases_safe : phases_safe m phase record next follows conf_init.
Proof.
  intros k c Hph Hk sched. pose proof (phases_reached k c Hph) as H0. pose proof (epoch_range k Hk) as Hrange.
  destruct (Nat.even k) eqn:He.
  - destruct H0 as (Hb & _). destruct (correct _ _ Hb Hrange sched) as (pool & e1 & Hinit & _).
    rewrite phase_pool_even, run_schedule_mapped by done.
    change (ep_env (state_of c)) with (ph_env c) in Hinit. rewrite Hinit. by eexists _, _.
  - destruct H0 as (st & sched1 & rs1 & e1 & Hb & _ & _ & Hinit & Hst).
    destruct (correct _ _ Hb Hrange sched1) as (pool & e1' & Hinit' & Hrest).
    rewrite Hinit in Hinit'. injection Hinit' as <- <-.
    destruct (Hrest rs1 eq_refl sched) as (pool' & e2 & Hexec & _). rewrite <- Hst in Hexec.
    assert (Henv : ph_env c = e1) by (change (ep_env (state_of c) = e1); by rewrite Hst).
    rewrite phase_pool_odd, run_schedule_mapped, Henv, Hexec by done. by eexists _, _.
Qed.

Definition run_start : Shared E (RunMemory R) :=
  mkShared (ep_env init) (Rendezvous_init 63) (mkRunMemory (ep_txs init) ∅).

(** Every interleaving of the threads executes the epochs one after the other. *)
Theorem threads_run_epochs sched :
  observed follows sched (threads (ep_objects init)) run_start ->
  exists pool' u, run_schedule sched (threads (ep_objects init)) run_start = Ok (pool', u) /\
    (all_done pool' -> exists st, epochs_executed init (returned_ (memory u)) (NUM_EPOCH + 1) st /\
       ep_txs st = txs_ (memory u) /\ ep_env st = database u /\
       forall i, (i < 64)%nat -> pool' !! i = Some (Ret (ep_objects st i))).
Proof.
  assert (Hpool : threads (ep_objects init) = workers types m phase record next conf_init).
  { unfold threads, workers. apply list_fmap_ext. intros _ i _. apply run_tx_worker. }
  rewrite Hpool. intros Hobs.
  destruct (workers_refine_phases types m phase record next follows conf_init (epoch_barriers_alternate _)
    (epoch_barriers_length _) run_memory_split run_phases_safe sched Hobs) as (pool' & u & Hrun & Hdone).
  exists pool', u. split; [exact Hrun|]. intros Hd. destruct (Hdone Hd) as (c & Hph & Hdb & Hmem & Hret).
  pose proof (phases_reached _ _ Hph) as Hend. rewrite Nat.even_mul in Hend. destruct Hend as (_ & Hex & _).
  exists (state_of c). unfold epoch_of in Hex. rewrite Nat.div2_double, Z2Nat.id in Hex by done.
  split_and!; [by rewrite Hmem|by rewrite Hmem|done|done].
Qed.
End Run.
