(* ===== verification/Execution.v ===== *)
(** * Execution: the execution phase of Serval and Caracal

    Both protocols execute a transaction the same way: a read waits until the
    version it was assigned is stable and returns its record, a write stores a
    record into its pending version and marks it stable.  The rows do not
    change.  The phase is verified once, for any protocol whose [read] looks
    for the version [vis s key] of a transaction with serial [s]: under every
    interleaving every read returns the record of the version it should see,
    and every version of the epoch ends up stable with a record. *)
From S2P Require Import Prelude Schema Ycsb Conc RWLock Memory.

Section Programs.
Context {P R : Type} `{BuildConfig}.
Local Abbreviation E := (Env P R).
Context (rdtscp : E -> Z) (schema : Schema) (table : Z).

(** [wait_stable_and_execute_read] and [upsert] of both protocols. *)
Definition wait_and_read (visible : ptr) : prog E ptr :=
  act (assertM (nonnull visible));;
  start ← act (readM rdtscp);
  loop (v ← act (load_version visible);
        mret (if decide (status v = PENDING) then None else Some tt));;
  act ((t1 ← readM rdtscp; stat_add WaitInExecution (u64 (t1 - start)));;
       (assertM (nonnull visible);; v ← load_version visible; mret (rec v))).
Definition write_version (pending : ptr) : prog E ptr :=
  record_size ← act (lift (get_record_size schema table));
  rec ← act (rec ← new_record;
             v ← load_version pending; store_version pending (mkVersion (Some rec) (status v) (deleted v));;
             mret rec);
  act (v ← load_version pending; store_version pending (mkVersion (Memory.rec v) STABLE (deleted v)));;
  mret (Some rec).

(** A transaction, given how a key is read, and the transactions [i, i + 1 ...] of a worker. *)
Fixpoint run_ops (read : Z -> prog E ptr) (ops : list Operation) : prog E (list ptr) :=
  match ops with
  | [] => mret []
  | op :: ops' =>
      r ← (match ope_ op with
           | Read => rec ← read (index_ op); mret [rec]
           | Update =>
               if nonnull (pending_ op) then _ ← write_version (pending_ op); mret []
               else mret []
           end);
      rs ← run_ops read ops';
      mret (r ++ rs)
  end.
Fixpoint run_txs (read : Z -> Z -> prog E ptr) (index : Z -> Z) (txs : list OperationSet) (i : Z) (n : nat)
  : prog E (list (list ptr)) :=
  match n with
  | O => mret []
  | S n' =>
      act (assertM (i <? Z.of_nat (length txs)));;
      tx ← act (lift (vector_at txs (index i)));
      r ← run_ops (read i) (rw_set_ tx);
      rs ← run_txs read index txs (i + 1) n';
      mret (r :: rs)
  end.

(** What a transaction reads and which versions it writes. *)
Definition read_keys (ops : list Operation) : list Z :=
  omap (fun op => match ope_ op with Read => Some (index_ op) | Update => None end) ops.
Definition written_versions (ops : list Operation) : list addr :=
  omap (fun op => match ope_ op with Read => None | Update => pending_ op end) ops.

Lemma read_keys_cons op ops :
  read_keys (op :: ops) = (match ope_ op with Read => [index_ op] | Update => [] end) ++ read_keys ops.
Proof. unfold read_keys. csimpl. by destruct (ope_ op). Qed.
Lemma written_versions_cons op ops :
  written_versions (op :: ops)
  = (match ope_ op with Read => [] | Update => option_list (pending_ op) end) ++ written_versions ops.
Proof. unfold written_versions. csimpl. by destruct (ope_ op), (pending_ op). Qed.

End Programs.

(** ** The invariant of the phase *)
Section Invariant.
Context {P R : Type} `{BuildConfig}.
Local Abbreviation E := (Env P R).
Context (e0 : E) (owner : addr -> option nat).

(** [p] is stable and holds the record [r]. *)
Definition holds (e : E) (p r : addr) : Prop :=
  exists v, versions e !! p = Some v /\ status v = STABLE /\ rec v = Some r.

(** How a version may have changed since the start: not at all, or it was
    pending and got a record. *)
Definition advanced (v0 v : Version) : Prop :=
  v = v0 \/ (status v0 = PENDING /\ rec v0 = None) /\ deleted v = deleted v0 /\ is_Some (rec v).

Record XInv (e : E) : Prop := {
  x_heap : heap_ok e;
  x_rows : rows e = rows e0;
  x_pool : pool e = pool e0;
  x_used : used_ e = used_ e0;
  x_lock : lock_ e = lock_ e0;
  x_handed : handed_ e = handed_ e0;
  x_versions : forall a, option_Forall2 advanced (versions e0 !! a) (versions e !! a)
}.

(** Stable versions stay as they are. *)
Definition settled (e e' : E) : Prop :=
  forall a v, versions e !! a = Some v -> status v = STABLE -> versions e' !! a = Some v.
Definition RX (c : nat) (e e' : E) : Prop :=
  XInv e -> XInv e' /\ settled e e' /\ forall a, owner a = Some c -> versions e' !! a = versions e !! a.
Definition GX (c : nat) (e e' : E) : Prop :=
  XInv e -> XInv e' /\ settled e e' /\ forall a, owner a <> Some c -> versions e' !! a = versions e !! a.

Lemma settled_refl e : settled e e.
Proof. by intros a v Hv _. Qed.
Lemma settled_trans e1 e2 e3 : settled e1 e2 -> settled e2 e3 -> settled e1 e3.
Proof. intros H1 H2 a v Hv Hs. apply H2; [by apply H1|done]. Qed.
Lemma RX_refl c e : RX c e e.
Proof. intros Hi. split; [done|]. split; [apply settled_refl|done]. Qed.
Lemma GX_refl c e : GX c e e.
Proof. intros Hi. split; [done|]. split; [apply settled_refl|done]. Qed.
Lemma RX_trans c e1 e2 e3 : RX c e1 e2 -> RX c e2 e3 -> RX c e1 e3.
Proof.
  intros H12 H23 H1. destruct (H12 H1) as (H2 & S2 & O2). destruct (H23 H2) as (H3 & S3 & O3).
  split; [done|]. split; [by eapply settled_trans|]. intros a Ha. by rewrite O3, O2.
Qed.
Lemma GX_RX i j e e' : i <> j -> GX i e e' -> RX j e e'.
Proof.
  intros Hne HG Hi. destruct (HG Hi) as (? & ? & HO). split; [done|]. split; [done|].
  intros a Ha. apply HO. rewrite Ha. by intros [= <-].
Qed.

Lemma holds_settled e e' p r : settled e e' -> holds e p r -> holds e' p r.
Proof. intros Hs (v & Hv & ? & ?). exists v. split; [by apply Hs|done]. Qed.

(** Facts about stable versions can be carried along any triple. *)
Definition monotone (F : E -> Prop) : Prop := forall e e', settled e e' -> F e -> F e'.

Lemma rg_monotone {A} c P0 (p : prog E A) (Q : A -> E -> Prop) F :
  monotone F -> (forall e, P0 e -> XInv e) -> rg (RX c) (GX c) P0 p Q ->
  rg (RX c) (GX c) (fun e => P0 e /\ F e) p (fun a e => Q a e /\ F e).
Proof.
  intros HF HPI Hp n e [Hpe Hf]. pose proof (HPI e Hpe) as Hi. specialize (Hp n e Hpe).
  clear Hpe HPI. revert p e Hi Hf Hp. induction n as [|n IH]; intros p e Hi Hf Hp; [done|].
  destruct p as [b|B' m k|C B' c0 body k]; cbn [safe] in *; [done| |].
  - destruct (m e) as [[b e']|]; [|done]. destruct Hp as [HG Hk]. split; [done|].
    destruct (HG Hi) as (Hi' & Hs & _). intros e'' HR. destruct (HR Hi') as (Hi'' & Hs' & _).
    apply IH; [done| |by apply Hk]. eapply HF; [exact Hs'|]. by eapply HF.
  - intros e'' HR. destruct (HR Hi) as (Hi'' & Hs' & _). apply IH; [done| |by apply Hp]. by eapply HF.
Qed.

(** ** A worker's assertions: the versions [T] it has still to write *)
Context (c : nat).
Definition todo (T : list addr) (e : E) : Prop :=
  XInv e /\ NoDup T /\ Forall (fun p => owner p = Some c /\ pending e p) T.

Lemma todo_inv T e : todo T e -> XInv e.
Proof. by intros [? _]. Qed.
Lemma todo_stable T : stable (RX c) (todo T).
Proof.
  intros e e' (Hi & Hnd & HT) HR. destruct (HR Hi) as (Hi' & _ & HO). split_and!; [done..|].
  eapply Forall_impl; [exact HT|]. intros p [Hp (v & Hv & ?)]. split; [done|]. exists v. by rewrite HO.
Qed.
Lemma todo_and_stable T F : monotone F -> stable (RX c) (fun e => todo T e /\ F e).
Proof.
  intros HF e e' [HT Hf] HR. split; [by eapply todo_stable|]. destruct (HR (todo_inv _ _ HT)) as (_ & Hs & _).
  by eapply HF.
Qed.

(** An action that only reads the versions. *)
Lemma rg_look {A} (m : M E A) T (F : A -> E -> Prop) :
  (forall a, monotone (F a)) ->
  (forall e, XInv e -> exists a e', m e = Ok (a, e') /\ XInv e' /\ versions e' = versions e /\ F a e) ->
  rg (RX c) (GX c) (todo T) (act m) (fun a e => todo T e /\ F a e).
Proof.
  intros HF Hm. apply rg_act; [intros a; by apply todo_and_stable|]. intros e (Hi & Hnd & HT).
  destruct (Hm e Hi) as (a & e' & Hrun & Hi' & Hv & Ha). unfold wp. rewrite Hrun.
  assert (Hs : settled e e') by (intros x v; by rewrite Hv).
  split; [intros _; split_and!; [done..|intros; by rewrite Hv]|]. split.
  - split_and!; [done..|]. eapply Forall_impl; [exact HT|]. intros p [? (v & Hp & ?)].
    split; [done|]. exists v. by rewrite Hv.
  - by eapply HF.
Qed.

Lemma monotone_true : monotone (fun _ => True).
Proof. by intros e e' _ _. Qed.
Lemma monotone_holds p r : monotone (fun e => holds e p r).
Proof. intros e e' Hs. by apply holds_settled. Qed.
Lemma monotone_exists {A} (F : A -> E -> Prop) : (forall a, monotone (F a)) -> monotone (fun e => exists a, F a e).
Proof. intros HF e e' Hs [a Ha]. exists a. by eapply HF. Qed.
Lemma monotone_and F1 F2 : monotone F1 -> monotone F2 -> monotone (fun e => F1 e /\ F2 e).
Proof. intros H1 H2 e e' Hs [? ?]. split; [by eapply H1|by eapply H2]. Qed.
Lemma monotone_pure (X : Prop) : monotone (fun _ => X).
Proof. by intros e e' _ HX. Qed.

Lemma XInv_stat f e : XInv e -> XInv (set_stat f e).
Proof. intros [? ? ? ? ? ? ?]. constructor; try done. by apply heap_ok_set_stat. Qed.

(** A version that was pending or collectable at the start. *)
Definition readable (p : addr) : Prop := pending e0 p \/ collectable e0 p.

Lemma readable_now e p :
  XInv e -> readable p -> exists v, versions e !! p = Some v /\ (status v = STABLE -> is_Some (rec v)).
Proof.
  intros Hi Hp. pose proof (x_versions e Hi p) as Hadv.
  assert (exists v0, versions e0 !! p = Some v0 /\ (status v0 = STABLE -> is_Some (rec v0))) as (v0 & Hv0 & Hs0).
  { destruct Hp as [(v & Hv & Hs & Hr)|(v & r & Hv & Hs & Hr)]; exists v; (split; [done|]); [congruence|eauto]. }
  rewrite Hv0 in Hadv. inversion Hadv as [? v Ha Heq1 Heq2|]; subst. exists v. split; [done|].
  destruct Ha as [->|(_ & _ & Hr)]; auto.
Qed.

Lemma collectable_holds e p : XInv e -> collectable e0 p -> exists x, holds e p x.
Proof.
  intros Hi (v0 & x & Hv0 & Hs & Hr). exists x. pose proof (x_versions e Hi p) as Hadv. rewrite Hv0 in Hadv.
  inversion Hadv as [? v Ha Heq1 Heq2|]; subst. exists v. destruct Ha as [->|[[Hp _] _]]; [done|congruence].
Qed.

Context (schema : Schema) (table : Z).

Lemma rg_wait_and_read (rdtscp : E -> Z) p T :
  readable p ->
  rg (RX c) (GX c) (todo T) (wait_and_read rdtscp (Some p))
    (fun r e => todo T e /\ exists x, r = Some x /\ holds e p x).
Proof.
  intros Hp. unfold wait_and_read.
  eapply rg_bind; [apply (rg_look _ T (fun _ _ => True)); [intros; apply monotone_true|]|intros []; cbn beta].
  { intros e Hi. exists tt, e. split_and!; try done. unfold assertM, lift. by rewrite assert_true. }
  eapply rg_bind; [eapply rg_conseq; [apply (rg_look _ T (fun _ _ => True)); [intros; apply monotone_true|]|by intros e [? _]|]|intros start; cbn beta].
  { intros e Hi. by exists (rdtscp e), e. }
  { intros a e H0. exact H0. }
  eapply rg_bind; [eapply rg_conseq;
    [apply (rg_loop (RX c) (GX c) (todo T) _ (fun _ e => todo T e /\ exists x, holds e p x))| |]|].
  - apply todo_stable.
  - eapply rg_bind; [apply (rg_look (load_version (Some p)) T (fun v e => status v = STABLE -> exists x, holds e p x))|].
    + intros v. intros e e' Hs Hh Hst. destruct (Hh Hst) as [x Hx]. exists x. by eapply holds_settled.
    + intros e Hi. destruct (readable_now e p Hi Hp) as (v & Hv & Hr). exists v, e. split_and!; try done.
      * unfold load_version, derefM, mbind, M_bind, lift, deref, getM. cbn. by rewrite Hv.
      * intros Hs. destruct (Hr Hs) as [x Hx]. exists x, v. by split_and!.
    + intros v. apply rg_mret. intros e [HT Hh]. case_decide as Hd; [done|]. split; [done|]. apply Hh.
      by destruct (status v).
  - by intros e [? _].
  - intros a e He. exact He.
  - intros []; cbn beta. apply rg_act.
    + intros r. apply todo_and_stable, monotone_exists. intros x. apply monotone_and; [apply monotone_pure|apply monotone_holds].
    + intros e ((Hi & Hnd & HT) & x & Hx). pose proof Hx as (v & Hv & Hs & Hr). unfold wp.
      unfold readM, stat_add, modifyM, load_version, derefM, assertM, mbind, M_bind, lift, deref, getM. cbn.
      rewrite assert_true by done. cbn. rewrite Hv. cbn.
      assert (XInv (set_stat (fun st => Stat_add st WaitInExecution (u64 (rdtscp e - start))) e)) by (by apply XInv_stat).
      split; [intros _; split; [done|]; split; [by intros a w|done]|].
      split; [by split|]. exists x. split; [by rewrite Hr|]. by exists v.
Qed.

Lemma heap_ok_store (e : E) p v :
  heap_ok e -> versions e !! p = Some v -> rec v = None -> forall st,
  heap_ok (set_versions (insert p (mkVersion (Some (brk e)) st (deleted v)))
     (set_brk (Pos.succ (brk e)) (set_records (union {[brk e]}) e))).
Proof.
  intros [Hf Hl Hr Hi] Hv Hrec st.
  assert (Hb : forall a w, versions e !! a = Some w -> rec w <> Some (brk e)).
  { intros a w Ha Heq. pose proof (Hr _ (Hl a w _ Ha Heq)). lia. }
  constructor; cbn.
  - intros a w [[<- <-]|[_ Ha]]%lookup_insert_Some; [apply Hf in Hv; lia|apply Hf in Ha; lia].
  - intros a w r [[<- <-]|[_ Ha]]%lookup_insert_Some; cbn.
    + intros [= <-]. set_solver.
    + intros Hw. apply elem_of_union_r. by apply (Hl a w).
  - intros r [->%elem_of_singleton|Hin]%elem_of_union; [lia|]. apply Hr in Hin. lia.
  - intros a1 a2 w1 w2 r [[<- <-]|[? H1]]%lookup_insert_Some [[<- <-]|[? H2]]%lookup_insert_Some; cbn; try done.
    + intros [= <-] Hw2. by apply Hb in H2.
    + intros Hw1 [= <-]. by apply Hb in H1.
    + intros Hw1 Hw2. by apply (Hi a1 a2 w1 w2 r).
Qed.

Lemma heap_ok_status (e : E) p v st :
  heap_ok e -> versions e !! p = Some v ->
  heap_ok (set_versions (insert p (mkVersion (rec v) st (deleted v))) e).
Proof.
  intros [Hf Hl Hr Hi] Hv.
  assert (Hrec : forall a w, <[p:=mkVersion (rec v) st (deleted v)]> (versions e) !! a = Some w ->
    exists w', versions e !! a = Some w' /\ rec w' = rec w).
  { intros a w [[<- <-]|[_ Ha]]%lookup_insert_Some; [by exists v|by exists w]. }
  constructor; cbn.
  - intros a w (w' & Ha & _)%Hrec. by eapply Hf.
  - intros a w r (w' & Ha & <-)%Hrec. by apply (Hl a).
  - done.
  - intros a1 a2 w1 w2 r (w1' & H1 & <-)%Hrec (w2' & H2 & <-)%Hrec. by apply (Hi a1 a2 w1' w2').
Qed.

(** What changes when the worker stores into the version [p]. *)
Lemma store_step (e e' : E) p v v' :
  XInv e -> owner p = Some c -> versions e !! p = Some v -> status v = PENDING ->
  pending e0 p -> is_Some (rec v') -> deleted v' = deleted v -> heap_ok e' ->
  versions e' = <[p := v']> (versions e) ->
  rows e' = rows e -> pool e' = pool e -> used_ e' = used_ e -> lock_ e' = lock_ e -> handed_ e' = handed_ e ->
  GX c e e' /\ XInv e'.
Proof.
  intros [I1 I2 I3 I4 I5 I6 I7] Ho Hv Hs (v0 & Hv0 & Hs0 & Hr0) Hr Hd Hok Hvs R1 R2 R3 R4 R5.
  assert (Hadv : advanced v0 v').
  { right. split; [done|]. split; [|done]. pose proof (I7 p) as Ha. rewrite Hv0, Hv in Ha.
    inversion Ha as [? ? Hadv|]; subst. rewrite Hd. by destruct Hadv as [->|(_ & -> & _)]. }
  assert (Hi' : XInv e').
  { constructor; try congruence. intros a. rewrite Hvs. destruct (decide (a = p)) as [->|Hne].
    - rewrite lookup_insert_eq, Hv0. by constructor.
    - by rewrite lookup_insert_ne. }
  split; [|done]. intros _. split; [done|]. split.
  - intros a w Ha Hw. rewrite Hvs, lookup_insert_ne; [done|]. intros <-. congruence.
  - intros a Ha. rewrite Hvs, lookup_insert_ne; [done|]. intros <-. by destruct Ha.
Qed.

Lemma todo_store (e e' : E) p v' T :
  XInv e' -> NoDup (p :: T) -> Forall (fun q => owner q = Some c /\ pending e q) T ->
  versions e' = <[p := v']> (versions e) ->
  Forall (fun q => owner q = Some c /\ pending e' q) T.
Proof.
  intros Hi [Hp _]%NoDup_cons HT Hvs. apply Forall_forall. intros q Hq. rewrite Forall_forall in HT.
  destruct (HT q Hq) as [Ho (w & Hw & ?)]. split; [done|]. exists w. rewrite Hvs, lookup_insert_ne; [done|].
  by intros <-.
Qed.

(** The record is stored, the status not yet. *)
Definition halfway (p x : addr) (T : list addr) (e : E) : Prop :=
  XInv e /\ NoDup (p :: T) /\ owner p = Some c /\
  (exists v, versions e !! p = Some v /\ status v = PENDING /\ rec v = Some x) /\
  pending e0 p /\
  Forall (fun q => owner q = Some c /\ pending e q) T.

Hypothesis table_known : exists size, get_record_size schema table = Ok size.

Lemma rg_write_version p T :
  rg (RX c) (GX c) (todo (p :: T)) (write_version schema table (Some p))
    (fun r e => todo T e /\ exists x, r = Some x /\ holds e p x).
Proof.
  unfold write_version. destruct table_known as [size Hsize].
  eapply rg_bind; [apply (rg_look _ (p :: T) (fun _ _ => True)); [intros; apply monotone_true|]|intros n; cbn beta].
  { intros e Hi. exists size, e. unfold lift. by rewrite Hsize. }
  eapply rg_bind with (Q := fun x => halfway p x T).
  { eapply rg_conseq; [apply rg_act with (P := todo (p :: T)) (Q := fun x => halfway p x T)| |]; [| |by intros e [? _]|done].
    - intros x e e' (Hi & Hnd & Ho & (v & Hv & Hs) & Hp0 & HT) HR. destruct (HR Hi) as (Hi' & _ & HO).
      split; [done|]. split; [done|]. split; [done|]. split; [exists v; by rewrite HO|]. split; [done|].
      eapply Forall_impl; [exact HT|]. intros q [Hq (w & Hw & ?)]. split; [done|]. exists w. by rewrite HO.
    - intros e (Hi & Hnd & HT).
      apply Forall_cons in HT as [[Ho (v & Hv & Hs & Hr)] HT]. unfold wp.
      unfold new_record, load_version, store_version, modifyM, derefM, mbind, M_bind, lift, deref, getM. cbn. rewrite Hv. cbn. rewrite Hv. cbn.
      set (e' := set_versions _ _). set (v' := mkVersion (Some (brk e)) (status v) (deleted v)) in *.
      assert (pending e0 p) as Hp0.
      { pose proof (x_versions e Hi p) as Ha. rewrite Hv in Ha. inversion Ha as [v0 ? Hadv Heq1 Heq2|]; subst.
        destruct Hadv as [->|(? & _ & [r Hr'])]; [by exists v0|congruence]. }
      destruct (store_step e e' p v v') as [HG Hi']; try done.
      { apply heap_ok_store; [by apply x_heap|done..]. }
      do 4 (split; [done|]). split; [|split; [done|]].
      + exists v'. unfold e'. cbn. by rewrite lookup_insert_eq.
      + by apply (todo_store e e' p v'). }
  intros x; cbn beta. eapply rg_bind with (Q := fun _ e => todo T e /\ holds e p x).
  - apply rg_act; [intros _; apply todo_and_stable, monotone_holds|].
    intros e (Hi & Hnd & Ho & (v & Hv & Hs & Hr) & Hp0 & HT). unfold wp.
    unfold load_version, store_version, modifyM, derefM, mbind, M_bind, lift, deref, getM. cbn. rewrite Hv. cbn. rewrite Hv. cbn.
    set (e' := set_versions _ _). set (v' := mkVersion (rec v) STABLE (deleted v)) in *.
    destruct (store_step e e' p v v') as [HG Hi']; try done.
    { apply (heap_ok_status e p v); [by apply x_heap|done]. }
    split; [done|]. split.
    + split; [done|]. split; [by apply NoDup_cons in Hnd as [_ ?]|]. by apply (todo_store e e' p v').
    + exists v'. unfold e'. cbn. by rewrite lookup_insert_eq.
  - intros []. apply rg_mret. intros e [HT Hh]. split; [done|]. by exists x.
Qed.

(** ** Transactions *)
Context (vis : Z -> Z -> addr) (read : Z -> Z -> prog E ptr) (serial_of : Z -> Z).

(** A read of [key] by the transaction with serial [s] got the record of the
    version it should see. *)
Definition reads_from (s key : Z) (r : ptr) (e : E) : Prop :=
  exists x, r = Some x /\ holds e (vis s key) x.
Definition reads_done (s : Z) (ops : list Operation) (rs : list ptr) (e : E) : Prop :=
  Forall2 (fun key r => reads_from s key r e) (read_keys ops) rs.
Definition writes_done (T : list addr) (e : E) : Prop := Forall (fun p => exists x, holds e p x) T.

Definition key_known (i key : Z) : Prop := forall T,
  rg (RX c) (GX c) (todo T) (read i key) (fun r e => todo T e /\ reads_from (serial_of i) key r e).

Lemma monotone_reads s ops rs : monotone (reads_done s ops rs).
Proof.
  intros e e' Hs Hr. eapply Forall2_impl; [exact Hr|]. intros key r (x & ? & ?). exists x.
  split; [done|]. by eapply holds_settled.
Qed.
Lemma monotone_writes T : monotone (writes_done T).
Proof.
  intros e e' Hs Hr. eapply Forall_impl; [exact Hr|]. intros p [x ?]. exists x. by eapply holds_settled.
Qed.

Lemma rg_run_ops i ops : forall T,
  Forall (key_known i) (read_keys ops) ->
  rg (RX c) (GX c) (todo (written_versions ops ++ T)) (run_ops schema table (read i) ops)
    (fun rs e => todo T e /\ reads_done (serial_of i) ops rs e /\ writes_done (written_versions ops) e).
Proof.
  induction ops as [|op ops IH]; intros T Hk; cbn [run_ops].
  { apply rg_mret. intros e HT. split; [done|]. split; constructor. }
  unfold reads_done. rewrite read_keys_cons, written_versions_cons in *. destruct (ope_ op) eqn:Hop; cbn [app] in *.
  - apply Forall_cons in Hk as [Hkey Hk].
    eapply rg_bind with (Q := fun r e => todo (written_versions ops ++ T) e /\
       exists r0, r = [r0] /\ reads_from (serial_of i) (index_ op) r0 e).
    + eapply rg_bind; [apply Hkey|]. intros r; cbn beta. apply rg_mret. intros e [HT Hr]. split; [done|]. by exists r.
    + intros r; cbn beta. eapply rg_bind; [eapply (rg_monotone c _ _ _ (fun e => exists r0, r = [r0] /\ reads_from (serial_of i) (index_ op) r0 e));
        [|apply todo_inv|by apply IH]|].
      * apply monotone_exists. intros r0. apply monotone_and; [apply monotone_pure|].
        apply monotone_exists. intros x. apply monotone_and; [apply monotone_pure|apply monotone_holds].
      * intros rs; cbn beta. apply rg_mret. intros e ((HT & Hrs & Hws) & r0 & -> & Hr). split; [done|].
        split; [by constructor|done].
  - destruct (pending_ op) as [p|]; cbn [nonnull].
    + rewrite nonnull_Some by done. cbn [option_list app].
      eapply rg_bind with (Q := fun r e => todo (written_versions ops ++ T) e /\ (r = [] /\ exists x, holds e p x)).
      * eapply rg_bind; [apply rg_write_version|]. intros r; cbn beta. apply rg_mret.
        intros e (HT & x & _ & Hx). split; [done|]. split; [done|]. by exists x.
      * intros r; cbn beta. eapply rg_bind; [eapply (rg_monotone c _ _ _ (fun e => r = [] /\ exists x, holds e p x));
          [|apply todo_inv|by apply IH]|].
        -- apply monotone_and; [apply monotone_pure|]. apply monotone_exists, monotone_holds.
        -- intros rs; cbn beta. apply rg_mret. intros e ((HT & Hrs & Hws) & -> & Hp). split; [done|].
           split; [done|by constructor].
    + eapply rg_bind with (Q := fun r e => r = [] /\ todo (written_versions ops ++ T) e).
      * by apply rg_mret.
      * intros r; cbn beta. apply rg_pure. intros ->. eapply rg_bind; [by apply IH|].
        intros rs; cbn beta. by apply rg_mret.
Qed.

(** The transactions [l] of the worker are those at the positions from [i] on. *)
Fixpoint txs_done (i : Z) (l : list OperationSet) (rss : list (list ptr)) (e : E) : Prop :=
  match l, rss with
  | [], [] => True
  | tx :: l', rs :: rss' =>
      reads_done (serial_of i) (rw_set_ tx) rs e /\ writes_done (written_versions (rw_set_ tx)) e /\
      txs_done (i + 1) l' rss' e
  | _, _ => False
  end.
Definition all_versions (l : list OperationSet) : list addr := concat ((fun tx => written_versions (rw_set_ tx)) <$> l).

Lemma rg_run_txs index txs l : forall i T,
  0 <= i -> i + Z.of_nat (length l) <= Z.of_nat (length txs) ->
  (forall k tx, l !! k = Some tx -> 0 <= index (i + Z.of_nat k) /\
     txs !! Z.to_nat (index (i + Z.of_nat k)) = Some tx /\ Forall (key_known (i + Z.of_nat k)) (read_keys (rw_set_ tx))) ->
  rg (RX c) (GX c) (todo (all_versions l ++ T)) (run_txs schema table read index txs i (length l))
    (fun rss e => todo T e /\ txs_done i l rss e).
Proof.
  induction l as [|tx l IH]; intros i T Hi Hlen Hl; cbn [run_txs length].
  { by apply rg_mret. }
  destruct (Hl 0%nat tx eq_refl) as (Hx & Htx & Hk). rewrite Z.add_0_r in Hx, Htx, Hk.
  change (all_versions (tx :: l)) with (written_versions (rw_set_ tx) ++ all_versions l). rewrite <- app_assoc.
  eapply rg_bind; [apply (rg_look _ (written_versions (rw_set_ tx) ++ all_versions l ++ T) (fun _ _ => True)); [intros; apply monotone_true|]|intros []; cbn beta].
  { intros e He. exists tt, e. split; [|done]. unfold assertM, lift. rewrite assert_true; [done|]. cbn in Hlen. lia. }
  eapply rg_bind with (Q := fun t e => t = tx /\ todo (written_versions (rw_set_ tx) ++ all_versions l ++ T) e).
  { eapply rg_conseq; [apply (rg_look _ (written_versions (rw_set_ tx) ++ all_versions l ++ T) (fun t _ => t = tx)); [intros; apply monotone_pure|]|by intros e [? _]|].
    - intros e He. exists tx, e. split; [|done]. unfold lift, vector_at. rewrite decide_True by done. by rewrite Htx.
    - by intros t e [? ->]. }
  intros t; cbn beta. apply rg_pure. intros ->.
  eapply rg_bind; [by apply rg_run_ops|]. intros rs; cbn beta.
  eapply rg_bind; [eapply (rg_monotone c _ _ _ (fun e => reads_done (serial_of i) (rw_set_ tx) rs e /\
      writes_done (written_versions (rw_set_ tx)) e)); [|apply todo_inv|apply (IH (i + 1) T)]|].
  - apply monotone_and; [apply monotone_reads|apply monotone_writes].
  - lia.
  - cbn in Hlen. lia.
  - intros k t Hk'. destruct (Hl (S k) t Hk') as (H1 & H2 & H3).
    replace (i + 1 + Z.of_nat k) with (i + Z.of_nat (S k)) by lia. done.
  - intros rss; cbn beta. apply rg_mret. intros e ((HT & Hrss) & Hr & Hw). split; [done|]. by split_and!.
Qed.

End Invariant.

(** ** All workers *)
Section Parallel.
Context {P R : Type} `{BuildConfig}.
Local Abbreviation E := (Env P R).
Context (schema : Schema) (table : Z) (e0 : E) (vis : Z -> Z -> addr).
Context (read : nat -> Z -> Z -> prog E ptr) (txs : list OperationSet) (head : Z) (n : nat).

(** Worker [c] executes the serials [c, 64 + c, 2 * 64 + c ...]; serial [s] is [txs[head + s]]. *)
Definition round_robin_serial (c : nat) (i : Z) : Z := i * 64 + Z.of_nat c.
Definition execution_workers : list (prog E (list (list ptr))) :=
  (fun c => run_txs schema table (read c) (fun i => head + round_robin_serial c i) txs 0 n) <$> seq 0 64.
Definition executes (s : Z) : Prop := 0 <= s < 64 * Z.of_nat n.
Definition ops_of (s : Z) : list Operation :=
  match txs !! Z.to_nat (head + s) with Some tx => rw_set_ tx | None => [] end.

(** The executing worker of the transaction that writes [p]. *)
Definition owner (p : addr) : option nat :=
  (fun q => Z.to_nat (q.2 mod 64)) <$> list_find (fun s => p ∈ written_versions (ops_of s)) (seqZ 0 (64 * Z.of_nat n)).

Record execution_start : Prop := {
  es_heap : heap_ok e0;
  es_head : 0 <= head;
  es_table : exists size, get_record_size schema table = Ok size;
  es_txs : forall s, executes s -> exists tx, txs !! Z.to_nat (head + s) = Some tx;
  es_pending : forall s p, executes s -> p ∈ written_versions (ops_of s) -> pending e0 p;
  es_nodup : forall s, executes s -> NoDup (written_versions (ops_of s));
  es_disjoint : forall s1 s2 p, executes s1 -> executes s2 ->
    p ∈ written_versions (ops_of s1) -> p ∈ written_versions (ops_of s2) -> s1 = s2;
  es_reads : forall c o i key, (c < 64)%nat -> 0 <= i < Z.of_nat n ->
    key ∈ read_keys (ops_of (round_robin_serial c i)) ->
    key_known e0 o c vis (read c) (round_robin_serial c) i key
}.
Hypothesis start : execution_start.

Definition batch (c : nat) : list OperationSet :=
  (fun i => default (mkOperationSet [] []) (txs !! Z.to_nat (head + round_robin_serial c i))) <$> seqZ 0 (Z.of_nat n).

Lemma executes_serial c i : (c < 64)%nat -> 0 <= i < Z.of_nat n -> executes (round_robin_serial c i).
Proof. unfold executes, round_robin_serial. lia. Qed.

Lemma batch_lookup c k :
  (c < 64)%nat -> (k < n)%nat ->
  exists tx, batch c !! k = Some tx /\ txs !! Z.to_nat (head + round_robin_serial c (Z.of_nat k)) = Some tx /\
    rw_set_ tx = ops_of (round_robin_serial c (Z.of_nat k)).
Proof.
  intros Hc Hk. destruct (es_txs start (round_robin_serial c (Z.of_nat k))) as [tx Htx];
    [apply executes_serial; lia|].
  exists tx. split_and!; [|done|unfold ops_of; by rewrite Htx].
  unfold batch. rewrite list_lookup_fmap, lookup_seqZ_lt by lia. csimpl. by rewrite Z.add_0_l, Htx.
Qed.

Lemma batch_length c : length (batch c) = n.
Proof. unfold batch. rewrite length_fmap, length_seqZ. lia. Qed.

Lemma owner_of s p : executes s -> p ∈ written_versions (ops_of s) -> owner p = Some (Z.to_nat (s mod 64)).
Proof.
  intros Hs Hp. unfold owner.
  destruct (list_find _ _) as [[k s']|] eqn:Hf.
  - apply list_find_Some in Hf as (Hk & Hp' & _). apply lookup_seqZ in Hk as [-> Hk]. simpl.
    rewrite (es_disjoint start (0 + Z.of_nat k) s p); [done|unfold executes; lia|done..].
  - exfalso. apply list_find_None in Hf. rewrite Forall_forall in Hf. apply (Hf s); [|done].
    unfold executes in Hs. apply elem_of_seqZ. lia.
Qed.

Lemma batch_elem c tx : (c < 64)%nat -> tx ∈ batch c ->
  exists k, (k < n)%nat /\ batch c !! k = Some tx /\ rw_set_ tx = ops_of (round_robin_serial c (Z.of_nat k)).
Proof.
  intros Hc (k & Hk)%list_elem_of_lookup. pose proof (lookup_lt_Some _ _ _ Hk) as Hlt. rewrite batch_length in Hlt.
  destruct (batch_lookup c k Hc Hlt) as (tx' & Hk' & _ & Hops). exists k. split; [done|]. split; [done|]. congruence.
Qed.

Lemma start_todo c : (c < 64)%nat -> todo e0 owner c (all_versions (batch c)) e0.
Proof.
  intros Hc. split; [|split].
  - constructor; try done; [apply start|]. intros a. destruct (versions e0 !! a); constructor. by left.
  - assert (Hall : forall l i, (forall k tx, l !! k = Some tx -> executes (round_robin_serial c (i + Z.of_nat k)) /\
        rw_set_ tx = ops_of (round_robin_serial c (i + Z.of_nat k))) -> NoDup (all_versions l)).
    { clear -start. induction l as [|tx l IH]; intros i Hl; [constructor|].
      destruct (Hl 0%nat tx eq_refl) as [Hex Hops]. rewrite Z.add_0_r in *.
      change (all_versions (tx :: l)) with (written_versions (rw_set_ tx) ++ all_versions l).
      apply NoDup_app. split; [rewrite Hops; by apply (es_nodup start)|]. split.
      - intros p Hp (tx' & Hin & Hp')%elem_of_concat_fmap. apply list_elem_of_lookup in Hin as [k Hk].
        destruct (Hl (S k) tx' Hk) as [Hex' Hops']. rewrite Hops in Hp. rewrite Hops' in Hp'.
        pose proof (es_disjoint start _ _ p Hex Hex' Hp Hp') as Heq. unfold round_robin_serial in Heq. lia.
      - apply (IH (i + 1)). intros k t Hk. destruct (Hl (S k) t Hk).
        replace (i + 1 + Z.of_nat k) with (i + Z.of_nat (S k)) by lia. done. }
    apply (Hall (batch c) 0). intros k tx Hk. pose proof (lookup_lt_Some _ _ _ Hk) as Hlt. rewrite batch_length in Hlt.
    destruct (batch_lookup c k Hc Hlt) as (tx' & Hk' & _ & Hops). rewrite Z.add_0_l. split; [apply executes_serial; lia|congruence].
  - apply Forall_forall. intros p (tx & Hin & Hp)%elem_of_concat_fmap.
    destruct (batch_elem c tx Hc Hin) as (k & Hk & _ & Hops). rewrite Hops in Hp.
    pose proof (executes_serial c (Z.of_nat k) Hc ltac:(lia)) as Hex. split; [|by eapply (es_pending start)].
    rewrite (owner_of _ p Hex Hp). unfold round_robin_serial. rewrite Z.add_comm, Z_mod_plus_full, Z.mod_small by lia.
    by rewrite Nat2Z.id.
Qed.

(** Transaction [s] is done, with the records [rs] read. *)
Definition executed (s : Z) (rs : list ptr) (e : E) : Prop :=
  reads_done vis s (ops_of s) rs e /\ writes_done (written_versions (ops_of s)) e.

Lemma txs_done_lookup c l : forall i rss (e : E) k tx,
  txs_done vis (round_robin_serial c) i l rss e -> l !! k = Some tx ->
  exists rs, rss !! k = Some rs /\ reads_done vis (round_robin_serial c (i + Z.of_nat k)) (rw_set_ tx) rs e /\
    writes_done (written_versions (rw_set_ tx)) e.
Proof.
  induction l as [|t l IH]; intros i rss e k tx Hd Hk; [done|]. destruct rss as [|rs rss]; [done|].
  destruct Hd as (Hr & Hw & Hd). destruct k as [|k]; simplify_eq/=.
  - exists rs. rewrite Z.add_0_r. by split_and!.
  - destruct (IH (i + 1) rss e k tx Hd Hk) as (rs' & ? & ? & ?). exists rs'. split; [done|]. split; [|done].
    by replace (i + Z.of_nat (S k)) with (i + 1 + Z.of_nat k) by lia.
Qed.

Lemma txs_done_length c l : forall i rss (e : E), txs_done vis (round_robin_serial c) i l rss e -> length rss = length l.
Proof.
  induction l as [|t l IH]; intros i [|rs rss] e Hd; try done. destruct Hd as (_ & _ & Hd). cbn. by rewrite (IH _ _ _ Hd).
Qed.

Lemma execution_phase_runs sched :
  exists pool' e, run_schedule sched execution_workers e0 = Ok (pool', e) /\ length pool' = 64%nat /\ XInv e0 e /\
    settled e0 e /\
    forall c rss, pool' !! c = Some (Ret rss) -> length rss = n /\
      forall k, (k < n)%nat -> exists rs, rss !! k = Some rs /\ executed (round_robin_serial c (Z.of_nat k)) rs e.
Proof.
  destruct (rg_parallel (RX e0 owner) (GX e0 owner) (RX_refl e0 owner) (RX_trans e0 owner)
    (fun i j e e' => GX_RX e0 owner i j e e') execution_workers
    (fun c => todo e0 owner c (all_versions (batch c)))
    (fun c rss e => todo e0 owner c [] e /\ txs_done vis (round_robin_serial c) 0 (batch c) rss e) e0)
    with (sched := sched) as (pool' & e & Hrun & Hlen & Hsteps & Hpost).
  { intros c p Hp. unfold execution_workers in Hp. rewrite list_lookup_fmap in Hp.
    apply fmap_Some in Hp as (c' & [-> Hc]%lookup_seq & ->). rewrite Nat.add_0_l in *.
    split_and!; [by apply start_todo|apply todo_stable|]. rewrite <- (batch_length c) at 1.
    rewrite <- (app_nil_r (all_versions (batch c))). apply rg_run_txs; [by apply es_table|lia| |].
    - rewrite batch_length. destruct (decide (n = 0%nat)) as [Hz|Hnz]; [lia|].
      destruct (batch_lookup c (n - 1) Hc) as (t & _ & Htx & _); [lia|]. apply lookup_lt_Some in Htx.
      pose proof (es_head start). unfold round_robin_serial in Htx. lia.
    - intros k tx Hk. pose proof (lookup_lt_Some _ _ _ Hk) as Hlt. rewrite batch_length in Hlt.
      destruct (batch_lookup c k Hc Hlt) as (tx' & Hk' & Htx & Hops). assert (tx' = tx) as -> by congruence.
      rewrite Z.add_0_l. pose proof (executes_serial c (Z.of_nat k) Hc ltac:(lia)) as Hex.
      pose proof (es_head start) as Hh. split; [unfold executes in Hex; lia|]. split; [done|].
      apply Forall_forall. intros key Hkey. rewrite Hops in Hkey. apply (es_reads start c owner); [done|lia|done]. }
  exists pool', e. split; [done|]. split; [by rewrite Hlen; unfold execution_workers; rewrite length_fmap, length_seq|].
  assert (Hinv : XInv e0 e /\ settled e0 e).
  { clear -Hsteps start. unfold steps in Hsteps.
    assert (Hall : forall s s', rtc (fun s s' => exists i, GX e0 owner i s s') s s' -> XInv e0 s -> XInv e0 s' /\ settled s s').
    { induction 1 as [s|s1 s2 s3 [i HG] _ IH]; intros Hi; [split; [done|apply settled_refl]|].
      destruct (HG Hi) as (Hi' & Hs & _). destruct (IH Hi') as [Hi'' Hs'']. split; [done|]. by eapply settled_trans. }
    apply (Hall e0 e Hsteps). by destruct (start_todo 0 ltac:(lia)). }
  destruct Hinv as [Hi Hs]. split; [done|]. split; [done|].
  intros c rss Hc. destruct (Hpost c rss Hc) as [_ Hd]. split; [by rewrite (txs_done_length _ _ _ _ _ Hd), batch_length|].
  intros k Hk. assert (Hc64 : (c < 64)%nat).
  { apply lookup_lt_Some in Hc. unfold execution_workers in Hlen. rewrite length_fmap, length_seq in Hlen. lia. }
  destruct (batch_lookup c k Hc64 Hk) as (tx & Hk' & _ & Hops).
  destruct (txs_done_lookup c _ 0 rss e k tx Hd Hk') as (rs & Hrs & Hr & Hw). rewrite Z.add_0_l, Hops in *.
  exists rs. split; [done|]. by split.
Qed.

End Parallel.
