(* ===== verification/Epoch.v ===== *)
(** * Epoch: from the initialisation phase of an epoch to its execution phase

    The initialisation phase of Serval and Caracal leaves a history of pending
    versions per row, [hist a]: one entry per transaction that writes the row,
    in serial order, and the operations hold the same versions.  This file
    shows that this is all the execution phase needs, and states what a correct
    epoch is: [serial_read], every read returns what a serial execution of the
    transactions in the order of their serials would return. *)
From S2P Require Import Prelude Schema Ycsb Conc RWLock Memory Txs Execution.

Section Epoch.
Context {P R : Type} `{BuildConfig}.
Local Abbreviation E := (Env P R).
Context (find : Z -> Z -> option addr) (table : Z).

(** ** The specification *)

(** The last transaction before [s] that writes row [a]. *)
Definition writer_before (txs : list OperationSet) (head s : Z) (a : addr) : option Z :=
  last (filter (fun s' => writes_row find table txs head s' a) (seqZ 0 s)).
(** Transaction [s] writes [key] in the version [p]. *)
Definition written_by (txs : list OperationSet) (head s key : Z) (p : addr) : Prop :=
  exists tx op, txs !! Z.to_nat (head + s) = Some tx /\ op ∈ rw_set_ tx /\ ope_ op = Update /\
    index_ op = key /\ pending_ op = Some p.
(** A read of [key] by transaction [s] returned the record of the last write
    before it ([txs2] is [txs] with the versions), or of the version [base] of the row when nobody writes it before. *)
Definition serial_read (txs txs2 : list OperationSet) (head : Z) (base : addr -> ptr) (e : E) (s key : Z) (r : ptr) : Prop :=
  exists a p x, find table key = Some a /\ r = Some x /\ holds e p x /\
    match writer_before txs head s a with
    | Some s' => written_by txs2 head s' key p
    | None => base a = Some p
    end.

(** ** What the initialisation phase leaves *)

(** The operations are updates exactly where [w_set_] points, nothing is pending yet. *)
Definition well_formed (tx : OperationSet) : Prop :=
  forall j op, rw_set_ tx !! j = Some op -> pending_ op = None /\ (ope_ op = Update <-> j ∈ w_set_ tx).

Context (W : gset addr) (e1 : E) (hist : addr -> list (Z * ptr)) (base : addr -> ptr).
Context (txs txs2 : list OperationSet) (head : Z) (n : nat).

(** [txs2] are the transactions [txs] of the serials below [64 n] with their
    pending versions; the rows that are read have a readable base version. *)
Record epoch_ready : Prop := {
  er_heap : heap_ok e1;
  er_head : 0 <= head;
  er_txs : forall s, executes n s -> exists tx out, txs !! Z.to_nat (head + s) = Some tx /\
     txs2 !! Z.to_nat (head + s) = Some out /\ well_formed tx /\
     appendable find table W (rw_set_ tx) (w_set_ tx) /\
     installed find table hist s (rw_set_ tx) (rw_set_ out) (w_set_ tx) /\
     forall op, op ∈ rw_set_ tx -> is_key (index_ op) /\ exists a, find table (index_ op) = Some a /\ is_Some (rows e1 !! a);
  er_ids : forall a, is_Some (rows e1 !! a) ->
     ids (hist a) = filter (fun s => writes_row find table txs head s a) (seqZ 0 (64 * Z.of_nat n));
  er_pending : forall a s p, is_Some (rows e1 !! a) -> (s, p) ∈ hist a -> exists q, p = Some q /\ pending e1 q;
  er_inj : forall a1 a2 s1 s2 p, is_Some (rows e1 !! a1) -> is_Some (rows e1 !! a2) ->
     (s1, p) ∈ hist a1 -> (s2, p) ∈ hist a2 -> a1 = a2 /\ s1 = s2;
  er_base : forall a, is_Some (rows e1 !! a) -> exists q, base a = Some q /\ collectable e1 q
}.

(** The initialisation phase has only filled in pending versions. *)
Definition same_operations : Prop := forall s, executes n s -> exists tx tx2,
  txs !! Z.to_nat (head + s) = Some tx /\ txs2 !! Z.to_nat (head + s) = Some tx2 /\
  (fun op => (ope_ op, index_ op, value_ op)) <$> rw_set_ tx2 = (fun op => (ope_ op, index_ op, value_ op)) <$> rw_set_ tx.

Lemma ready_same_operations : epoch_ready -> same_operations.
Proof.
  intros Hready s Hs. destruct (er_txs Hready s Hs) as (tx & out & Htx & Hout & _ & _ & [Hlen Hinst] & _).
  exists tx, out. split_and!; [done..|]. apply list_eq. intros j. rewrite !list_lookup_fmap.
  destruct (rw_set_ tx !! j) as [op|] eqn:Hop.
  - destruct (Hinst j op Hop) as (op' & -> & Ho & Hx & Hv & _). cbn. congruence.
  - apply lookup_ge_None in Hop. by rewrite (proj2 (lookup_ge_None (rw_set_ out) j)) by lia.
Qed.

(** The version a read sees, from the histories. *)
Definition visible (a : addr) (s : Z) : addr :=
  match visible_before s (hist a) with
  | Some (_, Some q) => q
  | _ => default 1%positive (base a)
  end.
Definition vis (s key : Z) : addr := match find table key with Some a => visible a s | None => 1%positive end.

Hypothesis find_inj : forall k1 k2 a, is_key k1 -> is_key k2 ->
  find table k1 = Some a -> find table k2 = Some a -> k1 = k2.
Hypothesis ready : epoch_ready.

Lemma hist_ascending a : is_Some (rows e1 !! a) -> ascending (hist a).
Proof. intros Ha. unfold ascending. rewrite (er_ids ready a Ha). apply sorted_filter, sorted_seqZ. Qed.

(** Where the pending versions of a transaction come from. *)
Lemma written_version s p :
  executes n s -> p ∈ written_versions (ops_of txs2 head s) ->
  exists tx j op a, txs !! Z.to_nat (head + s) = Some tx /\ rw_set_ tx !! j = Some op /\
    find table (index_ op) = Some a /\ is_key (index_ op) /\ is_Some (rows e1 !! a) /\ (s, Some p) ∈ hist a /\
    j ∈ w_set_ tx /\ exists op', ops_of txs2 head s !! j = Some op' /\ pending_ op' = Some p.
Proof.
  intros Hs Hp. destruct (er_txs ready s Hs) as (tx & out & Htx & Hout & Hwf & _ & [Hlen Hinst] & Hknown).
  unfold ops_of in *. rewrite Hout in *. apply list_elem_of_omap in Hp as (op' & Hop' & Hp).
  apply list_elem_of_lookup in Hop' as [j Hj].
  destruct (lookup_lt_is_Some_2 (rw_set_ tx) j) as [op Hop]; [rewrite <- Hlen; by eapply lookup_lt_Some|].
  destruct (Hinst j op Hop) as (op2 & Hj2 & Hope & Hidx & _ & Hno & Hyes). assert (op2 = op') as -> by congruence.
  destruct (Hwf j op Hop) as [Hpend Hup]. destruct (Hknown op) as [Hkey (a0 & Ha0 & Hrow)]; [by eapply list_elem_of_lookup_2|].
  destruct (decide (j ∈ w_set_ tx)) as [Hw|Hw].
  - destruct (Hyes Hw) as (a & Ha & _ & Hin). destruct (ope_ op'); [done|]. rewrite Hp in Hin.
    assert (a0 = a) as -> by congruence. exists tx, j, op, a. split_and!; try done. by exists op'.
  - rewrite Hno in Hp by done. rewrite Hpend in Hp. by destruct (ope_ op).
Qed.

Lemma written_nodup s : executes n s -> NoDup (written_versions (ops_of txs2 head s)).
Proof.
  intros Hs. apply NoDup_omap. intros i j x y p Hi Hj Hx Hy.
  destruct (er_txs ready s Hs) as (tx & out & Htx & Hout & Hwf & (_ & Hnd & _) & [Hlen Hinst] & Hknown).
  unfold ops_of in *. rewrite Hout in *.
  assert (Hrow : forall k z, rw_set_ out !! k = Some z -> (match ope_ z with Read => None | Update => pending_ z end) = Some p ->
    exists op a, rw_set_ tx !! k = Some op /\ find table (index_ op) = Some a /\ is_key (index_ op) /\
      is_Some (rows e1 !! a) /\ (s, Some p) ∈ hist a).
  { intros k z Hk Hz. destruct (lookup_lt_is_Some_2 (rw_set_ tx) k) as [op Hop]; [rewrite <- Hlen; by eapply lookup_lt_Some|].
    destruct (Hinst k op Hop) as (op2 & Hk2 & Hope & Hidx & _ & Hno & Hyes). assert (op2 = z) as -> by congruence.
    destruct (Hwf k op Hop) as [Hpend Hup]. destruct (Hknown op) as [Hkey (a0 & Ha0 & Hr)]; [by eapply list_elem_of_lookup_2|].
    destruct (decide (k ∈ w_set_ tx)) as [Hw|Hw].
    - destruct (Hyes Hw) as (a & Ha & _ & Hin). destruct (ope_ z); [done|]. rewrite Hz in Hin.
      assert (a0 = a) as -> by congruence. by exists op, a.
    - rewrite Hno in Hz by done. rewrite Hpend in Hz. by destruct (ope_ op). }
  destruct (Hrow i x Hi Hx) as (op1 & a1 & H1 & F1 & K1 & R1 & I1).
  destruct (Hrow j y Hj Hy) as (op2 & a2 & H2 & F2 & K2 & R2 & I2).
  destruct (er_inj ready a1 a2 s s (Some p) R1 R2 I1 I2) as [-> _].
  pose proof (find_inj _ _ _ K1 K2 F1 F2) as Heq.
  apply (NoDup_lookup (index_ <$> rw_set_ tx) i j (index_ op1) Hnd); rewrite list_lookup_fmap, ?H1, ?H2; simpl; congruence.
Qed.

(** Every entry of a history is the version of its transaction. *)
Lemma history_written a s p :
  is_Some (rows e1 !! a) -> (s, p) ∈ hist a ->
  executes n s /\ exists q, p = Some q /\ q ∈ written_versions (ops_of txs2 head s) /\
    forall key, is_key key -> find table key = Some a -> written_by txs2 head s key q.
Proof.
  intros Ha Hin. destruct (er_pending ready a s p Ha Hin) as (q & -> & _).
  assert (s ∈ ids (hist a)) as Hid by (apply list_elem_of_fmap; by exists (s, Some q)).
  rewrite (er_ids ready a Ha) in Hid. apply list_elem_of_filter in Hid as [Hw Hs%elem_of_seqZ].
  assert (executes n s) as Hex by (unfold executes; lia). split; [done|]. exists q. split; [done|].
  destruct (er_txs ready s Hex) as (tx & out & Htx & Hout & Hwf & (_ & _ & Happ) & [Hlen Hinst] & Hknown).
  unfold writes_row in Hw. rewrite Htx in Hw. unfold rows_written in Hw.
  apply list_elem_of_omap in Hw as (j & Hj & Hrow). destruct (Happ j Hj) as (op & a' & Hop & _ & Hk & Hf & _).
  unfold op_row in Hrow. rewrite Hop in Hrow. simpl in Hrow. assert (a' = a) as -> by congruence.
  destruct (Hinst j op Hop) as (op' & Hop' & Hope & Hidx & _ & _ & Hyes). destruct (Hyes Hj) as (a' & Ha' & [q' Hq'] & Hin').
  assert (a' = a) as -> by congruence.
  assert (q' = q) as ->.
  { pose proof (hist_ascending a Ha) as Hasc. rewrite Hq' in Hin'.
    apply list_elem_of_lookup in Hin as [i1 H1]. apply list_elem_of_lookup in Hin' as [i2 H2].
    assert (i1 = i2) as ->.
    { apply (NoDup_lookup (ids (hist a)) i1 i2 s); [by apply sorted_NoDup| |];
        unfold ids; rewrite list_lookup_fmap, ?H1, ?H2; done. }
    congruence. }
  pose proof (proj2 (proj2 (Hwf j op Hop)) Hj) as Hup. rewrite <- Hope in Hup. split.
  - unfold ops_of. rewrite Hout. apply list_elem_of_omap. exists op'. split; [by eapply list_elem_of_lookup_2|]. by rewrite Hup.
  - intros key Hkey Hfind. exists out, op'. split_and!; try done; [by eapply list_elem_of_lookup_2|].
    rewrite Hidx. by apply (find_inj _ _ a).
Qed.

(** The version seen is readable. *)
Lemma visible_readable a s : is_Some (rows e1 !! a) -> readable e1 (visible a s).
Proof.
  intros Ha. unfold visible. destruct (visible_before s (hist a)) as [[s' p]|] eqn:Hv.
  - apply visible_before_spec in Hv as (Hin & _); [|by apply hist_ascending].
    destruct (er_pending ready a s' p Ha Hin) as (q & -> & Hq). by left.
  - destruct (er_base ready a Ha) as (q & -> & Hq). by right.
Qed.

(** It is the version of the last writer. *)
Lemma visible_serial e s key a x :
  executes n s -> is_key key -> find table key = Some a -> is_Some (rows e1 !! a) ->
  holds e (visible a s) x -> serial_read txs txs2 head base e s key (Some x).
Proof.
  intros Hs Hkey Hf Ha Hx. exists a, (visible a s), x. split_and!; [done..|].
  pose proof (last_ids (hist a) s) as Hlast. rewrite (er_ids ready a Ha) in Hlast.
  unfold executes in Hs. rewrite filter_comm, filter_below_seqZ in Hlast by lia.
  fold (writer_before txs head s a) in Hlast. rewrite <- Hlast. unfold visible.
  destruct (visible_before s (hist a)) as [[s' p]|] eqn:Hv; simpl.
  - apply visible_before_spec in Hv as (Hin & _); [|by apply hist_ascending].
    destruct (history_written a s' p Ha Hin) as (_ & q & -> & _ & Hw). by apply Hw.
  - destruct (er_base ready a Ha) as (q & -> & _). done.
Qed.

(** The last version of a row's history is that of the last transaction that writes the row. *)
Lemma history_last a key :
  is_Some (rows e1 !! a) -> is_key key -> find table key = Some a ->
  match writer_before txs head (64 * Z.of_nat n) a with
  | Some s => exists p, last (hist a) = Some (s, Some p) /\ written_by txs2 head s key p
  | None => hist a = []
  end.
Proof.
  intros Ha Hkey Hf. unfold writer_before. rewrite <- (er_ids ready a Ha). unfold ids. rewrite fmap_last.
  destruct (last (hist a)) as [[s p]|] eqn:Hl; cbn; [|by apply last_None].
  assert (Hin : (s, p) ∈ hist a) by (apply last_Some in Hl as [l' ->]; set_solver).
  destruct (history_written a s p Ha Hin) as (_ & q & -> & _ & Hw). exists q. split; [done|by apply Hw].
Qed.

(** ** The execution phase of the epoch *)
Context (schema : Schema) (read : nat -> Z -> Z -> prog E ptr).

(** A protocol's read of a key finds the visible version of its row. *)
Definition reads_visible : Prop := forall o c i key a T,
  (c < 64)%nat -> 0 <= i < Z.of_nat n -> find table key = Some a -> is_Some (rows e1 !! a) ->
  rg (RX e1 o c) (GX e1 o c) (todo e1 o c T) (read c i key)
    (fun r e => todo e1 o c T e /\ exists x, r = Some x /\ holds e (visible a (round_robin_serial c i)) x).

Lemma read_key s key :
  executes n s -> key ∈ read_keys (ops_of txs2 head s) ->
  is_key key /\ exists a, find table key = Some a /\ is_Some (rows e1 !! a).
Proof.
  intros Hs Hkey. destruct (er_txs ready s Hs) as (tx & out & Htx & Hout & _ & _ & [Hlen Hinst] & Hknown).
  unfold ops_of in Hkey. rewrite Hout in Hkey. apply list_elem_of_omap in Hkey as (op' & Hop' & Hk).
  apply list_elem_of_lookup in Hop' as [j Hj].
  destruct (lookup_lt_is_Some_2 (rw_set_ tx) j) as [op Hop]; [rewrite <- Hlen; by eapply lookup_lt_Some|].
  destruct (Hinst j op Hop) as (op2 & Hj2 & Hope & Hidx & _). assert (op2 = op') as -> by congruence.
  destruct (ope_ op'); [|done]. injection Hk as <-. rewrite Hidx. apply Hknown. by eapply list_elem_of_lookup_2.
Qed.

Lemma ready_start :
  (exists size, get_record_size schema table = Ok size) -> reads_visible ->
  execution_start schema table e1 vis read txs2 head n.
Proof.
  intros Hsch Hreads. constructor.
  - apply (er_heap ready).
  - apply (er_head ready).
  - done.
  - intros s Hs. destruct (er_txs ready s Hs) as (_ & out & _ & Hout & _). by exists out.
  - intros s p Hs Hp. destruct (written_version s p Hs Hp) as (_ & _ & _ & a & _ & _ & _ & _ & Ha & Hin & _).
    by destruct (er_pending ready a s (Some p) Ha Hin) as (q & [= <-] & Hq).
  - apply written_nodup.
  - intros s1 s2 p H1 H2 Hp1 Hp2.
    destruct (written_version s1 p H1 Hp1) as (_ & _ & _ & a1 & _ & _ & _ & _ & Ha1 & Hin1 & _).
    destruct (written_version s2 p H2 Hp2) as (_ & _ & _ & a2 & _ & _ & _ & _ & Ha2 & Hin2 & _).
    by destruct (er_inj ready a1 a2 s1 s2 (Some p)).
  - intros c o i key Hc Hi Hkey T. pose proof (executes_serial n c i Hc Hi) as Hex.
    destruct (read_key _ key Hex Hkey) as (_ & a & Ha & Hr).
    eapply rg_conseq; [by apply (Hreads o c i key a T)|done|].
    intros r e [HT (x & -> & Hx)]. split; [done|]. exists x. split; [done|]. unfold vis. by rewrite Ha.
Qed.

(** What the epoch leaves behind. *)
Definition reads_serial (e : E) (s : Z) (rs : list ptr) : Prop :=
  Forall2 (fun key r => serial_read txs txs2 head base e s key r) (read_keys (ops_of txs2 head s)) rs.

Lemma executed_serial e s rs :
  executes n s -> executed vis txs2 head s rs e -> reads_serial e s rs.
Proof.
  intros Hs [Hr _]. unfold reads_done in Hr. apply Forall2_same_length_lookup in Hr as [Hlen Hr].
  apply Forall2_same_length_lookup. split; [done|]. intros k key r Hk Hrs.
  destruct (Hr k key r Hk Hrs) as (x & -> & Hx).
  destruct (read_key s key Hs) as (Hkey & a & Ha & Hrow); [by eapply list_elem_of_lookup_2|].
  apply (visible_serial e s key a); try done. unfold vis in Hx. by rewrite Ha in Hx.
Qed.

Theorem epoch_execution sched :
  (exists size, get_record_size schema table = Ok size) -> reads_visible ->
  exists pool' e, run_schedule sched (execution_workers schema table read txs2 head n) e1 = Ok (pool', e) /\
    XInv e1 e /\ length pool' = 64%nat /\
    (forall c rss, pool' !! c = Some (Ret rss) -> length rss = n) /\
    (forall c rss k rs, pool' !! c = Some (Ret rss) -> rss !! k = Some rs ->
       reads_serial e (round_robin_serial c (Z.of_nat k)) rs) /\
    (all_done pool' -> forall a q, is_Some (rows e1 !! a) -> q ∈ hist a -> collectable_ptr e q.2).
Proof.
  intros Hsch Hreads. pose proof (ready_start Hsch Hreads) as Hst.
  destruct (execution_phase_runs schema table e1 vis read txs2 head n Hst sched)
    as (pool' & e & Hrun & Hlen & Hi & _ & Hpost).
  exists pool', e. split; [done|]. split; [done|]. split; [done|].
  split; [intros c rss Hc; by destruct (Hpost c rss Hc)|]. split.
  - intros c rss k rs Hc Hk. pose proof (lookup_lt_Some _ _ _ Hc) as Hc64. rewrite Hlen in Hc64.
    destruct (Hpost c rss Hc) as [Hn Hex]. pose proof (lookup_lt_Some _ _ _ Hk) as Hkn. rewrite Hn in Hkn.
    destruct (Hex k Hkn) as (rs' & Hrs' & Hdone). assert (rs' = rs) as -> by congruence.
    apply executed_serial; [apply executes_serial; lia|done].
  - intros Hdone a [s p] Ha Hin. destruct (history_written a s p Ha Hin) as (Hs & q & -> & Hq & _).
    unfold executes in Hs. set (c := Z.to_nat (s mod 64)). set (k := Z.to_nat (s / 64)).
    pose proof (Z.mod_pos_bound s 64). pose proof (Z.div_mod s 64).
    assert (Hc : (c < 64)%nat) by lia. assert (Hk : (k < n)%nat).
    { assert (s / 64 < Z.of_nat n) by (apply Z.div_lt_upper_bound; lia). pose proof (Z.div_pos s 64). lia. }
    assert (Hser : round_robin_serial c (Z.of_nat k) = s).
    { unfold round_robin_serial. pose proof (Z.div_pos s 64). lia. }
    destruct (lookup_lt_is_Some_2 pool' c) as [p' Hp']; [lia|].
    unfold all_done in Hdone. rewrite Forall_lookup in Hdone. specialize (Hdone c p' Hp').
    destruct p' as [rss| |]; [|done|done]. destruct (Hpost c rss Hp') as [_ Hex].
    destruct (Hex k Hk) as (rs & _ & _ & Hw). rewrite Hser in Hw. unfold writes_done in Hw.
    rewrite Forall_forall in Hw. destruct (Hw q Hq) as (x & v & Hv & Hst' & Hrec). by exists v, x.
Qed.

End Epoch.

(** ** What the workers of an initialisation phase return *)
Section Outputs.
Context {S T : Type} (find : Z -> Z -> option addr) (table : Z) (W : gset addr).
Context (hist : addr -> list (Z * ptr)) (txs : list OperationSet) (head : Z) (ss : nat -> list Z).

Definition pool_outputs (pool : list (prog S (list OperationSet * T))) : list (list OperationSet) :=
  (fun p => match result p with Some r => r.1 | None => [] end) <$> pool.

Lemma pool_installed_stored pool :
  0 <= head -> length pool = 64%nat -> all_done pool ->
  (forall c, (c < 64)%nat -> txs_ready find table W txs head (ss c)) ->
  (forall c outs s', pool !! c = Some (Ret (outs, s')) -> all_installed find table hist (assigned txs head (ss c)) outs) ->
  (forall c s, s ∈ ss c -> 0 <= s) -> (forall c, NoDup (ss c)) ->
  (forall c d s, (c < 64)%nat -> (d < 64)%nat -> s ∈ ss c -> s ∈ ss d -> c = d) ->
  forall c s, (c < 64)%nat -> s ∈ ss c -> exists tx out, txs !! Z.to_nat (head + s) = Some tx /\
    store_outputs txs head (serial_outputs ss (pool_outputs pool)) !! Z.to_nat (head + s) = Some out /\
    appendable find table W (rw_set_ tx) (w_set_ tx) /\
    installed find table hist s (rw_set_ tx) (rw_set_ out) (w_set_ tx).
Proof.
  intros Hh Hlen Hdone Hready Hinst Hpos Hnd Hdisj c s Hc Hs.
  destruct (all_installed_stored find table W hist txs head ss (pool_outputs pool) 64) with (c := c) (s := s)
    as (tx & out & Htx & Hout & Happ & Hin & _); try done.
  - unfold pool_outputs. by rewrite length_fmap.
  - intros d outs Hd. unfold pool_outputs in Hd. rewrite list_lookup_fmap in Hd.
    destruct (pool !! d) as [p|] eqn:Hp; [|done]. unfold all_done in Hdone. rewrite Forall_lookup in Hdone.
    specialize (Hdone d p Hp). destruct p as [[outs' s']| |]; [|done|done]. injection Hd as <-.
    apply lookup_lt_Some in Hp as Hlt. split; [apply Hready; lia|by eapply Hinst].
  - by exists tx, out.
Qed.
End Outputs.

(** ** The transactions of an epoch, as the workload generator builds them *)
Section Input.
Context (find : Z -> Z -> option addr) (table : Z).

(** A transaction that can run over the rows [dom]: a set that the constructor
    of [OperationSet] builds, over keys of the index. *)
Definition runnable (dom : addr -> Prop) (tx : OperationSet) : Prop :=
  set_ok tx /\ forall op, op ∈ rw_set_ tx -> is_key (index_ op) /\ exists a, find table (index_ op) = Some a /\ dom a.

(** The rows that the transactions [txs[head .. head + 4096)] write. *)
Definition rows_of_epoch (txs : list OperationSet) (head : Z) : gset addr :=
  list_to_set (concat ((fun s => match txs !! Z.to_nat (head + s) with
                                 | Some tx => rows_written find table (rw_set_ tx) (w_set_ tx)
                                 | None => [] end) <$> seqZ 0 4096)).

Lemma elem_of_rows_of_epoch txs head a :
  a ∈ rows_of_epoch txs head <-> exists s, 0 <= s < 4096 /\ writes_row find table txs head s a.
Proof.
  unfold rows_of_epoch. rewrite elem_of_list_to_set, elem_of_concat_fmap. unfold writes_row.
  setoid_rewrite elem_of_seqZ. split; intros (s & Hs & Ha); exists s; (split; [lia|]);
    destruct (txs !! _); done || by apply not_elem_of_nil in Ha.
Qed.

Lemma runnable_well_formed dom tx : runnable dom tx -> well_formed tx.
Proof.
  intros [(_ & _ & Hw & Hp) _] j op Hj. split.
  - rewrite Forall_forall in Hp. apply Hp. by eapply list_elem_of_lookup_2.
  - rewrite Hw. split; [intros; by exists op|]. intros (o & Ho & Hu). congruence.
Qed.

Lemma runnable_appendable dom W tx :
  runnable dom tx -> (forall a, a ∈ rows_written find table (rw_set_ tx) (w_set_ tx) -> a ∈ W) ->
  appendable find table W (rw_set_ tx) (w_set_ tx).
Proof.
  intros [(Hk & Hnd & Hw & Hp) Hkeys] HW. split; [done|]. split; [done|]. intros j Hj.
  pose proof Hj as (op & Hop & _)%Hw. pose proof (list_elem_of_lookup_2 _ _ _ Hop) as Hin.
  destruct (Hkeys op Hin) as (Hkey & a & Hf & _). exists op, a. split_and!; try done.
  - rewrite Forall_forall in Hp. by apply Hp.
  - apply HW, list_elem_of_omap. exists j. split; [done|]. unfold op_row. by rewrite Hop.
Qed.
End Input.
