(* ===== verification/Termination.v ===== *)
(** * Termination: the execution phase finishes

    The transactions of an epoch wait for each other's pending versions, and
    yet nobody waits forever: a transaction only waits for versions of
    transactions with smaller serial numbers, a worker executes its
    transactions in ascending order, so the version with the smallest serial
    that somebody waits for is written by a worker that does not wait.  [tot]
    bounds the steps a worker has left, lists the versions it has still to
    write, and names the version it waits for; the pool then makes progress in
    the sense of [Fair]. *)
From S2P Require Import Prelude Schema Ycsb Conc Fair RWLock Memory Txs Execution Epoch.

Section Steps.
Context {P R : Type} `{BuildConfig}.
Local Abbreviation E := (Env P R).
Context (I : E -> Prop) (ser : addr -> Z) (known : addr -> Prop).

Definition is_pending (e : E) (p : addr) : Prop := status <$> versions e !! p = Some PENDING.
Definition same_status (e e' : E) : Prop := forall p, status <$> versions e' !! p = status <$> versions e !! p.
Definition settles (p : addr) (e e' : E) : Prop :=
  status <$> versions e' !! p = Some STABLE /\
  forall q, q <> p -> status <$> versions e' !! q = status <$> versions e !! q.

#[export] Instance is_pending_dec e p : Decision (is_pending e p).
Proof. unfold is_pending. apply _. Defined.

(** One round of a wait for a version. *)
Definition poll (q : addr) : prog E (option unit) :=
  v ← act (load_version (Some q)); mret (if decide (status v = PENDING) then None else Some tt).
Definition wait_body (q : addr) : unit -> prog E (unit + unit) :=
  fun _ => r ← poll q; mret (match r with Some a => inr a | None => inl tt end).

(** [tot n spin w T p]: [p] has at most [n] productive steps left, in which it
    writes the versions [T], in this order; with [w = Some q] it waits for [q],
    whose serial is below those of [T]. *)
#[warnings="-register-all"]
Inductive tot {A} : nat -> bool -> option addr -> list addr -> prog E A -> Prop :=
| tot_ret a : tot 0 false None [] (Ret a)
| tot_look B (m : M E B) k n T :
    (forall e b e', I e -> m e = Ok (b, e') -> same_status e e' /\
       exists n' sp w, (n' <= n)%nat /\ tot n' sp w T (k b)) ->
    tot (S n) false None T (Act m k)
| tot_store B (m : M E B) k n p T :
    (forall e b e', I e -> m e = Ok (b, e') -> settles p e e' /\
       exists n' sp w, (n' <= n)%nat /\ tot n' sp w T (k b)) ->
    tot (S n) false None (p :: T) (Act m k)
| tot_wait q K n T :
    known q -> Forall (fun p => ser q < ser p) T ->
    (exists n' sp w, (n' <= n)%nat /\ tot n' sp w T (K tt)) ->
    tot (S n) true (Some q) T (Loop tt (wait_body q) K)
| tot_poll q K n T :
    known q -> Forall (fun p => ser q < ser p) T ->
    (exists n' sp w, (n' <= n)%nat /\ tot n' sp w T (K tt)) ->
    tot (S n) false (Some q) T (unroll tt (wait_body q) K).

Lemma tot_waits {A} n sp w T (p : prog E A) q :
  tot n sp w T p -> w = Some q -> known q /\ Forall (fun p => ser q < ser p) T.
Proof. destruct 1; intros Hq; simplify_eq; by split. Qed.
Lemma tot_left {A} n sp w T (p : prog E A) q : tot n sp w T p -> q ∈ T -> (0 < n)%nat.
Proof. destruct 1; [by intros ?%not_elem_of_nil|lia..]. Qed.
Lemma tot_unfinished {A} n sp w T (p : prog E A) : tot n sp w T p -> result p = None -> (0 < n)%nat.
Proof. destruct 1; [done|lia..]. Qed.

Lemma load_version_same p e v e' : load_version (P := P) (R := R) p e = Ok (v, e') -> e' = e /\ exists q, p = Some q /\ versions e !! q = Some v.
Proof.
  destruct p as [q|]; [|done]. unfold load_version, derefM, getM, mbind, M_bind, lift, deref. cbn.
  destruct (versions e !! q) as [w|] eqn:Hq; [|done]. intros [= <- <-]. split; [done|]. by exists q.
Qed.

(** One step: fewer steps are left, unless the worker spins. *)
Definition tot_next {A} (n : nat) (sp : bool) (w : option addr) (T : list addr) (p : prog E A) (e : E) : Prop :=
  exists p' e' n' sp' w' T', step p e = Some (Ok (p', e')) /\ tot n' sp' w' T' p' /\ (n' <= n)%nat /\
    ((T' = T /\ same_status e e') \/ exists q, T = q :: T' /\ settles q e e') /\
    ((forall q, w = Some q -> ~ is_pending e q) -> (n' < n)%nat \/ sp = true /\ sp' = false /\ n' = n /\ w' = w /\ e' = e).

Lemma tot_step {A} n sp w T (p : prog E A) e :
  tot n sp w T p -> I e ->
  step p e = None /\ n = 0%nat \/ (exists err, step p e = Some (Err err)) \/ tot_next n sp w T p e.
Proof.
  intros Ht He. destruct Ht as [a|B m k n T Hm|B m k n q T Hm|q K n T Hq HT HK|q K n T Hq HT HK].
  - by left.
  - right. cbn. destruct (m e) as [[b e']|err] eqn:Hme; [right|by left; exists err].
    destruct (Hm e b e' He Hme) as (Hs & n' & sp' & w' & Hle & Ht). exists (k b), e', n', sp', w', T. cbn. rewrite Hme.
    split_and!; [done|done|lia|by left|intros _; left; lia].
  - right. cbn. destruct (m e) as [[b e']|err] eqn:Hme; [right|by left; exists err].
    destruct (Hm e b e' He Hme) as (Hs & n' & sp' & w' & Hle & Ht). exists (k b), e', n', sp', w', T. cbn. rewrite Hme.
    split_and!; [done|done|lia|right; by exists q|intros _; left; lia].
  - right. right. exists (unroll tt (wait_body q) K), e, (S n), false, (Some q), T.
    split_and!; [done|by apply tot_poll|done|by left|]. intros _. by right.
  - right. cbn. destruct (load_version (Some q) e) as [[v e']|err] eqn:Hl; [right|by left; exists err].
    pose proof (load_version_same _ _ _ _ Hl) as [-> (q' & [= <-] & Hv)].
    destruct (decide (status v = PENDING)) as [Hp|Hnp].
    + exists (Loop tt (wait_body q) K), e, (S n), true, (Some q), T. cbn. rewrite Hl. cbn. rewrite decide_True by done.
      split_and!; [done|by apply tot_wait|done|by left|]. intros Hnot. exfalso. apply (Hnot q eq_refl).
      unfold is_pending. rewrite Hv. cbn. by rewrite Hp.
    + destruct HK as (n' & sp' & w' & Hle & Ht). exists (K tt), e, n', sp', w', T. cbn. rewrite Hl. cbn.
      rewrite decide_False by done. split_and!; [done|done|lia|by left|intros _; left; lia].
Qed.

Definition within {A} (n : nat) (T : list addr) (p : prog E A) : Prop :=
  exists n' sp w, (n' <= n)%nat /\ tot n' sp w T p.

Lemma within_le {A} n n' T (p : prog E A) : (n <= n')%nat -> within n T p -> within n' T p.
Proof. intros Hle (k & sp & w & ? & ?). exists k, sp, w. split; [lia|done]. Qed.
Lemma within_ret {A} n (a : A) : within n [] (Ret a).
Proof. exists 0%nat, false, None. split; [lia|constructor]. Qed.

Lemma within_act {A B C} (m : M E B) (f : B -> prog E C) (K : C -> prog E A) n T :
  (forall e b e', I e -> m e = Ok (b, e') -> same_status e e' /\ within n T (prog_bind (f b) K)) ->
  within (S n) T (prog_bind (prog_bind (act m) f) K).
Proof. intros Hm. exists (S n), false, None. split; [done|]. by apply tot_look. Qed.
Lemma within_act_store {A B C} (m : M E B) (f : B -> prog E C) (K : C -> prog E A) n p T :
  (forall e b e', I e -> m e = Ok (b, e') -> settles p e e' /\ within n T (prog_bind (f b) K)) ->
  within (S n) (p :: T) (prog_bind (prog_bind (act m) f) K).
Proof. intros Hm. exists (S n), false, None. split; [done|]. by apply tot_store. Qed.
Lemma within_act_last {A B} (m : M E B) (K : B -> prog E A) n T :
  (forall e b e', I e -> m e = Ok (b, e') -> same_status e e' /\ within n T (K b)) ->
  within (S n) T (prog_bind (act m) K).
Proof. intros Hm. exists (S n), false, None. split; [done|]. by apply tot_look. Qed.
Lemma within_wait {A C} q (f : unit -> prog E C) (K : C -> prog E A) n T :
  known q -> Forall (fun p => ser q < ser p) T -> within n T (prog_bind (f tt) K) ->
  within (S n) T (prog_bind (prog_bind (loop (poll q)) f) K).
Proof. intros Hq HT HK. exists (S n), true, (Some q). split; [done|]. by apply tot_wait. Qed.

Lemma same_status_refl e : same_status e e.
Proof. done. Qed.
Lemma same_status_set_stat f e : same_status e (set_stat f e).
Proof. done. Qed.

(** ** Waiting and writing *)
Context (rdtscp : E -> Z) (schema : Schema) (table : Z).

Lemma within_wait_and_read {A} q n T (K : ptr -> prog E A) :
  known q -> Forall (fun p => ser q < ser p) T -> (forall r, within n T (K r)) ->
  within (4 + n) T (prog_bind (wait_and_read rdtscp (Some q)) K).
Proof.
  intros Hq HT HK. apply (within_act (assertM (nonnull (Some q)))). intros e [] e' _ Hm. split.
  { unfold assertM, lift in Hm. by destruct (assert_ _); simplify_eq/=. }
  apply (within_act (readM rdtscp)). intros e1 start e1' _ [= <- <-]. split; [done|].
  apply (within_wait q _ K); [done|done|]. apply within_act_last. intros e2 r e2' _ Hr. split; [|apply HK].
  clear Hm. revert Hr. unfold readM, stat_add, modifyM, mbind, M_bind. cbn.
  destruct (assertM _ _) as [[[] e3]|] eqn:Ha; [|done]. cbn.
  destruct (load_version (Some q) e3) as [[v e4]|] eqn:Hl; [|done]. cbn. intros [= _ <-].
  apply load_version_same in Hl as [-> _]. unfold assertM, lift in Ha. by destruct (assert_ _); simplify_eq/=.
Qed.

Lemma versions_same (e e' : E) : versions e' = versions e -> same_status e e'.
Proof. intros Heq p. by rewrite Heq. Qed.

Lemma within_write_version {A} p n T (K : ptr -> prog E A) :
  (forall r, within n T (K r)) -> within (3 + n) (p :: T) (prog_bind (write_version schema table (Some p)) K).
Proof.
  intros HK. apply (within_act (lift (get_record_size schema table))). intros e size e' _ Hm. split.
  { unfold lift in Hm. by destruct (get_record_size _ _); simplify_eq/=. }
  eapply (within_act _ _ K). intros e1 r e1' _ Hr. split.
  { revert Hr. unfold new_record, load_version, store_version, modifyM, derefM, mbind, M_bind, lift, deref, getM, mret, M_ret. cbn.
    destruct (versions e1 !! p) as [v|] eqn:Hv; [|done]. cbn. rewrite Hv. cbn. intros [= _ <-] q. cbn.
    destruct (decide (q = p)) as [->|Hne]; [by rewrite lookup_insert_eq, Hv|by rewrite lookup_insert_ne]. }
  eapply (within_act_store _ _ K). intros e2 [] e2' _ H2. split; [|apply HK].
  revert H2. unfold load_version, store_version, modifyM, derefM, mbind, M_bind, lift, deref, getM. cbn.
  destruct (versions e2 !! p) as [v|] eqn:Hv; [|done]. cbn. rewrite Hv. cbn. intros [= <-]. unfold settles. cbn. split.
  - by rewrite lookup_insert_eq.
  - intros q Hne. by rewrite lookup_insert_ne.
Qed.

(** ** Transactions *)
Context (cost : nat) (read : Z -> Z -> prog E ptr) (serial_of : Z -> Z).
Hypothesis cost_write : (3 <= cost)%nat.

(** A read takes at most [cost] steps and waits only for versions of smaller serials. *)
Definition read_within (i key : Z) : Prop := forall A n T (K : ptr -> prog E A),
  Forall (fun p => serial_of i <= ser p) T -> (forall r, within n T (K r)) ->
  within (cost + n) T (prog_bind (read i key) K).

Lemma within_run_ops {A} i ops : forall n T (K : list ptr -> prog E A),
  Forall (read_within i) (read_keys ops) ->
  Forall (fun p => serial_of i <= ser p) (written_versions ops ++ T) ->
  (forall rs, within n T (K rs)) ->
  within (cost * length ops + n) (written_versions ops ++ T) (prog_bind (run_ops schema table (read i) ops) K).
Proof.
  induction ops as [|op ops IH]; intros n T K Hr HT HK; cbn [run_ops length].
  { cbn. eapply within_le; [|apply HK]. lia. }
  rewrite read_keys_cons, written_versions_cons in *. unfold mbind, prog_mbind. rewrite prog_bind_assoc.
  replace (cost * S (length ops) + n)%nat with (cost + (cost * length ops + n))%nat by lia.
  assert (Hrest : forall r, Forall (fun p => serial_of i <= ser p) (written_versions ops ++ T) -> Forall (read_within i) (read_keys ops) ->
    within (cost * length ops + n) (written_versions ops ++ T)
      (prog_bind (prog_bind (run_ops schema table (read i) ops) (fun rs => mret (r ++ rs))) K)).
  { intros r HT' Hr'. rewrite prog_bind_assoc. apply IH; [done|done|]. intros rs. apply HK. }
  destruct (ope_ op).
  - apply Forall_cons in Hr as [Hk Hr]. cbn [app] in *. rewrite prog_bind_assoc. apply Hk; [done|].
    intros r. by apply Hrest.
  - cbn [app] in *. destruct (pending_ op) as [p|]; cbn [nonnull option_list app] in *.
    + rewrite nonnull_Some by done. rewrite prog_bind_assoc. apply Forall_cons in HT as [Hp HT].
      eapply within_le; [|apply within_write_version; intros r; by apply Hrest]. lia.
    + eapply within_le; [|by apply Hrest]. lia.
Qed.

(** The work of the transactions [l]. *)
Definition work (l : list OperationSet) : nat := sum_list ((fun tx => 2 + cost * length (rw_set_ tx))%nat <$> l).

Lemma within_run_txs {A} index txs l : forall i n (K : list (list ptr) -> prog E A),
  (forall k tx, l !! k = Some tx -> txs !! Z.to_nat (index (i + Z.of_nat k)) = Some tx /\
     Forall (read_within (i + Z.of_nat k)) (read_keys (rw_set_ tx)) /\
     Forall (fun p => serial_of (i + Z.of_nat k) <= ser p) (all_versions (drop k l))) ->
  (forall rss, within n [] (K rss)) ->
  within (work l + n) (all_versions l) (prog_bind (run_txs schema table read index txs i (length l)) K).
Proof.
  induction l as [|tx l IH]; intros i n K Hl HK; cbn [run_txs length]; [apply HK|].
  destruct (Hl 0%nat tx eq_refl) as (Htx & Hr & HT). rewrite Z.add_0_r, drop_0 in *.
  change (all_versions (tx :: l)) with (written_versions (rw_set_ tx) ++ all_versions l) in *.
  change (work (tx :: l)) with (S (S (cost * length (rw_set_ tx))) + work l)%nat.
  unfold mbind, prog_mbind. cbn [Nat.add].
  apply within_act. intros e [] e' _ Hm. split.
  { unfold assertM, lift in Hm. by destruct (assert_ _); simplify_eq/=. }
  apply within_act. intros e1 t e1' _ Hm1. unfold lift, vector_at in Hm1.
  destruct (decide (0 <= index i)); [|done]. rewrite Htx in Hm1. cbn in Hm1. injection Hm1 as <- <-. split; [done|].
  rewrite prog_bind_assoc, <- Nat.add_assoc. apply within_run_ops; [done|done|]. intros rs.
  rewrite prog_bind_assoc. apply IH; [|intros rss; apply HK].
  intros k t Hk. destruct (Hl (S k) t Hk) as (H1 & H2 & H3).
  replace (i + 1 + Z.of_nat k) with (i + Z.of_nat (S k)) by lia. done.
Qed.
End Steps.

(** ** All workers *)
Section Pool.
Context {P R : Type} `{BuildConfig}.
Local Abbreviation E := (Env P R).
Context (schema : Schema) (table : Z) (e0 : E) (vis : Z -> Z -> addr).
Context (read : nat -> Z -> Z -> prog E ptr) (txs : list OperationSet) (head : Z) (n : nat).
Local Abbreviation batch := (batch txs head n).
Local Abbreviation versions_of := (fun c => all_versions (batch c)).
Local Abbreviation workers := (execution_workers schema table read txs head n).

(** The serial of the transaction that writes a version; below all serials if
    it is not of this epoch. *)
Definition version_serial (p : addr) : Z :=
  match list_find (fun s => p ∈ written_versions (ops_of txs head s)) (seqZ 0 (64 * Z.of_nat n)) with
  | Some q => q.2 | None => -1
  end.
Definition of_the_epoch (p : addr) : Prop := is_pending e0 p -> exists c, (c < 64)%nat /\ p ∈ versions_of c.

Hypothesis start : execution_start schema table e0 vis read txs head n.

Lemma version_serial_eq s p : executes n s -> p ∈ written_versions (ops_of txs head s) -> version_serial p = s.
Proof.
  intros Hs Hp. unfold version_serial. destruct (list_find _ _) as [[k s']|] eqn:Hf.
  - apply list_find_Some in Hf as (Hk & Hp' & _). apply lookup_seqZ in Hk as [-> Hk]. cbn.
    apply (es_disjoint _ _ _ _ _ _ _ _ start _ _ p); [unfold executes; lia|done..].
  - exfalso. apply list_find_None in Hf. rewrite Forall_forall in Hf. apply (Hf s); [|done].
    unfold executes in Hs. apply elem_of_seqZ. lia.
Qed.

Lemma later_versions c k p :
  (c < 64)%nat -> p ∈ all_versions (drop k (batch c)) -> round_robin_serial c (Z.of_nat k) <= version_serial p.
Proof.
  intros Hc (tx & Hin & Hp)%elem_of_concat_fmap. apply list_elem_of_lookup in Hin as [j Hj]. rewrite lookup_drop in Hj.
  pose proof (lookup_lt_Some _ _ _ Hj) as Hlt. rewrite batch_length in Hlt.
  destruct (batch_lookup _ _ _ _ _ _ _ _ start c (k + j) Hc Hlt) as (tx' & Hk' & _ & Hops).
  assert (tx' = tx) as -> by congruence. rewrite Hops in Hp.
  rewrite (version_serial_eq _ p (executes_serial n c (Z.of_nat (k + j)) Hc ltac:(lia)) Hp).
  unfold round_robin_serial. lia.
Qed.

Lemma prog_bind_ret {S A} (p : prog S A) : prog_bind p Ret = p.
Proof.
  induction p as [A a|A B m k IH|A C B c body _ k IH]; cbn; [done| |]; f_equal;
    apply FunctionalExtensionality.functional_extensionality; intros b; apply IH.
Qed.

Context (cost : nat).
Hypothesis cost_write : (3 <= cost)%nat.
Hypothesis reads : forall c i key, (c < 64)%nat -> 0 <= i < Z.of_nat n ->
  key ∈ read_keys (ops_of txs head (round_robin_serial c i)) ->
  read_within (XInv e0) version_serial of_the_epoch cost (read c) (round_robin_serial c) i key.

Lemma worker_within c :
  (c < 64)%nat ->
  within (XInv e0) version_serial of_the_epoch (work cost (batch c)) (versions_of c)
    (run_txs schema table (read c) (fun i => head + round_robin_serial c i) txs 0 n).
Proof.
  intros Hc.
  assert (Hw : within (XInv e0) version_serial of_the_epoch (work cost (batch c) + 0) (versions_of c)
    (prog_bind (run_txs schema table (read c) (fun i => head + round_robin_serial c i) txs 0 (length (batch c))) Ret)).
  { apply (within_run_txs (XInv e0) version_serial of_the_epoch schema table cost (read c) (round_robin_serial c) cost_write);
      [|intros rss; apply within_ret].
    intros k tx Hk. rewrite Z.add_0_l. pose proof (lookup_lt_Some _ _ _ Hk) as Hlt. rewrite batch_length in Hlt.
    destruct (batch_lookup _ _ _ _ _ _ _ _ start c k Hc Hlt) as (tx' & Hk' & Htx & Hops). assert (tx' = tx) as -> by congruence.
    split; [done|]. split.
    - apply Forall_forall. intros key Hkey. rewrite Hops in Hkey. apply reads; [done|lia|done].
    - apply Forall_forall. intros p Hp. by apply later_versions. }
  by rewrite prog_bind_ret, Nat.add_0_r, batch_length in Hw.
Qed.

(** *** Where a worker is *)
Record spot := mkSpot {
  rest : prog E (list (list ptr)); steps_left : nat; spins : bool; waits : option addr; to_write : list addr
}.
Definition spot_code (c : nat) (w : spot) : prog E (list (list ptr)) := rest w.
Definition spot_live (c : nat) (w : spot) (e : E) : Prop :=
  (0 < steps_left w)%nat /\ forall q, waits w = Some q -> ~ is_pending e q.
Definition spots_ok (ws : list spot) (e : E) : Prop :=
  (exists sched, run_schedule sched workers e0 = Ok (imap spot_code ws, e)) /\ length ws = 64%nat /\
  (forall c w, ws !! c = Some w ->
     tot (XInv e0) version_serial of_the_epoch (steps_left w) (spins w) (waits w) (to_write w) (rest w)) /\
  (forall c p, (c < 64)%nat -> p ∈ versions_of c -> is_pending e p -> exists w, ws !! c = Some w /\ p ∈ to_write w).

Lemma reached_inv sched pool e : run_schedule sched workers e0 = Ok (pool, e) -> XInv e0 e.
Proof.
  intros Hrun. destruct (execution_phase_runs _ _ _ _ _ _ _ _ start sched) as (pool' & e' & Hrun' & _ & Hi & _).
  rewrite Hrun in Hrun'. by simplify_eq.
Qed.

Lemma pending_at_start e p : XInv e0 e -> is_pending e p -> is_pending e0 p.
Proof.
  intros Hi. unfold is_pending. pose proof (x_versions _ _ Hi p) as Ha. destruct (versions e !! p) as [v|]; [|done].
  inversion Ha as [v0 ? Hadv Heq1 Heq2|]; subst. cbn. intros [= Hs].
  destruct Hadv as [->|((Hs0 & _) & _)]; by f_equal.
Qed.

(** As long as somebody has not returned, somebody does not wait: follow the
    waited-for versions down the serials. *)
Lemma somebody_runs ws e :
  spots_ok ws e -> ~ all_done (imap spot_code ws) -> exists c w, ws !! c = Some w /\ spot_live c w e.
Proof.
  intros ((sched & Hrun) & Hlen & Htot & Hpend) Hnd. pose proof (reached_inv _ _ _ Hrun) as Hi.
  assert (Hdown : forall m c w, ws !! c = Some w -> (0 < steps_left w)%nat ->
    (forall q, waits w = Some q -> version_serial q < Z.of_nat m) -> exists c w, ws !! c = Some w /\ spot_live c w e).
  { induction m as [|m IH]; intros c w Hw Hleft Hser.
    all: destruct (waits w) as [q|] eqn:Hq; [|exists c, w; split; [done|]; split; [done|]; by rewrite Hq].
    all: destruct (decide (is_pending e q)) as [Hpq|Hnp];
      [|exists c, w; split; [done|]; split; [done|]; rewrite Hq; by intros q' [= <-]].
    all: specialize (Hser q eq_refl).
    all: destruct (tot_waits _ _ _ _ _ _ _ _ q (Htot c w Hw) Hq) as [Hknown _].
    all: destruct (Hknown (pending_at_start e q Hi Hpq)) as (c' & Hc' & Hin).
    - pose proof (later_versions c' 0 q Hc') as Hge. rewrite drop_0 in Hge. specialize (Hge Hin).
      unfold round_robin_serial in Hge. lia.
    - destruct (Hpend c' q Hc' Hin Hpq) as (w' & Hw' & Hin').
      apply (IH c' w' Hw'); [by eapply tot_left; [by apply (Htot c' w')|]|]. intros q' Hq'.
      destruct (tot_waits _ _ _ _ _ _ _ _ q' (Htot c' w' Hw') Hq') as [_ Hall]. rewrite Forall_forall in Hall.
      specialize (Hall q Hin'). lia. }
  assert (exists c w, ws !! c = Some w /\ result (rest w) = None) as (c & w & Hw & Hr).
  { unfold all_done in Hnd. apply not_Forall_Exists, Exists_exists in Hnd as (p & Hin & Hp).
    2:{ intros p. destruct p; [by left|by right; intros ?..]. }
    apply list_elem_of_lookup in Hin as [c Hc]. rewrite list_lookup_imap in Hc.
    destruct (ws !! c) as [w|] eqn:Hw; simplify_eq/=. exists c, w. split; [done|]. unfold spot_code in Hp.
    destruct (rest w); [by destruct Hp|done|done]. }
  pose proof (tot_unfinished _ _ _ _ _ _ _ _ (Htot c w Hw) Hr) as Hleft.
  destruct (waits w) as [q|] eqn:Hq.
  - apply (Hdown (Z.to_nat (version_serial q + 1)) c w Hw Hleft). intros q' Hq'. rewrite Hq in Hq'. injection Hq' as <-. lia.
  - apply (Hdown 0%nat c w Hw Hleft). by rewrite Hq.
Qed.

Lemma execution_progress :
  progress 64 1 spot_code (fun _ => steps_left) (fun c w e d => spot_live c w e /\ d = Nat.b2n (spins w)) spots_ok.
Proof.
  constructor; [by intros ws e (_ & ? & _)| |].
  2:{ intros ws e Hok Hnd. destruct (somebody_runs ws e Hok Hnd) as (c & w & Hw & Hl). exists c, w, (Nat.b2n (spins w)).
      split_and!; [done|destruct (spins w); cbn; lia|done|done]. }
  intros ws e c w Hok Hw. pose proof Hok as ((sched & Hrun) & Hlen & Htot & Hpend).
  pose proof (reached_inv _ _ _ Hrun) as Hi. pose proof (lookup_lt_Some _ _ _ Hw) as Hlt.
  destruct (tot_step _ _ _ _ _ _ _ _ e (Htot c w Hw) Hi) as [[Hst Hz]|[[err Hst]|Hnext]].
  { left. split; [done|]. intros d [[? _] _]. lia. }
  { exfalso. destruct (execution_phase_runs _ _ _ _ _ _ _ _ start (sched ++ [c])) as (pool' & e' & Hrun' & _).
    rewrite (run_schedule_app _ _ _ _ _ _ Hrun) in Hrun'. cbn [run_schedule] in Hrun'.
    rewrite list_lookup_imap, Hw in Hrun'. cbn [fmap option_fmap option_map] in Hrun'. unfold spot_code in Hrun'.
    by rewrite Hst in Hrun'. }
  destruct Hnext as (p' & e' & n' & sp' & w' & T' & Hst & Ht' & Hle & HT & Hlive).
  right. set (x := mkSpot p' n' sp' w' T'). exists x, e'. split; [done|].
  assert (Hmono : forall q, is_pending e' q -> is_pending e q).
  { intros q. destruct HT as [[_ Hs]|(r & _ & Hr & Hs)]; unfold is_pending; [by rewrite Hs|].
    destruct (decide (q = r)) as [->|Hne]; [by rewrite Hr|by rewrite Hs]. }
  assert (Hkeep : forall i q, spot_live i q e -> spot_live i q e').
  { intros i q [H1 H2]. split; [done|]. intros r Hr Hp. apply (H2 r Hr). by apply Hmono. }
  split; [|split; [done|split]].
  - split; [|split; [by rewrite length_insert|split]].
    + exists (sched ++ [c]). rewrite (run_schedule_app _ _ _ _ _ _ Hrun). cbn [run_schedule].
      rewrite list_lookup_imap, Hw. cbn [fmap option_fmap option_map]. unfold spot_code at 1. rewrite Hst.
      f_equal. f_equal. change p' with (spot_code c x). apply (pool_at_insert spot_code ws c x).
    + intros i y Hy. destruct (decide (c = i)) as [<-|Hne].
      * rewrite list_lookup_insert_eq in Hy by done. by injection Hy as <-.
      * rewrite list_lookup_insert_ne in Hy by done. by apply (Htot i y).
    + intros i q Hi64 Hq Hp. destruct (Hpend i q Hi64 Hq (Hmono q Hp)) as (y & Hy & Hin).
      destruct (decide (c = i)) as [<-|Hne]; [|exists y; by rewrite list_lookup_insert_ne].
      exists x. rewrite list_lookup_insert_eq by done. split; [done|]. assert (y = w) as -> by congruence. cbn.
      destruct HT as [[-> _]|(r & Hr & Hs & _)]; [done|]. rewrite Hr in Hin. apply elem_of_cons in Hin as [->|Hin]; [|done].
      unfold is_pending in Hp. congruence.
  - intros d [[Hleft Hnot] ->]. destruct (Hlive Hnot) as [?|(Hs1 & Hs2 & -> & -> & ->)]; [by left|right]. exists 0%nat.
    rewrite Hs1. split; [cbn; lia|]. cbn. by rewrite Hs2.
  - intros i q d _ _ [Hq ->]. left. split; [by apply Hkeep|done].
Qed.

Definition phase_work : nat := sum_list ((fun c => work cost (batch c)) <$> seq 0 64).

(** Under every fair schedule all workers return. *)
Theorem execution_phase_finishes rounds :
  Forall (fair 64) rounds -> (2 * phase_work <= length rounds)%nat ->
  exists pool' e, run_schedule (concat rounds) workers e0 = Ok (pool', e) /\ all_done pool'.
Proof.
  intros Hfair Hlen.
  assert (Hspots : forall l, (forall c, c ∈ l -> (c < 64)%nat) -> exists ws, length ws = length l /\
    forall k c, l !! k = Some c -> exists w, ws !! k = Some w /\
      rest w = run_txs schema table (read c) (fun i => head + round_robin_serial c i) txs 0 n /\
      (steps_left w <= work cost (batch c))%nat /\ to_write w = versions_of c /\
      tot (XInv e0) version_serial of_the_epoch (steps_left w) (spins w) (waits w) (to_write w) (rest w)).
  { induction l as [|c l IH]; intros Hl; [by exists []|]. destruct IH as (ws & Hws & Hall); [set_solver|].
    destruct (worker_within c) as (k & sp & w & Hk & Ht); [apply Hl; by left|].
    exists (mkSpot (run_txs schema table (read c) (fun i => head + round_robin_serial c i) txs 0 n) k sp w (versions_of c) :: ws).
    split; [cbn; by rewrite Hws|]. intros [|j] d Hd; simplify_eq/=; [|by apply Hall]. eexists. split; [done|]. by split_and!. }
  destruct (Hspots (seq 0 64)) as (ws & Hlws & Hall); [intros c Hc%elem_of_seq; lia|]. rewrite length_seq in Hlws.
  assert (Hat : forall c, (c < 64)%nat -> seq 0 64 !! c = Some c) by (intros c Hc; by rewrite lookup_seq_lt).
  assert (Hpool : pool_at spot_code ws = workers).
  { unfold pool_at, execution_workers. apply list_eq. intros c. rewrite list_lookup_imap, list_lookup_fmap.
    destruct (decide (c < 64)%nat) as [Hc|Hc].
    - rewrite (Hat c Hc). destruct (Hall c c (Hat c Hc)) as (w & -> & Hr & _). cbn. unfold spot_code. by rewrite Hr.
    - by rewrite !lookup_ge_None_2 by (rewrite ?length_seq; lia). }
  assert (Htotal : (total (fun _ => steps_left) ws <= phase_work)%nat).
  { unfold total, phase_work. assert (Hgen : forall l ws, length ws = length l -> (forall k c, l !! k = Some c ->
      exists w, ws !! k = Some w /\ (steps_left w <= work cost (batch c))%nat) ->
      (sum_list (imap (fun _ => steps_left) ws) <= sum_list ((fun c => work cost (batch c)) <$> l))%nat).
    { clear. induction l as [|c l IH]; intros [|w ws] Hlen Hl; try done. cbn.
      destruct (Hl 0%nat c eq_refl) as (w' & [= <-] & Hw). specialize (IH ws ltac:(cbn in Hlen; lia)).
      unfold compose. enough (sum_list (imap (fun _ => steps_left) ws) <= sum_list ((fun c => work cost (batch c)) <$> l))%nat by lia.
      apply IH. intros k d Hk. by apply (Hl (S k)). }
    apply Hgen; [by rewrite length_seq|]. intros k c Hk. destruct (Hall k c Hk) as (w & ? & _ & ? & _). by exists w. }
  assert (Hok : spots_ok ws e0).
  { split; [|split; [done|split]].
    - exists []. cbn. unfold pool_at in Hpool. by rewrite Hpool.
    - intros c w Hw. pose proof (lookup_lt_Some _ _ _ Hw). destruct (Hall c c) as (w' & Hw' & _ & _ & _ & Ht); [apply Hat; lia|].
      assert (w' = w) as -> by congruence. done.
    - intros c p Hc Hp _. destruct (Hall c c (Hat c Hc)) as (w & Hw & _ & _ & Heq & _). exists w. split; [done|]. by rewrite Heq. }
  destruct (fair_pool_finishes 64 1 _ _ _ _ execution_progress rounds ws e0 Hfair ltac:(lia) Hok) as (ws' & e & Hrun & _ & Hd).
  rewrite Hpool in Hrun. by exists (pool_at spot_code ws'), e.
Qed.

(** The execution phase leaves rows and latches alone. *)
Lemma execution_keeps sched pool e :
  run_schedule sched workers e0 = Ok (pool, e) -> rows e = rows e0 /\ lock_ e = lock_ e0.
Proof. intros Hrun. apply reached_inv in Hrun as Hi. split; [apply Hi|apply Hi]. Qed.
End Pool.

(** ** After the initialisation phase *)
Section Ready.
Context {P R : Type} `{BuildConfig}.
Local Abbreviation E := (Env P R).
Context (find : Z -> Z -> option addr) (table : Z) (W : gset addr) (e1 : E).
Context (hist : addr -> list (Z * ptr)) (base : addr -> ptr) (txs txs2 : list OperationSet) (head : Z) (n : nat).
Hypothesis find_inj : forall k1 k2 a, is_key k1 -> is_key k2 ->
  find table k1 = Some a -> find table k2 = Some a -> k1 = k2.
Hypothesis ready : epoch_ready find table W e1 hist base txs txs2 head n.
Context (schema : Schema) (read : nat -> Z -> Z -> prog E ptr).
Hypothesis table_known : exists size, get_record_size schema table = Ok size.
Hypothesis visible_read : reads_visible find table e1 hist base n read.

(** The version a transaction sees has a smaller serial, and is written by a
    worker of the phase unless it is stable. *)
Lemma visible_below a s :
  executes n s -> is_Some (rows e1 !! a) ->
  of_the_epoch e1 txs2 head n (visible hist base a s) /\ version_serial txs2 head n (visible hist base a s) < s.
Proof.
  intros Hs Ha. pose proof (ready_start find table W e1 hist base txs txs2 head n find_inj ready schema read table_known visible_read) as Hst.
  pose proof Hs as Hs0. unfold executes in Hs0. unfold visible.
  destruct (visible_before s (hist a)) as [[s' p]|] eqn:Hv.
  - apply visible_before_spec in Hv as (Hin & Hlt & _); [|by eapply hist_ascending]. cbn in Hlt.
    destruct (history_written find table W e1 hist base txs txs2 head n find_inj ready a s' p Ha Hin) as (Hs' & q & -> & Hq & _).
    split; [|rewrite (version_serial_eq _ _ _ _ _ _ _ _ Hst s' q Hs' Hq); lia]. intros _. unfold executes in Hs'.
    pose proof (Z.mod_pos_bound s' 64). pose proof (Z.div_mod s' 64).
    exists (Z.to_nat (s' mod 64)). split; [lia|].
    assert (Hk : (Z.to_nat (s' / 64) < n)%nat).
    { assert (s' / 64 < Z.of_nat n) by (apply Z.div_lt_upper_bound; lia). pose proof (Z.div_pos s' 64). lia. }
    destruct (batch_lookup _ _ _ _ _ _ _ _ Hst (Z.to_nat (s' mod 64)) (Z.to_nat (s' / 64)) ltac:(lia) Hk) as (tx & Htx & _ & Hops).
    apply elem_of_concat_fmap. exists tx. split; [by eapply list_elem_of_lookup_2|]. rewrite Hops.
    replace (round_robin_serial _ _) with s'; [done|]. unfold round_robin_serial. pose proof (Z.div_pos s' 64). lia.
  - destruct (er_base _ _ _ _ _ _ _ _ _ _ ready a Ha) as (q & -> & (v & x & Hq & Hstable & _)). cbn.
    assert (Hnp : ~ is_pending e1 q) by (unfold is_pending; rewrite Hq; cbn; rewrite Hstable; by intros [=]).
    split; [by intros ?|]. unfold version_serial. destruct (list_find _ _) as [[k s']|] eqn:Hf; [exfalso|lia].
    apply list_find_Some in Hf as (Hk & Hw & _). apply lookup_seqZ in Hk as [-> Hk].
    destruct (es_pending _ _ _ _ _ _ _ _ Hst (0 + Z.of_nat k) q) as (w & Hw' & Hp & _); [unfold executes; lia|done|].
    apply Hnp. unfold is_pending. rewrite Hw'. cbn. by rewrite Hp.
Qed.

(** A protocol's read ends: it finds the visible version and reads it, with or without waiting. *)
Definition reads_end (cost : nat) : Prop := forall c i key a A k T (K : ptr -> prog E A),
  (c < 64)%nat -> 0 <= i < Z.of_nat n -> find table key = Some a -> is_Some (rows e1 !! a) ->
  let q := visible hist base a (round_robin_serial c i) in
  let within {A} := @within P R (XInv e1) (version_serial txs2 head n) (of_the_epoch e1 txs2 head n) A in
  of_the_epoch e1 txs2 head n q -> Forall (fun p => version_serial txs2 head n q < version_serial txs2 head n p) T ->
  (forall r, within k T (K r)) -> within (cost + k)%nat T (prog_bind (read c i key) K).

Lemma reads_end_within cost c i key :
  reads_end cost -> (c < 64)%nat -> 0 <= i < Z.of_nat n -> key ∈ read_keys (ops_of txs2 head (round_robin_serial c i)) ->
  read_within (XInv e1) (version_serial txs2 head n) (of_the_epoch e1 txs2 head n) cost (read c) (round_robin_serial c) i key.
Proof.
  intros Hend Hc Hi Hkey A k T K HT HK. pose proof (executes_serial n c i Hc Hi) as Hs.
  destruct (read_key find table W e1 hist base txs txs2 head n ready _ key Hs Hkey) as (_ & a & Hf & Ha).
  destruct (visible_below a _ Hs Ha) as [Hof Hlt]. apply (Hend c i key a); try done.
  eapply Forall_impl; [exact HT|]. intros p. cbn. lia.
Qed.

(** The execution phase of a protocol whose reads end. *)
Theorem ready_phase_finishes cost rounds :
  (3 <= cost)%nat -> reads_end cost -> Forall (fair 64) rounds ->
  (2 * phase_work txs2 head n cost <= length rounds)%nat ->
  exists pool' e, run_schedule (concat rounds) (execution_workers schema table read txs2 head n) e1 = Ok (pool', e) /\
    all_done pool'.
Proof.
  intros Hcost Hend Hfair Hlen.
  pose proof (ready_start find table W e1 hist base txs txs2 head n find_inj ready schema read table_known visible_read) as Hst.
  apply (execution_phase_finishes _ _ _ _ _ _ _ _ Hst cost Hcost); [|done|done].
  intros c i key Hc Hi Hkey. by apply reads_end_within.
Qed.

(** The work is that of the transactions before the initialisation phase. *)
Lemma same_work cost : same_operations txs txs2 head n -> phase_work txs2 head n cost = phase_work txs head n cost.
Proof.
  intros Hsame. unfold phase_work. f_equal. apply list_fmap_ext. intros k c Hc.
  apply list_elem_of_lookup_2, elem_of_seq in Hc. unfold work. f_equal. unfold batch. rewrite <- !list_fmap_compose.
  apply list_fmap_ext. intros j i Hi. apply list_elem_of_lookup_2, elem_of_seqZ in Hi. cbn.
  destruct (Hsame (round_robin_serial c i)) as (tx & tx2 & -> & -> & Heq); [apply executes_serial; lia|].
  cbn. apply (f_equal length) in Heq. rewrite !length_fmap in Heq. by rewrite Heq.
Qed.
End Ready.
