(* ===== verification/EpochManager.v ===== *)
(** * EpochManager: epochs, workers and epoch-based reclamation

    [protocols/common/epoch_manager.hpp].  The manager's thread advances the
    global epoch when every registered worker has reached it; a worker
    publishes the global epoch when it begins a transaction; garbage collected
    under an epoch is freed two epochs later.  Each load, store and fetch-and-add
    of the code is an action of its own; the number of times the clock lets
    [start] go round is an argument. *)
From S2P Require Import Prelude Conc Schema.

(** [Worker].  Its constructor sets [tx_counter] and leaves [worker_epoch]
    uninitialised until the first [begin_tx]; the theorems below start from a state
    in which it holds an epoch that is in step ([in_step]). *)
Record Worker := mkWorker { worker_epoch : Z; tx_counter : Z }.
(** [workers]: the pointers of the manager, [None] for [nullptr]; a worker's id is its index. *)
Record Env := mkEnv { global_epoch : Z; workers : list (option Worker) }.

Definition wrap32 (z : Z) : Z := z mod 2 ^ 32.

Definition load_global : M Env Z := fun s => Ok (global_epoch s, s).
Definition load_worker (i : nat) : M Env (option Worker) := fun s =>
  match workers s !! i with Some w => Ok (w, s) | None => Err UndefinedBehaviour end.
Definition store_worker (i : nat) (f : Worker -> Worker) : M Env unit := fun s =>
  match workers s !! i with
  | Some (Some w) => Ok (tt, mkEnv (global_epoch s) (<[i := Some (f w)]> (workers s)))
  | _ => Err UndefinedBehaviour
  end.

(** The loop of [get_smallest_worker_epoch] over the workers [l]. *)
Fixpoint smallest_of (l : list nat) (smallest : Z) : prog Env Z :=
  match l with
  | [] => mret smallest
  | i :: l => w ← act (load_worker i);
              smallest_of l (match w with Some w => Z.min (worker_epoch w) smallest | None => smallest end)
  end.
Definition get_smallest_worker_epoch (num_workers : nat) : prog Env Z :=
  smallest_of (seq 0 num_workers) 0xFFFFFFFF.

Definition increment_epoch (num_workers : nat) : prog Env bool :=
  e ← act load_global;
  smallest ← get_smallest_worker_epoch num_workers;
  if e =? smallest then
    act (fun s => Ok (tt, mkEnv (wrap32 (global_epoch s + 1)) (workers s)));;
    mret true
  else mret false.

(** [start], which the clock lets go round [n] times. *)
Fixpoint start (num_workers n : nat) : prog Env unit :=
  match n with O => mret tt | S n => _ ← increment_epoch num_workers; start num_workers n end.

(** [begin_tx]: the identifier and the epoch the transaction is made with. *)
Definition begin_tx (i : nat) : prog Env (Z * Z) :=
  g ← act load_global;
  act (store_worker i (λ w, mkWorker g (tx_counter w)));;
  w ← act (load_worker i);
  let c := match w with Some w => tx_counter w | None => 0 end in
  act (store_worker i (λ w, mkWorker (worker_epoch w) (wrap32 (tx_counter w + 1))));;
  w ← act (load_worker i);
  mret (TxID.make (Z.of_nat i) c, match w with Some w => worker_epoch w | None => 0 end).

(** A worker that begins [n] transactions. *)
Fixpoint transactions (i n : nat) : prog Env (list (Z * Z)) :=
  match n with O => mret [] | S n => r ← begin_tx i; rs ← transactions i n; mret (r :: rs) end.

(** ** [GarbageCollector]: a worker's multimap from epoch to pointer, ordered by epoch *)
Module GarbageCollector.
Section GarbageCollector.
Context {P : Type}.
(** [emplace] inserts after the entries of the same epoch. *)
Fixpoint collect (current_epoch : Z) (ptr : P) (gc : list (Z * P)) : list (Z * P) :=
  match gc with
  | [] => [(current_epoch, ptr)]
  | e :: gc' => if e.1 <=? current_epoch then e :: collect current_epoch ptr gc' else (current_epoch, ptr) :: gc
  end.
(** The entries before [upper_bound(epoch)]. *)
Fixpoint split_upper (epoch : Z) (gc : list (Z * P)) : list (Z * P) * list (Z * P) :=
  match gc with
  | [] => ([], [])
  | e :: gc' => if epoch <? e.1 then ([], gc) else let '(a, b) := split_upper epoch gc' in (e :: a, b)
  end.
(** [remove]: the pointers deallocated, and the container. *)
Definition remove (current_epoch : Z) (gc : list (Z * P)) : list P * list (Z * P) :=
  if 2 <=? current_epoch then
    let '(dead, gc) := split_upper (current_epoch - 2) gc in (dead.*2, gc)
  else ([], gc).
End GarbageCollector.
End GarbageCollector.

(** ** Invariant *)

(** No registered worker is more than one epoch behind. *)
Definition in_step (s : Env) : Prop :=
  forall i w, workers s !! i = Some (Some w) -> worker_epoch w <= global_epoch s <= worker_epoch w + 1.

(** *** Rely and guarantee: thread 0 is the manager, thread [S i] worker [i] *)
Record common (s s' : Env) : Prop := {
  c_global : global_epoch s <= global_epoch s';
  c_length : length (workers s') = length (workers s);
  c_in_step : in_step s -> in_step s';
  c_registered : forall i, workers s' !! i = Some None <-> workers s !! i = Some None;
  c_epochs : forall i w w', workers s !! i = Some (Some w) -> workers s' !! i = Some (Some w') -> worker_epoch w <= worker_epoch w' }.
Definition rely (who : nat) (s s' : Env) : Prop :=
  common s s' /\ match who with O => global_epoch s' = global_epoch s | S i => workers s' !! i = workers s !! i end.
Definition guarantee (who : nat) (s s' : Env) : Prop :=
  common s s' /\ (who <> O -> global_epoch s' = global_epoch s) /\ forall i, who <> S i -> workers s' !! i = workers s !! i.

Lemma common_refl s : common s s.
Proof. split; try done. intros i w w' H H'. rewrite H in H'. by simplify_eq. Qed.
Lemma common_trans s1 s2 s3 : common s1 s2 -> common s2 s3 -> common s1 s3.
Proof.
  intros [A1 A2 A3 A4 A5] [B1 B2 B3 B4 B5]. split; [lia|congruence|tauto|intros i; by rewrite B4|].
  intros i w w' H H'. destruct (workers s2 !! i) as [[w2|]|] eqn:E.
  - specialize (A5 i w w2 H E). specialize (B5 i w2 w' E H'). lia.
  - apply A4 in E. congruence.
  - apply lookup_ge_None in E. assert (i < length (workers s3))%nat by by eapply lookup_lt_Some. lia.
Qed.
Lemma rely_refl i s : rely i s s.
Proof. split; [apply common_refl|by destruct i]. Qed.
Lemma rely_trans i s1 s2 s3 : rely i s1 s2 -> rely i s2 s3 -> rely i s1 s3.
Proof. intros [A1 A2] [B1 B2]. split; [by eapply common_trans|]. destruct i; congruence. Qed.
Lemma guarantee_rely i j s s' : i <> j -> guarantee i s s' -> rely j s s'.
Proof. intros Hne (C & Hg & Hw). split; [done|]. destruct j as [|j]; [by apply Hg|by apply Hw]. Qed.
Lemma guarantee_refl i s : guarantee i s s.
Proof. split; [apply common_refl|done]. Qed.

(** A read leaves the state alone. *)
Lemma rg_read_em {A} who (P : Env -> Prop) (m : M Env A) (Q : A -> Env -> Prop) :
  (forall a, stable (rely who) (Q a)) -> (forall s, P s -> wp m (λ a s', s' = s /\ Q a s) s) ->
  rg (rely who) (guarantee who) P (act m) Q.
Proof.
  intros HQ Hm. apply rg_act; [done|]. intros s HP. eapply wp_mono; [by apply Hm|].
  intros a s' [-> Ha]. split; [apply guarantee_refl|done].
Qed.

(** *** The manager *)

(** While the manager looks at the workers: every registered worker before [k]
    is at least at the smallest epoch seen. *)
Definition seen (num : nat) (e : Z) (k : nat) (smallest : Z) (s : Env) : Prop :=
  in_step s /\ length (workers s) = num /\ global_epoch s = e /\
  forall i w, (i < k)%nat -> workers s !! i = Some (Some w) -> smallest <= worker_epoch w.

Lemma seen_stable_em num e k m : stable (rely 0) (seen num e k m).
Proof.
  intros s s' (Hi & Hl & Hg & Hs) [[C1 C2 C3 C4 C5] Hg']. split_and!; [by apply C3|congruence|congruence|].
  intros i w Hik Hw. destruct (workers s !! i) as [[w0|]|] eqn:E.
  - specialize (Hs i w0 Hik E). specialize (C5 i w0 w E Hw). lia.
  - apply C4 in E. congruence.
  - apply lookup_ge_None in E. assert (i < length (workers s'))%nat by by eapply lookup_lt_Some. lia.
Qed.

Lemma rg_smallest num e k n m : (k + n = num)%nat ->
  rg (rely 0) (guarantee 0) (seen num e k m) (smallest_of (seq k n) m) (λ r, seen num e num r).
Proof.
  revert k m. induction n as [|n IH]; intros k m Hk; cbn [seq smallest_of].
  - apply rg_mret. replace num with k by lia. done.
  - apply rg_bind with (Q := λ w s, seen num e (S k) (match w with Some w => Z.min (worker_epoch w) m | None => m end) s).
    + apply rg_read_em; [intros w; apply seen_stable_em|]. intros s (Hi & Hl & Hg & Hs). unfold wp, load_worker.
      destruct (lookup_lt_is_Some_2 (workers s) k ltac:(lia)) as [w Hw]. rewrite Hw. split; [done|].
      split_and!; [done..|]. intros i w' Hik Hw'. destruct (decide (i = k)) as [->|].
      * rewrite Hw in Hw'. simplify_eq. lia.
      * specialize (Hs i w' ltac:(lia) Hw'). destruct w; lia.
    + intros w. apply IH. lia.
Qed.

Definition manager_inv (num : nat) (n : nat) (s : Env) : Prop :=
  in_step s /\ length (workers s) = num /\ 0 <= global_epoch s /\ global_epoch s + Z.of_nat n < 2 ^ 32 - 1.
Lemma manager_stable num n : stable (rely 0) (manager_inv num n).
Proof. intros s s' (Hi & Hl & H0 & Hg) [[C1 C2 C3 C4 C5] Hg']. split_and!; [by apply C3|congruence|lia|lia]. Qed.

Lemma rg_increment_em num n :
  rg (rely 0) (guarantee 0) (manager_inv num (S n)) (increment_epoch num) (λ _, manager_inv num n).
Proof.
  unfold increment_epoch.
  apply rg_bind with (Q := λ e s, (0 <= e /\ e + Z.of_nat (S n) < 2 ^ 32 - 1) /\ seen num e 0 0xFFFFFFFF s).
  { apply rg_read_em.
    - intros e s s' [He Hs] Hr. split; [done|]. by eapply seen_stable_em.
    - intros s (Hi & Hl & H0 & Hg). unfold wp, load_global. split; [done|]. split; [done|]. split_and!; try done. lia. }
  intros e. apply rg_pure. intros [H0 He]. apply rg_bind with (Q := λ m s, seen num e num m s); [by apply rg_smallest|].
  intros m. destruct (Z.eqb_spec e m) as [<-|].
  - apply rg_bind with (Q := λ _, manager_inv num n).
    + apply rg_act; [intros _; apply manager_stable|]. intros s (Hi & Hl & Hg & Hs). unfold wp. cbn.
      assert (wrap32 (global_epoch s + 1) = global_epoch s + 1) as Ew by (unfold wrap32; rewrite Z.mod_small; lia).
      assert (Hi' : in_step (mkEnv (wrap32 (global_epoch s + 1)) (workers s))).
      { intros i w Hw. cbn in *. rewrite Ew. specialize (Hi i w Hw).
        specialize (Hs i w ltac:(rewrite <- Hl; by eapply lookup_lt_Some) Hw). lia. }
      split.
      * split; [|split; [done|done]]. split; cbn; try done; [lia|]. intros i w w' Hw Hw'. rewrite Hw in Hw'. by simplify_eq.
      * split_and!; cbn; [done|done|lia|lia].
    + intros _. by apply rg_mret.
  - apply rg_mret. intros s (Hi & Hl & Hg & _). split_and!; [done|done|lia|lia].
Qed.

Lemma rg_start num n : rg (rely 0) (guarantee 0) (manager_inv num n) (start num n) (λ _, manager_inv num 0).
Proof.
  induction n as [|n IH]; cbn [start]; [by apply rg_mret|].
  eapply rg_bind; [apply rg_increment_em|]. intros ?. exact IH.
Qed.

(** *** A worker *)
Definition mine (i : nat) (w : Worker) (s : Env) : Prop := in_step s /\ workers s !! i = Some (Some w).
Lemma mine_stable i w : stable (rely (S i)) (mine i w).
Proof. intros s s' [Hi Hw] [[C1 C2 C3 C4 C5] E]. split; [by apply C3|congruence]. Qed.

Lemma load_mine i w s Q : mine i w s -> Q (Some w) s -> wp (load_worker i) Q s.
Proof. intros [_ Hw] HQ. unfold wp, load_worker. by rewrite Hw. Qed.

(** A store to the worker's own fields that moves its epoch to [e], at most the global one. *)
Lemma store_mine i w f s : mine i w s -> worker_epoch w <= worker_epoch (f w) <= global_epoch s ->
  wp (store_worker i f) (λ _ s', guarantee (S i) s s' /\ mine i (f w) s') s.
Proof.
  intros [Hi Hw] He. unfold wp, store_worker. rewrite Hw.
  assert (i < length (workers s))%nat as Hlt by by eapply lookup_lt_Some.
  assert (Hi' : in_step (mkEnv (global_epoch s) (<[i := Some (f w)]> (workers s)))).
  { intros j w' Hj. cbn in *. destruct (decide (i = j)) as [<-|].
    - rewrite list_lookup_insert_eq in Hj by done. simplify_eq. specialize (Hi i w Hw). lia.
    - rewrite list_lookup_insert_ne in Hj by done. by apply (Hi j w'). }
  split; [|split; [done|cbn; by apply list_lookup_insert_eq]].
  split; [|split; [done|intros j Hj; cbn; apply list_lookup_insert_ne; congruence]].
  split; cbn; [done|apply length_insert|done| |].
  - intros j. destruct (decide (i = j)) as [<-|]; [rewrite list_lookup_insert_eq, Hw by done; naive_solver|].
    by rewrite list_lookup_insert_ne by done.
  - intros j v v' Hj Hj'. destruct (decide (i = j)) as [<-|].
    + rewrite list_lookup_insert_eq in Hj' by done. simplify_eq. lia.
    + rewrite list_lookup_insert_ne in Hj' by done. rewrite Hj in Hj'. by simplify_eq.
Qed.

Lemma rg_begin_tx i w :
  rg (rely (S i)) (guarantee (S i)) (mine i w) (begin_tx i)
     (λ r s, r.1 = TxID.make (Z.of_nat i) (tx_counter w) /\ worker_epoch w <= r.2 /\
             mine i (mkWorker r.2 (wrap32 (tx_counter w + 1))) s).
Proof.
  unfold begin_tx.
  apply rg_bind with (Q := λ g s, worker_epoch w <= g <= global_epoch s /\ mine i w s).
  { apply rg_read_em.
    - intros g s s' [Hg Hm] Hr. split; [|by eapply mine_stable]. destruct Hr as [[C1 _ _ _ _] _]. lia.
    - intros s [Hi Hw]. unfold wp, load_global. split; [done|]. split; [|done]. specialize (Hi i w Hw). lia. }
  intros g. apply rg_bind with (Q := λ _ s, worker_epoch w <= g /\ mine i (mkWorker g (tx_counter w)) s).
  { apply rg_act.
    - intros _ s s' [Hg Hm] Hr. split; [done|]. by eapply mine_stable.
    - intros s [Hg Hm]. eapply wp_mono; [by apply (store_mine i w)|]. intros _ s' [HG Hm']. split; [done|]. split; [lia|done]. }
  intros _. apply rg_pure. intros Hge.
  apply rg_bind with (Q := λ v s, v = Some (mkWorker g (tx_counter w)) /\ mine i (mkWorker g (tx_counter w)) s).
  { apply rg_read_em; [intros v s s' [E Hm] Hr; split; [done|by eapply mine_stable]|].
    intros s Hm. eapply load_mine; [done|]. done. }
  intros v. apply rg_pure. intros ->. cbn [tx_counter].
  apply rg_bind with (Q := λ _, mine i (mkWorker g (wrap32 (tx_counter w + 1)))).
  { apply rg_act; [intros _; apply mine_stable|]. intros s Hm. apply (store_mine i _ (λ w, mkWorker (worker_epoch w) (wrap32 (tx_counter w + 1))) s Hm). cbn.
    destruct Hm as [Hi Hw]. specialize (Hi i _ Hw). cbn in Hi. lia. }
  intros _. apply rg_bind with (Q := λ v s, v = Some (mkWorker g (wrap32 (tx_counter w + 1))) /\ mine i (mkWorker g (wrap32 (tx_counter w + 1))) s).
  { apply rg_read_em; [intros v s s' [E Hm] Hr; split; [done|by eapply mine_stable]|].
    intros s Hm. eapply load_mine; [done|]. done. }
  intros v. apply rg_pure. intros ->. cbn [worker_epoch]. by apply rg_mret.
Qed.

(** What [n] transactions of worker [i] return: consecutive identifiers, epochs that never go back. *)
Fixpoint begun (i : nat) (w : Worker) (rs : list (Z * Z)) : Prop :=
  match rs with
  | [] => True
  | r :: rs => r.1 = TxID.make (Z.of_nat i) (tx_counter w) /\ worker_epoch w <= r.2 /\
               begun i (mkWorker r.2 (wrap32 (tx_counter w + 1))) rs
  end.
Lemma rg_transactions i n w :
  rg (rely (S i)) (guarantee (S i)) (mine i w) (transactions i n)
     (λ rs s, length rs = n /\ begun i w rs /\ exists w', mine i w' s).
Proof.
  revert w. induction n as [|n IH]; intros w; cbn [transactions].
  - apply rg_mret. intros s Hm. split_and!; [done|done|by exists w].
  - eapply rg_bind; [apply rg_begin_tx|]. intros r. cbn beta.
    apply (rg_pure _ _ _ (λ s, worker_epoch w <= r.2 /\ mine i (mkWorker r.2 (wrap32 (tx_counter w + 1))) s)). intros Er.
    apply rg_pure. intros He. eapply rg_bind; [apply IH|]. intros rs. apply rg_mret.
    intros s (Hl & Hb & Hm). split_and!; [cbn; congruence|done|done].
Qed.

(** *** Identifiers *)
Lemma txid_fields i c : 0 <= i < 2 ^ 32 -> 0 <= c < 2 ^ 32 ->
  TxID.thread_id (TxID.make i c) = i /\ TxID.tx_counter (TxID.make i c) = c.
Proof.
  intros Hi Hc. unfold TxID.thread_id, TxID.tx_counter, TxID.make.
  rewrite get_set_field, (get_set_field_other _ 32), get_set_field by lia.
  rewrite !Z.land_ones, !Z.mod_small by lia. done.
Qed.

Lemma begun_lookup i w rs k r : 0 <= Z.of_nat i < 2 ^ 32 -> 0 <= tx_counter w < 2 ^ 32 -> begun i w rs -> rs !! k = Some r ->
  TxID.thread_id r.1 = Z.of_nat i /\ TxID.tx_counter r.1 = wrap32 (tx_counter w + Z.of_nat k) /\ worker_epoch w <= r.2.
Proof.
  intros Hi. revert w k. induction rs as [|r' rs IH]; intros w k Hc Hb Hk; [done|].
  destruct Hb as (E & He & Hb). destruct k as [|k]; cbn in Hk.
  - simplify_eq. rewrite E. destruct (txid_fields (Z.of_nat i) (tx_counter w)) as [-> ->]; [done..|].
    split_and!; [done| |done]. unfold wrap32. rewrite Z.add_0_r, Z.mod_small; done.
  - assert (0 <= wrap32 (tx_counter w + 1) < 2 ^ 32) as Hc' by (apply Z.mod_pos_bound; lia).
    destruct (IH (mkWorker r'.2 (wrap32 (tx_counter w + 1))) k Hc' Hb Hk) as (H1 & H2 & H3). cbn in H2, H3. split_and!; [done| |lia].
    rewrite H2. unfold wrap32. rewrite Zplus_mod_idemp_l. f_equal. lia.
Qed.

(** *** Reclamation *)
Lemma filter_every {A} (Q : A -> Prop) `{!forall x, Decision (Q x)} (l : list A) : Forall Q l -> filter Q l = l.
Proof. induction 1 as [|x l Hx _ IH]; [done|]. by rewrite filter_cons_True, IH. Qed.

Module Reclaim.
Import GarbageCollector.
Section Reclaim.
Context {P : Type}.
Definition sorted (gc : list (Z * P)) : Prop := StronglySorted (λ a b, a.1 <= b.1) gc.

Lemma collect_elem e p (gc : list (Z * P)) x : x ∈ collect e p gc <-> x = (e, p) \/ x ∈ gc.
Proof.
  induction gc as [|y gc IH]; simpl; [set_solver|]. destruct (Z.leb_spec y.1 e); [|set_solver].
  rewrite !elem_of_cons, IH. tauto.
Qed.
Lemma collect_sorted e p (gc : list (Z * P)) : sorted gc -> sorted (collect e p gc).
Proof.
  unfold sorted. induction gc as [|y gc IH]; simpl; intros Hs; [repeat constructor|].
  apply StronglySorted_inv in Hs as [Hs Hy]. destruct (Z.leb_spec y.1 e) as [Hle|Hlt].
  - constructor; [by apply IH|]. apply Forall_forall. intros x [->|Hx]%collect_elem; [done|].
    by apply (proj1 (Forall_forall _ _) Hy).
  - constructor; [by constructor|]. constructor; [simpl; lia|].
    eapply Forall_impl; [exact Hy|]. intros x Hx. simpl in *. lia.
Qed.
Lemma split_upper_spec e (gc : list (Z * P)) : sorted gc ->
  split_upper e gc = (filter (λ x, x.1 <= e) gc, filter (λ x, e < x.1) gc).
Proof.
  unfold sorted. induction gc as [|y gc IH]; simpl; intros Hs; [done|].
  apply StronglySorted_inv in Hs as [Hs Hy]. destruct (Z.ltb_spec e y.1) as [Hlt|Hle].
  - rewrite (filter_cons_False (λ x : Z * P, x.1 <= e)), (filter_cons_True (λ x : Z * P, e < x.1)) by lia.
    rewrite Forall_forall in Hy.
    rewrite (filter_every (λ x : Z * P, e < x.1)), (filter_none (λ x : Z * P, x.1 <= e)); [done|..]; apply Forall_forall; intros x Hx%Hy; lia.
  - rewrite IH by done. rewrite (filter_cons_True (λ x : Z * P, x.1 <= e)), (filter_cons_False (λ x : Z * P, e < x.1)) by lia. done.
Qed.
Lemma remove_spec cur (gc : list (Z * P)) : sorted gc ->
  Forall (λ x, 0 <= x.1) gc ->
  remove cur gc = ((filter (λ x, x.1 + 2 <= cur) gc).*2, filter (λ x, cur < x.1 + 2) gc).
Proof.
  intros Hs H0. unfold remove. destruct (Z.leb_spec 2 cur).
  - rewrite split_upper_spec by done. f_equal; [f_equal|]; apply list_filter_iff; intros x; lia.
  - rewrite Forall_forall in H0. rewrite (filter_none (λ x : Z * P, x.1 + 2 <= cur)), (filter_every (λ x : Z * P, cur < x.1 + 2)); [done|..];
      apply Forall_forall; intros x Hx%H0; lia.
Qed.
End Reclaim.
End Reclaim.

(** ** The properties *)

(** The manager next to the workers, worker [i] beginning [ns !! i] transactions. *)
Definition system (num n : nat) (ns : list nat) : list (prog Env (list (Z * Z))) :=
  (_ ← start num n; mret []) :: imap transactions ns.

Section Properties.
Context (num n : nat) (ns : list nat) (s : Env).
Hypothesis all_registered : forall i, (i < num)%nat -> exists w, workers s !! i = Some (Some w).
Hypothesis sizes : length (workers s) = num /\ length ns = num /\ Z.of_nat num < 2 ^ 32.
Hypothesis starts_in_step : in_step s.
Hypothesis epochs_left : 0 <= global_epoch s /\ global_epoch s + Z.of_nat n < 2 ^ 32 - 1.

Lemma system_runs sched : exists pool' s', run_schedule sched (system num n ns) s = Ok (pool', s') /\
  common s s' /\ forall i w rs, workers s !! i = Some (Some w) -> pool' !! S i = Some (Ret rs) ->
    length rs = nth i ns 0%nat /\ begun i w rs.
Proof using All.
  destruct sizes as (Hl & Hn & Hb). destruct epochs_left as [H0 Hg].
  destruct (rg_parallel rely guarantee rely_refl rely_trans guarantee_rely (system num n ns)
    (λ t s1, match t with O => manager_inv num n s1 | S i => exists w, workers s !! i = Some (Some w) /\ mine i w s1 end)
    (λ t rs s1, match t with O => True
       | S i => forall w, workers s !! i = Some (Some w) -> length rs = nth i ns 0%nat /\ begun i w rs end) s) with sched as (pool' & s' & Hr & _ & Hs & HQ).
  - intros [|i] p Hp; [cbn in Hp|change (imap transactions ns !! i = Some p) in Hp].
    + injection Hp as <-. split_and!; [by split_and!|apply manager_stable|].
      apply (rg_bind _ _ _ _ _ (λ _, manager_inv num 0)); [apply rg_start|]. intros ?. by apply rg_mret.
    + rewrite list_lookup_imap in Hp. apply fmap_Some in Hp as (k & Hk & ->).
      assert (i < num)%nat as Hi by (rewrite <- Hn; by eapply lookup_lt_Some).
      destruct (all_registered i Hi) as [w Hw]. split_and!; [by exists w| |].
      * intros s1 s2 (w' & Hw' & Hm) Hr. exists w'. split; [done|]. by eapply mine_stable.
      * apply rg_exists. intros w'. apply rg_pure. intros Hw'. assert (w' = w) as -> by congruence.
        eapply rg_conseq; [apply rg_transactions|done|]. intros rs s1 (Hlen & Hbeg & _) w1 Hw1.
        assert (w1 = w) as -> by congruence. rewrite (nth_lookup_Some _ _ _ _ Hk). done.
  - exists pool', s'. split; [done|]. split; [|intros i w rs Hw Hret; by apply (HQ (S i) rs Hret)].
    clear -Hs. induction Hs as [|s1 s2 s3 [i [C _]] _ IH]; [apply common_refl|by eapply common_trans].
Qed.

(** C39. If every worker is registered and starts with the global epoch or the
    one before it (the constructor leaves [worker_epoch] uninitialised), then under
    every schedule of the manager and the workers, as long as the global epoch
    does not wrap around, no worker is ever more than one epoch behind the global
    epoch, and what a worker frees with [remove] was collected in an epoch that
    every worker has left. *)
Theorem epochs_stay_in_step sched : exists pool' s',
  run_schedule sched (system num n ns) s = Ok (pool', s') /\ in_step s' /\ global_epoch s <= global_epoch s' /\
  forall (P : Type) (gc : list (Z * P)) i w, workers s' !! i = Some (Some w) ->
    Reclaim.sorted gc -> Forall (λ x, 0 <= x.1) gc ->
    exists dead, GarbageCollector.remove (worker_epoch w) gc = (dead.*2, filter (λ x, worker_epoch w < x.1 + 2) gc) /\
      dead = filter (λ x, x.1 + 2 <= worker_epoch w) gc /\
      forall x, x ∈ dead -> forall j w', workers s' !! j = Some (Some w') -> x.1 < worker_epoch w'.
Proof using All.
  destruct (system_runs sched) as (pool' & s' & Hr & [C1 C2 C3 C4 C5] & _). exists pool', s'.
  specialize (C3 starts_in_step). split_and!; [done..|]. intros P gc i w Hw Hs H0.
  eexists. split_and!; [by apply Reclaim.remove_spec|done|]. intros x [Hx _]%list_elem_of_filter j w' Hw'.
  pose proof (C3 i w Hw). pose proof (C3 j w' Hw'). lia.
Qed.

(** The identifiers of a worker's transactions carry its number and count
    up from its counter, so no two transactions share one before a counter
    wraps around; the epochs they are made with never go back. *)
Theorem transaction_identifiers sched : exists pool' s',
  run_schedule sched (system num n ns) s = Ok (pool', s') /\
  forall i w rs, workers s !! i = Some (Some w) -> 0 <= tx_counter w < 2 ^ 32 -> pool' !! S i = Some (Ret rs) ->
    length rs = nth i ns 0%nat /\
    forall k r, rs !! k = Some r ->
      TxID.thread_id r.1 = Z.of_nat i /\ TxID.tx_counter r.1 = wrap32 (tx_counter w + Z.of_nat k) /\ worker_epoch w <= r.2.
Proof using All.
  destruct (system_runs sched) as (pool' & s' & Hr & [C1 C2 C3 C4 C5] & Hb). exists pool', s'. split; [done|].
  intros i w rs Hw Hc Hret. destruct (Hb i w rs Hw Hret) as [Hl Hbeg]. split; [done|].
  intros k r Hk. apply lookup_lt_Some in Hw. destruct sizes as (E & _ & ?). by apply (begun_lookup i w rs k r); [lia| | |].
Qed.
End Properties.

(** Two workers and three rounds of the manager. *)
Module EpochWitness.
Definition s0 : Env := mkEnv 1 [Some (mkWorker 1 1); Some (mkWorker 1 1)].
Lemma registered0 i : (i < 2)%nat -> exists w, workers s0 !! i = Some (Some w).
Proof. intros Hi. destruct i as [|[|i]]; [by eexists|by eexists|lia]. Qed.
Lemma in_step0 : in_step s0.
Proof. intros [|[|i]] w Hw; cbn in Hw; simplify_eq; cbn; lia. Qed.
Definition sched0 : list nat := concat (replicate 30 [0; 1; 2]%nat).
Lemma epochs_stay_in_step_witness : exists pool' s', run_schedule sched0 (system 2 3 [4; 5]%nat) s0 = Ok (pool', s') /\ in_step s'.
Proof.
  destruct (epochs_stay_in_step 2 3 [4; 5]%nat s0 registered0 ltac:(done) in_step0 ltac:(cbn; lia) sched0)
    as (pool' & s' & Hr & Hi & _). exists pool', s'. split; [exact Hr|exact Hi].
Defined.
Lemma transaction_identifiers_witness : exists pool' s', run_schedule sched0 (system 2 3 [4; 5]%nat) s0 = Ok (pool', s').
Proof.
  destruct (transaction_identifiers 2 3 [4; 5]%nat s0 registered0 ltac:(done) in_step0 ltac:(cbn; lia) sched0)
    as (pool' & s' & Hr & _). exists pool', s'. exact Hr.
Defined.
(** After that run the manager has advanced the epoch and both workers are done. *)
(** After that run the manager has advanced the epoch twice and both workers are done. *)
Example epochs_advance :
  match run_schedule sched0 (system 2 3 [4; 5]%nat) s0 with
  | Ok (pool, s') => forallb (λ p, match p with Ret _ => true | _ => false end) pool && (global_epoch s' =? 3)
  | Err _ => false
  end = true.
Proof. vm_compute. reflexivity. Qed.
End EpochWitness.
