(* ===== verification/TimestampManager.v ===== *)
(** * TimestampManager: per-worker timestamps and their garbage collector

    [protocols/common/timestamp_manager.hpp].  A worker draws timestamps from
    its own counter, which it now and then moves up to another worker's; the
    manager publishes the smallest and the largest counter for the garbage
    collectors.  Every access to a counter is an action.  The ids of the
    workers are their indices; the arguments of [make_unique] in [begin_tx] are
    evaluated from left to right. *)
From S2P Require Import Prelude Conc Schema EpochManager.

Record TsWorker := mkTsWorker {
  txn_cnt : Z; smallest_txn_cnt : Z; largest_txn_cnt : Z;
  next_worker_offset : Z; abort_cnt : Z; ts_tx_counter : Z }.
Definition TsWorker_init : TsWorker := mkTsWorker 1 1 1 0 0 1.
Definition set_txn_cnt (f : Z -> Z) (w : TsWorker) : TsWorker :=
  mkTsWorker (f (txn_cnt w)) (smallest_txn_cnt w) (largest_txn_cnt w) (next_worker_offset w) (abort_cnt w) (ts_tx_counter w).
Definition set_offset (f : Z -> Z) (w : TsWorker) : TsWorker :=
  mkTsWorker (txn_cnt w) (smallest_txn_cnt w) (largest_txn_cnt w) (f (next_worker_offset w)) (abort_cnt w) (ts_tx_counter w).
Definition set_abort_cnt (f : Z -> Z) (w : TsWorker) : TsWorker :=
  mkTsWorker (txn_cnt w) (smallest_txn_cnt w) (largest_txn_cnt w) (next_worker_offset w) (f (abort_cnt w)) (ts_tx_counter w).
Definition set_tx_counter (f : Z -> Z) (w : TsWorker) : TsWorker :=
  mkTsWorker (txn_cnt w) (smallest_txn_cnt w) (largest_txn_cnt w) (next_worker_offset w) (abort_cnt w) (f (ts_tx_counter w)).

(** [TimeStampManager]: the state is the list of its worker pointers; [num_workers] is their number. *)

Definition num_workers (s : (list (option TsWorker))) : Z := Z.of_nat (length s).

(** A read and a read-modify-write of a field of worker [i]. *)
Definition peek {A} (i : nat) (f : TsWorker -> A) : M (list (option TsWorker)) A := fun s =>
  match s !! i with Some (Some w) => Ok (f w, s) | _ => Err UndefinedBehaviour end.
Definition modify (i : nat) (f : TsWorker -> TsWorker) : M (list (option TsWorker)) TsWorker := fun s =>
  match s !! i with Some (Some w) => Ok (w, <[i := Some (f w)]> s) | _ => Err UndefinedBehaviour end.
Definition is_null (i : nat) : M (list (option TsWorker)) bool := fun s =>
  match s !! i with Some w => Ok (bool_decide (w = None), s) | None => Err UndefinedBehaviour end.

(** [TimeStampManager::synchronize]; [n] is [num_workers]. *)
Definition next_worker_id (n worker_id next_worker_offset : Z) : Z :=
  let offset := next_worker_offset mod (n - 1) + 1 in (worker_id + offset) mod n.
Definition tsm_synchronize (n : Z) (worker_id : nat) (cnt offset : Z) : prog (list (option TsWorker)) unit :=
  if n - 1 =? 0 then mret tt
  else
    let next := Z.to_nat (next_worker_id n (Z.of_nat worker_id) offset) in
    null ← act (is_null next);
    if null : bool then mret tt
    else
      next_cnt ← act (peek next txn_cnt);
      if cnt <? next_cnt then _ ← act (modify worker_id (set_txn_cnt (λ _, next_cnt))); mret tt
      else mret tt.

(** [Worker::synchronize]: [next_worker_offset++] is a [uint8_t]. *)
Definition synchronize (n : Z) (i : nat) : prog (list (option TsWorker)) unit :=
  cnt ← act (peek i txn_cnt);
  w ← act (modify i (set_offset (λ o, (o + 1) mod 2 ^ 8)));
  tsm_synchronize n i cnt (next_worker_offset w).

Definition get_ts (i : nat) (cnt : Z) : Z := Z.lor (u64 (Z.shiftl cnt 8)) (Z.of_nat i).
(** [fetch_add] and the periodic synchronisation, shared by the two draws. *)
Definition draw (n synchronize_cnt : Z) (i : nat) (amount : Z) : prog (list (option TsWorker)) Z :=
  w ← act (modify i (set_txn_cnt (λ c, u64 (c + amount))));
  if synchronize_cnt =? 0 then act (failM UndefinedBehaviour)
  else
    (if txn_cnt w mod synchronize_cnt =? 0 then synchronize n i else mret tt);;
    mret (get_ts i (txn_cnt w)).
Definition get_new_ts (n synchronize_cnt : Z) (i : nat) : prog (list (option TsWorker)) Z :=
  _ ← act (modify i (set_abort_cnt (λ _, 0)));
  draw n synchronize_cnt i 1.
Definition get_abort_boosted_ts (n synchronize_cnt : Z) (i : nat) : prog (list (option TsWorker)) Z :=
  w ← act (modify i (set_abort_cnt (λ c, u64 (c + 1))));
  draw n synchronize_cnt i (2 ^ Z.min (u64 (abort_cnt w + 1)) 2).
Definition get_smallest_ts (i : nat) : prog (list (option TsWorker)) Z := c ← act (peek i smallest_txn_cnt); mret (get_ts i c).
Definition get_largest_ts (i : nat) : prog (list (option TsWorker)) Z := c ← act (peek i largest_txn_cnt); mret (get_ts i c).
(** [begin_tx]: identifier, timestamp, smallest and largest timestamp. *)
Definition begin_tx (n synchronize_cnt : Z) (i : nat) : prog (list (option TsWorker)) (Z * Z * Z * Z) :=
  w ← act (modify i (set_tx_counter (λ c, wrap32 (c + 1))));
  ts ← get_new_ts n synchronize_cnt i;
  lo ← get_smallest_ts i; hi ← get_largest_ts i;
  mret (TxID.make (Z.of_nat i) (ts_tx_counter w), ts, lo, hi).

(** *** The manager's thread *)
Fixpoint gc_txn_cnt (l : list nat) (p : Z * Z) : prog (list (option TsWorker)) (Z * Z) :=
  match l with
  | [] => mret p
  | i :: l => null ← act (is_null i);
              if null : bool then gc_txn_cnt l p
              else c ← act (peek i txn_cnt); gc_txn_cnt l (Z.min c p.1, Z.max c p.2)
  end.
Definition get_gc_txn_cnt (n : nat) : prog (list (option TsWorker)) (Z * Z) := gc_txn_cnt (seq 0 n) (2 ^ 64 - 1, 0).
Fixpoint publish (l : list nat) (smallest largest : Z) : prog (list (option TsWorker)) unit :=
  match l with
  | [] => mret tt
  | i :: l => null ← act (is_null i);
              (if null : bool then mret tt
               else
                 _ ← act (modify i (λ w, mkTsWorker (txn_cnt w) (u64 (smallest - 1)) (largest_txn_cnt w)
                                           (next_worker_offset w) (abort_cnt w) (ts_tx_counter w)));
                 _ ← act (modify i (λ w, mkTsWorker (txn_cnt w) (smallest_txn_cnt w) largest
                                           (next_worker_offset w) (abort_cnt w) (ts_tx_counter w)));
                 mret tt);;
              publish l smallest largest
  end.
Definition set_gc_ts (n : nat) : prog (list (option TsWorker)) unit :=
  p ← get_gc_txn_cnt n; publish (seq 0 n) p.1 p.2.

(** *** [GarbageCollector] of this file: pointers without and with a timestamp *)
Module TsGarbageCollector.
Section TsGarbageCollector.
Context {P : Type}.
Record t := mk { gc_map : list (Z * P); temp_gc_map : list (Z * P) }.
Definition collect (current_largest_ts : Z) (ptr : P) (gc : t) : t :=
  mk (gc_map gc) (GarbageCollector.collect current_largest_ts ptr (temp_gc_map gc)).
Definition attach_new_ts (new_largest_ts : Z) (gc : t) : t :=
  let '(moved, kept) := GarbageCollector.split_upper new_largest_ts (temp_gc_map gc) in
  mk (foldl (λ m e, GarbageCollector.collect new_largest_ts e.2 m) (gc_map gc) moved) kept.
(** The deallocated pointers and the containers. *)
Definition remove (smallest_ts new_largest_ts : Z) (gc : t) : list P * t :=
  let gc := attach_new_ts new_largest_ts gc in
  let '(dead, kept) := GarbageCollector.split_upper smallest_ts (gc_map gc) in
  (dead.*2, mk kept (temp_gc_map gc)).
End TsGarbageCollector.
Arguments t : clear implicits.
End TsGarbageCollector.

(** ** Facts *)
Lemma next_worker_is_another n i o : 2 <= n -> 0 <= i < n -> 0 <= o ->
  0 <= next_worker_id n i o < n /\ next_worker_id n i o <> i.
Proof.
  intros Hn Hi Ho. unfold next_worker_id. cbv zeta. pose proof (Z.mod_pos_bound o (n - 1) ltac:(lia)).
  set (d := o mod (n - 1) + 1). assert (1 <= d < n) by lia. clearbody d.
  split; [apply Z.mod_pos_bound; lia|]. destruct (Z.lt_ge_cases (i + d) n).
  - rewrite Z.mod_small; lia.
  - assert ((i + d) mod n = i + d - n) as ->; [|lia].
    symmetry. apply Z.mod_unique_pos with (q := 1); lia.
Qed.

Lemma get_ts_value i c : (i < 256)%nat -> 0 <= c < 2 ^ 56 -> get_ts i c = c * 256 + Z.of_nat i.
Proof.
  intros Hi Hc. unfold get_ts, u64. rewrite Z.shiftl_mul_pow2, Z.mod_small by lia.
  rewrite <- Z.lxor_lor, <- Z.add_nocarry_lxor; [lia|..];
  apply Z.bits_inj'; intros b Hb; rewrite Z.land_spec, Z.testbit_0_l;
  (destruct (Z.lt_ge_cases b 8);
   [rewrite Z.mul_pow2_bits_low by lia; done
   |rewrite (Z.bits_above_log2 (Z.of_nat i)), andb_false_r; [done|lia|]];
   destruct (decide (Z.of_nat i = 0)) as [->|]; [cbn; lia|];
   assert (Z.log2 (Z.of_nat i) < 8) by (apply Z.log2_lt_pow2; lia); lia).
Qed.

(** *** Rely and guarantee: thread 0 is the manager, thread [S i] worker [i] *)
Definition counters_ok (s : (list (option TsWorker))) : Prop := forall i w, s !! i = Some (Some w) -> 0 <= txn_cnt w < 2 ^ 64 /\ 0 <= next_worker_offset w.
Definition same_core (w w' : TsWorker) : Prop := txn_cnt w' = txn_cnt w /\ ts_tx_counter w' = ts_tx_counter w.
Definition keeps (i : nat) (s s' : (list (option TsWorker))) : Prop :=
  forall w, s !! i = Some (Some w) -> exists w', s' !! i = Some (Some w') /\ same_core w w'.
Record shape_kept (s s' : (list (option TsWorker))) : Prop := {
  sk_length : length s' = length s;
  sk_null : forall i, s' !! i = Some None <-> s !! i = Some None;
  sk_ok : counters_ok s -> counters_ok s' }.
Definition rely (who : nat) (s s' : (list (option TsWorker))) : Prop :=
  shape_kept s s' /\ match who with O => True | S i => keeps i s s' end.
Definition guarantee (who : nat) (s s' : (list (option TsWorker))) : Prop :=
  shape_kept s s' /\ forall i, who <> S i -> keeps i s s'.

Lemma keeps_refl i s : keeps i s s. Proof. intros w Hw. exists w. by split_and!. Qed.
Lemma keeps_trans i s1 s2 s3 : keeps i s1 s2 -> keeps i s2 s3 -> keeps i s1 s3.
Proof.
  intros A B w Hw. destruct (A w Hw) as (w2 & H2 & E2 & F2). destruct (B w2 H2) as (w3 & H3 & E3 & F3).
  exists w3. split; [done|]. split; congruence.
Qed.
Lemma shape_refl s : shape_kept s s. Proof. by split. Qed.
Lemma rely_refl_ts i s : rely i s s.
Proof. split; [apply shape_refl|]. destruct i; [done|apply keeps_refl]. Qed.
Lemma rely_trans_ts i s1 s2 s3 : rely i s1 s2 -> rely i s2 s3 -> rely i s1 s3.
Proof.
  intros [[A1 A2 A3] A4] [[B1 B2 B3] B4]. split; [split; [congruence|intros j; by rewrite B2|tauto]|].
  destruct i; [done|by eapply keeps_trans].
Qed.
Lemma guarantee_rely_ts i j s s' : i <> j -> guarantee i s s' -> rely j s s'.
Proof. intros Hne [C Hk]. split; [done|]. destruct j; [done|by apply Hk]. Qed.

(** A modification of worker [i] by thread [who]: the manager may not touch the core. *)
Lemma modify_ok who i f s w (Q : TsWorker -> (list (option TsWorker)) -> Prop) : counters_ok s -> s !! i = Some (Some w) ->
  0 <= txn_cnt (f w) < 2 ^ 64 /\ 0 <= next_worker_offset (f w) -> (who <> S i -> same_core w (f w)) ->
  Q w (<[i := Some (f w)]> s) -> wp (modify i f) (λ v s', guarantee who s s' /\ Q v s') s.
Proof.
  intros Hok Hw Hf Hc HQ. unfold wp, modify. rewrite Hw.
  assert (i < length s)%nat as Hlt by by eapply lookup_lt_Some. split; [|done]. split; [split|].
  - apply length_insert.
  - intros j. destruct (decide (i = j)) as [<-|]; [rewrite list_lookup_insert_eq, Hw by done; naive_solver|].
    by rewrite list_lookup_insert_ne by done.
  - intros _ j v Hj. destruct (decide (i = j)) as [<-|].
    + rewrite list_lookup_insert_eq in Hj by done. by simplify_eq.
    + rewrite list_lookup_insert_ne in Hj by done. by eapply Hok.
  - intros j Hj v Hv. destruct (decide (i = j)) as [<-|].
    + rewrite Hw in Hv. simplify_eq. exists (f v). split; [by apply list_lookup_insert_eq|by apply Hc].
    + exists v. rewrite list_lookup_insert_ne by done. by split_and!.
Qed.
Lemma read_ok {A} who (m : M (list (option TsWorker)) A) (Q : A -> (list (option TsWorker)) -> Prop) s :
  wp m (λ a s', s' = s /\ Q a s) s -> wp m (λ a s', guarantee who s s' /\ Q a s') s.
Proof. intros H. eapply wp_mono; [exact H|]. intros a s' [-> HQ]. split; [|done]. split; [apply shape_refl|intros; apply keeps_refl]. Qed.

(** Worker [i] with counter [c] and transaction counter [t]. *)
Definition mine (n : nat) (i : nat) (c t : Z) (s : (list (option TsWorker))) : Prop :=
  length s = n /\ counters_ok s /\ exists w, s !! i = Some (Some w) /\ txn_cnt w = c /\ ts_tx_counter w = t.
Lemma mine_stable_ts n i c t : stable (rely (S i)) (mine n i c t).
Proof.
  intros s s' (Hl & Hok & w & Hw & Hc & Ht) [[A1 A2 A3] Hk]. destruct (Hk w Hw) as (w' & Hw' & E1 & E2).
  split; [congruence|]. split; [by apply A3|]. exists w'. split_and!; [done|congruence|congruence].
Qed.

Lemma modify_mine n i c t f c' t' (s : (list (option TsWorker))) : mine n i c t s ->
  (forall w, txn_cnt w = c -> ts_tx_counter w = t -> 0 <= next_worker_offset w ->
     txn_cnt (f w) = c' /\ ts_tx_counter (f w) = t' /\ 0 <= next_worker_offset (f w)) -> 0 <= c' < 2 ^ 64 ->
  wp (modify i f) (λ w s', guarantee (S i) s s' /\ (0 <= next_worker_offset w /\ txn_cnt w = c /\ ts_tx_counter w = t) /\ mine n i c' t' s') s.
Proof.
  intros (Hl & Hok & w & Hw & Hc & Ht) Hf Hb. destruct (Hok i w Hw) as [_ Ho]. destruct (Hf w Hc Ht Ho) as (E1 & E2 & E3).
  assert (i < length s)%nat as Hlt by by eapply lookup_lt_Some.
  apply (modify_ok _ _ _ _ w (λ w s', (0 <= next_worker_offset w /\ txn_cnt w = c /\ ts_tx_counter w = t) /\ mine n i c' t' s')); [done|done|by rewrite E1|done|].
  split; [done|]. split; [by rewrite length_insert|]. split.
  - intros j v Hj. destruct (decide (i = j)) as [<-|].
    + rewrite list_lookup_insert_eq in Hj by done. injection Hj as <-. by rewrite E1.
    + rewrite list_lookup_insert_ne in Hj by done. by eapply Hok.
  - exists (f w). split; [by apply list_lookup_insert_eq|done].
Qed.
Lemma rg_modify n i c t f c' t' :
  (forall w, txn_cnt w = c -> ts_tx_counter w = t -> 0 <= next_worker_offset w ->
     txn_cnt (f w) = c' /\ ts_tx_counter (f w) = t' /\ 0 <= next_worker_offset (f w)) -> 0 <= c' < 2 ^ 64 ->
  rg (rely (S i)) (guarantee (S i)) (mine n i c t) (act (modify i f))
     (λ w s, (0 <= next_worker_offset w /\ txn_cnt w = c /\ ts_tx_counter w = t) /\ mine n i c' t' s).
Proof.
  intros Hf Hb. apply rg_act; [intros w s s' [Hw Hm] Hr; split; [done|by eapply mine_stable_ts]|].
  intros s Hm. by apply (modify_mine n i c t f c' t' s Hm).
Qed.
Definition present (j : nat) (s : list (option TsWorker)) : Prop := exists w, s !! j = Some (Some w).
Lemma present_stable who j : stable (rely who) (present j).
Proof.
  intros s s' [w Hw] [[A1 A2 A3] _]. destruct (s' !! j) as [[w'|]|] eqn:E; [by exists w'| |].
  - apply A2 in E. congruence.
  - apply lookup_ge_None in E. apply lookup_lt_Some in Hw. lia.
Qed.
Lemma rg_peek {A} n i c t j (f : TsWorker -> A) (Q : A -> Prop) :
  (forall s w, mine n i c t s -> s !! j = Some (Some w) -> Q (f w)) ->
  rg (rely (S i)) (guarantee (S i)) (λ s, present j s /\ mine n i c t s) (act (peek j f)) (λ a s, Q a /\ mine n i c t s).
Proof.
  intros HQ. apply rg_act; [intros a s s' [Ha Hm] Hr; split; [done|by eapply mine_stable_ts]|].
  intros s [[w Hw] Hm]. apply read_ok. unfold wp, peek. rewrite Hw. split_and!; [done| |done]. by eapply HQ.
Qed.
Lemma rg_is_null n i c t j : (j < n)%nat ->
  rg (rely (S i)) (guarantee (S i)) (mine n i c t) (act (is_null j))
     (λ b s, (b = false -> present j s) /\ mine n i c t s).
Proof.
  intros Hj. apply rg_act.
  - intros b s s' [Hb Hm] Hr. split; [intros Eb; eapply present_stable; [by apply Hb|done]|by eapply mine_stable_ts].
  - intros s Hm. apply read_ok. pose proof Hm as (Hl & _ & _). unfold wp, is_null.
    destruct (lookup_lt_is_Some_2 s j ltac:(lia)) as [w Hw]. rewrite Hw. split_and!; [done| |done].
    intros Hb%bool_decide_eq_false. destruct w as [w|]; [by exists w|done].
Qed.
Lemma mine_present n i c t s : mine n i c t s -> present i s /\ mine n i c t s.
Proof. intros Hm. split; [|done]. destruct Hm as (_ & _ & w & Hw & _). by exists w. Qed.

(** After a synchronisation the own counter has not gone back. *)
Definition at_least (n i : nat) (c t : Z) (s : list (option TsWorker)) : Prop := exists c', c <= c' /\ mine n i c' t s.

Lemma rg_tsm_synchronize n i c t o : (i < n)%nat -> 0 <= o ->
  rg (rely (S i)) (guarantee (S i)) (mine n i c t) (tsm_synchronize (Z.of_nat n) i c o) (λ _, at_least n i c t).
Proof.
  intros Hi Ho. unfold tsm_synchronize.
  assert (Hret : forall b : unit, rg (rely (S i)) (guarantee (S i)) (mine n i c t) (mret b) (λ _, at_least n i c t)).
  { intros b. apply rg_mret. intros s Hm. exists c. by split. }
  destruct (Z.eqb_spec (Z.of_nat n - 1) 0) as [|Hn]; [apply Hret|].
  destruct (next_worker_is_another (Z.of_nat n) (Z.of_nat i) o) as [Hb _]; [lia..|].
  set (next := Z.to_nat _). assert (next < n)%nat by lia. clearbody next.
  eapply rg_bind; [by apply rg_is_null|]. intros [|]; cbn beta iota.
  { eapply rg_conseq; [apply Hret|intros s [_ Hm]; exact Hm|done]. }
  eapply rg_bind.
  { eapply rg_conseq; [apply (rg_peek n i c t next txn_cnt (λ m, 0 <= m < 2 ^ 64))|intros s [Hp Hm]; split; [by apply Hp|exact Hm]|done].
    intros s w (_ & Hok & _) Hw. apply (Hok next w Hw). }
  intros m. apply rg_pure. intros Hm. destruct (Z.ltb_spec c m); [|apply Hret].
  eapply rg_bind; [apply (rg_modify n i c t _ m t); [by intros w _ E Hwo|done]|].
  intros w. apply rg_pure. intros _. apply rg_mret. intros s Hs. exists m. split; [lia|done].
Qed.

Lemma rg_synchronize n i c t : (i < n)%nat -> 0 <= c < 2 ^ 64 ->
  rg (rely (S i)) (guarantee (S i)) (mine n i c t) (synchronize (Z.of_nat n) i) (λ _, at_least n i c t).
Proof.
  intros Hi Hc. unfold synchronize. eapply rg_bind.
  { eapply rg_conseq; [apply (rg_peek n i c t i txn_cnt (λ m, m = c))|apply mine_present|done].
    intros s w (_ & _ & w' & Hw' & Ec & _) Hw. congruence. }
  intros m. apply rg_pure. intros ->. eapply rg_bind.
  { apply (rg_modify n i c t _ c t); [|done]. intros w Ec Et Ho. split_and!; [done|done|]. apply Z.mod_pos_bound. lia. }
  intros w. apply rg_pure. intros (Ho & _ & _). by apply rg_tsm_synchronize.
Qed.

(** One draw: the timestamp of the counter it found, and a counter that is past it. *)
Definition past (c amount c' : Z) : Prop := u64 (c + amount) <= c' < 2 ^ 64.
Lemma rg_draw n i sync c t amount : (i < n)%nat -> 0 < sync ->
  rg (rely (S i)) (guarantee (S i)) (mine n i c t) (draw (Z.of_nat n) sync i amount)
     (λ ts s, ts = get_ts i c /\ exists c', past c amount c' /\ mine n i c' t s).
Proof.
  intros Hi Hs. unfold draw. assert (0 <= u64 (c + amount) < 2 ^ 64) as Hu by (apply Z.mod_pos_bound; lia).
  eapply rg_bind; [apply (rg_modify n i c t _ (u64 (c + amount)) t); [by intros w <- E Ho|done]|].
  intros w. apply rg_pure. intros (_ & -> & _). rewrite (proj2 (Z.eqb_neq sync 0)) by lia.
  apply rg_bind with (Q := λ _, at_least n i (u64 (c + amount)) t).
  { destruct (c mod sync =? 0); [by apply rg_synchronize|]. apply rg_mret. intros s Hm. eexists. split; [|done]. done. }
  intros _. apply rg_mret. intros s (c' & Hle & Hm). split; [done|]. exists c'. split; [|done].
  split; [done|]. destruct Hm as (_ & Hok & w' & Hw' & <- & _). apply (Hok i w' Hw').
Qed.

Lemma rg_get_new_ts n i sync c t : (i < n)%nat -> 0 < sync -> 0 <= c < 2 ^ 64 ->
  rg (rely (S i)) (guarantee (S i)) (mine n i c t) (get_new_ts (Z.of_nat n) sync i)
     (λ ts s, ts = get_ts i c /\ exists c', past c 1 c' /\ mine n i c' t s).
Proof.
  intros Hi Hs Hc. unfold get_new_ts. eapply rg_bind; [apply (rg_modify n i c t _ c t); [by intros w E1 E2 Ho|done]|].
  intros w. apply rg_pure. intros _. by apply rg_draw.
Qed.

Lemma rg_begin_tx_ts n i sync c t : (i < n)%nat -> 0 < sync -> 0 <= c < 2 ^ 64 ->
  rg (rely (S i)) (guarantee (S i)) (mine n i c t) (begin_tx (Z.of_nat n) sync i)
     (λ r s, r.1.1.1 = TxID.make (Z.of_nat i) t /\ r.1.1.2 = get_ts i c /\ exists c', past c 1 c' /\ mine n i c' (wrap32 (t + 1)) s).
Proof.
  intros Hi Hs Hc. unfold begin_tx.
  eapply rg_bind; [apply (rg_modify n i c t _ c (wrap32 (t + 1))); [by intros w E1 <- Ho|done]|].
  intros w. apply rg_pure. intros (_ & _ & ->). eapply rg_bind; [by apply rg_get_new_ts|].
  intros ts. apply rg_pure. intros ->. apply rg_exists. intros c'. apply rg_pure. intros Hp.
  assert (Hpeek : forall f : TsWorker -> Z, rg (rely (S i)) (guarantee (S i)) (mine n i c' (wrap32 (t + 1))) (act (peek i f)) (λ _, mine n i c' (wrap32 (t + 1)))).
  { intros f. eapply rg_conseq; [apply (rg_peek n i c' (wrap32 (t + 1)) i f (λ _, True)); done|apply mine_present|]. by intros a s [_ Hm]. }
  apply rg_bind with (Q := λ _, mine n i c' (wrap32 (t + 1))).
  { unfold get_smallest_ts. eapply rg_bind; [apply Hpeek|]. intros a. by apply rg_mret. }
  intros lo. apply rg_bind with (Q := λ _, mine n i c' (wrap32 (t + 1))).
  { unfold get_largest_ts. eapply rg_bind; [apply Hpeek|]. intros a. by apply rg_mret. }
  intros hi. apply rg_mret. intros s Hm. split_and!; [done|done|by exists c'].
Qed.

(** A worker that begins [m] transactions and looks at its counter before each:
    the counters it saw and the timestamps of the transactions. *)
Fixpoint transactions (n sync : Z) (i m : nat) : prog (list (option TsWorker)) (list (Z * Z)) :=
  match m with
  | O => mret []
  | S m => cnt ← act (peek i txn_cnt); r ← begin_tx n sync i; rs ← transactions n sync i m; mret ((cnt, r.1.1.2) :: rs)
  end.
(** Each timestamp is of the counter the worker saw, which is past the one before. *)
Fixpoint drawn (i : nat) (c : Z) (l : list (Z * Z)) : Prop :=
  match l with
  | [] => True
  | (cnt, ts) :: l => cnt = c /\ ts = get_ts i c /\ exists c', past c 1 c' /\ drawn i c' l
  end.
Lemma rg_transactions_ts n i sync m c t : (i < n)%nat -> 0 < sync -> 0 <= c < 2 ^ 64 ->
  rg (rely (S i)) (guarantee (S i)) (mine n i c t) (transactions (Z.of_nat n) sync i m)
     (λ l _, length l = m /\ drawn i c l).
Proof.
  intros Hi Hs. revert c t. induction m as [|m IH]; intros c t Hc; cbn [transactions]; [by apply rg_mret|]. eapply rg_bind.
  - eapply rg_conseq; [apply (rg_peek n i c t i txn_cnt (λ m, m = c))|apply mine_present|done].
    intros s w (_ & _ & w' & Hw' & Ec & _) Hw. congruence.
  - intros cnt. apply rg_pure. intros ->. eapply rg_bind; [by apply rg_begin_tx_ts|]. intros r. cbn beta.
    apply (rg_pure _ _ _ (λ s, r.1.1.2 = get_ts i c /\ exists c', past c 1 c' /\ mine n i c' (wrap32 (t + 1)) s)). intros _.
    apply rg_pure. intros ->. apply rg_exists. intros c'. apply rg_pure. intros Hp.
    eapply rg_bind; [apply IH; unfold past in Hp; pose proof (Z.mod_pos_bound (c + 1) (2 ^ 64) ltac:(lia)); unfold u64 in Hp; lia|].
    intros l. apply rg_mret. intros s [Hl Hd]. split; [cbn; congruence|]. cbn. eauto.
Qed.

(** *** The manager *)
Definition sized (n : nat) (s : list (option TsWorker)) : Prop := length s = n /\ counters_ok s.
Lemma sized_stable n : stable (rely 0) (sized n).
Proof. intros s s' [Hl Hok] [[A1 A2 A3] _]. split; [congruence|by apply A3]. Qed.
Lemma rg_manager_null n j : (j < n)%nat ->
  rg (rely 0) (guarantee 0) (sized n) (act (is_null j)) (λ b s, (b = false -> present j s) /\ sized n s).
Proof.
  intros Hj. apply rg_act.
  - intros b s s' [Hb Hm] Hr. split; [intros Eb; eapply present_stable; [by apply Hb|done]|by eapply sized_stable].
  - intros s Hm. apply read_ok. pose proof Hm as (Hl & _). unfold wp, is_null.
    destruct (lookup_lt_is_Some_2 s j ltac:(lia)) as [w Hw]. rewrite Hw. split_and!; [done| |done].
    intros Hb%bool_decide_eq_false. destruct w as [w|]; [by exists w|done].
Qed.
Lemma rg_manager_modify n j f : (forall w, same_core w (f w) /\ next_worker_offset (f w) = next_worker_offset w) ->
  rg (rely 0) (guarantee 0) (λ s, present j s /\ sized n s) (act (modify j f)) (λ _ s, present j s /\ sized n s).
Proof.
  intros Hf. apply rg_act; [intros _ s s' [Hp Hm] Hr; split; [by eapply present_stable|by eapply sized_stable]|].
  intros s [[w Hw] [Hl Hok]]. destruct (Hf w) as [[E1 E2] E3].
  assert (j < length s)%nat as Hlt by by eapply lookup_lt_Some. destruct (Hok j w Hw) as [H1 H2].
  apply (modify_ok 0 j f s w (λ _ s, present j s /\ sized n s)); [done|done|by rewrite E1, E3|done|].
  split; [exists (f w); by apply list_lookup_insert_eq|]. split; [by rewrite length_insert|].
  intros k v Hk. destruct (decide (j = k)) as [<-|].
  - rewrite list_lookup_insert_eq in Hk by done. injection Hk as <-. by rewrite E1, E3.
  - rewrite list_lookup_insert_ne in Hk by done. by apply (Hok k).
Qed.

Lemma rg_set_gc_ts n : rg (rely 0) (guarantee 0) (sized n) (set_gc_ts n) (λ _, sized n).
Proof.
  unfold set_gc_ts, get_gc_txn_cnt. eapply rg_bind with (Q := λ _, sized n).
  - generalize (2 ^ 64 - 1, 0). assert (Hl : Forall (λ i, (i < n)%nat) (seq 0 n)) by (apply Forall_seq; intros; lia).
    induction Hl as [|i l Hi _ IH]; intros p; cbn [gc_txn_cnt]; [by apply rg_mret|].
    eapply rg_bind; [by apply rg_manager_null|]. intros [|]; cbn beta iota.
    + eapply rg_conseq; [apply (IH p)|by intros s [_ Hs]|done].
    + eapply rg_bind with (Q := λ _, sized n); [|intros c; apply IH].
      apply rg_act; [intros a; apply sized_stable|]. intros s [Hp Hs]. destruct (Hp eq_refl) as [w Hw].
      apply read_ok. unfold wp, peek. by rewrite Hw.
  - intros [lo hi]. cbn [fst snd]. assert (Hl : Forall (λ i, (i < n)%nat) (seq 0 n)) by (apply Forall_seq; intros; lia).
    induction Hl as [|i l Hi _ IH]; cbn [publish]; [by apply rg_mret|].
    eapply rg_bind; [by apply rg_manager_null|]. intros b. cbn beta. apply rg_bind with (Q := λ _, sized n); [|intros ?; apply IH].
    destruct b.
    + apply rg_mret. by intros s [_ Hs].
    + eapply rg_bind with (Q := λ _ s, present i s /\ sized n s).
      { eapply rg_conseq; [apply rg_manager_modify|intros s [Hp Hs]; split; [by apply Hp|exact Hs]|done]. by intros w. }
      intros ?. eapply rg_bind; [apply rg_manager_modify; by intros w|]. intros ?. apply rg_mret. by intros s [_ Hs].
Qed.
Fixpoint start (n rounds : nat) : prog (list (option TsWorker)) (list (Z * Z)) :=
  match rounds with O => mret [] | S r => set_gc_ts n;; start n r end.

(** ** The properties *)
Lemma drawn_of_counters i c l : drawn i c l -> Forall (λ ct, ct.2 = get_ts i ct.1) l.
Proof. revert c. induction l as [|[cnt ts] l IH]; intros c; cbn; [constructor|]. intros (-> & -> & c' & _ & Hd). constructor; [done|by eapply IH]. Qed.
Lemma drawn_increasing i c l : (i < 256)%nat -> drawn i c l -> 0 <= c -> Forall (λ cnt, cnt < 2 ^ 56) l.*1 ->
  StronglySorted Z.lt l.*2 /\ Forall (λ t, c * 256 + Z.of_nat i <= t) l.*2 /\ Forall (λ t, t mod 256 = Z.of_nat i) l.*2.
Proof.
  intros Hi. revert c. induction l as [|[c0 t] l IH]; intros c Hd Hc Hf; cbn [fmap list_fmap fst snd] in *.
  { split_and!; constructor. }
  destruct Hd as (-> & -> & c' & Hp & Hd). apply Forall_cons in Hf as [Hc0 Hf]. unfold past, u64 in Hp.
  rewrite Z.mod_small in Hp by lia. destruct (IH c' Hd ltac:(lia) Hf) as (S1 & S2 & S3).
  rewrite get_ts_value by (done || lia). split_and!.
  - constructor; [done|]. eapply Forall_impl; [exact S2|]. intros x Hx. cbn in Hx. lia.
  - constructor; [lia|]. eapply Forall_impl; [exact S2|]. intros x Hx. cbn in Hx. lia.
  - constructor; [|done]. rewrite Z.add_comm, Z.mod_add, Z.mod_small by lia. done.
Qed.

Definition system (n rounds : nat) (sync : Z) (ms : list nat) : list (prog (list (option TsWorker)) (list (Z * Z))) :=
  start n rounds :: imap (transactions (Z.of_nat n) sync) ms.

(** C40. Under every schedule of the manager and the workers no call fails, every
    timestamp is made of the counter that the worker had when the transaction
    began (it looks at it just before), and if the counters it saw are below
    [2^56], the timestamps strictly increase and carry its number in their last
    byte, so that no other worker draws them. *)
Theorem timestamps_increase n rounds sync ms s sched :
  length s = n -> length ms = n -> (n <= 256)%nat -> 0 < sync -> counters_ok s ->
  (forall i, (i < n)%nat -> exists w, s !! i = Some (Some w)) ->
  exists pool' s', run_schedule sched (system n rounds sync ms) s = Ok (pool', s') /\
    forall i l, (i < n)%nat -> pool' !! S i = Some (Ret l) -> length l = nth i ms 0%nat /\
      Forall (λ '(cnt, ts), ts = get_ts i cnt) l /\
      (Forall (λ cnt, cnt < 2 ^ 56) l.*1 -> StronglySorted Z.lt l.*2 /\ Forall (λ ts, ts mod 256 = Z.of_nat i) l.*2).
Proof.
  intros Hl Hm Hn Hs Hok Hreg.
  destruct (rg_parallel rely guarantee rely_refl_ts rely_trans_ts guarantee_rely_ts (system n rounds sync ms)
    (λ t s1, match t with O => sized n s1 | S i => (i < n)%nat /\ exists w, s !! i = Some (Some w) /\ mine n i (txn_cnt w) (ts_tx_counter w) s1 end)
    (λ t l s1, match t with O => True | S i => length l = nth i ms 0%nat /\
       exists w, s !! i = Some (Some w) /\ drawn i (txn_cnt w) l end) s) with sched as (pool' & s' & Hr & _ & _ & HQ).
  - intros [|i] p Hp; [cbn in Hp|change (imap (transactions (Z.of_nat n) sync) ms !! i = Some p) in Hp].
    + injection Hp as <-. split_and!; [by split|apply sized_stable|]. eapply rg_conseq with (Q := λ _, sized n); [|done|done].
      induction rounds as [|r IH]; cbn [start]; [by apply rg_mret|]. eapply rg_bind; [apply rg_set_gc_ts|]. intros ?. apply IH.
    + rewrite list_lookup_imap in Hp. apply fmap_Some in Hp as (m & Hk & ->).
      assert (i < n)%nat as Hi by (rewrite <- Hm; by eapply lookup_lt_Some). destruct (Hreg i Hi) as [w Hw]. split; [|split].
      * split; [done|]. exists w. split; [done|]. split; [done|]. split; [done|]. by exists w.
      * intros s1 s2 (_ & w' & Hw' & Hmine) Hrel. split; [done|]. exists w'. split; [done|]. by eapply mine_stable_ts.
      * apply rg_pure. intros _. apply rg_exists. intros w'. apply rg_pure. intros Hw'. destruct (Hok i w' Hw') as [Hc _].
        eapply rg_conseq; [by apply rg_transactions_ts|done|]. intros l s1 (Hlen & Hd).
        rewrite (nth_lookup_Some _ _ _ _ Hk). split; [done|]. by exists w'.
  - exists pool', s'. split; [done|]. intros i l Hi Hret. destruct (HQ (S i) l Hret) as (Hlen & w & Hw & Hd).
    split; [done|]. destruct (Hok i w Hw) as [Hc _]. split.
    + eapply Forall_impl; [by eapply drawn_of_counters|]. by intros [cnt ts].
    + intros Hf. destruct (drawn_increasing i _ l ltac:(lia) Hd ltac:(lia) Hf) as (S1 & _ & S3). by split.
Qed.

(** With the bounds a worker is constructed with, a pointer collected under its
    largest timestamp is freed by the next [remove], although a transaction of
    another worker with the same counter may be running. *)
Lemma unpublished_bounds_free_at_once {P} i (p : P) :
  let lo := get_ts i (smallest_txn_cnt TsWorker_init) in let hi := get_ts i (largest_txn_cnt TsWorker_init) in
  TsGarbageCollector.remove lo hi (TsGarbageCollector.collect hi p (TsGarbageCollector.mk [] [])) =
  ([p], TsGarbageCollector.mk [] []).
Proof.
  intros lo hi. unfold TsGarbageCollector.remove, TsGarbageCollector.attach_new_ts, TsGarbageCollector.collect. simpl.
  change (lo) with hi. rewrite Z.ltb_irrefl. simpl. by rewrite Z.ltb_irrefl.
Qed.

Module TimestampWitness.
Definition s0 : list (option TsWorker) := [Some TsWorker_init; Some TsWorker_init].
Definition sched0 : list nat := concat (replicate 60 [1; 2; 0; 1; 1]%nat).
Lemma ok0 : counters_ok s0.
Proof. intros [|[|i]] w Hw; cbn in Hw; simplify_eq; cbn; lia. Qed.
Lemma registered0_ts i : (i < 2)%nat -> exists w, s0 !! i = Some (Some w).
Proof. intros Hi. destruct i as [|[|i]]; [by eexists|by eexists|lia]. Qed.
(** What the workers of a finished run return. *)
Definition returned (o : outcome (list (prog (list (option TsWorker)) (list (Z * Z))) * list (option TsWorker))) : option (list (list (Z * Z))) :=
  match o with Ok (pool, _) => mapM (λ p, match p with Ret l => Some l | _ => None end) pool | Err _ => None end.
Lemma returned_by o pool' s' ls t l : o = Ok (pool', s') -> returned o = Some ls -> ls !! t = Some l -> pool' !! t = Some (Ret l).
Proof.
  intros -> V%mapM_Some Hl. destruct (Forall2_lookup_r _ _ _ t l V Hl) as (p & Hp & E). destruct p; by simplify_eq.
Qed.
Definition seen1 : list (Z * Z) := [(1, 257); (2, 513); (6, 1537); (7, 1793); (8, 2049); (9, 2305)].
(** Worker 1 falls behind and is moved up to worker 0's counter. *)
Lemma returned_value : returned (run_schedule sched0 (system 2 3 2 [5; 6]%nat) s0) =
  Some [[]; [(1, 256); (2, 512); (3, 768); (4, 1024); (5, 1280)]; seen1].
Proof. vm_compute. reflexivity. Qed.
Lemma timestamps_increase_witness : exists pool' s', run_schedule sched0 (system 2 3 2 [5; 6]%nat) s0 = Ok (pool', s') /\
  pool' !! 2%nat = Some (Ret seen1) /\ StronglySorted Z.lt seen1.*2 /\ Forall (λ ts, ts mod 256 = 1) seen1.*2.
Proof.
  destruct (timestamps_increase 2 3 2 [5; 6]%nat s0 sched0 eq_refl eq_refl ltac:(lia) ltac:(lia) ok0 registered0_ts)
    as (pool' & s' & Hr & H). exists pool', s'. split; [exact Hr|]. pose proof (returned_by _ _ _ _ 2%nat seen1 Hr returned_value eq_refl) as Hp. split; [exact Hp|].
  apply (H 1%nat seen1 ltac:(lia) Hp). repeat constructor; simpl; lia.
Defined.
End TimestampWitness.
