(* ===== verification/Load.v ===== *)
(** * Load: what loading a table leaves in memory

    Caracal and Cheetah load a table the same way: for every key a record, a
    row and one stable version, in this order, so that key [k] owns the
    addresses [3 k + 1 .. 3 k + 3].  [row_of p] is the row a protocol builds
    around the version [p]. *)
From S2P Require Import Prelude Index Conc RWLock Memory.

Definition record_addr (key : Z) : addr := Z.to_pos (3 * key + 1).
Definition row_addr (key : Z) : addr := Z.to_pos (3 * key + 2).
Definition version_addr (key : Z) : addr := Z.to_pos (3 * key + 3).

Section Load.
Context {P R : Type} (row_of : addr -> R) (pool0 : list P).
Local Abbreviation E := (Env P R).

(** The state before loading. *)
Definition Env_init : E := mkEnv ∅ ∅ 1%positive Stat_init pool0 0 ∅ RWLock_init [].

(** One more key. *)
Definition add_row (e : E) : E :=
  let b := brk e in
  mkEnv (<[(b + 2)%positive := mkVersion (Some b) STABLE false]> (versions e)) ({[b]} ∪ records e)
        (b + 3)%positive (stat_ e) (pool e) (used_ e)
        (<[(b + 1)%positive := row_of (b + 2)%positive]> (rows e)) (lock_ e) (handed_ e).

Fixpoint load_rows (n : nat) (e : E) : E :=
  match n with O => e | S n' => load_rows n' (add_row e) end.

(** The first [n] keys are loaded. *)
Record loaded (n : Z) (e : E) : Prop := {
  ld_heap : heap_ok e;
  ld_brk : Z.pos (brk e) = 3 * n + 1;
  ld_lock : lock_ e = RWLock_init;
  ld_pool : pool e = pool0;
  ld_used : used_ e = 0;
  ld_handed : handed_ e = [];
  ld_row : forall k, 0 <= k < n -> rows e !! row_addr k = Some (row_of (version_addr k));
  ld_version : forall k, 0 <= k < n ->
    versions e !! version_addr k = Some (mkVersion (Some (record_addr k)) STABLE false);
  ld_dom : forall a, is_Some (rows e !! a) -> exists k, 0 <= k < n /\ a = row_addr k
}.

Lemma loaded_empty : loaded 0 Env_init.
Proof. constructor; try done; try (intros; lia). intros a. simpl. rewrite lookup_empty. by intros []. Qed.

Lemma load_row_heap (e : E) : heap_ok e -> heap_ok (add_row e).
Proof.
  intros [Hf Hl Hr Hi]. set (b := brk e).
  assert (Hnew : forall a v, versions (add_row e) !! a = Some v ->
    (a = (b + 2)%positive /\ rec v = Some b) \/ (a < b)%positive /\ versions e !! a = Some v).
  { intros a v Hv. simpl in Hv. apply lookup_insert_Some in Hv as [(<- & <-)|(_ & Hv)]; [by left|].
    right. split; [by apply (Hf a v)|done]. }
  constructor.
  - intros a v Hv. change (brk (add_row e)) with (b + 3)%positive. destruct (Hnew a v Hv) as [[-> _]|[? _]]; lia.
  - intros a v r Hv Hrec. change (records (add_row e)) with ({[b]} ∪ records e).
    destruct (Hnew a v Hv) as [[-> Hr1]|[_ Hv']].
    + apply elem_of_union_l, elem_of_singleton. congruence.
    + apply elem_of_union_r. by apply (Hl a v).
  - intros r. change (records (add_row e)) with ({[b]} ∪ records e). change (brk (add_row e)) with (b + 3)%positive.
    intros [Hin%elem_of_singleton|Hin%Hr]%elem_of_union; [subst r; unfold b; lia|]. fold b in Hin. lia.
  - intros a1 a2 v1 v2 r H1 H2 R1 R2.
    destruct (Hnew a1 v1 H1) as [[-> E1]|[L1 H1']], (Hnew a2 v2 H2) as [[-> E2]|[L2 H2']]; [done| | |].
    + pose proof (Hr r (Hl a2 v2 r H2' R2)) as Hlt. unfold b in E1. rewrite E1 in R1. injection R1 as <-. lia.
    + pose proof (Hr r (Hl a1 v1 r H1' R1)) as Hlt. unfold b in E2. rewrite E2 in R2. injection R2 as <-. lia.
    + by apply (Hi a1 a2 v1 v2 r).
Qed.

Lemma loaded_next n (e : E) : 0 <= n -> loaded n e -> loaded (n + 1) (add_row e).
Proof.
  intros Hn [Hh Hb Hlk Hp Hu Hhd Hrow Hver Hdom]. pose proof Hh as [Hf _ _ _].
  assert (Hra : (brk e + 1)%positive = row_addr n) by (unfold row_addr; lia).
  assert (Hva : (brk e + 2)%positive = version_addr n) by (unfold version_addr; lia).
  assert (Hrec : brk e = record_addr n) by (unfold record_addr; lia).
  constructor; try done; [by apply load_row_heap|simpl; lia|..].
  - intros k Hk. simpl. rewrite Hra, Hva. destruct (decide (k = n)) as [->|Hne]; [by rewrite lookup_insert_eq|].
    rewrite lookup_insert_ne by (unfold row_addr; lia). apply Hrow. lia.
  - intros k Hk. simpl. rewrite Hva. destruct (decide (k = n)) as [->|Hne]; [by rewrite lookup_insert_eq, Hrec|].
    rewrite lookup_insert_ne by (unfold version_addr; lia). apply Hver. lia.
  - intros a. simpl. rewrite Hra. destruct (decide (a = row_addr n)) as [->|Hne].
    + intros _. exists n. split; [lia|done].
    + rewrite lookup_insert_ne by done. intros (k & ? & ->)%Hdom. exists k. split; [lia|done].
Qed.

(** ** The index after loading *)
Context {I : Type} `{IndexesLaws I addr}.
Context (insert_into_index : I -> Z -> Z -> ptr -> M E I).
Hypothesis insert_eq : forall idx table_id key e,
  (rec ← new_record; insert_into_index idx table_id key (Some rec)) e
  = Ok (idx_insert idx table_id key (Some (brk e + 1)%positive), add_row e).

(** The loop of [load_all_tables], for a protocol that inserts this way. *)
Fixpoint load_loop (idx : I) (table_id : Z) (key : Z) (n : nat) : M E I :=
  match n with
  | O => mret idx
  | S n' =>
      rec ← new_record;
      idx' ← insert_into_index idx table_id key (Some rec);
      load_loop idx' table_id (key + 1) n'
  end.

Lemma load_loop_S idx t key n e :
  load_loop idx t key (S n) e
  = load_loop (idx_insert idx t key (Some (brk e + 1)%positive)) t (key + 1) n (add_row e).
Proof.
  cbn [load_loop]. pose proof (insert_eq idx t key e) as Hone. revert Hone. unfold mbind, M_bind.
  destruct (new_record e) as [[r e1]|]; [|done].
  destruct (insert_into_index idx t key (Some r) e1) as [[i e2]|]; [|done]. by injection 1 as -> ->.
Qed.

Lemma load_loop_loaded n : forall idx table_id key e,
  is_key (key + Z.of_nat n) -> 0 <= key -> loaded key e ->
  (forall k, is_key k -> idx_entry idx table_id k = if decide (k < key) then Some (Some (row_addr k)) else None) ->
  exists idx' e', load_loop idx table_id key n e = Ok (idx', e') /\ loaded (key + Z.of_nat n) e' /\
    (forall k, is_key k -> idx_entry idx' table_id k =
       if decide (k < key + Z.of_nat n) then Some (Some (row_addr k)) else None).
Proof.
  induction n as [|n IH]; intros idx t key e Hk Hk0 Hl Hidx.
  - exists idx, e. change (Z.of_nat 0) with 0. rewrite Z.add_0_r. by split_and!.
  - rewrite load_loop_S.
    assert ((brk e + 1)%positive = row_addr key) as ->
      by (pose proof (ld_brk _ _ Hl); unfold row_addr; lia).
    destruct (IH (idx_insert idx t key (Some (row_addr key))) t (key + 1) (add_row e))
      as (idx' & e' & Hrun' & Hl' & Hidx'); [unfold is_key in *; lia|lia|by apply loaded_next| |].
    + assert (is_key key) as Hik by (unfold is_key in *; lia). intros k Hkk.
      rewrite idx_entry_insert, !Hidx by done. rewrite (decide_False (P := key < key)) by lia.
      destruct (decide (key = k)) as [->|Hne].
      * by rewrite !decide_True by (done || lia).
      * rewrite decide_False by tauto. destruct (decide (k < key)); by rewrite ?decide_True, ?decide_False by lia.
    + exists idx', e'. rewrite Nat2Z.inj_succ. replace (key + Z.succ (Z.of_nat n)) with (key + 1 + Z.of_nat n) by lia.
      by split_and!.
Qed.

Lemma load_loop_table t num : is_key num ->
  exists idx e, load_loop idx_empty t 0 (Z.to_nat num) Env_init = Ok (idx, e) /\ loaded num e /\
    (forall k, is_key k -> idx_find idx t k = if decide (k < num) then Some (row_addr k) else None).
Proof.
  intros Hn. destruct (load_loop_loaded (Z.to_nat num) idx_empty t 0 Env_init) as (idx & e & Hrun & Hl & Hidx).
  - unfold is_key in *. lia.
  - lia.
  - apply loaded_empty.
  - intros k Hk. unfold is_key in Hk. rewrite idx_entry_empty, decide_False by lia. done.
  - assert (Hz : 0 + Z.of_nat (Z.to_nat num) = num) by (unfold is_key in Hn; lia). rewrite Hz in Hl, Hidx.
    exists idx, e. split_and!; [done|done|]. intros k Hk. rewrite idx_find_entry, Hidx by done. by destruct (decide _).
Qed.

End Load.
