(* ===== verification/CaracalRow.v ===== *)
(** * CaracalRow: the per-row storage of Caracal

    [protocols/caracal/include/row_buffer.hpp] and [value.hpp].  A row is one
    version array ordered by global identifier (the epoch in the upper 32 bits,
    the serial number in the lower 32), plus, once the row is contended, a
    buffer per core that is merged into the array in batches.  The latch of the
    array is the [RWLock] of the row. *)
From S2P Require Import Prelude Bitmap Conc RWLock Memory.

(** ** Global identifiers *)
Definition convert_to_serial_id_with_epoch (epoch serial_id : Z) : Z :=
  Z.lor (u64 (Z.shiftl epoch 32)) serial_id.
Definition get_serial_id (global_id : Z) : outcome Z :=
  mask ← fill_the_left_side_until_before_the_given_position 32;
  mret (Z.land global_id (not64 mask)).
Definition get_epoch (global_id : Z) : Z := Z.shiftr global_id 32.

Module PerCoreBuffer.

(** Ascending order. *)
Record t := mk { ids_slots_ : list (Z * ptr) }.
Definition init : t := mk [].

Definition appendable `{BuildConfig} (a : t) (version : ptr) (epoch serial_id : Z)
  : outcome (bool * t) :=
  assert_ (nonnull version);;
  let global_id := convert_to_serial_id_with_epoch epoch serial_id in
  assert_ (Z.of_nat (length (ids_slots_ a)) <? MAX_SLOTS_OF_PER_CORE_BUFFER);;
  let it := upper_bound (fun pair => global_id <? pair.1) (ids_slots_ a) in
  l ← vector_insert (ids_slots_ a) it (global_id, version);
  mret (Z.of_nat (length l) <? MAX_SLOTS_OF_PER_CORE_BUFFER, mk l).

Definition clear_slots (_ : t) : t := mk [].

End PerCoreBuffer.

Module GlobalVersionArray.

(** Ascending order. *)
Record t := mk { ids_slots_ : list (Z * ptr) }.

Section Methods.
Context {P R : Type} `{BuildConfig}.
Local Abbreviation E := (Env P R).

Definition is_exist (a : t) (epoch serial_id : Z) : bool :=
  let global_id := convert_to_serial_id_with_epoch epoch serial_id in
  bool_decide (is_Some (list_find (fun pair => pair.1 = global_id) (ids_slots_ a))).

Definition is_exist_visible_version (a : t) (global_id : Z) : bool :=
  if negb (global_id =? 0) then
    bool_decide (is_Some (list_find (fun pair => pair.1 < global_id) (ids_slots_ a)))
  else true.

Definition is_visible (global_id visible_id : Z) : outcome bool :=
  if get_epoch visible_id <? get_epoch global_id then mret true
  else
    assert_ (get_epoch visible_id =? get_epoch global_id);;
    v ← get_serial_id visible_id;
    g ← get_serial_id global_id;
    assert_ (v <? g);;
    mret true.

(** The iterator is moved back from the bisection's result; at [begin()] that
    is undefined. *)
Definition search_visible_version (a : t) (epoch serial_id : Z) : outcome (Z * ptr) :=
  let global_id := convert_to_serial_id_with_epoch epoch serial_id in
  assert_ (negb (bool_decide (ids_slots_ a = [])));;
  assert_ (is_exist_visible_version a global_id);;
  let it := upper_bound (fun pair => global_id <=? pair.1) (ids_slots_ a) in
  assert_ (negb (Nat.eqb it 0));;
  p ← (match it with O => Err UndefinedBehaviour | S it' => deref (ids_slots_ a !! it') end);
  assert_that (is_visible global_id p.1);;
  mret p.

Definition append_with_no_gc (a : t) (serial_id_with_epoch : Z) (version : ptr) : outcome t :=
  assert_ (nonnull version);;
  let it := upper_bound (fun pair => serial_id_with_epoch <? pair.1) (ids_slots_ a) in
  l ← vector_insert (ids_slots_ a) it (serial_id_with_epoch, version);
  mret (mk l).

Definition gc (itr : Z * ptr) (serial_id_with_epoch : Z) : M E unit :=
  assertM (itr.1 <? serial_id_with_epoch);;
  assertM (nonnull itr.2);;
  v ← load_version itr.2;
  assertM (bool_decide (status v = STABLE));;
  assertM (nonnull (rec v));;
  collect_version itr.2.

(** The loop of [minor_gc]: [itr] stays at [begin()], since the erased element
    is the first one; the argument is what remains of the vector. *)
Fixpoint minor_gc_loop (serial_id_with_epoch : Z) (l : list (Z * ptr)) : M E (list (Z * ptr)) :=
  match l with
  | [] => failM UndefinedBehaviour                (* std::next(end()) *)
  | itr :: l' =>
      match l' with
      | [] => mret l
      | next :: _ =>
          if serial_id_with_epoch <=? next.1 then mret l
          else gc itr serial_id_with_epoch;; minor_gc_loop serial_id_with_epoch l'
      end
  end.

Definition minor_gc (a : t) (epoch : Z) : M E t :=
  assertM (negb (bool_decide (ids_slots_ a = [])));;
  let serial_id_with_epoch := convert_to_serial_id_with_epoch epoch 0 in
  assertM (is_exist_visible_version a serial_id_with_epoch);;
  l ← minor_gc_loop serial_id_with_epoch (ids_slots_ a);
  assertM (negb (bool_decide (l = [])));;
  assertM (is_exist_visible_version (mk l) serial_id_with_epoch);;
  mret (mk l).

(** Appends the slots of a buffer in turn. *)
Fixpoint append_slots (a : t) (l : list (Z * ptr)) : outcome t :=
  match l with
  | [] => mret a
  | (id, version) :: l' => a' ← append_with_no_gc a id version; append_slots a' l'
  end.

Definition batch_append (a : t) (buffer : PerCoreBuffer.t) (cur_epoch : Z)
  : M E (t * PerCoreBuffer.t) :=
  a1 ← minor_gc a cur_epoch;
  a2 ← lift (append_slots a1 (PerCoreBuffer.ids_slots_ buffer));
  mret (a2, PerCoreBuffer.clear_slots buffer).

Definition append_with_gc (a : t) (epoch serial_id : Z) (version : ptr) : M E t :=
  assertM (nonnull version);;
  a1 ← minor_gc a epoch;
  lift (append_with_no_gc a1 (convert_to_serial_id_with_epoch epoch serial_id) version).

Definition is_empty (a : t) : bool := bool_decide (ids_slots_ a = []).

End Methods.
End GlobalVersionArray.

(** A buffer per logical core. *)
Module RowBuffer.
Record t := mk { buffers_ : list PerCoreBuffer.t }.
Definition init : t := mk (replicate (Z.to_nat LOGICAL_CORE_SIZE) PerCoreBuffer.init).
End RowBuffer.

(** [struct Value]: the row; [row_buffer_] indexes the controller's array. *)
Record Value := mkValue {
  rwl : RWLock;                               (* the latch of [global_array_] *)
  global_array_ : GlobalVersionArray.t;
  row_buffer_ : option nat
}.
Definition Value_init : Value := mkValue RWLock_init (GlobalVersionArray.mk []) None.

Abbreviation CEnv := (Env RowBuffer.t Value).

(** Buffers are handed out in order; the constructor builds all of them empty.
    The exception leaves the latch held. *)
Module RowBufferController.
Section Methods.
Context `{BuildConfig} (me : nat).

Definition init : list RowBuffer.t := replicate (Z.to_nat NUM_REGIONS) RowBuffer.init.

Definition lock_ref : LockAt CEnv := mkLockAt (fun e => Some (lock_ e)) set_lock_.

(** The ghost list [handed_] records which worker fetched a buffer. *)
Definition fetcher : addr := Pos.of_succ_nat me.
Definition take_buffer : M CEnv nat :=
  e ← getM;
  assertM (used_ e <? NUM_REGIONS);;
  if NUM_REGIONS <=? used_ e then failM (RuntimeError "NUM_REGIONS <= used_")
  else
    modifyM (set_used (used_ e + 1));;
    modifyM (set_handed (handed_ e ++ [fetcher]));;
    mret (Z.to_nat (used_ e)).

Definition fetch_new_buffer : prog CEnv nat :=
  lock lock_ref me ;;
  buffer ← act take_buffer;
  unlock lock_ref ;;
  mret buffer.

End Methods.
End RowBufferController.

(** ** Global identifiers are epoch-major *)
Definition word32 (z : Z) : Prop := 0 <= z < 2 ^ 32.

Lemma convert_eq epoch serial_id :
  word32 epoch -> word32 serial_id ->
  convert_to_serial_id_with_epoch epoch serial_id = epoch * 2 ^ 32 + serial_id.
Proof.
  intros He Hs. unfold convert_to_serial_id_with_epoch, word32 in *.
  rewrite u64_small by (rewrite Z.shiftl_mul_pow2; lia).
  rewrite <- Z.shiftl_mul_pow2 by lia. symmetry. apply Z.add_nocarry_lor.
  apply Z.bits_inj'. intros i Hi. rewrite Z.land_spec, Z.bits_0, Z.shiftl_spec by lia.
  destruct (Z.ltb_spec i 32).
  - by rewrite Z.testbit_neg_r by lia.
  - rewrite <- (Z.mod_small serial_id (2 ^ 32)) by lia.
    by rewrite Z.mod_pow2_bits_high, andb_false_r by lia.
Qed.

Lemma get_serial_id_eq g : 0 <= g < 2 ^ 64 -> get_serial_id g = Ok (g mod 2 ^ 32).
Proof.
  intros Hg. unfold get_serial_id. rewrite fill_until_before_eq by lia. simpl. f_equal.
  change (not64 (left_mask 32)) with (Z.ones 32). by rewrite Z.land_ones by lia.
Qed.

Lemma get_epoch_eq g : get_epoch g = g / 2 ^ 32.
Proof. unfold get_epoch. by rewrite Z.shiftr_div_pow2 by lia. Qed.

(** C33. The epoch and the serial number of a transaction are recovered from
    its global identifier, every 64-bit word is the identifier of exactly one
    such pair, and identifiers order transactions by epoch first and by serial
    number within an epoch. *)
Theorem global_ids_roundtrip epoch serial_id epoch' serial_id' :
  word32 epoch -> word32 serial_id -> word32 epoch' -> word32 serial_id' ->
  let g := convert_to_serial_id_with_epoch epoch serial_id in
  let g' := convert_to_serial_id_with_epoch epoch' serial_id' in
  0 <= g < 2 ^ 64 /\ get_epoch g = epoch /\ get_serial_id g = Ok serial_id /\
  (g < g' <-> epoch < epoch' \/ epoch = epoch' /\ serial_id < serial_id') /\
  forall id, 0 <= id < 2 ^ 64 ->
    exists s, get_serial_id id = Ok s /\ word32 s /\ word32 (get_epoch id) /\
      convert_to_serial_id_with_epoch (get_epoch id) s = id.
Proof.
  intros He Hs He' Hs' g g'. pose proof (convert_eq _ _ He Hs) as Hg.
  pose proof (convert_eq _ _ He' Hs') as Hg'. fold g in Hg. fold g' in Hg'.
  unfold word32 in *. split_and!; [lia..| | |lia|].
  - rewrite get_epoch_eq, Hg, Z.add_comm, Z.div_add by lia. rewrite Z.div_small; lia.
  - rewrite get_serial_id_eq by lia. by rewrite Hg, Z.add_comm, Z.mod_add, Z.mod_small by lia.
  - intros id Hid. exists (id mod 2 ^ 32). rewrite get_serial_id_eq, get_epoch_eq by done.
    pose proof (Z.mod_pos_bound id (2 ^ 32)) as Hm. pose proof (Z.div_mod id (2 ^ 32)) as Hdm.
    assert (word32 (id / 2 ^ 32)).
    { split; [apply Z.div_pos; lia|apply Z.div_lt_upper_bound; lia]. }
    assert (word32 (id mod 2 ^ 32)) by (unfold word32; lia).
    do 3 (split; [done|]). rewrite convert_eq by done. lia.
Qed.

Lemma global_ids_roundtrip_witness :
  get_epoch (convert_to_serial_id_with_epoch 3 7) = 3 /\
  convert_to_serial_id_with_epoch 3 4095 < convert_to_serial_id_with_epoch 4 0.
Proof.
  destruct (global_ids_roundtrip 3 4095 4 0) as (_ & _ & _ & Ho & _); [unfold word32; lia..|].
  split; [|apply Ho; left; lia].
  destruct (global_ids_roundtrip 3 7 4 0) as (_ & He & _); [unfold word32; lia..|done].
Defined.

(** ** Representation

    [ascending] identifiers; [kept] is what [minor_gc] leaves of an array,
    [garbage] what it frees. *)
Definition kept (bound : Z) (l : list (Z * ptr)) : list (Z * ptr) :=
  option_list (visible_before bound l) ++ filter (fun p => bound <= p.1) l.
Definition garbage (bound : Z) (l : list (Z * ptr)) : list (Z * ptr) :=
  take (length (filter (fun p => p.1 < bound) l) - 1) l.
(** The slots of a buffer, inserted one by one. *)
Definition merge_slots (buf l : list (Z * ptr)) : list (Z * ptr) :=
  foldl (fun l p => insert_slot p l) l buf.

Definition epoch_start_id (epoch : Z) : Z := convert_to_serial_id_with_epoch epoch 0.

(** Serials of an epoch follow its first identifier; the core is the serial modulo 64. *)
Lemma gid_eq epoch s :
  word32 epoch -> 0 <= s < 4096 ->
  convert_to_serial_id_with_epoch epoch s = epoch_start_id epoch + s /\
  convert_to_serial_id_with_epoch epoch s mod 64 = s mod 64.
Proof.
  intros He Hs. unfold epoch_start_id. rewrite !convert_eq by (done || (unfold word32; lia)).
  split; [lia|]. replace (epoch * 2 ^ 32 + s) with (s + (epoch * 2 ^ 26) * 64) by lia. apply Z.mod_add. lia.
Qed.

Section Lists.
Local Abbreviation slots := (list (Z * ptr)).

(** An array with a slot below [bound], cut into garbage, final state, rest. *)
Lemma gc_split bound (l : slots) p :
  ascending l -> visible_before bound l = Some p ->
  exists old rest, l = old ++ p :: rest /\ garbage bound l = old /\ kept bound l = p :: rest /\
    Forall (fun q => q.1 < p.1) old /\ p.1 < bound /\ Forall (fun q => bound <= q.1) rest.
Proof.
  intros Hl Hv. pose proof (ascending_split bound l Hl) as Hs.
  unfold kept, garbage. rewrite Hv. unfold visible_before in Hv.
  apply last_Some in Hv as [old Hold]. rewrite Hold in *.
  exists old, (filter (fun q => bound <= q.1) l). rewrite length_app. cbn [length option_list app].
  rewrite <- app_assoc in Hs. cbn [app] in Hs.
  assert (Hp : p.1 < bound).
  { apply (list_elem_of_filter (fun q : Z * ptr => q.1 < bound) l p). rewrite Hold. set_solver. }
  split_and!; [done| |done| |done|].
  - rewrite Nat.add_sub, Hs. by rewrite take_app_length.
  - rewrite Hs in Hl. apply ascending_app in Hl as (_ & _ & Hlt).
    eapply Forall_impl; [exact Hlt|]. intros q Hq. by inversion Hq.
  - apply Forall_forall. intros q [? _]%list_elem_of_filter. done.
Qed.

(** Readers of the current epoch see the same version in what is kept. *)
Lemma kept_visible bound (l : slots) id :
  ascending l -> bound <= id -> visible_before id (kept bound l) = visible_before id l.
Proof.
  intros Hl Hid. destruct (visible_before bound l) as [p|] eqn:Hv.
  - destruct (gc_split bound l p Hl Hv) as (old & rest & Heq & _ & -> & Hold & Hp & _).
    unfold visible_before. rewrite Heq at 1. rewrite filter_app.
    rewrite !(filter_cons_True _ p) by lia.
    by rewrite last_app_cons.
  - unfold kept. rewrite Hv. simpl. f_equal. apply filter_all. by apply visible_before_None.
Qed.

Lemma kept_ascending bound (l : slots) : ascending l -> ascending (kept bound l).
Proof.
  intros Hl. destruct (visible_before bound l) as [p|] eqn:Hv.
  - destruct (gc_split bound l p Hl Hv) as (old & rest & Heq & _ & -> & _).
    rewrite Heq in Hl. by apply ascending_app in Hl as (_ & ? & _).
  - unfold kept. rewrite Hv. by apply ascending_filter.
Qed.

Lemma garbage_kept bound (l : slots) :
  ascending l -> is_Some (visible_before bound l) -> garbage bound l ++ kept bound l = l.
Proof. intros Hl [p Hv]. by destruct (gc_split bound l p Hl Hv) as (old & rest & -> & -> & -> & _). Qed.

(** Collecting twice in an epoch collects nothing more. *)
Lemma kept_idempotent bound (l : slots) : ascending l -> kept bound (kept bound l) = kept bound l.
Proof.
  intros Hl. unfold kept at 1. rewrite kept_visible by (done || lia). unfold kept at 2. f_equal.
  unfold kept. rewrite filter_app. destruct (visible_before bound l) as [p|] eqn:Hv; simpl.
  - apply visible_before_spec in Hv as (_ & Hp & _); [|done].
    rewrite (filter_cons_False _ p) by lia. simpl. apply filter_all, Forall_forall.
    intros q [? _]%list_elem_of_filter. done.
  - apply filter_all, Forall_forall. intros q [? _]%list_elem_of_filter. done.
Qed.

Lemma elem_of_merge_slots buf : forall (l : slots) q, q ∈ merge_slots buf l <-> q ∈ buf \/ q ∈ l.
Proof.
  induction buf as [|p buf IH]; intros l q; simpl.
  - rewrite elem_of_nil. tauto.
  - unfold merge_slots in *. rewrite IH, elem_of_insert_slot, elem_of_cons. tauto.
Qed.

Lemma merge_slots_ascending buf : forall l : slots,
  ascending l -> NoDup (ids buf) -> (forall x, x ∈ ids buf -> x ∉ ids l) -> ascending (merge_slots buf l).
Proof.
  induction buf as [|p buf IH]; intros l Hl Hnd Hdisj; [done|].
  unfold ids in *. rewrite fmap_cons in *. apply NoDup_cons in Hnd as [Hp Hnd]. simpl.
  apply IH; [|done|].
  - apply insert_slot_ascending; [done|]. apply Hdisj. set_solver.
  - intros x Hx (q & -> & [->|Hq]%elem_of_insert_slot)%list_elem_of_fmap; [done|].
    apply (Hdisj q.1); [set_solver|]. apply list_elem_of_fmap. eauto.
Qed.

Lemma merge_slots_perm buf : forall l : slots, merge_slots buf l ≡ₚ buf ++ l.
Proof.
  induction buf as [|p buf IH]; intros l; [done|]. unfold merge_slots in *. simpl. rewrite IH, insert_slot_perm.
  symmetry. apply Permutation_middle.
Qed.

(** The slots with a property that no merged slot has. *)
Lemma merge_slots_other (P : Z * ptr -> Prop) `{!forall x, Decision (P x)} buf : forall l : slots,
  ascending l -> NoDup (ids buf) -> (forall x, x ∈ ids buf -> x ∉ ids l) -> Forall (fun p => ~ P p) buf ->
  filter P (merge_slots buf l) = filter P l.
Proof.
  induction buf as [|p buf IH]; intros l Hl Hnd Hdisj Hn; [done|].
  apply Forall_cons in Hn as [Hp Hn]. unfold ids in *. rewrite fmap_cons in *. apply NoDup_cons in Hnd as [Hpi Hnd].
  unfold merge_slots in *. simpl. rewrite IH; try done.
  - rewrite filter_insert_slot by done. by rewrite decide_False.
  - apply insert_slot_ascending; [done|]. apply Hdisj. set_solver.
  - intros x Hx (q & -> & [->|Hq]%elem_of_insert_slot)%list_elem_of_fmap; [done|].
    apply (Hdisj q.1); [set_solver|]. by apply list_elem_of_fmap_2.
Qed.

(** A property of all the merged slots, which come after the array's own slots with it. *)
Lemma merge_slots_own (P : Z * ptr -> Prop) `{!forall x, Decision (P x)} buf : forall l : slots,
  ascending l -> ascending (filter P l ++ buf) -> (forall x, x ∈ ids buf -> x ∉ ids l) -> Forall P buf ->
  filter P (merge_slots buf l) = filter P l ++ buf.
Proof.
  induction buf as [|p buf IH]; intros l Hl Hown Hdisj HP; [by rewrite app_nil_r|].
  apply Forall_cons in HP as [Hp HP]. pose proof Hown as (_ & Hb & Hlt)%ascending_app.
  apply ascending_cons in Hb as [_ Hb].
  assert (Hins : filter P (insert_slot p l) = filter P l ++ [p]).
  { rewrite filter_insert_slot, decide_True by done. apply insert_slot_snoc.
    eapply Forall_impl; [exact Hlt|]. intros q Hq. apply Forall_cons in Hq as [Hq _]. lia. }
  assert (Hpid : p.1 ∉ ids l) by (apply Hdisj; unfold ids; set_solver).
  unfold merge_slots in *. simpl. rewrite IH; try done.
  - by rewrite Hins, <- app_assoc.
  - by apply insert_slot_ascending.
  - by rewrite Hins, <- app_assoc.
  - intros x Hx (q & -> & [->|Hq]%elem_of_insert_slot)%list_elem_of_fmap.
    + rewrite Forall_forall in Hb. apply list_elem_of_fmap in Hx as (q & Hq & Hin). specialize (Hb q Hin). lia.
    + apply (Hdisj q.1); [unfold ids in *; set_solver|]. by apply list_elem_of_fmap_2.
Qed.

Lemma kept_filter (P : Z * ptr -> Prop) `{!forall x, Decision (P x)} bound (l : slots) :
  ascending l -> (forall p, P p -> bound <= p.1) -> filter P (kept bound l) = filter P l.
Proof.
  intros Hl HP. unfold kept. rewrite filter_app.
  assert (filter P (option_list (visible_before bound l)) = []) as ->.
  { destruct (visible_before bound l) as [p|] eqn:Hv; [|done]. simpl.
    apply visible_before_spec in Hv as (_ & Hlt & _); [|done]. rewrite filter_cons_False; [done|]. intros Hp. specialize (HP p Hp). lia. }
  simpl. rewrite list_filter_filter. apply list_filter_iff. intros p. split; [tauto|]. intros Hp. split; [done|by apply HP].
Qed.

Lemma ids_visible (l : slots) id p :
  ascending l -> visible_before id l = Some p ->
  bool_decide (is_Some (list_find (fun pair : Z * ptr => pair.1 < id) l)) = true.
Proof.
  intros Hl Hv. apply visible_before_spec in Hv as (Hin & Hlt & _); [|done].
  apply bool_decide_eq_true_2. by apply (list_find_elem_of (fun pair : Z * ptr => pair.1 < id) l p).
Qed.

End Lists.

(** ** The methods on well-formed arrays *)
Section MethodSpecs.
Context {P R : Type} `{BuildConfig}.
Local Abbreviation E := (Env P R).
Import GlobalVersionArray.

Lemma append_with_no_gc_eq l id p :
  is_Some p -> ascending l -> append_with_no_gc (mk l) id p = Ok (mk (insert_slot (id, p) l)).
Proof.
  intros Hp Hl. unfold append_with_no_gc. run_assert by (by apply nonnull_Some).
  by rewrite (upper_bound_insert (id, p)).
Qed.

Lemma append_slots_eq buf : forall l,
  Forall (fun q => is_Some q.2) buf -> ascending l -> NoDup (ids buf) ->
  (forall x, x ∈ ids buf -> x ∉ ids l) ->
  append_slots (mk l) buf = Ok (mk (merge_slots buf l)).
Proof.
  induction buf as [|[id p] buf IH]; intros l Hp Hl Hnd Hdisj; [done|]. cbn [append_slots].
  apply Forall_cons in Hp as [? ?]. rewrite append_with_no_gc_eq by done. simpl.
  unfold ids in *. rewrite fmap_cons in *. apply NoDup_cons in Hnd as [Hx Hnd].
  rewrite IH; [done|done| |done|].
  - apply insert_slot_ascending; [done|]. apply Hdisj. set_solver.
  - intros x Hin (q & -> & [->|Hq]%elem_of_insert_slot)%list_elem_of_fmap; [done|].
    apply (Hdisj q.1); [set_solver|]. apply list_elem_of_fmap. eauto.
Qed.

Lemma is_exist_visible_eq l id :
  ascending l -> is_Some (visible_before id l) -> is_exist_visible_version (mk l) id = true.
Proof.
  intros Hl [p Hv]. unfold is_exist_visible_version. destruct (negb _); [|done].
  by eapply ids_visible.
Qed.

Lemma wp_gc (itr : Z * ptr) bound (e : E) (Q : unit -> E -> Prop) :
  itr.1 < bound -> heap_ok e -> collectable_ptr e itr.2 ->
  (forall e', heap_ok e' -> freed (addrs [itr.2]) e e' ->
     stat_ e' = Stat_increment (stat_ e) Delete -> Q tt e') ->
  wp (gc itr bound) Q e.
Proof.
  destruct itr as [id [a|]]; cbn [fst snd]; intros Hlt Hok Hc HQ; [|done].
  pose proof Hc as (v & r & Hv & Hs & Hr). unfold gc.
  wp_step. apply wp_assertM; [cbn; bool_lia|]. wp_step. apply wp_assertM; [done|].
  wp_step. eapply wp_load_version; [exact Hv|].
  wp_step. apply wp_assertM; [by apply bool_decide_eq_true_2|].
  wp_step. apply wp_assertM; [by rewrite Hr|]. apply wp_collect_version; auto.
Qed.

Lemma wp_minor_gc_loop bound old p rest : forall (e : E) (Q : list (Z * ptr) -> E -> Prop),
  Forall (fun q => q.1 < bound) old -> p.1 < bound -> Forall (fun q => bound <= q.1) rest ->
  heap_ok e -> NoDup old.*2 -> Forall (collectable_ptr e) old.*2 ->
  (forall e', heap_ok e' -> freed (addrs old.*2) e e' ->
     stat_ e' = deletes (length old) (stat_ e) -> Q (p :: rest) e') ->
  wp (minor_gc_loop bound (old ++ p :: rest)) Q e.
Proof.
  induction old as [|x old IH]; intros e Q Hold Hp Hrest Hok Hnd Hc HQ; cbn [app minor_gc_loop].
  - destruct rest as [|y rest].
    + apply wp_ret, HQ; [done|apply freed_nil|done].
    + apply Forall_cons in Hrest as [Hy _]. rewrite (proj2 (Z.leb_le _ _) Hy).
      apply wp_ret, HQ; [done|apply freed_nil|done].
  - rewrite fmap_cons in *. apply Forall_cons in Hold as [Hx Hold].
    apply NoDup_cons in Hnd as [Hnx Hnd]. apply Forall_cons in Hc as [Hcx Hc].
    destruct (old ++ p :: rest) as [|y l'] eqn:Heq; [by destruct old|].
    assert (Hy : y.1 < bound).
    { destruct old; simplify_eq/=; [done|]. by inversion Hold. }
    rewrite (proj2 (Z.leb_gt _ _) Hy). wp_step. apply wp_gc; [done..|].
    intros e1 Hok1 Hf1 Hst1. apply IH; [done..| |].
    + apply Forall_forall. intros z Hz. rewrite Forall_forall in Hc.
      eapply freed_collectable_ptr; [exact Hf1| |by apply Hc].
      apply Forall_forall. intros a Ha%elem_of_addrs <-. apply list_elem_of_singleton in Ha.
      by rewrite Ha in Hz.
    + intros e2 Hok2 Hf2 Hst2. apply HQ; [done| |].
      * change (x.2 :: old.*2) with ([x.2] ++ old.*2). rewrite addrs_app. by eapply freed_trans.
      * rewrite Hst2, Hst1. cbn [length]. by rewrite deletes_S.
Qed.

(** [minor_gc] keeps the final state before the epoch and the epoch's own versions. *)
Lemma wp_minor_gc l epoch (e : E) (Q : t -> E -> Prop) :
  ascending l -> is_Some (visible_before (epoch_start_id epoch) l) ->
  heap_ok e -> NoDup l.*2 -> Forall (collectable_ptr e) (garbage (epoch_start_id epoch) l).*2 ->
  (forall e', heap_ok e' -> freed (addrs (garbage (epoch_start_id epoch) l).*2) e e' ->
     stat_ e' = deletes (length (garbage (epoch_start_id epoch) l)) (stat_ e) ->
     Q (mk (kept (epoch_start_id epoch) l)) e') ->
  wp (minor_gc (mk l) epoch) Q e.
Proof.
  intros Hl Hv Hok Hnd Hc HQ. set (b := epoch_start_id epoch) in *.
  unfold minor_gc. fold (epoch_start_id epoch). fold b. pose proof (kept_ascending b l Hl) as Hka.
  pose proof (kept_visible b l b Hl (Z.le_refl b)) as Hkv.
  destruct Hv as [p Hv]. destruct (gc_split b l p Hl Hv) as (old & rest & Heq & Hg & Hk & Hold & Hp & Hrest).
  rewrite Hg, Hk in *. subst l. cbn [ids_slots_].
  wp_step. apply wp_assertM; [by destruct old|].
  wp_step. apply wp_assertM; [by apply is_exist_visible_eq|].
  wp_step. rewrite fmap_app in Hnd. apply NoDup_app in Hnd as (Hnd & _ & _).
  apply wp_minor_gc_loop; [|done..|].
  { eapply Forall_impl; [exact Hold|]. simpl. lia. }
  intros e' Hok' Hf' Hst'. wp_step. apply wp_assertM; [done|].
  wp_step. apply wp_assertM; [apply is_exist_visible_eq; [done|by rewrite Hkv]|].
  apply wp_ret. by apply HQ.
Qed.

Lemma wp_batch_append l buf epoch (e : E) (Q : t * PerCoreBuffer.t -> E -> Prop) :
  ascending l -> is_Some (visible_before (epoch_start_id epoch) l) ->
  heap_ok e -> NoDup l.*2 -> Forall (collectable_ptr e) (garbage (epoch_start_id epoch) l).*2 ->
  Forall (fun q => is_Some q.2) buf -> NoDup (ids buf) ->
  (forall x, x ∈ ids buf -> x ∉ ids (kept (epoch_start_id epoch) l)) ->
  (forall e', heap_ok e' -> freed (addrs (garbage (epoch_start_id epoch) l).*2) e e' ->
     stat_ e' = deletes (length (garbage (epoch_start_id epoch) l)) (stat_ e) ->
     Q (mk (merge_slots buf (kept (epoch_start_id epoch) l)), PerCoreBuffer.mk []) e') ->
  wp (batch_append (mk l) (PerCoreBuffer.mk buf) epoch) Q e.
Proof.
  intros Hl Hv Hok Hnd Hc Hb Hbnd Hdisj HQ. unfold batch_append. wp_step.
  apply wp_minor_gc; [done..|]. intros e' Hok' Hf' Hst'. wp_steps. cbn [PerCoreBuffer.ids_slots_].
  rewrite append_slots_eq by (done || by apply kept_ascending). by apply HQ.
Qed.

Lemma wp_append_with_gc l epoch serial p (e : E) (Q : t -> E -> Prop) :
  is_Some p ->
  ascending l -> is_Some (visible_before (epoch_start_id epoch) l) ->
  heap_ok e -> NoDup l.*2 -> Forall (collectable_ptr e) (garbage (epoch_start_id epoch) l).*2 ->
  (forall e', heap_ok e' -> freed (addrs (garbage (epoch_start_id epoch) l).*2) e e' ->
     stat_ e' = deletes (length (garbage (epoch_start_id epoch) l)) (stat_ e) ->
     Q (mk (insert_slot (convert_to_serial_id_with_epoch epoch serial, p)
                        (kept (epoch_start_id epoch) l))) e') ->
  wp (append_with_gc (mk l) epoch serial p) Q e.
Proof.
  intros Hp Hl Hv Hok Hnd Hc HQ. unfold append_with_gc.
  wp_step. apply wp_assertM; [by apply nonnull_Some|]. wp_step.
  apply wp_minor_gc; [done..|]. intros e' Hok' Hf' Hst'. wp_steps.
  rewrite append_with_no_gc_eq by (done || by apply kept_ascending). by apply HQ.
Qed.

(** [appendable] inserts in order and says whether there is room left. *)
Lemma appendable_eq buf p epoch serial :
  is_Some p -> ascending buf ->
  NDEBUG = true \/ Z.of_nat (length buf) < MAX_SLOTS_OF_PER_CORE_BUFFER ->
  let buf' := insert_slot (convert_to_serial_id_with_epoch epoch serial, p) buf in
  PerCoreBuffer.appendable (PerCoreBuffer.mk buf) p epoch serial
  = Ok (Z.of_nat (length buf') <? MAX_SLOTS_OF_PER_CORE_BUFFER, PerCoreBuffer.mk buf').
Proof.
  intros Hp Hb Hroom. unfold PerCoreBuffer.appendable. run_assert by (by apply nonnull_Some).
  rewrite assert_ok by (destruct Hroom; [by left|right; cbn; bool_lia]). cbn [PerCoreBuffer.ids_slots_].
  rewrite bind_Ok. by rewrite (upper_bound_insert (convert_to_serial_id_with_epoch epoch serial, p)).
Qed.

End MethodSpecs.

(** ** Collecting again in the same epoch is a no-op *)
Section OneByOne.
Context {P R : Type} `{BuildConfig}.
Local Abbreviation E := (Env P R).
Import GlobalVersionArray.

Lemma minor_gc_collected p rest epoch (e : E) :
  p.1 < epoch_start_id epoch -> Forall (fun q => epoch_start_id epoch <= q.1) rest ->
  minor_gc (mk (p :: rest)) epoch e = Ok (mk (p :: rest), e).
Proof.
  intros Hp Hrest. unfold minor_gc. fold (epoch_start_id epoch).
  assert (Hex : is_exist_visible_version (mk (p :: rest)) (epoch_start_id epoch) = true).
  { unfold is_exist_visible_version. destruct (negb _); [|done]. cbn [ids_slots_].
    apply bool_decide_eq_true_2. simpl. by rewrite decide_True. }
  assert (Hloop : minor_gc_loop (epoch_start_id epoch) (p :: rest) e = Ok (p :: rest, e)).
  { cbn [minor_gc_loop]. destruct rest as [|y rest]; [done|].
    apply Forall_cons in Hrest as [Hy _]. by rewrite (proj2 (Z.leb_le _ _) Hy). }
  unfold assertM, mbind, M_bind, lift. rewrite Hex.
  do 2 (rewrite assert_true by done). cbn [ids_slots_]. rewrite Hloop.
  rewrite assert_true by done. by rewrite Hex, assert_true.
Qed.

(** The uncontended path, once per slot. *)
Fixpoint append_one_by_one (a : t) (epoch : Z) (w : list (Z * ptr)) : M E t :=
  match w with
  | [] => mret a
  | (serial, version) :: w' =>
      a' ← append_with_gc a epoch serial version; append_one_by_one a' epoch w'
  end.

Definition buffered (epoch : Z) (w : list (Z * ptr)) : list (Z * ptr) :=
  (fun s => (convert_to_serial_id_with_epoch epoch s.1, s.2)) <$> w.

Lemma append_one_by_one_collected p epoch w : forall rest (e : E),
  p.1 < epoch_start_id epoch -> Forall (fun q => epoch_start_id epoch <= q.1) rest ->
  ascending (p :: rest) -> Forall (fun s => is_Some s.2 /\ word32 s.1) w -> word32 epoch ->
  NoDup (ids (buffered epoch w)) -> (forall x, x ∈ ids (buffered epoch w) -> x ∉ ids (p :: rest)) ->
  append_one_by_one (mk (p :: rest)) epoch w e = Ok (mk (merge_slots (buffered epoch w) (p :: rest)), e).
Proof.
  induction w as [|[s v] w IH]; intros rest e Hp Hrest Ha Hw He Hnd Hdisj; [done|].
  apply Forall_cons in Hw as [[Hv Hs] Hw]. cbn [fst snd] in *.
  cbn [append_one_by_one]. unfold append_with_gc, assertM, mbind, M_bind, lift.
  rewrite assert_true by (by apply nonnull_Some). rewrite minor_gc_collected by done.
  rewrite append_with_no_gc_eq by done.
  set (id := convert_to_serial_id_with_epoch epoch s) in *.
  assert (Hid : epoch_start_id epoch <= id).
  { unfold id, epoch_start_id. rewrite !convert_eq by (done || unfold word32; lia). unfold word32 in Hs. lia. }
  change (ids (buffered epoch ((s, v) :: w))) with (id :: ids (buffered epoch w)) in *.
  change (merge_slots (buffered epoch ((s, v) :: w)) (p :: rest))
    with (merge_slots (buffered epoch w) (insert_slot (id, v) (p :: rest))).
  apply NoDup_cons in Hnd as [Hn Hnd].
  assert (Hins : insert_slot (id, v) (p :: rest) = p :: insert_slot (id, v) rest).
  { cbn [insert_slot]. by rewrite decide_False by (cbn; lia). }
  assert (Hdone : ascending (insert_slot (id, v) (p :: rest))).
  { apply insert_slot_ascending; [done|]. apply Hdisj. set_solver. }
  rewrite Hins in *. apply IH; [done| |done..|].
  - apply Forall_forall. rewrite Forall_forall in Hrest.
    intros q [->|Hq]%elem_of_insert_slot; [done|by apply Hrest].
  - intros x Hx (q & -> & Hq)%list_elem_of_fmap. rewrite <- Hins in Hq.
    apply elem_of_insert_slot in Hq as [->|Hq]; [done|].
    apply (Hdisj q.1); [apply elem_of_cons; by right|]. apply list_elem_of_fmap. eauto.
Qed.

End OneByOne.

(** ** Properties of the version array *)
Section Properties.
Context `{BuildConfig}.
Import GlobalVersionArray.

(** An array at the time a worker of [epoch] appends to it: ordered, with a
    state from before the epoch, whose superseded versions are stable. *)
Record collectible_array {P R} (e : Env P R) (l : list (Z * ptr)) (epoch : Z) : Prop := {
  ca_sorted : ascending l;
  ca_final : is_Some (visible_before (epoch_start_id epoch) l);
  ca_nodup : NoDup l.*2;
  ca_stable : Forall (collectable_ptr e) (garbage (epoch_start_id epoch) l).*2
}.

Lemma search_visible_version_eq (l : list (Z * ptr)) epoch serial_id :
  ascending l -> Forall (fun q => 0 <= q.1 < 2 ^ 64) l -> word32 epoch -> word32 serial_id ->
  search_visible_version (mk l) epoch serial_id
  = match visible_before (convert_to_serial_id_with_epoch epoch serial_id) l with
    | Some p => Ok p
    | None => Err (if NDEBUG then UndefinedBehaviour else AssertFailed)
    end.
Proof.
  intros Hl Hb He Hs. unfold search_visible_version. cbn [ids_slots_].
  pose proof (convert_eq epoch serial_id He Hs) as Hgid.
  set (gid := convert_to_serial_id_with_epoch epoch serial_id) in *.
  rewrite upper_bound_visible by done.
  pose proof (visible_before_lookup gid l Hl) as Hlk.
  destruct (visible_before gid l) as [p|] eqn:Hv.
  - destruct Hlk as [Hlk|Hnil]; [|unfold visible_before in Hv; by rewrite Hnil in Hv].
    pose proof Hv as (Hin & Hlt & _)%visible_before_spec; [|done].
    assert (Hne : l <> []) by (intros ->; by apply not_elem_of_nil in Hin).
    pass_assert by (by rewrite bool_decide_eq_false_2 by exact Hne).
    pass_assert by (by apply is_exist_visible_eq; [|eauto]).
    destruct (length _) as [|n] eqn:Hlen.
    { apply nil_length_inv in Hlen. unfold visible_before in Hv. by rewrite Hlen in Hv. }
    pass_assert by done. cbn [pred] in Hlk. rewrite Hlk. cbn [deref]. rewrite bind_Ok.
    rewrite assert_that_true; [by rewrite bind_Ok|].
    rewrite Forall_forall in Hb. specialize (Hb p Hin).
    assert (Hg64 : 0 <= gid < 2 ^ 64) by (unfold word32 in *; lia).
    unfold is_visible. rewrite !get_epoch_eq, !get_serial_id_eq, !bind_Ok by done.
    destruct (Z.ltb_spec (p.1 / 2 ^ 32) (gid / 2 ^ 32)); [done|].
    assert (Heq : p.1 / 2 ^ 32 = gid / 2 ^ 32).
    { pose proof (Z.div_le_mono p.1 gid (2 ^ 32)) as Hm. generalize dependent (gid / 2 ^ 32). lia. }
    pass_assert by (by apply Z.eqb_eq). rewrite (assert_true (_ <? _)); [by rewrite bind_Ok|].
    pose proof (Z.div_mod p.1 (2 ^ 32)). pose proof (Z.div_mod gid (2 ^ 32)). bool_lia.
  - pose proof Hv as Hnone%visible_before_None. unfold visible_before in Hv.
    apply last_None in Hv. rewrite Hv. cbn [length].
    unfold assert_. destruct NDEBUG; [done|].
    destruct (bool_decide (l = [])); [done|]. cbn.
    by destruct (is_exist_visible_version _ _).
Qed.

(** C31. [search_visible_version] returns the slot with the largest identifier
    below the reader's, whatever the array holds; when there is none a debug
    build stops at an assertion and a release build steps before [begin()]. *)
Theorem search_visible_version_exact (l : list (Z * ptr)) epoch serial_id :
  ascending l -> Forall (fun q => 0 <= q.1 < 2 ^ 64) l -> word32 epoch -> word32 serial_id ->
  search_visible_version (mk l) epoch serial_id
  = match visible_before (convert_to_serial_id_with_epoch epoch serial_id) l with
    | Some p => Ok p
    | None => Err (if NDEBUG then UndefinedBehaviour else AssertFailed)
    end.
Proof. apply search_visible_version_eq. Qed.

(** C29. [minor_gc] keeps exactly what readers of the epoch and of later epochs
    can see: it cuts off a prefix of the array no such reader would be given,
    frees the versions of that prefix and no others, and every slot that stays
    is the answer to some reader. *)
Theorem minor_gc_collects_the_invisible {P R} (l : list (Z * ptr)) epoch (e : Env P R) :
  heap_ok e -> collectible_array e l epoch ->
  let now := epoch_start_id epoch in
  exists old l' e',
    minor_gc (mk l) epoch e = Ok (mk l', e') /\ heap_ok e' /\
    l = old ++ l' /\ freed (addrs old.*2) e e' /\
    (forall id, now <= id -> visible_before id l' = visible_before id l) /\
    (forall q id, q ∈ old -> now <= id -> visible_before id l <> Some q) /\
    (forall q, q ∈ l' -> exists id, now <= id /\ visible_before id l = Some q).
Proof.
  intros Hok [Hl Hf Hnd Hc] now.
  assert (Hwp : wp (minor_gc (mk l) epoch)
     (fun a e' => a = mk (kept now l) /\ heap_ok e' /\ freed (addrs (garbage now l).*2) e e') e).
  { apply wp_minor_gc; [done..|]. by intros e' ? ? _. }
  apply wp_elim in Hwp as (a & e' & Hrun & -> & Hok' & Hfr).
  exists (garbage now l), (kept now l), e'. destruct Hf as [p Hv]. fold now in Hv.
  pose proof (garbage_kept now l Hl (ex_intro _ p Hv)) as Hsplit.
  destruct (gc_split now l p Hl Hv) as (old & rest & _ & Hg & Hk & Hold & Hp & Hrest).
  split_and!; [done|done|done|done|by intros; apply kept_visible| |].
  - intros q id Hq Hid Hvis. rewrite Hg in Hq. rewrite Forall_forall in Hold.
    apply visible_before_spec in Hvis as (_ & _ & Hmax); [|done].
    assert (p.1 <= q.1); [apply Hmax; [|lia]|by specialize (Hold q Hq); lia].
    rewrite <- Hsplit, Hk. set_solver.
  - intros q Hq. pose proof (kept_ascending now l Hl) as Hka.
    rewrite Hk in Hq. apply elem_of_cons in Hq as [->|Hq]; [by exists now|].
    rewrite Forall_forall in Hrest. exists (q.1 + 1). specialize (Hrest q Hq). split; [lia|].
    apply visible_before_spec; [done|]. rewrite <- Hsplit, Hk.
    split_and!; [set_solver|lia|]. intros; lia.
Qed.

(** C30. Merging a worker's buffer in one batch has the effect of appending its
    versions to the array one at a time, as an uncontended row would. *)
Theorem batch_append_is_one_by_one {P R} (l w : list (Z * ptr)) epoch (e : Env P R) :
  heap_ok e -> collectible_array e l epoch -> word32 epoch ->
  w <> [] -> Forall (fun s => is_Some s.2 /\ word32 s.1) w ->
  NoDup (ids (buffered epoch w)) ->
  (forall x, x ∈ ids (buffered epoch w) -> x ∉ ids l) ->
  exists a e',
    append_one_by_one (mk l) epoch w e = Ok (a, e') /\
    batch_append (mk l) (PerCoreBuffer.mk (buffered epoch w)) epoch e
    = Ok ((a, PerCoreBuffer.init), e').
Proof.
  intros Hok [Hl Hf Hnd Hc] He Hne Hw Hnds Hdisj. set (now := epoch_start_id epoch) in *.
  destruct Hf as [p Hv]. pose proof (garbage_kept now l Hl (ex_intro _ p Hv)) as Hsplit.
  assert (Hdk : forall x, x ∈ ids (buffered epoch w) -> x ∉ ids (kept now l)).
  { intros x Hx Hin. apply (Hdisj x Hx). rewrite <- Hsplit. unfold ids in *. rewrite fmap_app. set_solver. }
  assert (Hgc : exists e', minor_gc (mk l) epoch e = Ok (mk (kept now l), e')).
  { assert (Hwp : wp (minor_gc (mk l) epoch) (fun a e' => a = mk (kept now l)) e).
    { apply wp_minor_gc; [done|by exists p|done..]. }
    apply wp_elim in Hwp as (a & e' & Hrun & ->). by exists e'. }
  destruct Hgc as [e' Hgc]. pose proof (kept_ascending now l Hl) as Hka.
  exists (mk (merge_slots (buffered epoch w) (kept now l))), e'. split.
  - destruct w as [|[s v] w]; [done|]. cbn [append_one_by_one].
    pose proof Hw as [[Hsv Hs] Hw']%Forall_cons. cbn [fst snd] in *.
    unfold append_with_gc, assertM, mbind, M_bind, lift.
    rewrite assert_true by (by apply nonnull_Some). rewrite Hgc.
    rewrite append_with_no_gc_eq by done.
    destruct (gc_split now l p Hl Hv) as (old & rest & _ & _ & Hk & _ & Hp & Hrest).
    pose proof (append_one_by_one_collected p epoch ((s, v) :: w) rest e') as Hone.
    rewrite <- Hk in Hone. specialize (Hone Hp Hrest Hka Hw He Hnds Hdk).
    cbn [append_one_by_one] in Hone. rewrite Hk in Hone.
    unfold append_with_gc, assertM, mbind, M_bind, lift in Hone.
    rewrite assert_true in Hone by (by apply nonnull_Some).
    rewrite minor_gc_collected in Hone by done. rewrite <- Hk in Hone.
    by rewrite append_with_no_gc_eq in Hone by done.
  - unfold batch_append, mbind, M_bind, lift. rewrite Hgc. cbn [PerCoreBuffer.ids_slots_].
    rewrite append_slots_eq; [done| |done..].
    apply Forall_fmap. eapply Forall_impl; [exact Hw|]. by intros q [? _].
Qed.

End Properties.

(** ** A concrete array: two states of epoch 0, one of epoch 1, read in epoch 2 *)
Module ArrayWitness.
#[local] Existing Instance debug_build.
Import GlobalVersionArray.

Definition slot (epoch serial : Z) (p : positive) : Z * ptr :=
  (convert_to_serial_id_with_epoch epoch serial, Some p).
Definition l : list (Z * ptr) := [slot 0 0 1; slot 0 9 2; slot 1 5 3].
Definition env : CEnv := SmallHeap.env.

Lemma l_ready : collectible_array env l 2.
Proof.
  constructor.
  - repeat constructor.
  - by eexists.
  - apply (bool_decide_unpack _). by vm_compute.
  - apply Forall_forall. intros p Hp. apply SmallHeap.env_collectable. vm_compute in Hp. set_solver.
Qed.

Lemma search_visible_version_exact_witness :
  search_visible_version (mk l) 1 5 = Ok (slot 0 9 2) /\
  search_visible_version (mk l) 0 0 = Err AssertFailed.
Proof.
  assert (Hl : ascending l) by apply (ca_sorted env l 2 l_ready).
  assert (Hb : Forall (fun q : Z * ptr => 0 <= q.1 < 2 ^ 64) l).
  { repeat (apply Forall_cons; split; [split; by vm_compute|]). constructor. }
  split; [rewrite (search_visible_version_exact l 1 5)|rewrite (search_visible_version_exact l 0 0)];
    solve [done|unfold word32; lia].
Defined.

Lemma minor_gc_collects_the_invisible_witness :
  exists e', minor_gc (mk l) 2 env = Ok (mk [slot 1 5 3], e') /\ versions e' !! 1%positive = None.
Proof.
  destruct (minor_gc_collects_the_invisible l 2 env SmallHeap.env_ok l_ready)
    as (old & l' & e' & Hrun & _ & Hl & Hf & _).
  pose proof (f_equal (fun o => match o with Ok (a, _) => a | Err _ => mk [] end) Hrun) as Hl'.
  vm_compute in Hl'. injection Hl' as <-. exists e'. split; [exact Hrun|].
  apply (freed_lookup _ _ _ _ Hf). apply elem_of_addrs.
  destruct old as [|x old]; [by apply (f_equal length) in Hl|]. injection Hl as <- _.
  rewrite fmap_cons. apply elem_of_cons. by left.
Defined.

Lemma batch_append_is_one_by_one_witness :
  let w := [(3, Some 4%positive); (1, Some 5%positive)] in
  exists e',
    batch_append (mk l) (PerCoreBuffer.mk (buffered 2 w)) 2 env
    = Ok ((mk [slot 1 5 3; slot 2 1 5; slot 2 3 4], PerCoreBuffer.init), e').
Proof.
  intros w. destruct (batch_append_is_one_by_one l w 2 env) as (a & e' & Ha & Hb).
  - apply SmallHeap.env_ok.
  - apply l_ready.
  - unfold word32. lia.
  - done.
  - repeat (apply Forall_cons; split; [split; [by eexists|unfold word32; cbn; lia]|]). constructor.
  - apply (bool_decide_unpack _). by vm_compute.
  - intros x Hx. apply (bool_decide_unpack _). vm_compute in Hx.
    repeat (apply elem_of_cons in Hx as [->|Hx]; [by vm_compute|]). by apply not_elem_of_nil in Hx.
  - exists e'. rewrite Hb. do 3 f_equal. apply (f_equal (fun o => match o with Ok (a, _) => a | Err _ => a end)) in Ha.
    rewrite <- Ha. by vm_compute.
Defined.
End ArrayWitness.
