(* ===== verification/Caracal.v ===== *)
(** * Caracal: the protocol of [protocols/caracal/include/caracal.hpp]

    The object's fields are a record; its methods are programs over the
    environment, one action per access to a shared atomic variable and one per
    stretch that only touches what the worker owns (its per-core buffer, or the
    version array while it holds the latch).  The index, the time-stamp counter
    and the iteration order of [std::unordered_map] are parameters. *)
From S2P Require Import Prelude Bitmap Schema Ycsb Conc RWLock Memory CaracalRow.

Local Abbreviation TableID := Z.
Local Abbreviation Key := Z.

(** [buffers_[core]] of a row buffer: the buffer's index and the core. *)
Abbreviation core_buffer := (nat * Z)%type.

(** [class Caracal]: the fields the methods use. *)
Record Caracal := mkCaracal {
  core_ : Z;
  serial_id_ : Z;
  epoch_ : Z;
  ws : gmap TableID (list Key);                             (* write set *)
  tables : gset TableID;
  spare_buffer_ : option nat;
  appended_core_buffers_ : list (addr * core_buffer)        (* in iteration order *)
}.

Section Methods.
Context `{BuildConfig}.
Context (find : TableID -> Key -> option addr).   (* [Index::get_index().find] *)
Context (rdtscp : CEnv -> Z).                     (* the time-stamp counter *)
Context (schema : Schema).                        (* [Schema::get_schema()] *)
Context (rehash : list (addr * core_buffer) -> list (addr * core_buffer)).
Context (me : nat).                               (* the worker, for the ghost fields *)

Abbreviation CProg := (prog CEnv).

Definition set_ws (s : Caracal) (w : gmap TableID (list Key)) : Caracal :=
  mkCaracal (core_ s) (serial_id_ s) (epoch_ s) w (tables s) (spare_buffer_ s) (appended_core_buffers_ s).
Definition set_tables (s : Caracal) (ts : gset TableID) : Caracal :=
  mkCaracal (core_ s) (serial_id_ s) (epoch_ s) (ws s) ts (spare_buffer_ s) (appended_core_buffers_ s).
Definition set_spare_buffer (s : Caracal) (b : option nat) : Caracal :=
  mkCaracal (core_ s) (serial_id_ s) (epoch_ s) (ws s) (tables s) b (appended_core_buffers_ s).
Definition set_appended (s : Caracal) (m : list (addr * core_buffer)) : Caracal :=
  mkCaracal (core_ s) (serial_id_ s) (epoch_ s) (ws s) (tables s) (spare_buffer_ s) m.
Definition set_serial_id (s : Caracal) (serial : Z) : Caracal :=
  mkCaracal (core_ s) serial (epoch_ s) (ws s) (tables s) (spare_buffer_ s) (appended_core_buffers_ s).

(** [ws.get_table(table_id)]: creates the entry. *)
Definition get_table (s : Caracal) (table_id : TableID) : list Key := default [] (ws s !! table_id).
Definition set_table (s : Caracal) (table_id : TableID) (l : list Key) : Caracal :=
  set_ws s (<[table_id := l]> (ws s)).

Definition terminate_transaction (s : Caracal) : Caracal :=
  set_tables (set_ws s (set_fold (fun table_id w => <[table_id := []]> w) (ws s) (tables s))) ∅.

(** [appended_core_buffers_.insert({val, buffer})]: keeps an entry that exists;
    a new one may change the order of iteration. *)
Definition insert_core_buffer (s : Caracal) (val : addr) (b : core_buffer) : Caracal :=
  if decide (val ∈ (appended_core_buffers_ s).*1) then s
  else set_appended s (rehash ((val, b) :: appended_core_buffers_ s)).

(** ** Rows and buffers as shared objects *)
Definition array_lock (val : addr) : LockAt CEnv :=
  mkLockAt (fun e => rwl <$> rows e !! val)
    (fun l e => set_rows (alter (fun v => mkValue l (global_array_ v) (row_buffer_ v)) val) e).

Definition load_row_buffer (val : addr) : CProg (option nat) :=
  act (v ← load_row val; mret (row_buffer_ v)).
Definition load_core_buffer (b : core_buffer) : M CEnv PerCoreBuffer.t :=
  e ← getM; r ← derefM (pool e !! b.1); lift (vector_at (RowBuffer.buffers_ r) b.2).
Definition store_core_buffer (b : core_buffer) (buffer : PerCoreBuffer.t) : M CEnv unit :=
  modifyM (set_pool (alter (fun r => RowBuffer.mk (<[Z.to_nat b.2 := buffer]> (RowBuffer.buffers_ r))) b.1)).
Definition now : M CEnv Z := readM rdtscp.
Definition add_wait (t : MeasureType) (start : Z) : M CEnv unit :=
  t1 ← now; stat_add t (u64 (t1 - start)).

(** [val->global_array_.batch_append(buffer, epoch_, stat_)]. *)
Definition batch_append_row (s : Caracal) (val : addr) (b : core_buffer) : M CEnv unit :=
  v ← load_row val;
  buffer ← load_core_buffer b;
  '(g, buffer') ← GlobalVersionArray.batch_append (global_array_ v) buffer (epoch_ s);
  store_row val (mkValue (rwl v) g (row_buffer_ v));;
  store_core_buffer b buffer'.

(** ** Initialisation phase *)
Definition create_pending_version : M CEnv addr :=
  version ← new_version (mkVersion None PENDING false);
  stat_increment Create;;
  mret version.

Definition try_install_new_buffer (val : addr) (cur_buffer : option nat) (new_buffer : nat) : CProg bool :=
  act (assertM (bool_decide (cur_buffer = None)));;
  act (v ← load_row val;
       if decide (row_buffer_ v = cur_buffer) then
         store_row val (mkValue (rwl v) (global_array_ v) (Some new_buffer));; mret true
       else mret false).

Definition append_to_uncontended_row (s : Caracal) (val : addr) : CProg ptr :=
  pending ← act (
    pending ← create_pending_version;
    v ← load_row val;
    g ← GlobalVersionArray.append_with_gc (global_array_ v) (epoch_ s) (serial_id_ s) (Some pending);
    assertM (GlobalVersionArray.is_exist g (epoch_ s) (serial_id_ s));;
    store_row val (mkValue (rwl v) g (row_buffer_ v));;
    mret pending);
  unlock (array_lock val);;
  mret (Some pending).

Definition may_be_contented (row_buffer : option nat) : bool := bool_decide (is_Some row_buffer).

Definition append_to_contented_row (s : Caracal) (val : addr) (b : core_buffer)
  : CProg (ptr * Caracal) :=
  '(pending, not_full) ← act (
    pending ← create_pending_version;
    buffer ← load_core_buffer b;
    '(not_full, buffer') ← lift (PerCoreBuffer.appendable buffer (Some pending) (epoch_ s) (serial_id_ s));
    store_core_buffer b buffer';;
    mret (pending, not_full));
  if not_full : bool then mret (Some pending, insert_core_buffer s val b)
  else
    start ← act now;
    lock (array_lock val) me;;
    act (add_wait WaitInInitialization start);;
    act (batch_append_row s val b);;
    unlock (array_lock val);;
    mret (Some pending, s).

Definition do_append_pending_version (s : Caracal) (val : addr) (pending : ptr)
  : CProg (ptr * Caracal) :=
  act (assertM (negb (nonnull pending)));;
  cur_buffer ← load_row_buffer val;
  match cur_buffer with
  | Some b => append_to_contented_row s val (b, core_ s)
  | None =>
      locked ← try_lock (array_lock val) me;
      if locked : bool then
        pending ← append_to_uncontended_row s val;
        mret (pending, s)
      else
        '(new_buffer, s1) ← (match spare_buffer_ s with
                             | Some b => mret (b, set_spare_buffer s None)
                             | None => b ← RowBufferController.fetch_new_buffer me; mret (b, s)
                             end);
        installed ← try_install_new_buffer val cur_buffer new_buffer;
        if installed : bool then append_to_contented_row s1 val (new_buffer, core_ s1)
        else
          other_buffer ← load_row_buffer val;
          other ← act (derefM other_buffer);
          append_to_contented_row (set_spare_buffer s1 (Some new_buffer)) val (other, core_ s1)
  end.

Definition append_pending_version (s : Caracal) (table_id : TableID) (key : Key) (pending : ptr)
  : CProg (ptr * Caracal) :=
  act (assertM (0 <? epoch_ s));;
  let s := set_tables s ({[table_id]} ∪ tables s) in
  let w_table := get_table s table_id in
  if decide (key ∈ w_table) then act (failM (RuntimeError "error"))
  else
    match find table_id key with
    | None => act (assertM false;; failM (RuntimeError "masstree NOT_FOUND"))
    | Some val =>
        '(pending, s') ← do_append_pending_version s val pending;
        act (assertM (nonnull pending));;
        mret (pending, set_table s' table_id (get_table s' table_id ++ [key]))
    end.

(** Merges every buffer left at the end of the phase.  The iterator is a
    position in [appended_core_buffers_]: a row whose latch is taken is passed
    over, an erased entry leaves the iterator on its successor. *)
Definition finalize_step (s : Caracal) (c : list (addr * core_buffer) * nat)
  : CProg (list (addr * core_buffer) * nat + list (addr * core_buffer)) :=
  let '(m, itr) := c in
  match m !! itr with
  | None => mret (inr m)
  | Some (val, buffer) =>
      start ← act now;
      locked ← try_lock (array_lock val) me;
      if locked : bool then
        act (batch_append_row s val buffer);;
        unlock (array_lock val);;
        mret (inl (take itr m ++ drop (S itr) m, itr))
      else
        act (add_wait WaitInInitialization start);;
        mret (inl (m, S itr))
  end.

Definition finalize_batch_append_optimized (s : Caracal) : CProg Caracal :=
  m ← iter (appended_core_buffers_ s) (fun m =>
        match m with
        | [] => mret (inr m)
        | _ => m' ← iter (m, 0%nat) (finalize_step s); mret (inl m')
        end);
  mret (set_appended s m).

Fixpoint finalize_in_order (s : Caracal) (m : list (addr * core_buffer)) : CProg unit :=
  match m with
  | [] => mret tt
  | (val, buffer) :: m' =>
      lock (array_lock val) me;;
      act (batch_append_row s val buffer);;
      unlock (array_lock val);;
      finalize_in_order s m'
  end.
Definition finalize_batch_append_non_optimized (s : Caracal) : CProg Caracal :=
  finalize_in_order s (appended_core_buffers_ s);; mret (set_appended s []).

(** ** Execution phase *)
Definition execute_read (visible : ptr) : M CEnv ptr :=
  assertM (nonnull visible);; v ← load_version visible; mret (rec v).

Definition wait_stable_and_execute_read (visible : ptr) : CProg ptr :=
  act (assertM (nonnull visible));;
  start ← act now;
  loop (v ← act (load_version visible);
        mret (if decide (status v = PENDING) then None else Some tt));;
  act (add_wait WaitInExecution start;; execute_read visible).

Definition read (s : Caracal) (table_id : TableID) (key : Key) : CProg ptr :=
  match find table_id key with
  | None => act (assertM false;; failM (RuntimeError "masstree NOT_FOUND"))
  | Some val =>
      visible ← act (
        v ← load_row val;
        '(_, visible) ← lift (GlobalVersionArray.search_visible_version (global_array_ v)
                                (epoch_ s) (serial_id_ s));
        assertM (nonnull visible);;
        mret visible);
      wait_stable_and_execute_read visible
  end.

(** [upsert]: allocate the record and store it, then store the status. *)
Definition upsert (s : Caracal) (table_id : TableID) (pending : ptr) : CProg ptr :=
  record_size ← act (lift (get_record_size schema table_id));
  rec ← act (rec ← new_record;
             v ← load_version pending; store_version pending (mkVersion (Some rec) (status v) (deleted v));;
             mret rec);
  act (v ← load_version pending; store_version pending (mkVersion (Memory.rec v) STABLE (deleted v)));;
  mret (Some rec).

Definition write (s : Caracal) (table_id : TableID) (pending : ptr) : CProg ptr :=
  upsert s table_id pending.

(** ** The phases of [executables/ycsb_caracal.cpp] *)
Context (table : TableID).                        (* [get_id<Record>()] *)

(** [txs[i]]: undefined out of range. *)
Definition tx_at (txs : list OperationSet) (i : Z) : CProg OperationSet :=
  act (lift (vector_at txs i)).

(** The pending versions of one transaction; the operations get them in [pending_]. *)
Fixpoint append_all (s : Caracal) (ops : list Operation) (ws : list nat)
  : CProg (list Operation * Caracal) :=
  match ws with
  | [] => mret (ops, s)
  | j :: ws' =>
      op ← act (derefM (ops !! j));
      '(p, s') ← append_pending_version s table (index_ op) (pending_ op);
      append_all s' (<[j := mkOperation (ope_ op) (index_ op) (value_ op) p]> ops) ws'
  end.

(** Round-robin assignment: worker [w] appends for the transactions [w], [64 + w], ... *)
Fixpoint initialize_txs (worker_id head_in_the_epoch i : Z) (n : nat) (s : Caracal)
    (txs : list OperationSet) : CProg (list OperationSet * Caracal) :=
  match n with
  | O => mret ([], s)
  | S n' =>
      tx ← tx_at txs (head_in_the_epoch + i * 64 + worker_id);
      '(ops, s1) ← append_all (set_serial_id s (i * 64 + worker_id)) (rw_set_ tx) (w_set_ tx);
      '(done, s2) ← initialize_txs worker_id head_in_the_epoch (i + 1) n'
                      (terminate_transaction s1) txs;
      mret (mkOperationSet ops (w_set_ tx) :: done, s2)
  end.

Definition do_initialization_phase (worker_id head_in_the_epoch : Z) (s : Caracal)
    (txs : list OperationSet) : CProg (list OperationSet * Caracal) :=
  '(done, s1) ← initialize_txs worker_id head_in_the_epoch 0
                  (Z.to_nat NUM_TXS_IN_ONE_EPOCH_IN_ONE_CORE) s txs;
  s2 ← finalize_batch_append_optimized s1;
  mret (done, s2).

(** One transaction of the execution phase: the records read, in order. *)
Fixpoint execute_ops (s : Caracal) (ops : list Operation) : CProg (list ptr) :=
  match ops with
  | [] => mret []
  | op :: ops' =>
      r ← (match ope_ op with
           | Read => rec ← read s table (index_ op); mret [rec]
           | Update =>
               if nonnull (pending_ op) then _ ← write s table (pending_ op); mret []
               else mret []
           end);
      rs ← execute_ops s ops';
      mret (r ++ rs)
  end.

Fixpoint execute_txs (worker_id head_in_the_epoch i : Z) (n : nat) (s : Caracal)
    (txs : list OperationSet) : CProg (list (list ptr)) :=
  match n with
  | O => mret []
  | S n' =>
      act (assertM (i <? Z.of_nat (length txs)));;
      let s1 := set_serial_id s (i * 64 + worker_id) in
      tx ← tx_at txs (head_in_the_epoch + serial_id_ s1);
      r ← execute_ops s1 (rw_set_ tx);
      rs ← execute_txs worker_id head_in_the_epoch (i + 1) n' s1 txs;
      mret (r :: rs)
  end.
Definition do_execution_phase (worker_id head_in_the_epoch : Z) (s : Caracal)
    (txs : list OperationSet) : CProg (list (list ptr)) :=
  execute_txs worker_id head_in_the_epoch 0 (Z.to_nat NUM_TXS_IN_ONE_EPOCH_IN_ONE_CORE) s txs.

End Methods.
