(* ===== verification/CaracalInit.v ===== *)
(** * CaracalInit: the initialisation phase of Caracal under every interleaving

    The workers of an epoch run [do_initialization_phase] of [Caracal]
    concurrently.  A row is a version array behind a latch; once it is
    contended, each worker puts its versions into its own buffer of the row and
    merges them into the array in batches.  [Inv] describes rows, buffers and
    the version heap at every action, [kept] what a worker can rely on while
    the others run, [local] what it knows itself. *)
From S2P Require Import Prelude Bitmap Schema Ycsb Conc RWLock Memory Txs CaracalRow Caracal.

(** ** What a row holds *)
Section Rows.
Context `{BuildConfig}.
Implicit Types (e : CEnv) (v : Value).

Definition slots v : list (Z * ptr) := GlobalVersionArray.ids_slots_ (global_array_ v).
Definition buffer_of e v : option RowBuffer.t := row_buffer_ v ≫= (fun g => pool e !! g).
(** The slots in core [c]'s buffer of the row. *)
Definition own_buffer (c : nat) e v : list (Z * ptr) :=
  match buffer_of e v with
  | Some r => from_option PerCoreBuffer.ids_slots_ [] (RowBuffer.buffers_ r !! c)
  | None => []
  end.
Definition buffer_ptrs e v : list ptr :=
  from_option (fun r => concat ((fun b => (PerCoreBuffer.ids_slots_ b).*2) <$> RowBuffer.buffers_ r)) [] (buffer_of e v).
(** Every version the row owns. *)
Definition row_ptrs e v : list ptr := (slots v).*2 ++ buffer_ptrs e v.

(** A row is unaffected by what happens to other versions and buffers. *)
Definition row_frame e e' v : Prop :=
  (forall g, row_buffer_ v = Some g -> pool e' !! g = pool e !! g) /\
  (forall q, Some q ∈ row_ptrs e v -> versions e' !! q = versions e !! q).

Lemma buffer_of_frame e e' v : row_frame e e' v -> buffer_of e' v = buffer_of e v.
Proof. intros [Hp _]. unfold buffer_of. destruct (row_buffer_ v) as [g|]; [|done]. simpl. by apply Hp. Qed.
Lemma own_buffer_frame c e e' v : row_frame e e' v -> own_buffer c e' v = own_buffer c e v.
Proof. intros Hf. unfold own_buffer. by rewrite (buffer_of_frame e e' v Hf). Qed.
Lemma row_ptrs_frame_c e e' v : row_frame e e' v -> row_ptrs e' v = row_ptrs e v.
Proof. intros Hf. unfold row_ptrs, buffer_ptrs. by rewrite (buffer_of_frame e e' v Hf). Qed.

Lemma elem_of_buffer_ptrs e v p :
  p ∈ buffer_ptrs e v <-> exists c, p ∈ (own_buffer c e v).*2.
Proof.
  unfold buffer_ptrs, own_buffer. destruct (buffer_of e v) as [r|]; simpl.
  - rewrite elem_of_concat_fmap. split.
    + intros (b & [c Hc]%list_elem_of_lookup & Hp). exists c. by rewrite Hc.
    + intros [c Hp]. destruct (RowBuffer.buffers_ r !! c) as [b|] eqn:Hb; [|by apply not_elem_of_nil in Hp].
      exists b. split; [by eapply list_elem_of_lookup_2|done].
  - split; [by intros ?%not_elem_of_nil|]. by intros [c ?%not_elem_of_nil].
Qed.
Lemma elem_of_row_ptrs e v p :
  p ∈ row_ptrs e v <-> p ∈ (slots v).*2 \/ exists c, p ∈ (own_buffer c e v).*2.
Proof. unfold row_ptrs. by rewrite elem_of_app, elem_of_buffer_ptrs. Qed.

(** Replacing the contents of one core's buffer. *)
Lemma buffer_store e e' v v' g r c b l :
  row_buffer_ v = Some g -> row_buffer_ v' = Some g -> pool e !! g = Some r -> RowBuffer.buffers_ r !! c = Some b ->
  pool e' !! g = Some (RowBuffer.mk (<[c := PerCoreBuffer.mk l]> (RowBuffer.buffers_ r))) ->
  (forall d, own_buffer d e' v' = if decide (d = c) then l else own_buffer d e v) /\
  exists rest, buffer_ptrs e v ≡ₚ (PerCoreBuffer.ids_slots_ b).*2 ++ rest /\ buffer_ptrs e' v' ≡ₚ l.*2 ++ rest.
Proof.
  intros Hg Hg' Hr Hb Hr'. unfold own_buffer, buffer_ptrs, buffer_of. rewrite Hg, Hg'. simpl. rewrite Hr, Hr'. simpl. split.
  - intros d. destruct (decide (d = c)) as [->|Hne].
    + by rewrite list_lookup_insert_eq by (by eapply lookup_lt_Some).
    + by rewrite list_lookup_insert_ne.
  - destruct (concat_insert_perm (fun b => (PerCoreBuffer.ids_slots_ b).*2) _ c b Hb) as (rest & H1 & H2).
    exists rest. split; [done|by apply (H2 (PerCoreBuffer.mk l))].
Qed.

End Rows.

(** ** The invariant *)
Section Invariant.
Context `{BuildConfig}.
Context (E : Z) (W : gset addr) (f0 : addr -> ptr).
Implicit Types (e : CEnv) (v w : Value) (L : addr -> list (Z * ptr)).
Local Abbreviation gid := (convert_to_serial_id_with_epoch E).
Local Abbreviation start := (epoch_start_id E).

(** A slot of the current epoch: its version is pending. *)
Definition new_slot e (p : Z * ptr) : Prop :=
  exists s, 0 <= s < 4096 /\ p.1 = gid s /\ pending_ptr e p.2.
(** A slot of an earlier epoch: its version is stable. *)
Definition old_slot e (p : Z * ptr) : Prop := 0 <= p.1 /\ collectable_ptr e p.2.
(** The slots of core [c] in the version array. *)
Definition own_array (c : nat) v : list (Z * ptr) :=
  filter (fun p => start <= p.1 /\ p.1 mod 64 = Z.of_nat c) (slots v).

Record buffers_ok e (r : RowBuffer.t) : Prop := {
  bo_length : length (RowBuffer.buffers_ r) = 64%nat;
  bo_slots : forall c b, RowBuffer.buffers_ r !! c = Some b ->
    ascending (PerCoreBuffer.ids_slots_ b) /\
    Z.of_nat (length (PerCoreBuffer.ids_slots_ b)) <= MAX_SLOTS_OF_PER_CORE_BUFFER /\
    Forall (fun p => new_slot e p /\ p.1 mod 64 = Z.of_nat c) (PerCoreBuffer.ids_slots_ b)
}.

Record row_inv e (a : addr) v : Prop := {
  ri_lock : lock_ok 64 (rwl v);
  ri_sorted : ascending (slots v);
  ri_final : exists s, visible_before start (slots v) = Some (s, f0 a);
  ri_slots : Forall (fun p => if decide (start <= p.1) then new_slot e p else old_slot e p) (slots v);
  ri_buffer : forall g, row_buffer_ v = Some g ->
    a ∈ W /\ (g < length (handed_ e))%nat /\ exists r, pool e !! g = Some r /\ buffers_ok e r;
  ri_nodup : NoDup (row_ptrs e v)
}.

(** Buffers that no row has. *)
Definition uninstalled e (g : nat) : Prop := forall a v, rows e !! a = Some v -> row_buffer_ v <> Some g.

Record Inv e : Prop := {
  inv_heap : heap_ok e;
  inv_lock : lock_ok 64 (lock_ e);
  inv_used : used_ e = Z.of_nat (length (handed_ e));
  inv_room : used_ e <= NUM_REGIONS;
  inv_pool_length : length (pool e) = Z.to_nat NUM_REGIONS;
  inv_row : forall a v, rows e !! a = Some v -> row_inv e a v;
  inv_disjoint : forall a b v w p, a <> b -> rows e !! a = Some v -> rows e !! b = Some w ->
    p ∈ row_ptrs e v -> p ∉ row_ptrs e w;
  inv_inj : forall a b v w g, rows e !! a = Some v -> rows e !! b = Some w ->
    row_buffer_ v = Some g -> row_buffer_ w = Some g -> a = b;
  inv_free : forall g r, pool e !! g = Some r -> uninstalled e g -> r = RowBuffer.init;
  inv_spare : forall g t, handed_ e !! g = Some t -> uninstalled e g ->
    exists c, (c < 64)%nat /\ t = RowBufferController.fetcher c;
  inv_one_spare : forall g1 g2 t, handed_ e !! g1 = Some t -> handed_ e !! g2 = Some t ->
    uninstalled e g1 -> uninstalled e g2 -> g1 = g2
}.

(** Buffer [g] was fetched by [c] and is not installed. *)
Definition spare_of (c : nat) e (g : nat) : Prop :=
  handed_ e !! g = Some (RowBufferController.fetcher c) /\ uninstalled e g.

(** ** What the others leave alone *)
Record row_kept (c : nat) e e' v v' : Prop := {
  rk_holder : holder (rwl v') = Some c <-> holder (rwl v) = Some c;
  rk_held : holder (rwl v) = Some c -> global_array_ v' = global_array_ v;
  rk_buffer : forall g, row_buffer_ v = Some g -> row_buffer_ v' = Some g;
  rk_own_array : own_array c v' = own_array c v;
  rk_own_buffer : own_buffer c e' v' = own_buffer c e v
}.
Record kept (c : nat) e e' : Prop := {
  k_rows : forall a v, rows e !! a = Some v ->
             exists v', rows e' !! a = Some v' /\ row_kept c e e' v v';
  k_dom : forall a, rows e !! a = None -> rows e' !! a = None;
  k_lock : holder (lock_ e') = Some c <-> holder (lock_ e) = Some c;
  k_used : holder (lock_ e) = Some c -> used_ e' = used_ e /\ handed_ e' = handed_ e;
  k_spare : forall g, spare_of c e' g <-> spare_of c e g
}.
Definition R (c : nat) e e' : Prop := Inv e -> Inv e' /\ kept c e e'.
Definition G (c : nat) e e' : Prop := Inv e -> Inv e' /\ forall d, c <> d -> kept d e e'.

Lemma kept_refl_c c e : kept c e e.
Proof. constructor; try done. intros a v Hv. exists v. split; [done|]. by constructor. Qed.
Lemma R_refl_c c e : R c e e.
Proof. intros Hi. split; [done|apply kept_refl_c]. Qed.
Lemma G_refl_c c e : G c e e.
Proof. intros Hi. split; [done|]. intros d _. apply kept_refl_c. Qed.
Lemma R_trans_c c e1 e2 e3 : R c e1 e2 -> R c e2 e3 -> R c e1 e3.
Proof.
  intros H12 H23 H1. destruct (H12 H1) as [H2 [A1 A2 A3 A4 A5]].
  destruct (H23 H2) as [H3 [B1 B2 B3 B4 B5]]. split; [done|]. constructor.
  - intros a v Hv. destruct (A1 a v Hv) as (v2 & Hv2 & [C1 C2 C3 C4 C5]).
    destruct (B1 a v2 Hv2) as (v3 & Hv3 & [D1 D2 D3 D4 D5]). exists v3. split; [done|].
    constructor; [by rewrite D1| |auto|congruence|congruence].
    intros Hh. rewrite D2; [by apply C2|by apply C1].
  - auto.
  - by rewrite B3.
  - intros Hh. destruct (A4 Hh) as [? ?]. destruct B4 as [? ?]; [by apply A3|]. split; congruence.
  - intros g. by rewrite B5.
Qed.
Lemma G_R_c c d e e' : c <> d -> G c e e' -> R d e e'.
Proof. intros Hne HG Hi. destruct (HG Hi) as [? Hk]. split; [done|]. by apply Hk. Qed.

(** ** What worker [c] knows

    [L] are its writes; [held] the row it has latched, [rrc] whether it holds
    the controller's latch, [spare] its uninstalled buffer, [full] the row
    whose buffer may be full, [dirty] the rows whose buffer may be nonempty. *)
Record Work := mkWork {
  held : option addr; rrc : bool; spare : option nat; full : option addr; dirty : gset addr
}.
Definition own_writes (l : list (Z * ptr)) : Prop :=
  Forall (fun q => 0 <= q.1 < 4096) l /\ ascending (buffered E l).
Record knows_row (c : nat) (wk : Work) (l : list (Z * ptr)) e (a : addr) v : Prop := {
  kr_held : holder (rwl v) = Some c <-> held wk = Some a;
  kr_own : own_array c v ++ own_buffer c e v = buffered E l;
  kr_dirty : own_buffer c e v <> [] -> a ∈ dirty wk;
  kr_full : full wk = Some a \/ Z.of_nat (length (own_buffer c e v)) < MAX_SLOTS_OF_PER_CORE_BUFFER;
  kr_writes : own_writes l
}.
Record local (c : nat) L (wk : Work) e : Prop := {
  lo_inv : Inv e;
  lo_core : (c < 64)%nat;
  lo_rrc : holder (lock_ e) = Some c <-> rrc wk = true;
  lo_spare : forall g, spare_of c e g <-> spare wk = Some g;
  lo_row : forall a v, rows e !! a = Some v -> knows_row c wk (L a) e a v
}.

Lemma local_kept c L wk e e' : local c L wk e -> Inv e' -> kept c e e' -> local c L wk e'.
Proof.
  intros [L1 L2 L3 L4 L5] Hi' [K1 K2 K3 K4 K5]. constructor; [done|done|by rewrite K3|intros g; by rewrite K5|].
  intros a v' Hv'. destruct (rows e !! a) as [v|] eqn:Hv.
  - destruct (K1 a v Hv) as (v2 & Hv2 & [C1 C2 C3 C4 C5]). assert (v2 = v') as -> by congruence.
    destruct (L5 a v Hv) as [M1 M2 M3 M4 M5]. constructor; [by rewrite C1|by rewrite C4, C5|by rewrite C5|by rewrite C5|done].
  - apply K2 in Hv. congruence.
Qed.
Lemma local_stable_c c L wk : stable (R c) (local c L wk).
Proof.
  intros e e' Hl HR. destruct (HR (lo_inv _ _ _ _ Hl)) as [Hi' Hk]. by eapply local_kept.
Qed.

(** A worker may forget that a buffer is empty. *)
Lemma local_dirty c L wk (D : gset addr) e :
  local c L wk e -> dirty wk ⊆ D -> local c L (mkWork (held wk) (rrc wk) (spare wk) (full wk) D) e.
Proof.
  intros [L1 L2 L3 L4 L5] HD. constructor; try done. intros a v Hv. destruct (L5 a v Hv) as [M1 M2 M3 M4 M5].
  constructor; try done. set_solver.
Qed.

(** ** Preservation: a change to one row *)
Lemma new_slot_frame e e' p :
  (forall q, p.2 = Some q -> versions e' !! q = versions e !! q) -> new_slot e p -> new_slot e' p.
Proof. intros Hq (s & ? & ? & Hp). exists s. split_and!; [lia|lia|done|]. by apply (pending_ptr_frame e). Qed.

Lemma own_slot_new e a v c p :
  row_inv e a v -> p ∈ own_buffer c e v -> new_slot e p /\ p.1 mod 64 = Z.of_nat c /\ is_Some (row_buffer_ v).
Proof.
  intros Hri Hp. unfold own_buffer, buffer_of in Hp. destruct (row_buffer_ v) as [g|] eqn:Hg; [|by apply not_elem_of_nil in Hp].
  destruct (ri_buffer _ _ _ Hri g Hg) as (_ & _ & r & Hr & [_ Hb]). simpl in Hp. rewrite Hr in Hp.
  destruct (RowBuffer.buffers_ r !! c) as [b|] eqn:Hc; [|by apply not_elem_of_nil in Hp].
  destruct (Hb c b Hc) as (_ & _ & Hall). rewrite Forall_forall in Hall. destruct (Hall p Hp). split_and!; [done|done|by exists g].
Qed.

Lemma row_live e a v p : row_inv e a v -> p ∈ row_ptrs e v -> live_ptr e p.
Proof.
  intros Hri [Hp|[c Hp]]%elem_of_row_ptrs; apply list_elem_of_fmap in Hp as (q & -> & Hq).
  - pose proof (ri_slots _ _ _ Hri) as Hs. rewrite Forall_forall in Hs. specialize (Hs q Hq).
    case_decide; [|by destruct Hs; apply collectable_live]. destruct Hs as (s & _ & _ & Hs). by apply pending_ptr_live.
  - destruct (own_slot_new e a v c q Hri Hq) as [(s & _ & _ & Hs) _]. by apply pending_ptr_live.
Qed.

Lemma buffers_ok_frame e e' r :
  (forall b p q, b ∈ RowBuffer.buffers_ r -> p ∈ PerCoreBuffer.ids_slots_ b -> p.2 = Some q -> versions e' !! q = versions e !! q) ->
  buffers_ok e r -> buffers_ok e' r.
Proof.
  intros Hv [Hl Hs]. constructor; [done|]. intros c b Hc. destruct (Hs c b Hc) as (? & ? & Hall). split_and!; [done|done|].
  apply Forall_forall. intros p Hp. rewrite Forall_forall in Hall. destruct (Hall p Hp) as [Hn Hm]. split; [|done].
  apply (new_slot_frame e); [|done]. intros q. apply (Hv b); [by eapply list_elem_of_lookup_2|done].
Qed.

Lemma row_inv_frame_c e e' a v :
  row_inv e a v -> row_frame e e' v -> (exists more, handed_ e' = handed_ e ++ more) -> row_inv e' a v.
Proof.
  intros [R1 R2 R3 R4 R5 R6] Hf [more Hh]. pose proof Hf as [Hp Hv]. constructor; [done..| | |by rewrite (row_ptrs_frame_c e e')].
  - apply Forall_forall. intros p Hin. rewrite Forall_forall in R4. specialize (R4 p Hin).
    assert (Hq : forall q, p.2 = Some q -> versions e' !! q = versions e !! q).
    { intros q Hq. apply Hv, elem_of_row_ptrs. left. rewrite <- Hq. by apply list_elem_of_fmap_2. }
    case_decide; [by apply (new_slot_frame e)|]. destruct R4. split; [done|by apply (collectable_ptr_frame e)].
  - intros g Hg. destruct (R5 g Hg) as (? & ? & r & Hr & Hb). split; [done|]. rewrite Hh, length_app. split; [lia|].
    exists r. rewrite Hp by done. split; [done|]. apply (buffers_ok_frame e); [|done].
    intros b p q [c Hc]%list_elem_of_lookup Hin Hq. apply Hv, elem_of_row_ptrs. right. exists c.
    unfold own_buffer, buffer_of. rewrite Hg. simpl. rewrite Hr, Hc. simpl. rewrite <- Hq. by apply list_elem_of_fmap_2.
Qed.

(** The pool changes only at the row's buffer; versions only those of the row, and fresh ones. *)
Definition row_change (e e' : CEnv) v v' : Prop :=
  (forall g, row_buffer_ v' <> Some g -> pool e' !! g = pool e !! g) /\
  (forall q, versions e' !! q <> versions e !! q -> Some q ∈ row_ptrs e v \/ versions e !! q = None) /\
  (forall p, p ∈ row_ptrs e' v' -> p ∈ row_ptrs e v \/ exists q, p = Some q /\ versions e !! q = None).

Lemma other_row_frame_c e e' a b v v' w :
  Inv e -> a <> b -> rows e !! a = Some v -> rows e !! b = Some w -> row_change e e' v v' ->
  (forall g, row_buffer_ v' = Some g -> row_buffer_ v = Some g \/ uninstalled e g) ->
  row_frame e e' w.
Proof.
  intros Hi Hne Hv Hw (Hpool & Hvers & _) Hbuf. split.
  - intros g Hg. apply Hpool. intros Hg'. destruct (Hbuf g Hg') as [Hg2|Hu]; [|by apply (Hu b w)].
    by apply Hne, (inv_inj _ Hi a b v w g).
  - intros q Hq. destruct (decide (versions e' !! q = versions e !! q)) as [|Hd]; [done|exfalso].
    destruct (Hvers q Hd) as [Hin|Hnone].
    + by apply (inv_disjoint _ Hi a b v w (Some q) Hne Hv Hw).
    + destruct (row_live e b w (Some q)) as [x Hx]; [by apply (inv_row _ Hi)|done|]. congruence.
Qed.

Lemma inv_step_c e e' a v v' :
  Inv e -> rows e !! a = Some v -> rows e' = <[a := v']> (rows e) ->
  heap_ok e' -> same_control e e' -> length (pool e') = length (pool e) -> row_change e e' v v' ->
  (forall g, row_buffer_ v = Some g -> row_buffer_ v' = Some g) ->
  (forall g, row_buffer_ v' = Some g -> row_buffer_ v = Some g \/ uninstalled e g) ->
  row_inv e' a v' ->
  Inv e' /\ forall b w, a <> b -> rows e !! b = Some w -> row_frame e e' w.
Proof.
  intros Hi Hv Hrows Hheap (Hu & Hl & Hh) Hlen Hch Hkeep Hbuf Hrow.
  assert (Hfr : forall b w, a <> b -> rows e !! b = Some w -> row_frame e e' w).
  { intros b w Hne Hw. by apply (other_row_frame_c e e' a b v v' w). }
  assert (Hun : forall g, uninstalled e' g -> uninstalled e g /\ pool e' !! g = pool e !! g).
  { intros g Hg. assert (row_buffer_ v' <> Some g) as Hne.
    { apply (Hg a). rewrite Hrows. apply lookup_insert_eq. }
    split; [|by apply Hch]. intros b w Hw Hgw. destruct (decide (b = a)) as [->|Hba].
    - assert (w = v) as -> by congruence. by apply Hne, Hkeep.
    - apply (Hg b w); [|done]. by rewrite Hrows, lookup_insert_ne. }
  split; [|done]. constructor; rewrite ?Hu, ?Hl, ?Hh, ?Hlen; try apply Hi; [done|..].
  - intros b w. rewrite Hrows. intros [[<- <-]|[Hne Hw]]%lookup_insert_Some; [done|].
    apply (row_inv_frame_c e e'); [by apply (inv_row _ Hi)|by apply (Hfr b)|]. exists []. by rewrite Hh, app_nil_r.
  - assert (Hcase : forall b w p, a <> b -> rows e !! b = Some w -> p ∈ row_ptrs e' v' -> p ∉ row_ptrs e w).
    { intros b w p Hne Hw Hp Hpw. destruct Hch as (_ & _ & Hptrs). destruct (Hptrs p Hp) as [Hin|(q & -> & Hq)].
      - by apply (inv_disjoint _ Hi a b v w p).
      - destruct (row_live e b w (Some q)) as [x Hx]; [by apply (inv_row _ Hi)|done|]. congruence. }
    intros b1 b2 w1 w2 p Hne. rewrite Hrows.
    intros [[<- <-]|[Hn1 H1]]%lookup_insert_Some [[<- <-]|[Hn2 H2]]%lookup_insert_Some Hp Hp'; try done.
    + rewrite (row_ptrs_frame_c e e' w2) in Hp' by (by apply (Hfr b2)). by apply (Hcase b2 w2 p).
    + rewrite (row_ptrs_frame_c e e' w1) in Hp by (by apply (Hfr b1)). by apply (Hcase b1 w1 p).
    + rewrite (row_ptrs_frame_c e e' w1) in Hp by (by apply (Hfr b1)).
      rewrite (row_ptrs_frame_c e e' w2) in Hp' by (by apply (Hfr b2)).
      by apply (inv_disjoint _ Hi b1 b2 w1 w2 p).
  - assert (Hcase : forall b w g, a <> b -> rows e !! b = Some w -> row_buffer_ v' = Some g -> row_buffer_ w <> Some g).
    { intros b w g Hne Hw Hg Hgw. destruct (Hbuf g Hg) as [Hg2|Hug]; [by apply Hne, (inv_inj _ Hi a b v w g)|by apply (Hug b w)]. }
    intros b1 b2 w1 w2 g. rewrite Hrows.
    intros [[<- <-]|[Hn1 H1]]%lookup_insert_Some [[<- <-]|[Hn2 H2]]%lookup_insert_Some Hg Hg'; try done.
    + by destruct (Hcase b2 w2 g).
    + by destruct (Hcase b1 w1 g).
    + by apply (inv_inj _ Hi b1 b2 w1 w2 g).
  - intros g r Hg [Hug Hpg]%Hun. apply (inv_free _ Hi g); [congruence|done].
  - intros g t Hg [Hug _]%Hun. by apply (inv_spare _ Hi g).
  - intros g1 g2 t H1 H2 [Hu1 _]%Hun [Hu2 _]%Hun. by apply (inv_one_spare _ Hi g1 g2 t).
Qed.

Lemma fetcher_inj c d : RowBufferController.fetcher c = RowBufferController.fetcher d -> c = d.
Proof. unfold RowBufferController.fetcher. lia. Qed.

(** The same step seen by the other workers and by its own. *)
Lemma step_row e e' a v v' c L wk L' wk' :
  local c L wk e -> rows e !! a = Some v -> rows e' = <[a := v']> (rows e) ->
  heap_ok e' -> same_control e e' -> length (pool e') = length (pool e) -> row_change e e' v v' ->
  (forall g, row_buffer_ v = Some g -> row_buffer_ v' = Some g) ->
  (row_buffer_ v' = row_buffer_ v /\ spare wk' = spare wk \/
   exists g, row_buffer_ v' = Some g /\ spare wk = Some g /\ spare wk' = None) ->
  row_inv e' a v' ->
  (forall d, c <> d -> (holder (rwl v') = Some d <-> holder (rwl v) = Some d) /\
     (holder (rwl v) = Some d -> global_array_ v' = global_array_ v) /\
     own_array d v' = own_array d v /\ own_buffer d e' v' = own_buffer d e v) ->
  knows_row c wk' (L' a) e' a v' -> rrc wk' = rrc wk ->
  (forall b, b <> a -> L' b = L b /\ (held wk' = Some b <-> held wk = Some b) /\
     (b ∈ dirty wk -> b ∈ dirty wk') /\ (full wk = Some b -> full wk' = Some b)) ->
  G c e e' /\ local c L' wk' e'.
Proof.
  intros [Hi Hc Hrrc Hsp Hloc] Hv Hrows Hheap Hctl Hlen Hch Hkeep Hbuf Hrow Hoth Hkr Hr' Hb.
  assert (Hbuf' : forall g, row_buffer_ v' = Some g -> row_buffer_ v = Some g \/ uninstalled e g).
  { intros g Hg. destruct Hbuf as [[Heq _]|(g' & Hg' & Hs & _)]; [left; congruence|right].
    assert (g' = g) as -> by congruence. by apply Hsp in Hs as [_ ?]. }
  destruct (inv_step_c e e' a v v') as [Hi' Hfr]; try done. pose proof Hctl as (Hu & Hl & Hhd).
  assert (Hun : forall g, row_buffer_ v' <> Some g \/ row_buffer_ v' = row_buffer_ v -> uninstalled e' g <-> uninstalled e g).
  { intros g Hg. split; intros Hug b w Hw Hgw.
    - destruct (decide (b = a)) as [->|Hba].
      + assert (w = v) as -> by congruence. apply (Hug a v'); [rewrite Hrows; apply lookup_insert_eq|auto].
      + apply (Hug b w); [|done]. by rewrite Hrows, lookup_insert_ne.
    - rewrite Hrows in Hw. apply lookup_insert_Some in Hw as [[<- <-]|[Hba Hw]]; [|by apply (Hug b w)].
      destruct Hg as [Hg|Hg]; [done|]. apply (Hug a v); [done|congruence]. }
  split.
  - intros _. split; [done|]. intros d Hd. constructor; rewrite ?Hu, ?Hl, ?Hhd; try done.
    + intros b w Hw. destruct (decide (a = b)) as [<-|Hne].
      * assert (w = v) as -> by congruence. exists v'. split; [rewrite Hrows; apply lookup_insert_eq|].
        destruct (Hoth d Hd) as (O1 & O2 & O3 & O4). by constructor.
      * exists w. split; [by rewrite Hrows, lookup_insert_ne by done|].
        constructor; try done. by apply own_buffer_frame, (Hfr b).
    + intros b Hn. rewrite Hrows. apply lookup_insert_None. split; [done|]. intros ->. congruence.
    + intros g. unfold spare_of. rewrite Hhd. destruct Hbuf as [[Heq _]|(g' & Hg' & Hs & _)].
      * rewrite (Hun g) by (by right). done.
      * destruct (decide (g = g')) as [->|Hne]; [|rewrite (Hun g); [done|left; congruence]].
        apply Hsp in Hs as [Hs _]. split; intros [Hs' _]; rewrite Hs in Hs'; injection Hs' as Heq; by apply fetcher_inj in Heq.
  - constructor; [done|done|by rewrite Hl, Hr'| |].
    + intros g. destruct Hbuf as [[Heq ->]|(g' & Hg' & Hs & ->)].
      * rewrite <- Hsp. unfold spare_of. rewrite Hhd, (Hun g) by (by right). done.
      * split; [|done]. intros [Hg1 Hg2]. exfalso. rewrite Hhd in Hg1.
        destruct (decide (g = g')) as [->|Hne].
        -- apply (Hg2 a v'); [rewrite Hrows; apply lookup_insert_eq|done].
        -- rewrite (Hun g) in Hg2 by (left; congruence).
           assert (spare wk = Some g) by (by apply Hsp). congruence.
    + intros b w. rewrite Hrows. intros [[<- <-]|[Hne Hw]]%lookup_insert_Some; [done|].
      destruct (Hb b) as (-> & Hh & Hd & Hf); [done|]. destruct (Hloc b w Hw) as [M1 M2 M3 M4 M5].
      pose proof (own_buffer_frame c e e' w (Hfr b w Hne Hw)) as Hob.
      constructor; [by rewrite Hh|by rewrite Hob|rewrite Hob; auto|rewrite Hob; destruct M4; [left; auto|by right]|done].
Qed.
End Invariant.

(** ** The actions as steps of a worker *)
Section Steps.
Context `{BuildConfig}.
Context (E : Z) (W : gset addr) (f0 : addr -> ptr).
Context (c : nat).
Local Abbreviation Inv := (Inv E W f0).
Local Abbreviation kept := (kept E).
Local Abbreviation local := (local E W f0 c).
Local Abbreviation R := (R E W f0 c).
Local Abbreviation G := (G E W f0 c).
Implicit Types (e : CEnv) (v w : Value) (L : addr -> list (Z * ptr)) (P : CEnv -> Prop) (wk : Work).

(** Facts that only grow: rows stay, buffers stay installed. *)
Definition grew e e' : Prop :=
  forall a v, rows e !! a = Some v -> exists v', rows e' !! a = Some v' /\
    forall g, row_buffer_ v = Some g -> row_buffer_ v' = Some g.
Definition grows P : Prop := forall e e', P e -> grew e e' -> P e'.

Lemma kept_grew_c d e e' : kept d e e' -> grew e e'.
Proof. intros [K _ _ _ _] a v Hv. destruct (K a v Hv) as (v' & Hv' & [_ _ ? _ _]). by exists v'. Qed.
Lemma G_grew_c e e' : Inv e -> G e e' -> grew e e'.
Proof. intros Hi HG. destruct (HG Hi) as [_ Hk]. apply (kept_grew_c (S c)), Hk. lia. Qed.
Lemma grows_true : grows (fun _ => True).
Proof. done. Qed.
Lemma grows_pure (X : Prop) : grows (fun _ => X).
Proof. by intros e e' ?. Qed.
Lemma grows_and P1 P2 : grows P1 -> grows P2 -> grows (fun e => P1 e /\ P2 e).
Proof. intros H1 H2 e e' [? ?] ?. split; [by apply (H1 e)|by apply (H2 e)]. Qed.

Definition present (a : addr) e : Prop := is_Some (rows e !! a).
Definition has_buffer (a : addr) (g : nat) e : Prop := exists v, rows e !! a = Some v /\ row_buffer_ v = Some g.
Lemma grows_present a : grows (present a).
Proof. intros e e' [v Hv] Hg. destruct (Hg a v Hv) as (v' & Hv' & _). by exists v'. Qed.
Lemma grows_has_buffer a g : grows (has_buffer a g).
Proof. intros e e' (v & Hv & Hb) Hg. destruct (Hg a v Hv) as (v' & Hv' & Hb'). exists v'. auto. Qed.
Lemma has_buffer_present a g e : has_buffer a g e -> present a e.
Proof. intros (v & ? & _). by exists v. Qed.

Definition A L wk P : CEnv -> Prop := fun e => local L wk e /\ P e.

Lemma A_stable_c L wk P : grows P -> stable R (A L wk P).
Proof.
  intros HP e e' [Hl Hp] HR. destruct (HR (lo_inv _ _ _ _ _ _ _ Hl)) as [Hi' Hk].
  split; [by eapply local_kept|]. apply (HP e); [done|]. by eapply kept_grew_c.
Qed.

Lemma rg_act_A_c {B} (m : M CEnv B) L wk P (L' : B -> addr -> list (Z * ptr)) (wk' : B -> Work) (Q : B -> CEnv -> Prop) :
  (forall b, grows (Q b)) ->
  (forall e, local L wk e -> P e -> wp m (fun b e' => G e e' /\ local (L' b) (wk' b) e' /\ Q b e') e) ->
  rg R G (A L wk P) (act m) (fun b => A (L' b) (wk' b) (Q b)).
Proof.
  intros HQ Hm. apply rg_act; [intros b; by apply A_stable_c|].
  intros e [Hl HP]. eapply wp_mono; [by apply Hm|]. by intros b e' (? & ? & ?).
Qed.

Lemma rg_read_c {B} (m : M CEnv B) L wk P (Q : B -> CEnv -> Prop) :
  (forall b, grows (Q b)) ->
  (forall e, local L wk e -> P e -> exists b, m e = Ok (b, e) /\ Q b e) ->
  rg R G (A L wk P) (act m) (fun b => A L wk (Q b)).
Proof.
  intros HQ Hm. apply (rg_act_A_c m L wk P (fun _ => L) (fun _ => wk)); [done|]. intros e Hl HP.
  destruct (Hm e Hl HP) as (b & Hb & Hq). unfold wp. rewrite Hb. split; [apply G_refl_c|done].
Qed.

(** A step that changes neither rows nor buffers nor versions. *)
Lemma Inv_same e e' :
  Inv e -> versions e' = versions e -> pool e' = pool e -> rows e' = rows e -> heap_ok e' ->
  lock_ok 64 (lock_ e') -> used_ e' = used_ e -> handed_ e' = handed_ e -> Inv e'.
Proof.
  intros [I1 I2 I3 I4' I4 I5 I6 I7 I8 I9 I10] Hv Hp Hr Hok Hl Hu Hh.
  assert (Hfr : forall w, row_frame e e' w) by (intros w; split; intros; by rewrite ?Hv, ?Hp).
  assert (Hun : forall g, uninstalled e' g <-> uninstalled e g) by (intros g; unfold uninstalled; by rewrite Hr).
  constructor; rewrite ?Hp, ?Hr, ?Hh; try done; [congruence|by rewrite Hu|..].
  - intros a v Ha. apply (row_inv_frame_c E W f0 e); [by apply I5|done|exists []; by rewrite app_nil_r].
  - intros a b v w p Hne Ha Hb. rewrite !(row_ptrs_frame_c e e') by done. by apply (I6 a b v w).
  - intros g r Hg Hug%Hun. by apply (I8 g).
  - intros g t Hg Hug%Hun. by apply (I9 g).
  - intros g1 g2 t H1 H2 Hu1%Hun Hu2%Hun. by apply (I10 g1 g2 t).
Qed.
Lemma kept_same d e e' :
  Inv e -> versions e' = versions e -> pool e' = pool e -> rows e' = rows e -> handed_ e' = handed_ e -> used_ e' = used_ e ->
  (holder (lock_ e') = Some d <-> holder (lock_ e) = Some d) -> kept d e e'.
Proof.
  intros Hi Hv Hp Hr Hh Hu Hl. constructor; rewrite ?Hr, ?Hh; try done.
  - intros a v Ha. exists v. split; [done|]. constructor; try done. apply own_buffer_frame. split; intros; by rewrite ?Hv, ?Hp.
  - intros g. unfold spare_of, uninstalled. by rewrite Hh, Hr.
Qed.

Lemma rg_stat_c (m : M CEnv unit) L wk P :
  grows P -> (forall e, local L wk e -> P e -> exists f, m e = Ok (tt, set_stat f e)) ->
  rg R G (A L wk P) (act m) (fun _ => A L wk P).
Proof.
  intros HP Hm. apply (rg_act_A_c m L wk P (fun _ => L) (fun _ => wk)); [done|]. intros e Hl Hpe.
  destruct (Hm e Hl Hpe) as [f Hf]. unfold wp. rewrite Hf. pose proof (lo_inv _ _ _ _ _ _ _ Hl) as Hi.
  assert (Hi' : Inv (set_stat f e)).
  { apply (Inv_same e); try done; [apply heap_ok_set_stat, (inv_heap _ _ _ _ Hi)|apply (inv_lock _ _ _ _ Hi)]. }
  assert (Hk : forall d, kept d e (set_stat f e)) by (intros d; by apply kept_same).
  split_and!; [by intros _|by eapply local_kept|]. apply (HP e); [done|]. by apply (kept_grew_c c).
Qed.

Lemma rg_ret_A_c {B} (b : B) L wk (Q : B -> CEnv -> Prop) :
  rg R G (A L wk (Q b)) (mret b) (fun b => A L wk (Q b)).
Proof. apply (rg_ret R G b (fun b => A L wk (Q b))). Qed.

Lemma rg_weaken_c {B} L wk P P' (p : prog CEnv B) Q :
  rg R G (A L wk P) p Q -> (forall e, local L wk e -> P' e -> P e) -> rg R G (A L wk P') p Q.
Proof. intros Hp HP. eapply rg_conseq; [exact Hp| |done]. intros e [Hl He]. split; [done|auto]. Qed.

(** ** Latch operations on a row *)
Definition with_rwl (l : RWLock) (v : Value) : Value := mkValue l (global_array_ v) (row_buffer_ v).
Definition with_held (h : option addr) wk : Work := mkWork h (rrc wk) (spare wk) (full wk) (dirty wk).

Lemma array_lock_get a e v : rows e !! a = Some v -> get_lock (array_lock a) e = Some (rwl v).
Proof. intros Hv. simpl. by rewrite Hv. Qed.
Lemma array_lock_rows a e v l :
  rows e !! a = Some v -> rows (set_lock (array_lock a) l e) = <[a := with_rwl l v]> (rows e).
Proof.
  intros Hv. simpl. apply map_eq. intros b. destruct (decide (a = b)) as [<-|Hne].
  - by rewrite lookup_alter_eq, Hv, lookup_insert_eq.
  - by rewrite lookup_alter_ne, lookup_insert_ne by done.
Qed.

Lemma step_latch_c L wk h a v l' e :
  local L wk e -> rows e !! a = Some v -> lock_ok 64 l' ->
  (forall d, c <> d -> holder l' <> Some d /\ holder (rwl v) <> Some d) ->
  (holder l' = Some c <-> h = Some a) ->
  (forall b, b <> a -> (h = Some b <-> held wk = Some b)) ->
  G e (set_lock (array_lock a) l' e) /\ local L (with_held h wk) (set_lock (array_lock a) l' e).
Proof.
  intros Hloc Hv Hl Hd Hh Hb. pose proof (lo_inv _ _ _ _ _ _ _ Hloc) as Hi.
  pose proof (inv_row _ _ _ _ Hi a v Hv) as [R1 R2 R3 R4 R5 R6].
  apply (step_row E W f0 e _ a v (with_rwl l' v) c L wk L); try done.
  - by apply array_lock_rows.
  - apply heap_ok_set_rows, (inv_heap _ _ _ _ Hi).
  - split; [done|]. split; [done|]. intros p Hp. by left.
  - by left.
  - apply (row_inv_frame_c E W f0 e); [|done|exists []; by rewrite app_nil_r]. by constructor.
  - intros d Hne. destruct (Hd d Hne) as [H1 H2]. split_and!; [simpl; tauto|by intros ?|done|done].
  - destruct (lo_row _ _ _ _ _ _ _ Hloc a v Hv) as [M1 M2 M3 M4 M5]. by constructor.
  - intros b Hne. split; [done|]. split; [by apply Hb|]. by split.
Qed.

Lemma step_acquire_c L wk a v e :
  local L wk e -> held wk = None -> rows e !! a = Some v -> cnt (rwl v) = 0 ->
  let e' := set_lock (array_lock a) (take_exclusive c (rwl v)) e in
  G e e' /\ local L (with_held (Some a) wk) e'.
Proof.
  intros Hloc Hn Hv Hc e'. pose proof (lo_inv _ _ _ _ _ _ _ Hloc) as Hi. pose proof (lo_core _ _ _ _ _ _ _ Hloc) as Hclt.
  pose proof (ri_lock _ _ _ _ _ _ (inv_row _ _ _ _ Hi a v Hv)) as R1. destruct (lock_ok_free _ _ R1 Hc) as [Hfree _].
  apply step_latch_c with (v := v); try done.
  - by apply take_exclusive_ok.
  - intros d Hne. rewrite Hfree. simpl. split; congruence.
  - intros b Hb. rewrite Hn. split; congruence.
Qed.

Lemma rg_try_lock_row_c L wk a P :
  grows P -> held wk = None -> (forall e, P e -> present a e) ->
  rg R G (A L wk P) (try_lock (array_lock a) c)
    (fun b => if b : bool then A L (with_held (Some a) wk) P else A L wk P).
Proof.
  intros HP Hn Hpres. apply (rg_try_lock (array_lock a) c R G (G_refl_c E W f0 c)); [by apply A_stable_c..| |].
  - intros e [_ Hp]. destruct (Hpres e Hp) as [v Hv]. exists (rwl v). by apply array_lock_get.
  - intros e l [Hl Hp] Hg Hc. destruct (Hpres e Hp) as [v Hv].
    rewrite (array_lock_get a e v Hv) in Hg. injection Hg as <-.
    destruct (step_acquire_c L wk a v e Hl Hn Hv Hc) as (HG & Hl'). split; [done|]. split; [done|].
    apply (HP e); [done|]. apply G_grew_c; [by eapply lo_inv|done].
Qed.
Lemma rg_lock_row L wk a P :
  grows P -> held wk = None -> (forall e, P e -> present a e) ->
  rg R G (A L wk P) (lock (array_lock a) c) (fun _ => A L (with_held (Some a) wk) P).
Proof.
  intros HP Hn Hpres. apply (rg_lock (array_lock a) c R G (G_refl_c E W f0 c)); [by apply A_stable_c..| |].
  - intros e [_ Hp]. destruct (Hpres e Hp) as [v Hv]. exists (rwl v). by apply array_lock_get.
  - intros e l [Hl Hp] Hg Hc. destruct (Hpres e Hp) as [v Hv].
    rewrite (array_lock_get a e v Hv) in Hg. injection Hg as <-.
    destruct (step_acquire_c L wk a v e Hl Hn Hv Hc) as (HG & Hl'). split; [done|]. split; [done|].
    apply (HP e); [done|]. apply G_grew_c; [by eapply lo_inv|done].
Qed.

Lemma rg_unlock_row_c L wk a P :
  grows P -> held wk = Some a -> (forall e, P e -> present a e) ->
  rg R G (A L wk P) (unlock (array_lock a)) (fun _ => A L (with_held None wk) P).
Proof.
  intros HP Hh Hpres. apply (rg_unlock (array_lock a) R G (G_refl_c E W f0 c)); [by apply A_stable_c| |].
  - intros e [_ Hp]. destruct (Hpres e Hp) as [v Hv]. exists (rwl v). by apply array_lock_get.
  - intros e l [Hl Hp] Hg. destruct (Hpres e Hp) as [v Hv].
    rewrite (array_lock_get a e v Hv) in Hg. injection Hg as <-. pose proof (lo_inv _ _ _ _ _ _ _ Hl) as Hi.
    pose proof (ri_lock _ _ _ _ _ _ (inv_row _ _ _ _ Hi a v Hv)) as R1.
    assert (Hhc : holder (rwl v) = Some c) by (by apply (kr_held _ _ _ _ _ _ _ (lo_row _ _ _ _ _ _ _ Hl a v Hv))).
    destruct (step_latch_c L wk None a v (drop_exclusive (rwl v)) e) as [HG Hl']; try done.
    + by apply (drop_exclusive_ok _ c).
    + intros d Hne. simpl. split; [done|]. rewrite Hhc. congruence.
    + intros b Hb. rewrite Hh. split; congruence.
    + split; [done|]. split; [done|]. apply (HP e); [done|]. by apply G_grew_c.
Qed.

(** ** The controller of the row buffers *)
Lemma uninstalled_dec e g : uninstalled e g \/ exists a v, rows e !! a = Some v /\ row_buffer_ v = Some g.
Proof.
  destruct (decide (map_Forall (fun _ v => row_buffer_ v <> Some g) (rows e))) as [Hf|Hf]; [by left|right].
  apply map_not_Forall in Hf as (a & v & Hv & Hn); [|apply _]. exists a, v. split; [done|].
  destruct (decide (row_buffer_ v = Some g)); [done|]. by destruct Hn.
Qed.

Hypothesis W_room : Z.of_nat (size W) + 64 <= NUM_REGIONS.

(** While a worker has no spare buffer there is one left for it. *)
Lemma buffers_left L wk e : local L wk e -> spare wk = None -> used_ e < NUM_REGIONS.
Proof.
  intros Hl Hn. pose proof (lo_inv _ _ _ _ _ _ _ Hl) as Hi. pose proof (lo_core _ _ _ _ _ _ _ Hl) as Hc.
  set (serves := fun (g : nat) (k : addr + nat) => match k with
    | inl a => exists v, rows e !! a = Some v /\ row_buffer_ v = Some g
    | inr d => spare_of d e g end).
  set (K := (inl <$> elements W) ++ (inr <$> seq 0 c) ++ (inr <$> seq (S c) (63 - c)) : list (addr + nat)).
  assert (Hlen : (length (seq 0 (length (handed_ e))) <= length K)%nat).
  { apply (injection_length serves); [apply NoDup_seq| |].
    - intros g Hg%elem_of_seq. destruct (uninstalled_dec e g) as [Hu|(a & v & Hv & Hb)].
      + destruct (lookup_lt_is_Some_2 (handed_ e) g) as [t Ht]; [lia|].
        destruct (inv_spare _ _ _ _ Hi g t Ht Hu) as (d & Hd & ->). exists (inr d). split; [|by split].
        assert (d <> c) by (intros ->; assert (spare wk = Some g) by (by apply (lo_spare _ _ _ _ _ _ _ Hl)); congruence).
        unfold K. rewrite !elem_of_app, !list_elem_of_fmap. right.
        destruct (decide (d < c)%nat); [left|right]; exists d; (split; [done|]); apply elem_of_seq; lia.
      + exists (inl a). split; [|by exists v]. unfold K. rewrite elem_of_app. left. apply list_elem_of_fmap. exists a.
        split; [done|]. apply elem_of_elements. by apply (ri_buffer _ _ _ _ _ _ (inv_row _ _ _ _ Hi a v Hv) g).
    - intros g1 g2 [a|d]; simpl.
      + intros (v1 & H1 & B1) (v2 & H2 & B2). congruence.
      + intros [H1 U1] [H2 U2]. by eapply (inv_one_spare _ _ _ _ Hi). }
  rewrite length_seq in Hlen. unfold K in Hlen. rewrite !length_app, !length_fmap, !length_seq in Hlen.
  change (length (elements W)) with (size W) in Hlen. rewrite (inv_used _ _ _ _ Hi). lia.
Qed.

Definition with_rrc (b : bool) (sp : option nat) wk : Work := mkWork (held wk) b sp (full wk) (dirty wk).

Lemma step_controller_c L wk b sp more e e' :
  local L wk e -> heap_ok e' -> versions e' = versions e -> pool e' = pool e -> rows e' = rows e ->
  lock_ok 64 (lock_ e') -> used_ e' = Z.of_nat (length (handed_ e')) -> used_ e' <= NUM_REGIONS -> handed_ e' = handed_ e ++ more ->
  (more = [] /\ sp = spare wk \/
   more = [RowBufferController.fetcher c] /\ spare wk = None /\ sp = Some (length (handed_ e))) ->
  (forall d, c <> d -> (holder (lock_ e') = Some d <-> holder (lock_ e) = Some d) /\
     (holder (lock_ e) = Some d -> more = [])) ->
  (holder (lock_ e') = Some c <-> b = true) ->
  G e e' /\ local L (with_rrc b sp wk) e'.
Proof.
  intros [Hi Hc Hrrc Hsp Hloc] Hheap Hv Hp Hrows Hl Hu Hroom Hh Hmore Hd Hb.
  assert (Hfr : forall w, row_frame e e' w) by (intros w; split; intros; by rewrite ?Hv, ?Hp).
  assert (Hun : forall g, uninstalled e' g <-> uninstalled e g) by (intros g; unfold uninstalled; by rewrite Hrows).
  pose proof Hi as [I1 I2 I3 I4' I4 I5 I6 I7 I8 I9 I10].
  assert (Hlk : forall g t, handed_ e' !! g = Some t -> handed_ e !! g = Some t \/
     spare wk = None /\ sp = Some g /\ g = length (handed_ e) /\ t = RowBufferController.fetcher c).
  { intros g t. rewrite Hh. intros [Hg|[Hge Hg]]%lookup_app_Some; [by left|right].
    destruct Hmore as [[-> _]|(-> & Hn & Hs)]; [done|]. apply list_lookup_singleton_Some in Hg as [Hg <-].
    assert (g = length (handed_ e)) as -> by lia. by rewrite Hs. }
  assert (Hfresh : forall g, length (handed_ e) = g -> uninstalled e g).
  { intros g Hg a v Ha Hb'. destruct (ri_buffer _ _ _ _ _ _ (I5 a v Ha) g Hb') as (_ & Hlt & _). lia. }
  assert (Hi' : Inv e').
  { constructor; rewrite ?Hp, ?Hrows; try done.
    - intros a v Ha. apply (row_inv_frame_c E W f0 e); [by apply I5|done|by exists more].
    - intros a b' v w p Hne Ha Hb'. rewrite !(row_ptrs_frame_c e e') by done. by apply (I6 a b' v w).
    - intros g r Hg Hug%Hun. by apply (I8 g).
    - intros g t Hg Hug%Hun. destruct (Hlk g t Hg) as [Hg'|(_ & _ & _ & ->)]; [by apply (I9 g)|by exists c].
    - intros g1 g2 t H1 H2 U1%Hun U2%Hun.
      destruct (Hlk g1 t H1) as [H1'|(N1 & _ & X1 & T1)], (Hlk g2 t H2) as [H2'|(N2 & _ & X2 & T2)]; subst; try done.
      + by eapply (I10 g1 g2).
      + assert (spare wk = Some g1) by (by apply Hsp). congruence.
      + assert (spare wk = Some g2) by (by apply Hsp). congruence. }
  split.
  - intros _. split; [done|]. intros d Hne. destruct (Hd d Hne) as [Hd1 Hd2]. constructor; rewrite ?Hrows; try done.
    + intros a v Ha. exists v. split; [done|]. constructor; try done. by apply own_buffer_frame.
    + intros Hhd. specialize (Hd2 Hhd). rewrite Hu, Hh, Hd2, app_nil_r. by rewrite <- I3.
    + intros g. unfold spare_of. rewrite Hun. split; intros [Hg Hug]; (split; [|done]).
      * destruct (Hlk g _ Hg) as [?|(_ & _ & _ & Ht)]; [done|]. by apply fetcher_inj in Ht.
      * rewrite Hh. by apply lookup_app_l_Some.
  - constructor; [done|done|done| |].
    + intros g. simpl. unfold spare_of. rewrite Hun. destruct Hmore as [[-> ->]|(-> & Hn & ->)].
      * rewrite Hh, app_nil_r. apply Hsp.
      * split.
        -- intros [Hg Hug]. destruct (Hlk g _ Hg) as [Hg'|(_ & Hs & _ & _)]; [|done].
           assert (spare wk = Some g) by (by apply Hsp). congruence.
        -- intros [= <-]. split; [|by apply Hfresh]. rewrite Hh. by apply list_lookup_middle.
    + intros a v. rewrite Hrows. intros Ha. destruct (Hloc a v Ha) as [M1 M2 M3 M4 M5].
      pose proof (own_buffer_frame c e e' v (Hfr v)) as Hob. constructor; rewrite ?Hob; done.
Qed.

Local Abbreviation ctl := RowBufferController.lock_ref.

Lemma rg_fetch_new_buffer L wk P :
  grows P -> rrc wk = false -> spare wk = None ->
  rg R G (A L wk P) (RowBufferController.fetch_new_buffer c)
    (fun g => A L (with_rrc false (Some g) wk) P).
Proof.
  intros HP Hr Hn. unfold RowBufferController.fetch_new_buffer.
  eapply rg_bind; [apply (rg_lock ctl c R G (G_refl_c E W f0 c) _ (A L (with_rrc true None wk) P))|].
  - by apply A_stable_c.
  - by apply A_stable_c.
  - intros e _. by eexists.
  - intros e l [Hl Hp] Hg Hcn. injection Hg as <-. pose proof (lo_inv _ _ _ _ _ _ _ Hl) as Hi.
    pose proof (inv_lock _ _ _ _ Hi) as Hlo. destruct (lock_ok_free _ _ Hlo Hcn) as [Hfree _].
    destruct (step_controller_c L wk true None [] e (set_lock_ (take_exclusive c (lock_ e)) e)) as [HG Hl']; try done.
    + by apply heap_ok_set_lock, (inv_heap _ _ _ _ Hi).
    + apply take_exclusive_ok; [done|done|by eapply lo_core].
    + by apply (inv_used _ _ _ _ Hi).
    + by apply (inv_room _ _ _ _ Hi).
    + by rewrite app_nil_r.
    + by left.
    + intros d Hne. rewrite Hfree. simpl. split; [|done]. split; congruence.
    + split; [done|]. split; [done|]. apply (HP e); [done|by apply G_grew_c].
  - intros []. eapply rg_bind; [apply (rg_act_A_c _ L (with_rrc true None wk) P (fun _ => L)
      (fun g => with_rrc true (Some g) wk) (fun _ => P)); [done|]|].
    + intros e Hl Hp. pose proof (lo_inv _ _ _ _ _ _ _ Hl) as Hi.
      pose proof (buffers_left L _ e Hl eq_refl) as Hroom. unfold RowBufferController.take_buffer.
      wp_steps. apply wp_assertM; [bool_lia|].
      rewrite (proj2 (Z.leb_gt _ _)) by lia. wp_step. unfold wp at 1, modifyM at 1. wp_step.
      unfold wp at 1, modifyM. wp_steps.
      destruct (step_controller_c L (with_rrc true None wk) true (Some (length (handed_ e))) [RowBufferController.fetcher c] e
        (set_handed (handed_ e ++ [RowBufferController.fetcher c]) (set_used (used_ e + 1) e))) as [HG Hl']; try done.
      * by apply heap_ok_set_handed, heap_ok_set_used, (inv_heap _ _ _ _ Hi).
      * by apply (inv_lock _ _ _ _ Hi).
      * simpl. rewrite (inv_used _ _ _ _ Hi), length_app. simpl. lia.
      * simpl. lia.
      * by right.
      * intros d Hne. simpl. split; [done|].
        assert (holder (lock_ e) = Some c) by (by apply (lo_rrc _ _ _ _ _ _ _ Hl)). congruence.
      * by apply (lo_rrc _ _ _ _ _ _ _ Hl).
      * split_and!; [done| |apply (HP e); [done|by apply G_grew_c]].
        replace (Z.to_nat (used_ e)) with (length (handed_ e)) by (rewrite (inv_used _ _ _ _ Hi); lia). exact Hl'.
    + intros g. cbn beta. eapply rg_bind; [apply (rg_unlock ctl R G (G_refl_c E W f0 c) _
        (A L (with_rrc false (Some g) wk) P))|].
      * by apply A_stable_c.
      * intros e _. by eexists.
      * intros e l [Hl Hp] Hg. injection Hg as <-. pose proof (lo_inv _ _ _ _ _ _ _ Hl) as Hi.
        assert (Hhc : holder (lock_ e) = Some c) by (by apply (lo_rrc _ _ _ _ _ _ _ Hl)).
        destruct (step_controller_c L (with_rrc true (Some g) wk) false (Some g) [] e (set_lock_ (drop_exclusive (lock_ e)) e))
          as [HG Hl']; try done.
        -- by apply heap_ok_set_lock, (inv_heap _ _ _ _ Hi).
        -- by apply (drop_exclusive_ok _ c); [apply (inv_lock _ _ _ _ Hi)|].
        -- by apply (inv_used _ _ _ _ Hi).
        -- by apply (inv_room _ _ _ _ Hi).
        -- by rewrite app_nil_r.
        -- by left.
        -- intros d Hne. simpl. rewrite Hhc. split; [|done]. split; congruence.
        -- split; [done|]. split; [done|]. apply (HP e); [done|by apply G_grew_c].
      * intros []. apply (rg_ret R G g (fun g => A L (with_rrc false (Some g) wk) P)).
Qed.

(** ** Merging slots into the version array *)
Hypothesis E_word : word32 E.
Hypothesis MAX_pos : 1 <= MAX_SLOTS_OF_PER_CORE_BUFFER.
Local Abbreviation gid := (convert_to_serial_id_with_epoch E).
Local Abbreviation start := (epoch_start_id E).
Local Abbreviation own_array := (own_array E).

Lemma new_slot_start e p : new_slot E e p -> start <= p.1.
Proof. intros (s & Hs & -> & _). destruct (gid_eq E s E_word Hs) as [-> _]. lia. Qed.

(** Slots for core [d] that follow the array's own. *)
Lemma merge_disjoint d (l buf : list (Z * ptr)) :
  ascending (filter (fun p => start <= p.1 /\ p.1 mod 64 = Z.of_nat d) l ++ buf) ->
  Forall (fun p => start <= p.1 /\ p.1 mod 64 = Z.of_nat d) buf ->
  forall x, x ∈ ids buf -> x ∉ ids l.
Proof.
  intros (_ & _ & Hlt)%ascending_app Hb x (b & -> & Hbin)%list_elem_of_fmap (p & Heq & Hp)%list_elem_of_fmap.
  rewrite Forall_forall in Hb. specialize (Hb b Hbin). rewrite Forall_forall in Hlt.
  assert (Hpo : p ∈ filter (fun p : Z * ptr => start <= p.1 /\ p.1 mod 64 = Z.of_nat d) l).
  { apply list_elem_of_filter. by rewrite <- Heq. }
  specialize (Hlt p Hpo). rewrite Forall_forall in Hlt. specialize (Hlt b Hbin). lia.
Qed.

Lemma step_merge L wk L' wk' e e' a v v' buf fresh :
  local L wk e -> rows e !! a = Some v -> held wk = Some a ->
  slots v' = merge_slots buf (CaracalRow.kept start (slots v)) -> rwl v' = rwl v -> row_buffer_ v' = row_buffer_ v ->
  rows e' = <[a := v']> (rows e) -> heap_ok e' -> same_control e e' -> length (pool e') = length (pool e) ->
  (forall g, row_buffer_ v' <> Some g -> pool e' !! g = pool e !! g) ->
  (forall g, row_buffer_ v' = Some g -> exists r', pool e' !! g = Some r' /\ buffers_ok E e' r') ->
  (forall d, d <> c -> own_buffer d e' v' = own_buffer d e v) ->
  (garbage start (slots v)).*2 ++ row_ptrs e' v' ≡ₚ row_ptrs e v ++ (Some <$> fresh) ->
  NoDup fresh -> Forall (fun x => versions e !! x = None) fresh ->
  (forall x, versions e' !! x <> versions e !! x -> Some x ∈ (garbage start (slots v)).*2 \/ x ∈ fresh) ->
  Forall (fun p => new_slot E e' p /\ p.1 mod 64 = Z.of_nat c) buf ->
  own_array c v ++ buf ++ own_buffer c e' v' = buffered E (L' a) -> own_writes E (L' a) ->
  (own_buffer c e' v' <> [] -> a ∈ dirty wk') ->
  full wk' = Some a \/ Z.of_nat (length (own_buffer c e' v')) < MAX_SLOTS_OF_PER_CORE_BUFFER ->
  held wk' = held wk -> rrc wk' = rrc wk -> spare wk' = spare wk ->
  (forall b, b <> a -> L' b = L b /\ (b ∈ dirty wk -> b ∈ dirty wk') /\ (full wk = Some b -> full wk' = Some b)) ->
  G e e' /\ local L' wk' e'.
Proof.
  intros Hloc Hv Hheld Hsl Hrwl Hbf Hrows Hheap Hctl Hlen Hpool Hbuf Hob Hperm Hfnd Hfresh Hvers Hnew Hown Hser Hdirty Hfull
    Hh' Hr' Hsp' Hb. pose proof (lo_inv _ _ _ _ _ _ _ Hloc) as Hi.
  pose proof (inv_row _ _ _ _ Hi a v Hv) as Hri. pose proof Hri as [R1 R2 [sf R3] R4 R5 R6].
  destruct (lo_row _ _ _ _ _ _ _ Hloc a v Hv) as [M1 M2 M3 M4 M5].
  assert (Hbs : Forall (fun p : Z * ptr => start <= p.1 /\ p.1 mod 64 = Z.of_nat c) buf).
  { eapply Forall_impl; [exact Hnew|]. intros p [Hn Hm]. split; [by eapply new_slot_start|done]. }
  assert (Hasc : ascending (own_array c v ++ buf)).
  { destruct Hser as [_ Hser]. rewrite <- Hown, app_assoc in Hser. by apply ascending_app in Hser as (? & _). }
  pose proof (merge_disjoint c (slots v) buf Hasc Hbs) as Hdj.
  pose proof (garbage_kept start (slots v) R2 ltac:(by eexists)) as Hgk.
  assert (Hkin : forall q, q ∈ CaracalRow.kept start (slots v) -> q ∈ slots v) by (intros q Hq; rewrite <- Hgk; set_solver).
  assert (Hdk : forall x, x ∈ ids buf -> x ∉ ids (CaracalRow.kept start (slots v))).
  { intros x Hx (q & -> & Hq)%list_elem_of_fmap. apply (Hdj q.1 Hx). apply list_elem_of_fmap_2. auto. }
  pose proof Hasc as (_ & Hbasc & _)%ascending_app. pose proof (sorted_NoDup _ Hbasc) as Hbnd.
  pose proof (kept_ascending start (slots v) R2) as Hka.
  assert (Hlive : forall x, Some x ∈ row_ptrs e v -> versions e !! x <> None).
  { intros x Hx Hn. destruct (row_live E W f0 e a v (Some x) Hri Hx) as [y Hy]. congruence. }
  assert (Hnd2 : NoDup ((garbage start (slots v)).*2 ++ row_ptrs e' v')).
  { rewrite Hperm. apply NoDup_app. split_and!; [done| |by apply NoDup_fmap; [apply _|]].
    intros p Hp (x & -> & Hx)%list_elem_of_fmap. rewrite Forall_forall in Hfresh. by apply (Hlive x Hp), Hfresh. }
  assert (Hsame : forall q x, q ∈ CaracalRow.kept start (slots v) -> q.2 = Some x -> versions e' !! x = versions e !! x).
  { intros q x Hq Hx. destruct (decide (versions e' !! x = versions e !! x)) as [|Hd]; [done|exfalso].
    destruct (Hvers x Hd) as [Hg|Hf].
    - unfold row_ptrs in R6. apply NoDup_app in R6 as (R6 & _ & _). rewrite <- Hgk, fmap_app in R6. apply NoDup_app in R6 as (_ & Hd2 & _).
      apply (Hd2 (Some x) Hg). rewrite <- Hx. by apply list_elem_of_fmap_2.
    - rewrite Forall_forall in Hfresh. apply (Hlive x); [|by apply Hfresh]. apply elem_of_row_ptrs. left.
      rewrite <- Hx. apply list_elem_of_fmap_2. auto. }
  assert (Hoa : forall d, d <> c -> own_array d v' = own_array d v).
  { intros d Hd. unfold CaracalInit.own_array. rewrite Hsl.
    rewrite merge_slots_other; [|done|done|done|].
    - by apply kept_filter; [|intros p [? _]].
    - eapply Forall_impl; [exact Hbs|]. intros p [_ Hm] [_ Hm']. lia. }
  assert (Hoc : own_array c v' = own_array c v ++ buf).
  { unfold CaracalInit.own_array in *. rewrite Hsl. rewrite merge_slots_own; try done.
    - by rewrite kept_filter by (done || intros p [? _]; done).
    - by rewrite kept_filter by (done || intros p [? _]; done). }
  apply (step_row E W f0 e e' a v v' c L wk L' wk'); try done.
  - split; [done|]. split.
    + intros x Hx. destruct (Hvers x Hx) as [Hg|Hf].
      * left. apply elem_of_row_ptrs. left. rewrite <- Hgk, fmap_app. set_solver.
      * right. rewrite Forall_forall in Hfresh. by apply Hfresh.
    + intros p Hp. assert (p ∈ row_ptrs e v ++ (Some <$> fresh)) as Hin by (rewrite <- Hperm; set_solver).
      apply elem_of_app in Hin as [?|(x & -> & Hx)%list_elem_of_fmap]; [by left|right]. exists x. split; [done|].
      rewrite Forall_forall in Hfresh. by apply Hfresh.
  - by rewrite Hbf.
  - left. by rewrite Hbf.
  - constructor.
    + by rewrite Hrwl.
    + rewrite Hsl. by apply merge_slots_ascending.
    + exists sf. rewrite Hsl, <- R3. unfold visible_before. rewrite merge_slots_other; [|done..|].
      * change (visible_before start (CaracalRow.kept start (slots v)) = visible_before start (slots v)). by apply kept_visible; [|lia].
      * eapply Forall_impl; [exact Hbs|]. simpl. lia.
    + rewrite Hsl. apply Forall_forall. intros p [Hp|Hp]%elem_of_merge_slots.
      * rewrite Forall_forall in Hnew, Hbs. destruct (Hnew p Hp) as [Hn _]. destruct (Hbs p Hp). by rewrite decide_True.
      * rewrite Forall_forall in R4. specialize (R4 p (Hkin p Hp)).
        case_decide; [by eapply new_slot_frame; [intros x; by apply Hsame|]|
          destruct R4; split; [done|by eapply collectable_ptr_frame; [intros x; by apply Hsame|]]].
    + intros g Hg. destruct (Hbuf g Hg) as (r' & Hr1 & Hr2). rewrite Hbf in Hg. destruct (R5 g Hg) as (? & ? & _).
      destruct Hctl as (_ & _ & ->). split; [done|]. split; [done|]. by exists r'.
    + by apply NoDup_app in Hnd2 as (_ & _ & ?).
  - intros d Hd. rewrite Hrwl. split; [done|]. split; [|split; [apply Hoa; done|apply Hob; done]].
    intros Hhd. assert (holder (rwl v) = Some c) by (by apply M1). congruence.
  - constructor; [by rewrite Hrwl, Hh'|by rewrite Hoc, <- app_assoc|done..].
  - intros b Hne. destruct (Hb b Hne) as (-> & ? & ?). split; [done|]. by rewrite Hh'.
Qed.

Lemma garbage_old (l : list (Z * ptr)) p :
  ascending l -> is_Some (visible_before start l) -> p ∈ garbage start l -> p ∈ l /\ p.1 < start.
Proof.
  intros Hl [q Hq] Hp. destruct (gc_split start l q Hl Hq) as (old & rest & Heq & Hg & _ & Hold & Hlt & _).
  rewrite Hg in Hp. rewrite Forall_forall in Hold. specialize (Hold p Hp). split; [|lia]. rewrite Heq. set_solver.
Qed.

(** The garbage of a row can be collected. *)
Lemma garbage_collectable e a v :
  row_inv E W f0 e a v -> is_Some (visible_before start (slots v)) /\ NoDup (slots v).*2 /\
  Forall (collectable_ptr e) (garbage start (slots v)).*2 /\
  (forall x, x ∈ addrs (garbage start (slots v)).*2 <-> Some x ∈ (garbage start (slots v)).*2).
Proof.
  intros [R1 R2 [sf R3] R4 R5 R6]. assert (Hv : is_Some (visible_before start (slots v))) by (by eexists).
  split_and!; [done|by apply NoDup_app in R6 as (? & _)| |intros x; apply elem_of_addrs].
  apply Forall_fmap, Forall_forall. intros p Hp. destruct (garbage_old _ p R2 Hv Hp) as [Hin Hlt].
  rewrite Forall_forall in R4. specialize (R4 p Hin). rewrite decide_False in R4 by lia. by destruct R4.
Qed.

(** Slots of the buffers outlive the collection of the garbage. *)
Lemma buffer_survives e e' a v fresh :
  row_inv E W f0 e a v -> Forall (fun x => versions e !! x = None) fresh ->
  (forall x, versions e' !! x <> versions e !! x -> Some x ∈ (garbage start (slots v)).*2 \/ x ∈ fresh) ->
  forall p x, p ∈ buffer_ptrs e v -> p = Some x -> versions e' !! x = versions e !! x.
Proof.
  intros Hri Hfresh Hvers p x Hp ->. destruct (decide (versions e' !! x = versions e !! x)) as [|Hd]; [done|exfalso].
  destruct (Hvers x Hd) as [Hg|Hf].
  - apply list_elem_of_fmap in Hg as (q & Hq & Hin). pose proof Hri as [R1 R2 [sf R3] R4 R5 R6].
    apply (garbage_old _ _ R2 ltac:(by eexists)) in Hin as [Hin _]. apply NoDup_app in R6 as (_ & Hd2 & _).
    apply (Hd2 (Some x)); [|done]. rewrite Hq. by apply list_elem_of_fmap_2.
  - rewrite Forall_forall in Hfresh. destruct (row_live E W f0 e a v (Some x) Hri) as [y Hy].
    + unfold row_ptrs. set_solver.
    + by rewrite Hfresh in Hy.
Qed.

Lemma own_array_only L wk e a v :
  local L wk e -> rows e !! a = Some v -> a ∉ dirty wk -> own_array c v = buffered E (L a) /\ own_buffer c e v = [].
Proof.
  intros Hl Hv Ha. destruct (lo_row _ _ _ _ _ _ _ Hl a v Hv) as [M1 M2 M3 M4 M5].
  assert (own_buffer c e v = []) as Hn by (destruct (own_buffer c e v); [done|by destruct Ha; apply M3]).
  by rewrite Hn, app_nil_r in M2.
Qed.

(** The next write of the worker comes after its others. *)
Lemma buffered_snoc (l : list (Z * ptr)) s p : buffered E (l ++ [(s, p)]) = buffered E l ++ [(gid s, p)].
Proof. unfold buffered. by rewrite fmap_app. Qed.
Lemma buffered_below (l : list (Z * ptr)) s :
  Forall (fun q => 0 <= q.1 < 4096) l -> 0 <= s < 4096 -> Forall (fun q => q.1 < s) l ->
  Forall (fun q => q.1 < gid s) (buffered E l).
Proof.
  intros Hl Hs Hlt. apply Forall_fmap, Forall_forall. intros q Hq. rewrite Forall_forall in Hl, Hlt. simpl.
  destruct (gid_eq E q.1 E_word (Hl q Hq)) as [-> _], (gid_eq E s E_word Hs) as [-> _]. specialize (Hlt q Hq). lia.
Qed.
Lemma ascending_after (l : list (Z * ptr)) s p :
  ascending l -> Forall (fun q => q.1 < gid s) l -> ascending (l ++ [(gid s, p)]).
Proof.
  intros Ha Hlt. apply ascending_app. split; [done|]. split; [repeat constructor|].
  eapply Forall_impl; [exact Hlt|]. intros q Hq. by repeat constructor.
Qed.

Lemma writes_snoc l s p :
  own_writes E l -> 0 <= s < 4096 -> Forall (fun q => q.1 < s) l -> own_writes E (l ++ [(s, p)]).
Proof.
  intros [Hl Ha] Hs Hlt. split; [apply Forall_app; by rewrite Forall_singleton|].
  rewrite buffered_snoc. apply ascending_after; [done|by apply buffered_below].
Qed.

Lemma step_append_array L wk a (s : Caracal) e :
  local L wk e -> held wk = Some a -> a ∉ dirty wk -> present a e ->
  epoch_ s = E -> 0 <= serial_id_ s < 4096 -> serial_id_ s mod 64 = Z.of_nat c ->
  Forall (fun q => q.1 < serial_id_ s) (L a) ->
  wp (pending ← create_pending_version;
      v ← load_row a;
      g ← GlobalVersionArray.append_with_gc (global_array_ v) (epoch_ s) (serial_id_ s) (Some pending);
      assertM (GlobalVersionArray.is_exist g (epoch_ s) (serial_id_ s));;
      store_row a (mkValue (rwl v) g (row_buffer_ v));;
      mret pending)
    (fun q e' => G e e' /\ local (record_write L a (serial_id_ s, Some q)) wk e') e.
Proof.
  intros Hl Hheld Hclean [v Hv] He Hs Hm Hlt. rewrite He. pose proof (lo_inv _ _ _ _ _ _ _ Hl) as Hi.
  pose proof (inv_row _ _ _ _ Hi a v Hv) as Hri. destruct (own_array_only L wk e a v Hl Hv Hclean) as [Hoa Hob].
  destruct (lo_row _ _ _ _ _ _ _ Hl a v Hv) as [M1 M2 M3 M4 M5].
  destruct (garbage_collectable e a v Hri) as (Hvis & Hnd & Hcol & Haddr). pose proof Hri as [R1 R2 R3 R4 R5 R6].
  wp_step. apply wp_new_pending; [by apply (inv_heap _ _ _ _ Hi)|]. intros q e1 Hok1 Hfresh Hpend Hv1 Hp1 Hr1 Hctl1.
  wp_step. apply (wp_load_row _ v); [by rewrite Hr1|]. wp_step.
  destruct (global_array_ v) as [l] eqn:Harr. assert (Hsl : slots v = l) by (unfold slots; by rewrite Harr).
  rewrite Hsl in *.
  apply wp_append_with_gc; [by eexists|done|done|done|done| |].
  { apply Forall_forall. intros p Hp. rewrite Forall_forall in Hcol. specialize (Hcol p Hp).
    apply (collectable_ptr_frame e e1); [|done]. intros x ->. apply Hv1. intros ->.
    destruct (collectable_live e _ Hcol) as [y Hy]. congruence. }
  intros e2 Hok2 Hfr _. pose proof Hfr as (Hv2 & _ & Hp2 & Hu2 & Hr2 & Hl2 & Hh2).
  set (l' := insert_slot (gid (serial_id_ s), Some q) (CaracalRow.kept start l)).
  wp_step. apply wp_assertM.
  { unfold GlobalVersionArray.is_exist. apply bool_decide_eq_true_2.
    apply (list_find_elem_of (fun pair : Z * ptr => pair.1 = gid (serial_id_ s)) l' (gid (serial_id_ s), Some q)); [|done].
    apply elem_of_insert_slot. by left. }
  wp_step. unfold wp at 1, store_row, modifyM. wp_steps. cbv beta.
  set (v' := mkValue (rwl v) (GlobalVersionArray.mk l') (row_buffer_ v)).
  set (e' := set_rows (insert a v') e2).
  assert (Hvers : forall x, versions e' !! x <> versions e !! x -> Some x ∈ (garbage start l).*2 \/ x ∈ [q]).
  { intros x Hx. unfold e' in Hx. cbn in Hx. rewrite Hv2 in Hx. rewrite <- Haddr. case_decide as Hd; [by left|right].
    destruct (decide (x = q)) as [->|Hne]; [by left|]. by rewrite Hv1 in Hx. }
  assert (Hpool : pool e' = pool e) by (unfold e'; cbn; by rewrite Hp2).
  assert (Hbp : buffer_ptrs e' v' = buffer_ptrs e v).
  { unfold buffer_ptrs, buffer_of. by rewrite Hpool. }
  assert (Hobs : forall d, own_buffer d e' v' = own_buffer d e v) by (intros d; unfold own_buffer, buffer_of; by rewrite Hpool).
  assert (Hqn : Some q ∉ (garbage start l).*2).
  { intros Hq. rewrite Forall_forall in Hcol. destruct (collectable_live e _ (Hcol _ Hq)) as [y Hy]. congruence. }
  apply (step_merge L wk _ wk e e' a v v' [(gid (serial_id_ s), Some q)] [q]); rewrite ?Hsl; try done.
  - unfold e'. cbn. by rewrite Hr2, Hr1.
  - by apply heap_ok_set_rows.
  - destruct Hctl1 as (Hu1 & Hl1 & Hh1). unfold e', same_control. cbn. by rewrite Hu2, Hl2, Hh2, Hu1, Hl1, Hh1.
  - by rewrite Hpool.
  - intros g _. by rewrite Hpool.
  - intros g Hg. destruct (R5 g Hg) as (_ & _ & r & Hr & Hb). exists r. rewrite Hpool. split; [done|].
    apply (buffers_ok_frame E e); [|done]. intros b p x Hb1 Hp Hx.
    apply (buffer_survives e e' a v [q] Hri) with (p := p.2); [by repeat constructor|by rewrite Hsl| |done].
    unfold buffer_ptrs, buffer_of. change (row_buffer_ v = Some g) in Hg. rewrite Hg. simpl. rewrite Hr. simpl.
    apply elem_of_concat_fmap. exists b. split; [done|by apply list_elem_of_fmap_2].
  - unfold row_ptrs. rewrite Hbp, Hsl. unfold slots, v'. cbn [global_array_ GlobalVersionArray.ids_slots_].
    unfold l'. rewrite insert_slot_perm. csimpl. rewrite <- (garbage_kept start l R2 Hvis) at 3. rewrite fmap_app.
    change (Some q :: ?x ++ ?y) with ([Some q] ++ (x ++ y)). rewrite <- !app_assoc.
    rewrite (Permutation_app_comm [Some q]). by rewrite <- !app_assoc.
  - by repeat constructor; intros ?%not_elem_of_nil.
  - by repeat constructor.
  - repeat constructor; cbn [fst snd].
    + exists (serial_id_ s). split_and!; [lia|lia|done|]. simpl. unfold e'. destruct Hpend as (w & Hw & ?). exists w. cbn.
      rewrite Hv2, decide_False; [done|]. by rewrite Haddr.
    + destruct (gid_eq E _ E_word Hs) as [_ ->]. done.
  - rewrite Hobs, Hob, app_nil_r, Hoa. unfold record_write. rewrite decide_True by done. by rewrite buffered_snoc.
  - unfold record_write. rewrite decide_True by done. by apply writes_snoc.
  - by rewrite Hobs, Hob.
  - by rewrite Hobs.
  - intros b Hb. unfold record_write. by rewrite decide_False.
Qed.

(** ** A write into the worker's own buffer of a contended row *)
Definition with_buffer (a : addr) (fl : option addr) wk : Work :=
  mkWork (held wk) (rrc wk) (spare wk) fl ({[a]} ∪ dirty wk).

Lemma core_buffer_at L wk e a v g :
  local L wk e -> rows e !! a = Some v -> row_buffer_ v = Some g ->
  exists r, pool e !! g = Some r /\ buffers_ok E e r /\
    RowBuffer.buffers_ r !! c = Some (PerCoreBuffer.mk (own_buffer c e v)) /\
    load_core_buffer (g, Z.of_nat c) e = Ok (PerCoreBuffer.mk (own_buffer c e v), e).
Proof.
  intros Hl Hv Hg. pose proof (lo_inv _ _ _ _ _ _ _ Hl) as Hi.
  destruct (ri_buffer _ _ _ _ _ _ (inv_row _ _ _ _ Hi a v Hv) g Hg) as (_ & _ & r & Hr & Hb).
  destruct (lookup_lt_is_Some_2 (RowBuffer.buffers_ r) c) as [[l] Hc].
  { rewrite (bo_length _ _ _ Hb). by eapply lo_core. }
  assert (own_buffer c e v = l) as ->.
  { unfold own_buffer, buffer_of. rewrite Hg. simpl. by rewrite Hr, Hc. }
  exists r. split_and!; [done..|]. unfold load_core_buffer, getM, derefM, lift, mbind, M_bind, vector_at.
  cbn. rewrite Hr. cbn. by rewrite decide_True, Nat2Z.id, Hc by lia.
Qed.

Lemma store_core_buffer_pool g b e r :
  pool e !! g = Some r ->
  pool (set_pool (alter (fun r => RowBuffer.mk (<[Z.to_nat (Z.of_nat c) := b]> (RowBuffer.buffers_ r))) g) e) !! g
  = Some (RowBuffer.mk (<[c := b]> (RowBuffer.buffers_ r))).
Proof. intros Hr. cbn [pool set_pool]. by rewrite list_lookup_alter_eq, Hr, Nat2Z.id. Qed.

Lemma own_buffer_facts L wk e a v g :
  local L wk e -> rows e !! a = Some v -> row_buffer_ v = Some g ->
  ascending (own_buffer c e v) /\
  Forall (fun p => new_slot E e p /\ p.1 mod 64 = Z.of_nat c) (own_buffer c e v).
Proof.
  intros Hl Hv Hg. destruct (core_buffer_at L wk e a v g Hl Hv Hg) as (r & _ & Hb & Hc & _).
  by destruct (bo_slots _ _ _ Hb c _ Hc) as (? & _ & ?).
Qed.

Lemma step_append_buffer L wk a g (s : Caracal) e :
  local L wk e -> has_buffer a g e -> full wk = None ->
  core_ s = Z.of_nat c -> epoch_ s = E -> 0 <= serial_id_ s < 4096 -> serial_id_ s mod 64 = Z.of_nat c ->
  Forall (fun q => q.1 < serial_id_ s) (L a) ->
  wp (pending ← create_pending_version;
      buffer ← load_core_buffer (g, core_ s);
      '(not_full, buffer') ← lift (PerCoreBuffer.appendable buffer (Some pending) (epoch_ s) (serial_id_ s));
      store_core_buffer (g, core_ s) buffer';;
      mret (pending, not_full))
    (fun r e' => G e e' /\
       local (record_write L a (serial_id_ s, Some r.1)) (with_buffer a (if r.2 : bool then None else Some a) wk) e') e.
Proof.
  intros Hl (v & Hv & Hg) Hfull Hc He Hs Hm Hlt. rewrite He, Hc. pose proof (lo_inv _ _ _ _ _ _ _ Hl) as Hi.
  pose proof (inv_row _ _ _ _ Hi a v Hv) as Hri. pose proof Hri as [R1 R2 R3 R4 R5 R6].
  destruct (lo_row _ _ _ _ _ _ _ Hl a v Hv) as [M1 M2 M3 M4 M5].
  wp_step. apply wp_new_pending; [by apply (inv_heap _ _ _ _ Hi)|]. intros q e1 Hok1 Hfresh Hpend Hv1 Hp1 Hr1 Hctl1.
  destruct (core_buffer_at L wk e a v g Hl Hv Hg) as (r & Hr & Hb & Hbc & Hload).
  destruct (own_buffer_facts L wk e a v g Hl Hv Hg) as [Hasc Hnew].
  set (l := own_buffer c e v) in *. set (l' := l ++ [(gid (serial_id_ s), Some q)]).
  assert (Hload1 : load_core_buffer (g, Z.of_nat c) e1 = Ok (PerCoreBuffer.mk l, e1)).
  { revert Hload. unfold load_core_buffer, getM, derefM, lift, mbind, M_bind. cbn. rewrite Hp1, Hr. cbn.
    destruct (vector_at _ _); [|done]. by intros [= ->]. }
  assert (Hbelow : Forall (fun p => p.1 < gid (serial_id_ s)) l).
  { destruct M5 as [M5 _]. pose proof (buffered_below (L a) (serial_id_ s) M5 Hs Hlt) as Hall. rewrite <- M2 in Hall.
    by apply Forall_app in Hall as [_ ?]. }
  assert (Hroom : Z.of_nat (length l) < MAX_SLOTS_OF_PER_CORE_BUFFER) by (destruct M4 as [M4|M4]; [congruence|done]).
  wp_step. unfold wp at 1. rewrite Hload1. wp_step. wp_step. rewrite (appendable_eq l (Some q)); [|by eexists|done|by right]. cbn zeta.
  rewrite insert_slot_snoc by (eapply Forall_impl; [exact Hbelow|]; simpl; lia). fold l'.
  wp_step. wp_step. unfold wp at 1, store_core_buffer, modifyM. wp_steps. cbn beta. cbn [fst snd].
  set (e' := set_pool _ e1).
  assert (Hr' : pool e' !! g = Some (RowBuffer.mk (<[c := PerCoreBuffer.mk l']> (RowBuffer.buffers_ r)))).
  { apply store_core_buffer_pool. by rewrite Hp1. }
  destruct (buffer_store e e' v v g r c _ l' Hg Hg Hr Hbc Hr') as (Hobs & rest & Hbp & Hbp').
  assert (Hob : own_buffer c e' v = l') by (by rewrite Hobs, decide_True).
  assert (Hperm : row_ptrs e' v ≡ₚ Some q :: row_ptrs e v).
  { unfold row_ptrs. rewrite Hbp, Hbp'. unfold l'. rewrite fmap_app. cbn. rewrite Permutation_middle.
    f_equiv. rewrite <- app_assoc. cbn. by rewrite <- Permutation_middle. }
  assert (Hkeep : forall p, live_ptr e p -> forall x, p = Some x -> versions e' !! x = versions e !! x).
  { intros p Hp x ->. apply Hv1. intros ->. destruct Hp as [y Hy]. congruence. }
  assert (Hslot : forall p, new_slot E e p -> new_slot E e' p).
  { intros p Hp. apply (new_slot_frame E e); [|done]. intros x. apply Hkeep. destruct Hp as (? & _ & _ & ?).
    by apply pending_ptr_live. }
  assert (Hnewq : new_slot E e' (gid (serial_id_ s), Some q) /\ gid (serial_id_ s) mod 64 = Z.of_nat c).
  { split; [|destruct (gid_eq E _ E_word Hs) as [_ ->]; done]. exists (serial_id_ s). split_and!; [lia|lia|done|].
    destruct Hpend as (w & Hw & ?). by exists w. }
  apply (step_row E W f0 e e' a v v c L wk); try done.
  - unfold e'. cbn. by rewrite Hr1, insert_id.
  - by apply heap_ok_set_pool.
  - unfold e'. cbn. by rewrite length_alter, Hp1.
  - split_and!.
    + intros g' Hne. unfold e'. cbn. rewrite list_lookup_alter_ne by congruence. by rewrite Hp1.
    + intros x Hx. right. destruct (decide (x = q)) as [->|Hne]; [done|]. by destruct Hx; apply Hv1.
    + intros p. rewrite Hperm. intros [->|?]%elem_of_cons; [right; by exists q|by left].
  - by left.
  - constructor; try done.
    + apply Forall_forall. intros p Hp. rewrite Forall_forall in R4. specialize (R4 p Hp).
      case_decide; [by apply Hslot|]. destruct R4. split; [done|]. apply (collectable_ptr_frame e); [|done]. intros x. apply Hkeep. by apply collectable_live.
    + intros g' Hg'. assert (g' = g) as -> by congruence. destruct (R5 g Hg) as (Ha & Hlt' & _).
      destruct Hctl1 as (_ & _ & Hh1). split; [done|]. split; [unfold e'; cbn; by rewrite Hh1|]. eexists. split; [exact Hr'|].
      constructor; cbn; [by rewrite length_insert, (bo_length _ _ _ Hb)|]. intros d b.
      intros [(<- & <- & _)|[Hne Hd]]%list_lookup_insert_Some.
      * cbn. split_and!; [by apply ascending_after|unfold l'; rewrite length_app; cbn; lia|].
        apply Forall_app. split; [|by apply Forall_singleton]. eapply Forall_impl; [exact Hnew|].
        intros p [? ?]. split; [by apply Hslot|done].
      * destruct (bo_slots _ _ _ Hb d b Hd) as (? & ? & Hall). split_and!; [done..|].
        eapply Forall_impl; [exact Hall|]. intros p [? ?]. split; [by apply Hslot|done].
    + rewrite Hperm. apply NoDup_cons. split; [|done]. intros Hq.
      destruct (row_live E W f0 e a v (Some q) Hri Hq) as [y Hy]. cbn in Hy. congruence.
  - intros d Hd. split_and!; try done. rewrite Hobs. by rewrite decide_False.
  - assert (HM5 : own_writes E (record_write L a (serial_id_ s, Some q) a)).
    { unfold record_write. rewrite decide_True by done. by apply writes_snoc. }
    constructor; cbn [held dirty full with_buffer]; [done| |set_solver| |done]; rewrite Hob.
    + unfold record_write. rewrite decide_True by done. rewrite buffered_snoc, <- M2. unfold l'. by rewrite app_assoc.
    + destruct (Z.ltb_spec (Z.of_nat (length l')) MAX_SLOTS_OF_PER_CORE_BUFFER); [by right|by left].
  - intros b Hb'. unfold record_write. rewrite decide_False by done. split_and!; [done..|set_solver|]. by rewrite Hfull.
Qed.

(** ** Merging the worker's buffer of a row whose latch it holds *)
Definition without_buffer (a : addr) wk : Work :=
  mkWork (held wk) (rrc wk) (spare wk) None (dirty wk ∖ {[a]}).

Lemma step_batch L wk a g (s : Caracal) e :
  local L wk e -> held wk = Some a -> has_buffer a g e -> full wk = None \/ full wk = Some a ->
  core_ s = Z.of_nat c -> epoch_ s = E ->
  wp (batch_append_row s a (g, core_ s)) (fun _ e' => G e e' /\ local L (without_buffer a wk) e') e.
Proof.
  intros Hl Hheld (v & Hv & Hg) Hfull Hc He. pose proof (lo_inv _ _ _ _ _ _ _ Hl) as Hi.
  pose proof (inv_row _ _ _ _ Hi a v Hv) as Hri. pose proof Hri as [R1 R2 R3 R4 R5 R6].
  destruct (garbage_collectable e a v Hri) as (Hvis & Hnd & Hcol & Haddr).
  destruct (lo_row _ _ _ _ _ _ _ Hl a v Hv) as [M1 M2 M3 M4 M5].
  destruct (core_buffer_at L wk e a v g Hl Hv Hg) as (r & Hr & Hb & Hbc & Hload).
  destruct (own_buffer_facts L wk e a v g Hl Hv Hg) as [Hasc Hnew].
  set (l := own_buffer c e v) in *.
  assert (Hstart : Forall (fun p : Z * ptr => start <= p.1 /\ p.1 mod 64 = Z.of_nat c) l).
  { eapply Forall_impl; [exact Hnew|]. intros p [Hn Hm]. split; [by eapply new_slot_start|done]. }
  assert (Hdj : forall x, x ∈ ids l -> x ∉ ids (slots v)).
  { apply (merge_disjoint c); [|done]. fold (own_array c v). rewrite M2. by destruct M5. }
  unfold batch_append_row. rewrite He, Hc. wp_step. apply (wp_load_row _ v); [done|]. wp_step.
  unfold wp at 1. rewrite Hload. cbn beta iota. wp_step.
  destruct (global_array_ v) as [arr] eqn:Harr. assert (Hsl : slots v = arr) by (unfold slots; by rewrite Harr).
  rewrite Hsl in *.
  apply wp_batch_append; try done.
  - by apply (inv_heap _ _ _ _ Hi).
  - eapply Forall_impl; [exact Hnew|]. intros p [(? & _ & _ & Hp) _].
    by apply (live_ptr_is_Some e), pending_ptr_live.
  - by apply sorted_NoDup.
  - intros x Hx (p & -> & Hp)%list_elem_of_fmap. apply (Hdj p.1 Hx), list_elem_of_fmap_2.
    rewrite <- (garbage_kept start arr R2 Hvis). apply elem_of_app. by right.
  - intros e1 Hok1 Hfr _. pose proof Hfr as (Hv1 & _ & Hp1 & Hu1 & Hr1 & Hl1 & Hh1).
    cbn beta iota. wp_step. unfold wp at 1, store_row, modifyM. unfold wp, store_core_buffer, modifyM. cbn [fst snd].
    set (v' := mkValue (rwl v) (GlobalVersionArray.mk (merge_slots l (CaracalRow.kept start arr))) (row_buffer_ v)).
    set (e2 := set_rows (insert a v') e1). set (e' := set_pool _ e2).
    assert (Hr' : pool e' !! g = Some (RowBuffer.mk (<[c := PerCoreBuffer.mk []]> (RowBuffer.buffers_ r)))).
    { apply store_core_buffer_pool. cbn. by rewrite Hp1. }
    assert (Hg' : row_buffer_ v' = Some g) by done.
    destruct (buffer_store e e' v v' g r c _ [] Hg Hg' Hr Hbc Hr') as (Hobs & rest & Hbp & Hbp').
    assert (Hob : own_buffer c e' v' = []) by (by rewrite Hobs, decide_True).
    assert (Hvers : forall x, versions e' !! x <> versions e !! x -> Some x ∈ (garbage start arr).*2 \/ x ∈ []).
    { intros x Hx. left. unfold e', e2 in Hx. cbn in Hx. rewrite Hv1 in Hx. rewrite <- Haddr. by case_decide. }
    assert (Hslot : forall d b p, RowBuffer.buffers_ r !! d = Some b -> p ∈ PerCoreBuffer.ids_slots_ b -> new_slot E e p -> new_slot E e' p).
    { intros d b p Hd Hp. apply (new_slot_frame E e). intros x Hx.
      apply (buffer_survives e e' a v [] Hri) with (p := p.2); [by constructor|by rewrite Hsl| |done].
      apply elem_of_buffer_ptrs. exists d. unfold own_buffer, buffer_of. rewrite Hg. simpl. rewrite Hr, Hd. simpl.
      by apply list_elem_of_fmap_2. }
    apply (step_merge L wk L _ e e' a v v' l []); rewrite ?Hsl; try done.
    + unfold e', e2. cbn. by rewrite Hr1.
    + by apply heap_ok_set_pool, heap_ok_set_rows.
    + unfold e', e2. cbn. by rewrite length_alter, Hp1.
    + intros g' Hne. unfold e', e2. cbn. rewrite list_lookup_alter_ne by (intros ->; by apply Hne). by rewrite Hp1.
    + intros g' Hg2. assert (g' = g) as -> by congruence. eexists. split; [exact Hr'|].
      constructor; cbn; [by rewrite length_insert, (bo_length _ _ _ Hb)|]. intros d b.
      intros [(<- & <- & _)|[Hne Hd]]%list_lookup_insert_Some; [cbn; split_and!; [constructor|lia|constructor]|].
      destruct (bo_slots _ _ _ Hb d b Hd) as (? & ? & Hall). split_and!; [done..|].
      apply Forall_forall. intros p Hp. rewrite Forall_forall in Hall. destruct (Hall p Hp) as [? ?]. split; [by eapply Hslot|done].
    + intros d Hd. rewrite Hobs. by rewrite decide_False.
    + unfold row_ptrs. rewrite Hbp, Hbp', Hsl. unfold slots, v'. cbn [global_array_ GlobalVersionArray.ids_slots_].
      rewrite merge_slots_perm, app_nil_r, fmap_app. rewrite <- (garbage_kept start arr R2 Hvis) at 3. rewrite fmap_app.
      cbn [PerCoreBuffer.ids_slots_ fmap list_fmap app]. rewrite !app_assoc. f_equiv.
      rewrite <- !app_assoc. f_equiv. apply Permutation_app_comm.
    + constructor.
    + apply Forall_forall. intros p Hp. rewrite Forall_forall in Hnew. destruct (Hnew p Hp) as [Hn Hm].
      split; [|done]. by apply (Hslot c _ p Hbc).
    + by rewrite Hob, app_nil_r.
    + rewrite Hob. right. cbn. lia.
    + intros b Hne. cbn. split; [done|]. split; [set_solver|]. destruct Hfull as [-> | ->]; [done|congruence].
Qed.

(** ** Installing the worker's spare buffer *)
Definition with_spare (sp : option nat) wk : Work := mkWork (held wk) (rrc wk) sp (full wk) (dirty wk).

Lemma init_buffers_ok e : buffers_ok E e RowBuffer.init.
Proof.
  constructor; [done|]. intros d b Hb. unfold RowBuffer.init in Hb. cbn in Hb.
  apply lookup_replicate_1 in Hb as [-> _]. cbn. split_and!; [constructor|lia|constructor].
Qed.

Lemma step_install_c L wk a g cur e :
  cur = None -> local L wk e -> present a e -> a ∈ W -> spare wk = Some g ->
  wp (v ← load_row a;
      if decide (row_buffer_ v = cur) then
        store_row a (mkValue (rwl v) (global_array_ v) (Some g));; mret true
      else mret false)
    (fun b e' => G e e' /\ local L (if b : bool then with_spare None wk else wk) e' /\
       exists g', has_buffer a g' e' /\ (b = true -> g' = g)) e.
Proof.
  intros -> Hl [v Hv] Ha Hsp. pose proof (lo_inv _ _ _ _ _ _ _ Hl) as Hi. wp_step. apply (wp_load_row _ v); [done|].
  destruct (row_buffer_ v) as [g'|] eqn:Hg.
  { rewrite decide_False by done. wp_steps. split_and!; [apply G_refl_c|done|].
    exists g'. split; [by exists v|done]. }
  rewrite decide_True by done. wp_step. unfold wp at 1, store_row, modifyM. wp_steps.
  set (v' := mkValue (rwl v) (global_array_ v) (Some g)). set (e' := set_rows (insert a v') e).
  pose proof (inv_row _ _ _ _ Hi a v Hv) as Hri. pose proof Hri as [R1 R2 R3 R4 R5 R6].
  destruct (lo_row _ _ _ _ _ _ _ Hl a v Hv) as [M1 M2 M3 M4 M5].
  pose proof Hsp as Hspare. apply (lo_spare _ _ _ _ _ _ _ Hl) in Hspare as [Hh Hun].
  assert (Hlt : (g < length (handed_ e))%nat) by (by apply lookup_lt_Some in Hh).
  destruct (lookup_lt_is_Some_2 (pool e) g) as [r Hr].
  { rewrite (inv_pool_length _ _ _ _ Hi). pose proof (inv_used _ _ _ _ Hi). pose proof (inv_room _ _ _ _ Hi). lia. }
  pose proof (inv_free _ _ _ _ Hi g r Hr Hun) as ->.
  assert (Hob : forall d, own_buffer d e' v' = own_buffer d e v).
  { intros d. unfold own_buffer, buffer_of. rewrite Hg. cbn. rewrite Hr. cbn.
    destruct (replicate _ _ !! d) as [b|] eqn:Hd; [|done]. apply lookup_replicate_1 in Hd as [-> _]. done. }
  assert (Hperm : row_ptrs e' v' = row_ptrs e v).
  { unfold row_ptrs, slots, buffer_ptrs, buffer_of. rewrite Hg. cbn [v' global_array_ row_buffer_]. f_equal. cbn. by rewrite Hr. }
  destruct (step_row E W f0 e e' a v v' c L wk L (with_spare None wk)) as [HG Hl']; try done.
  - by apply heap_ok_set_rows, (inv_heap _ _ _ _ Hi).
  - split_and!; [done|done|]. intros p. rewrite Hperm. by left.
  - by rewrite Hg.
  - right. exists g. split_and!; done.
  - constructor; try done; [|by rewrite Hperm]. intros g' [= <-]. split_and!; [done..|].
    exists RowBuffer.init. split; [done|]. apply init_buffers_ok.
  - constructor; rewrite ?Hob; done.
  - split_and!; [done|done|]. exists g. split; [|done]. exists v'. split; [apply lookup_insert_eq|done].
Qed.
End Steps.
