(* ===== verification/CaracalPhase.v ===== *)
(** * CaracalPhase: the whole initialisation phase of an epoch of Caracal

    The methods of [Caracal] are programs of the steps of [CaracalInit];
    [do_initialization_phase] of all 64 workers in parallel runs without error
    under every schedule, and when the workers are through, the version array
    of each row ends with exactly the transactions of the epoch that write it,
    in serial order, and every buffer is empty. *)
From Stdlib Require Import FunctionalExtensionality.
From S2P Require Import Prelude Bitmap Schema Ycsb Conc RWLock Memory Txs CaracalRow Caracal CaracalInit.

(** ** The methods of one worker *)
Section Worker.
Context `{BuildConfig}.
Context (E : Z) (W : gset addr) (f0 : addr -> ptr) (c : nat).
Hypothesis W_room : Z.of_nat (size W) + 64 <= NUM_REGIONS.
Hypothesis E_word : word32 E.
Hypothesis E_pos : 0 < E.
Hypothesis MAX_pos : 1 <= MAX_SLOTS_OF_PER_CORE_BUFFER.
Context (find : Z -> Z -> option addr) (rdtscp : CEnv -> Z) (table : Z).
Context (rehash : list (addr * core_buffer) -> list (addr * core_buffer)).
Hypothesis rehash_perm : forall m, rehash m ≡ₚ m.
Local Abbreviation Inv := (Inv E W f0).
Local Abbreviation local := (local E W f0 c).
Local Abbreviation R := (R E W f0 c).
Local Abbreviation G := (G E W f0 c).
Local Abbreviation A := (A E W f0 c).
Implicit Types (e : CEnv) (v : Value) (L : addr -> list (Z * ptr)) (P : CEnv -> Prop) (wk : Work) (s : Caracal)
  (m : list (addr * core_buffer)).

(** An action that keeps what the worker knows besides its own state. *)
Lemma rg_step {B} (m : M CEnv B) L wk P (L' : B -> addr -> list (Z * ptr)) (wk' : B -> Work) :
  grows P ->
  (forall e, local L wk e -> P e -> wp m (fun b e' => G e e' /\ local (L' b) (wk' b) e') e) ->
  rg R G (A L wk P) (act m) (fun b => A (L' b) (wk' b) P).
Proof.
  intros HP Hm. apply (rg_act_A_c E W f0 c m L wk P L' wk' (fun _ => P)); [done|]. intros e Hl Hpe.
  eapply wp_mono; [by apply Hm|]. intros b e' [HG Hl']. split_and!; [done|done|].
  apply (HP e); [done|]. apply (G_grew_c E W f0 c); [by eapply lo_inv|done].
Qed.

Lemma rg_now_c L wk P : grows P -> rg R G (A L wk P) (act (now rdtscp)) (fun _ => A L wk P).
Proof.
  intros HP. apply (rg_read_c E W f0 c _ L wk P (fun _ => P)); [done|]. intros e _ Hp. by eexists.
Qed.
Lemma rg_add_wait_c L wk P t t0 : grows P -> rg R G (A L wk P) (act (add_wait rdtscp t t0)) (fun _ => A L wk P).
Proof. intros HP. apply rg_stat_c; [done|]. intros e _ _. by eexists. Qed.
Lemma rg_assert L wk P b : grows P -> b = true -> rg R G (A L wk P) (act (assertM b)) (fun _ => A L wk P).
Proof.
  intros HP ->. apply (rg_read_c E W f0 c _ L wk P (fun _ => P)); [done|]. intros e _ Hp. exists tt.
  split; [|done]. unfold assertM, lift. by rewrite assert_true.
Qed.

(** What the methods need of the object, and what it says about the row buffers. *)
Definition worker_of s : Prop :=
  core_ s = Z.of_nat c /\ epoch_ s = E /\ 0 <= serial_id_ s < 4096 /\ serial_id_ s mod 64 = Z.of_nat c.
Definition entries m : gset addr := list_to_set m.*1.
Definition entry_ok (p : addr * core_buffer) e : Prop := has_buffer p.1 p.2.1 e /\ p.2.2 = Z.of_nat c.
Definition all_present e : Prop := forall a, a ∈ W -> present a e.
Definition known m e : Prop := all_present e /\ Forall (fun p => entry_ok p e) m.
Definition idle_work (sp : option nat) m : Work := mkWork None false sp None (entries m).
Definition AP s L : CEnv -> Prop := A L (idle_work (spare_buffer_ s) (appended_core_buffers_ s)) (known (appended_core_buffers_ s)).

Lemma grows_known m : grows (known m).
Proof.
  intros e e' [Hp Hm] Hg. split; [intros a Ha; apply (grows_present a e); [by apply Hp|done]|].
  eapply Forall_impl; [exact Hm|]. intros p [Hb ?]. split; [|done]. by apply (grows_has_buffer p.1 p.2.1 e).
Qed.
Lemma AP_stable_c s L : stable R (AP s L).
Proof. apply A_stable_c, grows_known. Qed.

(** [s'] differs from [s] only in its buffers. *)
Definition same_object s s' : Prop :=
  s' = set_spare_buffer (set_appended s (appended_core_buffers_ s')) (spare_buffer_ s').

Lemma entries_insert s a b :
  entries (appended_core_buffers_ (insert_core_buffer rehash s a b)) = {[a]} ∪ entries (appended_core_buffers_ s) /\
  same_object s (insert_core_buffer rehash s a b) /\
  spare_buffer_ (insert_core_buffer rehash s a b) = spare_buffer_ s /\
  (forall e, known (appended_core_buffers_ s) e -> entry_ok (a, b) e ->
     known (appended_core_buffers_ (insert_core_buffer rehash s a b)) e).
Proof.
  unfold insert_core_buffer, same_object, entries. case_decide as Hin.
  - split_and!; [set_solver|by destruct s|done|done].
  - cbn. split_and!; [|done|done|].
    + apply set_eq. intros x. rewrite elem_of_list_to_set, rehash_perm. cbn. set_solver.
    + intros e [Hp Hm] Hb. split; [done|]. rewrite rehash_perm. by constructor.
Qed.

Lemma rg_append_to_uncontended_row s L wk a P :
  worker_of s -> grows P -> (forall e, P e -> present a e) -> held wk = Some a -> a ∉ dirty wk ->
  Forall (fun q => q.1 < serial_id_ s) (L a) ->
  rg R G (A L wk P) (append_to_uncontended_row s a)
    (fun p e => is_Some p /\ A (record_write L a (serial_id_ s, p)) (with_held None wk) P e).
Proof.
  intros (Hc & He & Hs & Hm) HP Hpres Hh Hd Hlt. unfold append_to_uncontended_row.
  eapply rg_bind; [apply (rg_step _ L wk P (fun q => record_write L a (serial_id_ s, Some q)) (fun _ => wk)); [done|]|].
  { intros e Hl Hp. apply step_append_array; auto. }
  intros q; cbn beta. eapply rg_bind; [apply (rg_unlock_row_c E W f0 c _ wk a P); done|].
  intros []. apply rg_mret. intros e HA. split; [by eexists|done].
Qed.

Lemma rg_append_to_contented_row s L a g :
  worker_of s -> Forall (fun q => q.1 < serial_id_ s) (L a) ->
  rg R G (A L (idle_work (spare_buffer_ s) (appended_core_buffers_ s))
            (fun e => known (appended_core_buffers_ s) e /\ has_buffer a g e))
    (append_to_contented_row rdtscp rehash c s a (g, core_ s))
    (fun r e => (is_Some r.1 /\ same_object s r.2) /\ AP r.2 (record_write L a (serial_id_ s, r.1)) e).
Proof.
  intros (Hc & He & Hs & Hm) Hlt. unfold append_to_contented_row.
  set (wk := idle_work _ _). set (P := fun e => known (appended_core_buffers_ s) e /\ has_buffer a g e).
  assert (HP : grows P) by (apply grows_and; [apply grows_known|apply grows_has_buffer]).
  assert (Hpres : forall e, P e -> present a e) by (intros e [_ Hb]; by eapply has_buffer_present).
  eapply rg_bind; [apply (rg_step _ L wk P (fun r => record_write L a (serial_id_ s, Some r.1))
    (fun r => with_buffer a (if r.2 : bool then None else Some a) wk)); [done|]|].
  { intros e Hl [_ Hb]. by apply step_append_buffer. }
  intros [q [|]]; cbn beta iota; cbn [fst snd].
  - apply rg_mret. cbn [fst snd]. intros e [Hl [Hk Hb]].
    destruct (entries_insert s a (g, core_ s)) as (Hent & Hsame & Hspare & Hknown). split; [by split; [eexists|]|].
    split; [|by apply Hknown; [|split]]. unfold idle_work. rewrite Hent, Hspare. exact Hl.
  - eapply rg_bind; [by apply rg_now_c|]. intros t0; cbn beta.
    eapply rg_bind; [by apply (rg_lock_row E W f0 c _ (with_buffer a (Some a) wk) a P)|]. intros []; cbn beta.
    eapply rg_bind; [by apply rg_add_wait_c|]. intros []; cbn beta.
    eapply rg_bind; [apply (rg_step _ _ _ P (fun _ => record_write L a (serial_id_ s, Some q))
      (fun _ => without_buffer a (with_held (Some a) (with_buffer a (Some a) wk)))); [done|]|].
    { intros e Hl [_ Hb]. apply step_batch; auto. }
    intros []; cbn beta. eapply rg_bind; [by apply (rg_unlock_row_c E W f0 c _ _ a P)|]. intros []; cbn beta.
    apply rg_mret. cbn [fst snd]. intros e [Hl [Hk _]]. split; [split; [by eexists|by destruct s]|]. split; [|done].
    apply (local_dirty E W f0 c _ _ (entries (appended_core_buffers_ s)) _ Hl). cbn. set_solver.
Qed.

Lemma rg_conseq_pre {B} P P' (p : prog CEnv B) Q : rg R G P p Q -> (forall e, P' e -> P e) -> rg R G P' p Q.
Proof. intros Hp HP. by eapply rg_conseq. Qed.

Lemma rg_load_row_buffer L wk a P (Q : option nat -> CEnv -> Prop) :
  (forall b, grows (Q b)) -> (forall e, P e -> present a e) ->
  (forall e v, P e -> rows e !! a = Some v -> Q (row_buffer_ v) e) ->
  rg R G (A L wk P) (load_row_buffer a) (fun b => A L wk (Q b)).
Proof.
  intros HQ Hpres HP. apply (rg_read_c E W f0 c _ L wk P Q); [done|]. intros e _ Hp. destruct (Hpres e Hp) as [v Hv].
  exists (row_buffer_ v). split; [|by apply HP]. unfold load_row, derefM, lift, deref, mbind, M_bind, getM. by rewrite Hv.
Qed.

(** The buffer a worker installs: its spare one, or a new one. *)
Lemma rg_new_buffer s L P :
  grows P ->
  rg R G (A L (idle_work (spare_buffer_ s) (appended_core_buffers_ s)) P)
    (match spare_buffer_ s with
     | Some b => mret (b, set_spare_buffer s None)
     | None => b ← RowBufferController.fetch_new_buffer c; mret (b, s)
     end)
    (fun r e => r.2 = set_spare_buffer s None /\ A L (idle_work (Some r.1) (appended_core_buffers_ s)) P e).
Proof.
  intros HP. destruct (spare_buffer_ s) as [b|] eqn:Hsp; [by apply rg_mret|].
  eapply rg_bind; [by apply rg_fetch_new_buffer|]. intros b; cbn beta. apply rg_mret. intros e He.
  split; [destruct s; cbn in *; by subst|exact He].
Qed.

Lemma rg_try_install_new_buffer L m a g :
  a ∈ W ->
  rg R G (A L (idle_work (Some g) m) (known m)) (try_install_new_buffer a None g)
    (fun b => A L (idle_work (if b : bool then None else Some g) m)
       (fun e => known m e /\ exists g', has_buffer a g' e /\ (b = true -> g' = g))).
Proof.
  intros Ha. unfold try_install_new_buffer.
  assert (HQ : forall b : bool, grows (fun e => known m e /\ exists g', has_buffer a g' e /\ (b = true -> g' = g))).
  { intros b. apply grows_and; [apply grows_known|]. intros e e' (g' & Hb & Hg) Hgr. exists g'. split; [|done].
    by apply (grows_has_buffer a g' e). }
  eapply rg_bind; [apply rg_assert; [apply grows_known|done]|]. intros []; cbn beta.
  apply (rg_act_A_c E W f0 c _ L (idle_work (Some g) m) (known m) (fun _ => L)
    (fun b => idle_work (if b : bool then None else Some g) m)); [done|].
  intros e Hl Hk. pose proof (step_install_c E W f0 c W_room MAX_pos L _ a g None e eq_refl Hl (proj1 Hk a Ha) Ha eq_refl) as Hstep. eapply wp_mono; [exact Hstep|].
  intros b e' (HG & Hl' & Hb). split_and!; [done|by destruct b| |done].
  apply (grows_known m e); [done|]. apply (G_grew_c E W f0 c); [by eapply lo_inv|done].
Qed.

(** One pending version, appended to the row whatever path is taken. *)
Lemma rg_do_append_pending_version_c s L a :
  worker_of s -> a ∈ W -> Forall (fun q => q.1 < serial_id_ s) (L a) ->
  rg R G (AP s L) (do_append_pending_version rdtscp rehash c s a None)
    (fun r e => (is_Some r.1 /\ same_object s r.2) /\ AP r.2 (record_write L a (serial_id_ s, r.1)) e).
Proof.
  intros Hw Ha Hlt. unfold do_append_pending_version, AP at 1. set (m := appended_core_buffers_ s).
  assert (Hgk : grows (known m)) by apply grows_known.
  assert (Hpres : forall e, known m e -> present a e) by (intros e [Hp _]; by apply Hp).
  eapply rg_bind; [by apply rg_assert|]. intros []; cbn beta.
  eapply rg_bind; [apply (rg_load_row_buffer L _ a (known m)
    (fun b e => known m e /\ match b with Some g => has_buffer a g e | None => a ∉ entries m end)); [|done|]|].
  { intros [g|]; (apply grows_and; [done|]); [apply grows_has_buffer|apply grows_pure]. }
  { intros e v Hk Hv. split; [done|]. destruct (row_buffer_ v) as [g|] eqn:Hg; [by exists v|].
    intros ([x b] & -> & Hin)%elem_of_list_to_set%list_elem_of_fmap. destruct Hk as [_ Hm]. rewrite Forall_forall in Hm.
    destruct (Hm _ Hin) as [(v' & Hv' & Hb) _]. cbn in Hv', Hv. congruence. }
  intros [g|]; cbn beta iota.
  { by apply rg_append_to_contented_row. }
  apply rg_conseq_pre with (P := fun e => (a ∉ entries m) /\ AP s L e); [|by intros e (? & ? & ?)].
  apply rg_pure. intros Hm. eapply rg_bind; [by apply (rg_try_lock_row_c E W f0 c L _ a (known m))|].
  intros [|]; cbn beta iota.
  { eapply rg_bind; [by apply (rg_append_to_uncontended_row s L (with_held (Some a) (idle_work (spare_buffer_ s) m)) a (known m))|].
    intros p; cbn beta. apply rg_mret. intros e [Hp HA]. split; [|exact HA]. split; [done|by destruct s]. }
  eapply rg_bind; [by apply rg_new_buffer|]. intros [g s1]; cbn beta iota. apply rg_pure. cbn [fst snd]. intros ->.
  eapply rg_bind; [by apply rg_try_install_new_buffer|]. intros [|]; cbn beta iota.
  - eapply rg_conseq; [apply (rg_append_to_contented_row (set_spare_buffer s None) L a g); done| |].
    + intros e (Hl & Hk & g' & Hb & Hg). rewrite Hg in Hb by done. done.
    + intros r e ((Hp & Hsame) & HA). split; [|done]. split; [done|]. by rewrite Hsame.
  - eapply rg_bind; [apply (rg_load_row_buffer L _ a _ (fun b e => known m e /\ exists g', b = Some g' /\ has_buffer a g' e))|].
    { intros b. apply grows_and; [done|]. intros e e' (g' & ? & Hb) Hgr. exists g'. split; [done|].
      by apply (grows_has_buffer a g' e). }
    { intros e [Hk _]. auto. }
    { intros e v (Hk & g' & (v' & Hv' & Hb) & _) Hv. split; [done|]. assert (v' = v) as -> by congruence.
      exists g'. split; [done|]. by exists v. }
    intros b; cbn beta. apply rg_conseq_pre with (P := fun e => exists g', b = Some g' /\
        A L (idle_work (Some g) m) (fun e => known m e /\ has_buffer a g' e) e).
    2: { intros e (Hl & Hk & g' & -> & Hb). by exists g'. }
    apply rg_exists. intros g'. apply rg_pure. intros ->.
    assert (HP : grows (fun e => known m e /\ has_buffer a g' e)) by (apply grows_and; [done|apply grows_has_buffer]).
    eapply rg_bind; [apply (rg_read_c E W f0 c _ L _ _ (fun b e => b = g' /\ (known m e /\ has_buffer a g' e)))|].
    { intros b. by apply grows_and; [apply grows_pure|]. }
    { intros e _ Hp. by exists g'. }
    intros b; cbn beta. apply rg_conseq_pre with (P := fun e => b = g' /\
      A L (idle_work (Some g) m) (fun e => known m e /\ has_buffer a g' e) e); [|by intros e (? & ? & ?)].
    apply rg_pure. intros ->.
    eapply rg_conseq; [apply (rg_append_to_contented_row (set_spare_buffer s (Some g)) L a g'); done|done|].
    intros r e ((Hp & Hsame) & HA). split; [|done]. split; [done|]. by rewrite Hsame.
Qed.

(** ** Appending for one operation *)
Definition insert_table s : Caracal := set_tables s ({[table]} ∪ tables s).

Lemma rg_append_pending_version_c s L a key :
  worker_of s -> find table key = Some a -> a ∈ W -> key ∉ get_table s table ->
  Forall (fun q => q.1 < serial_id_ s) (L a) ->
  rg R G (AP s L) (append_pending_version find rdtscp rehash c s table key None)
    (fun r e => (is_Some r.1 /\ same_object (set_table (insert_table s) table (get_table s table ++ [key])) r.2) /\
       AP r.2 (record_write L a (serial_id_ s, r.1)) e).
Proof.
  intros Hw Hf Ha Hk Hlt. unfold append_pending_version.
  eapply rg_bind; [apply rg_assert; [apply grows_known|]|].
  { destruct Hw as (_ & -> & _). by apply Z.ltb_lt. }
  intros []; cbn beta. change (get_table (set_tables s ({[table]} ∪ tables s)) table) with (get_table s table).
  rewrite decide_False by done. rewrite Hf. cbn beta iota zeta. fold (insert_table s).
  eapply rg_bind; [by apply (rg_do_append_pending_version_c (insert_table s) L a)|].
  intros [p s']; cbn beta iota. apply rg_pure. cbn [fst snd]. intros [Hp Hsame].
  eapply rg_bind; [apply rg_assert; [apply grows_known|by apply nonnull_Some]|]. intros []; cbn beta.
  apply rg_mret. cbn [fst snd]. intros e HA. split; [|exact HA]. split; [done|]. by rewrite Hsame.
Qed.

(** ** Merging what is left in the buffers *)
Lemma entries_remove m itr a b :
  m !! itr = Some (a, b) -> entries m ∖ {[a]} ⊆ entries (take itr m ++ drop (S itr) m).
Proof.
  intros Hm x [Hx Hne]%elem_of_difference. unfold entries in *. rewrite elem_of_list_to_set in *.
  rewrite <- (take_drop_middle m itr (a, b) Hm), fmap_app in Hx. rewrite fmap_app. csimpl in Hx. set_solver.
Qed.

Lemma known_remove m itr e : known m e -> known (take itr m ++ drop (S itr) m) e.
Proof.
  intros [Hp Hm]. split; [done|]. apply Forall_app. split; [by apply Forall_take|by apply Forall_drop].
Qed.

Definition AF (sp : option nat) L m : CEnv -> Prop := A L (idle_work sp m) (known m).

Lemma rg_finalize_step s sp L m itr :
  core_ s = Z.of_nat c -> epoch_ s = E ->
  rg R G (AF sp L m) (finalize_step rdtscp c s (m, itr))
    (fun r => match r with inl (m', _) => AF sp L m' | inr m' => AF sp L m' end).
Proof.
  intros Hc He. unfold finalize_step. destruct (m !! itr) as [[a [g core]]|] eqn:Hm; [|by apply rg_mret].
  eapply rg_bind; [apply rg_now_c; apply grows_known|]. intros t0; cbn beta.
  assert (Hin : forall e, known m e -> has_buffer a g e /\ core = Z.of_nat c).
  { intros e [_ Hk]. rewrite Forall_lookup in Hk. by apply (Hk itr (a, (g, core))). }
  assert (Hpres : forall e, known m e -> present a e) by (intros e He'; by eapply has_buffer_present, Hin).
  eapply rg_bind; [by apply (rg_try_lock_row_c E W f0 c L _ a (known m)); [apply grows_known|..]|].
  intros [|]; cbn beta iota.
  - eapply rg_bind; [apply (rg_step _ L _ (known m) (fun _ => L)
      (fun _ => without_buffer a (with_held (Some a) (idle_work sp m)))); [apply grows_known|]|].
    { intros e Hl Hk. destruct (Hin e Hk) as [Hb ->]. rewrite <- Hc. apply step_batch; auto. }
    intros []; cbn beta. eapply rg_bind; [by apply (rg_unlock_row_c E W f0 c _ _ a (known m)); [apply grows_known|..]|].
    intros []; cbn beta. apply rg_mret. intros e [Hl Hk]. split; [|by apply known_remove].
    apply (local_dirty E W f0 c _ _ (entries (take itr m ++ drop (S itr) m)) _ Hl).
    cbn. by eapply entries_remove.
  - eapply rg_bind; [apply rg_add_wait_c; apply grows_known|]. intros []; cbn beta. by apply rg_mret.
Qed.

Lemma rg_finalize_batch_append s L :
  core_ s = Z.of_nat c -> epoch_ s = E ->
  rg R G (AP s L) (finalize_batch_append_optimized rdtscp c s)
    (fun s' e => s' = set_appended s [] /\ AP s' L e).
Proof.
  intros Hc He. unfold finalize_batch_append_optimized. set (sp := spare_buffer_ s).
  assert (Hst : forall m, stable R (AF sp L m)) by (intros m; apply A_stable_c, grows_known).
  eapply rg_bind with (Q := fun m e => m = [] /\ AF sp L m e).
  - apply (rg_iter R G (AF sp L)); [done|]. intros [|x m].
    { apply rg_mret. intros e HA. by split. }
    eapply rg_bind with (Q := fun m' => AF sp L m'); [|intros m'; by apply rg_mret].
    apply (rg_iter R G (fun c => AF sp L c.1) (x :: m, 0%nat)); [by intros []|].
    intros [m' itr]. eapply rg_conseq; [by apply rg_finalize_step|done|]. by intros [[m'' itr']|m''] e.
  - intros m; cbn beta. apply rg_pure. intros ->. apply rg_mret. intros e HA. by split.
Qed.

(** ** The transactions of the worker *)
Lemma get_table_terminate_c s :
  table ∈ tables s \/ get_table s table = [] -> get_table (terminate_transaction s) table = [].
Proof.
  intros Hs. unfold get_table at 1, terminate_transaction. simpl. rewrite lookup_cleared.
  case_decide; [done|]. by destruct Hs.
Qed.
Lemma get_set_table_c s l : get_table (set_table s table l) table = l.
Proof. unfold get_table, set_table. cbn. by rewrite lookup_insert_eq. Qed.

Definition ready s : Prop := worker_of s /\ (table ∈ tables s \/ get_table s table = []).
(** What a worker's object is between two transactions. *)
Definition idle s : Prop := get_table s table = [] /\ core_ s = Z.of_nat c /\ epoch_ s = E.
Definition start s (i : Z) : Caracal := set_serial_id s (i * 64 + Z.of_nat c).
Local Abbreviation append := (fun s => append_pending_version find rdtscp rehash c s table).

Lemma rg_append_c L s a key :
  ready s -> find table key = Some a -> a ∈ W -> key ∉ get_table s table ->
  Forall (fun q => q.1 < serial_id_ s) (L a) ->
  rg R G (AP s L) (append s key None)
    (fun r e => (is_Some r.1 /\ ready r.2 /\ serial_id_ r.2 = serial_id_ s /\
        get_table r.2 table = get_table s table ++ [key]) /\
       AP r.2 (record_write L a (serial_id_ s, r.1)) e).
Proof.
  intros [Hw Htab] Hf Ha Hk Hlt. eapply rg_conseq; [by apply (rg_append_pending_version_c s L a key)|done|].
  intros [p s'] e [[Hp Hsame] HA]. cbn [fst snd] in *. split; [|done].
  pose proof (f_equal core_ Hsame) as H1. pose proof (f_equal serial_id_ Hsame) as H2. pose proof (f_equal epoch_ Hsame) as H3.
  pose proof (f_equal tables Hsame) as H4. pose proof (f_equal ws Hsame) as H5. cbn in H1, H2, H3, H4, H5.
  split_and!; [done| |done|].
  - unfold ready, worker_of. rewrite H1, H2, H3, H4. split; [done|]. left. set_solver.
  - unfold get_table at 1. rewrite H5. by rewrite lookup_insert_eq.
Qed.

Lemma initialize_txs_eq txs head n : forall i s,
  initialize_txs find rdtscp rehash c table (Z.of_nat c) head i n s txs
  = initialize_all append start terminate_transaction (fun i => head + i * 64 + Z.of_nat c) txs s (seqZ i (Z.of_nat n)).
Proof.
  induction n as [|n IH]; intros i s; [done|].
  rewrite seqZ_cons by lia. cbn [initialize_txs initialize_all].
  unfold tx_at, mbind, prog_mbind. cbn [act prog_bind]. f_equal.
  apply functional_extensionality. intros tx. f_equal.
  apply functional_extensionality. intros [ops s']. rewrite IH.
  by replace (Z.pred (Z.of_nat (S n))) with (Z.of_nat n) by lia.
Qed.

Local Abbreviation N := NUM_TXS_IN_ONE_EPOCH_IN_ONE_CORE.
(** The serials the worker is given, in the order it takes them. *)
Definition core_serials : list Z := (fun i => i * 64 + Z.of_nat c) <$> seqZ 0 N.

Hypothesis find_inj : forall k1 k2 a, is_key k1 -> is_key k2 ->
  find table k1 = Some a -> find table k2 = Some a -> k1 = k2.

Lemma rg_initialization_phase_c txs head s :
  idle s -> appended_core_buffers_ s = [] -> (c < 64)%nat -> 0 <= head -> 0 <= N <= 64 ->
  txs_ready find table W txs head core_serials ->
  rg R G (AP s (fun _ => []))
    (do_initialization_phase find rdtscp rehash c table (Z.of_nat c) head s txs)
    (fun r e => exists L, ((forall a, ids (L a) = written_serials find table (assigned txs head core_serials) a) /\
       all_installed find table L (assigned txs head core_serials) r.1 /\
       idle r.2 /\ appended_core_buffers_ r.2 = []) /\ AP r.2 L e).
Proof.
  intros Hidle Happ Hc Hh HN Hready. unfold do_initialization_phase. rewrite initialize_txs_eq, Z2Nat.id by lia.
  eapply rg_bind; [eapply rg_conseq; [apply (rg_initialize_all find table W R G serial_id_ (fun s => get_table s table) ready AP append)
    with (fits := fun _ => True) (serial_of := fun i => i * 64 + Z.of_nat c) (between := idle) (valid := fun i => 0 <= i < 64) (b := assigned txs head core_serials)|done|]|].
  - apply AP_stable_c.
  - intros e. apply G_refl_c.
  - done.
  - done.
  - intros L s1 a key ????? _. by apply rg_append_c.
  - intros s1 i (Hb1 & Hc1 & He1) Hi. unfold ready, worker_of. cbn.
    split_and!; [done|done|lia|lia| |by right|done|done]. rewrite Z.add_comm, Z.mod_add by lia. apply Z.mod_small. lia.
  - intros s1 [(Hc1 & He1 & _) Htab]. split_and!; [by apply get_table_terminate_c|done|done].
  - done.
  - done.
  - done.
  - apply Forall_forall. intros i Hi%elem_of_seqZ. lia.
  - apply sorted_fmap; [|apply sorted_seqZ]. intros; lia.
  - pose proof (assigned_ready find table W txs head core_serials Hready) as Hall.
    unfold core_serials at 1 in Hall. rewrite Forall2_fmap_l in Hall.
    apply Forall2_same_length_lookup in Hall as [Hlen Hall]. apply Forall2_same_length_lookup. split; [done|].
    intros k i st Hi Hst. destruct (Hall k i st Hi Hst) as (Hs & Htx & Happl). apply lookup_seqZ in Hi as [-> Hk].
    split_and!; [lia| |done|done]. rewrite <- Htx. f_equal. lia.
  - intros a i _. constructor.
  - done.
  - intros r e HL. exact HL.
  - intros [outs s1]; cbn beta iota. apply rg_exists. intros L. apply rg_pure. cbn [fst snd]. intros (Hids & Hinst & Hb & Hc1 & He1).
    eapply rg_bind; [by apply (rg_finalize_batch_append s1 L)|]. intros s2; cbn beta. apply rg_mret. cbn [fst snd].
    intros e [-> HA]. exists L. split; [|done]. split_and!; try done. intros a. by destruct (Hids a) as [_ ->].
Qed.
End Worker.

(** ** All workers *)
Section Phase.
Context `{BuildConfig}.
Context (find : Z -> Z -> option addr) (rdtscp : CEnv -> Z) (table : Z).
Context (rehash : list (addr * core_buffer) -> list (addr * core_buffer)).
Context (E : Z) (W : gset addr).
Local Abbreviation rows_written := (rows_written find table).
Local Abbreviation N := NUM_TXS_IN_ONE_EPOCH_IN_ONE_CORE.
Local Abbreviation start_id := (epoch_start_id E).

(** The final state of a row before the epoch: the last version of its array. *)
Definition final_of (e : CEnv) (a : addr) : ptr :=
  match rows e !! a with Some v => from_option snd None (last (slots v)) | None => None end.

(** The shared state at the start of epoch [E]: well formed, all latches free,
    nothing of the epoch in an array or a buffer yet. *)
Definition epoch_start (e : CEnv) : Prop :=
  Inv E W (final_of e) e /\ holder (lock_ e) = None /\ all_present W e /\
  forall a v, rows e !! a = Some v ->
    holder (rwl v) = None /\ Forall (fun q => q.1 < start_id) (slots v) /\ forall c, own_buffer c e v = [].

(** The transactions of the epoch: serial [s] is [txs[head + s]]; each worker is given [N] of them. *)
Definition in_epoch (s : Z) : Prop := 0 <= s < 4096 /\ s / 64 < N.
Definition epoch_txs_ok (txs : list OperationSet) (head : Z) : Prop :=
  0 <= head /\ 0 <= N <= 64 /\
  forall s, in_epoch s -> exists tx, txs !! Z.to_nat (head + s) = Some tx /\
    appendable find table W (rw_set_ tx) (w_set_ tx).

(** Serial [s] writes row [a]. *)
Definition writes (txs : list OperationSet) (head s : Z) (a : addr) : Prop :=
  in_epoch s /\ writes_row find table txs head s a.
#[global] Instance writes_dec txs head s a : Decision (writes txs head s a).
Proof. unfold writes, in_epoch. apply _. Defined.

(** The versions of the current epoch in the array of row [a], with their serials. *)
Definition epoch_history (e : CEnv) (a : addr) : list (Z * ptr) :=
  match rows e !! a with
  | Some v => (fun p => (p.1 - start_id, p.2)) <$> filter (fun p => start_id <= p.1) (slots v)
  | None => []
  end.

(** What the phase leaves behind. *)
Record epoch_initialized (e0 e : CEnv) (txs : list OperationSet) (head : Z) : Prop := {
  ei_inv : Inv E W (final_of e0) e;
  ei_rows : forall a, is_Some (rows e !! a) <-> is_Some (rows e0 !! a);
  ei_latches : holder (lock_ e) = None /\ forall a v, rows e !! a = Some v -> holder (rwl v) = None;
  ei_buffers : forall a v c, rows e !! a = Some v -> own_buffer c e v = [];
  ei_history : forall a v, rows e !! a = Some v ->
    ids (epoch_history e a) = filter (fun s => writes txs head s a) (seqZ 0 4096) /\
    Forall (fun q => pending_ptr e q.2) (epoch_history e a)
}.

Lemma elem_of_core_serials_c c s :
  (c < 64)%nat -> 0 <= N <= 64 -> s ∈ core_serials c <-> in_epoch s /\ s mod 64 = Z.of_nat c.
Proof.
  intros Hc HN. unfold core_serials, in_epoch. rewrite list_elem_of_fmap. setoid_rewrite elem_of_seqZ.
  pose proof (Z.div_mod s 64). pose proof (Z.mod_pos_bound s 64). split.
  - intros (i & -> & Hi). rewrite Z.div_add_l, Z.add_comm, Z.mod_add, (Z.mod_small (Z.of_nat c)), (Z.div_small (Z.of_nat c)) by lia. lia.
  - intros [Hs Hm]. exists (s / 64). lia.
Qed.

Lemma core_ready_c txs head c :
  epoch_txs_ok txs head -> (c < 64)%nat -> txs_ready find table W txs head (core_serials c).
Proof.
  intros (Hh & HN & Hok) Hc. apply Forall_forall.
  intros s [Hs _]%elem_of_core_serials_c; [|done..]. by apply Hok.
Qed.

(** A worker's own writes are the writes of its serials. *)
Lemma elem_of_own_serials_c txs head c a x :
  epoch_txs_ok txs head -> (c < 64)%nat ->
  x ∈ written_serials find table (assigned txs head (core_serials c)) a <->
  writes txs head x a /\ x mod 64 = Z.of_nat c.
Proof.
  intros (_ & HN & _) Hc. rewrite elem_of_assigned_serials, elem_of_core_serials_c by done. unfold writes. tauto.
Qed.

(** ** The parallel run *)
Definition workers (txs : list OperationSet) (head : Z) (s : nat -> Caracal)
  : list (prog CEnv (list OperationSet * Caracal)) :=
  (fun c => do_initialization_phase find rdtscp rehash c table (Z.of_nat c) head (s c) txs) <$> seq 0 64.

Section Run.
Context (txs : list OperationSet) (head : Z) (s : nat -> Caracal) (e0 : CEnv).
Hypothesis start : epoch_start e0.
Hypothesis room : Z.of_nat (size W) + 64 <= NUM_REGIONS.
Hypothesis E_word : word32 E.
Hypothesis E_pos : 0 < E.
Hypothesis MAX_pos : 1 <= MAX_SLOTS_OF_PER_CORE_BUFFER.
Hypothesis rehash_perm : forall m, rehash m ≡ₚ m.
Hypothesis find_inj : forall k1 k2 a, is_key k1 -> is_key k2 ->
  find table k1 = Some a -> find table k2 = Some a -> k1 = k2.
Hypothesis txs_ok : epoch_txs_ok txs head.
Hypothesis workers_ok : forall c, (c < 64)%nat ->
  idle E c table (s c) /\ appended_core_buffers_ (s c) = [] /\
  forall g, spare_of c e0 g <-> spare_buffer_ (s c) = Some g.
Local Abbreviation f0 := (final_of e0).

Definition pre (c : nat) (e : CEnv) : Prop := AP E W f0 c (s c) (fun _ => []) e.
Definition post (c : nat) (r : list OperationSet * Caracal) (e : CEnv) : Prop :=
  exists L, ((forall a, ids (L a) = written_serials find table (assigned txs head (core_serials c)) a) /\
    all_installed find table L (assigned txs head (core_serials c)) r.1 /\
    idle E c table r.2 /\ appended_core_buffers_ r.2 = []) /\
    AP E W f0 c r.2 L e.

Lemma pre_start_c c : (c < 64)%nat -> pre c e0.
Proof.
  intros Hc. destruct start as (Hi & Hl & Hp & Hrows). destruct (workers_ok c Hc) as (_ & Ha & Hs).
  unfold pre, AP. rewrite Ha. split; [|by split]. constructor; cbn; try done; [by rewrite Hl|].
  intros a v Hv. destruct (Hrows a v Hv) as (Hh & Hold & Hb).
  assert (own_array E c v = []) as Ho.
  { apply filter_none. eapply Forall_impl; [exact Hold|]. intros q Hq [Hge _]. cbn in Hq. lia. }
  constructor; cbn; rewrite ?Hb, ?Hh, ?Ho; try done.
  - right. cbn. lia.
  - split; [done|constructor].
Qed.

Lemma worker_rg_c c : (c < 64)%nat ->
  rg (R E W f0 c) (G E W f0 c) (pre c)
    (do_initialization_phase find rdtscp rehash c table (Z.of_nat c) head (s c) txs) (post c).
Proof.
  intros Hc. pose proof txs_ok as (Hh & HN & _). destruct (workers_ok c Hc) as (Hid & Ha & _).
  by apply rg_initialization_phase_c; try done; apply core_ready_c.
Qed.

(** What a worker that is through knows about the rows. *)
Lemma post_rows c r e a v :
  (c < 64)%nat -> post c r e -> rows e !! a = Some v ->
  own_buffer c e v = [] /\ holder (rwl v) <> Some c /\
  exists l, own_array E c v = buffered E l /\ Forall (fun q => 0 <= q.1 < 4096) l /\
    forall x, x ∈ ids l <-> writes txs head x a /\ x mod 64 = Z.of_nat c.
Proof.
  intros Hc (L & (Hids & _ & _ & Happ) & [Hl _]) Hv. destruct (lo_row _ _ _ _ _ _ _ Hl a v Hv) as [M1 M2 M3 M4 [M5 _]].
  rewrite Happ in *. assert (Hb : own_buffer c e v = []).
  { destruct (own_buffer c e v) eqn:Hb; [done|]. by assert (a ∈ (∅ : gset addr)) as ?%not_elem_of_empty by by apply M3. }
  rewrite Hb, app_nil_r in M2. split_and!; [done|by rewrite M1|]. exists (L a). split_and!; [done..|].
  intros x. rewrite Hids. by apply elem_of_own_serials_c.
Qed.

Lemma own_history e a v x :
  Inv E W f0 e -> rows e !! a = Some v ->
  x ∈ ids (epoch_history e a) <-> exists p, p ∈ own_array E (Z.to_nat (x mod 64)) v /\
    0 <= x < 4096 /\ p.1 = convert_to_serial_id_with_epoch E x.
Proof.
  intros Hi Hv. pose proof (ri_slots _ _ _ _ _ _ (inv_row _ _ _ _ Hi a v Hv)) as Hs. rewrite Forall_forall in Hs.
  unfold epoch_history, own_array. rewrite Hv. unfold ids. rewrite <- list_fmap_compose, list_elem_of_fmap. cbn.
  setoid_rewrite list_elem_of_filter. split.
  - intros (p & -> & Hge & Hp). specialize (Hs p Hp). rewrite decide_True in Hs by done.
    destruct Hs as (y & Hy & Heq & _). destruct (gid_eq E y E_word Hy) as [Hg Hm]. exists p.
    replace (p.1 - start_id) with y by lia. pose proof (Z.mod_pos_bound y 64).
    split_and!; [done|by rewrite Heq, Hm, Z2Nat.id by lia|done|lia|lia|done].
  - intros (p & ((Hge & Hm) & Hp) & Hx & Heq). exists p. destruct (gid_eq E x E_word Hx) as [Hg _].
    split_and!; [rewrite Heq, Hg; lia|done|done].
Qed.

Lemma history_ascending e a v :
  Inv E W f0 e -> rows e !! a = Some v -> StronglySorted Z.lt (ids (epoch_history e a)).
Proof.
  intros Hi Hv. unfold epoch_history. rewrite Hv.
  assert (Heq : forall l : list (Z * ptr), ids ((fun p => (p.1 - start_id, p.2)) <$> l) = (fun z => z - start_id) <$> ids l).
  { intros l. unfold ids. by rewrite <- !list_fmap_compose. }
  rewrite Heq. apply sorted_fmap; [intros; lia|].
  apply ascending_filter, (ri_sorted _ _ _ _ _ _ (inv_row _ _ _ _ Hi a v Hv)).
Qed.

(** Once every worker is through. *)
Lemma all_posts_c e :
  (forall c, (c < 64)%nat -> exists r, post c r e) ->
  (forall a, is_Some (rows e !! a) <-> is_Some (rows e0 !! a)) -> epoch_initialized e0 e txs head.
Proof.
  intros Hpost Hdom. assert (Hi : Inv E W f0 e).
  { destruct (Hpost 0%nat) as (r & L & _ & Hl & _); [lia|]. by eapply lo_inv. }
  assert (Hrow : forall c a v, (c < 64)%nat -> rows e !! a = Some v -> own_buffer c e v = [] /\ holder (rwl v) <> Some c /\
    exists l, own_array E c v = buffered E l /\ Forall (fun q => 0 <= q.1 < 4096) l /\
      forall x, x ∈ ids l <-> writes txs head x a /\ x mod 64 = Z.of_nat c).
  { intros c a v Hc Hv. destruct (Hpost c Hc) as [r Hr]. by eapply post_rows. }
  assert (Hh : forall l, lock_ok 64 l -> (forall c, (c < 64)%nat -> holder l <> Some c) -> holder l = None).
  { intros l (_ & _ & Hl) Hne. destruct (holder l) as [c|]; [|done]. destruct Hl as [Hc _]. by apply Hne in Hc. }
  constructor; [done|done| | |].
  - split.
    + apply Hh; [apply Hi|]. intros c Hc. destruct (Hpost c Hc) as (r & L & _ & Hl & _).
      intros Heq. by apply (lo_rrc _ _ _ _ _ _ _ Hl) in Heq.
    + intros a v Hv. apply Hh; [by apply (ri_lock _ _ _ _ _ _ (inv_row _ _ _ _ Hi a v Hv))|].
      intros c Hc. by apply (Hrow c a v).
  - intros a v c Hv. destruct (decide (c < 64)%nat) as [Hc|Hc]; [by apply (Hrow c a v)|].
    unfold own_buffer, buffer_of. destruct (row_buffer_ v) as [g|] eqn:Hg; [|done]. simpl.
    destruct (ri_buffer _ _ _ _ _ _ (inv_row _ _ _ _ Hi a v Hv) g Hg) as (_ & _ & r & -> & Hb).
    rewrite lookup_ge_None_2; [done|]. rewrite (bo_length _ _ _ Hb). lia.
  - intros a v Hv. split.
    + apply sorted_ext; [by eapply history_ascending|apply sorted_filter, sorted_seqZ|].
      intros x. rewrite (own_history e a v x Hi Hv), list_elem_of_filter, elem_of_seqZ.
      assert (Hc : (Z.to_nat (x mod 64) < 64)%nat) by (pose proof (Z.mod_pos_bound x 64); lia).
      assert (Hm : x mod 64 = Z.of_nat (Z.to_nat (x mod 64))) by (pose proof (Z.mod_pos_bound x 64); lia).
      destruct (Hrow (Z.to_nat (x mod 64)) a v Hc Hv) as (_ & _ & l & -> & Hser & Hl). split.
      * intros (p & (q & -> & Hq)%list_elem_of_fmap & Hx & Heq). rewrite Forall_forall in Hser. specialize (Hser q Hq).
        cbn in Heq. destruct (gid_eq E q.1 E_word Hser) as [Hg _], (gid_eq E x E_word Hx) as [Hg' _].
        assert (q.1 = x) as Hqx by lia. split; [|lia]. apply (Hl x). rewrite <- Hqx. by apply list_elem_of_fmap_2.
      * intros [Hw Hx]. assert (x ∈ ids l) as (q & -> & Hq)%list_elem_of_fmap by by apply Hl.
        exists (convert_to_serial_id_with_epoch E q.1, q.2). split_and!; [|lia|lia|done]. apply list_elem_of_fmap. by exists q.
    + unfold epoch_history. rewrite Hv. apply Forall_fmap, Forall_forall. intros p [Hge Hp]%list_elem_of_filter.
      pose proof (ri_slots _ _ _ _ _ _ (inv_row _ _ _ _ Hi a v Hv)) as Hs. rewrite Forall_forall in Hs.
      specialize (Hs p Hp). rewrite decide_True in Hs by done. by destruct Hs as (_ & _ & _ & ?).
Qed.

(** The pending versions handed to the operations are those the rows record. *)
Lemma post_installed_c c r e :
  (c < 64)%nat -> post c r e ->
  all_installed find table (epoch_history e) (assigned txs head (core_serials c)) r.1.
Proof.
  intros Hc (L & (_ & Hinst & _ & Happ) & [Hl [Hp _]]).
  assert (Hsub : forall a, a ∈ W -> L a ⊆ epoch_history e a).
  { intros a Ha x Hx. destruct (Hp a Ha) as [v Hv]. rewrite Happ in Hl.
    destruct (lo_row _ _ _ _ _ _ _ Hl a v Hv) as [M1 M2 M3 M4 [M5 _]].
    assert (own_buffer c e v = []) as Hb.
    { destruct (own_buffer c e v); [done|]. by assert (a ∈ (∅ : gset addr)) as ?%not_elem_of_empty by by apply M3. }
    rewrite Hb, app_nil_r in M2. unfold epoch_history. rewrite Hv. apply list_elem_of_fmap.
    assert ((convert_to_serial_id_with_epoch E x.1, x.2) ∈ own_array E c v) as Hin
      by (rewrite M2; apply list_elem_of_fmap; by exists x).
    apply list_elem_of_filter in Hin as [[Hge _] Hin]. eexists. split; [|apply list_elem_of_filter; split; [exact Hge|exact Hin]].
    rewrite Forall_forall in M5. destruct (gid_eq E x.1 E_word (M5 x Hx)) as [Hg _]. cbn. rewrite Hg.
    destruct x. cbn. f_equal. lia. }
  apply (assigned_installed_mono find table W L); [done|by apply core_ready_c|done].
Qed.

(** No row appears or disappears. *)
Lemma steps_rows_c e1 e2 :
  Inv E W f0 e1 -> steps (G E W f0) e1 e2 -> forall a, is_Some (rows e2 !! a) <-> is_Some (rows e1 !! a).
Proof.
  intros Hi Hs. induction Hs as [|e1 e2 e3 [c HG] _ IH]; [done|]. intros a.
  destruct (HG Hi) as [Hi2 Hk]. rewrite (IH Hi2). destruct (Hk (S c) ltac:(lia)) as [K1 K2 _ _ _]. split.
  - destruct (rows e1 !! a) as [v|] eqn:Hv; [by eexists|]. rewrite K2 by done. by intros [].
  - intros [v Hv]. destruct (K1 a v Hv) as (v' & Hv' & _). by exists v'.
Qed.

Lemma run_workers_c sched :
  exists pool' e, run_schedule sched (workers txs head s) e0 = Ok (pool', e) /\
    length pool' = 64%nat /\ (forall c r, pool' !! c = Some (Ret r) -> post c r e) /\
    forall a, is_Some (rows e !! a) <-> is_Some (rows e0 !! a).
Proof.
  destruct (rg_parallel (R E W f0) (G E W f0) (R_refl_c E W f0) (R_trans_c E W f0)
    (fun i j e e' => G_R_c E W f0 i j e e') (workers txs head s) pre post e0) with (sched := sched)
    as (pool' & e & Hrun & Hlen & Hsteps & Hpost).
  - intros c p Hp. unfold workers in Hp. rewrite list_lookup_fmap in Hp.
    apply fmap_Some in Hp as (c' & [-> Hc]%lookup_seq & ->).
    split_and!; [by apply pre_start_c|apply AP_stable_c|by apply worker_rg_c].
  - exists pool', e. split_and!; [done| |done|].
    + rewrite Hlen. unfold workers. by rewrite length_fmap, length_seq.
    + apply (steps_rows_c e0 e); [apply start|done].
Qed.

(** The phase, from its start to its end. *)
Lemma initialization_phase_runs_c sched :
  exists pool' e, run_schedule sched (workers txs head s) e0 = Ok (pool', e) /\
    (all_done pool' -> epoch_initialized e0 e txs head) /\
    (forall c outs s', pool' !! c = Some (Ret (outs, s')) ->
       all_installed find table (epoch_history e) (assigned txs head (core_serials c)) outs /\
       idle E c table s' /\ appended_core_buffers_ s' = [] /\
       forall g, spare_of c e g <-> spare_buffer_ s' = Some g).
Proof.
  destruct (run_workers_c sched) as (pool' & e & Hrun & Hlen & Hpost & Hdom).
  exists pool', e. split_and!; [done| |].
  - intros Hdone. apply all_posts_c; [|done]. intros c Hc.
    destruct (lookup_lt_is_Some_2 pool' c) as [p Hp]; [lia|]. unfold all_done in Hdone.
    rewrite Forall_lookup in Hdone. specialize (Hdone c p Hp). destruct p as [r| |]; [|done|done].
    exists r. by apply Hpost.
  - intros c outs s' Hc. assert ((c < 64)%nat) by (apply lookup_lt_Some in Hc; lia).
    pose proof (Hpost c (outs, s') Hc) as Hp. split.
    + by apply (post_installed_c c (outs, s') e).
    + destruct Hp as (L & (_ & _ & Hb & Ha) & [Hl _]). split_and!; [done|done|]. intros g.
      apply (lo_spare _ _ _ _ _ _ _ Hl).
Qed.
End Run.
End Phase.

(** C17. Caracal's initialisation phase is correct under every interleaving: from
    the start of an epoch, whatever schedule the 64 workers run under, no
    assertion fails, nothing dangling is touched and no exception is thrown,
    whether rows are appended to directly, through per-core buffers or in
    batches; once the workers are through, all latches are free and all buffers
    empty, each version array ends with exactly the serials of the transactions
    that write the row, in ascending order and with fresh PENDING versions, and
    every update operation holds the version recorded in its row under its
    transaction's serial.  Assumed: 64 buffers more (NUM_REGIONS) than rows that
    are ever written, and room for at least one slot in a buffer. *)
Theorem caracal_initialization_phase `{BuildConfig} find rdtscp table rehash E W txs head (s : nat -> Caracal) e0
  (start : epoch_start E W e0)
  (room : Z.of_nat (size W) + 64 <= NUM_REGIONS)
  (E_word : word32 E) (E_pos : 0 < E)
  (MAX_pos : 1 <= MAX_SLOTS_OF_PER_CORE_BUFFER)
  (rehash_perm : forall m, rehash m ≡ₚ m)
  (find_inj : forall k1 k2 a, is_key k1 -> is_key k2 ->
     find table k1 = Some a -> find table k2 = Some a -> k1 = k2)
  (txs_ok : epoch_txs_ok find table W txs head)
  (workers_ok : forall c, (c < 64)%nat ->
     idle E c table (s c) /\ appended_core_buffers_ (s c) = [] /\
     forall g, spare_of c e0 g <-> spare_buffer_ (s c) = Some g) :
  forall sched, exists pool' e,
    run_schedule sched (workers find rdtscp table rehash txs head s) e0 = Ok (pool', e) /\
    (all_done pool' -> epoch_initialized find table E W e0 e txs head) /\
    (forall c outs s', pool' !! c = Some (Ret (outs, s')) ->
       all_installed find table (epoch_history E e) (assigned txs head (core_serials c)) outs /\
       idle E c table s' /\ appended_core_buffers_ s' = [] /\
       forall g, spare_of c e g <-> spare_buffer_ s' = Some g).
Proof.
  intros sched. by apply (initialization_phase_runs_c find rdtscp table rehash E W txs head s e0).
Qed.
