(* ===== verification/CaracalEpoch.v ===== *)
(** * CaracalEpoch: a whole epoch of Caracal

    The read of a key bisects the version array of the row for the largest
    global identifier below the reader's, which is the version of the last
    transaction before it that writes the key ([visible_in_array]); so the
    execution phase that follows the initialisation phase returns what a serial
    execution would, and leaves the database at the start of the next epoch. *)
From Stdlib Require Import FunctionalExtensionality.
From S2P Require Import Prelude Bitmap Schema Ycsb Conc Fair RWLock Memory Txs Execution Epoch Termination CaracalRow Caracal CaracalInit CaracalPhase.

(** ** The array of a row, seen from a transaction of the epoch *)
Section Read.
Local Abbreviation slots := (list (Z * ptr)).
Implicit Types l : slots.

Definition serials (start : Z) l : slots := (fun p => (p.1 - start, p.2)) <$> l.

Lemma visible_before_serials start id l :
  visible_before (id - start) (serials start l) = (fun p => (p.1 - start, p.2)) <$> visible_before id l.
Proof.
  unfold visible_before, serials. rewrite <- fmap_last. f_equal. induction l as [|p l IH]; [done|]. csimpl.
  destruct (decide (p.1 < id)).
  - rewrite !filter_cons_True by (done || cbn; lia). csimpl. by rewrite IH.
  - rewrite !filter_cons_False by (done || cbn; lia). done.
Qed.

(** Versions of the epoch come before the final state of the row. *)
Lemma visible_in_array start id l :
  ascending l -> start <= id ->
  visible_before id l = match visible_before (id - start) (serials start (filter (fun p => start <= p.1) l)) with
                        | Some q => Some (q.1 + start, q.2)
                        | None => visible_before start l
                        end.
Proof.
  intros Hl Hid. rewrite visible_before_serials. unfold visible_before at 1.
  rewrite (ascending_split start l Hl) at 1. rewrite filter_app.
  rewrite (filter_all _ (filter (fun q => q.1 < start) l)).
  2: { apply Forall_forall. intros q [? _]%list_elem_of_filter. lia. }
  unfold visible_before. rewrite last_app. destruct (last (filter _ (filter (fun p => start <= p.1) l))) as [[x p]|]; [|done].
  cbn. do 2 f_equal. lia.
Qed.
End Read.

(** ** The execution phase is that of [Execution] *)
Section Programs.
Context `{BuildConfig}.
Context (find : Z -> Z -> option addr) (rdtscp : CEnv -> Z) (schema : Schema) (table : Z).

(** How worker [c]'s [i]-th transaction reads a key. *)
Definition caracal_read (s : Caracal) (c : nat) (i key : Z) : prog CEnv ptr :=
  read find rdtscp (set_serial_id s (i * 64 + Z.of_nat c)) table key.

Lemma execute_ops_eq_c s ops :
  execute_ops find rdtscp schema table s ops = run_ops schema table (read find rdtscp s table) ops.
Proof.
  induction ops as [|op ops IH]; [done|]. cbn [execute_ops run_ops]. rewrite IH. by destruct (ope_ op).
Qed.

Lemma execution_phase_eq_c c head n s0 txs : forall i s,
  (forall x, set_serial_id s x = set_serial_id s0 x) ->
  execute_txs find rdtscp schema table (Z.of_nat c) head i n s txs
  = run_txs schema table (caracal_read s0 c) (fun i => head + round_robin_serial c i) txs i n.
Proof.
  induction n as [|n IH]; intros i s Hs; [done|]. cbn [execute_txs run_txs].
  assert (head + round_robin_serial c i = head + serial_id_ (set_serial_id s (i * 64 + Z.of_nat c))) as -> by done.
  unfold tx_at. rewrite Hs. unfold mbind, prog_mbind.
  f_equal. apply functional_extensionality. intros _. f_equal. apply functional_extensionality. intros tx.
  rewrite execute_ops_eq_c. f_equal. apply functional_extensionality. intros r.
  by rewrite (IH (i + 1)).
Qed.
End Programs.

(** ** Reads see the visible version *)
Section Reads.
Context `{BuildConfig}.
Context (find : Z -> Z -> option addr) (rdtscp : CEnv -> Z) (table : Z).
Context (E : Z) (W : gset addr) (f0 : addr -> ptr) (e1 : CEnv).
Hypothesis inv : Inv E W f0 e1.
Hypothesis E_word : word32 E.
Local Abbreviation start_id := (epoch_start_id E).

Lemma slots_bounded a v :
  rows e1 !! a = Some v -> Forall (fun q => 0 <= q.1 < 2 ^ 64) (slots v).
Proof.
  intros Hv. pose proof (ri_slots _ _ _ _ _ _ (inv_row _ _ _ _ inv a v Hv)) as Hs.
  assert (Hst : 0 <= start_id <= 2 ^ 64 - 2 ^ 32).
  { unfold epoch_start_id. rewrite convert_eq by (done || unfold word32; lia). unfold word32 in E_word. lia. }
  eapply Forall_impl; [exact Hs|]. intros q Hq. cbn in Hq. case_decide.
  - destruct Hq as (s & Hs' & -> & _). destruct (gid_eq E s E_word Hs') as [-> _]. lia.
  - destruct Hq as [? _]. lia.
Qed.

Lemma read_visible_slot (s : Caracal) a v :
  rows e1 !! a = Some v -> epoch_ s = E -> 0 <= serial_id_ s < 4096 ->
  exists x, GlobalVersionArray.search_visible_version (global_array_ v) (epoch_ s) (serial_id_ s)
  = Ok (x, match visible_before (serial_id_ s) (epoch_history E e1 a) with Some (_, p) => p | None => f0 a end).
Proof.
  intros Hv He Hs. pose proof (inv_row _ _ _ _ inv a v Hv) as [R1 R2 [sf R3] R4 R5 R6].
  destruct (gid_eq E (serial_id_ s) E_word Hs) as [Hg _].
  pose proof (search_visible_version_eq (slots v) (epoch_ s) (serial_id_ s) R2 (slots_bounded a v Hv)) as Hsv.
  unfold slots in *. destruct (global_array_ v) as [l] eqn:Hl. cbn [GlobalVersionArray.ids_slots_] in *.
  rewrite Hsv by (rewrite ?He; done || unfold word32; lia). rewrite He, (visible_in_array start_id) by (done || lia).
  replace (convert_to_serial_id_with_epoch E (serial_id_ s) - start_id) with (serial_id_ s) by lia.
  unfold epoch_history. rewrite Hv. unfold slots. rewrite Hl. cbn [GlobalVersionArray.ids_slots_]. fold (serials start_id (filter (fun p => start_id <= p.1) l)).
  destruct (visible_before (serial_id_ s) _) as [[x p]|]; [by eexists|]. rewrite R3. by eexists.
Qed.

(** The version a transaction sees is the one its row's array yields. *)
Lemma visible_slot (s : Caracal) a v :
  rows e1 !! a = Some v -> epoch_ s = E -> 0 <= serial_id_ s < 4096 ->
  let q := visible (epoch_history E e1) f0 a (serial_id_ s) in
  readable e1 q /\ exists x,
  GlobalVersionArray.search_visible_version (global_array_ v) (epoch_ s) (serial_id_ s) = Ok (x, Some q).
Proof.
  intros Hv He Hser. pose proof (inv_row _ _ _ _ inv a v Hv) as [R1 R2 [sf R3] R4 R5 R6].
  destruct (read_visible_slot s a v Hv He Hser) as [x Hx]. set (ser := serial_id_ s) in *.
  assert (Hsome : exists q, match visible_before ser (epoch_history E e1 a) with Some (_, p) => p | None => f0 a end = Some q /\
    readable e1 q /\ visible (epoch_history E e1) f0 a ser = q).
  { unfold visible. rewrite Forall_forall in R4. destruct (visible_before ser _) as [[y p]|] eqn:Hvb.
    - unfold visible_before in Hvb. apply last_Some in Hvb as [l' Hl'].
      assert ((y, p) ∈ epoch_history E e1 a) as Hin by (eapply (list_elem_of_filter (fun q : Z * ptr => q.1 < ser)); rewrite Hl'; set_solver).
      unfold epoch_history in Hin. rewrite Hv in Hin. apply list_elem_of_fmap in Hin as (q & [= -> ->] & [Hge Hin]%list_elem_of_filter).
      specialize (R4 q Hin). rewrite decide_True in R4 by done. destruct R4 as (_ & _ & _ & Hp).
      destruct q.2 as [q'|]; [|done]. exists q'. split_and!; [done|by left|done].
    - apply visible_before_spec in R3 as (Hin & Hlt & _); [|done]. specialize (R4 _ Hin). rewrite decide_False in R4 by lia.
      destruct R4 as [_ Hp]. cbn in Hp. destruct (f0 a) as [q'|]; [|done]. exists q'. split_and!; [done|by right|done]. }
  destruct Hsome as (q & Hq & Hread & Hvis). cbn zeta. rewrite Hvis. split; [done|]. exists x. by rewrite Hx, Hq.
Qed.

Lemma caracal_reads_visible (s : nat -> Caracal) n :
  (n <= 64)%nat -> (forall c, (c < 64)%nat -> epoch_ (s c) = E) ->
  reads_visible find table e1 (epoch_history E e1) f0 n (fun c => caracal_read find rdtscp table (s c) c).
Proof.
  intros Hn Hs o c i key a T Hc Hi Hfind [v Hv]. unfold caracal_read, read. rewrite Hfind.
  set (ser := round_robin_serial c i). assert (Hser : 0 <= ser < 4096) by (unfold ser, round_robin_serial; lia).
  destruct (visible_slot (set_serial_id (s c) ser) a v Hv (Hs c Hc) Hser) as (Hread & x & Hx).
  cbn [serial_id_ set_serial_id] in Hread, Hx. set (q := visible _ _ a ser) in *.
  eapply rg_bind with (Q := fun r e => r = Some q /\ todo e1 o c T e).
  { eapply rg_conseq; [apply (rg_look e1 o c _ T (fun r _ => r = Some q))|done|by intros r e [? ?]].
    { intros r. apply monotone_pure. }
    intros e He. exists (Some q), e. split; [|done].
    unfold load_row, derefM, getM, mbind, M_bind, lift, deref. rewrite (x_rows _ _ He), Hv. cbn.
    change (i * 64 + Z.of_nat c) with ser. cbn in Hx. rewrite Hx. cbn.
    unfold assertM, lift. by rewrite assert_true. }
  intros p; cbn beta iota. apply rg_pure. intros ->. by apply rg_wait_and_read.
Qed.

(** ... and end: the search of the row's array, then four more steps. *)
Lemma caracal_reads_end (s : nat -> Caracal) txs2 head n :
  (n <= 64)%nat -> (forall c, (c < 64)%nat -> epoch_ (s c) = E) ->
  reads_end find table e1 (epoch_history E e1) f0 txs2 head n (fun c => caracal_read find rdtscp table (s c) c) 5.
Proof.
  intros Hn Hs c i key a A k T K Hc Hi Hfind [v Hv] q w Hq HT HK. unfold caracal_read, read. rewrite Hfind.
  assert (Hser : 0 <= round_robin_serial c i < 4096) by (unfold round_robin_serial; lia).
  destruct (visible_slot (set_serial_id (s c) (round_robin_serial c i)) a v Hv (Hs c Hc) Hser) as (_ & x & Hx).
  cbn [serial_id_ set_serial_id] in Hx. fold q in Hx.
  change (5 + k)%nat with (S (4 + k)). apply within_act. intros e p e' He. cbn in Hx.
  unfold load_row, derefM, getM, mbind, M_bind, lift, deref. rewrite (x_rows _ _ He), Hv. cbn.
  change (i * 64 + Z.of_nat c) with (round_robin_serial c i). rewrite Hx. cbn.
  unfold assertM, lift. rewrite assert_true by done. cbn. intros [= <- <-]. split; [done|]. by apply within_wait_and_read.
Qed.
End Reads.

(** ** After the initialisation phase *)
Section Ready.
Context `{BuildConfig}.
Context (find : Z -> Z -> option addr) (table : Z) (E : Z) (W : gset addr).
Context (txs : list OperationSet) (head : Z) (e0 e1 : CEnv).
Local Abbreviation N := NUM_TXS_IN_ONE_EPOCH_IN_ONE_CORE.
Local Abbreviation n := (Z.to_nat N).
Local Abbreviation f0 := (final_of e0).

(** The transactions can also be executed: every operation's key is in the
    index, and the updates are the operations in the write set. *)
Definition epoch_txs_known (e : CEnv) : Prop :=
  forall s tx, in_epoch s -> txs !! Z.to_nat (head + s) = Some tx -> well_formed tx /\
    forall op, op ∈ rw_set_ tx -> is_key (index_ op) /\ exists a, find table (index_ op) = Some a /\ is_Some (rows e !! a).

(** The transactions with their pending versions, once the workers are through. *)
Definition initialized_txs (pool : list (prog CEnv (list OperationSet * Caracal))) : list OperationSet :=
  store_outputs txs head (serial_outputs core_serials (pool_outputs pool)).

Lemma elem_of_epoch_c s : 0 <= N <= 64 -> in_epoch s <-> 0 <= s < 64 * Z.of_nat n.
Proof.
  intros HN. unfold in_epoch. rewrite Z2Nat.id by lia. pose proof (Z.div_mod s 64). pose proof (Z.mod_pos_bound s 64). lia.
Qed.

Lemma history_inj a1 a2 s1 s2 p :
  Inv E W f0 e1 -> is_Some (rows e1 !! a1) -> is_Some (rows e1 !! a2) ->
  (s1, p) ∈ epoch_history E e1 a1 -> (s2, p) ∈ epoch_history E e1 a2 -> a1 = a2 /\ s1 = s2.
Proof.
  intros Hi [v1 Hv1] [v2 Hv2] H1 H2. unfold epoch_history in *. rewrite Hv1 in H1. rewrite Hv2 in H2.
  apply list_elem_of_fmap in H1 as (q1 & [= -> ->] & [_ H1]%list_elem_of_filter).
  apply list_elem_of_fmap in H2 as (q2 & [= -> Heq] & [_ H2]%list_elem_of_filter).
  assert (Hp : forall v q, q ∈ slots v -> q.2 ∈ row_ptrs e1 v).
  { intros v q Hq. apply elem_of_row_ptrs. left. by apply list_elem_of_fmap_2. }
  destruct (decide (a1 = a2)) as [->|Hne].
  - split; [done|]. assert (v2 = v1) as -> by congruence.
    pose proof (ri_nodup _ _ _ _ _ _ (inv_row _ _ _ _ Hi a2 v1 Hv1)) as Hnd. apply NoDup_app in Hnd as (Hnd & _ & _).
    apply list_elem_of_lookup in H1 as [i1 H1], H2 as [i2 H2].
    assert (i1 = i2) as -> by (apply (NoDup_lookup _ _ _ q1.2 Hnd); rewrite list_lookup_fmap, ?H1, ?H2; cbn; congruence).
    congruence.
  - exfalso. apply (inv_disjoint _ _ _ _ Hi a1 a2 v1 v2 q1.2 Hne Hv1 Hv2); [by apply Hp|]. rewrite Heq. by apply Hp.
Qed.

Lemma phase_ready_c pool :
  epoch_txs_ok find table W txs head -> epoch_txs_known e0 ->
  epoch_initialized find table E W e0 e1 txs head ->
  length pool = 64%nat -> all_done pool ->
  (forall c outs s', pool !! c = Some (Ret (outs, s')) ->
     all_installed find table (epoch_history E e1) (assigned txs head (core_serials c)) outs) ->
  epoch_ready find table W e1 (epoch_history E e1) f0 txs (initialized_txs pool) head n.
Proof.
  intros Hok Hknown [Hi Hdom _ _ Hhist] Hlen Hdone Hinst.
  pose proof Hok as (Hh & HN & _).
  constructor.
  - apply Hi.
  - done.
  - intros s Hs%elem_of_epoch_c; [|done]. set (c := Z.to_nat (s mod 64)).
    assert (Hc : (c < 64)%nat /\ s mod 64 = Z.of_nat c) by (unfold c; pose proof (Z.mod_pos_bound s 64); lia).
    destruct (pool_installed_stored find table W (epoch_history E e1) txs head core_serials pool)
      with (c := c) (s := s) as (tx & out & Htx & Hout & Happ & Hin); try done.
    + intros d Hd. by apply (core_ready_c find table W).
    + intros d x (i & -> & Hx%elem_of_seqZ)%list_elem_of_fmap. lia.
    + intros d. apply NoDup_fmap_2_strong; [intros; lia|apply NoDup_seqZ].
    + intros d1 d2 x H1 H2. rewrite !elem_of_core_serials_c by done. lia.
    + by apply Hc.
    + apply elem_of_core_serials_c; [by apply Hc|done|]. by split; [|apply Hc].
    + exists tx, out. destruct (Hknown s tx Hs Htx) as [Hwf Hkeys]. split_and!; try done.
      intros op Hop. destruct (Hkeys op Hop) as (Hk & a & Ha & Hr). split; [done|]. exists a. split; [done|]. by apply Hdom.
  - intros a [v Hv]. destruct (Hhist a v Hv) as [Hids _]. rewrite Hids. apply sorted_ext; [apply sorted_filter, sorted_seqZ..|].
    intros x. rewrite !list_elem_of_filter, !elem_of_seqZ. unfold writes. rewrite elem_of_epoch_c by done.
    split; intros H0; destruct_and!; split_and!; done || lia.
  - intros a s p [v Hv] Hin. destruct (Hhist a v Hv) as [_ Hp]. rewrite Forall_forall in Hp. specialize (Hp _ Hin).
    destruct p as [q|]; [|done]. by exists q.
  - intros. by eapply history_inj.
  - intros a [v Hv]. destruct (inv_row _ _ _ _ Hi a v Hv) as [R1 R2 [sf R3] R4 R5 R6].
    apply visible_before_spec in R3 as (Hin & Hlt & _); [|done]. rewrite Forall_forall in R4. specialize (R4 _ Hin).
    rewrite decide_False in R4 by lia. destruct R4 as [_ Hp]. cbn in Hp. destruct (f0 a) as [q|]; [|done]. by exists q.
Qed.

(** ** After the execution phase *)
Lemma next_start : word32 (E + 1) -> 0 <= E -> epoch_start_id E + 2 ^ 32 = epoch_start_id (E + 1).
Proof.
  intros HE H0. unfold epoch_start_id. rewrite !convert_eq by (unfold word32 in *; lia). lia.
Qed.

(** The slots of the epoch are now old ones. *)
Lemma slots_settled e2 a v :
  Inv E W f0 e1 -> XInv e1 e2 -> word32 (E + 1) -> 0 <= E -> rows e1 !! a = Some v ->
  (forall q, q ∈ epoch_history E e1 a -> collectable_ptr e2 q.2) ->
  Forall (fun p => p.1 < epoch_start_id (E + 1) /\ old_slot e2 p) (slots v).
Proof.
  intros Hi Hx HE H0 Hv Hcol. pose proof (ri_slots _ _ _ _ _ _ (inv_row _ _ _ _ Hi a v Hv)) as Hs.
  pose proof (next_start HE H0) as Hnext. rewrite Forall_forall in Hs. apply Forall_forall. intros p Hp. specialize (Hs p Hp).
  case_decide as Hge.
  - destruct Hs as (s & Hs & Heq & _). assert (HEw : word32 E) by (unfold word32 in *; lia).
    destruct (gid_eq E s HEw Hs) as [Hg _]. split; [lia|]. split.
    + rewrite Heq, Hg. unfold epoch_start_id. rewrite convert_eq by (done || unfold word32; lia). unfold word32 in HEw. lia.
    + apply (Hcol (p.1 - epoch_start_id E, p.2)). unfold epoch_history. rewrite Hv. apply list_elem_of_fmap. exists p.
      split; [done|]. by apply list_elem_of_filter.
  - destruct Hs as [? Hp']. split; [lia|]. split; [done|]. destruct p.2 as [q|]; [|done].
    destruct (collectable_holds e1 e2 q Hx Hp') as (x & w & ? & ? & ?). by exists w, x.
Qed.

Lemma buffers_ok_empty E' e (r : RowBuffer.t) :
  length (RowBuffer.buffers_ r) = 64%nat ->
  (forall c b, RowBuffer.buffers_ r !! c = Some b -> PerCoreBuffer.ids_slots_ b = []) ->
  0 <= MAX_SLOTS_OF_PER_CORE_BUFFER -> buffers_ok E' e r.
Proof.
  intros Hl Hb HM. constructor; [done|]. intros c b Hc. rewrite (Hb c b Hc). cbn.
  split_and!; [constructor|lia|constructor].
Qed.

Lemma phase_over_c e2 :
  epoch_initialized find table E W e0 e1 txs head -> XInv e1 e2 -> all_present W e0 ->
  word32 (E + 1) -> 0 <= E -> 0 <= MAX_SLOTS_OF_PER_CORE_BUFFER ->
  (forall a q, is_Some (rows e1 !! a) -> q ∈ epoch_history E e1 a -> collectable_ptr e2 q.2) ->
  epoch_start (E + 1) W e2.
Proof.
  intros [Hi Hdom [Hlk Hlatches] Hbufs _] Hx HW HE H0 HM Hcol. pose proof Hi as [I1 I2 I3 I4' I4 I5 I6 I7 I8 I9 I10].
  pose proof Hx as [X1 X2 X3 X4 X5 X6 X7].
  assert (Hbuf : forall v, buffer_of e2 v = buffer_of e1 v) by (intros v; unfold buffer_of; by rewrite X3).
  assert (Hptrs : forall v, row_ptrs e2 v = row_ptrs e1 v) by (intros v; unfold row_ptrs, buffer_ptrs; by rewrite Hbuf).
  assert (Hob : forall c v, own_buffer c e2 v = own_buffer c e1 v) by (intros c v; unfold own_buffer; by rewrite Hbuf).
  assert (Hun : forall g, uninstalled e2 g <-> uninstalled e1 g) by (intros g; unfold uninstalled; by rewrite X2).
  assert (Hold : forall a v, rows e1 !! a = Some v -> Forall (fun p => p.1 < epoch_start_id (E + 1) /\ old_slot e2 p) (slots v)).
  { intros a v Hv. eapply slots_settled; eauto. }
  split_and!; [|by rewrite X5| |].
  - constructor; rewrite ?X2, ?X3, ?X6; try (done || congruence).
    + intros a v Hv. destruct (I5 a v Hv) as [R1 R2 [sf R3] R4 R5 R6]. specialize (Hold a v Hv). constructor; try done.
      * unfold visible_before. rewrite filter_all by (eapply Forall_impl; [exact Hold|]; by intros p [? _]).
        unfold final_of. rewrite X2, Hv. destruct (last (slots v)) as [[x p]|] eqn:Hl; [by exists x|].
        apply last_None in Hl. rewrite Hl in R3. done.
      * eapply Forall_impl; [exact Hold|]. intros p [Hlt Ho]. rewrite decide_False by lia. done.
      * intros g Hg. destruct (R5 g Hg) as (Ha & Hlt & r & Hr & Hb). rewrite X6, X3. split_and!; [done|done|].
        exists r. split; [done|]. apply buffers_ok_empty; [apply Hb| |done]. intros c b Hc.
        pose proof (Hbufs a v c Hv) as Hnil. unfold own_buffer, buffer_of in Hnil. rewrite Hg in Hnil. cbn in Hnil.
        rewrite Hr in Hnil. cbn in Hnil. by rewrite Hc in Hnil.
      * by rewrite Hptrs.
    + intros a b v w p Hne Ha Hb. rewrite !Hptrs. by apply (I6 a b v w).
    + intros g r Hg Hug%Hun. by apply (I8 g).
    + intros g t Hg Hug%Hun. by apply (I9 g).
    + intros g1 g2 t H1 H2 Hu1%Hun Hu2%Hun. by apply (I10 g1 g2 t).
  - intros a Ha. unfold present. rewrite X2. apply Hdom. by apply HW.
  - intros a v. rewrite X2. intros Hv. split_and!; [by apply (Hlatches a)| |].
    + eapply Forall_impl; [by apply (Hold a)|]. by intros p [? _].
    + intros c. rewrite Hob. by apply (Hbufs a).
Qed.
End Ready.

(** ** The epochs of a run *)
Section Program.
Context `{BuildConfig}.
Context (find : Z -> Z -> option addr) (rdtscp : CEnv -> Z) (schema : Schema) (table : Z).
Context (rehash : list (addr * core_buffer) -> list (addr * core_buffer)).
Local Abbreviation N := NUM_TXS_IN_ONE_EPOCH_IN_ONE_CORE.
Local Abbreviation writer_before := (writer_before find table).

Definition executors (txs : list OperationSet) (head : Z) (s : nat -> Caracal) : list (prog CEnv (list (list ptr))) :=
  (fun c => do_execution_phase find rdtscp schema table (Z.of_nat c) head (s c) txs) <$> seq 0 64.

(** [caracal.epoch_ = epoch], and the workers' objects after a phase. *)
Definition at_epoch (E : Z) (s : Caracal) : Caracal :=
  mkCaracal (core_ s) (serial_id_ s) E (ws s) (tables s) (spare_buffer_ s) (appended_core_buffers_ s).
Definition objects (s : nat -> Caracal) (pool : list (prog CEnv (list OperationSet * Caracal))) (c : nat) : Caracal :=
  match pool !! c ≫= result with Some r => r.2 | None => s c end.

(** What every worker sees between two epochs: the transactions, its object, the shared state. *)
Record State := mkState { st_txs : list OperationSet; st_caracal : nat -> Caracal; st_env : CEnv }.
Definition head_of (E : Z) : Z := (E - 1) * NUM_TXS_IN_ONE_EPOCH.

(** One turn of the loop of [run_tx]: both phases, each closed by a barrier. *)
Inductive epoch_step (E : Z) : State -> State -> Prop :=
| epoch_runs txs s e sched pool e1 sched' pool' e2 :
    run_schedule sched (workers find rdtscp table rehash txs (head_of E) (fun c => at_epoch E (s c))) e = Ok (pool, e1) ->
    all_done pool ->
    run_schedule sched' (executors (initialized_txs txs (head_of E) pool) (head_of E) (objects (fun c => at_epoch E (s c)) pool)) e1
      = Ok (pool', e2) ->
    all_done pool' ->
    epoch_step E (mkState txs s e) (mkState (initialized_txs txs (head_of E) pool) (objects (fun c => at_epoch E (s c)) pool) e2).
Inductive reaches (init : State) : Z -> State -> Prop :=
| reaches_first : reaches init 1 init
| reaches_next E st st' : reaches init E st -> E <= NUM_EPOCH -> epoch_step E st st' -> reaches init (E + 1) st'.

(** What a worker's object is at the start of an epoch: no key in the write
    set, no merged or unmerged buffer, the spare buffer the controller knows of. *)
Definition object_ready (c : nat) (s : Caracal) (e : CEnv) : Prop :=
  get_table s table = [] /\ core_ s = Z.of_nat c /\ appended_core_buffers_ s = [] /\
  forall g, spare_of c e g <-> spare_buffer_ s = Some g.

Hypothesis find_inj : forall k1 k2 a, is_key k1 -> is_key k2 ->
  find table k1 = Some a -> find table k2 = Some a -> k1 = k2.
Hypothesis rehash_perm : forall m, rehash m ≡ₚ m.

(** ** One epoch *)
Section One.
Context (E : Z) (W : gset addr) (txs : list OperationSet) (head : Z) (s : nat -> Caracal) (e0 : CEnv).

Record epoch_input : Prop := {
  in_start : epoch_start E W e0;
  in_epochs : 0 < E /\ word32 (E + 1);
  in_sizes : 0 <= N <= 64 /\ 1 <= MAX_SLOTS_OF_PER_CORE_BUFFER /\ 0 <= head;
  in_txs : forall x, in_epoch x -> exists tx, txs !! Z.to_nat (head + x) = Some tx /\
             runnable find table (fun a => is_Some (rows e0 !! a)) tx /\
             forall a, a ∈ rows_written find table (rw_set_ tx) (w_set_ tx) -> a ∈ W;
  in_room : Z.of_nat (size W) + 64 <= NUM_REGIONS;
  in_workers : forall c, (c < 64)%nat -> object_ready c (s c) e0 /\ epoch_ (s c) = E;
  in_table : exists size, get_record_size schema table = Ok size
}.
Hypothesis input : epoch_input.

Lemma input_txs_ok_c : epoch_txs_ok find table W txs head.
Proof.
  destruct input as [_ _ (HN & _ & Hh) Htxs _ _ _]. split; [done|]. split; [done|].
  intros x Hx. destruct (Htxs x Hx) as (tx & Htx & Hrun & HW). exists tx. split; [done|]. by eapply runnable_appendable.
Qed.

Lemma input_known_c : epoch_txs_known find table txs head e0.
Proof.
  intros x tx Hx Htx. destruct (in_txs input x Hx) as (tx' & Htx' & Hrun & _). assert (tx' = tx) as -> by congruence.
  split; [by eapply runnable_well_formed|apply Hrun].
Qed.

(** The final state of a row after the epoch: the last write, if there is one. *)
Definition final_after (txs2 : list OperationSet) (e2 : CEnv) : Prop :=
  forall key a, is_key key -> find table key = Some a -> is_Some (rows e0 !! a) ->
    match writer_before txs head (64 * N) a with
    | Some x => exists p, final_of e2 a = Some p /\ written_by txs2 head x key p
    | None => final_of e2 a = final_of e0 a
    end.

Lemma epoch_over_c e1 e2 pool :
  epoch_initialized find table E W e0 e1 txs head ->
  epoch_ready find table W e1 (epoch_history E e1) (final_of e0) txs (initialized_txs txs head pool) head (Z.to_nat N) ->
  XInv e1 e2 -> final_after (initialized_txs txs head pool) e2.
Proof.
  intros Hinit Hready Hx key a Hkey Hf Ha. pose proof (in_sizes input) as (HN & _ & _).
  pose proof Hinit as [Hi Hdom _ _ _]. apply Hdom in Ha as [v Hv].
  pose proof (history_last find table W e1 (epoch_history E e1) (final_of e0) txs (initialized_txs txs head pool) head (Z.to_nat N)
    find_inj Hready a key ltac:(by eexists) Hkey Hf) as Hl. rewrite Z2Nat.id in Hl by lia.
  pose proof (inv_row _ _ _ _ Hi a v Hv) as [R1 R2 [sf R3] R4 R5 R6].
  assert (Hfin : final_of e2 a = from_option snd None (last (slots v))) by (unfold final_of; by rewrite (x_rows _ _ Hx), Hv).
  assert (Hlast : last (slots v) = match last (filter (fun p => epoch_start_id E <= p.1) (slots v)) with
      Some q => Some q | None => Some (sf, final_of e0 a) end).
  { rewrite (ascending_split (epoch_start_id E) (slots v) R2) at 1. rewrite last_app.
    destruct (last (filter _ _)); [done|]. exact R3. }
  unfold epoch_history in Hl. rewrite Hv, fmap_last in Hl.
  destruct (writer_before txs head (64 * N) a) as [x|].
  - destruct Hl as (p & Hl & Hw). exists p. split; [|done]. rewrite Hfin, Hlast.
    destruct (last (filter _ _)) as [q|]; [|done]. cbn in *. congruence.
  - rewrite Hfin, Hlast. apply fmap_nil_inv in Hl. by rewrite Hl.
Qed.

Lemma objects_ready pool e1 :
  length pool = 64%nat -> all_done pool ->
  (forall c outs s', pool !! c = Some (Ret (outs, s')) -> idle E c table s' /\ appended_core_buffers_ s' = [] /\
     forall g, spare_of c e1 g <-> spare_buffer_ s' = Some g) ->
  forall c, (c < 64)%nat -> object_ready c (objects s pool c) e1 /\ epoch_ (objects s pool c) = E.
Proof.
  intros Hlen Hd Hpost c Hc. unfold objects. destruct (lookup_lt_is_Some_2 pool c) as [p Hp]; [lia|]. rewrite Hp. cbn.
  unfold all_done in Hd. rewrite Forall_lookup in Hd. specialize (Hd c p Hp). destruct p as [[outs s']| |]; [|done|done].
  cbn. by destruct (Hpost c outs s' Hp) as ((? & ? & ?) & ? & ?).
Qed.

(** After the initialisation phase everything is ready for the execution phase. *)
Lemma phase_handover_c sched :
  exists pool e1, run_schedule sched (workers find rdtscp table rehash txs head s) e0 = Ok (pool, e1) /\
    (all_done pool -> epoch_initialized find table E W e0 e1 txs head /\
      (forall c, (c < 64)%nat -> object_ready c (objects s pool c) e1 /\ epoch_ (objects s pool c) = E) /\
      epoch_ready find table W e1 (epoch_history E e1) (final_of e0) txs (initialized_txs txs head pool) head (Z.to_nat N)).
Proof.
  pose proof (in_epochs input) as [HE0 HE1]. pose proof (in_sizes input) as (HN & HM & Hh).
  assert (HEw : word32 E) by (unfold word32 in *; lia).
  destruct (initialization_phase_runs_c find rdtscp table rehash E W txs head s e0 (in_start input) (in_room input)
    HEw HE0 HM rehash_perm find_inj input_txs_ok_c) with (sched := sched) as (pool & e1 & Hrun & Hdone & Hinst).
  { intros c Hc. destruct (in_workers input c Hc) as [(? & ? & ? & ?) ?]. by split_and!. }
  exists pool, e1. split; [done|].
  assert (Hlen : length pool = 64%nat) by (rewrite (run_schedule_length _ _ _ _ _ Hrun); unfold workers; by rewrite length_fmap, length_seq).
  intros Hd. pose proof (Hdone Hd) as Hinit. split; [done|]. split.
  - apply objects_ready; [done|done|]. intros c outs s' Hc. by destruct (Hinst c outs s' Hc) as (_ & ? & ? & ?).
  - apply (phase_ready_c find table E W txs head e0 e1 pool); try done; [apply input_txs_ok_c|apply input_known_c|].
    intros c outs s' Hc. by destruct (Hinst c outs s' Hc).
Qed.

Lemma executors_eq_c txs2 s2 : executors txs2 head s2
  = execution_workers schema table (fun c => caracal_read find rdtscp table (s2 c) c) txs2 head (Z.to_nat N).
Proof. unfold executors, execution_workers. apply list_fmap_ext. intros _ c _. unfold do_execution_phase. by apply execution_phase_eq_c. Qed.

(** Both phases run, whatever the schedules. *)
Lemma epoch_runs_serially_c sched :
  exists pool e1, run_schedule sched (workers find rdtscp table rehash txs head s) e0 = Ok (pool, e1) /\
    (all_done pool -> same_operations txs (initialized_txs txs head pool) head (Z.to_nat N) /\ forall sched',
     exists pool' e2, run_schedule sched' (executors (initialized_txs txs head pool) head (objects s pool)) e1 = Ok (pool', e2) /\
       (forall c rss, pool' !! c = Some (Ret rss) -> length rss = Z.to_nat N) /\
       (forall c rss k rs, pool' !! c = Some (Ret rss) -> rss !! k = Some rs ->
          reads_serial find table (final_of e0) txs (initialized_txs txs head pool) head e2
            (round_robin_serial c (Z.of_nat k)) rs) /\
       (all_done pool' -> epoch_start (E + 1) W e2 /\ final_after (initialized_txs txs head pool) e2 /\
          (forall a, is_Some (rows e2 !! a) <-> is_Some (rows e0 !! a)) /\
          forall c, (c < 64)%nat -> object_ready c (objects s pool c) e2)).
Proof.
  pose proof (in_epochs input) as [HE0 HE1]. pose proof (in_sizes input) as (HN & HM & Hh).
  assert (HEw : word32 E) by (unfold word32 in *; lia).
  destruct (phase_handover_c sched) as (pool & e1 & Hrun & Hdone). exists pool, e1. split; [done|]. intros Hd.
  destruct (Hdone Hd) as (Hinit & Hobj & Hready). set (s2 := objects s pool) in *.
  split; [by eapply ready_same_operations|]. intros sched'.
  destruct (epoch_execution find table W e1 (epoch_history E e1) (final_of e0) txs (initialized_txs txs head pool) head (Z.to_nat N)
    find_inj Hready schema (fun c => caracal_read find rdtscp table (s2 c) c) sched' (in_table input))
    as (pool' & e2 & Hrun' & Hx & Hlen' & Hcount & Hreads & Hover).
  { apply (caracal_reads_visible find rdtscp table E W (final_of e0)); [apply Hinit|done|lia|]. intros c Hc. by apply Hobj. }
  exists pool', e2. rewrite executors_eq_c. split; [done|]. split; [done|]. split; [done|]. intros Hd'. split_and!.
  - apply (phase_over_c find table E W txs head e0 e1 e2); try done; [apply (in_start input)|lia|lia|by apply Hover].
  - by apply (epoch_over_c e1 e2 pool).
  - intros a. rewrite (x_rows _ _ Hx). apply Hinit.
  - intros c Hc. destruct (Hobj c Hc) as [(? & ? & ? & Hs) _]. split_and!; [done..|]. intros g. rewrite <- Hs.
    unfold spare_of, uninstalled. by rewrite (x_handed _ _ Hx), (x_rows _ _ Hx).
Qed.

(** The execution phase ends under every fair schedule. *)
Lemma execution_ends_c sched pool e1 rounds :
  run_schedule sched (workers find rdtscp table rehash txs head s) e0 = Ok (pool, e1) -> all_done pool ->
  Forall (fair 64) rounds -> (2 * phase_work txs head (Z.to_nat N) 5 <= length rounds)%nat ->
  exists pool' e2, run_schedule (concat rounds) (executors (initialized_txs txs head pool) head (objects s pool)) e1 = Ok (pool', e2) /\
    all_done pool'.
Proof.
  intros Hrun Hd Hfair Hlen. pose proof (in_epochs input) as [HE0 HE1]. pose proof (in_sizes input) as (HN & HM & Hh).
  assert (HEw : word32 E) by (unfold word32 in *; lia).
  destruct (phase_handover_c sched) as (pool1 & e1' & Hrun' & Hdone).
  rewrite Hrun in Hrun'. symmetry in Hrun'. injection Hrun' as -> ->. destruct (Hdone Hd) as (Hinit & Hobj & Hready).
  rewrite executors_eq_c. apply (ready_phase_finishes find table W e1 (epoch_history E e1) (final_of e0) txs _ head (Z.to_nat N)
    find_inj Hready schema (fun c => caracal_read find rdtscp table (objects s pool c) c)) with (cost := 5%nat);
    [apply input| |lia| |done|].
  - apply (caracal_reads_visible find rdtscp table E W (final_of e0)); [apply Hinit|done|lia|]. intros c Hc. by apply Hobj.
  - apply (caracal_reads_end find rdtscp table E W (final_of e0)); [apply Hinit|done|lia|]. intros c Hc. by apply Hobj.
  - rewrite (same_work txs); [done|by eapply ready_same_operations].
Qed.
End One.

(** ** Any number of epochs *)
Section Epochs.
Context (init : State) (W : gset addr).

(** The start of the program: a loaded database, the transactions of all epochs
    over its keys, buffers for all the rows [W] that they write and one to
    spare for every worker. *)
Record program_ok : Prop := {
  pg_sizes : 0 <= NUM_TXS_IN_ONE_EPOCH < 4160 /\ 1 <= MAX_SLOTS_OF_PER_CORE_BUFFER;
  pg_start : epoch_start 1 W (st_env init);
  pg_txs : forall x, 0 <= x < NUM_EPOCH * NUM_TXS_IN_ONE_EPOCH -> exists tx, st_txs init !! Z.to_nat x = Some tx /\
             runnable find table (fun a => is_Some (rows (st_env init) !! a)) tx /\
             forall a, a ∈ rows_written find table (rw_set_ tx) (w_set_ tx) -> a ∈ W;
  pg_room : Z.of_nat (size W) + 64 <= NUM_REGIONS;
  pg_workers : forall c, (c < 64)%nat -> object_ready c (st_caracal init c) (st_env init);
  pg_table : exists size, get_record_size schema table = Ok size
}.
Hypothesis ok : program_ok.

(** What holds at the start of every epoch that is reached. *)
Record boundary (E : Z) (st : State) : Prop := {
  bd_epoch : 1 <= E <= NUM_EPOCH + 1;
  bd_start : epoch_start E W (st_env st);
  bd_rows : forall a, is_Some (rows (st_env st) !! a) <-> is_Some (rows (st_env init) !! a);
  bd_txs : forall x, head_of E <= x < NUM_EPOCH * NUM_TXS_IN_ONE_EPOCH ->
             st_txs st !! Z.to_nat x = st_txs init !! Z.to_nat x;
  bd_workers : forall c, (c < 64)%nat -> object_ready c (st_caracal st c) (st_env st)
}.

Lemma core_count_c : 0 <= N <= 64 /\ 64 * N <= NUM_TXS_IN_ONE_EPOCH.
Proof.
  pose proof (pg_sizes ok) as [Hn _]. unfold NUM_TXS_IN_ONE_EPOCH_IN_ONE_CORE. change NUM_CORE with 64.
  pose proof (Z.div_mod NUM_TXS_IN_ONE_EPOCH 64). pose proof (Z.mod_pos_bound NUM_TXS_IN_ONE_EPOCH 64).
  pose proof (Z.div_pos NUM_TXS_IN_ONE_EPOCH 64). lia.
Qed.

Lemma boundary_input_c E st :
  boundary E st -> E <= NUM_EPOCH ->
  epoch_input E W (st_txs st) (head_of E) (fun c => at_epoch E (st_caracal st c)) (st_env st).
Proof.
  intros Hb HE. pose proof Hb as [B1 B2 B3 B4 B5]. pose proof core_count_c as [HN HN'].
  assert (Hhead : 0 <= head_of E /\ head_of E + NUM_TXS_IN_ONE_EPOCH <= NUM_EPOCH * NUM_TXS_IN_ONE_EPOCH)
    by (unfold head_of; nia). constructor.
  - done.
  - unfold NUM_EPOCH in B1. unfold word32. lia.
  - split_and!; try lia. apply ok.
  - intros x Hx%elem_of_epoch_c; [|done]. rewrite Z2Nat.id in Hx by lia.
    destruct (pg_txs ok (head_of E + x)) as (tx & Htx & [Hset Hkeys] & HW); [lia|].
    exists tx. rewrite B4 by lia. split; [done|]. split; [|done]. split; [done|].
    intros op Hop. destruct (Hkeys op Hop) as (? & a & ? & ?). split; [done|]. exists a. split; [done|]. by apply B3.
  - apply ok.
  - intros c Hc. split; [by apply B5|done].
  - apply ok.
Qed.

(** An epoch leads to the next. *)
Lemma boundary_next_c E txs s e sched pool e1 sched' pool' e2 :
  boundary E (mkState txs s e) -> E <= NUM_EPOCH ->
  run_schedule sched (workers find rdtscp table rehash txs (head_of E) (fun c => at_epoch E (s c))) e = Ok (pool, e1) -> all_done pool ->
  run_schedule sched' (executors (initialized_txs txs (head_of E) pool) (head_of E) (objects (fun c => at_epoch E (s c)) pool)) e1
    = Ok (pool', e2) -> all_done pool' ->
  boundary (E + 1) (mkState (initialized_txs txs (head_of E) pool) (objects (fun c => at_epoch E (s c)) pool) e2).
Proof.
  intros Hb HE Hrun Hdone Hrun' Hdone'. pose proof core_count_c as [HN HN'].
  pose proof (boundary_input_c E _ Hb HE) as Hin. cbn [st_txs st_caracal st_env] in *.
  destruct (epoch_runs_serially_c E W txs (head_of E) _ e Hin sched) as (pool1 & e1' & Heq & Hrest).
  rewrite Hrun in Heq. simplify_eq.
  destruct (Hrest Hdone) as [_ Hexec]. destruct (Hexec sched') as (pool2 & e2' & Heq & _ & _ & Hover). rewrite Hrun' in Heq. simplify_eq.
  destruct (Hover Hdone') as (Hst & _ & Hdom & Hobj). pose proof Hb as [B1 B2 B3 B4 B5].
  constructor; cbn [st_txs st_caracal st_env] in *.
  + lia.
  + done.
  + intros a. rewrite Hdom. apply B3.
  + unfold head_of in *. intros x Hx. rewrite <- B4 by nia. unfold initialized_txs. apply store_outputs_ne.
    apply Forall_forall. intros [y out] (c & outs & k & Hc & Hy & _)%elem_of_serial_outputs. simpl.
    apply list_elem_of_lookup_2 in Hy.
    assert (Hlen : length pool1 = 64%nat) by (rewrite (run_schedule_length _ _ _ _ _ Hrun); unfold workers; by rewrite length_fmap, length_seq).
    apply lookup_lt_Some in Hc. unfold pool_outputs in Hc. rewrite length_fmap in Hc.
    apply elem_of_core_serials_c in Hy as [Hy%elem_of_epoch_c _]; [|done|lia|done]. rewrite Z2Nat.id in Hy by lia. nia.
  + done.
Qed.

Lemma reaches_boundary_c E st : reaches init E st -> boundary E st.
Proof.
  induction 1 as [|E st st' Hr IH HE Hstep].
  - constructor; try done; [apply ok|apply ok].
  - destruct Hstep. by eapply boundary_next_c.
Qed.
End Epochs.
End Program.

(** C6. Caracal executes its transactions serially, epoch after epoch: from a
    loaded database, in every epoch that is reached, in debug and release
    builds, whatever schedules the two phases run under and however rows become
    contended, no assertion fails, no dangling pointer is followed and nothing
    is thrown; each read of the transaction with serial number [s] returns the
    record of the last write before [s] in the epoch, and otherwise of the row's
    final state before the epoch; and after the epoch the final state of every
    row is the last version written to it.  Assumed ([program_ok]): fewer than
    4160 transactions per epoch, room for at least one slot in a buffer, and 64
    buffers more (NUM_REGIONS) than rows that are ever written. *)
Theorem caracal_executes_serially `{BuildConfig} find rdtscp schema table rehash init W
  (find_inj : forall k1 k2 a, is_key k1 -> is_key k2 ->
     find table k1 = Some a -> find table k2 = Some a -> k1 = k2)
  (rehash_perm : forall m, rehash m ≡ₚ m)
  (ok : program_ok find schema table init W) :
  forall E txs s e, reaches find rdtscp schema table rehash init E (mkState txs s e) -> E <= NUM_EPOCH ->
  let head := head_of E in
  let sE := fun c => at_epoch E (s c) in
  forall sched, exists pool e1,
    run_schedule sched (workers find rdtscp table rehash txs head sE) e = Ok (pool, e1) /\
    (all_done pool ->
     let txs' := initialized_txs txs head pool in
     forall sched', exists pool' e2,
       run_schedule sched' (executors find rdtscp schema table txs' head (objects sE pool)) e1 = Ok (pool', e2) /\
       (forall c rss k rs, pool' !! c = Some (Ret rss) -> rss !! k = Some rs ->
          reads_serial find table (final_of e) txs txs' head e2 (round_robin_serial c (Z.of_nat k)) rs) /\
       (all_done pool' -> final_after find table txs head e txs' e2)).
Proof.
  intros E txs s e Hr HE head sE sched.
  pose proof (reaches_boundary_c find rdtscp schema table rehash find_inj rehash_perm init W ok E _ Hr) as Hb.
  pose proof (boundary_input_c find schema table init W ok E _ Hb HE) as Hin.
  destruct (epoch_runs_serially_c find rdtscp schema table rehash find_inj rehash_perm E W txs head sE e Hin sched)
    as (pool & e1 & Hrun & Hrest). exists pool, e1. split; [done|]. intros Hd txs' sched'.
  destruct (Hrest Hd) as [_ Hexec]. destruct (Hexec sched') as (pool' & e2 & Hrun' & _ & Hreads & Hover).
  exists pool', e2. split; [done|]. split; [done|]. intros Hd'. by apply Hover.
Qed.
