(* ===== verification/CaracalRun.v ===== *)
(** * CaracalRun: the threads of [executables/ycsb_caracal.cpp]

    [run_tx] is [Run.run_tx] with Caracal's phases, which [CaracalEpoch] proves
    correct on their own.  A worker's initialisation phase depends on no
    transaction of another worker, so every interleaving of the 64 threads,
    barriers included, executes the epochs one after the other, in debug and in
    release builds and for any number of transactions per epoch that fits. *)
From Stdlib Require Import FunctionalExtensionality.
From S2P Require Import Prelude Schema Ycsb Conc Barrier Phases Memory Txs Run Execution Epoch CaracalRow Caracal CaracalInit CaracalPhase CaracalEpoch.

Section Threads.
Context `{BuildConfig}.
Context (find : Z -> Z -> option addr) (rdtscp : CEnv -> Z) (schema : Schema) (table : Z).
Context (rehash : list (addr * core_buffer) -> list (addr * core_buffer)).
Local Abbreviation N := NUM_TXS_IN_ONE_EPOCH_IN_ONE_CORE.
Local Abbreviation Results := (list (list ptr)).
Local Abbreviation CState := (EpochState (E := CEnv) (Obj := Caracal)).

Definition initialization (c : nat) (head : Z) (s : Caracal) (txs : list OperationSet) : prog CEnv (list OperationSet * Caracal) :=
  do_initialization_phase find rdtscp rehash c table (Z.of_nat c) head s txs.
Definition execution (c : nat) (head : Z) (s : Caracal) (txs : list OperationSet) : prog CEnv Results :=
  do_execution_phase find rdtscp schema table (Z.of_nat c) head s txs.

(** [run_tx], and the threads that [main] starts. *)
Definition run_tx : nat -> Caracal -> prog (Shared CEnv (RunMemory Results)) Caracal :=
  Run.run_tx at_epoch core_serials initialization execution.
Definition threads : (nat -> Caracal) -> list (prog (Shared CEnv (RunMemory Results)) Caracal) :=
  Run.threads at_epoch core_serials initialization execution.

(** ** A worker's initialisation phase and the others' transactions *)
Lemma initialize_txs_ext c head txs txs' n : forall i s,
  (forall j, i <= j < i + Z.of_nat n -> txs !! Z.to_nat (head + j * 64 + Z.of_nat c) = txs' !! Z.to_nat (head + j * 64 + Z.of_nat c)) ->
  initialize_txs find rdtscp rehash c table (Z.of_nat c) head i n s txs
  = initialize_txs find rdtscp rehash c table (Z.of_nat c) head i n s txs'.
Proof.
  induction n as [|n IH]; intros i s Heq; [done|]. cbn [initialize_txs].
  assert (tx_at txs (head + i * 64 + Z.of_nat c) = tx_at txs' (head + i * 64 + Z.of_nat c)) as ->.
  { unfold tx_at, vector_at. by rewrite Heq by lia. }
  unfold mbind, prog_mbind. f_equal. apply functional_extensionality. intros tx. f_equal.
  apply functional_extensionality. intros [ops s1]. rewrite (IH (i + 1)); [done|]. intros j Hj. apply Heq. lia.
Qed.

Lemma core_serials_of c s : s ∈ core_serials c -> exists i, 0 <= i < N /\ s = i * 64 + Z.of_nat c.
Proof. intros (i & -> & Hi%elem_of_seqZ)%list_elem_of_fmap. exists i. lia. Qed.

Lemma initialization_frame_c c d head o txs outs :
  (c < 64)%nat -> (d < 64)%nat -> c <> d -> 0 <= head ->
  initialization c head o (store_outputs txs head (zip (core_serials d) outs)) = initialization c head o txs.
Proof.
  intros Hc Hd Hne Hh. unfold initialization, do_initialization_phase. f_equal. apply initialize_txs_ext. intros j Hj.
  apply store_outputs_ne. apply Forall_forall. intros [x o'] Hx%elem_of_zip_l. simpl.
  destruct (core_serials_of d x Hx) as (i & Hi & ->). lia.
Qed.

(** ** What an epoch has done *)

(** The transactions are those of before with their pending versions; every
    transaction has read what a serial execution of the epoch would read, from
    the final states of the epoch before; the rows end with their last version. *)
Definition epoch_outcome (epoch : Z) (st st' : CState) (ret : nat -> option Results) : Prop :=
  let head := head_of epoch in
  same_operations (ep_txs st) (ep_txs st') head (Z.to_nat N) /\
  (forall c, (c < 64)%nat -> exists rss, ret c = Some rss /\ length rss = Z.to_nat N /\
     forall k rs, rss !! k = Some rs ->
       reads_serial find table (final_of (ep_env st)) (ep_txs st) (ep_txs st') head (ep_env st')
         (round_robin_serial c (Z.of_nat k)) rs) /\
  final_after find table (ep_txs st) head (ep_env st) (ep_txs st') (ep_env st').

Definition as_state (st : CState) : State := mkState (ep_txs st) (ep_objects st) (ep_env st).

(** ** Every epoch is correct *)
Section Correct.
Hypothesis find_inj : forall k1 k2 a, is_key k1 -> is_key k2 ->
  find table k1 = Some a -> find table k2 = Some a -> k1 = k2.
Hypothesis rehash_perm : forall m, rehash m ≡ₚ m.
Context (init : State) (W : gset addr).
Hypothesis ok : program_ok find schema table init W.
Local Abbreviation bnd := (fun E st => boundary table init W E (as_state st)).

Lemma boundary_objects_c E txs s s' e :
  (forall c, (c < 64)%nat -> s c = s' c) ->
  boundary table init W E (mkState txs s e) -> boundary table init W E (mkState txs s' e).
Proof.
  intros Heq [B1 B2 B3 B4 B5]. constructor; try done. cbn in *. intros c Hc. rewrite <- Heq by done. by apply B5.
Qed.

Lemma initialized_eq_c epoch (st : CState) rs e :
  ep_txs (initialized_state core_serials epoch st rs e) = initialized_txs (ep_txs st) (head_of epoch) (Ret <$> rs).
Proof.
  unfold initialized_state, initialized_txs, serial_outputs, pool_outputs. cbn [ep_txs]. f_equal. f_equal.
  rewrite <- list_fmap_compose, imap_fmap. done.
Qed.

Lemma objects_eq_c (s s' : nat -> Caracal) (rs : list (list OperationSet * Caracal)) c :
  (c < length rs)%nat -> objects s (Ret <$> rs) c = match rs !! c with Some r => r.2 | None => s' c end.
Proof.
  intros Hc. unfold objects. rewrite list_lookup_fmap. destruct (lookup_lt_is_Some_2 rs c Hc) as [r ->]. done.
Qed.

Lemma caracal_epochs_correct :
  epoch_correct at_epoch core_serials initialization execution bnd epoch_outcome.
Proof.
  intros epoch st Hb HE sched.
  pose proof (boundary_input_c find schema table init W ok epoch (as_state st) Hb ltac:(lia)) as Hin.
  destruct (epoch_runs_serially_c find rdtscp schema table rehash find_inj rehash_perm epoch W _ _ _ _ Hin sched)
    as (pool & e1 & Hrun & Hrest).
  exists pool, e1. split; [exact Hrun|]. intros rs -> st1 sched'.
  assert (Hlen : length rs = 64%nat).
  { pose proof (run_schedule_length _ _ _ _ _ Hrun) as Hl. unfold workers in Hl.
    by rewrite !length_fmap, length_seq in Hl. }
  destruct (Hrest (all_done_results rs)) as [Hsame Hexec].
  destruct (Hexec sched') as (pool' & e2 & Hrun' & Hcount & Hreads & Hover).
  exists pool', e2.
  assert (Hpool : execution_pool execution epoch st1
    = executors find rdtscp schema table (initialized_txs (ep_txs st) (head_of epoch) (Ret <$> rs)) (head_of epoch)
        (objects (fun c => at_epoch epoch (ep_objects st c)) (Ret <$> rs))).
  { unfold execution_pool, executors, execution. apply list_fmap_ext. intros i c [-> Hc]%lookup_seq. unfold st1. rewrite initialized_eq_c.
    rewrite (objects_eq_c _ (ep_objects st)) by lia. done. }
  rewrite Hpool. split; [exact Hrun'|]. intros outs ->. destruct (Hover (all_done_results outs)) as (_ & Hfin & _).
  split.
  - apply (boundary_objects_c _ _ (objects (fun c => at_epoch epoch (ep_objects st c)) (Ret <$> rs))).
    { intros c Hc. apply objects_eq_c. lia. }
    unfold executed_state, st1. cbn [ep_txs ep_env]. rewrite initialized_eq_c.
    by apply (boundary_next_c find rdtscp schema table rehash find_inj rehash_perm init W ok epoch _ _ (ep_env st) sched (Ret <$> rs) e1 sched' (Ret <$> outs) e2);
      try apply all_done_results; [destruct st|lia|..].
  - unfold epoch_outcome, executed_state, st1. cbn [ep_txs ep_env]. rewrite initialized_eq_c. split; [exact Hsame|]. split; [|exact Hfin].
    intros c Hc. assert (Hl : length outs = 64%nat).
    { pose proof (run_schedule_length _ _ _ _ _ Hrun') as Hl. unfold executors in Hl. by rewrite !length_fmap, length_seq in Hl. }
    destruct (lookup_lt_is_Some_2 outs c) as [rss Hrss]; [lia|].
    assert (Hret : (@Ret CEnv _ <$> outs) !! c = Some (Ret rss)) by (by rewrite list_lookup_fmap, Hrss).
    exists rss. split_and!; [done|by apply (Hcount c)|]. intros k rs'. by apply (Hreads c).
Qed.

Lemma caracal_threads_run (st : CState) sched :
  as_state st = init ->
  exists pool' u, run_schedule sched (threads (ep_objects st)) (run_start st) = Ok (pool', u) /\
    (all_done pool' -> exists st', epochs_executed epoch_outcome (steps_of sched (threads (ep_objects st)) (run_start st)) st (returned_ (memory u)) (NUM_EPOCH + 1) st' /\
       ep_txs st' = txs_ (memory u) /\ ep_env st' = database u).
Proof.
  intros Hst. pose proof (pg_sizes _ _ _ _ _ ok) as [[Hsize _] _].
  destruct (threads_run_epochs at_epoch core_serials initialization execution) with
    (boundary := fun E st => boundary table init W E (as_state st)) (outcome := epoch_outcome) (init := st) (sched := sched)
    (follows := steps_of sched (threads (ep_objects st)) (run_start st))
    as (pool' & u & Hrun & Hdone).
  - intros c s (i & Hi & ->)%core_serials_of. lia.
  - intros c d s Hc Hd Hne (i & Hi & ->)%core_serials_of (j & Hj & Heq)%core_serials_of. lia.
  - done.
  - intros c d head o txs outs. by apply initialization_frame_c.
  - rewrite Hst. apply (reaches_boundary_c find rdtscp schema table rehash find_inj rehash_perm init W ok). constructor.
  - apply caracal_epochs_correct.
  - apply steps_of_observed.
  - exists pool', u. split; [exact Hrun|]. intros Hd. destruct (Hdone Hd) as (st' & Hex & Htxs & Henv & _). by exists st'.
Qed.
End Correct.
End Threads.

(** C2. The 64 worker threads of [ycsb_caracal] execute all transactions serially,
    under every interleaving of their atomic accesses to the rows, the buffers,
    the latches and the barrier, in debug and release builds: from a loaded
    database no assertion fails, no dangling pointer is followed and nothing is
    thrown.  When all threads have returned, every epoch has led from the state
    that the run had when the parent opened the barrier before it to the one that
    it had at the next such barrier: every transaction of the epoch has been
    executed, its reads returned what a serial execution in the order of the
    serial numbers returns, starting from the final states that the epoch found,
    and every row ended with the last version written to it, which is its final
    state for the next epoch.  Assumed ([program_ok]): at most NUM_REGIONS - 64
    rows that are ever written, so that the [RowBufferController] never runs out
    of buffers. *)
Theorem caracal_threads_serializable `{BuildConfig} find rdtscp schema table rehash
  (init : EpochState (E := CEnv) (Obj := Caracal)) W
  (find_inj : forall k1 k2 a, is_key k1 -> is_key k2 ->
     find table k1 = Some a -> find table k2 = Some a -> k1 = k2)
  (rehash_perm : forall m, rehash m ≡ₚ m)
  (ok : program_ok find schema table (as_state init) W) :
  forall sched, exists pool' u,
    run_schedule sched (threads find rdtscp schema table rehash (ep_objects init)) (run_start init) = Ok (pool', u) /\
    (all_done pool' -> exists st,
       epochs_executed (epoch_outcome find table) (steps_of sched (threads find rdtscp schema table rehash (ep_objects init)) (run_start init))
         init (returned_ (memory u)) (NUM_EPOCH + 1) st /\
       ep_txs st = txs_ (memory u) /\ ep_env st = database u).
Proof.
  intros sched. by apply (caracal_threads_run find rdtscp schema table rehash find_inj rehash_perm (as_state init) W ok).
Qed.
