(* ===== verification/CaracalTermination.v ===== *)
(** * CaracalTermination: Caracal's epochs end

    The initialisation phase as a pool of threads that take latches
    ([Latches]).  At the end of the phase a worker merges its buffers, passing
    over the rows whose latch is taken and going round until none is left: in
    one round it meets a row whose latch is free, if there is one. *)
From S2P Require Import Prelude Schema Ycsb Conc Fair RWLock Latches Memory RowLatches Txs Execution Epoch Termination CaracalRow Caracal CaracalInit CaracalPhase CaracalEpoch.

Section Initialization.
Context `{BuildConfig}.
Context (find : Z -> Z -> option addr) (rdtscp : CEnv -> Z) (rehash : list (addr * core_buffer) -> list (addr * core_buffer)).
Context (me : nat) (table : Z).
Hypothesis rehash_perm : forall m, rehash m ≡ₚ m.

Definition caracal_latches : Latches CEnv :=
  row_latches rwl (fun l v => mkValue l (global_array_ v) (row_buffer_ v)).
Lemma caracal_latches_ok : latches_ok caracal_latches.
Proof. by apply row_latches_ok. Qed.

Local Abbreviation L := caracal_latches.
Local Abbreviation lok := caracal_latches_ok.
Local Abbreviation K := 8%nat.
Local Abbreviation latw := (latw L K me).
Implicit Types val : addr.

(** ** The actions leave the latches alone *)
Lemma keeps_now_c : keeps (now rdtscp).
Proof. apply keeps_read. Qed.
#[local] Hint Resolve keeps_now_c : keeps.
Lemma keeps_add_wait_c t start : keeps (add_wait rdtscp t start).
Proof. unfold add_wait. keeping. Qed.
Lemma keeps_create_c : keeps create_pending_version.
Proof. unfold create_pending_version. keeping. Qed.
Lemma keeps_load_buffer b : keeps (load_core_buffer b).
Proof. unfold load_core_buffer. keeping. Qed.
Lemma keeps_store_buffer b x : keeps (store_core_buffer b x).
Proof. by apply keeps_modify. Qed.
#[local] Hint Resolve keeps_add_wait_c keeps_create_c keeps_load_buffer keeps_store_buffer : keeps.

Lemma keeps_minor_gc a E : keeps (P := RowBuffer.t) (R := Value) (GlobalVersionArray.minor_gc a E).
Proof.
  unfold GlobalVersionArray.minor_gc. keeping.
  generalize (GlobalVersionArray.ids_slots_ a). intros l. induction l as [|itr l IH]; [apply keeps_fail|].
  cbn [GlobalVersionArray.minor_gc_loop]. destruct l as [|next l]; [apply keeps_ret|].
  destruct (_ <=? _); [apply keeps_ret|]. apply keeps_bind; [unfold GlobalVersionArray.gc; keeping|]. intros []. exact IH.
Qed.
#[local] Hint Resolve keeps_minor_gc : keeps.

Lemma quiet_batch_append s val b : quiet L (batch_append_row s val b).
Proof.
  unfold batch_append_row. apply quiet_load. intros v. apply stores_bind; [keeping|intros x].
  apply stores_bind; [unfold GlobalVersionArray.batch_append; keeping|intros [g x']].
  apply stores_store_then; [done|]. intros _. keeping.
Qed.

(** ** The operations take few steps *)
Ltac assoc := repeat first [rewrite mbind_prog | rewrite prog_bind_assoc].
Ltac lact := assoc; apply latw_act_all; [apply keeps_quiet; keeping|].
Ltac lstep := lact; intros ?.

Local Abbreviation len := (fun s => length (appended_core_buffers_ s)).

Lemma insert_len s val b : (len (insert_core_buffer rehash s val b) <= Datatypes.S (len s))%nat.
Proof. unfold insert_core_buffer. case_decide; cbn; [lia|]. by rewrite rehash_perm. Qed.

Lemma latw_contended {A} s val b n (F : ptr * Caracal -> prog CEnv A) :
  (forall p s', (len s' <= Datatypes.S (len s))%nat -> latw n [] (F (p, s'))) ->
  latw (6 + n) [] (prog_bind (append_to_contented_row rdtscp rehash me s val b) F).
Proof.
  intros HF. unfold append_to_contented_row. lact. intros [p []].
  { apply (latw_le L K me n); [lia|]. apply latw_bind_ret. apply HF. apply insert_len. }
  lstep. assoc. apply (latw_lock L lok K me ltac:(lia) (Some val)); [cbn; lia|]. lstep. assoc.
  apply (latw_act_all L K me _ _ (1 + n)%nat); [apply quiet_batch_append|intros ?]. assoc.
  apply (latw_unlock L lok K me (Some val)). apply latw_bind_ret. apply HF. lia.
Qed.

Lemma latw_fetch_c {A} n (F : nat -> prog CEnv A) :
  (forall g, latw n [] (F g)) -> latw (3 + n) [] (prog_bind (RowBufferController.fetch_new_buffer me) F).
Proof.
  intros HF. unfold RowBufferController.fetch_new_buffer. assoc.
  apply (latw_lock L lok K me ltac:(lia) None); [cbn; lia|].
  assoc. apply (latw_act_all L K me _ _ (1 + n)%nat); [apply keeps_quiet; unfold RowBufferController.take_buffer; keeping|intros g].
  assoc. apply (latw_unlock L lok K me None). apply HF.
Qed.

Lemma latw_do_append_c {A} s val p n (F : ptr * Caracal -> prog CEnv A) :
  (forall p s', (len s' <= Datatypes.S (len s))%nat -> latw n [] (F (p, s'))) ->
  latw (17 + n) [] (prog_bind (do_append_pending_version rdtscp rehash me s val p) F).
Proof.
  intros HF. unfold do_append_pending_version. lstep. unfold load_row_buffer. lact. intros [cb|].
  { apply (latw_le L K me (6 + n)%nat); [lia|]. by apply latw_contended. }
  assoc. apply (latw_try_lock L lok K me (Some val) _ (13 + n)%nat).
  { unfold append_to_uncontended_row. assoc. apply (latw_le L K me (2 + n)%nat); [lia|].
    apply (latw_act_all L K me _ _ (1 + n)%nat).
    - apply quiet_bind; [apply keeps_quiet; keeping|intros q]. apply quiet_load. intros v.
      apply stores_bind; [unfold GlobalVersionArray.append_with_gc; keeping|intros g]. apply stores_bind; [keeping|intros ?].
      apply stores_store_then; [done|]. intros ?. keeping.
    - intros q. assoc. apply (latw_unlock L lok K me (Some val)). apply HF. lia. }
  assert (Hgo : forall g s1, len s1 = len s -> latw (10 + n) [] (prog_bind (installed ← try_install_new_buffer val None g;
     if installed : bool then append_to_contented_row rdtscp rehash me s1 val (g, core_ s1)
     else
       other_buffer ← load_row_buffer val;
       other ← act (derefM other_buffer);
       append_to_contented_row rdtscp rehash me (set_spare_buffer s1 (Some g)) val (other, core_ s1)) F)).
  { intros g s1 Hs1. unfold try_install_new_buffer. lstep. assoc. apply (latw_act_all L K me _ _ (8 + n)%nat).
    - apply quiet_load. intros v. destruct (decide _); [|apply stores_keeps; keeping]. apply stores_store_then; [done|]. intros ?. keeping.
    - intros []; [apply (latw_le L K me (6 + n)%nat); [lia|]; apply latw_contended; rewrite Hs1; exact HF|].
      unfold load_row_buffer. lstep. lstep. apply latw_contended. cbn. rewrite Hs1. exact HF. }
  destruct (spare_buffer_ s) as [g|].
  - apply (latw_le L K me (10 + n)%nat); [lia|]. assoc. by apply (Hgo g).
  - assoc. apply (latw_fetch_c (10 + n)%nat). intros g. by apply (Hgo g).
Qed.

Lemma latw_append_c s key p n {A} (F : ptr * Caracal -> prog CEnv A) :
  (forall p s', (len s' <= Datatypes.S (len s))%nat -> latw n [] (F (p, s'))) ->
  latw (19 + n) [] (prog_bind (append_pending_version find rdtscp rehash me s table key p) F).
Proof.
  intros HF. unfold append_pending_version. lstep. cbn zeta. case_decide.
  { apply (latw_le L K me (1 + n)%nat); [lia|]. by apply latw_act; [apply keeps_quiet; keeping|]. }
  destruct (find table key) as [val|].
  - assoc. apply (latw_do_append_c _ val p (1 + n)%nat). intros r s' Hs'. lstep. apply HF. exact Hs'.
  - apply (latw_le L K me (1 + n)%nat); [lia|]. apply latw_act; [apply keeps_quiet; keeping|].
    intros e r e' (? & ? & _ & Hr)%bind_ok. done.
Qed.

(** Merging the buffers of the rows [m]. *)
Lemma latw_finalize s n {A} (F : list (addr * core_buffer) -> prog CEnv A) :
  (forall m, latw n [] (F m)) -> forall l m, (length m <= l)%nat ->
  latw (1 + 3 * l + n) [] (prog_bind (iter m (fun m => match m with
        | [] => mret (inr m)
        | _ => m' ← iter (m, 0%nat) (finalize_step rdtscp me s); mret (inl m')
        end)) F).
Proof.
  intros HF. set (body := fun m => match m with [] => mret (inr m) | _ => _ end).
  set (rest := fun m itr => (m' ← iter (m, itr) (finalize_step rdtscp me s); mret (inl m')) : prog CEnv (list (addr * core_buffer) + list (addr * core_buffer))).
  assert (Hrest : forall m itr, rest m itr = Loop (m, itr) (finalize_step rdtscp me s) (fun b => Ret (inl b))) by done.
  assert (Hbody : forall m, body m = match m with [] => Ret (inr m) | _ => rest m 0%nat end) by (by intros []).
  assert (Hn3 : forall m itr x e, m !! itr = Some x -> avail L [] e ->
    near L body 3 e (unroll (m, itr) (finalize_step rdtscp me s) (fun b => Ret (inl b)))).
  { intros m itr [val b] e Hx Ha. unfold unroll, finalize_step. rewrite Hx. assoc. apply near_idle. intros e1 t e2 _ _. assoc.
    by apply (near_try_lock L lok me body [] e (Some val)); [|cbn; lia]. }
  assert (Hn4 : forall m e, avail L [] e -> near L body 4 e (body m)).
  { intros m e Ha. rewrite Hbody. destruct m as [|x m]; [done|]. rewrite Hrest. exact (Hn3 (x :: m) 0%nat x e eq_refl Ha). }
  assert (Hn6 : forall m itr e, avail L [] e -> near L body 6 e (rest m itr)).
  { intros m itr e Ha. destruct (m !! itr) as [x|] eqn:Hx.
    - apply (near_more L body 4); [lia|]. rewrite Hrest. by apply (Hn3 m itr x e).
    - rewrite Hrest. cbn [near]. unfold unroll, finalize_step. rewrite Hx. by apply (Hn4 m e). }
  assert (Hend : forall l m, (length m <= l)%nat ->
    latw (1 + 3 * l + n) [] (prog_bind (Ret (inl m)) (round body F)) /\
    forall itr, latw (1 + 3 * l + n) [] (prog_bind (rest m itr) (round body F))).
  { intros l. induction l as [l IH] using lt_wf_ind. intros m Hm.
    assert (Hagain : turn L body F K (eq m) me (3 * l + n) [] (lat L K me) (Ret (inl m))).
    { apply turn_again; [done|]. intros e Ha. apply (near_more L body 5); [lia|]. by apply near_again, Hn4. }
    assert (Hturn : forall d itr, (length m - itr <= d)%nat ->
      turn L body F K (eq m) me (3 * l + n) [] (lat L K me) (rest m itr)).
    { induction d as [|d IHd]; intros itr Hd; (rewrite Hrest; apply turn_loop;
        [intros e Ha; apply (near_more L body 6); [lia|]; rewrite <- Hrest; by apply Hn6|]);
        (destruct (m !! itr) as [[val b]|] eqn:Hx; [|unfold unroll, finalize_step; rewrite Hx; exact Hagain]);
        pose proof (lookup_lt_Some _ _ _ Hx) as Hlt; [lia|].
      pose proof (fun e => Hn3 m itr _ e Hx) as Hnear. unfold unroll, finalize_step in *. rewrite Hx in *.
      rewrite mbind_prog, prog_bind_assoc. apply turn_idle; [apply keeps_idle; keeping| |].
      { intros e Ha. apply (near_more L body 3); [lia|]. specialize (Hnear e Ha). by rewrite mbind_prog, prog_bind_assoc in Hnear. }
      intros start. rewrite mbind_prog, prog_bind_assoc. apply (turn_try_lock L lok K me ltac:(lia) body _ _ _ [] (Some val)); [cbn; lia| |].
      - assoc. destruct l as [|l]; [lia|]. apply (latw_le L K me (2 + (1 + 3 * l + n))%nat); [lia|].
        apply (latw_act_all L K me _ _ (1 + (1 + 3 * l + n))%nat); [apply quiet_batch_append|intros ?]. assoc.
        apply (latw_unlock L lok K me (Some val)). assoc.
        apply (IH l ltac:(lia) (take itr m ++ drop (Datatypes.S itr) m)). rewrite length_app, length_take, length_drop. lia.
      - rewrite mbind_prog, prog_bind_assoc. apply turn_idle; [apply keeps_idle; keeping| |].
        + intros e Ha. apply (near_more L body 7); [lia|]. apply near_idle. intros e1 t e2 _ _. by apply (Hn6 m (Datatypes.S itr) e).
        + intros ?. apply (IHd (Datatypes.S itr)). lia. }
    assert (Hround : forall c, m = c -> turn L body F K (eq m) me (3 * l + n) [] (lat L K me) (body c)).
    { intros c <-. rewrite Hbody. destruct m as [|x m'] eqn:Hm'; [|rewrite <- Hm' in *; by apply (Hturn (length m)); lia].
      apply turn_leave. apply (latw_le L K me n); [lia|apply HF]. }
    split; [|intros itr]; exists (Datatypes.S (3 * l + n)); (split; [lia|]);
      (apply (lat_spin L K me _ _ body F (eq m) (3 * l + n) []); [exact Hround| |done]); [exact Hagain|].
    apply (Hturn (length m)). lia. }
  intros l m Hl. by apply (Hend l m Hl).
Qed.

Lemma latw_append_all_c ws : forall s ops n {A} (F : list Operation * Caracal -> prog CEnv A),
  (forall o s', (len s' <= len s + length ws)%nat -> latw n [] (F (o, s'))) ->
  latw (20 * length ws + n) [] (prog_bind (append_all find rdtscp rehash me table s ops ws) F).
Proof.
  induction ws as [|j ws IH]; intros s ops n A F HF; cbn [append_all length]; [apply HF; cbn; lia|].
  replace (20 * Datatypes.S (length ws) + n)%nat with (1 + (19 + (20 * length ws + n)))%nat by lia.
  lstep. assoc. apply latw_append_c. intros p s' Hs'. apply IH. intros o s2 Hs2. apply HF. cbn [length]. lia.
Qed.

(** The work of the transactions [l] in the initialisation phase. *)
Definition writes_of (l : list OperationSet) : nat := sum_list ((fun tx => length (w_set_ tx)) <$> l).
Definition initialization_work (l : list OperationSet) : nat := length l + 23 * writes_of l + 1.

Lemma latw_initialize_txs worker_id head txs l : forall i s n {A} (F : list OperationSet * Caracal -> prog CEnv A),
  (forall k tx, l !! k = Some tx -> txs !! Z.to_nat (head + (i + Z.of_nat k) * 64 + worker_id) = Some tx) ->
  (forall o s', (len s' <= len s + writes_of l)%nat -> latw n [] (F (o, s'))) ->
  latw (length l + 20 * writes_of l + n) []
    (prog_bind (initialize_txs find rdtscp rehash me table worker_id head i (length l) s txs) F).
Proof.
  induction l as [|tx l IH]; intros i s n A F Hl HF; cbn [initialize_txs length]; [apply HF; cbn; lia|].
  change (writes_of (tx :: l)) with (length (w_set_ tx) + writes_of l)%nat in *.
  replace (Datatypes.S (length l) + 20 * (length (w_set_ tx) + writes_of l) + n)%nat
    with (Datatypes.S (20 * length (w_set_ tx) + (length l + 20 * writes_of l + n)))%nat by lia.
  assoc. unfold tx_at. apply latw_act; [apply keeps_quiet; keeping|]. intros e tx' e' Htx.
  assert (tx' = tx) as ->.
  { unfold lift, vector_at in Htx. specialize (Hl 0%nat tx eq_refl). rewrite Z.add_0_r in Hl.
    destruct (decide _); [|done]. rewrite Hl in Htx. by injection Htx. }
  assoc. apply latw_append_all_c. intros ops s' Hs'. assoc. apply IH.
  - intros k t Hk. replace (i + 1 + Z.of_nat k) with (i + Z.of_nat (Datatypes.S k)) by lia. by apply (Hl (Datatypes.S k)).
  - intros o s2 Hs2. apply latw_bind_ret. apply HF. cbn in *. lia.
Qed.

Lemma latw_phase worker_id head txs l s :
  len s = 0%nat -> NUM_TXS_IN_ONE_EPOCH_IN_ONE_CORE = Z.of_nat (length l) ->
  (forall k tx, l !! k = Some tx -> txs !! Z.to_nat (head + (0 + Z.of_nat k) * 64 + worker_id) = Some tx) ->
  latw (initialization_work l) [] (do_initialization_phase find rdtscp rehash me table worker_id head s txs).
Proof.
  intros Hs HN Hl. unfold do_initialization_phase. rewrite HN, Nat2Z.id.
  replace (initialization_work l) with (length l + 20 * writes_of l + (1 + 3 * writes_of l))%nat by (unfold initialization_work; lia).
  apply latw_initialize_txs; [done|]. intros o s' Hs'. unfold finalize_batch_append_optimized. assoc.
  rewrite <- (Nat.add_0_r (1 + 3 * writes_of l)). apply latw_finalize; [|lia]. intros m. apply latw_ret.
Qed.
End Initialization.

(** ** Both phases of an epoch *)
Section Epoch.
Context `{BuildConfig}.
Context (find : Z -> Z -> option addr) (rdtscp : CEnv -> Z) (schema : Schema) (table : Z).
Context (rehash : list (addr * core_buffer) -> list (addr * core_buffer)).
Local Abbreviation workers := (workers find rdtscp table rehash).
Local Abbreviation executors := (executors find rdtscp schema table).
Local Abbreviation N := (Z.to_nat NUM_TXS_IN_ONE_EPOCH_IN_ONE_CORE).

Definition latches_free (e : CEnv) : Prop := (forall a v, rows e !! a = Some v -> rwl v = RWLock_init) /\ lock_ e = RWLock_init.
Definition initialization_total (txs : list OperationSet) (head : Z) : nat :=
  sum_list ((fun c => initialization_work (batch txs head N c)) <$> seq 0 64).

Hypothesis find_inj : forall k1 k2 a, is_key k1 -> is_key k2 ->
  find table k1 = Some a -> find table k2 = Some a -> k1 = k2.
Hypothesis rehash_perm : forall m, rehash m ≡ₚ m.

Section One.
Context (E : Z) (W : gset addr) (txs : list OperationSet) (head : Z) (s : nat -> Caracal) (e0 : CEnv).
Hypothesis input : epoch_input find schema table E W txs head s e0.

Lemma batch_in_txs c k tx :
  (c < 64)%nat -> batch txs head N c !! k = Some tx -> txs !! Z.to_nat (head + (0 + Z.of_nat k) * 64 + Z.of_nat c) = Some tx.
Proof.
  intros Hc Hk. pose proof (in_sizes _ _ _ _ _ _ _ _ _ input) as (HN & _ & Hh). unfold batch in Hk. rewrite list_lookup_fmap in Hk.
  destruct (seqZ 0 _ !! k) as [i|] eqn:Hi; [|done]. apply lookup_seqZ in Hi as [-> Hi]. cbn in Hk. injection Hk as <-.
  destruct (in_txs _ _ _ _ _ _ _ _ _ input (round_robin_serial c (0 + Z.of_nat k))) as (t & Ht & _).
  { unfold in_epoch, round_robin_serial. split; [lia|]. rewrite Z.div_add_l, (Z.div_small (Z.of_nat c)) by lia. lia. }
  unfold round_robin_serial in *. rewrite Z.add_assoc in Ht. by rewrite Z.add_assoc, Ht.
Qed.

Lemma workers_latch_c c p :
  workers txs head s !! c = Some p ->
  exists n, (n <= initialization_work (batch txs head N c))%nat /\ lat caracal_latches 8 c n [] p.
Proof.
  intros Hp. unfold CaracalPhase.workers in Hp. rewrite list_lookup_fmap in Hp.
  destruct (seq 0 64 !! c) as [d|] eqn:Hd; [|done]. apply lookup_seq in Hd as [-> Hd]. injection Hp as <-. cbn [Nat.add] in *.
  apply latw_phase; [done| | |].
  - destruct (in_workers _ _ _ _ _ _ _ _ _ input c Hd) as [(_ & _ & -> & _) _]. done.
  - pose proof (in_sizes _ _ _ _ _ _ _ _ _ input) as (HN & _). rewrite batch_length. lia.
  - intros k tx. by apply batch_in_txs.
Qed.

Lemma start_latches_c : latches_free e0 ->
  forall (l : name caracal_latches) x, get_lock (latch caracal_latches l) e0 = Some x -> x = RWLock_init.
Proof.
  intros [Hr Hl] [a|] x Hx; cbn in Hx; [|congruence]. destruct (rows e0 !! a) as [v|] eqn:Hv; [|done].
  injection Hx as <-. by apply (Hr a).
Qed.

Lemma workers_run_c sched : exists pool e, run_schedule sched (workers txs head s) e0 = Ok (pool, e).
Proof.
  destruct (phase_handover_c find rdtscp schema table rehash find_inj rehash_perm E W txs head s e0 input sched) as (pool & e & Hrun & _).
  by exists pool, e.
Qed.

(** The initialisation phase ends under every fair schedule, and leaves the latches free. *)
Lemma initialization_ends_c rounds :
  latches_free e0 -> Forall (fair 64) rounds -> (9 * initialization_total txs head <= length rounds)%nat ->
  exists pool e1, run_schedule (concat rounds) (workers txs head s) e0 = Ok (pool, e1) /\ all_done pool.
Proof.
  intros Hfree Hfair Hlen.
  apply (latching_pool_finishes caracal_latches caracal_latches_ok 8 64 _ e0 _ workers_latch_c); [|by apply start_latches_c|apply workers_run_c|done|done].
  unfold CaracalPhase.workers. by rewrite length_fmap, length_seq.
Qed.

Lemma initialization_frees_c sched pool e1 :
  latches_free e0 -> run_schedule sched (workers txs head s) e0 = Ok (pool, e1) -> all_done pool -> latches_free e1.
Proof.
  intros Hfree Hrun Hd.
  assert (Hlen : length (workers txs head s) = 64%nat) by (unfold CaracalPhase.workers; by rewrite length_fmap, length_seq).
  pose proof (latches_free_after caracal_latches caracal_latches_ok 8 64 _ e0 _ workers_latch_c Hlen (start_latches_c Hfree) workers_run_c
    sched pool e1 Hrun Hd) as Hall. split; [|by apply (Hall None)].
  intros a v Hv. apply (Hall (Some a)). cbn. by rewrite Hv.
Qed.

Lemma execution_leaves_latches_c sched pool e1 sched' pool' e2 :
  run_schedule sched (workers txs head s) e0 = Ok (pool, e1) -> all_done pool ->
  run_schedule sched' (executors (initialized_txs txs head pool) head (objects s pool)) e1 = Ok (pool', e2) ->
  latches_free e1 -> latches_free e2.
Proof.
  intros Hrun Hd Hrun' Hfree. pose proof (in_epochs _ _ _ _ _ _ _ _ _ input) as [HE0 HE1].
  pose proof (in_sizes _ _ _ _ _ _ _ _ _ input) as (HN & _ & _).
  assert (HEw : word32 E) by (unfold word32 in *; lia).
  destruct (phase_handover_c find rdtscp schema table rehash find_inj rehash_perm E W txs head s e0 input sched) as (p1 & e1' & Hr & Hdone).
  rewrite Hrun in Hr. symmetry in Hr. injection Hr as -> ->. destruct (Hdone Hd) as (Hinit & Hobj & Hready).
  rewrite executors_eq_c in Hrun'.
  pose proof (ready_start _ _ _ _ _ _ _ _ _ _ find_inj Hready schema (fun c => caracal_read find rdtscp table (objects s pool c) c)
    (in_table _ _ _ _ _ _ _ _ _ input)
    (caracal_reads_visible find rdtscp table E W (final_of e0) e1 (ei_inv _ _ _ _ _ _ _ _ Hinit) HEw (objects s pool) N ltac:(lia)
       (fun c Hc => proj2 (Hobj c Hc)))) as Hst.
  destruct (execution_keeps _ _ _ _ _ _ _ _ Hst sched' pool' e2 Hrun') as [Hr Hl]. destruct Hfree as [F1 F2].
  split; [by rewrite Hr|congruence].
Qed.
End One.

(** ** Every epoch *)
Context (init : State) (W : gset addr).
Hypothesis ok : program_ok find schema table init W.
Hypothesis init_free : latches_free (st_env init).

Lemma reaches_free_c E st : reaches find rdtscp schema table rehash init E st -> latches_free (st_env st).
Proof.
  induction 1 as [|E st st' Hr IH HE Hstep]; [done|].
  pose proof (reaches_boundary_c find rdtscp schema table rehash find_inj rehash_perm init W ok E _ Hr) as Hb.
  pose proof (boundary_input_c find schema table init W ok E _ Hb HE) as Hin.
  destruct Hstep as [txs s e sched pool e1 sched' pool' e2 Hrun Hd Hrun' Hd']. cbn [st_env st_txs st_caracal] in *.
  eapply (execution_leaves_latches_c E W txs _ _ e Hin); [exact Hrun|exact Hd|exact Hrun'|].
  eapply (initialization_frees_c E W txs _ _ e Hin); [exact IH|exact Hrun|exact Hd].
Qed.

(** Both phases of an epoch that is reached end, and the next epoch is reached. *)
Lemma reached_epoch_ends_c E txs s e :
  reaches find rdtscp schema table rehash init E (mkState txs s e) -> E <= NUM_EPOCH ->
  let head := head_of E in
  let sE := fun c => at_epoch E (s c) in
  forall rounds, Forall (fair 64) rounds -> (9 * initialization_total txs head <= length rounds)%nat ->
  exists pool e1, run_schedule (concat rounds) (workers txs head sE) e = Ok (pool, e1) /\ all_done pool /\
  forall rounds', Forall (fair 64) rounds' -> (2 * phase_work txs head N 5 <= length rounds')%nat ->
  exists pool' e2,
    run_schedule (concat rounds') (executors (initialized_txs txs head pool) head (objects sE pool)) e1 = Ok (pool', e2) /\
    all_done pool' /\ reaches find rdtscp schema table rehash init (E + 1) (mkState (initialized_txs txs head pool) (objects sE pool) e2).
Proof.
  intros Hr HE head sE rounds Hfair Hlen.
  pose proof (reaches_boundary_c find rdtscp schema table rehash find_inj rehash_perm init W ok E _ Hr) as Hb.
  pose proof (boundary_input_c find schema table init W ok E _ Hb HE) as Hin. pose proof (reaches_free_c _ _ Hr) as Hfree.
  destruct (initialization_ends_c E W txs head sE e Hin rounds Hfree Hfair Hlen) as (pool & e1 & Hrun & Hd).
  exists pool, e1. split; [done|]. split; [done|]. intros rounds' Hfair' Hlen'.
  destruct (execution_ends_c find rdtscp schema table rehash find_inj rehash_perm E W txs head sE e Hin (concat rounds) pool e1 rounds' Hrun Hd Hfair' Hlen')
    as (pool' & e2 & Hrun' & Hd'). exists pool', e2. split; [done|]. split; [done|].
  apply (reaches_next _ _ _ _ _ _ E (mkState txs s e)); [done|done|]. by eapply epoch_runs.
Qed.

Lemma every_epoch_reached_c n :
  Z.of_nat n <= NUM_EPOCH -> exists st, reaches find rdtscp schema table rehash init (Z.of_nat n + 1) st.
Proof.
  assert (Hfair : forall m, Forall (fair 64) (replicate m (seq 0 64))).
  { intros m. apply Forall_replicate. intros i Hi. apply elem_of_seq. lia. }
  induction n as [|n IH]; intros Hn; [exists init; constructor|].
  destruct IH as [[txs s e] Hr]; [lia|].
  destruct (reached_epoch_ends_c _ txs s e Hr ltac:(lia) _ (Hfair _) ltac:(rewrite length_replicate; reflexivity))
    as (pool & e1 & _ & _ & Hnext).
  destruct (Hnext _ (Hfair _) ltac:(rewrite length_replicate; reflexivity)) as (pool' & e2 & _ & _ & Hr').
  replace (Z.of_nat (S n) + 1) with (Z.of_nat n + 1 + 1) by lia. by eexists.
Qed.
End Epoch.

(** C4. No worker of Caracal waits forever: from a loaded database with free
    latches, in every epoch that is reached, both phases end under every
    schedule in which each worker gets a turn per round, after at most nine
    rounds per step of the initialisation phase (one per worker and
    transaction, and 23 per write) and two per step of the execution phase;
    and every epoch is reached.  Assumed ([program_ok]): fewer than 4160
    transactions per epoch, room for at least one slot in a buffer, and 64 buffers
    more (NUM_REGIONS) than rows that are ever written. *)
Theorem caracal_epochs_terminate `{BuildConfig} find rdtscp schema table rehash init W
  (find_inj : forall k1 k2 a, is_key k1 -> is_key k2 ->
     find table k1 = Some a -> find table k2 = Some a -> k1 = k2)
  (rehash_perm : forall m, rehash m ≡ₚ m)
  (ok : program_ok find schema table init W) (free : latches_free (st_env init)) :
  (forall E, 1 <= E <= NUM_EPOCH + 1 -> exists st, reaches find rdtscp schema table rehash init E st) /\
  forall E txs s e, reaches find rdtscp schema table rehash init E (mkState txs s e) -> E <= NUM_EPOCH ->
  let head := head_of E in
  let sE := fun c => at_epoch E (s c) in
  forall rounds, Forall (fair 64) rounds -> (9 * initialization_total txs head <= length rounds)%nat ->
  exists pool e1, run_schedule (concat rounds) (workers find rdtscp table rehash txs head sE) e = Ok (pool, e1) /\ all_done pool /\
  forall rounds', Forall (fair 64) rounds' ->
    (2 * phase_work txs head (Z.to_nat NUM_TXS_IN_ONE_EPOCH_IN_ONE_CORE) 5 <= length rounds')%nat ->
  exists pool' e2,
    run_schedule (concat rounds') (executors find rdtscp schema table (initialized_txs txs head pool) head (objects sE pool)) e1
      = Ok (pool', e2) /\ all_done pool'.
Proof.
  split.
  - intros E HE. replace E with (Z.of_nat (Z.to_nat (E - 1)) + 1) by lia.
    apply (every_epoch_reached_c find rdtscp schema table rehash find_inj rehash_perm init W ok free). lia.
  - intros E txs s e Hr HE head sE rounds Hfair Hlen.
    destruct (reached_epoch_ends_c find rdtscp schema table rehash find_inj rehash_perm init W ok free E txs s e Hr HE rounds Hfair Hlen)
      as (pool & e1 & Hrun & Hd & Hnext). exists pool, e1. split; [done|]. split; [done|]. intros rounds' Hfair' Hlen'.
    destruct (Hnext rounds' Hfair' Hlen') as (pool' & e2 & Hrun' & Hd' & _). by exists pool', e2.
Qed.
