(* ===== verification/ServalRow.v ===== *)
(** * ServalRow: the per-row storage of Serval

    [protocols/serval/include/row_region.hpp] and [value.hpp]: one module per
    class, one definition per method.  A container is a value; a method that
    mutates it returns the new container, in the error/state monad over the
    environment of [Memory] (the heap of versions and the statistics).  The
    [RowRegion]s live in the controller's array, the environment's [pool], and
    a [Value] points at one of them by index. *)
From S2P Require Import Prelude Bitmap Conc RWLock Memory.

Definition MAX_SLOTS_OF_PER_CORE_ARRAY : Z := 64.

Module GlobalVersionArray.

(** Ascending order. *)
Record t := mk { ids_slots_ : list (Z * ptr) }.

Section Methods.
Context {P R : Type} `{BuildConfig}.
Local Abbreviation E := (Env P R).

Definition is_exist (a : t) (tx : Z) : bool :=
  bool_decide (is_Some (list_find (fun pair => pair.1 = tx) (ids_slots_ a))).

Definition search_visible_version (a : t) (serial_id : Z) : outcome (bool * Z * ptr) :=
  match ids_slots_ a with
  | [] => mret (false, 0, None)
  | front :: _ =>
      if serial_id <=? front.1 then mret (false, 0, None)
      else
        let it := upper_bound (fun pair => serial_id <=? pair.1) (ids_slots_ a) in
        (* --it *)
        p ← (match it with O => Err UndefinedBehaviour | S it' => deref (ids_slots_ a !! it') end);
        mret (true, u64 p.1, p.2)
  end.

Definition append (a : t) (version : ptr) (serial_id : Z) : outcome t :=
  assert_ (nonnull version);;
  let it := upper_bound (fun value => serial_id <? value.1) (ids_slots_ a) in
  l ← vector_insert (ids_slots_ a) it (serial_id, version);
  mret (mk l).

Definition minor_gc (a : t) : M E t :=
  l ← forM (ids_slots_ a) (fun '(id, version) =>
        assertM (nonnull version);;
        v ← load_version version;
        assertM (nonnull (rec v));;
        assertM (bool_decide (status v = STABLE));;
        collect_version version;;
        mret (id, None : ptr));
  mret (mk l).

Definition gc (a : t) : M E t := _ ← minor_gc a; mret (mk []).

Definition is_empty (a : t) : bool := bool_decide (ids_slots_ a = []).
Definition is_dirty (a : t) : bool := negb (bool_decide (ids_slots_ a = [])).

Definition pop_final_state (a : t) : outcome (Z * ptr * t) :=
  if is_empty a then mret (-1, None, a)
  else
    last ← vector_back (ids_slots_ a);
    l ← vector_pop_back (ids_slots_ a);
    mret (last, mk l).

Definition latest (a : t) : outcome (Z * ptr) :=
  if is_empty a then mret (-1, None) else vector_back (ids_slots_ a).

End Methods.
End GlobalVersionArray.

Module PerCoreVersionArray.

Record t := mk { transaction_bitmap_ : Z; slots_ : list ptr }.
Definition init : t := mk 0 [].

Section Methods.
Context {P R : Type} `{BuildConfig}.
Local Abbreviation E := (Env P R).

Definition minor_gc (a : t) : M E t :=
  l ← forM (slots_ a) (fun version =>
        assertM (nonnull version);;
        v ← load_version version;
        assertM (nonnull (rec v));;
        assertM (bool_decide (status v = STABLE));;
        collect_version version;;
        mret (None : ptr));
  mret (mk (transaction_bitmap_ a) l).

Definition do_gc_and_initialize_tx_bitmap (a : t) : M E t :=
  _ ← minor_gc a; mret (mk 0 []).

Definition update_transaction_bitmap (a : t) (tx_id : Z) : outcome t :=
  b ← is_bit_set_at_the_position (transaction_bitmap_ a) (i32 tx_id);
  assert_ (negb b);;
  let bits := transaction_bitmap_ a in
  bm ← set_bit_at_the_given_location_in (transaction_bitmap_ a) tx_id;
  assert_ (negb (bits =? bm));;
  assert_ (builtin_popcountll bits + 1 =? builtin_popcountll bm);;
  b' ← is_bit_set_at_the_position bm (i32 tx_id);
  assert_ b';;
  mret (mk bm (slots_ a)).

Definition length_ (a : t) : Z := builtin_popcountll (transaction_bitmap_ a).

Definition get (a : t) (tx : Z) : outcome ptr :=
  assert_ (tx <? 64);;
  b ← set_bit_at_the_given_location tx;
  assert_ (negb (b =? 0));;
  mask ← fill_the_left_side_until_the_given_position (i32 tx);
  let len := builtin_popcountll (Z.land (transaction_bitmap_ a) mask) in
  let index := len - 1 in
  assert_ (0 <=? index);;
  p ← vector_at (slots_ a) index;
  assert_ (nonnull p);;
  mret p.

Definition latest (a : t) : outcome ptr :=
  assert_ (0 <? length_ a);;
  assert_ (length_ a =? Z.of_nat (length (slots_ a)));;
  vector_at (slots_ a) (length_ a - 1).

Definition pop_latest (a : t) : outcome (Z * ptr * t) :=
  assert_ (0 <? length_ a);;
  assert_ (length_ a =? Z.of_nat (length (slots_ a)));;
  last ← vector_back (slots_ a);
  l ← vector_pop_back (slots_ a);
  pos ← find_the_largest (transaction_bitmap_ a);
  mret (pos, last, mk (transaction_bitmap_ a) l).

Definition append (a : t) (version : ptr) (tx_id : Z) : outcome t :=
  assert_ (nonnull version);;
  assert_ (tx_id <? 64);;
  assert_ (length_ a <? MAX_SLOTS_OF_PER_CORE_ARRAY);;
  let len := length_ a in
  let debug_len := Z.of_nat (length (slots_ a)) in
  assert_ (len =? Z.of_nat (length (slots_ a)));;
  assert_ (Z.of_nat (length (slots_ a)) <? 64);;
  l ← vector_insert (slots_ a) (Z.to_nat len) version;
  assert_ (Z.of_nat (length l) <? 64);;
  assert_ (debug_len + 1 =? Z.of_nat (length l));;
  b ← is_bit_set_at_the_position (transaction_bitmap_ a) (i32 tx_id);
  assert_ (negb b);;
  a' ← update_transaction_bitmap (mk (transaction_bitmap_ a) l) tx_id;
  b' ← is_bit_set_at_the_position (transaction_bitmap_ a') (i32 tx_id);
  assert_ b';;
  assert_ (len + 1 =? length_ a');;
  assert_ (length_ a' =? Z.of_nat (length (slots_ a')));;
  mret a'.

End Methods.
End PerCoreVersionArray.

Module RowRegion.

Record t := mk {
  core_bitmap_ : Z;
  arrays_ : list PerCoreVersionArray.t     (* one per logical core *)
}.
Definition init : t := mk 0 (replicate (Z.to_nat LOGICAL_CORE_SIZE) PerCoreVersionArray.init).

Section Methods.
Context {P R : Type} `{BuildConfig}.
Local Abbreviation E := (Env P R).

(** [*arrays_[core]]. *)
Definition array (r : t) (core : Z) : outcome PerCoreVersionArray.t := vector_at (arrays_ r) core.
Definition set_array (r : t) (core : Z) (a : PerCoreVersionArray.t) : t :=
  mk (core_bitmap_ r) (<[Z.to_nat core := a]> (arrays_ r)).

Definition initialize_core_bitmap (r : t) : t := mk 0 (arrays_ r).

Definition identify_visible_version (r : t) (core tx : Z) : outcome (bool * Z * Z) :=
  '(second_core, first_core) ←
    find_the_two_largest_among_or_less_than (core_bitmap_ r) (i32 core);
  if first_core =? -1 then
    assert_ ((first_core =? -1) && (second_core =? -1));;
    mret (false, 0, 0)
  else if first_core =? i32 core then
    a ← array r first_core;
    first_tx ← find_the_largest_among_less_than
                 (PerCoreVersionArray.transaction_bitmap_ a) (i32 tx);
    if negb (first_tx =? -1) then mret (true, u64 first_core, u64 first_tx)
    else if negb (second_core =? -1) then
      a2 ← array r second_core;
      tx2 ← find_the_largest (PerCoreVersionArray.transaction_bitmap_ a2);
      mret (true, u64 second_core, u64 tx2)
    else mret (false, 0, 0)
  else
    assert_ ((0 <=? first_core) && (u64 first_core <? core));;
    a ← array r first_core;
    tx1 ← find_the_largest (PerCoreVersionArray.transaction_bitmap_ a);
    mret (true, u64 first_core, u64 tx1).

Definition is_dirty (r : t) : bool := negb (core_bitmap_ r =? 0).

Definition pop_final_state (r : t) : outcome (Z * ptr * t) :=
  core ← find_the_largest (core_bitmap_ r);
  a ← array r core;
  '(id, last, a') ← PerCoreVersionArray.pop_latest a;
  mret (id, last, set_array r core a').

Definition gc_and_initialize_tx_bitmap (r : t) (core : Z) : M E t :=
  a ← lift (array r core);
  a' ← PerCoreVersionArray.do_gc_and_initialize_tx_bitmap a;
  mret (set_array r core a').

Definition is_first_write (r : t) (core : Z) : outcome bool :=
  b ← is_bit_set_at_the_position (core_bitmap_ r) (i32 core); mret (negb b).

Definition append (r : t) (core : Z) (version : ptr) (tx : Z) : M E t :=
  assertM (nonnull version);;
  assertM (tx <? 64);;
  b ← lift (is_bit_set_at_the_position (core_bitmap_ r) (i32 core));
  let is_first_write := negb b in
  r1 ← (if is_first_write then
          r' ← gc_and_initialize_tx_bitmap r core;
          bit ← lift (set_bit_at_the_given_location core);
          let r'' := mk (Z.lor (core_bitmap_ r') bit) (arrays_ r') in
          b' ← lift (is_bit_set_at_the_position (core_bitmap_ r'') (i32 core));
          assertM b';;
          mret r''
        else mret r);
  b2 ← lift (is_bit_set_at_the_position (core_bitmap_ r1) (i32 core));
  assertM b2;;
  a ← lift (array r1 core);
  a' ← lift (PerCoreVersionArray.append a version tx);
  mret (set_array r1 core a').

End Methods.
End RowRegion.

(** [struct Value] of [value.hpp]: the row.  [row_region_] is the index of the
    region in the controller's array. *)
Record Value := mkValue {
  rwl : RWLock;
  epoch_ : Z;
  master_ : ptr;                            (* final state *)
  global_array_ : GlobalVersionArray.t;
  row_region_ : option nat
}.
Definition Value_init : Value := mkValue RWLock_init 0 None (GlobalVersionArray.mk []) None.

Abbreviation SEnv := (Env RowRegion.t Value).

Section ValueMethods.
Context `{BuildConfig}.

Definition load_region (g : nat) : M SEnv RowRegion.t := e ← getM; derefM (pool e !! g).
Definition store_region (g : nat) (r : RowRegion.t) : M SEnv unit :=
  modifyM (set_pool (fun p => <[g := r]> p)).

Definition has_dirty_region (v : Value) : M SEnv bool :=
  match row_region_ v with
  | Some g => r ← load_region g; mret (RowRegion.is_dirty r)
  | None => mret false
  end.

Definition gc_master_version (v : Value) (latest : ptr) : M SEnv Value :=
  assertM (nonnull (master_ v));;
  m ← load_version (master_ v);
  assertM (nonnull (rec m));;
  collect_version (master_ v);;
  mret (mkValue (rwl v) (epoch_ v) latest (global_array_ v) (row_region_ v)).

Definition initialize_the_row (v : Value) (epoch : Z) : M SEnv Value :=
  d ← has_dirty_region v;
  assertM (negb (GlobalVersionArray.is_dirty (global_array_ v) && d));;
  v' ← (if GlobalVersionArray.is_dirty (global_array_ v) then
          assertM (negb d);;
          '(_, latest, a) ← lift (GlobalVersionArray.pop_final_state (global_array_ v));
          assertM (nonnull latest);;
          a' ← GlobalVersionArray.gc a;
          gc_master_version (mkValue (rwl v) (epoch_ v) (master_ v) a' (row_region_ v)) latest
        else if d then
          g ← derefM (row_region_ v);
          r ← load_region g;
          '(_, latest, r') ← lift (RowRegion.pop_final_state r);
          assertM (nonnull latest);;
          store_region g (RowRegion.initialize_core_bitmap r');;
          gc_master_version v latest
        else mret v);
  mret (mkValue (rwl v') epoch (master_ v') (global_array_ v') (row_region_ v')).

End ValueMethods.

(** [RowRegionController]: the regions are handed out in order; the constructor
    builds all of them empty.  The exception leaves the latch held. *)
Module RowRegionController.
Section Methods.
Context `{BuildConfig} (me : nat).

Definition init : list RowRegion.t := replicate (Z.to_nat NUM_REGIONS) RowRegion.init.

Definition lock_ref : LockAt SEnv := mkLockAt (fun e => Some (lock_ e)) set_lock_.

(** [row] is ghost: the row the region will serve. *)
Definition take_region (row : addr) : M SEnv nat :=
  e ← getM;
  assertM (used_ e <? NUM_REGIONS);;
  if NUM_REGIONS <=? used_ e then failM (RuntimeError "NUM_REGIONS <= used_")
  else
    modifyM (set_used (used_ e + 1));;
    modifyM (set_handed (handed_ e ++ [row]));;
    mret (Z.to_nat (used_ e)).

Definition fetch_new_region (row : addr) : prog SEnv nat :=
  lock lock_ref me ;;
  region ← act (take_region row);
  unlock lock_ref ;;
  mret region.

End Methods.
End RowRegionController.

(** ** Representation

    What a container holds, as a list of (serial id, version) pairs in the
    order of the serial ids. *)
Definition core_of (serial : Z) : Z := serial / 64.
Definition tx_of (serial : Z) : Z := serial mod 64.

Definition array_history (core : Z) (a : PerCoreVersionArray.t) : list (Z * ptr) :=
  zip ((fun tx => core * 64 + tx) <$> positions (PerCoreVersionArray.transaction_bitmap_ a))
      (PerCoreVersionArray.slots_ a).
Definition core_history (r : RowRegion.t) (core : Z) : list (Z * ptr) :=
  from_option (array_history core) [] (RowRegion.arrays_ r !! Z.to_nat core).
Definition region_history (r : RowRegion.t) : list (Z * ptr) :=
  concat (core_history r <$> positions (RowRegion.core_bitmap_ r)).

(** A per-core array in use: one slot per bit. *)
Definition array_ok (a : PerCoreVersionArray.t) : Prop :=
  word64 (PerCoreVersionArray.transaction_bitmap_ a) /\
  length (PerCoreVersionArray.slots_ a)
    = length (positions (PerCoreVersionArray.transaction_bitmap_ a)) /\
  Forall is_Some (PerCoreVersionArray.slots_ a).

Definition region_ok (r : RowRegion.t) : Prop :=
  word64 (RowRegion.core_bitmap_ r) /\ length (RowRegion.arrays_ r) = 64%nat /\
  forall core a, core ∈ positions (RowRegion.core_bitmap_ r) ->
    RowRegion.arrays_ r !! Z.to_nat core = Some a ->
    array_ok a /\ PerCoreVersionArray.slots_ a <> [].

Definition global_ok (g : GlobalVersionArray.t) : Prop :=
  ascending (GlobalVersionArray.ids_slots_ g) /\
  Forall (fun p => is_Some p.2) (GlobalVersionArray.ids_slots_ g).

(** Room for one more slot: [append] asserts [slots_.size() < 64] after the insertion. *)
Definition room `{BuildConfig} (a : PerCoreVersionArray.t) : Prop :=
  NDEBUG = true \/ (length (PerCoreVersionArray.slots_ a) < 63)%nat.

Section Representation.
Context `{BuildConfig}.
Import PerCoreVersionArray.

Lemma array_length_ a : array_ok a -> length_ a = Z.of_nat (length (slots_ a)).
Proof. intros (Hw & Hl & Hs). unfold length_. by rewrite popcount_positions, Hl. Qed.

Lemma array_at_most_64 a : array_ok a -> (length (slots_ a) <= 64)%nat.
Proof.
  intros Hok. pose proof (array_length_ a Hok). unfold length_ in *.
  pose proof (popcount_bound (transaction_bitmap_ a)). lia.
Qed.

(** An ascending list of positions below [tx] has at most [tx] elements. *)
Lemma positions_below_length bm tx :
  Forall (fun q => q < tx) (positions bm) -> (length (positions bm) <= Z.to_nat tx)%nat.
Proof.
  intros Hlt. pose proof (List.NoDup_incl_length (l := Z.to_nat <$> positions bm)
    (l' := List.seq 0 (Z.to_nat tx))) as Hi.
  rewrite List.length_seq, length_fmap in Hi. rewrite Forall_forall in Hlt. apply Hi.
  - apply NoDup_ListNoDup, NoDup_fmap_2_strong.
    + intros x y [Hx _]%elem_of_positions [Hy _]%elem_of_positions. lia.
    + apply NoDup_filter, NoDup_seqZ.
  - intros x Hx%list_elem_of_In. apply list_elem_of_fmap in Hx as (y & -> & Hy).
    apply List.in_seq. pose proof (Hlt y Hy). apply elem_of_positions in Hy as [? _]. lia.
Qed.

(** [update_transaction_bitmap] sets a clear bit. *)
Lemma update_transaction_bitmap_eq a tx :
  0 <= tx < 64 -> Forall (fun q => q < tx) (positions (transaction_bitmap_ a)) ->
  update_transaction_bitmap a tx
  = Ok (mk (Z.lor (transaction_bitmap_ a) (2 ^ (63 - tx))) (slots_ a)).
Proof.
  intros Ht Hlt. set (bm := transaction_bitmap_ a) in *.
  assert (Hclear : bit_at bm tx = false) by by apply bit_above_clear.
  assert (Hset : bit_at (Z.lor bm (2 ^ (63 - tx))) tx = true).
  { rewrite bit_at_lor, bit_at_pow2, Z.eqb_refl by lia. apply orb_true_r. }
  unfold update_transaction_bitmap. fold bm.
  rewrite i32_small, is_bit_set_eq by lia. simpl. rewrite Hclear. run_assert by done.
  rewrite set_bit_in_eq by done. simpl.
  run_assert by (apply negb_true_iff, Z.eqb_neq; intros Heq; by rewrite <- Heq, Hclear in Hset).
  rewrite !popcount_positions, positions_set_last, length_app by done. cbn [length].
  run_assert by bool_lia. rewrite is_bit_set_eq by done. simpl. rewrite Hset. by run_assert by done.
Qed.

(** Appending a transaction beyond every recorded one. *)
Lemma array_append_eq a p tx :
  array_ok a -> is_Some p -> 0 <= tx < 64 -> room a ->
  Forall (fun q => q < tx) (positions (transaction_bitmap_ a)) ->
  append a p tx = Ok (mk (Z.lor (transaction_bitmap_ a) (2 ^ (63 - tx))) (slots_ a ++ [p])).
Proof.
  intros Hok Hp Ht Hroom Hlt. pose proof (array_length_ a Hok) as Hlen.
  pose proof Hok as (Hw & Hsl & Hs).
  pose proof (positions_below_length _ _ Hlt) as Hsmall.
  unfold append. run_assert by (by apply nonnull_Some). run_assert by bool_lia.
  run_assert by (rewrite Hlen; unfold MAX_SLOTS_OF_PER_CORE_ARRAY; bool_lia).
  run_assert by (rewrite Hlen; bool_lia). run_assert by bool_lia.
  rewrite Hlen, Nat2Z.id. replace (slots_ a) with (slots_ a ++ []) at 1 by apply app_nil_r.
  rewrite vector_insert_length. simpl.
  destruct Hroom as [Hnd|Hroom].
  - unfold assert_ at 1. rewrite Hnd. simpl. unfold assert_. rewrite Hnd. simpl.
    rewrite i32_small, is_bit_set_eq by lia. simpl.
    rewrite update_transaction_bitmap_eq by done. simpl.
    rewrite is_bit_set_eq by done. done.
  - rewrite length_app; simpl. run_assert by bool_lia. run_assert by bool_lia.
    assert (Hclear : bit_at (transaction_bitmap_ a) tx = false) by by apply bit_above_clear.
    rewrite i32_small, is_bit_set_eq by lia. simpl. rewrite Hclear. run_assert by done.
    rewrite update_transaction_bitmap_eq by done. simpl.
    rewrite is_bit_set_eq by done. simpl.
    run_assert by (rewrite bit_at_lor, bit_at_pow2, Z.eqb_refl by lia; apply orb_true_r).
    unfold length_; simpl. rewrite popcount_positions, positions_set_last, !length_app by done.
    simpl. run_assert by bool_lia. by run_assert by bool_lia.
Qed.

Lemma array_append_ok a p tx :
  array_ok a -> is_Some p -> 0 <= tx < 64 ->
  Forall (fun q => q < tx) (positions (transaction_bitmap_ a)) ->
  array_ok (mk (Z.lor (transaction_bitmap_ a) (2 ^ (63 - tx))) (slots_ a ++ [p])).
Proof.
  intros (Hw & Hl & Hs) Hp Ht Hlt. split; simpl; [by apply word64_lor, word64_pow2|].
  rewrite positions_set_last, !length_app by done. simpl. split; [lia|].
  apply Forall_app. split; [done|by constructor].
Qed.

Lemma array_append_history core a p tx :
  array_ok a -> 0 <= tx < 64 -> Forall (fun q => q < tx) (positions (transaction_bitmap_ a)) ->
  array_history core (mk (Z.lor (transaction_bitmap_ a) (2 ^ (63 - tx))) (slots_ a ++ [p]))
  = array_history core a ++ [(core * 64 + tx, p)].
Proof.
  intros (Hw & Hl & Hs) Ht Hlt. unfold array_history. simpl.
  rewrite positions_set_last, fmap_app by done. simpl.
  by rewrite zip_with_app by (by rewrite length_fmap).
Qed.

(** [get] finds the slot of a recorded transaction. *)
Lemma array_get_eq a i tx :
  array_ok a -> positions (transaction_bitmap_ a) !! i = Some tx ->
  exists p, slots_ a !! i = Some (Some p) /\ get a tx = Ok (Some p).
Proof.
  intros Hok Hi. pose proof Hok as (Hw & Hl & Hs).
  pose proof (list_elem_of_lookup_2 _ _ _ Hi) as [Ht Hb]%elem_of_positions.
  destruct (lookup_lt_is_Some_2 (slots_ a) i) as [q Hq].
  { rewrite Hl. by eapply lookup_lt_Some. }
  rewrite Forall_lookup in Hs. destruct (Hs i q Hq) as [p ->]. exists p. split; [done|].
  unfold get. run_assert by bool_lia.
  rewrite set_bit_at_the_given_location_eq by done. simpl.
  run_assert by (apply negb_true_iff, Z.eqb_neq; lia).
  rewrite i32_small, fill_until_eq by lia. simpl. rewrite popcount_prefix by lia.
  assert (Hpre : filter (fun p => p < tx + 1) (positions (transaction_bitmap_ a))
                 = take (S i) (positions (transaction_bitmap_ a))).
  { apply sorted_prefix; [apply positions_sorted|done]. }
  rewrite Hpre, length_take. pose proof (lookup_lt_Some _ _ _ Hi).
  rewrite Nat.min_l by lia. replace (Z.of_nat (S i) - 1) with (Z.of_nat i) by lia.
  run_assert by bool_lia. unfold vector_at. rewrite decide_True, Nat2Z.id, Hq by lia. simpl.
  by run_assert by by apply nonnull_Some.
Qed.

Lemma array_history_ascending core a : ascending (array_history core a).
Proof.
  unfold ascending, ids, array_history.
  assert (Hs : StronglySorted Z.lt ((fun tx => core * 64 + tx) <$> positions (transaction_bitmap_ a))).
  { apply sorted_fmap; [lia|apply positions_sorted]. }
  revert Hs. generalize ((fun tx => core * 64 + tx) <$> positions (transaction_bitmap_ a)).
  intros l. revert l. induction (slots_ a) as [|p ps IH]; intros [|x l] Hs; simpl; try constructor.
  - inversion Hs; subst. by apply IH.
  - inversion Hs as [|? ? ? Hx]; subst. apply Forall_forall. intros y Hy.
    apply list_elem_of_fmap in Hy as ([y' q] & -> & Hin%elem_of_zip_l).
    by eapply Forall_forall in Hx.
Qed.

Lemma elem_of_array_history core a s p :
  (s, p) ∈ array_history core a <->
  exists i tx, positions (transaction_bitmap_ a) !! i = Some tx /\ slots_ a !! i = Some p /\
               s = core * 64 + tx.
Proof.
  unfold array_history. rewrite list_elem_of_lookup. setoid_rewrite lookup_zip_with_Some.
  setoid_rewrite list_lookup_fmap_Some. split.
  - intros (i & x & y & [= -> ->] & (tx & -> & Htx) & Hp). eauto.
  - intros (i & tx & Htx & Hp & ->). exists i. eauto 10.
Qed.

End Representation.

Section Region.
Context `{BuildConfig}.
Import RowRegion.
Local Abbreviation bits := PerCoreVersionArray.transaction_bitmap_.
Local Abbreviation slots := PerCoreVersionArray.slots_.

Lemma array_eq r core a :
  0 <= core -> arrays_ r !! Z.to_nat core = Some a -> array r core = Ok a.
Proof. intros Hc Ha. unfold array, vector_at. by rewrite decide_True, Ha. Qed.

Lemma region_array r core :
  region_ok r -> 0 <= core < 64 -> exists a, arrays_ r !! Z.to_nat core = Some a.
Proof. intros (_ & Hl & _) Hc. apply lookup_lt_is_Some_2. lia. Qed.

Lemma elem_of_core_history r core s p :
  (s, p) ∈ core_history r core <->
  exists a i tx, arrays_ r !! Z.to_nat core = Some a /\ positions (bits a) !! i = Some tx /\
                 slots a !! i = Some p /\ s = core * 64 + tx.
Proof.
  unfold core_history. destruct (arrays_ r !! Z.to_nat core) as [a|] eqn:Ha; simpl.
  - rewrite elem_of_array_history. split.
    + intros (i & tx & ?). by exists a, i, tx.
    + intros (a' & i & tx & [= <-] & ?). by exists i, tx.
  - split; [by intros ?%not_elem_of_nil|]. by intros (? & ? & ? & [=] & _).
Qed.

Lemma core_history_block r core :
  ascending (core_history r core) /\
  Forall (fun p => core * 64 <= p.1 < (core + 1) * 64) (core_history r core).
Proof.
  split.
  - unfold core_history. destruct (arrays_ r !! Z.to_nat core); [|constructor].
    apply array_history_ascending.
  - apply Forall_forall. intros [s p] Hp.
    apply elem_of_core_history in Hp as (a & i & tx & _ & Htx & _ & ->).
    apply list_elem_of_lookup_2, elem_of_positions in Htx as [? _]. simpl. lia.
Qed.

Lemma region_history_ascending r : ascending (region_history r).
Proof.
  apply (ascending_concat _ _ 64); [apply positions_sorted| |lia].
  intros c _. apply core_history_block.
Qed.

Lemma elem_of_region_history r s p :
  (s, p) ∈ region_history r <->
  exists core, core ∈ positions (core_bitmap_ r) /\ (s, p) ∈ core_history r core.
Proof. apply elem_of_concat_fmap. Qed.

(** The identifiers of a block determine its core. *)
Lemma core_history_core r core s p :
  (s, p) ∈ core_history r core -> core_of s = core.
Proof.
  intros Hp. destruct (core_history_block r core) as [_ Hb]. rewrite Forall_forall in Hb.
  apply Hb in Hp. simpl in Hp. unfold core_of. symmetry. apply Z.div_unique with (s - core * 64); lia.
Qed.

(** Every core recorded in the bitmap has written. *)
Lemma core_history_last r core a :
  region_ok r -> core ∈ positions (core_bitmap_ r) -> arrays_ r !! Z.to_nat core = Some a ->
  exists tx p, last (positions (bits a)) = Some tx /\ last (slots a) = Some p /\
    (core * 64 + tx, p) ∈ core_history r core /\
    forall q, q ∈ core_history r core -> q.1 <= core * 64 + tx.
Proof.
  intros (_ & _ & Hr) Hc Ha. destruct (Hr core a Hc Ha) as [(Hw & Hl & Hs) Hne].
  destruct (last (slots a)) as [p|] eqn:Hp; [|by apply last_None in Hp].
  rewrite last_lookup in Hp. pose proof (lookup_lt_Some _ _ _ Hp) as Hlt.
  destruct (lookup_lt_is_Some_2 (positions (bits a)) (pred (length (slots a)))) as [tx Htx]; [lia|].
  exists tx, p. rewrite last_lookup, <- Hl. split_and!; [done..| |].
  - apply elem_of_core_history. by exists a, (pred (length (slots a))), tx.
  - intros [s q] Hq. apply elem_of_core_history in Hq as (a' & i & t & Ha' & Hi & _ & ->).
    simplify_eq. simpl. rewrite Hl, <- last_lookup in Htx.
    apply sorted_last in Htx as [_ Hmax]; [|apply positions_sorted].
    pose proof (Hmax t (list_elem_of_lookup_2 _ _ _ Hi)). lia.
Qed.

Lemma visible_before_block r (l : list (Z * ptr)) id p core :
  ascending l -> (forall q, q ∈ l <-> q ∈ region_history r) ->
  p ∈ core_history r core -> core ∈ positions (core_bitmap_ r) -> p.1 < id ->
  (forall c q, c ∈ positions (core_bitmap_ r) -> q ∈ core_history r c -> q.1 < id -> q.1 <= p.1) ->
  visible_before id l = Some p.
Proof.
  intros Hl Heq Hp Hc Hid Hmax. apply visible_before_spec; [done|]. split_and!; [|done|].
  - apply Heq. destruct p. apply elem_of_region_history. eauto.
  - intros [s q] Hq. apply Heq, elem_of_region_history in Hq as (c & Hc' & Hq). by apply (Hmax c).
Qed.

Lemma last_or_minus_one_Some (l : list Z) x : last l = Some x -> last_or_minus_one l = x.
Proof. unfold last_or_minus_one. by intros ->. Qed.

(** What [find_the_largest] and [get] return for the last write of a core. *)
Lemma core_final r core a :
  region_ok r -> core ∈ positions (core_bitmap_ r) -> arrays_ r !! Z.to_nat core = Some a ->
  exists tx p, find_the_largest (bits a) = Ok tx /\ PerCoreVersionArray.get a tx = Ok p /\
    0 <= tx < 64 /\ last (slots a) = Some p /\
    (core * 64 + tx, p) ∈ core_history r core /\
    forall q, q ∈ core_history r core -> q.1 <= core * 64 + tx.
Proof.
  intros Hok Hc Ha. pose proof Hok as (_ & _ & Hr). destruct (Hr core a Hc Ha) as [Haok _].
  destruct (core_history_last r core a Hok Hc Ha) as (tx & p & Htx & Hp & Hin & Hmax).
  exists tx, p. pose proof Htx as [Ht%elem_of_positions _]%sorted_last; [|apply positions_sorted].
  split_and!; try done; try lia; [by apply find_the_largest_eq|].
  rewrite last_lookup in Htx. destruct (array_get_eq a _ tx Haok Htx) as (p' & Hp' & ->).
  destruct Haok as (_ & Hl & _). rewrite <- Hl, <- last_lookup in Hp'. by simplify_eq.
Qed.

End Region.

Section Visible.
Context `{BuildConfig}.
Import RowRegion.
Local Abbreviation bits := PerCoreVersionArray.transaction_bitmap_.
Local Abbreviation slots := PerCoreVersionArray.slots_.

(** The answer of [identify_visible_version] that matches a visible slot. *)
Definition identifies (r : t) (core tx : Z) (v : option (Z * ptr)) : Prop :=
  match v with
  | None => identify_visible_version r core tx = Ok (false, 0, 0)
  | Some (s, p) =>
      identify_visible_version r core tx = Ok (true, core_of s, tx_of s) /\
      0 <= core_of s < 64 /\ 0 <= tx_of s < 64 /\ s = core_of s * 64 + tx_of s /\
      exists a, array r (core_of s) = Ok a /\ PerCoreVersionArray.get a (tx_of s) = Ok p
  end.

Lemma compose_core core tx : 0 <= tx < 64 -> core_of (core * 64 + tx) = core.
Proof. intros. unfold core_of. symmetry. apply Z.div_unique with tx; lia. Qed.
Lemma compose_tx core tx : 0 <= tx < 64 -> tx_of (core * 64 + tx) = tx.
Proof. intros. unfold tx_of. symmetry. apply Z.mod_unique with core; lia. Qed.

Lemma core_history_range r core s p :
  (s, p) ∈ core_history r core -> core * 64 <= s < core * 64 + 64.
Proof.
  intros Hp. destruct (core_history_block r core) as [_ Hb]. rewrite Forall_forall in Hb.
  apply Hb in Hp. simpl in Hp. lia.
Qed.

(** The whole of an earlier core's block is visible; its last write is the one seen. *)
Lemma identifies_final r core tx c :
  region_ok r -> 0 <= core < 64 -> 0 <= tx < 64 ->
  c ∈ positions (core_bitmap_ r) -> c < core ->
  (forall c' q, c' ∈ positions (core_bitmap_ r) -> c < c' -> q ∈ core_history r c' ->
     core * 64 + tx <= q.1) ->
  (forall a, array r c = Ok a -> identify_visible_version r core tx
     = (t ← find_the_largest (bits a); mret (true, c, u64 t))) ->
  identifies r core tx (visible_before (core * 64 + tx) (region_history r)).
Proof.
  intros Hok Hcore Htx Hc Hlt Hgap Hid.
  pose proof Hc as [Hc64 _]%elem_of_positions.
  destruct (region_array r c Hok Hc64) as [a Ha].
  destruct (core_final r c a Hok Hc Ha) as (t & p & Hfind & Hget & Ht & _ & Hin & Hmax).
  rewrite (visible_before_block r _ _ (c * 64 + t, p) c); try done.
  - unfold identifies. rewrite (Hid a), Hfind by (by apply array_eq; [lia|]). simpl.
    rewrite compose_core, compose_tx, u64_small by lia. split_and!; try done; try lia.
    exists a. split; [by apply array_eq; [lia|]|done].
  - apply region_history_ascending.
  - simpl. lia.
  - intros c' q Hc' Hq Hlt'. simpl. destruct (decide (c' = c)) as [->|Hne]; [by apply Hmax|].
    destruct (decide (c < c')) as [Hgt|Hle].
    + specialize (Hgap c' q Hc' Hgt Hq). lia.
    + destruct q as [s q]. apply core_history_range in Hq. simpl. lia.
Qed.

Lemma visible_none r core tx :
  (forall c q, c ∈ positions (core_bitmap_ r) -> q ∈ core_history r c -> core * 64 + tx <= q.1) ->
  visible_before (core * 64 + tx) (region_history r) = None.
Proof.
  intros Hall. apply visible_before_None, Forall_forall. intros [s p] Hp.
  apply elem_of_region_history in Hp as (c & Hc & Hp). by apply (Hall c).
Qed.

(** The reader's own core, when it has written before the reader. *)
Lemma identifies_own r core tx a t :
  region_ok r -> 0 <= core < 64 -> 0 <= tx < 64 ->
  core ∈ positions (core_bitmap_ r) -> arrays_ r !! Z.to_nat core = Some a ->
  last (filter (fun p => p < tx) (positions (bits a))) = Some t ->
  identify_visible_version r core tx = Ok (true, core, u64 t) ->
  identifies r core tx (visible_before (core * 64 + tx) (region_history r)).
Proof.
  intros Hok Hcore Htx Hc Ha Hl Hid. pose proof Hok as (_ & _ & Hr).
  destruct (Hr core a Hc Ha) as [Haok _].
  apply sorted_last in Hl as [[Hlt Hin]%list_elem_of_filter Hmax];
    [|apply sorted_filter, positions_sorted].
  apply list_elem_of_lookup in Hin as [i Hi].
  destruct (array_get_eq a i t Haok Hi) as (p & Hp & Hget).
  pose proof (list_elem_of_lookup_2 _ _ _ Hi) as [Ht _]%elem_of_positions.
  rewrite (visible_before_block r _ _ (core * 64 + t, Some p) core); try done.
  - unfold identifies. rewrite Hid, compose_core, compose_tx, u64_small by lia.
    split_and!; try done; try lia. exists a. split; [by apply array_eq; [lia|]|done].
  - apply region_history_ascending.
  - apply elem_of_core_history. by exists a, i, t.
  - simpl. lia.
  - intros c [s q] Hc' Hq Hlt'. simpl in *. pose proof (core_history_range _ _ _ _ Hq).
    destruct (decide (c = core)) as [->|]; [|lia].
    apply elem_of_core_history in Hq as (a' & j & t' & Ha' & Hj & _ & ->). simplify_eq.
    assert (t' <= t); [|lia]. apply Hmax, list_elem_of_filter. split; [lia|].
    by eapply list_elem_of_lookup_2.
Qed.

(** [identify_visible_version] and [get] compute [visible_before]. *)
Lemma identify_visible r core tx :
  region_ok r -> core_bitmap_ r <> 0 -> 0 <= core < 64 -> 0 <= tx < 64 ->
  identifies r core tx (visible_before (core * 64 + tx) (region_history r)).
Proof.
  intros Hok Hdirty Hcore Htx. pose proof Hok as (Hw & Hlen & Hr).
  set (l := filter (fun p => p < core + 1) (positions (core_bitmap_ r))).
  assert (Hls : StronglySorted Z.lt l) by apply sorted_filter, positions_sorted.
  assert (Hl : forall c, c ∈ l <-> c < core + 1 /\ c ∈ positions (core_bitmap_ r))
    by (intros c; unfold l; by rewrite list_elem_of_filter).
  assert (Hunf : forall c2 c1, last_two l = (c2, c1) -> find_the_two_largest_among_or_less_than
    (core_bitmap_ r) (i32 core) = Ok (c2, c1)).
  { intros c2 c1 <-. rewrite i32_small by lia. by apply two_largest_eq. }
  destruct (last l) as [c1|] eqn:Hlast.
  2:{ apply last_None in Hlast. rewrite visible_none.
      - unfold identifies, identify_visible_version. rewrite (Hunf (-1) (-1)) by (by rewrite Hlast).
        simpl. by run_assert by done.
      - intros c [s p] Hc Hq%core_history_range. simpl.
        destruct (decide (c < core + 1)) as [Hlt|]; [|lia].
        assert (c ∈ l) as Hin by (by apply Hl). rewrite Hlast in Hin. set_solver. }
  pose proof Hlast as [l' Hl']%last_Some.
  assert (Hc1 : c1 ∈ l) by (rewrite Hl'; set_solver). pose proof (proj1 (Hl c1) Hc1) as [Hc1lt Hc1p].
  pose proof Hc1p as [Hc164 _]%elem_of_positions.
  specialize (Hunf (last_or_minus_one l') c1). rewrite Hl', last_two_snoc in Hunf.
  specialize (Hunf eq_refl).
  assert (Hmax : forall c, c ∈ positions (core_bitmap_ r) -> c1 < c -> core < c).
  { intros c Hc Hgt. destruct (decide (c < core + 1)) as [Hlt|]; [|lia].
    assert (c ∈ l) as Hin by (by apply Hl).
    apply (sorted_last l c1 Hls) in Hlast as [_ Hm]. specialize (Hm c Hin). lia. }
  assert (Hgap : forall c' q, c' ∈ positions (core_bitmap_ r) -> c1 < c' ->
    q ∈ core_history r c' -> core * 64 + tx <= q.1).
  { intros c' [s p] Hc' Hgt%Hmax Hq%core_history_range; [|done]. simpl. lia. }
  destruct (decide (c1 = core)) as [->|Hne].
  2:{ apply (identifies_final r core tx c1); try done; [lia|].
      intros a Ha. unfold identify_visible_version. rewrite Hunf. simpl.
      rewrite (proj2 (Z.eqb_neq c1 (-1))), i32_small, (proj2 (Z.eqb_neq c1 core)) by lia.
      rewrite u64_small by lia. run_assert by bool_lia. by rewrite Ha. }
  destruct (region_array r core Hok Hcore) as [a Ha].
  destruct (Hr core a Hc1p Ha) as [(Hwa & Hla & _) Hne].
  assert (Hbne : bits a <> 0).
  { intros Hz. apply Hne, length_zero_iff_nil. rewrite Hla.
    by rewrite (proj2 (positions_nil _ Hwa) Hz). }
  assert (Hid : identify_visible_version r core tx
    = let t := last_or_minus_one (filter (fun p => p < tx) (positions (bits a))) in
      if negb (t =? -1) then Ok (true, core, u64 t)
      else if negb (last_or_minus_one l' =? -1) then
        (a2 ← array r (last_or_minus_one l'); tx2 ← find_the_largest (bits a2);
         mret (true, u64 (last_or_minus_one l'), u64 tx2))
      else Ok (false, 0, 0)).
  { unfold identify_visible_version. rewrite Hunf. simpl.
    rewrite (proj2 (Z.eqb_neq core (-1))), (i32_small core), Z.eqb_refl by lia.
    rewrite (array_eq r core a) by (done || lia). simpl.
    rewrite i32_small, among_less_eq by (done || lia). simpl. by rewrite u64_small by lia. }
  destruct (last (filter (fun p => p < tx) (positions (bits a)))) as [t|] eqn:Ht.
  - apply (identifies_own r core tx a t); try done. rewrite Hid.
    rewrite (last_or_minus_one_Some _ t Ht). simpl.
    pose proof Ht as [[_ [Ht64 _]%elem_of_positions]%list_elem_of_filter _]%sorted_last;
      [|apply sorted_filter, positions_sorted].
    by rewrite (proj2 (Z.eqb_neq t (-1))) by lia.
  - unfold last_or_minus_one at 1 in Hid. rewrite Ht in Hid. simpl in Hid.
    apply last_None in Ht.
    assert (Hown : forall q, q ∈ core_history r core -> core * 64 + tx <= q.1).
    { intros [s p] Hq. apply elem_of_core_history in Hq as (a' & i & t & Ha' & Hi & _ & ->).
      simplify_eq. simpl. destruct (decide (t < tx)) as [Hlt|]; [|lia].
      assert (t ∈ filter (fun p => p < tx) (positions (bits a))) as Hin.
      { apply list_elem_of_filter. split; [done|]. by eapply list_elem_of_lookup_2. }
      rewrite Ht in Hin. set_solver. }
    rewrite Hl' in Hls.
    destruct (last l') as [c2|] eqn:Hl2.
    + rewrite (last_or_minus_one_Some _ c2 Hl2) in Hid.
      pose proof Hl2 as [l'' Hl'']%last_Some.
      assert (Hc2 : c2 ∈ l) by (rewrite Hl', Hl''; set_solver).
      pose proof (proj1 (Hl c2) Hc2) as [_ Hc2p]. pose proof Hc2p as [Hc264 _]%elem_of_positions.
      assert (c2 < core) by (apply (sorted_app_lt _ _ c2 core Hls); set_solver).
      rewrite (proj2 (Z.eqb_neq c2 (-1))), u64_small in Hid by lia. simpl in Hid.
      apply (identifies_final r core tx c2); try done.
      * intros c q Hc Hgt Hq. destruct (decide (c = core)) as [->|Hnc]; [by apply Hown|].
        destruct (decide (core < c)) as [Hgc|Hle]; [by apply (Hgap c)|].
        assert (c ∈ l) as Hin by (apply Hl; split; [lia|done]).
        rewrite Hl', Hl'' in Hin. rewrite Hl'', <- app_assoc in Hls.
        apply elem_of_app in Hin as [[Hin|Hin]%elem_of_app|Hin]; [|set_solver by lia|set_solver].
        assert (c < c2) by (apply (sorted_app_lt _ _ c c2 Hls); set_solver). lia.
      * intros a2 Ha2. by rewrite Hid, Ha2.
    + unfold last_or_minus_one in Hid. rewrite Hl2 in Hid. simpl in Hid.
      apply last_None in Hl2. subst l'. rewrite visible_none; [done|].
      intros c q Hc Hq. destruct (decide (c = core)) as [->|Hnc]; [by apply Hown|].
      destruct (decide (core < c)) as [Hgc|Hle]; [by apply (Hgap c)|].
      assert (c ∈ l) as Hin by (apply Hl; split; [lia|done]). rewrite Hl' in Hin. set_solver.
Qed.

End Visible.

(** ** Appending to a region *)
Section Append.
Context `{BuildConfig}.
Import RowRegion.
Local Abbreviation bits := PerCoreVersionArray.transaction_bitmap_.
Local Abbreviation slots := PerCoreVersionArray.slots_.

Definition recorded (r : t) (core : Z) : bool := bit_at (core_bitmap_ r) core.

(** The array [append] works on: the core's own, or a fresh one on its first
    write of the epoch. *)
Definition target (r : t) (core : Z) : PerCoreVersionArray.t :=
  if recorded r core
  then default PerCoreVersionArray.init (arrays_ r !! Z.to_nat core)
  else PerCoreVersionArray.init.

(** The versions the first write of an epoch frees. *)
Definition stale (r : t) (core : Z) : list ptr :=
  if recorded r core then []
  else from_option slots [] (arrays_ r !! Z.to_nat core).

Definition appended (r : t) (core : Z) (p : ptr) (tx : Z) : t :=
  mk (Z.lor (core_bitmap_ r) (2 ^ (63 - core)))
     (<[Z.to_nat core := PerCoreVersionArray.mk (Z.lor (bits (target r core)) (2 ^ (63 - tx)))
                           (slots (target r core) ++ [p])]> (arrays_ r)).

(** A version of transaction [tx] of [core] may be appended: it comes after
    everything the core has recorded. *)
Definition may_append (r : t) (core tx : Z) : Prop :=
  0 <= core < 64 /\ 0 <= tx < 64 /\
  Forall (fun q => q < tx) (positions (bits (target r core))) /\ room (target r core).

Lemma target_ok r core : region_ok r -> 0 <= core < 64 -> array_ok (target r core).
Proof.
  intros Hok Hc. unfold target. destruct (recorded r core) eqn:Hrec.
  - destruct (region_array r core Hok Hc) as [a Ha]. rewrite Ha. simpl.
    destruct Hok as (_ & _ & Hr). apply (Hr core a); [by apply elem_of_positions|done].
  - by repeat split.
Qed.

Lemma lor_pow2_set bm p : 0 <= p < 64 -> word64 bm -> bit_at bm p = true -> Z.lor bm (2 ^ (63 - p)) = bm.
Proof.
  intros Hp Hw Hb. apply word64_eq; [by apply word64_lor, word64_pow2|done|].
  intros q Hq. rewrite bit_at_lor, bit_at_pow2 by lia.
  destruct (Z.eqb_spec p q) as [<-|]; [by rewrite Hb|apply orb_false_r].
Qed.

Lemma wp_region_append r core p tx (e : SEnv) (Q : t -> SEnv -> Prop) :
  heap_ok e -> region_ok r -> may_append r core tx -> is_Some p ->
  NoDup (stale r core) -> Forall (collectable_ptr e) (stale r core) ->
  (forall e', heap_ok e' -> freed (addrs (stale r core)) e e' ->
     stat_ e' = deletes (length (stale r core)) (stat_ e) -> Q (appended r core p tx) e') ->
  wp (append r core p tx) Q e.
Proof.
  intros Hheap Hok (Hcore & Htx & Hlt & Hroom) Hp Hnd Hcol HQ.
  destruct (region_array r core Hok Hcore) as [a Ha]. pose proof Hok as (Hw & Hlen & Hr).
  pose proof (target_ok r core Hok Hcore) as Htok.
  unfold append. wp_steps. apply wp_assertM; [by apply nonnull_Some|].
  wp_steps. apply wp_assertM; [bool_lia|]. wp_steps.
  rewrite i32_small, is_bit_set_eq by lia. wp_steps.
  assert (Hcb : bit_at (Z.lor (core_bitmap_ r) (2 ^ (63 - core))) core = true).
  { rewrite bit_at_lor, bit_at_pow2, Z.eqb_refl by lia. apply orb_true_r. }
  unfold target, stale, recorded in *. rewrite Ha in *. simpl in *.
  destruct (bit_at (core_bitmap_ r) core) eqn:Hb; simpl.
  - wp_steps. rewrite is_bit_set_eq by lia. wp_steps.
    apply wp_assertM; [done|]. wp_steps. rewrite (array_eq r core a) by (done || lia).
    wp_steps. rewrite array_append_eq by done. wp_steps.
    specialize (HQ e Hheap (freed_nil e) eq_refl). unfold appended, target, recorded in HQ.
    rewrite Ha, Hb, lor_pow2_set in HQ by done. exact HQ.
  - wp_steps. unfold gc_and_initialize_tx_bitmap. wp_steps.
    rewrite (array_eq r core a) by (done || lia). wp_steps.
    unfold PerCoreVersionArray.do_gc_and_initialize_tx_bitmap, PerCoreVersionArray.minor_gc.
    wp_steps.
    apply (wp_collect_loop _ (fun x => x) (fun _ => None)); [|done|by rewrite list_fmap_id|done|].
    { intros x e1 Q1 Hx. unfold gc_body in Hx. apply wp_bind in Hx.
      (* the loop body is [gc_body] followed by the reset of the slot *)
      revert Hx. unfold wp, mbind, M_bind. clear.
      destruct (assertM (nonnull x) e1) as [[? e2]|]; [|done].
      destruct (load_version x e2) as [[v e3]|]; [|done].
      destruct (assertM (nonnull (Memory.rec v)) e3) as [[? e4]|]; [|done].
      destruct (assertM (bool_decide (status v = STABLE)) e4) as [[? e5]|]; [|done].
      by destruct (collect_version x e5) as [[? e6]|]. }
    rewrite list_fmap_id. intros e1 Hheap1 Hf1 Hst1.
    wp_steps.
    rewrite set_bit_at_the_given_location_eq by lia. wp_steps. simpl.
    rewrite is_bit_set_eq by lia. wp_steps. apply wp_assertM; [done|]. wp_steps. simpl. rewrite is_bit_set_eq by lia. wp_steps.
    apply wp_assertM; [done|]. wp_steps. unfold array, vector_at. simpl.
    rewrite decide_True, list_lookup_insert_eq by (done || lia). simpl. wp_steps.
    rewrite array_append_eq by (done || by repeat split). wp_steps.
    specialize (HQ e1 Hheap1 Hf1 Hst1). unfold appended, target, recorded in HQ.
    rewrite Hb in HQ. unfold set_array. simpl. by rewrite list_insert_insert_eq.
Qed.

Lemma appended_ok r core p tx :
  region_ok r -> may_append r core tx -> is_Some p -> region_ok (appended r core p tx).
Proof.
  intros Hok (Hcore & Htx & Hlt & _) Hp. pose proof Hok as (Hw & Hlen & Hr).
  pose proof (target_ok r core Hok Hcore) as Htok.
  split; [by apply word64_lor, word64_pow2|]. split; [by simpl; rewrite length_insert|].
  intros c a. simpl. rewrite positions_set by done. intros Hc Ha.
  destruct (decide (Z.to_nat core = Z.to_nat c)) as [Heq|Hne].
  - rewrite Heq, list_lookup_insert_eq in Ha by lia. simplify_eq. simpl.
    split; [by apply array_append_ok|]. by destruct (slots (target r core)).
  - rewrite list_lookup_insert_ne in Ha by done. destruct Hc as [->|Hc]; [done|]. by apply (Hr c).
Qed.

Lemma target_history r core :
  region_ok r -> 0 <= core < 64 ->
  array_history core (target r core) = if recorded r core then core_history r core else [].
Proof.
  intros Hok Hc. unfold target, core_history. destruct (recorded r core); [|done].
  destruct (region_array r core Hok Hc) as [a ->]. done.
Qed.

Lemma core_history_appended r core p tx :
  region_ok r -> may_append r core tx ->
  forall c, 0 <= c < 64 -> core_history (appended r core p tx) c =
    if decide (c = core) then array_history core (target r core) ++ [(core * 64 + tx, p)]
    else core_history r c.
Proof.
  intros Hok (Hcore & Htx & Hlt & _) c Hc. pose proof Hok as (_ & Hlen & _).
  unfold core_history, appended. simpl. case_decide as Heq.
  - subst c. rewrite list_lookup_insert_eq by lia. simpl.
    by rewrite array_append_history by (done || by apply target_ok).
  - by rewrite list_lookup_insert_ne by lia.
Qed.

(** [append] inserts into the history in serial order, whatever the order in
    which the cores arrive. *)
Lemma appended_history r core p tx :
  region_ok r -> may_append r core tx ->
  region_history (appended r core p tx) = insert_slot (core * 64 + tx, p) (region_history r).
Proof.
  intros Hok Hmay. pose proof Hmay as (Hcore & Htx & Hlt & _).
  assert (Hcur : forall q, q ∈ array_history core (target r core) ->
            recorded r core = true /\ q ∈ core_history r core).
  { rewrite target_history by done. destruct (recorded r core); [done|].
    by intros q ?%not_elem_of_nil. }
  assert (Hnew : forall s q, s = core * 64 + tx -> (s, q) ∉ region_history r).
  { intros s q -> Hin. apply elem_of_region_history in Hin as (c & Hc & Hin).
    pose proof (core_history_core _ _ _ _ Hin) as Heq. rewrite compose_core in Heq by done.
    subst c. apply elem_of_positions in Hc as [_ Hc]. unfold target, recorded in Hlt.
    rewrite Hc in Hlt. apply elem_of_core_history in Hin as (a & i & t & Ha & Hi & _ & Heq).
    rewrite Ha in Hlt. simpl in Hlt. rewrite Forall_lookup in Hlt.
    specialize (Hlt i t Hi). simpl in Hlt. lia. }
  apply ascending_ext.
  - apply region_history_ascending.
  - apply insert_slot_ascending; [apply region_history_ascending|]. simpl.
    intros Hin. unfold ids in Hin. apply list_elem_of_fmap in Hin as ([s q] & Heq & Hin).
    by apply (Hnew s q).
  - intros [s q]. rewrite elem_of_insert_slot, !elem_of_region_history. simpl.
    setoid_rewrite positions_set; [|done]. split.
    + intros (c & Hc & Hin).
      assert (Hc64 : 0 <= c < 64).
      { destruct Hc as [->|Hc]; [done|]. by apply elem_of_positions in Hc as []. }
      rewrite core_history_appended in Hin by done. case_decide as Heq.
      * apply elem_of_app in Hin as [[Hrec Hin]%Hcur|Hin].
        -- right. exists core. split; [by apply elem_of_positions|done].
        -- left. by apply list_elem_of_singleton in Hin.
      * right. destruct Hc as [->|Hc]; [done|]. eauto.
    + intros [Heq|(c & Hc & Hin)].
      * exists core. split; [by left|]. rewrite core_history_appended, decide_True by done.
        apply elem_of_app. right. rewrite Heq. by apply list_elem_of_singleton.
      * exists c. split; [by right|]. pose proof Hc as [Hc64 Hbit]%elem_of_positions.
        rewrite core_history_appended by done. case_decide as Heq; [|done]. subst c.
        rewrite target_history by done. unfold recorded. rewrite Hbit.
        apply elem_of_app. by left.
Qed.

(** The pointers a region holds. *)
Definition region_ptrs (r : t) : list ptr := concat (slots <$> arrays_ r).

Lemma region_ptrs_insert r core a a' :
  arrays_ r !! Z.to_nat core = Some a ->
  exists rest, region_ptrs r ≡ₚ slots a ++ rest /\
    forall bm, region_ptrs (mk bm (<[Z.to_nat core := a']> (arrays_ r))) ≡ₚ slots a' ++ rest.
Proof.
  intros Ha. unfold region_ptrs. simpl.
  exists (concat (slots <$> take (Z.to_nat core) (arrays_ r))
          ++ concat (slots <$> drop (S (Z.to_nat core)) (arrays_ r))).
  split; [|intros _].
  - rewrite <- (take_drop_middle _ _ _ Ha) at 1. rewrite fmap_app, concat_app. csimpl.
    apply Permutation_app_swap_app.
  - rewrite insert_take_drop by (by eapply lookup_lt_Some).
    rewrite fmap_app, concat_app. csimpl.
    apply Permutation_app_swap_app.
Qed.

Lemma appended_ptrs r core p tx :
  region_ok r -> may_append r core tx ->
  stale r core ++ region_ptrs (appended r core p tx) ≡ₚ region_ptrs r ++ [p].
Proof.
  intros Hok (Hcore & Htx & _ & _).
  destruct (region_array r core Hok Hcore) as [a Ha].
  unfold appended. destruct (region_ptrs_insert r core a
    (PerCoreVersionArray.mk (Z.lor (bits (target r core)) (2 ^ (63 - tx)))
       (slots (target r core) ++ [p])) Ha) as (rest & Hr & Hr').
  rewrite Hr, Hr'. simpl. unfold stale, target. rewrite Ha. simpl.
  destruct (recorded r core); simpl.
  - rewrite <- !app_assoc. apply Permutation_app_head, Permutation_app_comm.
  - rewrite <- app_assoc. apply Permutation_app_head, Permutation_cons_append.
Qed.

End Append.

(** ** The row *)
Section Row.
Context `{BuildConfig}.
Local Abbreviation bits := PerCoreVersionArray.transaction_bitmap_.
Local Abbreviation slots := PerCoreVersionArray.slots_.
Import GlobalVersionArray.

Definition region_of (e : SEnv) (v : Value) : option RowRegion.t :=
  row_region_ v ≫= (fun g => pool e !! g).

(** The versions written in the row's epoch, in serial order. *)
Definition row_history (e : SEnv) (v : Value) : list (Z * ptr) :=
  match row_region_ v with
  | None => ids_slots_ (global_array_ v)
  | Some g => from_option region_history [] (pool e !! g)
  end.

(** Every version the row owns: the final state, the history, and the versions
    of earlier epochs still in the per-core arrays. *)
Definition row_ptrs (e : SEnv) (v : Value) : list ptr :=
  master_ v :: (ids_slots_ (global_array_ v)).*2
    ++ from_option region_ptrs [] (region_of e v).

Record row_ok (e : SEnv) (v : Value) : Prop := {
  row_global : global_ok (global_array_ v);
  row_region : match row_region_ v with
               | None => True
               | Some g => ids_slots_ (global_array_ v) = [] /\
                           exists r, pool e !! g = Some r /\ region_ok r
               end;
  row_nodup : NoDup (row_ptrs e v);
  row_live : Forall (live_ptr e) (row_ptrs e v);
  row_master : collectable_ptr e (master_ v);
  row_stale : forall r core, region_of e v = Some r -> 0 <= core < 64 ->
                Forall (collectable_ptr e) (stale r core)
}.

(** All versions of the history have been written. *)
Definition row_final (e : SEnv) (v : Value) : Prop :=
  Forall (fun p => collectable_ptr e p.2) (row_history e v).

(** The final state once the epoch is over. *)
Definition final_state (e : SEnv) (v : Value) : ptr :=
  match last (row_history e v) with Some p => p.2 | None => master_ v end.

(** What [initialize_the_row] frees: nothing if the row was not written; the old
    master and all but the last version of the global array; only the old master
    if the row has a region. *)
Definition collected (e : SEnv) (v : Value) : list ptr :=
  match row_history e v, row_region_ v with
  | [], _ => []
  | h, None => (removelast h).*2 ++ [master_ v]
  | _, Some _ => [master_ v]
  end.

(** What [initialize_the_row] leaves behind: an empty history, the final state
    of the previous epoch as the master version, and the versions of the row
    without the freed ones, which are freed once. *)
Record initialized (e : SEnv) (v : Value) (epoch : Z) (v' : Value) (e' : SEnv) : Prop := {
  ini_heap : heap_ok e';
  ini_row : row_ok e' v';
  ini_epoch : epoch_ v' = epoch;
  ini_rwl : rwl v' = rwl v;
  ini_region : row_region_ v' = row_region_ v;
  ini_master : master_ v' = final_state e v;
  ini_history : row_history e' v' = [];
  ini_freed : exists l pool', Some <$> l = collected e v /\ freed l (set_pool (fun _ => pool') e) e' /\
    row_ptrs e v ≡ₚ collected e v ++ row_ptrs e' v' /\
    length pool' = length (pool e) /\
    forall g, row_region_ v <> Some g -> pool' !! g = pool e !! g
}.

(** [gc_master_version] frees the old master and installs the new one. *)
Lemma wp_gc_master_version (e : SEnv) v latest (Q : Value -> SEnv -> Prop) :
  heap_ok e -> collectable_ptr e (master_ v) ->
  (forall e', heap_ok e' -> freed (addrs [master_ v]) e e' ->
     Q (mkValue (rwl v) (epoch_ v) latest (global_array_ v) (row_region_ v)) e') ->
  wp (gc_master_version v latest) Q e.
Proof.
  intros Hok Hc HQ. unfold gc_master_version.
  destruct (master_ v) as [m|] eqn:Hm; [|done]. pose proof Hc as (w & r & Hv & Hs & Hr).
  wp_step. apply wp_assertM; [done|]. wp_step. eapply wp_load_version; [exact Hv|].
  wp_step. apply wp_assertM; [by rewrite Hr|]. wp_step.
  apply wp_collect_version; [done..|]. intros e' Hok' Hf _. wp_steps. by apply HQ.
Qed.

Lemma addrs_single p : is_Some p -> Some <$> addrs [p] = [p].
Proof. by intros [a ->]. Qed.

(** The global array is collected: all but the last version and the old master. *)
Lemma wp_global_gc (e : SEnv) (l : list (Z * ptr)) (Q : GlobalVersionArray.t -> SEnv -> Prop) :
  heap_ok e -> NoDup l.*2 -> Forall (fun p => collectable_ptr e p.2) l ->
  (forall e', heap_ok e' -> freed (addrs l.*2) e e' -> Q (GlobalVersionArray.mk []) e') ->
  wp (GlobalVersionArray.gc (GlobalVersionArray.mk l)) Q e.
Proof.
  intros Hok Hnd Hc HQ. unfold GlobalVersionArray.gc, GlobalVersionArray.minor_gc. simpl.
  wp_steps. apply (wp_collect_loop _ snd (fun p => (p.1, None))); try done.
  - intros [id p] e1 Q1 Hx. simpl in *. unfold gc_body in Hx. revert Hx.
    unfold wp, mbind, M_bind. clear.
    destruct (assertM (nonnull p) e1) as [[? e2]|]; [|done].
    destruct (load_version p e2) as [[v e3]|]; [|done].
    destruct (assertM (nonnull (rec v)) e3) as [[? e4]|]; [|done].
    destruct (assertM (bool_decide (status v = STABLE)) e4) as [[? e5]|]; [|done].
    by destruct (collect_version p e5) as [[? e6]|].
  - intros e' Hok' Hf _. wp_steps. by apply HQ.
Qed.

End Row.

(** ** [initialize_the_row] *)
Section Initialize.
Context `{BuildConfig}.
Local Abbreviation bits := PerCoreVersionArray.transaction_bitmap_.
Local Abbreviation slots := PerCoreVersionArray.slots_.
Import GlobalVersionArray.

Lemma slots_history r core a p :
  region_ok r -> core ∈ positions (RowRegion.core_bitmap_ r) ->
  RowRegion.arrays_ r !! Z.to_nat core = Some a -> p ∈ slots a ->
  exists s, (s, p) ∈ region_history r.
Proof.
  intros (_ & _ & Hr) Hc Ha [i Hi]%list_elem_of_lookup.
  destruct (Hr core a Hc Ha) as [(_ & Hl & _) _].
  destruct (lookup_lt_is_Some_2 (positions (bits a)) i) as [tx Htx].
  { rewrite <- Hl. by eapply lookup_lt_Some. }
  exists (core * 64 + tx). apply elem_of_region_history. exists core. split; [done|].
  apply elem_of_core_history. by exists a, i, tx.
Qed.

Lemma pop_final_state_eq r :
  region_ok r -> RowRegion.core_bitmap_ r <> 0 ->
  exists c a slots' tx p, c ∈ positions (RowRegion.core_bitmap_ r) /\
    RowRegion.arrays_ r !! Z.to_nat c = Some a /\ slots a = slots' ++ [p] /\ is_Some p /\
    last (region_history r) = Some (c * 64 + tx, p) /\
    RowRegion.pop_final_state r
    = Ok (tx, p, RowRegion.set_array r c (PerCoreVersionArray.mk (bits a) slots')).
Proof.
  intros Hok Hd. pose proof Hok as (Hw & _ & Hr).
  destruct (last (positions (RowRegion.core_bitmap_ r))) as [c|] eqn:Hc.
  2:{ apply last_None in Hc. by rewrite positions_nil in Hc. }
  pose proof Hc as [Hcp Hmaxc]%sorted_last; [|apply positions_sorted].
  pose proof Hcp as [Hc64 _]%elem_of_positions.
  destruct (region_array r c Hok Hc64) as [a Ha].
  destruct (core_final r c a Hok Hcp Ha) as (tx & p & Hfind & _ & Ht & Hp & Hin & Hmax).
  pose proof Hp as [slots' Hs]%last_Some.
  destruct (Hr c a Hcp Ha) as [Haok _]. pose proof (array_length_ a Haok) as Hlen.
  exists c, a, slots', tx, p. split_and!; try done.
  - destruct Haok as (_ & _ & Hsome). rewrite Hs in Hsome.
    apply Forall_app in Hsome as [_ Hsome]. by apply Forall_cons in Hsome as [? _].
  - apply ascending_last; [apply region_history_ascending|].
    split; [apply elem_of_region_history; eauto|].
    intros [s q] (c' & Hc' & Hq)%elem_of_region_history. simpl.
    destruct (decide (c' = c)) as [->|Hne]; [by apply Hmax in Hq|].
    pose proof (Hmaxc c' Hc'). apply core_history_range in Hq. lia.
  - unfold RowRegion.pop_final_state. rewrite (find_the_largest_eq _ c Hc). simpl.
    rewrite (array_eq r c a) by (done || lia). simpl.
    unfold PerCoreVersionArray.pop_latest. rewrite Hlen, Hs, length_app. cbn [length].
    run_assert by bool_lia. run_assert by bool_lia.
    rewrite vector_back_snoc, vector_pop_back_snoc. simpl. by rewrite Hfind.
Qed.

(** The region of an initialised row. *)
Lemma reset_region_ok r c a slots' p :
  region_ok r -> 0 <= c < 64 -> RowRegion.arrays_ r !! Z.to_nat c = Some a ->
  slots a = slots' ++ [p] ->
  let r' := RowRegion.initialize_core_bitmap
              (RowRegion.set_array r c (PerCoreVersionArray.mk (bits a) slots')) in
  region_ok r' /\ region_history r' = [] /\ region_ptrs r ≡ₚ p :: region_ptrs r' /\
  forall core q, 0 <= core < 64 -> q ∈ stale r' core -> q ∈ region_ptrs r /\
    ((exists s, (s, q) ∈ region_history r) \/ q ∈ stale r core).
Proof.
  intros Hok Hc Ha Hs r'. pose proof Hok as (Hw & Hlen & Hr).
  assert (Hpos : positions 0 = []) by by apply (positions_nil 0).
  destruct (region_ptrs_insert r c a (PerCoreVersionArray.mk (bits a) slots') Ha)
    as (rest & Hp & Hp').
  assert (Hperm : region_ptrs r ≡ₚ p :: region_ptrs r').
  { unfold r', RowRegion.initialize_core_bitmap, RowRegion.set_array. simpl.
    rewrite Hp, Hp'. simpl. rewrite Hs, <- app_assoc. simpl. symmetry. apply Permutation_middle. }
  split_and!; try done.
  - split; [done|]. split; [by simpl; rewrite length_insert|]. intros core a' Hcore.
    change (core ∈ positions 0) in Hcore. rewrite Hpos in Hcore. set_solver.
  - intros core q H64 Hq. unfold stale, recorded in Hq. simpl in Hq. rewrite bit_at_0 in Hq.
    assert (Hold : exists a', RowRegion.arrays_ r !! Z.to_nat core = Some a' /\ q ∈ slots a').
    { destruct (decide (Z.to_nat c = Z.to_nat core)) as [Heq|Hne].
      - rewrite Heq, list_lookup_insert_eq in Hq by lia. simpl in Hq. rewrite Heq in Ha.
        exists a. split; [done|]. rewrite Hs. set_solver.
      - rewrite list_lookup_insert_ne in Hq by done.
        destruct (RowRegion.arrays_ r !! Z.to_nat core) as [a'|]; [by exists a'|].
        by apply not_elem_of_nil in Hq. }
    destruct Hold as (a' & Ha' & Hin). split.
    { unfold region_ptrs. apply elem_of_concat_fmap. exists a'.
      split; [by eapply list_elem_of_lookup_2|done]. }
    unfold stale, recorded. rewrite Ha'. simpl.
    destruct (bit_at (RowRegion.core_bitmap_ r) core) eqn:Hb; [|by right]. left.
    apply (slots_history r core a'); try done. by apply elem_of_positions.
Qed.

(** What survives a partial deallocation of a row. *)
Lemma survivors (e e' : SEnv) l f ps ps' :
  freed l (set_pool f e) e' -> NoDup ps -> ps ≡ₚ (Some <$> l) ++ ps' ->
  NoDup ps' /\ (Forall (live_ptr e) ps -> Forall (live_ptr e') ps') /\
  forall p, p ∈ ps' -> collectable_ptr e p -> collectable_ptr e' p.
Proof.
  intros Hf Hnd Hp. rewrite Hp in Hnd. pose proof Hnd as (_ & Hd & Hnd')%NoDup_app.
  split_and!; [done| |].
  - intros Hl. rewrite Hp in Hl. apply Forall_app in Hl as [_ Hl].
    by apply (freed_Forall_live l (set_pool f e)).
  - intros p Hin. apply (freed_collectable_ptr' l (set_pool f e)); [done|].
    intros Hl. by apply (Hd p).
Qed.

(** Nothing was written since the row was last initialised. *)
Lemma initialize_clean (e : SEnv) v epoch :
  heap_ok e -> row_ok e v -> row_history e v = [] ->
  initialized e v epoch
    (mkValue (rwl v) epoch (master_ v) (global_array_ v) (row_region_ v)) e.
Proof.
  intros Hok Hrow Hh. pose proof Hrow as [? ? ? ? ? ?].
  constructor; try done; [unfold final_state; by rewrite Hh|].
  exists [], (pool e). unfold collected. rewrite Hh. by split_and!.
Qed.

(** Only the global array was used. *)
Lemma initialize_global (e e' : SEnv) v epoch (l : list (Z * ptr)) s p :
  heap_ok e' -> row_ok e v -> row_final e v -> row_region_ v = None ->
  ids_slots_ (global_array_ v) = l ++ [(s, p)] ->
  freed (addrs (l.*2 ++ [master_ v])) e e' ->
  initialized e v epoch (mkValue (rwl v) epoch p (GlobalVersionArray.mk []) None) e'.
Proof.
  intros Hok [Hg Hr Hnd Hl Hm Hst] Hfin Hreg Hids Hf.
  assert (Hperm : row_ptrs e v ≡ₚ (Some <$> addrs (l.*2 ++ [master_ v])) ++ [p]).
  { unfold row_ptrs, region_of in *. rewrite Hids, Hreg, fmap_app in *. simpl in *.
    rewrite app_nil_r in *. apply live_is_Some in Hl. rewrite fmap_Some_addrs.
    - rewrite <- app_assoc. simpl. apply Permutation_middle.
    - apply Forall_cons in Hl as [Hms Hl]. apply Forall_app in Hl as [Hl _].
      apply Forall_app. split; [done|by constructor]. }
  assert (Hf' : freed (addrs (l.*2 ++ [master_ v])) (set_pool (fun _ => pool e) e) e')
    by (by destruct e).
  destruct (survivors _ _ _ _ _ _ Hf' Hnd Hperm) as (Hnd' & Hlive' & Hcol').
  specialize (Hlive' Hl).
  unfold row_final, row_history in Hfin. rewrite Hreg, Hids in Hfin.
  apply Forall_app in Hfin as [_ Hp]. apply Forall_cons in Hp as [Hp _]. simpl in Hp.
  constructor; try done.
  - constructor; simpl; try done.
    + split; constructor.
    + apply Hcol'; [set_solver|done].
  - unfold final_state, row_history. by rewrite Hreg, Hids, last_snoc.
  - assert (collected e v = Some <$> addrs (l.*2 ++ [master_ v])) as E.
    { unfold collected, row_history. rewrite Hreg, Hids.
      destruct (l ++ [(s, p)]) as [|x h] eqn:El; [by destruct l|]. rewrite <- El, removelast_last. rewrite fmap_Some_addrs; [done|].
      apply live_is_Some in Hl. unfold row_ptrs in Hl. rewrite Hids, <- ?El, fmap_app in Hl.
      apply Forall_cons in Hl as [Hms Hl]. apply Forall_app in Hl as [[Hl _]%Forall_app _].
      apply Forall_app. split; [done|by constructor]. }
    exists (addrs (l.*2 ++ [master_ v])), (pool e). rewrite E. by split_and!.
Qed.

(** The region was used. *)
Lemma initialize_region (e e' : SEnv) v epoch g r c a slots' tx p :
  heap_ok e' -> row_ok e v -> row_final e v -> row_region_ v = Some g ->
  pool e !! g = Some r -> region_ok r -> c ∈ positions (RowRegion.core_bitmap_ r) ->
  RowRegion.arrays_ r !! Z.to_nat c = Some a -> slots a = slots' ++ [p] ->
  last (region_history r) = Some (c * 64 + tx, p) ->
  let r' := RowRegion.initialize_core_bitmap
              (RowRegion.set_array r c (PerCoreVersionArray.mk (bits a) slots')) in
  freed (addrs [master_ v]) (set_pool (insert g r') e) e' ->
  initialized e v epoch (mkValue (rwl v) epoch p (global_array_ v) (row_region_ v)) e'.
Proof.
  intros Hok [Hg Hr Hnd Hl Hm Hst] Hfin Hreg Hpool Hrok Hc Ha Hs Hlast r' Hf.
  rewrite Hreg in Hr. destruct Hr as [Hids _].
  pose proof Hc as [Hc64 _]%elem_of_positions.
  destruct (reset_region_ok r c a slots' p Hrok Hc64 Ha Hs) as (Hrok' & Hh' & Hperm & Hst').
  fold r' in Hrok', Hh', Hperm, Hst'.
  assert (Hpool' : pool e' !! g = Some r').
  { destruct Hf as (_ & _ & -> & _). simpl. apply list_lookup_insert_eq. by eapply lookup_lt_Some. }
  set (v' := mkValue (rwl v) epoch p (global_array_ v) (row_region_ v)).
  assert (Hptrs : row_ptrs e v ≡ₚ (Some <$> addrs [master_ v]) ++ row_ptrs e' v').
  { rewrite addrs_single by (apply live_is_Some in Hl; by apply Forall_cons in Hl as [? _]).
    unfold row_ptrs, region_of. simpl. rewrite Hreg, Hids. simpl. rewrite Hpool, Hpool'. simpl.
    by rewrite Hperm. }
  destruct (survivors _ _ _ _ _ _ Hf Hnd Hptrs) as (Hnd' & Hlive' & Hcol').
  specialize (Hlive' Hl).
  unfold row_final, row_history in Hfin. rewrite Hreg, Hpool in Hfin. simpl in Hfin.
  rewrite Forall_forall in Hfin.
  constructor; try done.
  - constructor; try done.
    + simpl. rewrite Hreg. split; [done|]. by exists r'.
    + apply Hcol'; [unfold row_ptrs; set_solver|].
      apply last_Some_elem_of in Hlast. by apply Hfin in Hlast.
    + intros r0 core Hr0 H64. unfold region_of in Hr0. simpl in Hr0. rewrite Hreg in Hr0.
      simpl in Hr0. rewrite Hpool' in Hr0. simplify_eq. apply Forall_forall. intros q Hq.
      destruct (Hst' core q H64 Hq) as [_ Hor]. apply Hcol'.
      * unfold row_ptrs, region_of. simpl. rewrite Hreg. simpl. rewrite Hpool'. simpl.
        apply elem_of_cons. right. apply elem_of_app. right.
        unfold stale, recorded in Hq. simpl in Hq. rewrite bit_at_0 in Hq.
        unfold region_ptrs. apply elem_of_concat_fmap.
        simpl. destruct (_ !! Z.to_nat core) as [a0|] eqn:Ha0; [|by apply not_elem_of_nil in Hq].
        exists a0. split; [by eapply list_elem_of_lookup_2|done].
      * destruct Hor as [[s Hin]|Hin]; [by apply Hfin in Hin|].
        assert (region_of e v = Some r) as Hro by (unfold region_of; by rewrite Hreg).
        specialize (Hst r core Hro H64). rewrite Forall_forall in Hst. by apply Hst.
  - unfold final_state, row_history. rewrite Hreg, Hpool. simpl. by rewrite Hlast.
  - unfold row_history. simpl. rewrite Hreg, Hpool'. done.
  - assert (collected e v = Some <$> addrs [master_ v]) as E.
    { rewrite addrs_single by (apply live_is_Some in Hl; by apply Forall_cons in Hl as [? _]).
      unfold collected, row_history. rewrite Hreg, Hpool. simpl. by destruct (region_history r). }
    exists (addrs [master_ v]), (<[g := r']> (pool e)). rewrite E. split_and!; try done.
    + apply length_insert.
    + intros g' Hne. rewrite list_lookup_insert_ne; [done|]. intros ->. by apply Hne.
Qed.

(** In a region without history, every version is left for the next append of its core to free. *)
Lemma closed_region_stale r : region_ok r -> region_history r = [] -> region_ptrs r = concat (stale r <$> seqZ 0 64).
Proof.
  intros Hok Hh. pose proof Hok as (_ & Hlen & _). destruct (Z.eq_dec (RowRegion.core_bitmap_ r) 0) as [Hz|Hne].
  - unfold region_ptrs. f_equal. apply list_eq. intros i. rewrite !list_lookup_fmap.
    destruct (decide (i < 64)%nat) as [Hi|Hi].
    + rewrite (lookup_seqZ_lt 0 64 i), Z.add_0_l by lia. destruct (lookup_lt_is_Some_2 (RowRegion.arrays_ r) i) as [a Ha]; [lia|].
      simpl. unfold stale, recorded. rewrite Hz, bit_at_0, Nat2Z.id, Ha. done.
    + rewrite (lookup_ge_None_2 (RowRegion.arrays_ r)) by lia. by rewrite (lookup_seqZ_ge 0 64 i) by lia.
  - exfalso. destruct (pop_final_state_eq r Hok Hne) as (c & a & sl & tx & p & _ & _ & _ & _ & Hl & _). by rewrite Hh in Hl.
Qed.

Lemma row_region_dirty (e : SEnv) v g r :
  row_region_ v = Some g -> pool e !! g = Some r ->
  has_dirty_region v e = Ok (RowRegion.is_dirty r, e).
Proof.
  intros Hreg Hpool. unfold has_dirty_region. rewrite Hreg.
  unfold load_region, derefM, lift, deref, mbind, M_bind, getM, mret, M_ret. by rewrite Hpool.
Qed.

Lemma wp_initialize_the_row (e : SEnv) v epoch :
  heap_ok e -> row_ok e v -> row_final e v ->
  wp (initialize_the_row v epoch) (fun v' e' => initialized e v epoch v' e') e.
Proof.
  intros Hok Hrow Hfin. pose proof Hrow as [Hg Hr Hnd Hl Hm Hst]. unfold initialize_the_row.
  assert (Hcase : (row_region_ v = None \/
    exists g r, row_region_ v = Some g /\ pool e !! g = Some r /\ region_ok r /\
                ids_slots_ (global_array_ v) = [])).
  { destruct (row_region_ v) as [g|]; [|by left]. destruct Hr as (? & r & ? & ?). right. eauto 10. }
  unfold is_dirty. destruct Hcase as [Hreg|(g & r & Hreg & Hpool & Hrok & Hids)].
  - wp_step. unfold has_dirty_region. rewrite Hreg. wp_steps.
    apply wp_assertM; [by rewrite andb_false_r|]. wp_step.
    destruct (ids_slots_ (global_array_ v)) as [|x l] eqn:Hids; simpl.
    { wp_steps. apply initialize_clean; [done..|]. unfold row_history. by rewrite Hreg. }
    destruct (exists_last (l := x :: l)) as (l' & [s p] & Hlast); [done|].
    rewrite Hlast in *. wp_step. apply wp_assertM; [done|]. wp_steps.
    unfold pop_final_state, is_empty. rewrite Hids, bool_decide_eq_false_2 by (by destruct l').
    rewrite vector_back_snoc, vector_pop_back_snoc.
    simpl. wp_steps. destruct Hg as [_ Hsome]. rewrite Hids in Hsome.
    apply wp_assertM.
    { apply Forall_app in Hsome as [_ Hp]. apply nonnull_Some. by apply Forall_cons in Hp as [? _]. }
    wp_step. unfold row_ptrs, region_of in Hnd. rewrite Hids, Hreg, fmap_app in Hnd. simpl in Hnd.
    rewrite app_nil_r in Hnd. apply NoDup_cons in Hnd as [Hnm Hnd].
    pose proof Hfin as Hfin'. unfold row_final, row_history in Hfin'. rewrite Hreg, Hids in Hfin'.
    apply Forall_app in Hfin' as [Hfl _]. apply NoDup_app in Hnd as (Hndl & _ & _).
    wp_steps. apply wp_global_gc; [done..|]. intros e1 Hok1 Hf1.
    apply wp_gc_master_version; [done| |].
    { simpl. apply (freed_collectable_ptr' _ _ _ _ Hf1); [|done]. intros Hin. apply Hnm.
      apply elem_of_app. left. apply list_elem_of_fmap in Hin as (z & -> & Hz).
      by apply elem_of_addrs in Hz. }
    intros e2 Hok2 Hf2. wp_steps. simpl in *.
    apply (initialize_global e e2 v epoch l' s p); try done. rewrite addrs_app.
    by eapply freed_trans.
  - rewrite Hids. simpl. wp_step. unfold wp at 1. rewrite (row_region_dirty e v g r) by done.
    wp_step. apply wp_assertM; [done|]. unfold RowRegion.is_dirty.
    destruct (Z.eqb_spec (RowRegion.core_bitmap_ r) 0) as [Hz|Hne]; simpl; wp_step.
    { wp_steps. apply initialize_clean; [done..|]. unfold row_history. rewrite Hreg, Hpool. simpl.
      unfold region_history. rewrite Hz. done. }
    destruct (pop_final_state_eq r Hrok Hne) as (c & a & slots' & tx & p & Hc & Ha & Hs & Hp & Hlast & Hpop).
    rewrite Hreg. wp_steps. unfold derefM. wp_steps. simpl. wp_steps. unfold load_region, derefM.
    wp_steps. rewrite Hpool. simpl. wp_steps. rewrite Hpop. wp_steps.
    apply wp_assertM; [by apply nonnull_Some|]. wp_step. unfold wp at 1, store_region, modifyM.
    apply wp_gc_master_version; [by eauto with mvdcc|done|]. intros e' Hok' Hf. wp_steps. simpl.
    by apply (initialize_region e e' v epoch g r c a slots' tx p).
Qed.
End Initialize.

(** ** What the row's containers promise *)
(** Reading serial [core * 64 + tx]: [identify_visible_version], then [get]. *)
Definition read_region `{BuildConfig} (r : RowRegion.t) (core tx : Z) : outcome (option (Z * ptr)) :=
  '(is_found, c, t) ← RowRegion.identify_visible_version r core tx;
  if is_found : bool then
    a ← RowRegion.array r c;
    p ← PerCoreVersionArray.get a t;
    mret (Some (c * 64 + t, p))
  else mret None.

(** C18. Reads of a row region see the right version: for a region with at least
    one version, the version found for (core, tx) is the one with the largest
    serial id below [core * 64 + tx] in the region's history, or none when
    every recorded serial is at least that; no assertion fails. *)
Theorem region_read_visible `{BuildConfig} (r : RowRegion.t) (core tx : Z)
  (Hok : region_ok r) (Hd : RowRegion.is_dirty r = true) (Hc : 0 <= core < 64) (Ht : 0 <= tx < 64) :
  read_region r core tx = Ok (visible_before (core * 64 + tx) (region_history r)).
Proof.
  assert (Hne : RowRegion.core_bitmap_ r <> 0).
  { intros Hz. unfold RowRegion.is_dirty in Hd. by rewrite Hz in Hd. }
  pose proof (identify_visible r core tx Hok Hne Hc Ht) as Hid. unfold read_region.
  destruct (visible_before (core * 64 + tx) (region_history r)) as [[s p]|]; simpl in Hid.
  - destruct Hid as (-> & _ & _ & Hs & a & Ha & Hg). simpl. rewrite Ha. simpl. rewrite Hg. simpl. by rewrite <- Hs.
  - by rewrite Hid.
Qed.

(** C19. Appending to a row region inserts in serial order whatever the order in
    which the cores arrive: when the core's own transactions come in ascending
    order, [append] succeeds, the region's history gains exactly the slot
    (core * 64 + tx, version) at its place in serial order, the versions of the
    core left over from earlier epochs are freed with their records, and
    nothing else is. *)
Theorem region_append_in_serial_order `{BuildConfig} (r : RowRegion.t) core p tx (e : SEnv)
  (Hheap : heap_ok e) (Hok : region_ok r) (Hmay : may_append r core tx) (Hp : is_Some p)
  (Hnd : NoDup (stale r core)) (Hcol : Forall (collectable_ptr e) (stale r core)) :
  wp (RowRegion.append r core p tx) (fun r' e' =>
    region_ok r' /\ region_history r' = insert_slot (core * 64 + tx, p) (region_history r) /\
    stale r core ++ region_ptrs r' ≡ₚ region_ptrs r ++ [p] /\
    heap_ok e' /\ freed (addrs (stale r core)) e e') e.
Proof.
  apply wp_region_append; [done..|]. intros e' Hok' Hf _. split_and!; try done.
  - by apply appended_ok.
  - by apply appended_history.
  - by apply appended_ptrs.
Qed.

(** C20. The first write of an epoch closes the previous one: on a well-formed
    row whose versions have all been written, [initialize_the_row] makes the
    last version of the history the master version and empties the history.  It
    frees exactly the versions of [collected], each once with its record: the old
    master and, of a row without region, every other version of the history; of
    a row with one it leaves them in the arrays of the cores, where they are what
    the next [append] of each core frees (C19).  A row that was not written keeps
    all it has. *)
Theorem initialize_the_row_closes_the_epoch `{BuildConfig} (e : SEnv) v epoch
  (Hheap : heap_ok e) (Hok : row_ok e v) (Hfin : row_final e v) :
  wp (initialize_the_row v epoch) (fun v' e' => initialized e v epoch v' e' /\
    forall r', region_of e' v' = Some r' -> region_ptrs r' = concat (stale r' <$> seqZ 0 64)) e.
Proof.
  eapply wp_mono; [by apply wp_initialize_the_row|]. intros v' e' Hi. split; [exact Hi|]. intros r' Hr'.
  pose proof (row_region _ _ (ini_row _ _ _ _ _ Hi)) as Hr. pose proof (ini_history _ _ _ _ _ Hi) as Hh.
  unfold region_of, row_history in *. destruct (row_region_ v') as [g|]; [|done]. simpl in Hr'. rewrite Hr' in Hh.
  destruct Hr as (_ & r & Hpool & Hok'). simplify_eq. by apply closed_region_stale.
Qed.

Module RowWitness.
#[local] Existing Instance debug_build.
(** Serials 133 = (2, 5), then 70 = (1, 6), then 140 = (2, 12). *)
Definition r1 := appended RowRegion.init 2 (Some 1%positive) 5.
Definition r2 := appended r1 1 (Some 2%positive) 6.
Definition r3 := appended r2 2 (Some 3%positive) 12.

Lemma init_ok : region_ok RowRegion.init.
Proof. split_and!; [done|done|]. intros c a Hc. by apply not_elem_of_nil in Hc. Qed.
Lemma may_1 : may_append RowRegion.init 2 5.
Proof. split_and!; [lia..|by vm_compute|right; vm_compute; lia]. Qed.
Lemma r1_ok : region_ok r1.
Proof. apply appended_ok; [apply init_ok|apply may_1|done]. Qed.
Lemma may_2 : may_append r1 1 6.
Proof. split_and!; [lia..|by vm_compute|right; vm_compute; lia]. Qed.
Lemma r2_ok : region_ok r2.
Proof. apply appended_ok; [apply r1_ok|apply may_2|done]. Qed.
Lemma may_3 : may_append r2 2 12.
Proof. split_and!; [lia..|vm_compute; repeat constructor|right; vm_compute; lia]. Qed.
Lemma r3_ok : region_ok r3.
Proof. apply appended_ok; [apply r2_ok|apply may_3|done]. Qed.

Lemma region_read_visible_witness : read_region r3 2 7 = Ok (Some (133, Some 1%positive)).
Proof. rewrite (region_read_visible r3 2 7 r3_ok); [by vm_compute|done|lia|lia]. Defined.

Definition env : SEnv := SmallHeap.env.

Lemma region_append_in_serial_order_witness :
  wp (RowRegion.append r2 2 (Some 3%positive) 12) (fun r' _ =>
    region_history r' = [(70, Some 2%positive); (133, Some 1%positive); (140, Some 3%positive)]) env.
Proof.
  eapply wp_mono; [apply (region_append_in_serial_order r2 2 (Some 3%positive) 12 env)|].
  - apply SmallHeap.env_ok.
  - apply r2_ok.
  - apply may_3.
  - by eexists.
  - vm_compute. constructor.
  - vm_compute. constructor.
  - intros r' e' (_ & -> & _). by vm_compute.
Defined.

Definition row : Value :=
  mkValue RWLock_init 0 (Some 1%positive)
    (GlobalVersionArray.mk [(4, Some 2%positive); (9, Some 3%positive)]) None.
(** A row with region: versions 1 and 2 of this epoch, master version 3. *)
Definition env2 : SEnv := set_pool (fun _ => [r2]) env.
Definition row2 : Value := mkValue RWLock_init 0 (Some 3%positive) (GlobalVersionArray.mk []) (Some 0%nat).
Lemma env2_ok : heap_ok env2.
Proof. pose proof (SmallHeap.env_ok : heap_ok env). unfold env2. by eauto with mvdcc. Qed.
Lemma row2_ok : row_ok env2 row2 /\ row_final env2 row2.
Proof.
  assert (Hcol : forall p, p ∈ [Some 1; Some 2; Some 3]%positive -> collectable_ptr env2 p) by exact SmallHeap.env_collectable.
  split; [constructor|].
  - split; constructor.
  - split; [done|]. exists r2. split; [done|apply r2_ok].
  - apply (bool_decide_unpack _). by vm_compute.
  - change (row_ptrs env2 row2) with [Some 3; Some 2; Some 1]%positive. rewrite !Forall_cons. split_and!; [by eexists..|constructor].
  - apply Hcol. set_solver.
  - intros r core [= <-] H64. apply Forall_forall. intros p Hp. apply Hcol. unfold stale in Hp. destruct (recorded r2 core); [set_solver|].
    assert (p ∈ region_ptrs r2) as Hin.
    { destruct (RowRegion.arrays_ r2 !! Z.to_nat core) as [a|] eqn:Ha; [|set_solver]. apply elem_of_concat_fmap. exists a.
      split; [by eapply list_elem_of_lookup_2|done]. }
    change (region_ptrs r2) with [Some 2; Some 1]%positive in Hin. set_solver.
  - unfold row_final. change (row_history env2 row2) with [(70, Some 2%positive); (133, Some 1%positive)].
    rewrite !Forall_cons. split_and!; [apply Hcol; set_solver..|constructor].
Qed.
Lemma initialize_the_row_closes_the_epoch_witness :
  wp (initialize_the_row row 1) (fun v' e' => master_ v' = Some 3%positive /\ row_history e' v' = [] /\
    exists l pool', (Some <$> l = [Some 2; Some 1]%positive) /\ freed l (set_pool (fun _ => pool') env) e') env /\
  wp (initialize_the_row row2 1) (fun v' e' => master_ v' = Some 1%positive /\ row_history e' v' = [] /\
    (exists l pool', Some <$> l = [Some 3%positive] /\ freed l (set_pool (fun _ => pool') env2) e') /\
    forall r', region_of e' v' = Some r' -> region_ptrs r' = concat (stale r' <$> seqZ 0 64)) env2.
Proof.
  split.
  2:{ eapply wp_mono; [apply (initialize_the_row_closes_the_epoch env2 row2 1 env2_ok (proj1 row2_ok) (proj2 row2_ok))|].
    intros v' e' [Hi Hr]. rewrite (ini_master _ _ _ _ _ Hi), (ini_history _ _ _ _ _ Hi). split; [by vm_compute|]. split; [done|].
    destruct (ini_freed _ _ _ _ _ Hi) as (l & pool' & El & Hf & _). split; [|exact Hr]. exists l, pool'. by split. }
  pose proof (@SmallHeap.env_collectable RowRegion.t Value) as Hcol.
  eapply wp_mono; [apply (initialize_the_row_closes_the_epoch env row 1)|].
  - apply SmallHeap.env_ok.
  - constructor; simpl; try done.
    + split; [repeat constructor|]; simpl. by repeat (apply Forall_cons; split; [by eexists|]).
    + apply (bool_decide_unpack _). by vm_compute.
    + unfold row_ptrs, region_of; simpl; rewrite !Forall_cons. split_and!; [by eexists..|constructor].
    + apply (Hcol (Some 1%positive)). set_solver.
  - unfold row_final, row_history. simpl. rewrite !Forall_cons. split_and!; try apply Hcol; [set_solver..|constructor].
  - intros v' e' [Hi _]. rewrite (ini_master _ _ _ _ _ Hi), (ini_history _ _ _ _ _ Hi). split; [by vm_compute|]. split; [done|].
    destruct (ini_freed _ _ _ _ _ Hi) as (l & pool' & El & Hf & _). exists l, pool'. by split.
Defined.
End RowWitness.
