(* ===== verification/CheetahRow.v ===== *)
(** * CheetahRow: the per-row state of Cheetah

    [protocols/cheetah/include/rw_bitmaps.hpp] and [value.hpp].  A row does not
    keep its pending versions: it keeps who will write it (a bitmap of cores and
    a bitmap of transactions per writing core), a placeholder version for each
    writer that somebody reads, and the committed [master_] version.  [ref_cnt_]
    counts the readers that are still to come, plus one; the last reader and the
    last writer of the epoch share the garbage collection. *)
From S2P Require Import Prelude Bitmap Conc RWLock Memory ServalRow.

(** [class WriteBitmap]; [Value] has no other field, so a [WriteBitmap *] is
    the address of its row. *)
Record WriteBitmap := mkWriteBitmap {
  ref_cnt_ : Z;                          (* readers to come, plus one *)
  wb_lock_ : RWLock;
  core_bitmap_ : Z;
  tx_bitmaps_ : list Z;                  (* one per core of [core_bitmap_] *)
  placeholders_ : gmap Z ptr;
  master_ : ptr;
  previous_master_ : ptr;
  readers_ : gset Z;                     (* ghost: the readers counted in [ref_cnt_] *)
  guard_ : bool                          (* ghost: the one counted on top of them *)
}.
Definition WriteBitmap_init : WriteBitmap := mkWriteBitmap 0 RWLock_init 0 [] ∅ None None ∅ false.

Abbreviation HEnv := (Env Empty_set WriteBitmap).

Section Fields.
Implicit Types w : WriteBitmap.
Definition set_ref_cnt w x := mkWriteBitmap x (wb_lock_ w) (core_bitmap_ w) (tx_bitmaps_ w) (placeholders_ w) (master_ w) (previous_master_ w) (readers_ w) (guard_ w).
Definition set_wb_lock w x := mkWriteBitmap (ref_cnt_ w) x (core_bitmap_ w) (tx_bitmaps_ w) (placeholders_ w) (master_ w) (previous_master_ w) (readers_ w) (guard_ w).
Definition set_core_bitmap w x := mkWriteBitmap (ref_cnt_ w) (wb_lock_ w) x (tx_bitmaps_ w) (placeholders_ w) (master_ w) (previous_master_ w) (readers_ w) (guard_ w).
Definition set_tx_bitmaps w x := mkWriteBitmap (ref_cnt_ w) (wb_lock_ w) (core_bitmap_ w) x (placeholders_ w) (master_ w) (previous_master_ w) (readers_ w) (guard_ w).
Definition set_placeholders w x := mkWriteBitmap (ref_cnt_ w) (wb_lock_ w) (core_bitmap_ w) (tx_bitmaps_ w) x (master_ w) (previous_master_ w) (readers_ w) (guard_ w).
Definition set_master w x := mkWriteBitmap (ref_cnt_ w) (wb_lock_ w) (core_bitmap_ w) (tx_bitmaps_ w) (placeholders_ w) x (previous_master_ w) (readers_ w) (guard_ w).
Definition set_previous_master w x := mkWriteBitmap (ref_cnt_ w) (wb_lock_ w) (core_bitmap_ w) (tx_bitmaps_ w) (placeholders_ w) (master_ w) x (readers_ w) (guard_ w).
Definition set_readers w x := mkWriteBitmap (ref_cnt_ w) (wb_lock_ w) (core_bitmap_ w) (tx_bitmaps_ w) (placeholders_ w) (master_ w) (previous_master_ w) x (guard_ w).
Definition set_guard w x := mkWriteBitmap (ref_cnt_ w) (wb_lock_ w) (core_bitmap_ w) (tx_bitmaps_ w) (placeholders_ w) (master_ w) (previous_master_ w) (readers_ w) x.
End Fields.

Section Bitmaps.
Context `{BuildConfig}.
Implicit Types w : WriteBitmap.

Definition get_serial_id (core tx : Z) : Z := u64 (core * 64 + tx).

Definition count_prefix_sum w (core : Z) : outcome Z :=
  mask ← fill_the_left_side_until_before_the_given_position (i32 core);
  mret (count_bits (Z.land (core_bitmap_ w) mask)).

Definition insert_tx_bitmap w (insert_pos tx_bitmap : Z) : outcome WriteBitmap :=
  if decide (0 <= insert_pos) then
    l ← vector_insert (tx_bitmaps_ w) (Z.to_nat insert_pos) tx_bitmap; mret (set_tx_bitmaps w l)
  else Err UndefinedBehaviour.

Definition update_core_bitmap w (core : Z) : outcome WriteBitmap :=
  b ← set_bit_at_the_given_location_in (core_bitmap_ w) core; mret (set_core_bitmap w b).

Definition update_tx_bitmap w (pos tx : Z) : outcome WriteBitmap :=
  assert_ (pos <? Z.of_nat (length (tx_bitmaps_ w)));;
  bm ← vector_at (tx_bitmaps_ w) pos;
  bm' ← set_bit_at_the_given_location_in bm tx;
  mret (set_tx_bitmaps w (<[Z.to_nat pos := bm']> (tx_bitmaps_ w))).

(** Write phase; called with the latch. *)
Definition update_bitmap w (core tx_bitmap : Z) : outcome WriteBitmap :=
  insert_pos ← count_prefix_sum w core;
  assert_that (b ← is_bit_set_at_the_position (core_bitmap_ w) (i32 core); mret (negb b));;
  w1 ← insert_tx_bitmap w insert_pos tx_bitmap;
  w2 ← update_core_bitmap w1 core;
  assert_that (is_bit_set_at_the_position (core_bitmap_ w2) (i32 core));;
  mret w2.

Definition clear_bitmaps w : WriteBitmap := set_tx_bitmaps (set_core_bitmap w 0) [].

Definition is_final_state w (core tx : Z) : outcome bool :=
  if negb (core_bitmap_ w =? 0) then
    last_core ← find_the_largest (core_bitmap_ w);
    if u64 last_core =? core then
      assert_that (bm ← vector_back (tx_bitmaps_ w); mret (negb (bm =? 0)));;
      bm ← vector_back (tx_bitmaps_ w);
      last_tx ← find_the_largest bm;
      mret (u64 last_tx =? tx)
    else mret false
  else mret false.

Definition identify_visible_version_in_bitmaps w (core tx : Z) : outcome (bool * Z * Z) :=
  '(second_core, first_core) ←
    find_the_two_largest_among_or_less_than (core_bitmap_ w) (i32 core);
  if first_core =? -1 then
    assert_ ((first_core =? -1) && (second_core =? -1));;
    mret (false, 0, 0)
  else
    first_core_pos ← count_prefix_sum w (u64 first_core);
    assert_ (first_core_pos <? Z.of_nat (length (tx_bitmaps_ w)));;
    if first_core =? i32 core then
      bm ← vector_at (tx_bitmaps_ w) first_core_pos;
      first_tx ← find_the_largest_among_less_than bm (i32 tx);
      if negb (first_tx =? -1) then mret (true, u64 first_core, u64 first_tx)
      else if negb (second_core =? -1) then
        second_core_pos ← count_prefix_sum w (u64 second_core);
        assert_ (second_core_pos <? first_core_pos);;
        bm2 ← vector_at (tx_bitmaps_ w) second_core_pos;
        tx2 ← find_the_largest bm2;
        mret (true, u64 second_core, u64 tx2)
      else mret (false, 0, 0)
    else
      assert_ ((0 <=? first_core) && (u64 first_core <? core));;
      bm ← vector_at (tx_bitmaps_ w) first_core_pos;
      tx1 ← find_the_largest bm;
      mret (true, u64 first_core, u64 tx1).

End Bitmaps.

(** ** The methods that touch versions *)
Section Versions.
Context `{BuildConfig}.

Definition create_pending_version : M HEnv addr :=
  version ← new_version (mkVersion None PENDING false);
  stat_increment Create;;
  mret version.

(** [assert(version->status == STABLE)]. *)
Definition assert_stable (version : ptr) : M HEnv unit :=
  if NDEBUG then mret tt
  else v ← load_version version; assertM (bool_decide (status v = STABLE)).

(** [gc(version, stat)]; the caller clears its pointer. *)
Definition gc (version : ptr) : M HEnv unit :=
  assertM (nonnull version);;
  assert_stable version;;
  collect_version version.

(** ** The row as a shared object *)
Definition wb_lock (val : addr) : LockAt HEnv :=
  mkLockAt (fun e => wb_lock_ <$> rows e !! val)
    (fun l e => set_rows (alter (fun w => set_wb_lock w l) val) e).

(** [__atomic_fetch_add(&ref_cnt_, 1)] (the old value) and
    [__atomic_sub_fetch(&ref_cnt_, 1)] (the new one).  [who] is ghost: the
    reader that is counted, [None] for the one on top of the readers. *)
Definition count_in (who : option Z) (w : WriteBitmap) : WriteBitmap :=
  match who with Some s => set_readers w ({[s]} ∪ readers_ w) | None => set_guard w true end.
Definition count_out (who : option Z) (w : WriteBitmap) : WriteBitmap :=
  match who with Some s => set_readers w (readers_ w ∖ {[s]}) | None => set_guard w false end.
Definition fetch_add_ref_cnt (val : addr) (who : option Z) : M HEnv Z :=
  w ← load_row val;
  store_row val (count_in who (set_ref_cnt w (u64 (ref_cnt_ w + 1))));;
  mret (ref_cnt_ w).
Definition sub_fetch_ref_cnt (val : addr) (who : option Z) : M HEnv Z :=
  w ← load_row val;
  store_row val (count_out who (set_ref_cnt w (u64 (ref_cnt_ w - 1))));;
  mret (u64 (ref_cnt_ w - 1)).

Abbreviation HProg := (prog HEnv).
Context (me : nat).                     (* the worker, for the ghost fields *)

(** What a reader finds in the bitmaps: the serial of the writer it reads from,
    or the master version. *)
Definition find_writer (val : addr) (core tx : Z) : M HEnv (Z + ptr) :=
  w ← load_row val;
  if negb (core_bitmap_ w =? 0) then
    '(is_found, visible_core, visible_tx) ← lift (identify_visible_version_in_bitmaps w core tx);
    if is_found : bool then mret (inl (get_serial_id visible_core visible_tx))
    else
      assert_stable (master_ w);;
      assertM (nonnull (master_ w));;
      mret (inr (master_ w))
  else
    assertM (bool_decide (placeholders_ w = ∅));;
    assertM (nonnull (master_ w));;
    assert_stable (master_ w);;
    mret (inr (master_ w)).

(** [placeholders_[visible_id]], with a new pending version when it is null. *)
Definition take_placeholder (val : addr) (visible_id : Z) : M HEnv ptr :=
  w ← load_row val;
  match default None (placeholders_ w !! visible_id) with
  | Some v => mret (Some v)
  | None =>
      v ← create_pending_version;
      store_row val (set_placeholders w (<[visible_id := Some v]> (placeholders_ w)));;
      mret (Some v)
  end.

(** Read phase. *)
Definition append_pending_version (val : addr) (core tx : Z) : HProg ptr :=
  ref_cnt ← act (fetch_add_ref_cnt val (Some (get_serial_id core tx)));
  (if ref_cnt =? 0 then _ ← act (fetch_add_ref_cnt val None); mret tt else mret tt);;
  found ← act (find_writer val core tx);
  match found with
  | inl visible_id =>
      lock (wb_lock val) me;;
      v ← act (take_placeholder val visible_id);
      unlock (wb_lock val);;
      act (assertM (nonnull v));;
      mret v
  | inr p => mret p
  end.

(** The last reader's collection, under the latch. *)
Definition collect_by_reader (val : addr) : M HEnv unit :=
  w ← load_row val;
  w1 ← (if nonnull (previous_master_ w) then
          gc (previous_master_ w);;
          assertM (nonnull (master_ w));;
          mret (set_previous_master w None)
        else mret w);
  w2 ← (if negb (bool_decide (placeholders_ w1 = ∅)) then
          _ ← forM (map_to_list (placeholders_ w1)) (fun '(_, version) =>
                assert_stable version;; gc version);
          mret (set_placeholders w1 ∅)
        else mret w1);
  assertM (bool_decide (previous_master_ w2 = None));;
  assertM (bool_decide (placeholders_ w2 = ∅));;
  store_row val w2.

(** Execution phase, after a read; [reader] is ghost. *)
Definition decrement_ref_cnt (val : addr) (reader : Z) : HProg unit :=
  ref_cnt ← act (sub_fetch_ref_cnt val (Some reader));
  if ref_cnt =? 1 then
    lock (wb_lock val) me;;
    act (collect_by_reader val);;
    _ ← act (sub_fetch_ref_cnt val None);
    unlock (wb_lock val)
  else mret tt.

(** What a writer does under the latch: the last writer takes its version out
    of the placeholders (or creates it), retires the master version and clears
    the bitmaps; another one only looks its placeholder up. *)
Definition take_write_version (val : addr) (core tx : Z) : M HEnv ptr :=
  w ← load_row val;
  let serial_id := get_serial_id core tx in
  let itr := placeholders_ w !! serial_id in
  is_final ← lift (is_final_state w core tx);
  if is_final : bool then
    '(version, w1) ← (match itr with
                      | None => v ← create_pending_version; mret (Some v, w)
                      | Some v => mret (v, set_placeholders w (delete serial_id (placeholders_ w)))
                      end);
    w2 ← (if ref_cnt_ w1 =? 0 then
            gc (master_ w1);;
            assertM (bool_decide (placeholders_ w1 = ∅));;
            mret w1
          else mret (set_previous_master w1 (master_ w1)));
    let w3 := set_master w2 version in
    let w4 := if negb (core_bitmap_ w3 =? 0) then clear_bitmaps w3 else w3 in
    assertM (core_bitmap_ w4 =? 0);;
    assertM (bool_decide (tx_bitmaps_ w4 = []));;
    store_row val w4;;
    mret version
  else mret (default None itr).

(** Execution phase, before a write. *)
Definition identify_write_version (val : addr) (core tx : Z) : HProg ptr :=
  lock (wb_lock val) me;;
  version ← act (take_write_version val core tx);
  unlock (wb_lock val);;
  mret version.

End Versions.

(** ** Representation: the writers of the epoch, by serial *)
Definition block (core bm : Z) : list Z := (fun tx => core * 64 + tx) <$> positions bm.
Definition writers (w : WriteBitmap) : list Z :=
  concat (zip_with block (positions (core_bitmap_ w)) (tx_bitmaps_ w)).

Definition bitmaps_ok (w : WriteBitmap) : Prop :=
  word64 (core_bitmap_ w) /\ length (tx_bitmaps_ w) = length (positions (core_bitmap_ w)) /\
  Forall (fun bm => word64 bm /\ bm <> 0) (tx_bitmaps_ w).

(** The bitmap of a core, and the same data as a region of Serval's. *)
Definition bitmap_at (w : WriteBitmap) (core : Z) : option Z :=
  if decide (core ∈ positions (core_bitmap_ w)) then
    tx_bitmaps_ w !! length (filter (fun c => c < core) (positions (core_bitmap_ w)))
  else None.
Definition as_array (bm : Z) : PerCoreVersionArray.t :=
  PerCoreVersionArray.mk bm (replicate (length (positions bm)) (Some 1%positive)).
Definition as_region (w : WriteBitmap) : RowRegion.t :=
  RowRegion.mk (core_bitmap_ w) ((fun core => as_array (default 0 (bitmap_at w core))) <$> seqZ 0 64).

Section Writers.
Context `{BuildConfig}.
Implicit Types w : WriteBitmap.

Lemma bitmap_at_index w i core :
  positions (core_bitmap_ w) !! i = Some core -> bitmap_at w core = tx_bitmaps_ w !! i.
Proof.
  intros Hi. unfold bitmap_at. rewrite decide_True by (by eapply list_elem_of_lookup_2).
  rewrite (sorted_rank _ i) by (done || apply positions_sorted). rewrite length_take.
  apply lookup_lt_Some in Hi. by rewrite Nat.min_l by lia.
Qed.

Lemma core_index w core :
  bitmaps_ok w -> core ∈ positions (core_bitmap_ w) ->
  exists i bm, positions (core_bitmap_ w) !! i = Some core /\ tx_bitmaps_ w !! i = Some bm /\
    word64 bm /\ bm <> 0 /\ 0 <= core < 64.
Proof.
  intros (_ & Hlen & Hbm) Hin. pose proof Hin as [Hr _]%elem_of_positions.
  apply list_elem_of_lookup in Hin as [i Hi].
  destruct (lookup_lt_is_Some_2 (tx_bitmaps_ w) i) as [bm Hb].
  { rewrite Hlen. by eapply lookup_lt_Some. }
  rewrite Forall_lookup in Hbm. destruct (Hbm i bm Hb). by exists i, bm.
Qed.

Lemma count_prefix_sum_eq w core :
  0 <= core < 64 ->
  count_prefix_sum w core
  = Ok (Z.of_nat (length (filter (fun c => c < core) (positions (core_bitmap_ w))))).
Proof.
  intros Hc. unfold count_prefix_sum. rewrite i32_small, fill_until_before_eq by lia. simpl.
  unfold count_bits. by rewrite popcount_prefix by lia.
Qed.

Lemma count_prefix_sum_index w i core :
  positions (core_bitmap_ w) !! i = Some core -> count_prefix_sum w core = Ok (Z.of_nat i).
Proof.
  intros Hi. pose proof (list_elem_of_lookup_2 _ _ _ Hi) as [Hr _]%elem_of_positions.
  rewrite count_prefix_sum_eq, (sorted_rank _ i) by (done || apply positions_sorted).
  rewrite length_take. apply lookup_lt_Some in Hi. by rewrite Nat.min_l by lia.
Qed.

Lemma as_region_array w i core bm :
  positions (core_bitmap_ w) !! i = Some core -> tx_bitmaps_ w !! i = Some bm ->
  RowRegion.arrays_ (as_region w) !! Z.to_nat core = Some (as_array bm).
Proof.
  intros Hi Hb. pose proof (list_elem_of_lookup_2 _ _ _ Hi) as [Hr _]%elem_of_positions.
  unfold as_region. cbn [RowRegion.arrays_]. rewrite list_lookup_fmap, lookup_seqZ_lt by lia. simpl.
  rewrite Z2Nat.id by lia. by rewrite (bitmap_at_index w i), Hb.
Qed.

Lemma as_region_ok w : bitmaps_ok w -> region_ok (as_region w).
Proof.
  intros Hok. pose proof Hok as (Hw & Hlen & Hbm). split; [done|]. split.
  { unfold as_region. cbn [RowRegion.arrays_]. by rewrite length_fmap, length_seqZ. }
  intros core a Hc Ha. destruct (core_index w core Hok Hc) as (i & bm & Hi & Hb & Hwb & Hne & Hr).
  rewrite (as_region_array w i core bm) in Ha by done. injection Ha as <-. simpl. split.
  - split; [done|]. simpl. rewrite length_replicate. split; [done|]. apply Forall_replicate. by eexists.
  - intros Hnil. apply replicate_nil_inv in Hnil || apply (f_equal length) in Hnil; simpl in *.
    rewrite length_replicate in Hnil. apply length_zero_iff_nil, positions_nil in Hnil; done.
Qed.

Lemma writers_region w : bitmaps_ok w -> ids (region_history (as_region w)) = writers w.
Proof.
  intros Hok. pose proof Hok as (_ & Hlen & _). unfold ids, region_history, writers.
  rewrite (fmap_concat fst). f_equal. apply list_eq. intros i.
  rewrite !list_lookup_fmap, lookup_zip_with. cbn [RowRegion.core_bitmap_ as_region].
  destruct (positions (core_bitmap_ w) !! i) as [core|] eqn:Hi; [|done]. simpl.
  destruct (tx_bitmaps_ w !! i) as [bm|] eqn:Hb.
  2:{ apply lookup_lt_Some in Hi. apply lookup_ge_None in Hb. lia. }
  unfold core_history. rewrite (as_region_array w i core bm) by done. simpl. f_equal.
  unfold array_history, as_array, block. simpl. rewrite fst_zip; [done|].
  by rewrite length_fmap, length_replicate.
Qed.

Lemma writers_sorted w : bitmaps_ok w -> StronglySorted Z.lt (writers w).
Proof. intros Hok. rewrite <- writers_region by done. apply region_history_ascending. Qed.

Lemma elem_of_writers w s :
  s ∈ writers w <-> exists i core bm tx, positions (core_bitmap_ w) !! i = Some core /\
    tx_bitmaps_ w !! i = Some bm /\ tx ∈ positions bm /\ s = core * 64 + tx.
Proof.
  unfold writers. rewrite list_elem_of_In, in_concat. split.
  - intros (b & Hb & Hs). apply list_elem_of_In, list_elem_of_lookup in Hb as [i Hi].
    rewrite lookup_zip_with in Hi.
    destruct (positions (core_bitmap_ w) !! i) as [core|] eqn:Hc; [|done]. simpl in Hi.
    destruct (tx_bitmaps_ w !! i) as [bm|] eqn:Hbm; [|done]. simplify_eq/=.
    apply list_elem_of_In, list_elem_of_fmap in Hs as (tx & -> & Htx). by exists i, core, bm, tx.
  - intros (i & core & bm & tx & Hc & Hbm & Htx & ->). exists (block core bm).
    split; apply list_elem_of_In; [|by apply list_elem_of_fmap_2].
    apply (list_elem_of_lookup_2 _ i). by rewrite lookup_zip_with, Hc, Hbm.
Qed.

Lemma writers_nil w : bitmaps_ok w -> writers w = [] <-> core_bitmap_ w = 0.
Proof.
  intros Hok. pose proof Hok as (Hw & _ & _). split.
  - intros Hn. apply positions_nil; [done|]. destruct (positions (core_bitmap_ w)) as [|core ps] eqn:Hps; [done|exfalso].
    destruct (core_index w core Hok) as (i & bm & Hi & Hb & Hwb & Hne & _); [rewrite Hps; by left|].
    destruct (positions bm) as [|tx txs] eqn:Hp; [by apply positions_nil in Hp|].
    assert (core * 64 + tx ∈ writers w) as Hin.
    { apply elem_of_writers. exists i, core, bm, tx. split_and!; try done. rewrite Hp. by left. }
    rewrite Hn in Hin. by apply not_elem_of_nil in Hin.
  - intros Hz. unfold writers. by rewrite (proj2 (positions_nil _ Hw)).
Qed.

End Writers.

(** ** The bitmap operations against the list of writers *)
Section BitmapSpecs.
Context `{BuildConfig}.
Implicit Types w : WriteBitmap.

(** The largest writer below a reader, as [identify_visible_version_in_bitmaps] reports it. *)
Definition visible_answer (w : WriteBitmap) (core tx : Z) : bool * Z * Z :=
  match last (filter (fun s => s < core * 64 + tx) (writers w)) with
  | Some s => (true, core_of s, tx_of s)
  | None => (false, 0, 0)
  end.

(** The search reads the same bitmaps as [RowRegion.identify_visible_version]. *)
Lemma identify_as_region w core tx :
  bitmaps_ok w -> core_bitmap_ w <> 0 -> 0 <= core < 64 -> 0 <= tx < 64 ->
  identify_visible_version_in_bitmaps w core tx
  = RowRegion.identify_visible_version (as_region w) core tx.
Proof.
  intros Hok Hne Hcore Htx. pose proof Hok as (Hw & Hlen & _).
  unfold identify_visible_version_in_bitmaps, RowRegion.identify_visible_version.
  cbn [RowRegion.core_bitmap_ as_region]. rewrite i32_small by lia.
  rewrite two_largest_eq by done. rewrite !bind_Ok.
  set (l := filter (fun p => p < core + 1) (positions (core_bitmap_ w))).
  assert (Hls : StronglySorted Z.lt l) by apply sorted_filter, positions_sorted.
  assert (Hin : forall c, c ∈ l -> c ∈ positions (core_bitmap_ w)).
  { intros c [_ ?]%list_elem_of_filter. done. }
  destruct (last l) as [c1|] eqn:Hlast.
  2:{ apply last_None in Hlast. by rewrite Hlast. }
  apply last_Some in Hlast as [l' Hl']. rewrite Hl', last_two_snoc.
  destruct (core_index w c1 Hok) as (i1 & bm1 & Hi1 & Hb1 & _ & _ & Hr1); [apply Hin; rewrite Hl'; set_solver|].
  rewrite (proj2 (Z.eqb_neq c1 (-1))), u64_small by lia.
  rewrite (count_prefix_sum_index w i1 c1) by exact Hi1. rewrite bind_Ok.
  pass_assert by (apply lookup_lt_Some in Hb1; bool_lia).
  assert (Hv1 : vector_at (tx_bitmaps_ w) (Z.of_nat i1) = Ok bm1).
  { unfold vector_at. by rewrite decide_True, Nat2Z.id, Hb1 by lia. }
  assert (Ha1 : RowRegion.array (as_region w) c1 = Ok (as_array bm1)).
  { unfold RowRegion.array, vector_at. by rewrite decide_True, (as_region_array w i1 c1 bm1) by (done || lia). }
  rewrite Hv1, Ha1, !bind_Ok. destruct (Z.eqb_spec c1 core) as [->|]; [|done].
  cbn [PerCoreVersionArray.transaction_bitmap_ as_array].
  destruct (find_the_largest_among_less_than bm1 (i32 tx)) as [ft|]; [|done]. rewrite !bind_Ok.
  destruct (negb (ft =? -1)); [done|]. destruct (last l') as [c2|] eqn:Hl2.
  2:{ unfold last_or_minus_one. by rewrite Hl2. }
  unfold last_or_minus_one. rewrite Hl2. cbn [default].
  apply last_Some in Hl2 as [l2 ->]. rewrite Hl' in Hls.
  destruct (core_index w c2 Hok) as (i2 & bm2 & Hi2 & Hb2 & _ & _ & Hr2); [apply Hin; rewrite Hl'; set_solver|].
  assert (Hlt : (i2 < i1)%nat).
  { apply (sorted_lookup_inj (positions (core_bitmap_ w)) i2 i1 c2 core); try done; [apply positions_sorted|].
    apply (sorted_app_lt (l2 ++ [c2]) [core]); [done|set_solver..]. }
  cbn [id from_option]. rewrite (proj2 (Z.eqb_neq c2 (-1))), (u64_small c2) by lia. cbn [negb].
  rewrite (count_prefix_sum_index w i2 c2), bind_Ok by exact Hi2. pass_assert by bool_lia.
  assert (Hv2 : vector_at (tx_bitmaps_ w) (Z.of_nat i2) = Ok bm2).
  { unfold vector_at. by rewrite decide_True, Nat2Z.id, Hb2 by lia. }
  assert (Ha2 : RowRegion.array (as_region w) c2 = Ok (as_array bm2)).
  { unfold RowRegion.array, vector_at. by rewrite decide_True, (as_region_array w i2 c2 bm2) by (done || lia). }
  by rewrite Hv2, Ha2, !bind_Ok.
Qed.

Lemma identify_in_bitmaps_eq w core tx :
  bitmaps_ok w -> core_bitmap_ w <> 0 -> 0 <= core < 64 -> 0 <= tx < 64 ->
  identify_visible_version_in_bitmaps w core tx = Ok (visible_answer w core tx).
Proof.
  intros Hok Hne Hcore Htx. rewrite identify_as_region by done.
  pose proof (identify_visible (as_region w) core tx (as_region_ok w Hok) Hne Hcore Htx) as Hid.
  unfold visible_answer. rewrite <- writers_region, <- last_ids by done.
  destruct (visible_before _ _) as [[s p]|]; [|done]. by destruct Hid as [-> _].
Qed.

(** [update_bitmap]: the core's transactions join the writers. *)
Lemma update_bitmap_eq w core bm :
  bitmaps_ok w -> 0 <= core < 64 -> core ∉ positions (core_bitmap_ w) -> word64 bm -> bm <> 0 ->
  exists w', update_bitmap w core bm = Ok w' /\ bitmaps_ok w' /\
    (forall s, s ∈ writers w' <-> s ∈ writers w \/ s ∈ block core bm) /\
    (forall c, c ∈ positions (core_bitmap_ w') <-> c = core \/ c ∈ positions (core_bitmap_ w)) /\
    w' = set_tx_bitmaps (set_core_bitmap w (core_bitmap_ w')) (tx_bitmaps_ w').
Proof.
  intros Hok Hcore Hnin Hwb Hne. pose proof Hok as (Hw & Hlen & Hbm).
  set (ps := positions (core_bitmap_ w)) in *.
  set (l1 := filter (fun c => c < core) ps). set (l2 := filter (fun c => core < c) ps).
  assert (Hps : ps = l1 ++ l2).
  { apply sorted_ext; [apply positions_sorted| |].
    - assert (Hs1 : StronglySorted Z.lt l1) by apply sorted_filter, positions_sorted.
      assert (Hs2 : StronglySorted Z.lt l2) by apply sorted_filter, positions_sorted.
      assert (H1 : Forall (fun c => c < core) l1) by (apply Forall_forall; by intros c [? _]%list_elem_of_filter).
      assert (H2 : Forall (fun c => core < c) l2) by (apply Forall_forall; by intros c [? _]%list_elem_of_filter).
      revert H1 H2 Hs1 Hs2. generalize l1, l2. clear. intros l1 l2 H1 H2 Hs1 Hs2.
      induction Hs1 as [|x l Hl IH Hx]; [done|]. apply Forall_cons in H1 as [Hx1 H1].
      constructor; [by apply IH|]. apply Forall_app. split; [done|]. eapply Forall_impl; [exact H2|]. simpl. lia.
    - intros c. unfold l1, l2. rewrite elem_of_app, !list_elem_of_filter. split; [|tauto].
      intros Hc. destruct (Z.lt_trichotomy c core) as [|[->|]]; tauto. }
  assert (Hbit : bit_at (core_bitmap_ w) core = false).
  { destruct (bit_at (core_bitmap_ w) core) eqn:Hb; [|done]. exfalso. by apply Hnin, elem_of_positions. }
  set (t1 := take (length l1) (tx_bitmaps_ w)). set (t2 := drop (length l1) (tx_bitmaps_ w)).
  assert (Ht : tx_bitmaps_ w = t1 ++ t2) by (symmetry; apply take_drop).
  assert (Hl1 : length t1 = length l1).
  { unfold t1. rewrite length_take, Hlen, Hps, length_app. lia. }
  set (cb := Z.lor (core_bitmap_ w) (2 ^ (63 - core))).
  assert (Hps' : positions cb = l1 ++ core :: l2).
  { apply sorted_ext; [apply positions_sorted| |].
    - assert (Hs : StronglySorted Z.lt (insert_sorted core ps)) by (by apply insert_sorted_sorted; [apply positions_sorted|]).
      rewrite Hps, insert_sorted_app in Hs; [done|..]; apply Forall_forall; by intros c [? _]%list_elem_of_filter.
    - intros c. unfold cb. rewrite positions_set by done. fold ps. rewrite Hps, !elem_of_app, elem_of_cons. tauto. }
  exists (set_tx_bitmaps (set_core_bitmap w cb) (t1 ++ bm :: t2)). split_and!.
  - unfold update_bitmap. rewrite count_prefix_sum_eq by done. fold ps. fold l1. rewrite bind_Ok.
    rewrite assert_that_true by (rewrite i32_small, is_bit_set_eq by lia; simpl; by rewrite Hbit).
    rewrite bind_Ok. unfold insert_tx_bitmap. rewrite decide_True, Nat2Z.id by lia.
    rewrite Ht, <- Hl1, vector_insert_length, !bind_Ok.
    unfold update_core_bitmap. cbn [core_bitmap_ set_tx_bitmaps]. rewrite set_bit_in_eq by done. fold cb.
    rewrite !bind_Ok. rewrite assert_that_true; [done|]. cbn [core_bitmap_ set_core_bitmap].
    rewrite i32_small, is_bit_set_eq by lia. f_equal. unfold cb.
    rewrite bit_at_lor, bit_at_pow2, Z.eqb_refl by lia. apply orb_true_r.
  - split; [by apply word64_lor; [|apply word64_pow2]|]. cbn. fold cb. rewrite Hps', !length_app. cbn.
    rewrite Ht in Hlen, Hbm. rewrite Hps, !length_app in Hlen. split; [lia|].
    apply Forall_app in Hbm as [? ?]. apply Forall_app. split; [done|]. by constructor.
  - intros s. unfold writers. cbn. rewrite Hps'. fold ps. rewrite Hps, Ht, !zip_with_app by done. cbn.
    rewrite !concat_app, !elem_of_app. cbn. rewrite elem_of_app. tauto.
  - intros c. cbn. unfold cb. by rewrite positions_set.
  - by destruct w.
Qed.

Lemma last_concat_snoc {A} (l : list (list A)) (x : list A) : x <> [] -> last (concat (l ++ [x])) = last x.
Proof.
  intros Hx. rewrite concat_app. simpl. rewrite app_nil_r. destruct x using rev_ind; [done|].
  by rewrite app_assoc, !last_snoc.
Qed.

(** [is_final_state]: is this the largest writer? *)
Lemma is_final_state_eq w core tx :
  bitmaps_ok w -> 0 <= core < 64 -> 0 <= tx < 64 ->
  is_final_state w core tx = Ok (bool_decide (last (writers w) = Some (core * 64 + tx))).
Proof.
  intros Hok Hcore Htx. pose proof Hok as (Hw & Hlen & _). unfold is_final_state.
  destruct (Z.eqb_spec (core_bitmap_ w) 0) as [Hz|Hnz]; cbn [negb].
  { pose proof (proj2 (writers_nil w Hok) Hz) as ->. done. }
  destruct (positions (core_bitmap_ w)) as [|c ps _] eqn:Hps using rev_ind.
  { by apply positions_nil in Hps. }
  assert (Hi : positions (core_bitmap_ w) !! length ps = Some c) by (rewrite Hps; apply list_lookup_middle; done).
  rewrite (find_the_largest_eq _ c) by (by rewrite Hps, last_snoc). rewrite bind_Ok.
  destruct (core_index w c Hok) as (i & bm & Hi' & Hb & Hwb & Hbne & Hc); [rewrite Hps; set_solver|].
  rewrite u64_small by lia.
  assert (i = length ps) as ->.
  { eapply NoDup_lookup; [|exact Hi'|exact Hi]. apply NoDup_filter, NoDup_seqZ. }
  assert (Hlast : tx_bitmaps_ w = take (length ps) (tx_bitmaps_ w) ++ [bm]).
  { rewrite <- (take_drop (length ps) (tx_bitmaps_ w)) at 1. f_equal. rewrite (drop_S _ bm) by done.
    f_equal. apply drop_ge. rewrite Hlen, length_app. simpl. lia. }
  assert (Hwr : last (writers w) = last (block c bm)).
  { unfold writers. rewrite Hps, Hlast, zip_with_app by (rewrite length_take, Hlen, length_app; simpl; lia).
    cbn [zip_with]. apply last_concat_snoc. intros Hn%fmap_nil_inv. by apply positions_nil in Hn. }
  destruct (last (positions bm)) as [t|] eqn:Hlt.
  2:{ apply last_None, positions_nil in Hlt; done. }
  assert (Hbt : last (writers w) = Some (c * 64 + t)) by (unfold block in Hwr; by rewrite Hwr, fmap_last, Hlt).
  assert (Ht : 0 <= t < 64).
  { apply last_Some_elem_of in Hlt. by apply elem_of_positions in Hlt as [? _]. }
  rewrite Hbt. destruct (Z.eqb_spec c core) as [->|Hne].
  - rewrite Hlast, vector_back_snoc, !bind_Ok. rewrite assert_that_true by (f_equal; bool_lia).
    rewrite bind_Ok, (find_the_largest_eq _ t), bind_Ok, u64_small by (done || lia). unfold mret, outcome_ret. f_equal.
    destruct (Z.eqb_spec t tx) as [->|Hnt]; symmetry; [by apply bool_decide_eq_true_2|].
    apply bool_decide_eq_false_2. intros [=]. lia.
  - unfold mret, outcome_ret. f_equal. symmetry. apply bool_decide_eq_false_2. intros [=]. lia.
Qed.

End BitmapSpecs.

(** ** Properties of the bitmaps *)
Section BitmapProperties.
Context `{BuildConfig}.

(** The transactions of the cores that registered, each core with its bitmap. *)
Definition registered (cores : list (Z * Z)) (s : Z) : Prop :=
  exists core bm, (core, bm) ∈ cores /\ s ∈ block core bm.
Fixpoint update_bitmaps (w : WriteBitmap) (cores : list (Z * Z)) : outcome WriteBitmap :=
  match cores with
  | [] => mret w
  | (core, bm) :: cores' => w' ← update_bitmap w core bm; update_bitmaps w' cores'
  end.

(** A row at the start of the write phase: nobody has registered. *)
Definition no_writers (w : WriteBitmap) : Prop := core_bitmap_ w = 0 /\ tx_bitmaps_ w = [].

Lemma no_writers_ok w : no_writers w -> bitmaps_ok w /\ writers w = [].
Proof.
  intros [Hc Ht]. unfold bitmaps_ok, writers. rewrite Hc, Ht.
  split; [split; [unfold word64; lia|by split]|done].
Qed.

Lemma update_bitmaps_eq cores : forall w,
  bitmaps_ok w -> NoDup cores.*1 ->
  Forall (fun p => 0 <= p.1 < 64 /\ word64 p.2 /\ p.2 <> 0 /\ p.1 ∉ positions (core_bitmap_ w)) cores ->
  exists w', update_bitmaps w cores = Ok w' /\ bitmaps_ok w' /\
    (forall s, s ∈ writers w' <-> s ∈ writers w \/ registered cores s).
Proof.
  induction cores as [|[core bm] cores IH]; intros w Hok Hnd Hc.
  - exists w. split_and!; [done|done|]. intros s. split; [by left|]. intros [|(c & b & Hin & _)]; [done|].
    by apply not_elem_of_nil in Hin.
  - rewrite fmap_cons in Hnd. apply NoDup_cons in Hnd as [Hn Hnd].
    apply Forall_cons in Hc as [(Hr & Hw & Hne & Hnin) Hc]. cbn [fst snd] in *.
    destruct (update_bitmap_eq w core bm) as (w1 & Hrun & Hok1 & Hwr & Hcb & _); [done..|].
    destruct (IH w1) as (w' & Hrun' & Hok' & Hwr'); [done|done| |].
    + apply Forall_forall. intros [c b] Hin. rewrite Forall_forall in Hc. cbn [fst snd].
      destruct (Hc _ Hin) as (? & ? & ? & ?). do 3 (split; [done|]).
      rewrite Hcb. intros [->|]; [|done]. apply Hn, list_elem_of_fmap. by exists (core, b).
    + exists w'. split_and!; [by cbn; rewrite Hrun|done|]. intros s. rewrite Hwr', Hwr. unfold registered.
      setoid_rewrite elem_of_cons. split.
      * intros [[|Hb]|(c & b & ? & ?)]; [by left|right; exists core, bm; auto|right; exists c, b; auto].
      * intros [|(c & b & [[= -> ->]|?] & ?)]; [auto|auto|]. right. by exists c, b.
Qed.

(** C32. In whatever order the cores register their transactions, the bitmaps
    hold exactly the registered writers: a reader is told the largest writer
    below itself (or that there is none), and exactly the largest writer is
    told that it creates the final state. *)
Theorem write_bitmaps_record_the_writers (w : WriteBitmap) (cores : list (Z * Z)) (core tx : Z)
  (Hw : no_writers w) (Hne : cores <> []) (Hnd : NoDup cores.*1)
  (Hc : Forall (fun p => 0 <= p.1 < 64 /\ word64 p.2 /\ p.2 <> 0) cores)
  (Hcore : 0 <= core < 64) (Htx : 0 <= tx < 64) :
  exists w', update_bitmaps w cores = Ok w' /\
    (exists v, identify_visible_version_in_bitmaps w' core tx = Ok v /\
      match v with
      | (true, c, t) => registered cores (c * 64 + t) /\ c * 64 + t < core * 64 + tx /\
          forall s, registered cores s -> s < core * 64 + tx -> s <= c * 64 + t
      | (false, _, _) => forall s, registered cores s -> core * 64 + tx <= s
      end) /\
    exists b, is_final_state w' core tx = Ok b /\
      (b = true <-> registered cores (core * 64 + tx) /\ forall s, registered cores s -> s <= core * 64 + tx).
Proof.
  destruct (no_writers_ok w Hw) as [Hok Hnil]. destruct Hw as [Hcb _].
  destruct (update_bitmaps_eq cores w Hok Hnd) as (w' & Hrun & Hok' & Hwr).
  { eapply Forall_impl; [exact Hc|]. intros p (? & ? & ?). do 3 (split; [done|]).
    rewrite Hcb. by intros ?%not_elem_of_nil. }
  assert (Hmem : forall s, s ∈ writers w' <-> registered cores s).
  { intros s. rewrite Hwr, Hnil, elem_of_nil. tauto. }
  pose proof (writers_sorted w' Hok') as Hsort. exists w'. split; [done|]. split.
  - exists (visible_answer w' core tx). split.
    + apply identify_in_bitmaps_eq; try done. intros Hz. apply (writers_nil w' Hok') in Hz.
      destruct cores as [|[c b] cores']; [done|]. apply Forall_cons in Hc as [(? & ? & Hb) _]. cbn in *.
      destruct (positions b) as [|t ts] eqn:Hp; [by apply positions_nil in Hp|].
      assert (c * 64 + t ∈ writers w') as Hin.
      { apply Hmem. exists c, b. split; [by left|]. unfold block. rewrite Hp. by left. }
      rewrite Hz in Hin. by apply not_elem_of_nil in Hin.
    + unfold visible_answer. destruct (last _) as [s|] eqn:Hl.
      * apply sorted_last in Hl as [[Hlt Hin]%list_elem_of_filter Hmax]; [|by apply sorted_filter].
        assert (core_of s * 64 + tx_of s = s) as -> by (unfold core_of, tx_of; pose proof (Z.div_mod s 64); lia).
        split_and!; [by apply Hmem|done|]. intros s' Hs' Hlt'. apply Hmax, list_elem_of_filter. by rewrite Hmem.
      * intros s Hs%Hmem. apply last_None in Hl. destruct (decide (s < core * 64 + tx)) as [Hlt|]; [|lia].
        assert (s ∈ filter (fun s => s < core * 64 + tx) (writers w')) as Hin by (by apply list_elem_of_filter).
        rewrite Hl in Hin. by apply not_elem_of_nil in Hin.
  - exists (bool_decide (last (writers w') = Some (core * 64 + tx))). split; [by apply is_final_state_eq|].
    rewrite bool_decide_eq_true, sorted_last by done. by setoid_rewrite Hmem.
Qed.
End BitmapProperties.

Module BitmapWitness.
#[local] Existing Instance debug_build.
(** Cores 9, 2 and 40 register, in this order; core 9 with transactions 0 and 62. *)
Definition cores : list (Z * Z) := [(9, 2 ^ 63 + 2); (2, 2 ^ 60); (40, 1)].
Lemma write_bitmaps_record_the_writers_witness :
  exists w, update_bitmaps WriteBitmap_init cores = Ok w /\
    identify_visible_version_in_bitmaps w 9 40 = Ok (true, 9, 0) /\ is_final_state w 40 63 = Ok true.
Proof.
  destruct (write_bitmaps_record_the_writers WriteBitmap_init cores 40 63) as (w & Hrun & _ & b & Hb & _).
  - done.
  - done.
  - apply (bool_decide_unpack _). by vm_compute.
  - repeat (apply Forall_cons; split; [split_and!; by vm_compute|]). constructor.
  - lia.
  - lia.
  - exists w. split; [exact Hrun|]. clear b Hb. vm_compute in Hrun. injection Hrun as <-.
    split; by vm_compute.
Defined.
End BitmapWitness.
