(* ===== verification/Cheetah.v ===== *)
(** * Cheetah: the protocol of [protocols/cheetah/include/cheetah.hpp]

    The write phase collects, per row, the transactions of the worker that
    write it and registers them in the row's bitmaps; the read phase gives every
    read the version it will wait for; the execution phase reads and writes.
    The three phases of [executables/ycsb_cheetah.cpp] close the file.  The
    index and the iteration order of [std::unordered_map] are parameters. *)
From S2P Require Import Prelude Bitmap Schema Ycsb Conc RWLock Memory ServalRow CheetahRow.

Local Abbreviation TableID := Z.
Local Abbreviation Key := Z.

(** [class Operation] of [operation_set.hpp]; [w_bitmap_] is the row. *)
Record Operation := mkOperation {
  ope_ : Ope;
  index_ : Key;
  value_ : Z;
  pending_ : ptr;
  w_bitmap_ : ptr
}.
(** [w_set_] points into [rw_set_]: positions. *)
Record OperationSet := mkOperationSet {
  rw_set_ : list Operation;
  w_set_ : list nat
}.
Definition set_pending (op : Operation) (p : ptr) : Operation :=
  mkOperation (ope_ op) (index_ op) (value_ op) p (w_bitmap_ op).
Definition set_w_bitmap (op : Operation) (b : ptr) : Operation :=
  mkOperation (ope_ op) (index_ op) (value_ op) (pending_ op) b.

(** The class is also called [Serval] in the source. *)
Record Cheetah := mkCheetah {
  core_ : Z;
  serial_id_ : Z;
  epoch_ : Z;
  ws : gmap TableID (list Key);           (* write set *)
  tables : gset TableID;
  bitmaps_ : list (addr * Z)              (* row, tx bitmap; in iteration order *)
}.

Section Methods.
Context `{BuildConfig}.
Context (find : TableID -> Key -> option addr).   (* [Index::get_index().find] *)
Context (schema : Schema).                        (* [Schema::get_schema()] *)
Context (rehash : list (addr * Z) -> list (addr * Z)).
Context (me : nat).                               (* the worker, for the ghost fields *)

Abbreviation HProg := (prog HEnv).

Definition set_ws (s : Cheetah) (w : gmap TableID (list Key)) : Cheetah :=
  mkCheetah (core_ s) (serial_id_ s) (epoch_ s) w (tables s) (bitmaps_ s).
Definition set_tables (s : Cheetah) (ts : gset TableID) : Cheetah :=
  mkCheetah (core_ s) (serial_id_ s) (epoch_ s) (ws s) ts (bitmaps_ s).
Definition set_bitmaps (s : Cheetah) (m : list (addr * Z)) : Cheetah :=
  mkCheetah (core_ s) (serial_id_ s) (epoch_ s) (ws s) (tables s) m.
Definition set_serial (s : Cheetah) (core serial : Z) : Cheetah :=
  mkCheetah core serial (epoch_ s) (ws s) (tables s) (bitmaps_ s).

(** [ws.get_table(table_id)]: creates the entry. *)
Definition get_table (s : Cheetah) (table_id : TableID) : list Key := default [] (ws s !! table_id).
Definition set_table (s : Cheetah) (table_id : TableID) (l : list Key) : Cheetah :=
  set_ws s (<[table_id := l]> (ws s)).

Definition terminate_transaction (s : Cheetah) : Cheetah :=
  set_tables (set_ws s (set_fold (fun table_id w => <[table_id := []]> w) (ws s) (tables s))) ∅.

Definition get_core_serial (serial_id : Z) : Z := serial_id / 64.
Definition get_tx_serial (serial_id : Z) : Z := serial_id mod 64.
Definition decompose_id_serial (serial_id : Z) : Z * Z :=
  (get_core_serial serial_id, get_tx_serial serial_id).

(** [bitmaps_[w_bitmap]] read and assigned: a new key may change the order of iteration. *)
Definition tx_bitmap_of (s : Cheetah) (w_bitmap : addr) : Z :=
  match list_find (fun p => p.1 = w_bitmap) (bitmaps_ s) with Some (_, p) => p.2 | None => 0 end.
Definition set_tx_bitmap (s : Cheetah) (w_bitmap : addr) (bm : Z) : Cheetah :=
  if decide (w_bitmap ∈ (bitmaps_ s).*1) then
    set_bitmaps s ((fun p => if decide (p.1 = w_bitmap) then (w_bitmap, bm) else p) <$> bitmaps_ s)
  else set_bitmaps s (rehash ((w_bitmap, bm) :: bitmaps_ s)).

(** ** Write phase *)

(** Only the worker's own fields change: the row is found, its latch untouched. *)
Definition update_write_bitmaps (s : Cheetah) (table_id : TableID) (key : Key)
  : HProg (ptr * Cheetah) :=
  let s := set_tables s ({[table_id]} ∪ tables s) in
  let w_table := get_table s table_id in
  act (assertM (Z.of_nat (length w_table) <=? 10));;
  if decide (key ∈ w_table) then act (assertM false;; failM (RuntimeError "error"))
  else
    match find table_id key with
    | None => act (assertM false;; failM (RuntimeError "masstree NOT_FOUND"))
    | Some w_bitmap =>
        bm ← act (lift (set_bit_at_the_given_location_in (tx_bitmap_of s w_bitmap)
                          (get_tx_serial (serial_id_ s))));
        let s1 := set_tx_bitmap s w_bitmap bm in
        act (assertM (negb (tx_bitmap_of s1 w_bitmap =? 0)));;
        mret (Some w_bitmap, set_table s1 table_id (get_table s1 table_id ++ [key]))
    end.

(** [w_bitmap->update_bitmap(core_, tx_bitmap)], under the row's latch. *)
Definition update_row_bitmap (s : Cheetah) (w_bitmap : addr) (tx_bitmap : Z) : M HEnv unit :=
  w ← load_row w_bitmap;
  w' ← lift (update_bitmap w (core_ s) tx_bitmap);
  store_row w_bitmap w'.

(** The iterator is a position; a row whose latch is taken is passed over, an
    erased entry leaves the iterator on its successor. *)
Definition finalize_step (s : Cheetah) (c : list (addr * Z) * nat)
  : HProg (list (addr * Z) * nat + list (addr * Z)) :=
  let '(m, itr) := c in
  match m !! itr with
  | None => mret (inr m)
  | Some (w_bitmap, tx_bitmap) =>
      locked ← try_lock (wb_lock w_bitmap) me;
      if locked : bool then
        act (update_row_bitmap s w_bitmap tx_bitmap);;
        unlock (wb_lock w_bitmap);;
        mret (inl (take itr m ++ drop (S itr) m, itr))
      else mret (inl (m, S itr))
  end.

Definition finalize_update_write_bitmaps (s : Cheetah) : HProg Cheetah :=
  m ← iter (bitmaps_ s) (fun m =>
        match m with
        | [] => mret (inr m)
        | _ => m' ← iter (m, 0%nat) (finalize_step s); mret (inl m')
        end);
  act (assertM (bool_decide (m = [])));;
  mret (set_bitmaps s m).

(** ** Read phase *)
Definition append_pending_version (s : Cheetah) (table_id : TableID) (key : Key)
  : HProg (ptr * ptr * Cheetah) :=
  let s := set_tables s ({[table_id]} ∪ tables s) in
  let w_table := get_table s table_id in
  if decide (key ∈ w_table) then act (assertM false;; failM (RuntimeError "error"))
  else
    match find table_id key with
    | None => act (assertM false;; failM (RuntimeError "masstree NOT_FOUND"))
    | Some w_bitmap =>
        pending ← CheetahRow.append_pending_version me w_bitmap (core_ s) (get_tx_serial (serial_id_ s));
        act (assertM (nonnull pending));;
        mret (pending, Some w_bitmap, set_table s table_id (w_table ++ [key]))
    end.

(** ** Execution phase *)
Definition execute_read (visible : ptr) : M HEnv ptr :=
  assertM (nonnull visible);; v ← load_version visible; mret (rec v).

Definition wait_stable_and_execute_read (visible : ptr) : HProg ptr :=
  act (assertM (nonnull visible));;
  loop (v ← act (load_version visible);
        mret (if decide (status v = PENDING) then None else Some tt));;
  act (execute_read visible).

Definition read (s : Cheetah) (pending w_bitmap : ptr) : HProg ptr :=
  rec ← wait_stable_and_execute_read pending;
  val ← act (derefM w_bitmap);
  decrement_ref_cnt me val (serial_id_ s);;
  mret rec.

Definition upsert (s : Cheetah) (table_id : TableID) (w_bitmap : ptr) : HProg ptr :=
  record_size ← act (lift (get_record_size schema table_id));
  val ← act (derefM w_bitmap);
  pending ← identify_write_version me val (core_ s) (get_tx_serial (serial_id_ s));
  if nonnull pending then
    rec ← act (rec ← new_record;
               v ← load_version pending; store_version pending (mkVersion (Some rec) (status v) (deleted v));;
               mret rec);
    act (v ← load_version pending; store_version pending (mkVersion (Memory.rec v) STABLE (deleted v)));;
    mret (Some rec)
  else mret None.

Definition write (s : Cheetah) (table_id : TableID) (w_bitmap : ptr) : HProg ptr :=
  upsert s table_id w_bitmap.

(** ** The phases of [executables/ycsb_cheetah.cpp] *)
Context (table : TableID).                        (* [get_id<Record>()] *)

(** [txs[i]]: undefined out of range. *)
Definition tx_at (txs : list OperationSet) (i : Z) : HProg OperationSet :=
  act (lift (vector_at txs i)).

(** The loop over [w_set]: every write is registered and gets its row. *)
Fixpoint write_all (s : Cheetah) (ops : list Operation) (ws : list nat)
  : HProg (list Operation * Cheetah) :=
  match ws with
  | [] => mret (ops, s)
  | j :: ws' =>
      op ← act (derefM (ops !! j));
      '(b, s') ← update_write_bitmaps s table (index_ op);
      act (assertM (nonnull b));;
      write_all s' (<[j := set_w_bitmap op b]> ops) ws'
  end.

(** Sequential assignment: worker [w] takes the transactions [64 w .. 64 w + 63]. *)
Fixpoint write_txs (worker_id head_in_the_epoch i : Z) (n : nat) (s : Cheetah)
    (txs : list OperationSet) : HProg (list OperationSet * Cheetah) :=
  match n with
  | O => mret ([], s)
  | S n' =>
      tx ← tx_at txs (head_in_the_epoch + worker_id * 64 + i);
      '(ops, s1) ← write_all (set_serial s (core_ s) (worker_id * 64 + i)) (rw_set_ tx) (w_set_ tx);
      '(done, s2) ← write_txs worker_id head_in_the_epoch (i + 1) n' (terminate_transaction s1) txs;
      mret (mkOperationSet ops (w_set_ tx) :: done, s2)
  end.
Definition do_write_phase (worker_id head_in_the_epoch : Z) (s : Cheetah) (txs : list OperationSet)
  : HProg (list OperationSet * Cheetah) :=
  '(done, s1) ← write_txs worker_id head_in_the_epoch 0
                  (Z.to_nat NUM_TXS_IN_ONE_EPOCH_IN_ONE_CORE)
                  (set_serial s worker_id (serial_id_ s)) txs;
  s2 ← finalize_update_write_bitmaps s1;
  mret (done, s2).

(** The loop over [rw_set]: every read gets its version and its row. *)
Fixpoint read_all (s : Cheetah) (ops : list Operation) : HProg (list Operation * Cheetah) :=
  match ops with
  | [] => mret ([], s)
  | op :: ops' =>
      '(op', s1) ← (match ope_ op with
                    | Read =>
                        '(p, b, s1) ← append_pending_version s table (index_ op);
                        act (assertM (nonnull p));;
                        act (assertM (nonnull b));;
                        mret (set_w_bitmap (set_pending op p) b, s1)
                    | Update => mret (op, s)
                    end);
      '(rest, s2) ← read_all s1 ops';
      mret (op' :: rest, s2)
  end.

Fixpoint read_txs (worker_id head_in_the_epoch i : Z) (n : nat) (s : Cheetah)
    (txs : list OperationSet) : HProg (list OperationSet * Cheetah) :=
  match n with
  | O => mret ([], s)
  | S n' =>
      tx ← tx_at txs (head_in_the_epoch + worker_id * 64 + i);
      '(ops, s1) ← read_all (set_serial s (core_ s) (worker_id * 64 + i)) (rw_set_ tx);
      '(done, s2) ← read_txs worker_id head_in_the_epoch (i + 1) n' (terminate_transaction s1) txs;
      mret (mkOperationSet ops (w_set_ tx) :: done, s2)
  end.
Definition do_read_phase (worker_id head_in_the_epoch : Z) (s : Cheetah) (txs : list OperationSet)
  : HProg (list OperationSet * Cheetah) :=
  read_txs worker_id head_in_the_epoch 0 (Z.to_nat NUM_TXS_IN_ONE_EPOCH_IN_ONE_CORE)
    (set_serial s worker_id (serial_id_ s)) txs.

(** One transaction of the execution phase: the records read, in order. *)
Fixpoint execute_ops (s : Cheetah) (ops : list Operation) : HProg (list ptr) :=
  match ops with
  | [] => mret []
  | op :: ops' =>
      r ← (match ope_ op with
           | Read =>
               act (assertM (nonnull (pending_ op)));;
               rec ← read s (pending_ op) (w_bitmap_ op); mret [rec]
           | Update => _ ← write s table (w_bitmap_ op); mret []
           end);
      rs ← execute_ops s ops';
      mret (r ++ rs)
  end.

(** Round-robin assignment: worker [w] executes the transactions [w], [64 + w], ... *)
Fixpoint execute_txs (worker_id head_in_the_epoch i : Z) (n : nat) (s : Cheetah)
    (txs : list OperationSet) : HProg (list (list ptr)) :=
  match n with
  | O => mret []
  | S n' =>
      act (assertM (i <? Z.of_nat (length txs)));;
      let s1 := set_serial s i (i * 64 + worker_id) in
      tx ← tx_at txs (head_in_the_epoch + i * 64 + worker_id);
      r ← execute_ops s1 (rw_set_ tx);
      rs ← execute_txs worker_id head_in_the_epoch (i + 1) n' s1 txs;
      mret (r :: rs)
  end.
Definition do_execution_phase (worker_id head_in_the_epoch : Z) (s : Cheetah)
    (txs : list OperationSet) : HProg (list (list ptr)) :=
  execute_txs worker_id head_in_the_epoch 0 (Z.to_nat NUM_TXS_IN_ONE_EPOCH_IN_ONE_CORE) s txs.

End Methods.
