(* ===== verification/Serval.v ===== *)
(** * Serval: the protocol of [protocols/serval/include/serval.hpp]

    The object's fields are a record; its methods are programs over the
    environment, one action per access to a shared atomic variable.  The index
    ([Index::find], Masstree) and the time-stamp counter are parameters. *)
From S2P Require Import Prelude Bitmap Schema Ycsb Conc RWLock Memory ServalRow.

Local Abbreviation TableID := Z.
Local Abbreviation Key := Z.

(** [class Serval]: the fields the methods use. *)
Record Serval := mkServal {
  core_ : Z;
  serial_id_ : Z;
  Serval_epoch_ : Z;
  ws : gmap TableID (list Key);       (* write set *)
  tables : gset TableID
}.

Section Methods.
Context `{BuildConfig}.
Context (find : TableID -> Key -> option addr).   (* [Index::get_index().find] *)
Context (rdtscp : SEnv -> Z).                     (* the time-stamp counter *)
Context (schema : Schema).                        (* [Schema::get_schema()] *)
Context (me : nat).                               (* the worker, for the ghost fields *)

Abbreviation SProg := (prog SEnv).

(** [ws.get_table(table_id)]: creates the entry. *)
Definition get_table (s : Serval) (table_id : TableID) : list Key :=
  default [] (ws s !! table_id).
Definition set_table (s : Serval) (table_id : TableID) (l : list Key) : Serval :=
  mkServal (core_ s) (serial_id_ s) (Serval_epoch_ s) (<[table_id := l]> (ws s)) (tables s).
Definition insert_table (s : Serval) (table_id : TableID) : Serval :=
  mkServal (core_ s) (serial_id_ s) (Serval_epoch_ s) (ws s) ({[table_id]} ∪ tables s).

Definition terminate_transaction (s : Serval) : Serval :=
  mkServal (core_ s) (serial_id_ s) (Serval_epoch_ s)
    (set_fold (fun table_id w => <[table_id := []]> w) (ws s) (tables s)) ∅.

(** ** Rows as shared objects *)
Definition row_lock (val : addr) : LockAt SEnv :=
  mkLockAt (fun e => rwl <$> rows e !! val)
    (fun l e => set_rows (alter (fun v => mkValue l (epoch_ v) (master_ v) (global_array_ v)
                                            (row_region_ v)) val) e).

Definition load_epoch (val : addr) : SProg Z := act (v ← load_row val; mret (epoch_ v)).
Definition load_row_region (val : addr) : SProg (option nat) :=
  act (v ← load_row val; mret (row_region_ v)).
Definition now : M SEnv Z := readM rdtscp.
Definition add_wait (t : MeasureType) (start : Z) : M SEnv unit :=
  t1 ← now; stat_add t (u64 (t1 - start)).

Definition get_core_serial (serial_id : Z) : Z := serial_id / 64.
Definition get_tx_serial (serial_id : Z) : Z := serial_id mod 64.
Definition decompose_id_serial (serial_id : Z) : Z * Z :=
  (get_core_serial serial_id, get_tx_serial serial_id).

(** ** Initialisation phase *)
Definition create_pending_version : M SEnv addr :=
  version ← new_version (mkVersion None PENDING false);
  stat_increment Create;;
  mret version.

Definition append_to_unconted_row (s : Serval) (val : addr) : M SEnv ptr :=
  new_version ← create_pending_version;
  v ← load_row val;
  g ← lift (GlobalVersionArray.append (global_array_ v) (Some new_version) (i32 (serial_id_ s)));
  assertM (GlobalVersionArray.is_exist g (i32 (serial_id_ s)));;
  store_row val (mkValue (rwl v) (epoch_ v) (master_ v) g (row_region_ v));;
  mret (Some new_version).

Definition may_be_contented (row_region : option nat) : bool := bool_decide (is_Some row_region).

Definition append_to_contented_row (s : Serval) (region : nat) : M SEnv ptr :=
  pending ← create_pending_version;
  r ← load_region region;
  r' ← RowRegion.append r (core_ s) (Some pending) (get_tx_serial (serial_id_ s));
  store_region region r';;
  mret (Some pending).

Definition move_global_array_to_row_region (val : addr) (region : nat) : M SEnv unit :=
  v ← load_row val;
  _ ← forM (GlobalVersionArray.ids_slots_ (global_array_ v)) (fun '(serial_id, version) =>
        let (core, tx) := decompose_id_serial (u64 serial_id) in
        r ← load_region region;
        r' ← RowRegion.append r core version tx;
        store_region region r');
  store_row val (mkValue (rwl v) (epoch_ v) (master_ v) (GlobalVersionArray.mk [])
                   (row_region_ v)).

(** The store that publishes the region ends the action that filled it. *)
Definition install_region (val : addr) (region : nat) : M SEnv unit :=
  move_global_array_to_row_region val region;;
  v ← load_row val;
  store_row val (mkValue (rwl v) (epoch_ v) (master_ v) (global_array_ v) (Some region)).

Definition wait_region_installation (val : addr) : SProg nat :=
  start ← act now;
  '(region, waited) ← loop (
    region ← load_row_region val;
    match region with
    | Some r => mret (Some (r, true))
    | None =>
        b ← try_lock (row_lock val) me;
        if b : bool then
          act (add_wait WaitInInitialization start);;
          region ← load_row_region val;
          r ← (match region with
               | None =>
                   act (v ← load_row val; assertM (negb (may_be_contented (row_region_ v))));;
                   r ← RowRegionController.fetch_new_region me val;
                   act (install_region val r);;
                   mret r
               | Some r => mret r
               end);
          unlock (row_lock val);;
          mret (Some (r, false))
        else mret None
    end);
  if waited : bool then act (add_wait WaitInInitialization start);; mret region
  else mret region.

Definition epoch_guard (s : Serval) (val : addr) : SProg unit :=
  start ← act now;
  waited ← loop (
    epoch ← load_epoch val;
    if epoch <? Serval_epoch_ s then
      b ← try_lock (row_lock val) me;
      if b : bool then
        act (add_wait WaitInInitialization start);;
        epoch ← load_epoch val;
        (if epoch <? Serval_epoch_ s then
           act (v ← load_row val;
                v' ← initialize_the_row v (Serval_epoch_ s);
                store_row val v')
         else mret tt);;
        unlock (row_lock val);;
        mret (Some false)
      else mret None
    else mret (Some true));
  if waited : bool then act (add_wait WaitInInitialization start) else mret tt.

Definition do_append_pending_version (s : Serval) (val : addr) (pending : ptr) : SProg ptr :=
  act (assertM (negb (nonnull pending)));;
  epoch_guard s val;;
  act (v ← load_row val; assertM (epoch_ v =? Serval_epoch_ s));;
  b ← try_lock (row_lock val) me;
  if b : bool then
    cur_region ← load_row_region val;
    pending ← (match cur_region with
               | Some region => act (append_to_contented_row s region)
               | None => act (append_to_unconted_row s val)
               end);
    unlock (row_lock val);;
    mret pending
  else
    region ← wait_region_installation val;
    act (append_to_contented_row s region).

Definition append_pending_version (s : Serval) (table_id : TableID) (key : Key) (pending : ptr)
  : SProg (ptr * Serval) :=
  let s := insert_table s table_id in
  let w_table := get_table s table_id in
  if decide (key ∈ w_table) then act (failM (RuntimeError "error"))
  else
    match find table_id key with
    | None => act (assertM false;; failM (RuntimeError "masstree NOT_FOUND"))
    | Some val =>
        pending ← do_append_pending_version s val pending;
        act (assertM (nonnull pending));;
        mret (pending, set_table s table_id (get_table s table_id ++ [key]))
    end.

(** ** Execution phase *)
Definition execute_read (visible : ptr) : M SEnv ptr :=
  assertM (nonnull visible);; v ← load_version visible; mret (rec v).

Definition wait_stable_and_execute_read (visible : ptr) : SProg ptr :=
  act (assertM (nonnull visible));;
  start ← act now;
  loop (v ← act (load_version visible);
        mret (if decide (status v = PENDING) then None else Some tt));;
  act (add_wait WaitInExecution start;; execute_read visible).

(** What [read] finds in the row: the version to read, and whether to wait for it. *)
Definition find_visible (s : Serval) (val : addr) : M SEnv (ptr * bool) :=
  v ← load_row val;
  if negb (epoch_ v =? Serval_epoch_ s) then mret (master_ v, false)
  else
    assertM (epoch_ v =? Serval_epoch_ s);;
    if GlobalVersionArray.is_dirty (global_array_ v) then
      '(is_found, txid, version) ← lift (GlobalVersionArray.search_visible_version
                                          (global_array_ v) (i32 (serial_id_ s)));
      if is_found : bool then
        assertM (txid <? serial_id_ s);;
        mret (version, true)
      else mret (master_ v, false)
    else
      d ← has_dirty_region v;
      if d : bool then
        g ← derefM (row_region_ v);
        r ← load_region g;
        '(is_found, core, tx) ← lift (RowRegion.identify_visible_version r (core_ s)
                                       (get_tx_serial (serial_id_ s)));
        if is_found : bool then
          assertM (core * 64 + tx <? serial_id_ s);;
          a ← lift (RowRegion.array r core);
          version ← lift (PerCoreVersionArray.get a tx);
          mret (version, true)
        else mret (master_ v, false)
      else mret (master_ v, false).

Definition read (s : Serval) (table_id : TableID) (key : Key) : SProg ptr :=
  match find table_id key with
  | None => act (assertM false;; failM (RuntimeError "masstree NOT_FOUND"))
  | Some val =>
      '(visible, wait) ← act (find_visible s val);
      if wait : bool then wait_stable_and_execute_read visible
      else act (execute_read visible)
  end.

(** [upsert]: allocate the record and store it, then store the status.  The record size
    only sizes the allocation; looking it up throws for an unknown table. *)
Definition upsert (s : Serval) (table_id : TableID) (pending : ptr) : SProg ptr :=
  record_size ← act (lift (get_record_size schema table_id));
  rec ← act (rec ← new_record;
             v ← load_version pending; store_version pending (mkVersion (Some rec) (status v) (deleted v));;
             mret rec);
  act (v ← load_version pending; store_version pending (mkVersion (Memory.rec v) STABLE (deleted v)));;
  mret (Some rec).

Definition write (s : Serval) (table_id : TableID) (pending : ptr) : SProg ptr :=
  upsert s table_id pending.


(** ** The phases of [executables/ycsb_serval.cpp] *)
Context (table : TableID).                        (* [get_id<Record>()] *)

(** [txs[i]]: undefined out of range. *)
Definition tx_at (txs : list OperationSet) (i : Z) : SProg OperationSet :=
  act (lift (vector_at txs i)).

(** One transaction of the initialisation phase: a pending version for every
    update.  The result is the operation set with its [pending_] fields. *)
Fixpoint append_all (s : Serval) (ops : list Operation) (ws : list nat)
  : SProg (list Operation * Serval) :=
  match ws with
  | [] => mret (ops, s)
  | j :: ws' =>
      op ← act (derefM (ops !! j));
      '(p, s') ← append_pending_version s table (index_ op) (pending_ op);
      append_all s' (<[j := mkOperation (ope_ op) (index_ op) (value_ op) p]> ops) ws'
  end.

Definition initialize_tx (s : Serval) (tx : OperationSet) : SProg (OperationSet * Serval) :=
  '(ops, s') ← append_all s (rw_set_ tx) (w_set_ tx);
  mret (mkOperationSet ops (w_set_ tx), terminate_transaction s').

Definition with_serial (s : Serval) (serial core : Z) : Serval :=
  mkServal core serial (Serval_epoch_ s) (ws s) (tables s).

(** Sequential assignment: worker [w] appends the versions of the transactions
    [64 w .. 64 w + 63]. *)
Fixpoint do_initialization_phase_from (worker_id head : Z) (i : Z) (n : nat) (s : Serval)
    (txs : list OperationSet) : SProg (list OperationSet * Serval) :=
  match n with
  | O => mret ([], s)
  | S n' =>
      let s1 := with_serial s (worker_id * 64 + i) worker_id in
      tx ← tx_at txs (head + worker_id * 64 + i);
      '(tx', s2) ← initialize_tx s1 tx;
      '(done, s3) ← do_initialization_phase_from worker_id head (i + 1) n' s2 txs;
      mret (tx' :: done, s3)
  end.
Definition do_initialization_phase (worker_id head : Z) (s : Serval) (txs : list OperationSet)
  : SProg (list OperationSet * Serval) :=
  do_initialization_phase_from worker_id head 0 (Z.to_nat NUM_TXS_IN_ONE_EPOCH_IN_ONE_CORE) s txs.

(** One transaction of the execution phase: the records read, in order. *)
Fixpoint execute_ops (s : Serval) (ops : list Operation) : SProg (list ptr) :=
  match ops with
  | [] => mret []
  | op :: ops' =>
      r ← (match ope_ op with
           | Read => rec ← read s table (index_ op); mret [rec]
           | Update =>
               if nonnull (pending_ op) then _ ← write s table (pending_ op); mret []
               else mret []
           end);
      rs ← execute_ops s ops';
      mret (r ++ rs)
  end.

(** Round-robin assignment: worker [w] executes the transactions [w], [64 + w],
    [2 * 64 + w] and so on. *)
Fixpoint do_execution_phase_from (worker_id head : Z) (i : Z) (n : nat) (s : Serval)
    (txs : list OperationSet) : SProg (list (list ptr)) :=
  match n with
  | O => mret []
  | S n' =>
      act (assertM (i <? Z.of_nat (length txs)));;
      let s1 := with_serial s (i * 64 + worker_id) i in
      tx ← tx_at txs (head + i * 64 + worker_id);
      r ← execute_ops s1 (rw_set_ tx);
      rs ← do_execution_phase_from worker_id head (i + 1) n' s1 txs;
      mret (r :: rs)
  end.
Definition do_execution_phase (worker_id head : Z) (s : Serval) (txs : list OperationSet)
  : SProg (list (list ptr)) :=
  do_execution_phase_from worker_id head 0 (Z.to_nat NUM_TXS_IN_ONE_EPOCH_IN_ONE_CORE) s txs.

End Methods.
