(* ===== verification/ServalInit.v ===== *)
(** * ServalInit: the initialisation phase of Serval under every interleaving

    The workers of an epoch run [do_initialization_phase] of [Serval]
    concurrently on shared rows.  The invariant [Inv] describes the rows, the
    regions and the version heap at every action; [kept] is what a worker can
    rely on while the others run. *)
From S2P Require Import Prelude Bitmap Schema Ycsb Conc RWLock Memory Txs ServalRow Serval.

(** ** Sequential specifications of the actions *)
Section Actions.
Context `{BuildConfig}.
Import GlobalVersionArray.
Local Abbreviation slots := PerCoreVersionArray.slots_.
Local Abbreviation bits := PerCoreVersionArray.transaction_bitmap_.

(** A row is unaffected by what happens to other versions and regions. *)
Definition row_frame (e e' : SEnv) (v : Value) : Prop :=
  (forall g, row_region_ v = Some g -> pool e' !! g = pool e !! g) /\
  (forall q, Some q ∈ row_ptrs e v -> versions e' !! q = versions e !! q).

Lemma region_of_frame e e' v : row_frame e e' v -> region_of e' v = region_of e v.
Proof.
  intros [Hp _]. unfold region_of. destruct (row_region_ v) as [g|] eqn:Hg; [|done].
  simpl. by apply Hp.
Qed.

Lemma row_ptrs_frame e e' v : row_frame e e' v -> row_ptrs e' v = row_ptrs e v.
Proof. intros Hf. unfold row_ptrs. by rewrite (region_of_frame e e' v). Qed.

Lemma row_history_frame e e' v : row_frame e e' v -> row_history e' v = row_history e v.
Proof.
  intros [Hp _]. unfold row_history. destruct (row_region_ v) as [g|]; [|done]. by rewrite Hp.
Qed.

Lemma history_ptrs (e : SEnv) v s p : row_ok e v -> (s, p) ∈ row_history e v -> p ∈ row_ptrs e v.
Proof.
  intros [_ Hr _ _ _ _]. unfold row_history, row_ptrs, region_of.
  destruct (row_region_ v) as [g|]; simpl.
  - destruct Hr as (_ & r & -> & Hok). simpl. intros (c & Hc & Hin)%elem_of_region_history.
    apply elem_of_core_history in Hin as (a & i & tx & Ha & _ & Hp & _).
    apply elem_of_cons. right. apply elem_of_app. right.
    apply elem_of_concat_fmap. exists a. split; by eapply list_elem_of_lookup_2.
  - intros Hin. apply elem_of_cons. right. apply elem_of_app. left.
    apply list_elem_of_fmap. by exists (s, p).
Qed.

Lemma stale_ptrs (e : SEnv) v r core p :
  region_of e v = Some r -> p ∈ stale r core -> p ∈ row_ptrs e v.
Proof.
  unfold row_ptrs, stale. intros ->. simpl. destruct (recorded r core); [by intros ?%not_elem_of_nil|].
  destruct (_ !! Z.to_nat core) as [a|] eqn:Ha; [|by intros ?%not_elem_of_nil]. simpl. intros Hp.
  apply elem_of_cons. right. apply elem_of_app. right.
  apply elem_of_concat_fmap. exists a. split; [by eapply list_elem_of_lookup_2|done].
Qed.

Lemma row_ok_frame e e' v : row_frame e e' v -> row_ok e v -> row_ok e' v.
Proof.
  intros Hf Hok. pose proof Hf as [Hp Hv]. pose proof Hok as [Hg Hr Hnd Hl Hm Hst].
  constructor; rewrite ?(row_ptrs_frame e e' v Hf); try done.
  - destruct (row_region_ v) as [g|] eqn:Hg'; [|done]. destruct Hr as (? & r & ? & ?).
    split; [done|]. exists r. by rewrite Hp.
  - apply Forall_forall. intros p Hin. rewrite Forall_forall in Hl.
    apply (live_ptr_frame e e'); [|by apply Hl]. intros q ->. by apply Hv.
  - apply (collectable_ptr_frame e e'); [|done]. intros q Hq. apply Hv. rewrite <- Hq.
    unfold row_ptrs. apply elem_of_cons. by left.
  - intros r core Hr' Hc. rewrite (region_of_frame e e' v Hf) in Hr'.
    specialize (Hst r core Hr' Hc). apply Forall_forall. intros p Hin.
    rewrite Forall_forall in Hst. apply (collectable_ptr_frame e e'); [|by apply Hst].
    intros q ->. apply Hv. by eapply stale_ptrs.
Qed.

Lemma row_final_frame e e' v : row_ok e v -> row_frame e e' v -> row_final e v -> row_final e' v.
Proof.
  intros Hok Hf Hfin. unfold row_final. rewrite (row_history_frame e e' v Hf).
  apply Forall_forall. intros [s p] Hin. unfold row_final in Hfin. rewrite Forall_forall in Hfin.
  simpl. apply (collectable_ptr_frame e e'); [|by apply (Hfin (s, p))].
  intros q ->. destruct Hf as [_ Hv]. apply Hv. by eapply history_ptrs.
Qed.

Lemma final_state_frame e e' v : row_frame e e' v -> final_state e' v = final_state e v.
Proof. intros Hf. unfold final_state. by rewrite (row_history_frame e e' v Hf). Qed.

(** [create_pending_version]. *)
Lemma wp_create_pending_version (e : SEnv) (Q : addr -> SEnv -> Prop) :
  heap_ok e ->
  (forall q e', heap_ok e' -> versions e !! q = None -> pending e' q ->
     (forall x, x <> q -> versions e' !! x = versions e !! x) ->
     pool e' = pool e -> rows e' = rows e -> same_control e e' -> Q q e') ->
  wp create_pending_version Q e.
Proof. apply wp_new_pending. Qed.

Lemma wp_load_region g r (Q : RowRegion.t -> SEnv -> Prop) e :
  pool e !! g = Some r -> Q r e -> wp (load_region g) Q e.
Proof. intros Hr HQ. unfold wp, load_region, derefM, mbind, M_bind, lift, deref, getM. by rewrite Hr. Qed.

(** [append_to_contented_row]. *)
Lemma wp_append_contended (e : SEnv) s g r (Q : ptr -> SEnv -> Prop) :
  heap_ok e -> pool e !! g = Some r -> region_ok r ->
  may_append r (core_ s) (get_tx_serial (serial_id_ s)) ->
  NoDup (stale r (core_ s)) -> Forall (collectable_ptr e) (stale r (core_ s)) ->
  (forall q e', heap_ok e' -> versions e !! q = None -> pending e' q ->
     (forall x, x <> q -> Some x ∉ stale r (core_ s) -> versions e' !! x = versions e !! x) ->
     pool e' = <[g := appended r (core_ s) (Some q) (get_tx_serial (serial_id_ s))]> (pool e) ->
     rows e' = rows e -> same_control e e' -> Q (Some q) e') ->
  wp (append_to_contented_row s g) Q e.
Proof.
  intros Hok Hr Hrok Hmay Hnd Hcol HQ. unfold append_to_contented_row. wp_step.
  apply wp_create_pending_version; [done|].
  intros q e1 Hok1 Hfresh Hpend Hv1 Hpool1 Hrows1 (Hu1 & Hl1 & Hh1).
  wp_step. apply (wp_load_region _ r); [by rewrite Hpool1|]. wp_step.
  assert (Hsq : Some q ∉ stale r (core_ s)).
  { intros Hin. rewrite Forall_forall in Hcol. apply Hcol in Hin as (v & r' & Hv & _).
    by rewrite Hfresh in Hv. }
  apply wp_region_append; try done.
  { apply Forall_forall. intros p Hp. rewrite Forall_forall in Hcol.
    apply (collectable_ptr_frame e e1); [|by apply Hcol]. intros x ->. apply Hv1.
    intros ->. done. }
  intros e2 Hok2 (Hv2 & _ & Hpool2 & Hu2 & Hrows2 & Hl2 & Hh2) _.
  wp_step. unfold wp at 1, store_region, modifyM. wp_steps. apply HQ; simpl; try done.
  - by eauto with mvdcc.
  - destruct Hpend as (v & Hv & ?). exists v. simpl. rewrite Hv2, decide_False; [done|].
    by rewrite elem_of_addrs.
  - intros x Hx Hns. by rewrite Hv2, decide_False, Hv1 by (rewrite ?elem_of_addrs; done).
  - by rewrite Hpool2, Hpool1.
  - by rewrite Hrows2.
  - repeat split; simpl; congruence.
Qed.

(** [append_to_unconted_row]. *)
Lemma wp_append_unconted (e : SEnv) s a v (Q : ptr -> SEnv -> Prop) :
  heap_ok e -> rows e !! a = Some v -> ascending (ids_slots_ (global_array_ v)) ->
  0 <= serial_id_ s < 4096 -> serial_id_ s ∉ ids (ids_slots_ (global_array_ v)) ->
  (forall q e', heap_ok e' -> versions e !! q = None -> pending e' q ->
     (forall x, x <> q -> versions e' !! x = versions e !! x) ->
     pool e' = pool e ->
     rows e' = <[a := mkValue (rwl v) (epoch_ v) (master_ v)
                  (GlobalVersionArray.mk (insert_slot (serial_id_ s, Some q)
                     (ids_slots_ (global_array_ v)))) (row_region_ v)]> (rows e) ->
     same_control e e' -> Q (Some q) e') ->
  wp (append_to_unconted_row s a) Q e.
Proof.
  intros Hok Hv Hasc Hs Hnot HQ. unfold append_to_unconted_row. wp_step.
  apply wp_create_pending_version; [done|].
  intros q e1 Hok1 Hfresh Hpend Hv1 Hpool1 Hrows1 (Hu1 & Hl1 & Hh1).
  wp_step. apply (wp_load_row _ v); [by rewrite Hrows1|]. wp_steps.
  unfold GlobalVersionArray.append. wp_steps; [by apply nonnull_Some|]. rewrite i32_small by lia.
  rewrite (upper_bound_insert (serial_id_ s, Some q)) by done. wp_steps.
  apply wp_assertM.
  { unfold is_exist. apply bool_decide_eq_true_2. simpl.
    apply (list_find_elem_of _ _ (serial_id_ s, Some q)); [|done].
    apply elem_of_insert_slot. by left. }
  wp_step. unfold wp at 1, store_row, modifyM. wp_steps.
  apply HQ; simpl; try done; [by eauto with mvdcc|by rewrite Hrows1].
Qed.

End Actions.

(** ** Rows after an append, and the installation of a region *)
Section Install.
Context `{BuildConfig}.
Import GlobalVersionArray.
Local Abbreviation slots := PerCoreVersionArray.slots_.
Local Abbreviation bits := PerCoreVersionArray.transaction_bitmap_.

Lemma stale_appended r core p tx c :
  region_ok r -> 0 <= core < 64 -> 0 <= c < 64 ->
  stale (appended r core p tx) c = if decide (c = core) then [] else stale r c.
Proof.
  intros (Hw & Hlen & _) Hcore Hc. unfold stale, recorded, appended. simpl.
  rewrite bit_at_lor, bit_at_pow2 by lia. case_decide as Heq.
  - subst c. rewrite Z.eqb_refl, orb_true_r. done.
  - rewrite (proj2 (Z.eqb_neq core c)), orb_false_r by lia.
    by rewrite list_lookup_insert_ne by lia.
Qed.

(** The row after [RowRegion.append] of a fresh version [q]. *)
Lemma row_ok_appended (e e' : SEnv) v g r core q tx :
  row_ok e v -> row_region_ v = Some g -> pool e !! g = Some r ->
  may_append r core tx -> versions e !! q = None -> pending e' q ->
  (forall x, x <> q -> Some x ∉ stale r core -> versions e' !! x = versions e !! x) ->
  pool e' !! g = Some (appended r core (Some q) tx) ->
  row_ok e' v /\ row_history e' v = insert_slot (core * 64 + tx, Some q) (row_history e v) /\
  (forall p, p ∈ row_ptrs e' v -> p = Some q \/ p ∈ row_ptrs e v) /\
  (forall p, p ∈ stale r core -> p ∈ row_ptrs e v) /\
  (forall x, Some x ∈ row_ptrs e' v -> x <> q -> versions e' !! x = versions e !! x).
Proof.
  intros Hok Hreg Hr Hmay Hfresh Hpend Hv Hpool.
  pose proof Hok as [Hg Hro Hnd Hl Hm Hst]. rewrite Hreg in Hro.
  destruct Hro as (Hids & r0 & Hr0 & Hrok). assert (r0 = r) as -> by congruence. clear Hr0.
  pose proof Hmay as (Hcore & Htx & _).
  assert (Hro : region_of e v = Some r) by (unfold region_of; by rewrite Hreg).
  assert (Hro' : region_of e' v = Some (appended r core (Some q) tx))
    by (unfold region_of; by rewrite Hreg).
  assert (Hperm : stale r core ++ row_ptrs e' v ≡ₚ row_ptrs e v ++ [Some q]).
  { unfold row_ptrs. rewrite Hro, Hro', Hids. simpl.
    rewrite <- Permutation_middle. apply perm_skip. by apply appended_ptrs. }
  assert (Hnew : Some q ∉ row_ptrs e v).
  { intros Hin. rewrite Forall_forall in Hl. apply Hl in Hin as [w Hw]. by rewrite Hfresh in Hw. }
  assert (Hnd' : NoDup (stale r core ++ row_ptrs e' v)).
  { rewrite Hperm. apply NoDup_app. split_and!; [done| |apply NoDup_singleton].
    intros x Hx ->%list_elem_of_singleton. done. }
  pose proof Hnd' as (_ & Hdisj & Hndp)%NoDup_app.
  assert (Hold : forall p, p ∈ row_ptrs e' v -> p = Some q \/ p ∈ row_ptrs e v).
  { intros p Hp. assert (p ∈ row_ptrs e v ++ [Some q]) as Hin by (rewrite <- Hperm; set_solver).
    set_solver. }
  assert (Hsame : forall x, Some x ∈ row_ptrs e' v -> x <> q -> versions e' !! x = versions e !! x).
  { intros x Hx Hne. apply Hv; [done|]. intros Hin. by apply (Hdisj (Some x)). }
  split_and!; try done.
  - constructor; try done.
    + rewrite Hreg. split; [done|]. eexists. split; [done|]. apply appended_ok; done.
    + apply Forall_forall. intros p Hp. destruct (Hold p Hp) as [->|Hp'].
      * by apply (pending_ptr_live e' (Some q)).
      * rewrite Forall_forall in Hl. apply (live_ptr_frame e e'); [|by apply Hl].
        intros x ->. apply Hsame; [done|]. intros ->. done.
    + apply (collectable_ptr_frame e e'); [|done]. intros x Hx. apply Hsame.
      * rewrite <- Hx. unfold row_ptrs. apply elem_of_cons. by left.
      * intros ->. apply Hnew. rewrite <- Hx. unfold row_ptrs. apply elem_of_cons. by left.
    + intros r' c Hr' Hc. rewrite Hro' in Hr'. injection Hr' as <-.
      pose proof (stale_appended r core (Some q) tx c Hrok Hcore Hc) as Hse.
      case_decide as Heq; rewrite Hse; [constructor|].
      specialize (Hst r c Hro Hc). apply Forall_forall. intros p Hp.
      rewrite Forall_forall in Hst. apply (collectable_ptr_frame e e'); [|by apply Hst].
      intros x ->. apply Hsame.
      * apply (stale_ptrs e' v (appended r core (Some q) tx) c); [done|by rewrite Hse].
      * intros ->. apply Hnew. by apply (stale_ptrs e v r c).
  - unfold row_history. rewrite Hreg, Hpool, Hr. simpl. by apply appended_history.
  - intros p Hp. by apply (stale_ptrs e v r core).
Qed.

(** The row after [GlobalVersionArray.append] of a fresh version. *)
Lemma row_ok_inserted (e e' : SEnv) v s q :
  row_ok e v -> row_region_ v = None -> versions e !! q = None -> pending e' q ->
  s ∉ ids (row_history e v) ->
  (forall x, x <> q -> versions e' !! x = versions e !! x) ->
  let v' := mkValue (rwl v) (epoch_ v) (master_ v)
     (GlobalVersionArray.mk (insert_slot (s, Some q) (ids_slots_ (global_array_ v)))) (row_region_ v) in
  row_ok e' v' /\ row_history e' v' = insert_slot (s, Some q) (row_history e v) /\
  (forall p, p ∈ row_ptrs e' v' -> p = Some q \/ p ∈ row_ptrs e v).
Proof.
  intros Hok Hreg Hfresh Hpend Hs Hv v'. pose proof Hok as [[Hasc Hsome] _ Hnd Hl Hm Hst].
  unfold row_history in Hs. rewrite Hreg in Hs.
  assert (Hperm : forall l : list (Z * ptr), (insert_slot (s, Some q) l).*2 ≡ₚ Some q :: l.*2).
  { induction l as [|x l IH]; simpl; [done|]. case_decide; csimpl; [done|].
    rewrite IH. apply perm_swap. }
  assert (Hptrs : row_ptrs e' v' ≡ₚ Some q :: row_ptrs e v).
  { unfold row_ptrs, region_of. simpl. rewrite Hreg. simpl. rewrite Hperm. apply perm_swap. }
  assert (Hnew : Some q ∉ row_ptrs e v).
  { intros Hin. rewrite Forall_forall in Hl. apply Hl in Hin as [w Hw]. by rewrite Hfresh in Hw. }
  assert (Hold : forall p, p ∈ row_ptrs e' v' -> p = Some q \/ p ∈ row_ptrs e v).
  { intros p Hp. rewrite Hptrs in Hp. by apply elem_of_cons in Hp. }
  assert (Hsame : forall p, p ∈ row_ptrs e v -> forall x, p = Some x -> versions e' !! x = versions e !! x).
  { intros p Hp x ->. apply Hv. intros ->. done. }
  split_and!; [|unfold row_history; simpl; by rewrite Hreg|done].
  constructor; simpl.
  - split; [by apply insert_slot_ascending|]. simpl. apply Forall_forall. intros x Hx.
    apply elem_of_insert_slot in Hx as [->|Hx]; [done|]. by eapply Forall_forall in Hsome.
  - by rewrite Hreg.
  - rewrite Hptrs. by constructor.
  - apply Forall_forall. intros p Hp. destruct (Hold p Hp) as [->|Hp'].
    + by apply (pending_ptr_live e' (Some q)).
    + rewrite Forall_forall in Hl. apply (live_ptr_frame e e'); [by apply Hsame|by apply Hl].
  - apply (collectable_ptr_frame e e'); [|done]. apply Hsame. unfold row_ptrs. set_solver.
  - intros r core Hr. unfold region_of in Hr. simpl in Hr. by rewrite Hreg in Hr.
Qed.

(** Serial numbers an epoch can record. *)
Definition serial_ok (s : Z) : Prop := 0 <= s < 4096.

(** A debug build asserts, before each append to a core's array of 64 slots,
    that fewer than 63 are in use: some transaction of the core [c] must leave
    the row alone.  [l] are the serials that write it. *)
Definition spare (c : Z) (l : list Z) : Prop :=
  NDEBUG = true \/ exists t, 0 <= t < 64 /\ c * 64 + t ∉ l.

Lemma spare_sub c l l' :
  (forall t, 0 <= t < 64 -> c * 64 + t ∈ l -> c * 64 + t ∈ l') -> spare c l' -> spare c l.
Proof. intros Hsub [Hn|(t & Ht & Hin)]; [by left|right]. exists t. split; [done|]. intros H'. by apply Hin, Hsub. Qed.

Lemma spare_prefix c l1 l2 : spare c (l1 ++ l2) -> spare c l1.
Proof. apply spare_sub. intros t _ ?. apply elem_of_app. by left. Qed.

Lemma serial_core_tx s : serial_ok s ->
  0 <= core_of s < 64 /\ 0 <= tx_of s < 64 /\ core_of s * 64 + tx_of s = s.
Proof.
  intros Hs. unfold serial_ok in Hs. unfold core_of, tx_of. pose proof (Z.div_mod s 64). pose proof (Z.mod_pos_bound s 64).
  lia.
Qed.

(** Appending in ascending serial order is always possible. *)
Lemma may_append_after r s :
  region_ok r -> serial_ok s -> spare (core_of s) (ids (region_history r) ++ [s]) ->
  (forall q, q ∈ region_history r -> core_of q.1 = core_of s -> q.1 < s) ->
  may_append r (core_of s) (tx_of s).
Proof.
  intros Hok Hs Hroom Hlt. destruct (serial_core_tx s Hs) as (Hc & Ht & Heq).
  assert (Hpos : Forall (fun q => q < tx_of s /\ core_of s * 64 + q ∈ ids (region_history r))
    (positions (bits (target r (core_of s))))).
  { unfold target. destruct (recorded r (core_of s)) eqn:Hrec.
    2:{ simpl. by rewrite (proj2 (positions_nil 0 ltac:(done))). }
    destruct (region_array r (core_of s) Hok Hc) as [a Ha]. rewrite Ha. simpl.
    apply Forall_forall. intros t Ht'. apply list_elem_of_lookup in Ht' as [i Hi].
    assert (Hcp : core_of s ∈ positions (RowRegion.core_bitmap_ r)) by (by apply elem_of_positions).
    pose proof Hok as (_ & _ & Hr). destruct (Hr _ a Hcp Ha) as [(_ & Hl & _) _].
    destruct (lookup_lt_is_Some_2 (slots a) i) as [p Hp].
    { rewrite Hl. by eapply lookup_lt_Some. }
    specialize (Hlt (core_of s * 64 + t, p)). simpl in Hlt.
    pose proof (list_elem_of_lookup_2 _ _ _ Hi) as [Ht64 _]%elem_of_positions.
    rewrite compose_core in Hlt by done.
    assert (Hin : (core_of s * 64 + t, p) ∈ region_history r).
    { apply elem_of_region_history. exists (core_of s). split; [done|].
      apply elem_of_core_history. by exists a, i, t. }
    specialize (Hlt Hin eq_refl). split; [lia|]. by apply (list_elem_of_fmap_2 fst _ (_, p)). }
  split_and!; try done; [lia..|eapply Forall_impl; [exact Hpos|]; simpl; lia|].
  destruct Hroom as [Hnd|(t0 & Ht0 & Hno)]; [by left|right].
  pose proof (target_ok r (core_of s) Hok Hc) as (_ & Hl & _). rewrite Hl.
  rewrite Forall_forall in Hpos.
  assert (Hfew : (length (tx_of s :: t0 :: positions (bits (target r (core_of s)))) <= length (seqZ 0 64))%nat).
  { apply submseteq_length, NoDup_submseteq.
    - constructor; [intros [Heq0|Hin]%elem_of_cons|constructor; [|apply NoDup_filter, NoDup_seqZ]].
      + apply Hno, elem_of_app. right. rewrite <- Heq0, Heq. by left.
      + destruct (Hpos _ Hin). lia.
      + intros Hin. destruct (Hpos _ Hin) as [_ Hin']. apply Hno, elem_of_app. by left.
    - intros x [->|[->|Hx]%elem_of_cons]%elem_of_cons; apply elem_of_seqZ; [lia..|].
      apply elem_of_positions in Hx as [? _]. lia. }
  rewrite length_seqZ in Hfew. cbn [length] in Hfew. lia.
Qed.

Lemma region_init_ok : region_ok RowRegion.init.
Proof.
  assert (Hp : positions 0 = []) by by apply (positions_nil 0).
  split; [done|]. split; [done|]. intros core a Hc.
  change (core ∈ positions 0) in Hc. rewrite Hp in Hc. by apply not_elem_of_nil in Hc.
Qed.

Lemma stale_init c : stale RowRegion.init c = [].
Proof.
  unfold stale, recorded. change (RowRegion.core_bitmap_ RowRegion.init) with 0. rewrite bit_at_0.
  destruct (RowRegion.arrays_ RowRegion.init !! Z.to_nat c) as [a|] eqn:Ha; [|done].
  apply (lookup_replicate 64) in Ha as [-> _]. done.
Qed.

(** [move_global_array_to_row_region] into a fresh region, then publication. *)
Lemma wp_install (e : SEnv) a v g (Q : unit -> SEnv -> Prop) :
  heap_ok e -> rows e !! a = Some v -> global_ok (global_array_ v) ->
  Forall (fun p => serial_ok p.1) (ids_slots_ (global_array_ v)) ->
  (forall c, 0 <= c < 64 -> spare c (ids (ids_slots_ (global_array_ v)))) ->
  pool e !! g = Some RowRegion.init ->
  (forall r e', heap_ok e' -> region_ok r -> region_history r = ids_slots_ (global_array_ v) ->
     region_ptrs r ≡ₚ (ids_slots_ (global_array_ v)).*2 -> (forall c, 0 <= c < 64 -> stale r c = []) ->
     versions e' = versions e -> pool e' = <[g := r]> (pool e) ->
     rows e' = <[a := mkValue (rwl v) (epoch_ v) (master_ v) (GlobalVersionArray.mk []) (Some g)]>
                 (rows e) ->
     same_control e e' -> Q tt e') ->
  wp (install_region a g) Q e.
Proof.
  intros Hok Hv [Hasc Hsome] Hser Hspare Hg HQ. unfold install_region, move_global_array_to_row_region.
  wp_step. wp_step. apply (wp_load_row _ v); [done|]. wp_step.
  set (l := ids_slots_ (global_array_ v)) in *.
  apply (wp_forM _ _ (fun (dn : list unit) rest e1 => exists r pre, l = pre ++ rest /\ heap_ok e1 /\
    freed [] (set_pool (insert g r) e) e1 /\ region_ok r /\ region_history r = pre /\
    region_ptrs r ≡ₚ pre.*2 /\ forall c, 0 <= c < 64 -> stale r c = [])).
  - exists RowRegion.init, []. split_and!; try done; [|apply region_init_ok|intros; apply stale_init].
    unfold freed. simpl. rewrite list_insert_id by done. done.
  - intros dn [s p] rest e1 (r & pre & Hl & Hok1 & Hf & Hrok & Hh & Hptrs & Hst).
    assert (Hs : serial_ok s).
    { rewrite Forall_forall in Hser. apply (Hser (s, p)). rewrite Hl. set_solver. }
    assert (Hp : is_Some p).
    { rewrite Forall_forall in Hsome. apply (Hsome (s, p)). rewrite Hl. set_solver. }
    assert (Hlt : Forall (fun q => q.1 < s) pre).
    { rewrite Hl in Hasc. apply ascending_app in Hasc as (_ & _ & Hlt).
      eapply Forall_impl; [exact Hlt|]. simpl. intros q Hq. by apply Forall_cons in Hq as [? _]. }
    unfold decompose_id_serial, get_core_serial, get_tx_serial.
    destruct (serial_core_tx s Hs) as (Hc & Ht & Heq).
    assert (Hmay : may_append r (core_of s) (tx_of s)).
    { apply may_append_after; [done..| |].
      - apply (spare_prefix _ _ (ids rest)). rewrite Hh. specialize (Hspare _ Hc). rewrite Hl in Hspare.
        unfold ids in *. rewrite fmap_app, fmap_cons in Hspare. by rewrite <- app_assoc.
      - intros q Hq _. rewrite Hh in Hq. rewrite Forall_forall in Hlt. by apply Hlt. }
    rewrite u64_small by (unfold serial_ok in Hs; lia). fold (core_of s). fold (tx_of s).
    assert (Hlg : (g < length (pool e))%nat) by (by eapply lookup_lt_Some).
    wp_step. pose proof Hf as (Hv1 & Hb1 & Hp1 & Hu1 & Hr1 & Hl1 & Hh1).
    apply (wp_load_region _ r); [rewrite Hp1; by apply list_lookup_insert_eq|]. wp_step.
    apply wp_region_append; try done; [rewrite Hst by done; constructor|rewrite Hst by done; constructor|].
    intros e2 Hok2 Hf2 _. rewrite Hst in Hf2 by done.
    unfold wp, store_region, modifyM.
    exists (appended r (core_of s) p (tx_of s)), (pre ++ [(s, p)]). split_and!.
    + by rewrite <- app_assoc.
    + by eauto with mvdcc.
    + destruct Hf2 as (Hv2 & Hb2 & Hp2 & Hu2 & Hr2 & Hl2 & Hh2).
      unfold freed; simpl in *. split_and!; try congruence.
      rewrite Hp2, Hp1. simpl. apply list_insert_insert_eq.
    + by apply appended_ok.
    + rewrite appended_history, Heq, Hh by done. apply insert_slot_snoc.
      eapply Forall_impl; [exact Hlt|]. simpl. lia.
    + pose proof (appended_ptrs r (core_of s) p (tx_of s) Hrok Hmay) as Hperm.
      rewrite Hst in Hperm by done. simpl in Hperm. by rewrite Hperm, Hptrs, fmap_app.
    + intros c Hc'. rewrite stale_appended by done. case_decide; [done|]. by apply Hst.
  - intros dn e1 (r & pre & Hl & Hok1 & Hf & Hrok & Hh & Hptrs & Hst).
    rewrite app_nil_r in Hl. subst pre.
    pose proof Hf as (Hv1 & Hb1 & Hp1 & Hu1 & Hr1 & Hl1 & Hh1).
    unfold wp at 1, store_row at 1, modifyM at 1. wp_step.
    eapply wp_load_row; [simpl; apply lookup_insert_eq|].
    unfold wp, store_row, modifyM. simpl. apply (HQ r); simpl; try done.
    + by eauto with mvdcc.
    + apply map_eq. intros x. by rewrite Hv1.
    + rewrite Hr1. simpl. by rewrite insert_insert_eq.
Qed.

End Install.

(** ** The invariant of the initialisation phase *)
Section Invariant.
Context `{BuildConfig}.
Context (E : Z) (W : gset addr) (h0 : list addr) (f0 : addr -> ptr * ptr).
Hypothesis W_room : Z.of_nat (size (list_to_set h0 ∪ W)) <= NUM_REGIONS.

(** The writes of core [c] in the current epoch, as the row records them. *)
Definition own (c : nat) (e : SEnv) (v : Value) : list (Z * ptr) :=
  if epoch_ v =? E then filter (fun p => core_of p.1 = Z.of_nat c) (row_history e v) else [].

Record row_inv (e : SEnv) (a : addr) (v : Value) : Prop := {
  ri_ok : row_ok e v;
  ri_lock : lock_ok 64 (rwl v);
  ri_epoch : epoch_ v <= E;
  ri_old : epoch_ v < E -> row_final e v;
  ri_pending : epoch_ v = E -> Forall (fun p => pending_ptr e p.2) (row_history e v);
  ri_serial : epoch_ v = E -> Forall (fun p => serial_ok p.1) (row_history e v) /\
                forall c, 0 <= c < 64 -> spare c (ids (row_history e v));
  ri_region : forall g, row_region_ v = Some g -> handed_ e !! g = Some a;
  ri_inflight : row_region_ v = None -> a ∈ handed_ e -> is_Some (holder (rwl v));
  ri_master : if decide (epoch_ v = E) then master_ v = (f0 a).1
              else final_state e v = (f0 a).1 /\ master_ v = (f0 a).2;
  ri_written : epoch_ v = E -> a ∈ W
}.

(** [f0] is the final state of each row before the epoch, and its master version, [W] is the set of rows the epoch writes, [h0] the rows that had a region
    before it. *)
Record Inv (e : SEnv) : Prop := {
  inv_heap : heap_ok e;
  inv_lock : lock_ok 64 (lock_ e);
  inv_used : used_ e = Z.of_nat (length (handed_ e));
  inv_handed : exists new, handed_ e = h0 ++ new /\ NoDup (handed_ e) /\ Forall (fun a => a ∈ W) new;
  inv_pool_length : length (pool e) = Z.to_nat NUM_REGIONS;
  inv_pool : forall g r, pool e !! g = Some r ->
    (forall a v, rows e !! a = Some v -> row_region_ v <> Some g) -> r = RowRegion.init;
  inv_row : forall a v, rows e !! a = Some v -> row_inv e a v;
  inv_disjoint : forall a b v w p, a <> b -> rows e !! a = Some v -> rows e !! b = Some w ->
    p ∈ row_ptrs e v -> p ∉ row_ptrs e w
}.

(** There is a region for every row of [W]. *)
Lemma handed_room more (e : SEnv) :
  Inv e -> NoDup more -> Forall (fun a => a ∈ W /\ a ∉ handed_ e) more ->
  Z.of_nat (length more + length (handed_ e)) <= NUM_REGIONS.
Proof.
  intros Hi Hm HW. destruct (inv_handed e Hi) as (new & Hnew & Hnd & Hall). rewrite Forall_forall in Hall, HW.
  assert (NoDup (more ++ handed_ e)) as Hnd'.
  { apply NoDup_app. split_and!; [done| |done]. intros a Ha. by apply HW. }
  pose proof (size_list_to_set (C := gset addr) _ Hnd') as Hsz. rewrite length_app in Hsz.
  assert (size (list_to_set (more ++ handed_ e) : gset addr) <= size (list_to_set h0 ∪ W : gset addr))%nat; [|lia].
  apply subseteq_size. rewrite Hnew. intros x [Hx|[Hx|Hx]%elem_of_app]%elem_of_list_to_set%elem_of_app.
  - apply elem_of_union_r. by apply HW.
  - by apply elem_of_union_l, elem_of_list_to_set.
  - apply elem_of_union_r. by apply Hall.
Qed.

Record row_kept (c : nat) (e e' : SEnv) (a : addr) (v v' : Value) : Prop := {
  rk_holder : holder (rwl v') = Some c <-> holder (rwl v) = Some c;
  rk_held : holder (rwl v) = Some c -> v' = v /\ (a ∈ handed_ e' <-> a ∈ handed_ e);
  rk_epoch : epoch_ v <= epoch_ v';
  rk_region : forall g, row_region_ v = Some g -> row_region_ v' = Some g;
  rk_own : own c e' v' = own c e v
}.

Record kept (c : nat) (e e' : SEnv) : Prop := {
  k_rows : forall a v, rows e !! a = Some v ->
             exists v', rows e' !! a = Some v' /\ row_kept c e e' a v v';
  k_dom : forall a, rows e !! a = None -> rows e' !! a = None;
  k_lock : holder (lock_ e') = Some c <-> holder (lock_ e) = Some c;
  k_used : holder (lock_ e) = Some c -> used_ e' = used_ e /\ handed_ e' = handed_ e;
  k_handed : exists more, handed_ e' = handed_ e ++ more
}.

Definition R (c : nat) (e e' : SEnv) : Prop := Inv e -> Inv e' /\ kept c e e'.
Definition G (c : nat) (e e' : SEnv) : Prop := Inv e -> Inv e' /\ forall d, c <> d -> kept d e e'.

Lemma kept_refl c e : kept c e e.
Proof.
  constructor; try done; [|by exists []; rewrite app_nil_r].
  intros a v Hv. exists v. split; [done|]. by constructor.
Qed.
Lemma R_refl c e : R c e e.
Proof. intros Hi. split; [done|apply kept_refl]. Qed.
Lemma G_refl c e : G c e e.
Proof. intros Hi. split; [done|]. intros d _. apply kept_refl. Qed.
Lemma R_trans c e1 e2 e3 : R c e1 e2 -> R c e2 e3 -> R c e1 e3.
Proof.
  intros H12 H23 H1. destruct (H12 H1) as [H2 [A1 A2 A3 A4 [m1 A5]]].
  destruct (H23 H2) as [H3 [B1 B2 B3 B4 [m2 B5]]]. split; [done|]. constructor.
  - intros a v Hv. destruct (A1 a v Hv) as (v2 & Hv2 & [C1 C2 C3 C4 C5]).
    destruct (B1 a v2 Hv2) as (v3 & Hv3 & [D1 D2 D3 D4 D5]). exists v3. split; [done|].
    constructor; [by rewrite D1|..|lia|auto|congruence].
    intros Hh. destruct (C2 Hh) as [-> Hc]. destruct (D2 Hh) as [-> Hd]. by rewrite Hd.
  - auto.
  - by rewrite B3.
  - intros Hh. destruct (A4 Hh) as [? ?]. destruct B4 as [? ?]; [by apply A3|]. split; congruence.
  - exists (m1 ++ m2). by rewrite B5, A5, app_assoc.
Qed.
Lemma G_R c d e e' : c <> d -> G c e e' -> R d e e'.
Proof. intros Hne HG Hi. destruct (HG Hi) as [? Hk]. split; [done|]. by apply Hk. Qed.

(** What worker [c] knows: the invariant, which latches it holds, and that
    every row records exactly its own writes [L]. *)
Definition local (c : nat) (L : addr -> list (Z * ptr)) (held : option addr) (rrc : bool)
    (e : SEnv) : Prop :=
  Inv e /\ (c < 64)%nat /\ (holder (lock_ e) = Some c <-> rrc = true) /\
  forall a v, rows e !! a = Some v ->
    (holder (rwl v) = Some c <-> held = Some a) /\ own c e v = L a.

Lemma local_stable c L held rrc : stable (R c) (local c L held rrc).
Proof.
  intros e e' (Hi & Hc & Hl & Hr) HR. destruct (HR Hi) as [Hi' [K1 K2 K3 K4 K5]].
  split_and!; [done|done|by rewrite K3|]. intros a v' Hv'.
  destruct (rows e !! a) as [v|] eqn:Hv.
  - destruct (K1 a v Hv) as (v2 & Hv2 & [C1 C2 C3 C4 C5]). assert (v2 = v') as -> by congruence.
    rewrite C1, C5. by apply Hr.
  - apply K2 in Hv. congruence.
Qed.

(** A row known to be in the current epoch. *)
Definition current (a : addr) (e : SEnv) : Prop :=
  exists v, rows e !! a = Some v /\ epoch_ v = E.
Definition has_region (a : addr) (g : nat) (e : SEnv) : Prop :=
  exists v, rows e !! a = Some v /\ epoch_ v = E /\ row_region_ v = Some g.

Lemma local_with_stable c L held rrc (P : SEnv -> Prop) :
  (forall e e', P e -> Inv e -> Inv e' -> kept c e e' -> P e') ->
  stable (R c) (fun e => local c L held rrc e /\ P e).
Proof.
  intros HP e e' [Hloc HPe] HR. split; [by eapply local_stable|].
  destruct Hloc as [Hi _]. destruct (HR Hi) as [Hi' Hk]. by apply (HP e).
Qed.

Lemma current_kept c a e e' : current a e -> Inv e' -> kept c e e' -> current a e'.
Proof.
  intros (v & Hv & He) Hi' [K1 _ _ _ _]. destruct (K1 a v Hv) as (v' & Hv' & [_ _ C3 _ _]).
  exists v'. split; [done|]. pose proof (ri_epoch _ _ _ (inv_row _ Hi' a v' Hv')). lia.
Qed.

Lemma has_region_kept c a g e e' : has_region a g e -> Inv e' -> kept c e e' -> has_region a g e'.
Proof.
  intros (v & Hv & He & Hg) Hi' [K1 _ _ _ _]. destruct (K1 a v Hv) as (v' & Hv' & [_ _ C3 C4 _]).
  exists v'. pose proof (ri_epoch _ _ _ (inv_row _ Hi' a v' Hv')).
  split_and!; [done|lia|by apply C4].
Qed.

(** ** Preservation: a change to one row *)

Definition no_region_change (e e' : SEnv) (v v' : Value) : Prop :=
  forall g, row_region_ v' <> Some g -> pool e' !! g = pool e !! g.

Lemma other_row_frame (e e' : SEnv) a b v v' w :
  Inv e -> a <> b -> rows e !! a = Some v -> rows e !! b = Some w ->
  no_region_change e e' v v' ->
  (forall g, row_region_ v' = Some g -> handed_ e !! g = Some a) ->
  (forall q, versions e' !! q <> versions e !! q -> Some q ∈ row_ptrs e v \/ versions e !! q = None) ->
  row_frame e e' w.
Proof.
  intros Hi Hne Hv Hw Hpool Hreg Hvers. pose proof (inv_row _ Hi b w Hw) as Hri. split.
  - intros g Hg. apply Hpool. intros Hg'. apply Hreg in Hg'.
    pose proof (ri_region _ _ _ Hri g Hg). congruence.
  - intros q Hq. destruct (decide (versions e' !! q = versions e !! q)) as [|Hd]; [done|exfalso].
    destruct (Hvers q Hd) as [Hin|Hnone].
    + by apply (inv_disjoint _ Hi a b v w (Some q) Hne Hv Hw).
    + pose proof (row_live _ _ (ri_ok _ _ _ Hri)) as Hl. rewrite Forall_forall in Hl.
      apply Hl in Hq as [x Hx]. congruence.
Qed.

Lemma own_frame c e e' v : row_frame e e' v -> own c e' v = own c e v.
Proof. intros Hf. unfold own. by rewrite (row_history_frame e e' v Hf). Qed.

Lemma row_inv_frame e e' a v :
  row_inv e a v -> row_frame e e' v -> handed_ e' = handed_ e -> row_inv e' a v.
Proof.
  intros [R1 R2 R3 R4 R5 R6 R7 R8 R9 R10] Hf Hh. constructor; rewrite ?Hh, ?(row_history_frame e e' v Hf); try done.
  { by apply (row_ok_frame e e'). }
  1: intros He; apply (row_final_frame e e'); auto.
  2: by rewrite (final_state_frame e e') by done.
  intros He. apply Forall_forall. intros [s p] Hin. specialize (R5 He). rewrite Forall_forall in R5.
    apply (pending_ptr_frame e e'); [|by apply (R5 (s, p))]. intros q Hq. simpl in Hq. subst p.
    destruct Hf as [_ Hv]. apply Hv. by eapply history_ptrs.
Qed.

(** The step rule: [e'] replaces row [a] by [v'] and respects the others. *)
Lemma inv_step (e e' : SEnv) a v v' :
  Inv e -> rows e !! a = Some v -> rows e' = <[a := v']> (rows e) ->
  heap_ok e' -> same_control e e' -> length (pool e') = length (pool e) ->
  no_region_change e e' v v' ->
  (forall g, row_region_ v = Some g -> row_region_ v' = Some g) ->
  (forall q, versions e' !! q <> versions e !! q -> Some q ∈ row_ptrs e v \/ versions e !! q = None) ->
  (forall p, p ∈ row_ptrs e' v' -> p ∈ row_ptrs e v \/ exists q, p = Some q /\ versions e !! q = None) ->
  row_inv e' a v' ->
  Inv e' /\ forall b w, a <> b -> rows e !! b = Some w -> row_frame e e' w.
Proof.
  intros Hi Hv Hrows Hheap (Hu & Hl & Hh) Hlen Hpool Hkeep Hvers Hptrs Hrow.
  assert (Hreg : forall g, row_region_ v' = Some g -> handed_ e !! g = Some a).
  { intros g Hg. rewrite <- Hh. by apply (ri_region _ _ _ Hrow). }
  assert (Hfr : forall b w, a <> b -> rows e !! b = Some w -> row_frame e e' w).
  { intros b w Hne Hw. by apply (other_row_frame e e' a b v v' w). }
  split; [|done]. constructor; rewrite ?Hu, ?Hl, ?Hh, ?Hlen; try apply Hi; [done|..].
  - intros g r Hg Hno. apply (inv_pool _ Hi g).
    + rewrite <- Hpool; [done|]. apply (Hno a). rewrite Hrows. apply lookup_insert_eq.
    + intros b w Hw Hgw. destruct (decide (b = a)) as [->|Hne].
      * assert (w = v) as -> by congruence. apply (Hno a v'); [rewrite Hrows; apply lookup_insert_eq|auto].
      * apply (Hno b w); [|done]. by rewrite Hrows, lookup_insert_ne by done.
  - intros b w. rewrite Hrows. intros [[<- <-]|[Hne Hw]]%lookup_insert_Some; [done|].
    apply (row_inv_frame e e'); [by apply (inv_row _ Hi)|by apply (Hfr b)|done].
  - assert (Hcase : forall b w p, a <> b -> rows e !! b = Some w -> p ∈ row_ptrs e' v' -> p ∉ row_ptrs e w).
    { intros b w p Hne Hw Hp Hpw. destruct (Hptrs p Hp) as [Hin|(q & -> & Hq)].
      - by apply (inv_disjoint _ Hi a b v w p).
      - pose proof (row_live _ _ (ri_ok _ _ _ (inv_row _ Hi b w Hw))) as Hlv.
        rewrite Forall_forall in Hlv. apply Hlv in Hpw as [x Hx]. congruence. }
    intros b1 b2 w1 w2 p Hne. rewrite Hrows.
    intros [[<- <-]|[Hn1 H1]]%lookup_insert_Some [[<- <-]|[Hn2 H2]]%lookup_insert_Some Hp Hp'; try done.
    + rewrite (row_ptrs_frame e e' w2) in Hp' by (by apply (Hfr b2)). by apply (Hcase b2 w2 p).
    + rewrite (row_ptrs_frame e e' w1) in Hp by (by apply (Hfr b1)). by apply (Hcase b1 w1 p).
    + rewrite (row_ptrs_frame e e' w1) in Hp by (by apply (Hfr b1)).
      rewrite (row_ptrs_frame e e' w2) in Hp' by (by apply (Hfr b2)).
      by apply (inv_disjoint _ Hi b1 b2 w1 w2 p).
Qed.

(** The same step seen by the other workers and by its own. *)
Lemma step_guarantee (e e' : SEnv) a v v' c L L' held held' rrc :
  local c L held rrc e -> rows e !! a = Some v -> rows e' = <[a := v']> (rows e) ->
  heap_ok e' -> same_control e e' -> length (pool e') = length (pool e) ->
  no_region_change e e' v v' ->
  (forall g, row_region_ v = Some g -> row_region_ v' = Some g) ->
  (forall q, versions e' !! q <> versions e !! q -> Some q ∈ row_ptrs e v \/ versions e !! q = None) ->
  (forall p, p ∈ row_ptrs e' v' -> p ∈ row_ptrs e v \/ exists q, p = Some q /\ versions e !! q = None) ->
  row_inv e' a v' -> epoch_ v <= epoch_ v' ->
  (forall d, c <> d -> (holder (rwl v') = Some d <-> holder (rwl v) = Some d) /\
                       (holder (rwl v) = Some d -> v' = v) /\ own d e' v' = own d e v) ->
  (holder (rwl v') = Some c <-> held' = Some a) -> own c e' v' = L' a ->
  (forall b, b <> a -> L' b = L b /\ (held' = Some b <-> held = Some b)) ->
  G c e e' /\ local c L' held' rrc e'.
Proof.
  intros (Hi & Hc & Hrrc & Hloc) Hv Hrows Hheap Hctl Hlen Hpool Hkeep Hvers Hptrs Hrow Hep Hoth Hh' Hown Hb.
  destruct (inv_step e e' a v v') as [Hi' Hfr]; try done.
  pose proof Hctl as (Hu & Hl & Hhd).
  split.
  - intros _. split; [done|]. intros d Hd. constructor; rewrite ?Hu, ?Hl, ?Hhd; try done.
    + intros b w Hw. destruct (decide (a = b)) as [<-|Hne].
      * assert (w = v) as -> by congruence. exists v'. split; [rewrite Hrows; apply lookup_insert_eq|].
        destruct (Hoth d Hd) as (O1 & O2 & O3). constructor; try done.
        intros Hhv. rewrite Hhd. split; [by apply O2|done].
      * exists w. split; [by rewrite Hrows, lookup_insert_ne by done|].
        constructor; try done; [by rewrite Hhd|]. by apply own_frame, (Hfr b).
    + intros b Hn. rewrite Hrows. apply lookup_insert_None. split; [done|]. intros ->. congruence.
    + exists []. by rewrite app_nil_r.
  - split_and!; [done|done|by rewrite Hl|]. intros b w. rewrite Hrows.
    intros [[<- <-]|[Hne Hw]]%lookup_insert_Some; [done|].
    destruct (Hb b) as [-> ->]; [done|]. rewrite (own_frame c e e') by (by apply (Hfr b)).
    by apply Hloc.
Qed.

End Invariant.

(** ** The actions as steps of a worker *)
Section Steps.
Context `{BuildConfig}.
Context (E : Z) (W : gset addr) (h0 : list addr) (f0 : addr -> ptr * ptr).
Hypothesis W_room : Z.of_nat (size (list_to_set h0 ∪ W)) <= NUM_REGIONS.
Context (c : nat).
Local Abbreviation Inv := (Inv E W h0 f0).
Local Abbreviation keptc := (kept E c).
Local Abbreviation local := (local E W h0 f0 c).
Local Abbreviation R := (R E W h0 f0 c).
Local Abbreviation G := (G E W h0 f0 c).
Implicit Types (L : addr -> list (Z * ptr)) (P : SEnv -> Prop).

(** Predicates that survive what the others do. *)
Definition KP P : Prop := forall e e', P e -> Inv e -> Inv e' -> keptc e e' -> P e'.
Definition A L held rrc P : SEnv -> Prop := fun e => local L held rrc e /\ P e.

Lemma A_stable L held rrc P : KP P -> stable R (A L held rrc P).
Proof. apply local_with_stable. Qed.

Lemma KP_true : KP (fun _ => True).
Proof. done. Qed.

(** Facts that only grow: rows stay, epochs advance, regions stay installed. *)
Definition grew (e e' : SEnv) : Prop :=
  forall a v, rows e !! a = Some v -> exists v', rows e' !! a = Some v' /\
    epoch_ v <= epoch_ v' /\ forall g, row_region_ v = Some g -> row_region_ v' = Some g.
Definition KM P : Prop := forall e e', P e -> Inv e' -> grew e e' -> P e'.

Lemma kept_grew d e e' : kept E d e e' -> grew e e'.
Proof.
  intros [K _ _ _ _] a v Hv. destruct (K a v Hv) as (v' & Hv' & [_ _ ? ? _]). by exists v'.
Qed.
Lemma KM_KP P : KM P -> KP P.
Proof. intros HP e e' Hp _ Hi' Hk. apply (HP e); [done..|]. by eapply kept_grew. Qed.
Lemma G_grew e e' : Inv e -> G e e' -> grew e e'.
Proof. intros Hi HG. destruct (HG Hi) as [_ Hk]. apply (kept_grew (S c)), Hk. lia. Qed.
Lemma KM_step P e e' L held rrc L' held' rrc' :
  KM P -> P e -> local L held rrc e -> local L' held' rrc' e' -> G e e' -> P e'.
Proof. intros HP Hp [Hi _] [Hi' _] HG. apply (HP e); [done..|]. by apply G_grew. Qed.
Lemma KM_and P1 P2 : KM P1 -> KM P2 -> KM (fun e => P1 e /\ P2 e).
Proof. intros H1 H2 e e' [? ?] ??. split; [by apply (H1 e)|by apply (H2 e)]. Qed.
Lemma KM_pure (X : Prop) : KM (fun _ => X).
Proof. by intros e e' ?. Qed.
Lemma KP_pure (X : Prop) : KP (fun _ => X).
Proof. by intros e e' ?. Qed.
Lemma KP_and P1 P2 : KP P1 -> KP P2 -> KP (fun e => P1 e /\ P2 e).
Proof. intros H1 H2 e e' [? ?] ???. split; [by apply (H1 e)|by apply (H2 e)]. Qed.

Definition present (a : addr) (e : SEnv) : Prop := is_Some (rows e !! a).
Lemma KM_present a : KM (present a).
Proof. intros e e' [v Hv] _ Hg. destruct (Hg a v Hv) as (v' & Hv' & _). by exists v'. Qed.
Lemma KM_current a : KM (current E a).
Proof.
  intros e e' (v & Hv & He) Hi' Hg. destruct (Hg a v Hv) as (v' & Hv' & Hle & _).
  exists v'. split; [done|]. pose proof (ri_epoch _ _ _ _ _ _ (inv_row _ _ _ _ _ Hi' a v' Hv')). lia.
Qed.
Lemma KM_has_region a g : KM (has_region E a g).
Proof.
  intros e e' (v & Hv & He & Hr) Hi' Hg. destruct (Hg a v Hv) as (v' & Hv' & Hle & Hreg).
  exists v'. pose proof (ri_epoch _ _ _ _ _ _ (inv_row _ _ _ _ _ Hi' a v' Hv')).
  split_and!; [done|lia|by apply Hreg].
Qed.

(** The contents of a row the worker has latched. *)
Definition latched (a : addr) (Q : Value -> Prop) (e : SEnv) : Prop :=
  exists v, rows e !! a = Some v /\ holder (rwl v) = Some c /\ Q v /\
    (row_region_ v = None -> a ∉ handed_ e).
Lemma KP_latched a Q : KP (latched a Q).
Proof.
  intros e e' (v & Hv & Hh & HQ & Hn) _ _ [K _ _ _ _].
  destruct (K a v Hv) as (v' & Hv' & [_ C2 _ _ _]). destruct (C2 Hh) as [-> Hd].
  exists v. rewrite Hd. by split_and!.
Qed.

Lemma rg_act_A {B} (m : M SEnv B) L held rrc P (L' : B -> addr -> list (Z * ptr)) held' rrc'
    (Q : B -> SEnv -> Prop) :
  (forall b, KP (Q b)) ->
  (forall e, local L held rrc e -> P e ->
     wp m (fun b e' => G e e' /\ local (L' b) held' rrc' e' /\ Q b e') e) ->
  rg R G (A L held rrc P) (act m) (fun b => A (L' b) held' rrc' (Q b)).
Proof.
  intros HQ Hm. apply rg_act; [intros b; by apply A_stable|].
  intros e [Hl HP]. eapply wp_mono; [by apply Hm|]. by intros b e' (? & ? & ?).
Qed.

Lemma rg_read {B} (m : M SEnv B) L held rrc P (Q : B -> SEnv -> Prop) :
  (forall b, KP (Q b)) ->
  (forall e, local L held rrc e -> P e -> exists b, m e = Ok (b, e) /\ Q b e) ->
  rg R G (A L held rrc P) (act m) (fun b => A L held rrc (Q b)).
Proof.
  intros HQ Hm. apply (rg_act_A m L held rrc P (fun _ => L)); [done|]. intros e Hl HP.
  destruct (Hm e Hl HP) as (b & Hb & Hq). unfold wp. rewrite Hb.
  split_and!; [apply G_refl|done|done].
Qed.

(** Statistics are nobody's concern. *)
Lemma Inv_stat f e : Inv e -> Inv (set_stat f e).
Proof.
  intros [I1 I2 I3 I4 I5 I6 I7 I8]. constructor; try done; [by apply heap_ok_set_stat|].
  intros a v Hv. by apply (row_inv_frame E W f0 e); [apply I7|..].
Qed.

Lemma kept_stat d f e : kept E d e (set_stat f e).
Proof. constructor; try done; [|exists []; by rewrite app_nil_r]. intros a v Hv. exists v. by repeat constructor. Qed.

Lemma rg_stat (m : M SEnv unit) L held rrc P :
  KP P -> (forall e, local L held rrc e -> P e -> exists f, m e = Ok (tt, set_stat f e)) ->
  rg R G (A L held rrc P) (act m) (fun _ => A L held rrc P).
Proof.
  intros HP Hm. apply (rg_act_A m L held rrc P (fun _ => L)); [done|]. intros e Hl Hpe.
  destruct (Hm e Hl Hpe) as [f Hf]. unfold wp. rewrite Hf.
  pose proof Hl as (Hi & Hc & Hr & Hrows). pose proof (Inv_stat f e Hi) as Hi'. split_and!.
  - intros _. split; [done|]. intros d _. apply kept_stat.
  - by split_and!.
  - apply (HP e); [done..|]. apply kept_stat.
Qed.

Lemma rg_ret_A {B} (b : B) L held rrc (Q : B -> SEnv -> Prop) :
  rg R G (A L held rrc (Q b)) (mret b) (fun b => A L held rrc (Q b)).
Proof. apply (rg_ret R G b (fun b => A L held rrc (Q b))). Qed.

Lemma rg_weaken {B} L held rrc P P' (p : prog SEnv B) Q :
  rg R G (A L held rrc P) p Q -> (forall e, local L held rrc e -> P' e -> P e) ->
  rg R G (A L held rrc P') p Q.
Proof.
  intros Hp HP. eapply rg_conseq; [exact Hp| |done]. intros e [Hl He]. split; [done|auto].
Qed.

Lemma rg_strengthen {B} P0 L held rrc (p : prog SEnv B) (Q Q' : B -> SEnv -> Prop) :
  rg R G P0 p (fun b => A L held rrc (Q b)) ->
  (forall b e, local L held rrc e -> Q b e -> Q' b e) ->
  rg R G P0 p (fun b => A L held rrc (Q' b)).
Proof.
  intros Hp HQ. eapply rg_conseq; [exact Hp|done|]. intros b e [Hl He]. split; [done|auto].
Qed.

(** ** Latch operations on a row *)
Definition with_rwl (l : RWLock) (v : Value) : Value :=
  mkValue l (epoch_ v) (master_ v) (global_array_ v) (row_region_ v).

Lemma row_lock_get a e v : rows e !! a = Some v -> get_lock (row_lock a) e = Some (rwl v).
Proof. intros Hv. simpl. by rewrite Hv. Qed.

Lemma row_lock_rows a e v l :
  rows e !! a = Some v -> rows (set_lock (row_lock a) l e) = <[a := with_rwl l v]> (rows e).
Proof.
  intros Hv. simpl. apply map_eq. intros b. destruct (decide (a = b)) as [<-|Hne].
  - by rewrite lookup_alter_eq, Hv, lookup_insert_eq.
  - by rewrite lookup_alter_ne, lookup_insert_ne by done.
Qed.

Lemma row_ok_rwl e l v : row_ok e v -> row_ok e (with_rwl l v).
Proof. by intros [? ? ? ? ? ?]; constructor. Qed.

Lemma step_latch L held held' rrc a v l' e :
  local L held rrc e -> rows e !! a = Some v -> lock_ok 64 l' ->
  (row_region_ v = None -> a ∈ handed_ e -> is_Some (holder l')) ->
  (forall d, c <> d -> holder l' <> Some d /\ holder (rwl v) <> Some d) ->
  (holder l' = Some c <-> held' = Some a) ->
  (forall b, b <> a -> (held' = Some b <-> held = Some b)) ->
  G e (set_lock (row_lock a) l' e) /\ local L held' rrc (set_lock (row_lock a) l' e).
Proof.
  intros Hloc Hv Hl Hfl Hd Hh Hb. pose proof Hloc as (Hi & _ & _ & Hrows).
  pose proof (inv_row _ _ _ _ _ Hi a v Hv) as [R1 R2 R3 R4 R5 R6 R7 R8 R9 R10].
  apply (step_guarantee E W h0 f0 e _ a v (with_rwl l' v) c L L held held' rrc); try done.
  - by apply row_lock_rows.
  - apply heap_ok_set_rows, (inv_heap _ _ _ _ _ Hi).
  - intros p Hp. by left.
  - apply (row_inv_frame E W f0 e); [|done..]. constructor; try done. by apply row_ok_rwl.
  - intros d Hne. destruct (Hd d Hne). split_and!; [simpl; tauto|by intros ?|done].
  - destruct (Hrows a v Hv) as [_ <-]. reflexivity.
  - intros b Hne. split; [done|]. by apply Hb.
Qed.

(** Acquiring the free latch of a row. *)
Lemma step_acquire L rrc a v e :
  local L None rrc e -> rows e !! a = Some v -> cnt (rwl v) = 0 ->
  let e' := set_lock (row_lock a) (take_exclusive c (rwl v)) e in
  G e e' /\ local L (Some a) rrc e' /\
  latched a (fun v' => v' = with_rwl (take_exclusive c (rwl v)) v) e'.
Proof.
  intros Hloc Hv Hc e'. pose proof Hloc as (Hi & Hclt & _ & _).
  pose proof (inv_row _ _ _ _ _ Hi a v Hv) as [R1 R2 R3 R4 R5 R6 R7 R8 R9 R10].
  destruct (lock_ok_free _ _ R2 Hc) as [Hfree _].
  destruct (step_latch L None (Some a) rrc a v (take_exclusive c (rwl v)) e) as [HG Hl']; try done.
  - by apply take_exclusive_ok.
  - intros d Hne. rewrite Hfree. simpl. split; congruence.
  - intros b Hb. split; congruence.
  - split_and!; [done|done|]. exists (with_rwl (take_exclusive c (rwl v)) v).
    unfold e'. rewrite (row_lock_rows a e v) by done. split_and!; [apply lookup_insert_eq|done|done|].
    simpl. intros Hn Hin. destruct (R8 Hn Hin) as [h Hh]. congruence.
Qed.

Lemma rg_try_lock_row L rrc a P :
  KM P -> (forall e, P e -> present a e) ->
  rg R G (A L None rrc P) (try_lock (row_lock a) c)
    (fun b e => if b : bool then A L (Some a) rrc (fun e => P e /\ latched a (fun _ => True) e) e
                else A L None rrc P e).
Proof.
  intros HP Hpres.
  eapply rg_conseq; [apply (rg_try_lock (row_lock a) c R G (G_refl E W h0 f0 c) (A L None rrc P)
    (A L (Some a) rrc (fun e => P e /\ latched a (fun _ => True) e)))|done|by intros []].
  - by apply A_stable, KM_KP.
  - apply A_stable, KP_and; [by apply KM_KP|apply KP_latched].
  - intros e [_ Hp]. destruct (Hpres e Hp) as [v Hv]. exists (rwl v). by apply row_lock_get.
  - intros e l [Hl Hp] Hg Hc. destruct (Hpres e Hp) as [v Hv].
    rewrite (row_lock_get a e v Hv) in Hg. injection Hg as <-.
    destruct (step_acquire L rrc a v e Hl Hv Hc) as (HG & Hl' & Hlat).
    split; [done|]. split; [done|]. split; [by apply (KM_step P e _ L None rrc L (Some a) rrc)|].
    destruct Hlat as (w & ? & ? & _ & ?). by exists w.
Qed.

(** Releasing it: a row without region must not have one on its way. *)
Lemma rg_unlock_row L rrc a P :
  KM P ->
  rg R G (A L (Some a) rrc (fun e => P e /\ latched a (fun _ => True) e)) (unlock (row_lock a))
    (fun _ => A L None rrc P).
Proof.
  intros HP.
  apply (rg_unlock (row_lock a) R G (G_refl E W h0 f0 c) _ (A L None rrc P)).
  - by apply A_stable, KM_KP.
  - intros e (_ & _ & v & Hv & _). exists (rwl v). by apply row_lock_get.
  - intros e l [Hl [Hp (v & Hv & Hh & _ & Hn)]] Hg. rewrite (row_lock_get a e v Hv) in Hg.
    injection Hg as <-. pose proof Hl as (Hi & Hclt & _).
    pose proof (inv_row _ _ _ _ _ Hi a v Hv) as [R1 R2 R3 R4 R5 R6 R7 R8 R9 R10].
    destruct (step_latch L (Some a) None rrc a v (drop_exclusive (rwl v)) e) as [HG Hl']; try done.
    + by apply (drop_exclusive_ok _ c).
    + intros Hr Hin. by destruct (Hn Hr).
    + intros d Hne. simpl. split; [done|]. rewrite Hh. congruence.
    + intros b Hb. split; congruence.
    + split; [done|]. split; [done|]. by apply (KM_step P e _ L (Some a) rrc L None rrc).
Qed.

(** ** [initialize_the_row] as a step *)
Lemma latched_row L rrc a Q e :
  local L (Some a) rrc e -> latched a Q e ->
  exists v, rows e !! a = Some v /\ holder (rwl v) = Some c /\ Q v /\
    (row_region_ v = None -> a ∉ handed_ e) /\ row_inv E W f0 e a v /\ own E c e v = L a.
Proof.
  intros (Hi & _ & _ & Hr) (v & Hv & Hh & HQ & Hn). exists v. split_and!; try done.
  - by apply (inv_row _ _ _ _ _ Hi).
  - by apply Hr.
Qed.

Lemma step_initialize L rrc a e :
  a ∈ W -> local L (Some a) rrc e -> latched a (fun v => epoch_ v < E) e ->
  wp (v ← load_row a; v' ← initialize_the_row v E; store_row a v')
    (fun _ e' => G e e' /\ local L (Some a) rrc e' /\ latched a (fun v => epoch_ v = E) e') e.
Proof.
  intros HW Hloc Hlat. destruct (latched_row _ _ _ _ _ Hloc Hlat) as (v & Hv & Hh & Hlt & Hn & Hri & Hown).
  pose proof Hri as [R1 R2 R3 R4 R5 R6 R7 R8 R9 R10]. pose proof Hloc as (Hi & _ & _ & _).
  wp_step. apply (wp_load_row _ v); [done|]. wp_step.
  eapply wp_mono; [apply wp_initialize_the_row; [by apply (inv_heap _ _ _ _ _ Hi)|done|by apply R4]|].
  intros v' e1 [I1 I2 I3 I4 I5 I6 I7 (l & pool' & El & Hf & Hperm & Hlen & Hpool)]. rewrite <- El in Hperm.
  unfold wp, store_row, modifyM.
  destruct Hf as (Hv1 & _ & Hp1 & Hu1 & Hr1 & Hl1 & Hh1). simpl in *.
  assert (Hown' : forall d, own E d (set_rows (insert a v') e1) v' = []).
  { intros d. unfold own. destruct (epoch_ v' =? E); [|done].
    change (row_history (set_rows (insert a v') e1) v') with (row_history e1 v'). by rewrite I7. }
  assert (Hown0 : forall d, own E d e v = []).
  { intros d. unfold own. by rewrite (proj2 (Z.eqb_neq _ _)) by lia. }
  assert (Hmem : forall p, p ∈ row_ptrs e v <-> p ∈ (Some <$> l) ++ row_ptrs e1 v')
    by (intros p; by rewrite Hperm).
  assert (Hstep : G e (set_rows (insert a v') e1) /\ local L (Some a) rrc (set_rows (insert a v') e1)).
  { apply (step_guarantee E W h0 f0 e _ a v v' c L L (Some a) (Some a) rrc); try done.
    - simpl. by rewrite Hr1.
    - by apply heap_ok_set_rows.
    - simpl. by rewrite Hp1.
    - intros g Hg. simpl. rewrite Hp1. apply Hpool. congruence.
    - intros g Hg. congruence.
    - intros q Hq. left. apply Hmem, elem_of_app. left. apply list_elem_of_fmap_2. simpl in Hq.
      rewrite Hv1 in Hq. case_decide as Hd; [done|]. done.
    - intros p Hp. left. apply Hmem, elem_of_app. by right.
    - constructor; try done.
      + by apply (row_ok_frame e1).
      + by rewrite I4.
      + lia.
      + lia.
      + intros _. change (row_history (set_rows (insert a v') e1) v') with (row_history e1 v').
        rewrite I7. constructor.
      + intros _. change (row_history (set_rows (insert a v') e1) v') with (row_history e1 v').
        rewrite I7. split; [constructor|]. intros k _. right. exists 0. split; [lia|]. apply not_elem_of_nil.
      + simpl. rewrite Hh1, I5. done.
      + simpl. rewrite I4, Hh. by eexists.
      + rewrite decide_True by done. rewrite decide_False in R9 by lia. rewrite I6. apply R9.
    - rewrite I3. lia.
    - intros d Hd. rewrite Hown', Hown0, I4. split_and!; [done| |done]. congruence.
    - by rewrite I4.
    - rewrite Hown', <- Hown. by rewrite Hown0. }
  destruct Hstep as [HG Hl']. split_and!; [done|done|]. exists v'. simpl.
  rewrite lookup_insert_eq, I4, I5, Hh1. by split_and!.
Qed.

(** ** Appends as steps *)
Definition worker_of (s : Serval) : Prop :=
  core_ s = Z.of_nat c /\ serial_ok (serial_id_ s) /\ core_of (serial_id_ s) = Z.of_nat c /\
  Serval_epoch_ s = E.

Lemma row_history_ascending e v : row_ok e v -> ascending (row_history e v).
Proof.
  intros [[Hg _] Hr _ _ _ _]. unfold row_history. destruct (row_region_ v) as [g|]; [|done].
  destruct Hr as (_ & r & -> & _). apply region_history_ascending.
Qed.

Lemma own_insert d e e' v v' s p :
  row_ok e v -> row_ok e' v' -> epoch_ v = E -> epoch_ v' = E ->
  row_history e' v' = insert_slot (s, p) (row_history e v) ->
  Forall (fun q => q.1 < s) (own E (Z.to_nat (core_of s)) e v) -> 0 <= core_of s ->
  own E d e' v' = if decide (core_of s = Z.of_nat d) then own E d e v ++ [(s, p)] else own E d e v.
Proof.
  intros Hok Hok' He He' Hh Hlt Hc. unfold own in *. rewrite He, He', Z.eqb_refl in *.
  pose proof (row_history_ascending e v Hok) as Ha.
  pose proof (row_history_ascending e' v' Hok') as Ha'.
  apply ascending_ext; [by apply ascending_filter| |].
  - case_decide as Hd; [|by apply ascending_filter].
    apply ascending_snoc; [by apply ascending_filter|]. by rewrite Hd, Nat2Z.id in Hlt.
  - intros q. rewrite list_elem_of_filter, Hh, elem_of_insert_slot.
    case_decide as Hd; [rewrite elem_of_app, list_elem_of_singleton|];
      rewrite list_elem_of_filter; naive_solver.
Qed.

Lemma own_below L a s e v :
  row_inv E W f0 e a v -> epoch_ v = E -> own E c e v = L a -> core_of s = Z.of_nat c ->
  Forall (fun q => q.1 < s) (L a) ->
  forall q, q ∈ row_history e v -> core_of q.1 = core_of s -> q.1 < s.
Proof.
  intros Hri He Hown Hc Hlt q Hq Hqc. rewrite <- Hown in Hlt. rewrite Forall_forall in Hlt.
  apply Hlt. unfold own. rewrite He, Z.eqb_refl. apply list_elem_of_filter.
  split; [congruence|done].
Qed.

Lemma own_spare L a s e v :
  epoch_ v = E -> own E c e v = L a -> core_of s = Z.of_nat c ->
  spare (Z.of_nat c) (ids (L a) ++ [s]) -> spare (core_of s) (ids (row_history e v) ++ [s]).
Proof.
  intros He Hown Hc. rewrite Hc. apply spare_sub. intros t Ht [Hin|Hin]%elem_of_app; apply elem_of_app; [left|by right].
  rewrite <- Hown. unfold own. rewrite He, Z.eqb_refl. apply list_elem_of_fmap in Hin as (q & Hq & Hin).
  apply list_elem_of_fmap. exists q. split; [done|]. apply list_elem_of_filter. split; [|done].
  rewrite <- Hq. unfold core_of. symmetry. apply (Z.div_unique_pos _ 64 _ t); lia.
Qed.

(** What both appends establish. *)
Lemma append_step L held rrc a v v' s q e e' :
  local L held rrc e -> rows e !! a = Some v -> worker_of s -> epoch_ v = E ->
  Forall (fun q => q.1 < serial_id_ s) (L a) -> spare (Z.of_nat c) (ids (L a) ++ [serial_id_ s]) ->
  rows e' = <[a := v']> (rows e) -> heap_ok e' -> same_control e e' ->
  length (pool e') = length (pool e) -> no_region_change e e' v v' ->
  rwl v' = rwl v -> epoch_ v' = epoch_ v -> master_ v' = master_ v ->
  row_region_ v' = row_region_ v ->
  (holder (rwl v) <> None -> holder (rwl v) = Some c \/ v' = v) ->
  versions e !! q = None -> pending e' q ->
  (forall x, versions e' !! x <> versions e !! x -> x = q \/ Some x ∈ row_ptrs e v) ->
  (forall p, p ∈ row_ptrs e' v' -> p = Some q \/ p ∈ row_ptrs e v) ->
  (forall p, p ∈ (row_history e v).*2 -> forall x, p = Some x -> versions e' !! x = versions e !! x) ->
  row_ok e' v' -> row_history e' v' = insert_slot (serial_id_ s, Some q) (row_history e v) ->
  G e e' /\ local (record_write L a (serial_id_ s, Some q)) held rrc e'.
Proof.
  intros Hloc Hv (Hcs & Hser & Hcore & HE) He Hlt Hspare Hrows Hheap Hctl Hlen Hpool Hrwl Hep Hmas Hreg Hhold
    Hfresh Hpend Hvers Hptrs Hhv Hok' Hh.
  pose proof Hloc as (Hi & Hclt & _ & Hr). pose proof (inv_row _ _ _ _ _ Hi a v Hv) as Hri.
  pose proof Hri as [R1 R2 R3 R4 R5 R6 R7 R8 R9 R10]. destruct (Hr a v Hv) as [Hha Hown].
  pose proof Hctl as (_ & _ & Hhd).
  assert (Hown' : forall d, own E d e' v' = if decide (core_of (serial_id_ s) = Z.of_nat d)
            then own E d e v ++ [(serial_id_ s, Some q)] else own E d e v).
  { intros d. apply own_insert; try done; [congruence| |lia].
    by rewrite Hcore, Nat2Z.id, Hown. }
  apply (step_guarantee E W h0 f0 e e' a v v' c L _ held held rrc); try done.
  - intros g Hg. congruence.
  - intros x Hx. destruct (Hvers x Hx) as [->|Hin]; [by right|by left].
  - intros p Hp. destruct (Hptrs p Hp) as [->|Hin]; [right; by exists q|by left].
  - constructor; try done.
    + by rewrite Hrwl.
    + by rewrite Hep.
    + lia.
    + intros _. rewrite Hh. apply Forall_forall. intros x [->|Hx]%elem_of_insert_slot; [done|].
      specialize (R5 He). rewrite Forall_forall in R5.
      apply (pending_ptr_frame e e'); [|by apply R5]. apply Hhv. by apply list_elem_of_fmap_2.
    + intros _. rewrite Hh. destruct (R6 He) as [Rser Rsp]. split.
      { apply Forall_forall. intros x [->|Hx]%elem_of_insert_slot; [done|]. rewrite Forall_forall in Rser. by apply Rser. }
      intros k Hk. assert (Hins : forall x, x ∈ ids (insert_slot (serial_id_ s, Some q) (row_history e v)) ->
        x ∈ ids (row_history e v) ++ [serial_id_ s]).
      { intros x (y & -> & [->|Hy]%elem_of_insert_slot)%list_elem_of_fmap; apply elem_of_app;
          [right; by apply list_elem_of_singleton|left; by apply list_elem_of_fmap_2]. }
      destruct (decide (k = Z.of_nat c)) as [->|Hne].
      * apply (spare_sub _ _ (ids (row_history e v) ++ [serial_id_ s])); [auto|].
        rewrite <- Hcore. by apply (own_spare L a).
      * apply (spare_sub _ _ (ids (row_history e v))); [|by apply Rsp].
        intros t Ht Hin%Hins. apply elem_of_app in Hin as [?|Hin%list_elem_of_singleton]; [done|exfalso].
        apply Hne. rewrite <- Hcore, <- Hin. unfold core_of. apply (Z.div_unique_pos _ 64 _ t); lia.
    + intros g. rewrite Hreg, Hhd. apply R7.
    + rewrite Hreg, Hhd, Hrwl. apply R8.
    + rewrite decide_True, Hmas by congruence. by rewrite decide_True in R9.
    + intros _. by apply R10.
  - lia.
  - intros d Hd. rewrite Hrwl, Hown'. rewrite decide_False by (rewrite Hcore; lia).
    split_and!; [done| |done]. intros Hhd'. destruct Hhold as [Hx|Hx]; [congruence|congruence|done].
  - by rewrite Hrwl.
  - rewrite Hown', decide_True by done. unfold record_write. by rewrite decide_True, Hown.
  - intros b Hb. split; [|done]. unfold record_write. by rewrite decide_False.
Qed.

Lemma step_append_contended L held rrc a g s e :
  local L held rrc e -> has_region E a g e -> worker_of s ->
  Forall (fun q => q.1 < serial_id_ s) (L a) -> spare (Z.of_nat c) (ids (L a) ++ [serial_id_ s]) ->
  wp (append_to_contented_row s g)
    (fun p e' => G e e' /\ local (record_write L a (serial_id_ s, p)) held rrc e' /\ is_Some p) e.
Proof.
  intros Hloc (v & Hv & He & Hg) Hw Hlt Hspare. pose proof Hw as (Hcs & Hser & Hcore & HE).
  pose proof Hloc as (Hi & Hclt & _ & Hr). pose proof (inv_row _ _ _ _ _ Hi a v Hv) as Hri.
  pose proof Hri as [R1 R2 R3 R4 R5 R6 R7 R8 R9 R10]. destruct (Hr a v Hv) as [Hha Hown].
  pose proof (row_region _ _ R1) as Hro. rewrite Hg in Hro. destruct Hro as (Hids & r & Hpool & Hrok).
  assert (Hro : region_of e v = Some r) by (unfold region_of; by rewrite Hg).
  assert (Hhist : row_history e v = region_history r) by (unfold row_history; by rewrite Hg, Hpool).
  destruct (serial_core_tx _ Hser) as (Hc64 & Ht64 & Heq).
  assert (Hmay : may_append r (core_of (serial_id_ s)) (tx_of (serial_id_ s))).
  { apply may_append_after; [done..| |]; rewrite <- Hhist; [by apply (own_spare L a)|by apply (own_below L a)]. }
  assert (Hst : stale r (core_of (serial_id_ s)) ⊆ row_ptrs e v).
  { intros p Hp. by apply (stale_ptrs e v r (core_of (serial_id_ s))). }
  apply (wp_append_contended e s g r); unfold get_tx_serial; rewrite ?Hcs, <- ?Hcore; try done.
  - by apply (inv_heap _ _ _ _ _ Hi).
  - pose proof (row_nodup _ _ R1) as Hnd. unfold row_ptrs in Hnd. rewrite Hro, Hids in Hnd. simpl in Hnd.
    apply NoDup_cons in Hnd as [_ Hnd].
    pose proof (appended_ptrs r _ None _ Hrok Hmay) as Hperm.
    unfold stale. destruct (recorded r _); [constructor|].
    destruct (region_array r _ Hrok Hc64) as [ar Har]. rewrite Har. simpl.
    destruct (region_ptrs_insert r _ ar ar Har) as (rest & Hrp & _). rewrite Hrp in Hnd.
    by apply NoDup_app in Hnd as [? _].
  - by apply (row_stale _ _ R1).
  - intros q e' Hheap Hfresh Hpend Hvers Hpool' Hrows Hctl.
    fold (tx_of (serial_id_ s)) in Hpool'.
    assert (Hlg : (g < length (pool e))%nat) by by eapply lookup_lt_Some.
    destruct (row_ok_appended e e' v g r (core_of (serial_id_ s)) q (tx_of (serial_id_ s)))
      as (Hok' & Hh' & Hptrs & Hsp & Hsame); try done.
    { rewrite Hpool'. by apply list_lookup_insert_eq. }
    rewrite Heq in Hh'.
    destruct (append_step L held rrc a v v s q e e') as [HG Hl']; try done.
    + rewrite Hrows. by rewrite insert_id.
    + rewrite Hpool'. by rewrite length_insert.
    + intros g' Hne. rewrite Hpool', list_lookup_insert_ne; [done|]. intros ->. done.
    + by right.
    + intros x Hx. destruct (decide (x = q)) as [->|Hne]; [by left|right].
      destruct (decide (Some x ∈ stale r (core_of (serial_id_ s)))) as [Hin|Hn]; [by apply Hst|].
      by rewrite Hvers in Hx.
    + intros p Hp x ->. apply list_elem_of_fmap in Hp as ([s0 p0] & Heq0 & Hin). simpl in Heq0.
      subst p0. apply Hsame.
      * apply (history_ptrs e' v s0); [done|]. rewrite Hh'. apply elem_of_insert_slot. by right.
      * intros ->. apply (history_ptrs e v s0) in Hin; [|done].
        pose proof (row_live _ _ R1) as Hlv. rewrite Forall_forall in Hlv.
        apply Hlv in Hin as [y Hy]. congruence.
Qed.

Lemma step_append_unconted L rrc a s e :
  local L (Some a) rrc e -> latched a (fun v => epoch_ v = E /\ row_region_ v = None) e ->
  worker_of s -> Forall (fun q => q.1 < serial_id_ s) (L a) ->
  spare (Z.of_nat c) (ids (L a) ++ [serial_id_ s]) ->
  wp (append_to_unconted_row s a)
    (fun p e' => G e e' /\ local (record_write L a (serial_id_ s, p)) (Some a) rrc e' /\
       is_Some p /\ latched a (fun _ => True) e') e.
Proof.
  intros Hloc Hlat Hw Hlt Hspare. pose proof Hw as (Hcs & Hser & Hcore & HE).
  destruct (latched_row _ _ _ _ _ Hloc Hlat) as (v & Hv & Hh & [He Hreg] & Hn & Hri & Hown).
  pose proof Hri as [R1 R2 R3 R4 R5 R6 R7 R8 R9 R10]. pose proof Hloc as (Hi & _).
  assert (Hhist : row_history e v = GlobalVersionArray.ids_slots_ (global_array_ v))
    by (unfold row_history; by rewrite Hreg).
  assert (Hnot : serial_id_ s ∉ ids (row_history e v)).
  { intros Hin. unfold ids in Hin. apply list_elem_of_fmap in Hin as (z & Hz & Hin).
    assert (z.1 < serial_id_ s); [|lia].
    apply (own_below L a _ e v Hri He Hown Hcore Hlt z Hin). by rewrite <- Hz. }
  apply (wp_append_unconted e s a v); try done.
  - by apply (inv_heap _ _ _ _ _ Hi).
  - rewrite <- Hhist. by apply row_history_ascending.
  - by rewrite <- Hhist.
  - intros q e' Hheap Hfresh Hpend Hvers Hpool Hrows Hctl.
    destruct (row_ok_inserted e e' v (serial_id_ s) q) as (Hok' & Hh' & Hptrs); try done.
    set (v' := mkValue (rwl v) (epoch_ v) (master_ v) (GlobalVersionArray.mk
      (insert_slot (serial_id_ s, Some q) (GlobalVersionArray.ids_slots_ (global_array_ v))))
      (row_region_ v)) in *.
    destruct (append_step L (Some a) rrc a v v' s q e e') as [HG Hl']; try done.
    + by rewrite Hpool.
    + intros g _. by rewrite Hpool.
    + intros _. by left.
    + intros x Hx. left. destruct (decide (x = q)); [done|]. by rewrite Hvers in Hx.
    + intros p Hp x ->. apply Hvers. intros ->.
      apply list_elem_of_fmap in Hp as ([s0 p0] & Heq0 & Hin). simpl in Heq0. subst p0.
      apply (history_ptrs e v s0) in Hin; [|done]. pose proof (row_live _ _ R1) as Hlv.
      rewrite Forall_forall in Hlv. apply Hlv in Hin as [y Hy]. congruence.
    + split_and!; try done. exists v'. rewrite Hrows, lookup_insert_eq.
      destruct Hctl as (_ & _ & ->). by split_and!.
Qed.

(** ** Installing a region *)

(** A region has been handed out for the row and is not yet installed. *)
Definition inflight (a : addr) (g : nat) (e : SEnv) : Prop :=
  exists v, rows e !! a = Some v /\ holder (rwl v) = Some c /\ epoch_ v = E /\
    row_region_ v = None /\ handed_ e !! g = Some a.
Lemma KP_inflight a g : KP (inflight a g).
Proof.
  intros e e' (v & Hv & Hh & He & Hr & Hg) _ _ [K _ _ _ [more Hm]].
  destruct (K a v Hv) as (v' & Hv' & [_ C2 _ _ _]). destruct (C2 Hh) as [-> _].
  exists v. split_and!; try done. rewrite Hm. by apply lookup_app_l_Some.
Qed.

Lemma step_install L rrc a g e :
  local L (Some a) rrc e -> inflight a g e ->
  wp (install_region a g)
    (fun _ e' => G e e' /\ local L (Some a) rrc e' /\
       (has_region E a g e' /\ latched a (fun _ => True) e')) e.
Proof.
  intros Hloc (v & Hv & Hh & He & Hreg & Hg). pose proof Hloc as (Hi & _ & _ & Hr).
  pose proof (inv_row _ _ _ _ _ Hi a v Hv) as Hri. pose proof Hri as [R1 R2 R3 R4 R5 R6 R7 R8 R9 R10].
  destruct (Hr a v Hv) as [_ Hown].
  assert (Hhist : row_history e v = GlobalVersionArray.ids_slots_ (global_array_ v))
    by (unfold row_history; by rewrite Hreg).
  assert (Hnoref : forall b w, rows e !! b = Some w -> row_region_ w <> Some g).
  { intros b w Hw Hgw. pose proof (ri_region _ _ _ _ _ _ (inv_row _ _ _ _ _ Hi b w Hw) g Hgw).
    assert (b = a) as -> by congruence. congruence. }
  assert (Hpool : pool e !! g = Some RowRegion.init).
  { destruct (pool e !! g) as [r|] eqn:Hp; [f_equal; by apply (inv_pool _ _ _ _ _ Hi g)|].
    apply lookup_ge_None in Hp. rewrite (inv_pool_length _ _ _ _ _ Hi) in Hp.
    apply lookup_lt_Some in Hg. pose proof (handed_room E W h0 f0 W_room [] e Hi ltac:(constructor) ltac:(done)). simpl in *.
    lia. }
  apply (wp_install e a v g); try done.
  - by apply (inv_heap _ _ _ _ _ Hi).
  - by apply (row_global _ _ R1).
  - rewrite <- Hhist. by apply R6.
  - rewrite <- Hhist. by apply R6.
  - intros r e' Hheap Hrok Hh' Hptr Hst Hvers Hpool' Hrows Hctl.
    set (v' := mkValue (rwl v) (epoch_ v) (master_ v) (GlobalVersionArray.mk []) (Some g)) in *.
    assert (Hlg : (g < length (pool e))%nat) by by eapply lookup_lt_Some.
    assert (Hpg : pool e' !! g = Some r) by (rewrite Hpool'; by apply list_lookup_insert_eq).
    assert (Hhist' : row_history e' v' = row_history e v).
    { rewrite Hhist. unfold row_history. simpl. by rewrite Hpg. }
    assert (Hro' : region_of e' v' = Some r) by done.
    assert (Hptrs : row_ptrs e' v' ≡ₚ row_ptrs e v).
    { unfold row_ptrs. rewrite Hro'. unfold region_of. rewrite Hreg. simpl.
      by rewrite Hptr, app_nil_r. }
    assert (Hfr : forall p (F : SEnv -> ptr -> Prop),
      (forall e1 e2 p, (forall q, p = Some q -> versions e2 !! q = versions e1 !! q) -> F e1 p -> F e2 p) ->
      F e p -> F e' p).
    { intros p F HF. apply HF. intros q _. by rewrite Hvers. }
    assert (Hok' : row_ok e' v').
    { destruct R1 as [O1 O2 O3 O4 O5 O6]. constructor; simpl.
      - split; constructor.
      - split; [done|]. by exists r.
      - by rewrite Hptrs.
      - rewrite Hptrs. eapply Forall_impl; [exact O4|]. intros p. apply Hfr, live_ptr_frame.
      - apply (Hfr _ _ collectable_ptr_frame), O5.
      - intros r0 core Hr0 Hc0. rewrite Hro' in Hr0. injection Hr0 as <-. by rewrite Hst. }
    destruct (step_guarantee E W h0 f0 e e' a v v' c L L (Some a) (Some a) rrc) as [HG Hl']; try done.
    + by rewrite Hpool', length_insert.
    + intros g' Hne. rewrite Hpool', list_lookup_insert_ne; [done|]. intros ->. done.
    + intros g' Hg'. congruence.
    + intros q Hq. by rewrite Hvers in Hq.
    + intros p Hp. left. by rewrite Hptrs in Hp.
    + destruct Hctl as (_ & _ & Hhd). constructor; try done; simpl.
      * intros Hlt'. lia.
      * intros _. rewrite Hhist'. eapply Forall_impl; [by apply R5|]. intros p. apply Hfr, pending_ptr_frame.
      * intros _. rewrite Hhist'. by apply R6.
      * intros g' [= <-]. by rewrite Hhd.
      * rewrite decide_True by done. by rewrite decide_True in R9.
    + intros d Hd. simpl. split_and!; [done|congruence|]. unfold own. simpl. by rewrite Hhist'.
    + rewrite <- Hown. unfold own. simpl. by rewrite Hhist'.
    + split_and!; try done.
      * exists v'. rewrite Hrows, lookup_insert_eq. by split_and!.
      * exists v'. rewrite Hrows, lookup_insert_eq. by split_and!.
Qed.

(** ** The controller *)
Lemma step_controller L held rrc rrc' more e e' :
  local L held rrc e -> heap_ok e' ->
  versions e' = versions e -> pool e' = pool e -> rows e' = rows e ->
  lock_ok 64 (lock_ e') -> used_ e' = Z.of_nat (length (handed_ e')) ->
  handed_ e' = handed_ e ++ more ->
  (more = [] \/ exists a v, more = [a] /\ (a ∈ W) /\ (a ∉ handed_ e) /\ rows e !! a = Some v /\
     holder (rwl v) = Some c) ->
  (forall d, c <> d -> (holder (lock_ e') = Some d <-> holder (lock_ e) = Some d) /\
     (holder (lock_ e) = Some d -> more = [])) ->
  (holder (lock_ e') = Some c <-> rrc' = true) ->
  G e e' /\ local L held rrc' e'.
Proof.
  intros (Hi & Hc & Hrrc & Hr) Hheap Hv Hp Hrows Hl Hu Hh Hmore Hd Hrrc'.
  assert (Hfr : forall w, row_frame e e' w) by (intros w; split; intros; by rewrite ?Hv, ?Hp).
  assert (Hnew : forall b w, rows e !! b = Some w -> b ∈ more -> holder (rwl w) = Some c).
  { intros b w Hw Hb. destruct Hmore as [->|(a & v & -> & _ & _ & Hva & Hha)]; [by apply not_elem_of_nil in Hb|].
    apply list_elem_of_singleton in Hb as ->. by simplify_eq. }
  assert (Hown : forall d w, own E d e' w = own E d e w) by (intros d w; by apply own_frame).
  pose proof Hi as [I1 I2 I3 I4 I5 I6 I7 I8].
  assert (Hi' : Inv e').
  { constructor; rewrite ?Hp, ?Hrows; try done.
    - destruct I4 as (new & Hnew' & Hnd & Hall). exists (new ++ more). rewrite Hh. split_and!.
      + by rewrite Hnew', app_assoc.
      + destruct Hmore as [->|(a & v & -> & HaW & Ha & _)]; [by rewrite app_nil_r|].
        apply NoDup_app. split_and!; [done| |apply NoDup_singleton].
        by intros x Hx ->%list_elem_of_singleton.
      + apply Forall_app. split; [done|]. destruct Hmore as [->|(a & v & -> & HaW & _)]; by repeat constructor.
    - intros a v Hva. destruct (I7 a v Hva) as [R1 R2 R3 R4 R5 R6 R7 R8 R9 R10].
      constructor; rewrite ?(row_history_frame e e' v (Hfr v)); try done.
      + by apply (row_ok_frame e).
      + intros Hlt. apply (row_final_frame e); auto.
      + intros He. eapply Forall_impl; [by apply R5|]. intros p. apply pending_ptr_frame.
        intros q _. by rewrite Hv.
      + intros g Hg. rewrite Hh. by apply lookup_app_l_Some, R7.
      + intros Hn. rewrite Hh. intros [Hin|Hin]%elem_of_app; [by apply R8|].
        rewrite (Hnew a v) by done. by eexists.
      + by rewrite (final_state_frame e e' v (Hfr v)).
    - intros a b v w p Hne Hva Hwb. rewrite !(row_ptrs_frame e e') by done. by apply (I8 a b). }
  split.
  - intros _. split; [done|]. intros d Hne. destruct (Hd d Hne) as [Hd1 Hd2]. constructor.
    + intros a v Hva. exists v. rewrite Hrows. split; [done|]. constructor; try done.
      intros Hhd. split; [done|]. rewrite Hh, elem_of_app. split; [|by left].
      intros [?|Hin]; [done|]. rewrite (Hnew a v Hva Hin) in Hhd. congruence.
    + by rewrite Hrows.
    + done.
    + intros Hhd. specialize (Hd2 Hhd). rewrite Hu, Hh, Hd2, app_nil_r, (inv_used _ _ _ _ _ Hi). done.
    + by exists more.
  - split_and!; [done|done|done|]. intros a v. rewrite Hrows, Hown. apply Hr.
Qed.

(** The row's region is about to be fetched. *)
Definition wants_region (a : addr) : SEnv -> Prop :=
  latched a (fun v => epoch_ v = E /\ row_region_ v = None).

Local Abbreviation ctl := RowRegionController.lock_ref.

Lemma rg_fetch_new_region L a :
  a ∈ W ->
  rg R G (A L (Some a) false (wants_region a)) (RowRegionController.fetch_new_region c a)
    (fun g => A L (Some a) false (inflight a g)).
Proof.
  intros HaW. unfold RowRegionController.fetch_new_region.
  eapply rg_bind; [apply (rg_lock ctl c R G (G_refl E W h0 f0 c) _
    (A L (Some a) true (wants_region a)))|].
  - apply A_stable, KP_latched.
  - apply A_stable, KP_latched.
  - intros e _. by eexists.
  - intros e l [Hl Hw] Hg Hcn. injection Hg as <-. pose proof Hl as (Hi & Hc & _ & _).
    pose proof (inv_lock _ _ _ _ _ Hi) as Hlo. destruct (lock_ok_free _ _ Hlo Hcn) as [Hfree _].
    destruct (step_controller L (Some a) false true [] e (set_lock_ (take_exclusive c (lock_ e)) e))
      as [HG Hl']; try done.
    + by apply heap_ok_set_lock, (inv_heap _ _ _ _ _ Hi).
    + by apply take_exclusive_ok.
    + by apply (inv_used _ _ _ _ _ Hi).
    + by rewrite app_nil_r.
    + by left.
    + intros d Hne. rewrite Hfree. simpl. split; [|done]. split; congruence.
  - intros []. eapply rg_bind; [apply (rg_act_A _ L (Some a) true _ (fun _ => L) (Some a) true
      (fun g => inflight a g)); [intros g; apply KP_inflight|]|].
    + intros e Hl Hw. pose proof Hl as (Hi & Hc & Hh & Hr).
      destruct Hw as (v & Hv & Hhv & [He Hreg] & Hn). specialize (Hn Hreg).
      destruct (inv_handed _ _ _ _ _ Hi) as (new & Hnew & Hnd & Hall).
      assert (Hroom : used_ e < NUM_REGIONS).
      { pose proof (handed_room E W h0 f0 W_room [a] e Hi) as Hr1. cbn [length] in Hr1.
        rewrite (inv_used _ _ _ _ _ Hi). assert (Z.of_nat (1 + length (handed_ e)) <= NUM_REGIONS); [|lia].
        apply Hr1; [by repeat constructor; set_solver|repeat constructor; set_solver]. }
      unfold RowRegionController.take_region. wp_steps. apply wp_assertM; [bool_lia|].
      rewrite (proj2 (Z.leb_gt _ _)) by lia. wp_step. unfold wp at 1, modifyM at 1. wp_step.
      unfold wp at 1, modifyM. wp_steps.
      destruct (step_controller L (Some a) true true [a] e
        (set_handed (handed_ e ++ [a]) (set_used (used_ e + 1) e))) as [HG Hl']; try done.
      * by apply heap_ok_set_handed, heap_ok_set_used, (inv_heap _ _ _ _ _ Hi).
      * by apply (inv_lock _ _ _ _ _ Hi).
      * simpl. rewrite (inv_used _ _ _ _ _ Hi), length_app. simpl. lia.
      * right. exists a, v. by split_and!.
      * intros d Hne. simpl. split; [done|]. assert (holder (lock_ e) = Some c) by (by apply Hh). congruence.
      * split_and!; [done|done|]. exists v. simpl. split_and!; try done.
        rewrite (inv_used _ _ _ _ _ Hi), Nat2Z.id. by apply list_lookup_middle.
    + intros g. cbn beta. eapply rg_bind; [apply (rg_unlock ctl R G (G_refl E W h0 f0 c) _
        (A L (Some a) false (inflight a g)))|].
      * apply A_stable, KP_inflight.
      * intros e _. by eexists.
      * intros e l [Hl Hw] Hg. injection Hg as <-. pose proof Hl as (Hi & Hc & Hh & _).
        assert (Hhc : holder (lock_ e) = Some c) by (by apply Hh).
        destruct (step_controller L (Some a) true false [] e (set_lock_ (drop_exclusive (lock_ e)) e))
          as [HG Hl']; try done.
        -- by apply heap_ok_set_lock, (inv_heap _ _ _ _ _ Hi).
        -- by apply (drop_exclusive_ok _ c); [apply (inv_lock _ _ _ _ _ Hi)|].
        -- by apply (inv_used _ _ _ _ _ Hi).
        -- by rewrite app_nil_r.
        -- by left.
        -- intros d Hne. simpl. split; [|done]. rewrite Hhc. split; congruence.
      * intros []. apply (rg_ret_A g L (Some a) false (fun g => inflight a g)).
Qed.

(** ** The methods *)
Context (find : Z -> Z -> option addr) (rdtscp : SEnv -> Z) (schema : Schema).

Lemma latched_weaken a (Q Q' : Value -> Prop) e : (forall v, Q v -> Q' v) -> latched a Q e -> latched a Q' e.
Proof. intros HQ (v & ? & ? & ? & ?). exists v. eauto. Qed.

Lemma latched_current L rrc a e :
  local L (Some a) rrc e -> latched a (fun v => epoch_ v = E) e -> current E a e /\ latched a (fun _ => True) e.
Proof.
  intros _ Hl. split; [|by eapply latched_weaken; [|exact Hl]].
  destruct Hl as (v & Hv & _ & He & _). by exists v.
Qed.

Lemma rg_now L held rrc P :
  KP P -> rg R G (A L held rrc P) (act (now rdtscp)) (fun _ => A L held rrc P).
Proof. intros HP. apply rg_read; [done|]. intros e _ Hp. by exists (rdtscp e). Qed.

Lemma rg_add_wait L held rrc P t start :
  KP P -> rg R G (A L held rrc P) (act (add_wait rdtscp t start)) (fun _ => A L held rrc P).
Proof. intros HP. apply rg_stat; [done|]. intros e _ _. by eexists. Qed.

Lemma rg_load_row_field {B} (f : Value -> B) L held rrc P a (Q : B -> SEnv -> Prop) :
  (forall b, KP (Q b)) -> (forall e, P e -> present a e) ->
  (forall e v, local L held rrc e -> P e -> rows e !! a = Some v -> Q (f v) e) ->
  rg R G (A L held rrc P) (act (v ← load_row a; mret (f v))) (fun b => A L held rrc (Q b)).
Proof.
  intros HQ Hp Hf. apply rg_read; [done|]. intros e Hl He. destruct (Hp e He) as [v Hv].
  exists (f v). split; [|by apply Hf].
  unfold load_row, derefM, lift, deref, mbind, M_bind, getM. by rewrite Hv.
Qed.

Lemma latched_present a Q e : latched a Q e -> present a e.
Proof. intros (v & Hv & _). by exists v. Qed.

Lemma rg_unlock_current L a :
  rg R G (A L (Some a) false (latched a (fun v => epoch_ v = E))) (unlock (row_lock a))
    (fun _ => A L None false (current E a)).
Proof.
  eapply rg_conseq; [apply (rg_unlock_row L false a (current E a)), KM_current| |done].
  intros e [Hl Hlat]. split; [done|]. by apply (latched_current L false).
Qed.

Lemma rg_initialize L a :
  a ∈ W ->
  rg R G (A L (Some a) false (latched a (fun v => epoch_ v < E)))
    (act (v ← load_row a; v' ← initialize_the_row v E; store_row a v'))
    (fun _ => A L (Some a) false (latched a (fun v => epoch_ v = E))).
Proof.
  intros HW. apply (rg_act_A _ L (Some a) false _ (fun _ => L) (Some a) false
    (fun _ => latched a (fun v => epoch_ v = E))); [intros; apply KP_latched|].
  intros e Hl Hlat. by apply step_initialize.
Qed.

(** After the guard the row is in the worker's epoch: initialised by this
    worker or by another one. *)
Lemma rg_epoch_guard L s a :
  Serval_epoch_ s = E -> a ∈ W ->
  rg R G (A L None false (present a)) (epoch_guard rdtscp c s a) (fun _ => A L None false (current E a)).
Proof.
  intros HE HW. unfold epoch_guard. rewrite HE.
  eapply rg_bind; [apply rg_now, KM_KP, KM_present|]. intros start; cbn beta.
  eapply rg_bind.
  - apply (rg_loop R G (A L None false (present a)) _ (fun _ => A L None false (current E a)));
      [apply A_stable, KM_KP, KM_present|].
    eapply rg_bind; [apply (rg_load_row_field epoch_ _ _ _ _ a
      (fun ep e => present a e /\ (E <= ep -> current E a e)))|].
    + intros ep. apply KM_KP. intros e e' [Hp Hc] Hi' Hg. split; [by apply (KM_present a e)|].
      intros Hle. apply (KM_current a e); auto.
    + done.
    + intros e v (Hi & _) Hp Hv. split; [done|]. intros Hle. exists v. split; [done|].
      pose proof (ri_epoch _ _ _ _ _ _ (inv_row _ _ _ _ _ Hi a v Hv)). lia.
    + intros ep. cbn beta. destruct (Z.ltb_spec ep E) as [Hlt|Hge].
      2:{ apply rg_mret. intros e [Hl [_ Hc]]. split; auto. }
      eapply rg_bind; [apply (rg_try_lock_row L false a _); [|by intros e [? _]]|].
      { intros e e' [Hp Hc] Hi' Hg. split; [by apply (KM_present a e)|]. intros Hle. lia. }
      intros [|]; cbn beta iota.
      2:{ apply rg_mret. by intros e [Hl [Hp _]]. }
      eapply rg_bind; [apply (rg_weaken L (Some a) false (latched a (fun _ => True)));
        [apply rg_add_wait, KP_latched|by intros e _ [_ ?]]|]. intros []; cbn beta.
      eapply rg_bind; [apply (rg_load_row_field epoch_ _ _ _ _ a
        (fun ep => latched a (fun v => epoch_ v = ep /\ epoch_ v <= E)))|].
      * intros ep'. apply KP_latched.
      * intros e. apply latched_present.
      * intros e v (Hi & _) (v' & Hv' & Hh & _ & Hn) Hv. assert (v' = v) as -> by congruence. exists v. split_and!; try done.
        apply (ri_epoch _ _ _ _ _ _ (inv_row _ _ _ _ _ Hi a v Hv)).
      * intros ep'. cbn beta. eapply rg_bind with (Q := fun _ => A L (Some a) false (latched a (fun v => epoch_ v = E))).
        -- destruct (Z.ltb_spec ep' E) as [Hlt'|Hge'].
           ++ apply (rg_weaken L (Some a) false (latched a (fun v => epoch_ v < E))); [by apply rg_initialize|].
              intros e _. apply latched_weaken. intros v [-> _]. done.
           ++ apply (rg_weaken L (Some a) false (latched a (fun v => epoch_ v = E)));
                [apply (rg_ret_A tt L (Some a) false (fun _ => latched a (fun v => epoch_ v = E)))|].
              intros e _. apply latched_weaken. intros v [? ?]. lia.
        -- intros []. eapply rg_bind; [apply rg_unlock_current|]. intros []; cbn beta.
           by apply rg_mret.
  - intros [|]; cbn beta.
    + apply rg_add_wait, KM_KP, KM_current.
    + apply (rg_ret_A tt L None false (fun _ => current E a)).
Qed.

Lemma current_present a e : current E a e -> present a e.
Proof. intros (v & Hv & _). by exists v. Qed.

(** Whoever finds no region either waits for one or installs it, once. *)
Lemma rg_wait_region_installation L a :
  a ∈ W ->
  rg R G (A L None false (current E a)) (wait_region_installation rdtscp c a)
    (fun g => A L None false (has_region E a g)).
Proof.
  intros HaW. unfold wait_region_installation.
  eapply rg_bind; [apply rg_now, KM_KP, KM_current|]. intros start; cbn beta.
  eapply rg_bind.
  - apply (rg_loop R G (A L None false (current E a)) _
      (fun r => A L None false (has_region E a r.1))); [apply A_stable, KM_KP, KM_current|].
    eapply rg_bind; [apply (rg_load_row_field row_region_ _ _ _ _ a
      (fun r e => current E a e /\ forall g, r = Some g -> has_region E a g e))|].
    + intros r. apply KM_KP. intros e e' [Hc Hr] Hi' Hg. split; [by apply (KM_current a e)|].
      intros g Hrg. apply (KM_has_region a g e); auto.
    + apply current_present.
    + intros e v _ Hc Hv. split; [done|]. intros g Hg. destruct Hc as (v' & Hv' & He).
      assert (v' = v) as -> by congruence. by exists v.
    + intros [g|]; cbn beta iota.
      { apply rg_mret. intros e [Hl [_ Hr]]. split; [done|]. by apply Hr. }
      eapply rg_bind; [apply (rg_try_lock_row L false a _); [|by intros e [? _]; apply current_present]|].
      { intros e e' [Hc Hr] Hi' Hg. split; [by apply (KM_current a e)|done]. }
      intros [|]; cbn beta iota.
      2:{ apply rg_mret. by intros e [Hl [Hc _]]. }
      eapply rg_bind; [apply (rg_weaken L (Some a) false (latched a (fun v => epoch_ v = E)));
        [apply rg_add_wait, KP_latched|]|].
      { intros e _ [[(v & Hv & He) _] (v' & Hv' & Hh & _ & Hn)].
        assert (v' = v) as -> by congruence. exists v. by split_and!. }
      intros []; cbn beta.
      eapply rg_bind; [apply (rg_load_row_field row_region_ _ _ _ _ a
        (fun r => latched a (fun v => epoch_ v = E /\ row_region_ v = r)))|].
      * intros r. apply KP_latched.
      * intros e. apply latched_present.
      * intros e v _ (v' & Hv' & Hh & He & Hn) Hv. assert (v' = v) as -> by congruence.
        exists v. by split_and!.
      * intros region; cbn beta.
        eapply rg_bind with (Q := fun g => A L (Some a) false (fun e => has_region E a g e /\ latched a (fun _ => True) e)).
        -- destruct region as [g|]; cbn beta iota.
           ++ apply rg_mret. intros e [Hl (v & Hv & Hh & [He Hr] & Hn)]. split; [done|].
              split; exists v; by split_and!.
           ++ eapply rg_bind; [apply (rg_read _ L (Some a) false _ (fun _ => wants_region a));
                [intros; apply KP_latched|]|].
              ** intros e _ Hw. exists tt. split; [|done]. pose proof Hw as (v & Hv & _ & [_ Hr] & _).
                 unfold load_row, derefM, assertM, lift, deref, mbind, M_bind, getM.
                 rewrite Hv, Hr. unfold may_be_contented. rewrite bool_decide_eq_false_2 by (by intros []).
                 by rewrite assert_true.
              ** intros []; cbn beta. eapply rg_bind; [by apply rg_fetch_new_region|].
                 intros g; cbn beta. eapply rg_bind; [apply (rg_act_A _ L (Some a) false _ (fun _ => L)
                   (Some a) false (fun _ e => has_region E a g e /\ latched a (fun _ => True) e))|].
                 --- intros _. apply KP_and; [apply KM_KP, KM_has_region|apply KP_latched].
                 --- intros e Hl Hin. by apply step_install.
                 --- intros []. by apply rg_mret.
        -- intros g. cbn beta. eapply rg_bind; [apply (rg_unlock_row L false a (has_region E a g)), KM_has_region|].
           intros []. by apply rg_mret.
  - intros [g [|]]; cbn beta iota.
    + eapply rg_bind; [apply rg_add_wait, KM_KP, KM_has_region|]. intros []. by apply rg_mret.
    + by apply rg_mret.
Qed.

(** One pending version, appended to the row whatever path is taken. *)
Lemma rg_do_append_pending_version L s a :
  worker_of s -> a ∈ W -> Forall (fun q => q.1 < serial_id_ s) (L a) ->
  spare (Z.of_nat c) (ids (L a) ++ [serial_id_ s]) ->
  rg R G (A L None false (present a)) (do_append_pending_version rdtscp c s a None)
    (fun p e => is_Some p /\ A (record_write L a (serial_id_ s, p)) None false (present a) e).
Proof.
  intros Hw HaW Hlt Hspare. pose proof Hw as (_ & _ & _ & HE). unfold do_append_pending_version.
  assert (Hcont : forall g held P, (forall e, P e -> has_region E a g e) ->
    rg R G (A L held false P) (act (append_to_contented_row s g))
      (fun p e => is_Some p /\ A (record_write L a (serial_id_ s, p)) held false (has_region E a g) e)).
  { intros g held P HP. apply rg_act.
    - intros p e e' [Hp Hst] HR. split; [done|]. by eapply (A_stable _ _ _ _ (KM_KP _ (KM_has_region a g))).
    - intros e [Hl Hpe]. eapply wp_mono; [by apply (step_append_contended L held false a g s e); auto|].
      intros p e' (HG & Hl' & Hp). split; [done|]. split; [done|]. split; [done|].
      apply (KM_step (has_region E a g) e e' L held false (record_write L a (serial_id_ s, p)) held false);
        auto using KM_has_region. }
  eapply rg_bind; [apply (rg_read _ L None false _ (fun _ => present a)); [intros; apply KM_KP, KM_present|]|].
  { intros e _ Hp. exists tt. split; [|done]. unfold assertM, lift. by rewrite assert_true. }
  intros []; cbn beta. eapply rg_bind; [by apply rg_epoch_guard|]. intros []; cbn beta.
  eapply rg_bind; [apply (rg_read _ L None false _ (fun _ => current E a)); [intros; apply KM_KP, KM_current|]|].
  { intros e _ Hp. exists tt. split; [|done]. destruct Hp as (v & Hv & He). rewrite HE.
    unfold load_row, derefM, assertM, lift, deref, mbind, M_bind, getM.
    rewrite Hv, He, assert_true by apply Z.eqb_refl. done. }
  intros []; cbn beta. eapply rg_bind; [apply (rg_try_lock_row L false a (current E a));
    [apply KM_current|apply current_present]|].
  assert (Hpres : forall g e, has_region E a g e -> present a e)
    by (intros g e (v & Hv & _); by exists v).
  intros [|]; cbn beta iota.
  - eapply rg_bind; [apply (rg_load_row_field row_region_ _ _ _ _ a
      (fun r => latched a (fun v => epoch_ v = E /\ row_region_ v = r)))|].
    + intros r. apply KP_latched.
    + intros e [Hc _]. by apply current_present.
    + intros e v _ [(v1 & Hv1 & He) (v' & Hv' & Hh & _ & Hn)] Hv.
      assert (v1 = v) as -> by congruence. assert (v' = v) as -> by congruence.
      exists v. by split_and!.
    + intros region; cbn beta.
      eapply rg_bind with (Q := fun p e => is_Some p /\ A (record_write L a (serial_id_ s, p)) (Some a) false
        (fun e => present a e /\ latched a (fun _ => True) e) e).
      * destruct region as [g|]; cbn beta iota; apply rg_act.
        -- intros p e e' [Hp Hst] HR. split; [done|].
           eapply (A_stable _ _ _ _ (KP_and _ _ (KM_KP _ (KM_present a)) (KP_latched a _))); done.
        -- intros e [Hl Hlat]. pose proof Hlat as (v & Hv & Hh & [He Hr] & Hn).
           eapply wp_mono; [apply (step_append_contended L (Some a) false a g s e); try done; by exists v|].
           intros p e' (HG & Hl' & Hp). split; [done|]. split; [done|]. split; [done|].
           assert (has_region E a g e') as (v' & Hv' & He' & Hr').
           { apply (KM_step (has_region E a g) e e' L (Some a) false (record_write L a (serial_id_ s, p))
               (Some a) false); auto using KM_has_region. by exists v. }
           split; [by exists v'|]. exists v'. split_and!; try done.
           ++ destruct Hl' as (_ & _ & _ & Hr''). by apply (Hr'' a v' Hv').
           ++ rewrite Hr'. done.
        -- intros p e e' [Hp Hst] HR. split; [done|].
           eapply (A_stable _ _ _ _ (KP_and _ _ (KM_KP _ (KM_present a)) (KP_latched a _))); done.
        -- intros e [Hl Hlat]. eapply wp_mono; [by apply (step_append_unconted L false a s e)|].
           intros p e' (HG & Hl' & Hp & Hlat'). split; [done|]. split; [done|]. split; [done|].
           split; [by eapply latched_present|done].
      * intros p; cbn beta. intros n e [Hp HA]. revert n e HA.
        change (rg R G (A (record_write L a (serial_id_ s, p)) (Some a) false
          (fun e => present a e /\ latched a (fun _ => True) e)) (_ ← unlock (row_lock a); mret p)
          (fun p e => is_Some p /\ A (record_write L a (serial_id_ s, p)) None false (present a) e)).
        eapply rg_bind; [apply (rg_unlock_row _ false a (present a)), KM_present|].
        intros []. apply rg_mret. by intros e HA.
  - eapply rg_bind; [by apply rg_wait_region_installation|]. intros g; cbn beta.
    eapply rg_conseq; [apply (Hcont g None (has_region E a g)); auto|done|].
    intros p e [Hp [Hl Hr]]. split; [done|]. split; [done|]. by eapply Hpres.
Qed.

(** Facts that only grow can be carried along any triple. *)
Lemma rg_frame {B} P0 (p : prog SEnv B) (Q : B -> SEnv -> Prop) F :
  KM F -> (forall e, P0 e -> Inv e) -> rg R G P0 p Q ->
  rg R G (fun e => P0 e /\ F e) p (fun b e => Q b e /\ F e).
Proof.
  intros HF HPI Hp n e [Hpe Hf]. pose proof (HPI e Hpe) as Hi. specialize (Hp n e Hpe).
  clear Hpe HPI. revert p e Hi Hf Hp. induction n as [|n IH]; intros p e Hi Hf Hp; [done|].
  destruct p as [b|B' m k|C B' c0 body k]; cbn [safe] in *; [done| |].
  - destruct (m e) as [[b e']|]; [|done]. destruct Hp as [HG Hk]. split; [done|].
    destruct (HG Hi) as [Hi' _]. assert (Hf' : F e') by (apply (HF e); [done..|by apply G_grew]).
    intros e'' HR. destruct (HR Hi') as [Hi'' Hk'']. apply IH; [done| |by apply Hk].
    apply (HF e'); [done..|]. by eapply kept_grew.
  - intros e'' HR. destruct (HR Hi) as [Hi'' Hk'']. apply IH; [done| |by apply Hp].
    apply (HF e); [done..|]. by eapply kept_grew.
Qed.

(** ** Transactions *)
Context (table : Z).

Definition all_present (e : SEnv) : Prop := forall a, a ∈ W -> present a e.
Lemma KM_all_present : KM all_present.
Proof. intros e e' Hp Hi' Hg a Ha. apply (KM_present a e); auto. Qed.

Lemma get_set_table s t l : get_table (set_table s t l) t = l.
Proof. unfold get_table, set_table. simpl. by rewrite lookup_insert_eq. Qed.
Lemma get_insert_table s t t' : get_table (insert_table s t) t' = get_table s t'.
Proof. done. Qed.

Lemma worker_set_table s t l : worker_of s -> worker_of (set_table s t l).
Proof. done. Qed.

Lemma rg_append_pending_version L s a key :
  worker_of s -> find table key = Some a -> a ∈ W -> (key ∉ get_table s table) ->
  Forall (fun q => q.1 < serial_id_ s) (L a) -> spare (Z.of_nat c) (ids (L a) ++ [serial_id_ s]) ->
  rg R G (fun e => A L None false (fun _ => True) e /\ all_present e)
    (append_pending_version find rdtscp c s table key None)
    (fun r e => (is_Some r.1 /\ r.2 = set_table (insert_table s table) table (get_table s table ++ [key])) /\
       A (record_write L a (serial_id_ s, r.1)) None false (fun _ => True) e /\ all_present e).
Proof.
  intros Hw Hfind HaW Hkey Hlt Hspare. unfold append_pending_version. rewrite get_insert_table.
  rewrite decide_False by done. rewrite Hfind.
  eapply rg_bind with (Q := fun p e => (is_Some p /\ A (record_write L a (serial_id_ s, p)) None false (present a) e)
    /\ all_present e).
  - eapply rg_conseq; [apply (rg_frame (A L None false (present a)) _
      (fun p e => is_Some p /\ A (record_write L a (serial_id_ s, p)) None false (present a) e));
      [apply KM_all_present| |]| |done].
    + by intros e [[Hi _] _].
    + by apply (rg_do_append_pending_version L (insert_table s table) a).
    + intros e [[Hl _] Hp]. split; [|done]. split; [done|]. by apply Hp.
  - intros p; cbn beta. intros n e [[Hp HA] Hall]. revert n e HA Hall.
    assert (Hgoal : rg R G (fun e => A (record_write L a (serial_id_ s, p)) None false (present a) e /\ all_present e)
      (_ ← act (assertM (nonnull p)); mret (p, set_table (insert_table s table) table
         (get_table s table ++ [key])))
      (fun r e => (is_Some r.1 /\ r.2 = set_table (insert_table s table) table (get_table s table ++ [key])) /\
         A (record_write L a (serial_id_ s, r.1)) None false (fun _ => True) e /\ all_present e)).
    { eapply rg_bind; [apply (rg_frame (A (record_write L a (serial_id_ s, p)) None false (present a)));
        [apply KM_all_present|by intros e [[Hi _] _]|]|].
      - apply (rg_read _ _ None false _ (fun _ => present a)); [intros; apply KM_KP, KM_present|].
        intros e _ Hpe. exists tt. split; [|done]. unfold assertM, lift.
        by rewrite assert_true by by apply nonnull_Some.
      - intros []. apply rg_mret. intros e [[Hl _] Hall]. by split_and!. }
    intros n e HA Hall. by apply Hgoal.
Qed.

End Steps.
