(* ===== verification/ServalPhase.v ===== *)
(** * ServalPhase: the whole initialisation phase of an epoch

    [do_initialization_phase] of all 64 workers in parallel: every schedule
    runs without error, and when the workers are through, every row records
    exactly the transactions of the epoch that write it, in serial order. *)
From Stdlib Require Import FunctionalExtensionality.
From S2P Require Import Prelude Bitmap Schema Ycsb Conc RWLock Memory Txs ServalRow Serval ServalInit.

(** ** One worker *)
Section Worker.
Context `{BuildConfig}.
Context (E : Z) (W : gset addr) (h0 : list addr) (f0 : addr -> ptr * ptr).
Hypothesis W_room : Z.of_nat (size (list_to_set h0 ∪ W)) <= NUM_REGIONS.
Context (c : nat).
Context (find : Z -> Z -> option addr) (rdtscp : SEnv -> Z) (table : Z).
Hypothesis find_inj : forall k1 k2 a, is_key k1 -> is_key k2 ->
  find table k1 = Some a -> find table k2 = Some a -> k1 = k2.
Local Abbreviation R := (R E W h0 f0 c).
Local Abbreviation G := (G E W h0 f0 c).
Local Abbreviation A L := (A E W h0 f0 c L None false (fun _ => True)).
Local Abbreviation all_present := (all_present W).
Local Abbreviation worker_of := (worker_of E c).
Local Abbreviation appendable := (appendable W find table).
Local Abbreviation installed := (installed find table).
Local Abbreviation rows_written := (rows_written find table).
Implicit Types L : addr -> list (Z * ptr).

(** [terminate_transaction] empties the write set. *)
Lemma get_table_terminate s :
  table ∈ tables s \/ get_table s table = [] -> get_table (terminate_transaction s) table = [].
Proof.
  intros Hs. unfold get_table at 1, terminate_transaction. simpl. rewrite lookup_cleared.
  case_decide; [done|]. by destruct Hs.
Qed.

(** What a worker holds between two transactions. *)
Definition between (s : Serval) : Prop := get_table s table = [].

Definition ready (s : Serval) : Prop := worker_of s /\ (table ∈ tables s \/ get_table s table = []).
Definition idle (s : Serval) : Prop := between s /\ Serval_epoch_ s = E.
Definition valid (i : Z) : Prop := 0 <= i < 64.
Definition AP (s : Serval) L (e : SEnv) : Prop := A L e /\ all_present e.

Lemma AP_stable s L : stable R (AP s L).
Proof.
  intros e e' [HA Hp] HR. split.
  - eapply (A_stable E W h0 f0 c); [apply KP_true|exact HA|exact HR].
  - destruct HA as [[Hi _] _]. destruct (HR Hi) as [Hi' Hk].
    apply (KM_all_present E W h0 f0 e); [done..|]. by eapply kept_grew.
Qed.

(** The serial numbers of core [c] and the phase as a walk over them. *)
Definition start (head : Z) (s : Serval) (i : Z) : Serval := with_serial s (Z.of_nat c * 64 + i) (Z.of_nat c).

Local Abbreviation append := (fun s => append_pending_version find rdtscp c s table).

Lemma rg_append L s a key :
  ready s -> find table key = Some a -> a ∈ W -> key ∉ get_table s table ->
  Forall (fun q => q.1 < serial_id_ s) (L a) -> spare (Z.of_nat c) (ids (L a) ++ [serial_id_ s]) ->
  rg R G (AP s L) (append s key None)
    (fun r e => (is_Some r.1 /\ ready r.2 /\ serial_id_ r.2 = serial_id_ s /\
        get_table r.2 table = get_table s table ++ [key]) /\
       AP r.2 (record_write L a (serial_id_ s, r.1)) e).
Proof.
  intros [Hw Htab] Hf Ha Hk Hlt Hspare. eapply rg_conseq;
    [by apply (rg_append_pending_version E W h0 f0 W_room c find rdtscp table L s a key)|done|].
  intros [p s'] e [[Hp ->] HA]. cbn [fst snd] in *. split; [|done].
  split_and!; [done| |done|by rewrite get_set_table]. split; [done|]. left. cbn. set_solver.
Qed.

Lemma initialization_phase_eq txs head n : forall i s,
  do_initialization_phase_from find rdtscp c table (Z.of_nat c) head i n s txs
  = initialize_all append (start head) terminate_transaction (fun i => head + Z.of_nat c * 64 + i) txs s (seqZ i (Z.of_nat n)).
Proof.
  induction n as [|n IH]; intros i s; [done|].
  rewrite seqZ_cons by lia. cbn [do_initialization_phase_from initialize_all].
  unfold tx_at, initialize_tx, mbind, prog_mbind. cbn [act prog_bind]. f_equal.
  apply functional_extensionality. intros tx. rewrite prog_bind_assoc. f_equal.
  apply functional_extensionality. intros [ops s']. cbn [prog_bind mret prog_ret].
  rewrite IH. by replace (Z.pred (Z.of_nat (S n))) with (Z.of_nat n) by lia.
Qed.

(** The serials of the core. *)
Local Abbreviation N := NUM_TXS_IN_ONE_EPOCH_IN_ONE_CORE.
Definition core_serials : list Z := seqZ (Z.of_nat c * 64) N.

Lemma rg_initialization_phase txs head s :
  idle s -> (c < 64)%nat -> 0 <= head ->  0 <= N <= 64 ->
  (forall a, spare (Z.of_nat c) (written_serials find table (assigned txs head core_serials) a)) ->
  txs_ready find table W txs head core_serials ->
  rg R G (AP s (fun _ => []))
    (do_initialization_phase find rdtscp c table (Z.of_nat c) head s txs)
    (fun r e => exists L, ((forall a, ids (L a) = written_serials find table (assigned txs head core_serials) a) /\
       all_installed find table L (assigned txs head core_serials) r.1 /\ idle r.2) /\ AP r.2 L e).
Proof.
  intros Hidle Hc Hh HN Hroom Hready. unfold do_initialization_phase. rewrite initialization_phase_eq, Z2Nat.id by lia.
  eapply rg_conseq; [apply (rg_initialize_all find table W R G serial_id_ (fun s => get_table s table) ready AP append)
    with (fits := spare (Z.of_nat c)) (serial_of := fun i => Z.of_nat c * 64 + i) (between := idle) (valid := valid)|done|].
  - apply AP_stable.
  - intros e. apply G_refl.
  - done.
  - apply spare_prefix.
  - apply rg_append.
  - intros s1 i [Hb1 He1] Hi. unfold valid in Hi. unfold ready, ServalInit.worker_of, serial_ok, core_of, tx_of. cbn.
    pose proof (Z.div_unique_pos (Z.of_nat c * 64 + i) 64 (Z.of_nat c) i).
    pose proof (Z.mod_unique_pos (Z.of_nat c * 64 + i) 64 (Z.of_nat c) i).
    split_and!; try lia; [by right|done].
  - intros s1 [(_ & _ & _ & He) Htab]. split; [by apply get_table_terminate|done].
  - done.
  - done.
  - done.
  - apply Forall_forall. intros i Hi%elem_of_seqZ. unfold valid. lia.
  - apply sorted_fmap; [|apply sorted_seqZ]. intros; lia.
  - pose proof (assigned_ready find table W txs head core_serials Hready) as Hall.
    apply Forall2_same_length_lookup in Hall as [Hlen Hall]. apply Forall2_same_length_lookup.
    unfold core_serials in *. rewrite !length_seqZ in *. split; [done|].
    intros k i st Hi Hst. apply lookup_seqZ in Hi as [-> Hk]. rewrite Z.add_0_l in *.
    destruct (Hall k (Z.of_nat c * 64 + Z.of_nat k) st) as (Hs & Htx & Happ).
    { apply lookup_seqZ. lia. } { done. }
    split_and!; [lia| |done|done]. rewrite <- Htx. f_equal. lia.
  - intros a i _. constructor.
  - done.
  - intros r e (L & (Hids & Hinst & Hid) & HA). exists L. split; [|done]. split_and!; [|done|done].
    intros a. by destruct (Hids a) as [_ ->].
Qed.

End Worker.

(** ** All workers *)
Section Phase.
Context `{BuildConfig}.
Context (find : Z -> Z -> option addr) (rdtscp : SEnv -> Z) (table : Z).
Hypothesis find_inj : forall k1 k2 a, is_key k1 -> is_key k2 ->
  find table k1 = Some a -> find table k2 = Some a -> k1 = k2.
Context (E : Z) (W : gset addr).
Local Abbreviation rows_written := (rows_written find table).
Local Abbreviation N := NUM_TXS_IN_ONE_EPOCH_IN_ONE_CORE.

(** The final state of a row before the epoch. *)
Definition final_of (e : SEnv) (a : addr) : ptr :=
  match rows e !! a with Some v => final_state e v | None => None end.
(** Its master version: what the epoch's readers see while no transaction has written the row in the epoch. *)
Definition master_of (e : SEnv) (a : addr) : ptr :=
  match rows e !! a with Some v => master_ v | None => None end.
Definition before (e : SEnv) (a : addr) : ptr * ptr := (final_of e a, master_of e a).

(** The shared state at the start of epoch [E]: well formed, all latches free,
    no row touched in the epoch yet. *)
Definition epoch_start (e : SEnv) : Prop :=
  Inv E W (handed_ e) (before e) e /\ holder (lock_ e) = None /\
  all_present W e /\
  forall a v, rows e !! a = Some v -> holder (rwl v) = None /\ epoch_ v < E.

(** The transactions of the epoch: serial [s] is [txs[head + s]]; the epoch runs
    those whose position within their core is below [N]. *)
Definition in_epoch (s : Z) : Prop := 0 <= s < 4096 /\ s mod 64 < N.
(** Serial [s] writes row [a]. *)
Definition writes (txs : list OperationSet) (head s : Z) (a : addr) : Prop :=
  in_epoch s /\ writes_row find table txs head s a.
#[global] Instance writes_dec txs head s a : Decision (writes txs head s a).
Proof. unfold writes, in_epoch. apply _. Defined.

(** No row is written by all 64 transactions of a core: with assertions on,
    [PerCoreVersionArray::append] admits 63 of them (row_region.hpp, line 209). *)
Definition write_room (txs : list OperationSet) (head : Z) : Prop :=
  forall c a, 0 <= c < 64 -> exists t, 0 <= t < 64 /\ ~ writes txs head (c * 64 + t) a.
Definition epoch_txs_ok (txs : list OperationSet) (head : Z) : Prop :=
  0 <= head /\ 0 <= N <= 64 /\ (NDEBUG = true \/ write_room txs head) /\
  forall s, in_epoch s -> exists tx, txs !! Z.to_nat (head + s) = Some tx /\
    appendable find table W (rw_set_ tx) (w_set_ tx).

Lemma write_room_below txs head : N <= 63 -> write_room txs head.
Proof. intros HN c a Hc. exists 63. split; [lia|]. intros [[_ Hs] _]. rewrite Z.add_comm, Z.mod_add, Z.mod_small in Hs; lia. Qed.

(** The versions row [a] records for the current epoch. *)
Definition epoch_history (e : SEnv) (a : addr) : list (Z * ptr) :=
  match rows e !! a with
  | Some v => if epoch_ v =? E then row_history e v else []
  | None => []
  end.

(** What the phase leaves behind. *)
Record epoch_initialized (e0 e : SEnv) (txs : list OperationSet) (head : Z) : Prop := {
  ei_inv : Inv E W (handed_ e0) (before e0) e;
  ei_rows : forall a, is_Some (rows e !! a) <-> is_Some (rows e0 !! a);
  ei_latches : holder (lock_ e) = None /\ forall a v, rows e !! a = Some v -> holder (rwl v) = None;
  ei_history : forall a v, rows e !! a = Some v ->
    ids (epoch_history e a) = filter (fun s => writes txs head s a) (seqZ 0 4096) /\
    Forall (fun q => pending_ptr e q.2) (epoch_history e a);
  ei_master : forall a v s, rows e !! a = Some v -> writes txs head s a ->
    epoch_ v = E /\ master_ v = final_of e0 a
}.

Lemma elem_of_core_serials c s :
  (c < 64)%nat -> 0 <= N <= 64 -> s ∈ core_serials c <-> in_epoch s /\ core_of s = Z.of_nat c.
Proof.
  intros Hc HN. unfold core_serials, in_epoch, core_of. rewrite elem_of_seqZ.
  pose proof (Z.div_mod s 64). pose proof (Z.mod_pos_bound s 64). split; [|lia]. intros Hs.
  assert (s / 64 = Z.of_nat c) by (symmetry; apply (Z.div_unique s 64 (Z.of_nat c) (s - 64 * Z.of_nat c)); lia). lia.
Qed.

Lemma core_ready txs head c :
  epoch_txs_ok txs head -> (c < 64)%nat -> txs_ready find table W txs head (core_serials c).
Proof.
  intros (Hh & HN & _ & Hok) Hc. apply Forall_forall.
  intros s [Hs _]%elem_of_core_serials; [|done..]. by apply Hok.
Qed.

(** A worker's own writes are the writes of its serials. *)
Lemma elem_of_own_serials txs head c a x :
  epoch_txs_ok txs head -> (c < 64)%nat ->
  x ∈ written_serials find table (assigned txs head (core_serials c)) a <->
  writes txs head x a /\ core_of x = Z.of_nat c.
Proof.
  intros (_ & HN & _) Hc. rewrite elem_of_assigned_serials, elem_of_core_serials by done. unfold writes. tauto.
Qed.

(** ** The parallel run *)
Definition workers (txs : list OperationSet) (head : Z) (s : nat -> Serval)
  : list (prog SEnv (list OperationSet * Serval)) :=
  (fun c => do_initialization_phase find rdtscp c table (Z.of_nat c) head (s c) txs) <$> seq 0 64.

Section Run.
Context (txs : list OperationSet) (head : Z) (s : nat -> Serval) (e0 : SEnv).
Hypothesis start : epoch_start e0.
Hypothesis room : Z.of_nat (size (list_to_set (handed_ e0) ∪ W)) <= NUM_REGIONS.
Hypothesis txs_ok : epoch_txs_ok txs head.
Hypothesis workers_ok : forall c, (c < 64)%nat -> between table (s c) /\ Serval_epoch_ (s c) = E.
Local Abbreviation h0 := (handed_ e0).
Local Abbreviation f0 := (before e0).
Local Abbreviation A c L := (A E W h0 f0 c L None false (fun _ => True)).

Definition pre (c : nat) (e : SEnv) : Prop := A c (fun _ => []) e /\ all_present W e.
Definition post (c : nat) (r : list OperationSet * Serval) (e : SEnv) : Prop :=
  exists L, ((forall a, ids (L a) = written_serials find table (assigned txs head (core_serials c)) a) /\
    all_installed find table L (assigned txs head (core_serials c)) r.1 /\ idle E table r.2) /\
    A c L e /\ all_present W e.

Lemma pre_start c : (c < 64)%nat -> pre c e0.
Proof.
  intros Hc. destruct start as (Hi & Hl & Hp & Hrows). split; [|done]. split; [|done].
  split_and!; [done|done|by rewrite Hl|]. intros a v Hv. destruct (Hrows a v Hv) as [Hh He].
  rewrite Hh. split; [done|]. unfold own. by rewrite (proj2 (Z.eqb_neq _ _)) by lia.
Qed.

Lemma pre_stable c : stable (R E W h0 f0 c) (pre c).
Proof.
  intros e e' [HA Hp] HR. split.
  - eapply (A_stable E W h0 f0 c); [apply KP_true|exact HA|exact HR].
  - destruct HA as [[Hi _] _]. destruct (HR Hi) as [Hi' Hk].
    apply (KM_all_present E W h0 f0 e); [done..|]. by eapply kept_grew.
Qed.

Lemma worker_rg c : (c < 64)%nat ->
  rg (R E W h0 f0 c) (G E W h0 f0 c) (pre c)
    (do_initialization_phase find rdtscp c table (Z.of_nat c) head (s c) txs) (post c).
Proof.
  intros Hc. pose proof txs_ok as (Hh & HN & Hroom & _).
  eapply rg_conseq; [apply (rg_initialization_phase E W h0 f0 room c find rdtscp table find_inj txs head (s c));
    try done; [by apply workers_ok| |by apply core_ready]|done|].
  { intros a. destruct Hroom as [Hn|Hroom]; [by left|right]. destruct (Hroom (Z.of_nat c) a) as (t & Ht & Hno); [lia|].
    exists t. split; [done|]. intros [Hw _]%elem_of_own_serials; done. }
  intros r e (L & (Hids & Hinst & Hid) & HA). by exists L.
Qed.

(** Once every worker is through. *)
Lemma all_posts e :
  (forall c, (c < 64)%nat -> exists r, post c r e) ->
  (forall a, is_Some (rows e !! a) <-> is_Some (rows e0 !! a)) -> epoch_initialized e0 e txs head.
Proof.
  intros Hpost Hdom. assert (Hi : Inv E W h0 f0 e).
  { destruct (Hpost 0%nat) as (r & L & _ & [[Hi _] _] & _); [lia|done]. }
  assert (Hown : forall a v x, rows e !! a = Some v -> epoch_ v = E ->
    x ∈ ids (row_history e v) <-> writes txs head x a).
  { intros a v x Hv He. split.
    - intros ([y p] & -> & Hin)%list_elem_of_fmap. simpl.
      pose proof (ri_serial _ _ _ _ _ _ (inv_row _ _ _ _ _ Hi a v Hv) He) as Hser.
      destruct Hser as [Hser _]. rewrite Forall_forall in Hser. pose proof (Hser _ Hin) as Hok. simpl in Hok.
      pose proof (serial_core_tx y Hok) as (Hc & _).
      destruct (Hpost (Z.to_nat (core_of y))) as (r & L & (Hids & _) & [[_ (_ & _ & HL)] _] & _); [lia|].
      destruct (HL a v Hv) as [_ HLa].
      apply (elem_of_own_serials txs head (Z.to_nat (core_of y)) a y txs_ok); [lia|].
      rewrite <- Hids, <- HLa. unfold own. rewrite (proj2 (Z.eqb_eq _ _) He).
      apply list_elem_of_fmap. exists (y, p). split; [done|]. apply list_elem_of_filter. split; [simpl; lia|done].
    - intros Hw. pose proof Hw as [[Hx _] _].
      assert (Hc : 0 <= core_of x < 64) by (unfold core_of; pose proof (Z.div_mod x 64);
        pose proof (Z.mod_pos_bound x 64); lia).
      destruct (Hpost (Z.to_nat (core_of x))) as (r & L & (Hids & _) & [[_ (_ & _ & HL)] _] & _); [lia|].
      destruct (HL a v Hv) as [_ HLa].
      assert (x ∈ ids (L a)) as Hin.
      { rewrite Hids. apply elem_of_own_serials; [done|lia|]. split; [done|lia]. }
      rewrite <- HLa in Hin. unfold own in Hin. rewrite (proj2 (Z.eqb_eq _ _) He) in Hin.
      apply list_elem_of_fmap in Hin as (q & -> & [_ Hq]%list_elem_of_filter). by apply list_elem_of_fmap_2. }
  assert (Htouched : forall a v x, rows e !! a = Some v -> writes txs head x a -> epoch_ v = E).
  { intros a v x Hv Hw. pose proof Hw as [[Hx _] _].
    assert (Hc : 0 <= core_of x < 64) by (unfold core_of; pose proof (Z.div_mod x 64);
      pose proof (Z.mod_pos_bound x 64); lia).
    destruct (Hpost (Z.to_nat (core_of x))) as (r & L & (Hids & _) & [[_ (_ & _ & HL)] _] & _); [lia|].
    destruct (HL a v Hv) as [_ HLa].
    assert (x ∈ ids (L a)) as Hin.
    { rewrite Hids. apply elem_of_own_serials; [done|lia|]. split; [done|lia]. }
    rewrite <- HLa in Hin. unfold own in Hin. destruct (Z.eqb_spec (epoch_ v) E); [done|].
    by apply not_elem_of_nil in Hin. }
  constructor; [done|done| | |].
  - assert (Hh : forall l, lock_ok 64 l -> (forall c, (c < 64)%nat -> holder l <> Some c) -> holder l = None).
    { intros l (_ & _ & Hl) Hne. destruct (holder l) as [c|]; [|done]. destruct Hl as [Hc _].
      by apply Hne in Hc. }
    split.
    + apply Hh; [apply Hi|]. intros c Hc. destruct (Hpost c Hc) as (r & L & _ & [[_ (_ & Hl & _)] _] & _).
      intros Heq. by apply Hl in Heq.
    + intros a v Hv. apply Hh; [by apply (ri_lock _ _ _ _ _ _ (inv_row _ _ _ _ _ Hi a v Hv))|].
      intros c Hc. destruct (Hpost c Hc) as (r & L & _ & [[_ (_ & _ & HL)] _] & _).
      destruct (HL a v Hv) as [Hhold _]. intros Heq. by apply Hhold in Heq.
  - intros a v Hv. pose proof (inv_row _ _ _ _ _ Hi a v Hv) as Hri. unfold epoch_history. rewrite Hv.
    destruct (Z.eqb_spec (epoch_ v) E) as [He|He].
    + split; [|by apply (ri_pending _ _ _ _ _ _ Hri)]. apply sorted_ext.
      * apply (row_history_ascending e). apply Hri.
      * apply sorted_filter, sorted_seqZ.
      * intros x. rewrite (Hown a v x Hv He), list_elem_of_filter, elem_of_seqZ.
        split; [|by intros [? _]]. intros Hw. split; [done|]. destruct Hw as [[? _] _]. lia.
    + split; [|constructor]. symmetry. destruct (filter _ _) as [|x l] eqn:Hf; [done|].
      assert (x ∈ filter (fun s => writes txs head s a) (seqZ 0 4096)) as Hin by (rewrite Hf; by left).
      apply list_elem_of_filter in Hin as [Hw _]. by destruct He; apply (Htouched a v x).
  - intros a v x Hv Hw. assert (epoch_ v = E) as He by (by eapply Htouched). split; [done|].
    pose proof (ri_master _ _ _ _ _ _ (inv_row _ _ _ _ _ Hi a v Hv)) as Hm. by rewrite decide_True in Hm.
Qed.

(** The pending versions handed to the operations are those the rows record. *)
Lemma post_installed c r e :
  (c < 64)%nat -> post c r e ->
  all_installed find table (epoch_history e) (assigned txs head (core_serials c)) r.1.
Proof.
  intros Hc (L & (_ & Hinst & _) & [[Hi (_ & _ & HL)] _] & Hp).
  assert (Hsub : forall a, a ∈ W -> L a ⊆ epoch_history e a).
  { intros a Ha x Hx. destruct (Hp a Ha) as [v Hv]. destruct (HL a v Hv) as [_ Hown].
    rewrite <- Hown in Hx. unfold own in Hx. unfold epoch_history. rewrite Hv.
    destruct (epoch_ v =? E); [|done]. by apply list_elem_of_filter in Hx as [_ Hx]. }
  apply (assigned_installed_mono find table W L); [done|by apply core_ready|done].
Qed.

(** No row appears or disappears. *)
Lemma steps_rows e1 e2 :
  Inv E W h0 f0 e1 -> steps (G E W h0 f0) e1 e2 -> forall a, is_Some (rows e2 !! a) <-> is_Some (rows e1 !! a).
Proof.
  intros Hi Hs. induction Hs as [|e1 e2 e3 [c HG] _ IH]; [done|]. intros a.
  destruct (HG Hi) as [Hi2 Hk]. rewrite (IH Hi2). destruct (Hk (S c) ltac:(lia)) as [K1 K2 _ _ _]. split.
  - destruct (rows e1 !! a) as [v|] eqn:Hv; [by eexists|]. rewrite K2 by done. by intros [].
  - intros [v Hv]. destruct (K1 a v Hv) as (v' & Hv' & _). by exists v'.
Qed.

Lemma run_workers sched :
  exists pool' e, run_schedule sched (workers txs head s) e0 = Ok (pool', e) /\
    length pool' = 64%nat /\ (forall c r, pool' !! c = Some (Ret r) -> post c r e) /\
    forall a, is_Some (rows e !! a) <-> is_Some (rows e0 !! a).
Proof.
  destruct (rg_parallel (R E W h0 f0) (G E W h0 f0) (R_refl E W h0 f0) (R_trans E W h0 f0)
    (fun i j e e' => G_R E W h0 f0 i j e e') (workers txs head s) pre post e0) with (sched := sched)
    as (pool' & e & Hrun & Hlen & Hsteps & Hpost).
  - intros c p Hp. unfold workers in Hp. rewrite list_lookup_fmap in Hp.
    apply fmap_Some in Hp as (c' & [-> Hc]%lookup_seq & ->).
    split_and!; [by apply pre_start|by apply pre_stable|by apply worker_rg].
  - exists pool', e. split_and!; [done| |done|].
    + rewrite Hlen. unfold workers. by rewrite length_fmap, length_seq.
    + apply (steps_rows e0 e); [apply start|done].
Qed.

(** The phase, from its start to its end. *)
Lemma initialization_phase_runs sched :
  exists pool' e, run_schedule sched (workers txs head s) e0 = Ok (pool', e) /\
    (all_done pool' -> epoch_initialized e0 e txs head) /\
    (forall c outs s', pool' !! c = Some (Ret (outs, s')) ->
       all_installed find table (epoch_history e) (assigned txs head (core_serials c)) outs /\
       between table s' /\ Serval_epoch_ s' = E).
Proof.
  destruct (run_workers sched)
    as (pool' & e & Hrun & Hlen & Hpost & Hdom). exists pool', e. split_and!; [done| |].
  - intros Hdone. apply all_posts; [|done]. intros c Hc.
    destruct (lookup_lt_is_Some_2 pool' c) as [p Hp]; [lia|]. unfold all_done in Hdone.
    rewrite Forall_lookup in Hdone. specialize (Hdone c p Hp). destruct p as [r| |]; [|done|done].
    exists r. by apply Hpost.
  - intros c outs s' Hc. split.
    + apply (post_installed c (outs, s') e); [|by apply Hpost].
      apply lookup_lt_Some in Hc. lia.
    + by destruct (Hpost c (outs, s') Hc) as (L & (_ & _ & Hb) & _).
Qed.
End Run.
End Phase.

(** C16. Serval's initialisation phase is correct under every interleaving: from
    the start of an epoch, whatever schedule the 64 workers run under, no
    assertion fails, nothing dangling is touched and no exception is thrown;
    once the workers are through, all latches are free, each row records for
    the epoch exactly the serials of the transactions that write it, in
    ascending order and with fresh PENDING versions, the master version of a
    written row is the final state before the epoch, and every update operation
    holds the version recorded in its row under its transaction's serial; the
    worker's write set is empty again and its epoch unchanged.  Assumed: at most 64
    transactions per core, regions for all rows that are ever written and, unless
    [NDEBUG], no row that all 64 transactions of a core write: for such a row the
    assertion in [PerCoreVersionArray::append] (row_region.hpp, line 209) would fail. *)
Theorem serval_initialization_phase `{BuildConfig} find rdtscp table E W txs head (s : nat -> Serval) e0
  (find_inj : forall k1 k2 a, is_key k1 -> is_key k2 ->
     find table k1 = Some a -> find table k2 = Some a -> k1 = k2)
  (start : epoch_start E W e0)
  (room : Z.of_nat (size (list_to_set (handed_ e0) ∪ W)) <= NUM_REGIONS)
  (txs_ok : epoch_txs_ok find table W txs head)
  (workers_ok : forall c, (c < 64)%nat -> between table (s c) /\ Serval_epoch_ (s c) = E) :
  forall sched, exists pool' e,
    run_schedule sched (workers find rdtscp table txs head s) e0 = Ok (pool', e) /\
    (all_done pool' -> epoch_initialized find table E W e0 e txs head) /\
    (forall c outs s', pool' !! c = Some (Ret (outs, s')) ->
       all_installed find table (epoch_history E e) (assigned txs head (core_serials c)) outs /\
       between table s' /\ Serval_epoch_ s' = E).
Proof.
  intros sched. by apply (initialization_phase_runs find rdtscp table find_inj E W txs head s e0).
Qed.
