(* ===== verification/ServalEpoch.v ===== *)
(** * ServalEpoch: a whole epoch of Serval

    The read of a key finds the version of the last transaction before it that
    writes the key ([find_visible_eq]); so the execution phase that follows the
    initialisation phase returns what a serial execution would, and leaves the
    database at the start of the next epoch. *)
From Stdlib Require Import FunctionalExtensionality.
From S2P Require Import Prelude Bitmap Schema Ycsb Conc Fair RWLock Memory Txs Execution Epoch Termination ServalRow Serval ServalInit ServalPhase.

(** ** Reading a row *)
Section Read.
Context `{BuildConfig}.
Import GlobalVersionArray.

(** What [read] needs to know about a row and its region. *)
Definition row_readable (e : SEnv) (v : Value) : Prop :=
  global_ok (global_array_ v) /\
  match row_region_ v with
  | None => True
  | Some g => ids_slots_ (global_array_ v) = [] /\ exists r, pool e !! g = Some r /\ region_ok r
  end.

Definition found (v : Value) (h : option (Z * ptr)) : ptr * bool :=
  match h with Some (_, p) => (p, true) | None => (master_ v, false) end.

Lemma search_visible_eq g s :
  ascending (ids_slots_ g) -> Forall (fun p => 0 <= p.1 < 4096) (ids_slots_ g) ->
  ids_slots_ g <> [] ->
  search_visible_version g s = Ok (match visible_before s (ids_slots_ g) with
                                   | Some (x, p) => (true, x, p) | None => (false, 0, None) end).
Proof.
  intros Ha Hr Hne. unfold search_visible_version. destruct (ids_slots_ g) as [|q l] eqn:Hl; [done|].
  destruct (Z.leb_spec s q.1) as [Hle|Hlt].
  - assert (visible_before s (q :: l) = None) as ->; [|done]. apply visible_before_None.
    constructor; [done|]. apply ascending_cons in Ha as [_ Hq]. eapply Forall_impl; [exact Hq|]. simpl. lia.
  - rewrite <- Hl in *. rewrite upper_bound_visible by done.
    destruct (visible_before_lookup s (ids_slots_ g) Ha) as [Hv|Hf].
    + assert (Hin : q ∈ filter (fun p : Z * ptr => p.1 < s) (ids_slots_ g)).
      { apply list_elem_of_filter. split; [done|]. rewrite Hl. by left. }
      destruct (length (filter _ _)) as [|n] eqn:Hlen.
      { apply nil_length_inv in Hlen. rewrite Hlen in Hin. by apply not_elem_of_nil in Hin. }
      simpl in Hv. destruct (visible_before s (ids_slots_ g)) as [[x p]|] eqn:Hvb.
      * rewrite Hv. simpl. assert (0 <= x < 4096) by (rewrite Forall_forall in Hr; by apply (Hr (x, p)), (list_elem_of_lookup_2 _ n)).
        by rewrite u64_small by lia.
      * apply visible_before_None in Hvb. rewrite Forall_forall in Hvb. specialize (Hvb q). rewrite Hl in Hvb.
        specialize (Hvb ltac:(by left)). lia.
    + assert (q ∈ filter (fun p : Z * ptr => p.1 < s) (ids_slots_ g)) as Hin.
      { apply list_elem_of_filter. split; [done|]. rewrite Hl. by left. }
      rewrite Hf in Hin. by apply not_elem_of_nil in Hin.
Qed.

Lemma find_visible_eq (s : Serval) a v (e : SEnv) :
  rows e !! a = Some v -> row_readable e v ->
  ascending (row_history e v) -> 
  (epoch_ v = Serval_epoch_ s -> Forall (fun p => 0 <= p.1 < 4096) (row_history e v)) ->
  0 <= serial_id_ s < 4096 -> core_ s = serial_id_ s / 64 ->
  find_visible s a e
  = Ok (found v (if epoch_ v =? Serval_epoch_ s then visible_before (serial_id_ s) (row_history e v) else None), e).
Proof.
  intros Hv [Hg Hr] Ha Hb Hs Hc. unfold find_visible, load_row, derefM, getM, mbind, M_bind, lift, deref. rewrite Hv. cbn.
  destruct (Z.eqb_spec (epoch_ v) (Serval_epoch_ s)) as [He|He]; [|done]. specialize (Hb He). cbn.
  unfold assertM at 1, lift. rewrite assert_true by done. cbn.
  unfold is_dirty. destruct (bool_decide_reflect (ids_slots_ (global_array_ v) = [])) as [Hz|Hz]; cbn.
  - unfold row_history in *. destruct (row_region_ v) as [g|] eqn:Hreg.
    + destruct Hr as (_ & r & Hp & Hok). rewrite (row_region_dirty e v g r) by done. rewrite Hp in *. cbn in *.
      unfold RowRegion.is_dirty. destruct (Z.eqb_spec (RowRegion.core_bitmap_ r) 0) as [Hbm|Hbm]; cbn.
      * unfold region_history. by rewrite Hbm, (proj2 (positions_nil 0 ltac:(done)) eq_refl).
      * unfold load_region, getM, derefM, mbind, M_bind, lift, deref. rewrite Hp. cbn.
        pose proof (identify_visible r (core_ s) (get_tx_serial (serial_id_ s)) Hok Hbm) as Hid.
        unfold get_tx_serial in *. pose proof (Z.mod_pos_bound (serial_id_ s) 64). pose proof (Z.div_mod (serial_id_ s) 64).
        rewrite Hc in Hid. replace (serial_id_ s / 64 * 64 + serial_id_ s mod 64) with (serial_id_ s) in Hid by lia.
        rewrite Hc. specialize (Hid ltac:(lia) ltac:(lia)).
        destruct (visible_before (serial_id_ s) (region_history r)) as [[x p]|] eqn:Hvb; cbn in Hid.
        -- destruct Hid as (-> & _ & _ & Hx & a' & Ha' & Hget). cbn.
           apply visible_before_spec in Hvb as (_ & Hlt & _); [|done]. cbn in Hlt.
           unfold assertM, lift. rewrite assert_true by bool_lia. cbn. rewrite Ha'. cbn. by rewrite Hget.
        -- by rewrite Hid.
    + unfold has_dirty_region. rewrite Hreg. cbn. by rewrite Hz.
  - unfold row_history in *. destruct (row_region_ v) as [g|] eqn:Hreg; [by destruct Hr|].
    rewrite i32_small by lia. rewrite search_visible_eq by done.
    destruct (visible_before (serial_id_ s) (ids_slots_ (global_array_ v))) as [[x p]|] eqn:Hvb; cbn; [|done].
    apply visible_before_spec in Hvb as (_ & Hlt & _); [|done]. cbn in Hlt.
    unfold assertM, lift. by rewrite assert_true by bool_lia.
Qed.

End Read.

(** ** The execution phase is that of [Execution] *)
Section Programs.
Context `{BuildConfig}.
Context (find : Z -> Z -> option addr) (rdtscp : SEnv -> Z) (schema : Schema) (table : Z).

(** How worker [c]'s [i]-th transaction reads a key. *)
Definition serval_read (s : Serval) (c : nat) (i key : Z) : prog SEnv ptr :=
  read find rdtscp (with_serial s (i * 64 + Z.of_nat c) i) table key.

Lemma execute_ops_eq s ops :
  execute_ops find rdtscp schema table s ops = run_ops schema table (read find rdtscp s table) ops.
Proof.
  induction ops as [|op ops IH]; [done|]. cbn [execute_ops run_ops]. rewrite IH. by destruct (ope_ op).
Qed.

Lemma execution_phase_eq c head n s0 txs : forall i s,
  (forall x y, with_serial s x y = with_serial s0 x y) ->
  do_execution_phase_from find rdtscp schema table (Z.of_nat c) head i n s txs
  = run_txs schema table (serval_read s0 c) (fun i => head + round_robin_serial c i) txs i n.
Proof.
  induction n as [|n IH]; intros i s Hs; [done|]. cbn [do_execution_phase_from run_txs].
  assert (head + round_robin_serial c i = head + i * 64 + Z.of_nat c) as -> by (unfold round_robin_serial; lia).
  unfold tx_at. rewrite Hs. unfold mbind, prog_mbind.
  f_equal. apply functional_extensionality. intros _. f_equal. apply functional_extensionality. intros tx.
  rewrite execute_ops_eq. f_equal. apply functional_extensionality. intros r.
  by rewrite (IH (i + 1)).
Qed.
End Programs.

(** ** Reads see the visible version *)
Section Reads.
Context `{BuildConfig}.
Context (find : Z -> Z -> option addr) (rdtscp : SEnv -> Z) (table : Z).
Context (E : Z) (W : gset addr) (h0 : list addr) (f0 : addr -> ptr * ptr) (e1 : SEnv).
Hypothesis inv : Inv E W h0 f0 e1.

Lemma row_facts a v :
  rows e1 !! a = Some v ->
  row_readable e1 v /\ ascending (row_history e1 v) /\
  (epoch_ v = E -> Forall (fun p => 0 <= p.1 < 4096) (row_history e1 v)).
Proof.
  intros Hv. pose proof (inv_row _ _ _ _ _ inv a v Hv) as Hri. pose proof (ri_ok _ _ _ _ _ _ Hri) as Hok.
  split; [split; [apply (row_global e1 v Hok)|apply (row_region e1 v Hok)]|].
  split; [by apply (row_history_ascending e1)|]. intros He.
  by destruct (ri_serial _ _ _ _ _ _ Hri He).
Qed.

Lemma find_visible_now (s : Serval) a v (e : SEnv) :
  XInv e1 e -> rows e1 !! a = Some v -> Serval_epoch_ s = E ->
  0 <= serial_id_ s < 4096 -> core_ s = serial_id_ s / 64 ->
  find_visible s a e = Ok (found v (visible_before (serial_id_ s) (epoch_history E e1 a)), e).
Proof.
  intros Hx Hv He Hs Hc. destruct (row_facts a v Hv) as (Hr & Ha & Hb).
  assert (Hh : row_history e v = row_history e1 v) by (unfold row_history; by rewrite (x_pool _ _ Hx)).
  rewrite (find_visible_eq s a v e); try done.
  - rewrite Hh, He. unfold epoch_history. rewrite Hv. by destruct (epoch_ v =? E).
  - by rewrite (x_rows _ _ Hx).
  - unfold row_readable. by rewrite (x_pool _ _ Hx).
  - by rewrite Hh.
  - rewrite Hh, He. done.
Qed.

Lemma rg_execute_read o c p T :
  collectable e1 p ->
  rg (RX e1 o c) (GX e1 o c) (todo e1 o c T) (act (execute_read (Some p)))
    (fun r e => todo e1 o c T e /\ exists x, r = Some x /\ holds e p x).
Proof.
  intros Hp. apply rg_look.
  - intros r. apply monotone_exists. intros x. apply monotone_and; [apply monotone_pure|apply monotone_holds].
  - intros e Hx. destruct (collectable_holds e1 e p Hx Hp) as [x (v & Hv & Hs & Hr)].
    exists (Some x), e. split_and!; try done.
    + unfold execute_read, assertM, load_version, derefM, mbind, M_bind, lift, deref, getM. rewrite assert_true by done.
      cbn. rewrite Hv. cbn. by rewrite Hr.
    + exists x. split; [done|]. by exists v.
Qed.

Lemma serval_reads_visible (s : nat -> Serval) n :
  (n <= 64)%nat -> (forall c, (c < 64)%nat -> Serval_epoch_ (s c) = E) ->
  reads_visible find table e1 (epoch_history E e1) (master_of e1) n (fun c => serval_read find rdtscp table (s c) c).
Proof.
  intros Hn Hs o c i key a T Hc Hi Hfind [v Hv]. unfold serval_read, read. rewrite Hfind.
  pose proof (inv_row _ _ _ _ _ inv a v Hv) as Hri.
  eapply rg_bind with (Q := fun r e => r = found v (visible_before (round_robin_serial c i) (epoch_history E e1 a)) /\ todo e1 o c T e).
  { eapply rg_conseq; [apply (rg_look e1 o c _ T (fun r _ => r = found v (visible_before (round_robin_serial c i) (epoch_history E e1 a))))|done|by intros r e [? ?]].
    { intros r. apply monotone_pure. }
    intros e Hx. eexists _, e. split; [|done]. unfold round_robin_serial.
    apply (find_visible_now (with_serial (s c) (i * 64 + Z.of_nat c) i)); cbn; try done; [by apply Hs|lia|].
    apply (Z.div_unique _ 64 i (Z.of_nat c)); lia. }
  intros [p w]; cbn beta iota. apply rg_pure.
  unfold visible. destruct (visible_before _ (epoch_history E e1 a)) as [[s' q]|] eqn:Hvb; cbn [found].
  - intros [= -> ->]. apply visible_before_spec in Hvb as (Hin & _).
    + unfold epoch_history in Hin. rewrite Hv in Hin. destruct (Z.eqb_spec (epoch_ v) E) as [He|He]; [|by apply not_elem_of_nil in Hin].
      pose proof (ri_pending _ _ _ _ _ _ Hri He) as Hp. rewrite Forall_forall in Hp. specialize (Hp _ Hin).
      destruct q as [q|]; [|done]. apply rg_wait_and_read. by left.
    + unfold epoch_history. rewrite Hv. destruct (epoch_ v =? E); [|constructor]. by destruct (row_facts a v Hv) as (_ & ? & _).
  - intros [= -> ->]. pose proof (row_master _ _ (ri_ok _ _ _ _ _ _ Hri)) as Hm. unfold master_of. rewrite Hv.
    destruct (master_ v) as [q|]; [|done]. by apply rg_execute_read.
Qed.

(** ... and end: [find_visible], then at most four more steps. *)
Lemma serval_reads_end (s : nat -> Serval) txs2 head n :
  (n <= 64)%nat -> (forall c, (c < 64)%nat -> Serval_epoch_ (s c) = E) ->
  reads_end find table e1 (epoch_history E e1) (master_of e1) txs2 head n (fun c => serval_read find rdtscp table (s c) c) 5.
Proof.
  intros Hn Hs c i key a A k T K Hc Hi Hfind [v Hv] q w Hq HT HK. unfold serval_read, read. rewrite Hfind.
  change (5 + k)%nat with (S (4 + k)). apply within_act. intros e [p b] e' Hx He.
  assert (Hr : Ok ((p, b), e') = Ok (found v (visible_before (round_robin_serial c i) (epoch_history E e1 a)), e)).
  { rewrite <- He. unfold round_robin_serial.
    apply (find_visible_now (with_serial (s c) (i * 64 + Z.of_nat c) i)); cbn; try done; [by apply Hs|lia|].
    apply (Z.div_unique _ 64 i (Z.of_nat c)); lia. }
  injection Hr as Hf ->. split; [done|]. revert Hf. subst q. unfold visible, master_of in *. rewrite Hv in *.
  pose proof (inv_row _ _ _ _ _ inv a v Hv) as Hri. pose proof (row_master _ _ (ri_ok _ _ _ _ _ _ Hri)) as Hm.
  destruct (visible_before _ (epoch_history E e1 a)) as [[s' q]|] eqn:Hvb; cbn [found].
  - intros [= -> ->]. assert (is_Some q) as [q' ->].
    { apply visible_before_spec in Hvb as (Hin & _).
      + unfold epoch_history in Hin. rewrite Hv in Hin. destruct (Z.eqb_spec (epoch_ v) E) as [He'|He']; [|by apply not_elem_of_nil in Hin].
        pose proof (ri_pending _ _ _ _ _ _ Hri He') as Hp. rewrite Forall_forall in Hp. specialize (Hp _ Hin). by destruct q.
      + unfold epoch_history. rewrite Hv. destruct (epoch_ v =? E); [|constructor]. by destruct (row_facts a v Hv) as (_ & ? & _). }
    by apply within_wait_and_read.
  - intros [= -> ->]. destruct (master_ v) as [q'|]; [|done]. eapply (within_le _ _ _ (S k)); [lia|].
    apply within_act_last. intros e2 r e2' _ Hr. split; [|apply HK]. revert Hr.
    unfold execute_read, assertM, lift, mbind, M_bind. destruct (assert_ _) as [[]|]; [|done]. cbn.
    destruct (load_version _ e2) as [[x e3]|] eqn:Hl; [|done]. cbn. intros [= _ <-].
    by apply load_version_same in Hl as [-> _].
Qed.
End Reads.

(** ** A row's versions have one serial each *)
Section Serials.
Context `{BuildConfig}.

Lemma concat_lookup_inj {A} (ll : list (list A)) i j l1 l2 k1 k2 x :
  NoDup (concat ll) -> ll !! i = Some l1 -> ll !! j = Some l2 -> l1 !! k1 = Some x -> l2 !! k2 = Some x ->
  i = j /\ k1 = k2.
Proof.
  revert i j. induction ll as [|l ll IH]; intros i j Hnd Hi Hj H1 H2; [done|]. cbn in Hnd.
  apply NoDup_app in Hnd as (Hl & Hdisj & Hnd).
  assert (Hin : forall m l' k, ll !! m = Some l' -> l' !! k = Some x -> x ∈ concat ll).
  { intros m l' k Hm Hk. apply list_elem_of_In, in_concat. exists l'. split; apply list_elem_of_In; by eapply list_elem_of_lookup_2. }
  destruct i as [|i], j as [|j]; simplify_eq/=.
  - split; [done|]. by apply (NoDup_lookup l1 k1 k2 x).
  - exfalso. apply (Hdisj x); [by eapply list_elem_of_lookup_2|by eapply Hin].
  - exfalso. apply (Hdisj x); [by eapply list_elem_of_lookup_2|by eapply Hin].
  - destruct (IH i j) as [-> ->]; done.
Qed.

Lemma region_history_inj r s1 s2 p :
  NoDup (region_ptrs r) -> (s1, p) ∈ region_history r -> (s2, p) ∈ region_history r -> s1 = s2.
Proof.
  intros Hnd (c1 & Hc1 & H1)%elem_of_region_history (c2 & Hc2 & H2)%elem_of_region_history.
  apply elem_of_positions in Hc1 as [Hc1 _], Hc2 as [Hc2 _].
  apply elem_of_core_history in H1 as (a1 & i1 & t1 & A1 & T1 & S1 & ->).
  apply elem_of_core_history in H2 as (a2 & i2 & t2 & A2 & T2 & S2 & ->).
  destruct (concat_lookup_inj _ (Z.to_nat c1) (Z.to_nat c2) (PerCoreVersionArray.slots_ a1) (PerCoreVersionArray.slots_ a2) i1 i2 p Hnd)
    as [Hc ->]; try done.
  { by rewrite list_lookup_fmap, A1. } { by rewrite list_lookup_fmap, A2. }
  assert (c1 = c2) as -> by lia. by simplify_eq.
Qed.

Lemma row_history_inj (e : SEnv) v s1 s2 p :
  row_ok e v -> (s1, p) ∈ row_history e v -> (s2, p) ∈ row_history e v -> s1 = s2.
Proof.
  intros [_ Hr Hnd _ _ _]. unfold row_history, row_ptrs, region_of in *.
  apply NoDup_cons in Hnd as [_ Hnd]. apply NoDup_app in Hnd as (Hg & _ & Hreg).
  destruct (row_region_ v) as [g|]; simpl in *.
  - destruct Hr as (_ & r & Hp & _). rewrite Hp in *. simpl in *. by apply region_history_inj.
  - intros [i1 H1]%list_elem_of_lookup [i2 H2]%list_elem_of_lookup.
    assert (i1 = i2) as -> by (apply (NoDup_lookup _ _ _ p Hg); rewrite list_lookup_fmap, ?H1, ?H2; done).
    congruence.
Qed.
End Serials.

(** ** After the initialisation phase *)
Section Ready.
Context `{BuildConfig}.
Context (find : Z -> Z -> option addr) (table : Z) (E : Z) (W : gset addr).
Context (txs : list OperationSet) (head : Z) (e0 e1 : SEnv).
Local Abbreviation N := NUM_TXS_IN_ONE_EPOCH_IN_ONE_CORE.

(** The transactions can also be executed: every operation's key is in the
    index, and the updates are the operations in the write set. *)
Definition epoch_txs_known (e : SEnv) : Prop :=
  forall s tx, in_epoch s -> txs !! Z.to_nat (head + s) = Some tx -> well_formed tx /\
    forall op, op ∈ rw_set_ tx -> is_key (index_ op) /\ exists a, find table (index_ op) = Some a /\ is_Some (rows e !! a).

(** The transactions with their pending versions, once the workers are through. *)
Definition initialized_txs (pool : list (prog SEnv (list OperationSet * Serval))) : list OperationSet :=
  store_outputs txs head (serial_outputs core_serials (pool_outputs pool)).

Lemma elem_of_epoch s : N = 64 -> in_epoch s <-> s ∈ seqZ 0 4096.
Proof. unfold in_epoch. intros ->. rewrite elem_of_seqZ. pose proof (Z.mod_pos_bound s 64). lia. Qed.

Lemma phase_ready pool :
  epoch_txs_ok find table W txs head -> N = 64 -> epoch_txs_known e0 ->
  epoch_initialized find table E W e0 e1 txs head ->
  length pool = 64%nat -> all_done pool ->
  (forall c outs s', pool !! c = Some (Ret (outs, s')) ->
     all_installed find table (epoch_history E e1) (assigned txs head (core_serials c)) outs) ->
  epoch_ready find table W e1 (epoch_history E e1) (master_of e1) txs (initialized_txs pool) head 64.
Proof.
  intros Hok HN Hknown [Hi Hdom _ Hhist _] Hlen Hdone Hinst.
  pose proof Hok as (Hh & HN' & _ & _).
  assert (Hex : forall s, executes 64 s -> in_epoch s).
  { intros s Hs. apply elem_of_epoch; [done|]. unfold executes in Hs. apply elem_of_seqZ. lia. }
  constructor.
  - apply Hi.
  - done.
  - intros s Hs%Hex. pose proof Hs as [Hs64 _].
    assert (Hc : s ∈ core_serials (Z.to_nat (core_of s))).
    { unfold core_serials, core_of. rewrite HN. apply elem_of_seqZ. pose proof (Z.div_mod s 64). pose proof (Z.mod_pos_bound s 64). lia. }
    destruct (pool_installed_stored find table W (epoch_history E e1) txs head core_serials pool)
      with (c := Z.to_nat (core_of s)) (s := s) as (tx & out & Htx & Hout & Happ & Hin); try done.
    + intros c Hc64. by apply (core_ready find table W).
    + intros c x. unfold core_serials. rewrite elem_of_seqZ. lia.
    + intros c. apply sorted_NoDup, sorted_seqZ.
    + intros c d x Hc1 Hd1. unfold core_serials. rewrite HN, !elem_of_seqZ. lia.
    + unfold core_of. pose proof (Z.div_mod s 64). pose proof (Z.mod_pos_bound s 64). lia.
    + exists tx, out. destruct (Hknown s tx Hs Htx) as [Hwf Hkeys]. split_and!; try done.
      intros op Hop. destruct (Hkeys op Hop) as (Hk & a & Ha & Hr). split; [done|]. exists a. split; [done|]. by apply Hdom.
  - intros a [v Hv]. destruct (Hhist a v Hv) as [Hids _]. rewrite Hids. apply sorted_ext; [apply sorted_filter, sorted_seqZ..|].
    intros x. rewrite !list_elem_of_filter. unfold writes. change (64 * Z.of_nat 64) with 4096.
    rewrite elem_of_epoch by done. tauto.
  - intros a s p [v Hv] Hin. destruct (Hhist a v Hv) as [_ Hp]. rewrite Forall_forall in Hp. specialize (Hp _ Hin).
    destruct p as [q|]; [|done]. by exists q.
  - intros a1 a2 s1 s2 p [v1 Hv1] [v2 Hv2] H1 H2. unfold epoch_history in *. rewrite Hv1 in H1. rewrite Hv2 in H2.
    destruct (epoch_ v1 =? E); [|by apply not_elem_of_nil in H1]. destruct (epoch_ v2 =? E); [|by apply not_elem_of_nil in H2].
    pose proof (ri_ok _ _ _ _ _ _ (inv_row _ _ _ _ _ Hi a1 v1 Hv1)) as Hok1.
    pose proof (ri_ok _ _ _ _ _ _ (inv_row _ _ _ _ _ Hi a2 v2 Hv2)) as Hok2.
    destruct (decide (a1 = a2)) as [->|Hne].
    + split; [done|]. assert (v2 = v1) as -> by congruence. by eapply row_history_inj.
    + exfalso. apply (inv_disjoint _ _ _ _ _ Hi a1 a2 v1 v2 p Hne Hv1 Hv2); by eapply history_ptrs.
  - intros a [v Hv]. unfold master_of. rewrite Hv.
    pose proof (row_master _ _ (ri_ok _ _ _ _ _ _ (inv_row _ _ _ _ _ Hi a v Hv))) as Hm.
    destruct (master_ v) as [q|]; [|done]. by exists q.
Qed.

(** ** After the execution phase *)
Lemma phase_over e2 :
  epoch_initialized find table E W e0 e1 txs head -> XInv e1 e2 -> all_present W e0 ->
  (forall a q, is_Some (rows e1 !! a) -> q ∈ epoch_history E e1 a -> collectable_ptr e2 q.2) ->
  epoch_start (E + 1) W e2.
Proof.
  intros [Hi Hdom [Hlk Hlatches] _ _] Hx HW Hcol. pose proof Hi as [I1 I2 I3 I4 I5 I6 I7 I8].
  pose proof Hx as [X1 X2 X3 X4 X5 X6 X7].
  assert (Hptrs : forall v, row_ptrs e2 v = row_ptrs e1 v) by (intros v; unfold row_ptrs, region_of; by rewrite X3).
  assert (Hhist : forall v, row_history e2 v = row_history e1 v) by (intros v; unfold row_history; by rewrite X3).
  assert (Hlive : forall p, live_ptr e1 p -> live_ptr e2 p).
  { intros [p|]; [|done]. intros [v Hv]. specialize (X7 p). rewrite Hv in X7. inversion X7 as [? w|]; subst. by exists w. }
  assert (Hc : forall p, collectable_ptr e1 p -> collectable_ptr e2 p).
  { intros [p|]; [|done]. intros Hp. destruct (collectable_holds e1 e2 p Hx Hp) as (x & v & ? & ? & ?). by exists v, x. }
  assert (Hrow : forall a v, rows e1 !! a = Some v -> row_ok e2 v).
  { intros a v Hv. destruct (ri_ok _ _ _ _ _ _ (I7 a v Hv)) as [O1 O2 O3 O4 O5 O6]. constructor.
    - done.
    - by rewrite X3.
    - by rewrite Hptrs.
    - rewrite Hptrs. eapply Forall_impl; [exact O4|]. apply Hlive.
    - by apply Hc.
    - intros r core. unfold region_of. rewrite X3. intros Hr Hcore.
      eapply Forall_impl; [by apply (O6 r core)|]. apply Hc. }
  split_and!; [|by rewrite X5| |].
  - constructor; try congruence.
    + rewrite X6. destruct I4 as (new & _ & Hnd & _). exists []. rewrite app_nil_r. by repeat split.
    + intros g r. rewrite X3, X2. apply I6.
    + intros a v Hv. pose proof Hv as Hv1. rewrite X2 in Hv1. destruct (I7 a v Hv1) as [R1 R2 R3 R4 R5 R6 R7 R8 R9 R10].
      constructor; try lia.
      * by apply (Hrow a).
      * done.
      * intros _. unfold row_final. rewrite Hhist. destruct (decide (epoch_ v = E)) as [He|He].
        -- apply Forall_forall. intros q Hq. apply (Hcol a); [by eexists|]. unfold epoch_history.
           by rewrite Hv1, (proj2 (Z.eqb_eq _ _) He).
        -- eapply Forall_impl; [apply R4; lia|]. intros q. apply Hc.
      * rewrite X6. apply R7.
      * rewrite X6. intros Hn Hin. by apply R8.
      * rewrite decide_False by lia. unfold before, final_of, master_of. by rewrite Hv.
    + intros a b v w p. rewrite X2, !Hptrs. apply I8.
  - intros a Ha. unfold present. rewrite X2. apply Hdom. by apply HW.
  - intros a v. rewrite X2. intros Hv. split; [by apply (Hlatches a)|].
    pose proof (ri_epoch _ _ _ _ _ _ (I7 a v Hv)). lia.
Qed.
End Ready.

(** ** The epochs of a run *)
Section Program.
Context `{BuildConfig}.
Context (find : Z -> Z -> option addr) (rdtscp : SEnv -> Z) (schema : Schema) (table : Z).
Local Abbreviation N := NUM_TXS_IN_ONE_EPOCH_IN_ONE_CORE.
Local Abbreviation rows_of_epoch := (rows_of_epoch find table).
Local Abbreviation writer_before := (writer_before find table).

Definition executors (txs : list OperationSet) (head : Z) (s : nat -> Serval) : list (prog SEnv (list (list ptr))) :=
  (fun c => do_execution_phase find rdtscp schema table (Z.of_nat c) head (s c) txs) <$> seq 0 64.

(** [serval.epoch_ = epoch], and the workers' objects after a phase. *)
Definition at_epoch (E : Z) (s : Serval) : Serval := mkServal (core_ s) (serial_id_ s) E (ws s) (tables s).
Definition objects (s : nat -> Serval) (pool : list (prog SEnv (list OperationSet * Serval))) (c : nat) : Serval :=
  match pool !! c ≫= result with Some r => r.2 | None => s c end.

(** What every worker sees between two epochs: the transactions, its object, the shared state. *)
Record State := mkState { st_txs : list OperationSet; st_serval : nat -> Serval; st_env : SEnv }.
Definition head_of (E : Z) : Z := (E - 1) * NUM_TXS_IN_ONE_EPOCH.

(** One turn of the loop of [run_tx]: both phases, each closed by a barrier. *)
Inductive epoch_step (E : Z) : State -> State -> Prop :=
| epoch_runs txs s e sched pool e1 sched' pool' e2 :
    run_schedule sched (workers find rdtscp table txs (head_of E) (fun c => at_epoch E (s c))) e = Ok (pool, e1) ->
    all_done pool ->
    run_schedule sched' (executors (initialized_txs txs (head_of E) pool) (head_of E) (objects (fun c => at_epoch E (s c)) pool)) e1
      = Ok (pool', e2) ->
    all_done pool' ->
    epoch_step E (mkState txs s e) (mkState (initialized_txs txs (head_of E) pool) (objects (fun c => at_epoch E (s c)) pool) e2).
Inductive reaches (init : State) : Z -> State -> Prop :=
| reaches_first : reaches init 1 init
| reaches_next E st st' : reaches init E st -> E <= NUM_EPOCH -> epoch_step E st st' -> reaches init (E + 1) st'.

(** The version of a row that the transactions before the first writer of the
    epoch read.  If some transaction of the epoch writes the row, it is the
    row's final state: [initialize_the_row] makes that the new master version.
    If none does, it is the master version as it stands: the state that the row
    had before the last epoch that wrote it, not the state that epoch left
    ([untouched_row_reads_master]), although the comment above that branch of
    [Serval::read] says that it reads the final state of the previous epoch. *)
Definition shown_before (txs : list OperationSet) (head : Z) (e : SEnv) (a : addr) : ptr :=
  if decide (a ∈ rows_of_epoch txs head) then final_of e a else master_of e a.

(** ** One epoch *)
Section One.
Hypothesis find_inj : forall k1 k2 a, is_key k1 -> is_key k2 ->
  find table k1 = Some a -> find table k2 = Some a -> k1 = k2.
Context (E : Z) (txs : list OperationSet) (head : Z) (s : nat -> Serval) (e0 : SEnv).
Local Abbreviation W := (rows_of_epoch txs head).

Record epoch_input : Prop := {
  in_start : epoch_start E W e0;
  in_size : N = 64;
  in_writes : NDEBUG = true \/ write_room find table txs head;
  in_head : 0 <= head;
  in_txs : forall x, 0 <= x < 4096 -> exists tx, txs !! Z.to_nat (head + x) = Some tx /\
             runnable find table (fun a => is_Some (rows e0 !! a)) tx;
  in_room : Z.of_nat (size (list_to_set (handed_ e0) ∪ W)) <= NUM_REGIONS;
  in_workers : forall c, (c < 64)%nat -> between table (s c) /\ Serval_epoch_ (s c) = E;
  in_table : exists size, get_record_size schema table = Ok size
}.
Hypothesis input : epoch_input.

Lemma input_txs_ok : epoch_txs_ok find table W txs head.
Proof.
  destruct input as [_ HN Hwr Hh Htxs _ _ _]. split; [done|]. split; [lia|]. split; [done|].
  intros x [Hx _]. destruct (Htxs x Hx) as (tx & Htx & Hrun). exists tx. split; [done|].
  eapply runnable_appendable; [done|]. intros a Ha. apply elem_of_rows_of_epoch. exists x.
  split; [done|]. unfold writes_row. by rewrite Htx.
Qed.

Lemma input_known : epoch_txs_known find table txs head e0.
Proof.
  intros x tx [Hx _] Htx. destruct (in_txs input x Hx) as (tx' & Htx' & Hrun). assert (tx' = tx) as -> by congruence.
  split; [by eapply runnable_well_formed|apply Hrun].
Qed.

(** The base version, in terms of the state before the epoch. *)
Lemma master_shown e1 a v :
  epoch_initialized find table E W e0 e1 txs head -> rows e1 !! a = Some v ->
  master_of e1 a = shown_before txs head e0 a.
Proof.
  intros [Hi _ _ _ Hm] Hv. unfold shown_before. case_decide as Ha.
  - apply elem_of_rows_of_epoch in Ha as (x & Hx & Hw).
    destruct (Hm a v x Hv) as [_ Hma]; [|unfold master_of at 1; by rewrite Hv].
    split; [|done]. apply elem_of_epoch; [by apply input|]. apply elem_of_seqZ. lia.
  - pose proof (inv_row _ _ _ _ _ Hi a v Hv) as Hri. pose proof (ri_master _ _ _ _ _ _ Hri) as Hma.
    rewrite decide_False in Hma by (intros He; by apply Ha, (ri_written _ _ _ _ _ _ Hri)).
    unfold master_of at 1. rewrite Hv. by destruct Hma as [_ ->].
Qed.

(** The final state of a row after the epoch: the last write, if there is one. *)
Definition final_after (txs2 : list OperationSet) (e2 : SEnv) : Prop :=
  forall key a, is_key key -> find table key = Some a -> is_Some (rows e0 !! a) ->
    match writer_before txs head 4096 a with
    | Some x => exists p, final_of e2 a = Some p /\ written_by txs2 head x key p
    | None => final_of e2 a = final_of e0 a
    end.

(** The master version of a row after the epoch is the version its readers were
    shown: with [final_after], the two versions of a row that the next epoch
    reads are determined by the epochs before it. *)
Definition masters_after (e2 : SEnv) : Prop :=
  forall a, is_Some (rows e0 !! a) -> master_of e2 a = shown_before txs head e0 a.

Lemma ready_base e1 txs2 hist n :
  epoch_ready find table W e1 hist (master_of e1) txs txs2 head n ->
  (forall a, is_Some (rows e1 !! a) -> master_of e1 a = shown_before txs head e0 a) ->
  epoch_ready find table W e1 hist (shown_before txs head e0) txs txs2 head n.
Proof.
  intros [R1 R2 R3 R4 R5 R6 R7] Hb. constructor; try done. intros a Ha. rewrite <- Hb by done. by apply R7.
Qed.

Lemma epoch_over e1 e2 pool :
  epoch_initialized find table E W e0 e1 txs head ->
  epoch_ready find table W e1 (epoch_history E e1) (shown_before txs head e0) txs (initialized_txs txs head pool) head 64 ->
  XInv e1 e2 -> final_after (initialized_txs txs head pool) e2.
Proof.
  intros Hinit Hready Hx key a Hkey Hf Ha.
  pose proof Hinit as [Hi Hdom _ _ _]. apply Hdom in Ha as [v Hv].
  pose proof (history_last find table W e1 (epoch_history E e1) (shown_before txs head e0) txs (initialized_txs txs head pool) head 64
    find_inj Hready a key ltac:(by eexists) Hkey Hf) as Hl. change (64 * Z.of_nat 64) with 4096 in Hl.
  assert (Hfin : final_of e2 a = final_state e1 v).
  { unfold final_of, final_state, row_history. rewrite (x_rows _ _ Hx), Hv. unfold final_state, row_history. by rewrite (x_pool _ _ Hx). }
  pose proof (inv_row _ _ _ _ _ Hi a v Hv) as Hri. pose proof (ri_master _ _ _ _ _ _ Hri) as Hm.
  unfold epoch_history in Hl. rewrite Hv in Hl.
  destruct (writer_before txs head 4096 a) as [x|].
  - destruct Hl as (p & Hl & Hw). exists p. split; [|done]. destruct (epoch_ v =? E); [|done].
    rewrite Hfin. unfold final_state. by rewrite Hl.
  - rewrite Hfin. destruct (Z.eqb_spec (epoch_ v) E) as [He|He].
    + rewrite decide_True in Hm by done. unfold final_state. by rewrite Hl.
    + rewrite decide_False in Hm by done. by destruct Hm as [-> _].
Qed.

(** After the initialisation phase everything is ready for the execution phase. *)
Lemma phase_handover sched :
  exists pool e1, run_schedule sched (workers find rdtscp table txs head s) e0 = Ok (pool, e1) /\
    (all_done pool -> epoch_initialized find table E W e0 e1 txs head /\
      (forall c, (c < 64)%nat -> between table (objects s pool c) /\ Serval_epoch_ (objects s pool c) = E) /\
      epoch_ready find table W e1 (epoch_history E e1) (master_of e1) txs (initialized_txs txs head pool) head 64).
Proof.
  destruct (initialization_phase_runs find rdtscp table find_inj E W txs head s e0 (in_start input) (in_room input)
    input_txs_ok (in_workers input) sched) as (pool & e1 & Hrun & Hdone & Hinst).
  exists pool, e1. split; [done|].
  assert (Hlen : length pool = 64%nat) by (rewrite (run_schedule_length _ _ _ _ _ Hrun); unfold workers; by rewrite length_fmap, length_seq).
  intros Hd. pose proof (Hdone Hd) as Hinit. split; [done|]. split.
  - intros c Hc. unfold objects. destruct (lookup_lt_is_Some_2 pool c) as [p Hp]; [lia|]. rewrite Hp. cbn.
    unfold all_done in Hd. rewrite Forall_lookup in Hd. specialize (Hd c p Hp). destruct p as [[outs s']| |]; [|done|done].
    cbn. by destruct (Hinst c outs s' Hp).
  - apply (phase_ready find table E W txs head e0 e1 pool); try done; [apply input_txs_ok|apply input|apply input_known|].
    intros c outs s' Hc. by apply (Hinst c outs s').
Qed.

Lemma executors_eq txs2 s2 : executors txs2 head s2
  = execution_workers schema table (fun c => serval_read find rdtscp table (s2 c) c) txs2 head 64.
Proof.
  unfold executors, execution_workers. apply list_fmap_ext. intros _ c _. unfold do_execution_phase.
  rewrite (in_size input). by apply execution_phase_eq.
Qed.

(** Both phases run, whatever the schedules. *)
Lemma epoch_runs_serially sched :
  exists pool e1, run_schedule sched (workers find rdtscp table txs head s) e0 = Ok (pool, e1) /\
    (all_done pool -> (forall c, (c < 64)%nat -> between table (objects s pool c)) /\
     same_operations txs (initialized_txs txs head pool) head 64 /\ forall sched',
     exists pool' e2, run_schedule sched' (executors (initialized_txs txs head pool) head (objects s pool)) e1 = Ok (pool', e2) /\
       (forall c rss, pool' !! c = Some (Ret rss) -> length rss = 64%nat) /\
       (forall c rss k rs, pool' !! c = Some (Ret rss) -> rss !! k = Some rs ->
          reads_serial find table (shown_before txs head e0) txs (initialized_txs txs head pool) head e2
            (round_robin_serial c (Z.of_nat k)) rs) /\
       (all_done pool' -> epoch_start (E + 1) W e2 /\ (final_after (initialized_txs txs head pool) e2 /\ masters_after e2) /\
          (forall a, is_Some (rows e2 !! a) <-> is_Some (rows e0 !! a)) /\
          exists new, handed_ e2 = handed_ e0 ++ new /\ Forall (fun a => a ∈ W) new)).
Proof.
  destruct (phase_handover sched) as (pool & e1 & Hrun & Hdone). exists pool, e1. split; [done|]. intros Hd.
  destruct (Hdone Hd) as (Hinit & Hobj & Hready). split; [by apply Hobj|].
  set (s2 := objects s pool) in *. split; [by eapply ready_same_operations|]. intros sched'.
  destruct (epoch_execution find table W e1 (epoch_history E e1) (master_of e1) txs (initialized_txs txs head pool) head 64
    find_inj Hready schema (fun c => serval_read find rdtscp table (s2 c) c) sched' (in_table input))
    as (pool' & e2 & Hrun' & Hx & Hlen' & Hcount & Hreads & Hover).
  { apply (serval_reads_visible find rdtscp table E W (handed_ e0) (before e0)); [apply Hinit|lia|by apply Hobj]. }
  exists pool', e2. rewrite executors_eq. split; [done|]. split; [done|]. split.
  - intros c rss k rs Hc Hk. pose proof (Hreads c rss k rs Hc Hk) as Hr. unfold reads_serial in *.
    pose proof (lookup_lt_Some _ _ _ Hc) as Hclt. 
    eapply Forall2_impl; [exact Hr|]. intros key r (a & p & x & Hf & -> & Hx' & Hv). exists a, p, x. split_and!; [done|done|done|].
    destruct (writer_before txs head _ a); [done|]. rewrite <- Hv. symmetry.
    unfold master_of in Hv. destruct (rows e1 !! a) as [v|] eqn:Hrow; [|done]. by apply (master_shown e1 a v).
  - intros Hd'. split_and!.
    + apply (phase_over find table E W txs head e0 e1 e2); [done|done|apply (in_start input)|by apply Hover].
    + apply (epoch_over e1 e2 pool); [done| |done]. apply ready_base; [done|].
      intros a [v Hv]. by apply (master_shown e1 a v).
    + intros a Ha. apply (ei_rows _ _ _ _ _ _ _ _ Hinit) in Ha as [v Hv]. rewrite <- (master_shown e1 a v) by done.
      unfold master_of. by rewrite (x_rows _ _ Hx).
    + intros a. rewrite (x_rows _ _ Hx). apply Hinit.
    + rewrite (x_handed _ _ Hx). destruct (inv_handed _ _ _ _ _ (ei_inv _ _ _ _ _ _ _ _ Hinit)) as (new & -> & _ & Hall).
      by exists new.
Qed.

(** The execution phase ends under every fair schedule. *)
Lemma execution_ends sched pool e1 rounds :
  run_schedule sched (workers find rdtscp table txs head s) e0 = Ok (pool, e1) -> all_done pool ->
  Forall (fair 64) rounds -> (2 * phase_work txs head 64 5 <= length rounds)%nat ->
  exists pool' e2, run_schedule (concat rounds) (executors (initialized_txs txs head pool) head (objects s pool)) e1 = Ok (pool', e2) /\
    all_done pool'.
Proof.
  intros Hrun Hd Hfair Hlen. destruct (phase_handover sched) as (pool1 & e1' & Hrun' & Hdone).
  rewrite Hrun in Hrun'. symmetry in Hrun'. injection Hrun' as -> ->. destruct (Hdone Hd) as (Hinit & Hobj & Hready).
  rewrite executors_eq. apply (ready_phase_finishes find table W e1 (epoch_history E e1) (master_of e1) txs _ head 64
    find_inj Hready schema (fun c => serval_read find rdtscp table (objects s pool c) c)) with (cost := 5%nat);
    [apply input| |lia| |done|].
  - apply (serval_reads_visible find rdtscp table E W (handed_ e0) (before e0)); [apply Hinit|lia|by apply Hobj].
  - apply (serval_reads_end find rdtscp table E W (handed_ e0) (before e0)); [apply Hinit|lia|by apply Hobj].
  - rewrite (same_work txs); [done|by eapply ready_same_operations].
Qed.
End One.

(** ** Any number of epochs *)
Section Epochs.
Hypothesis find_inj : forall k1 k2 a, is_key k1 -> is_key k2 ->
  find table k1 = Some a -> find table k2 = Some a -> k1 = k2.
Context (init : State) (W : gset addr).

(** The start of the program: a loaded database, the transactions of all epochs
    over its keys, regions for all the rows [W] that they write; an epoch has
    64 transactions per core, and in a debug build each core has in every epoch,
    for every row, a transaction that does not write it. *)
Record program_ok : Prop := {
  pg_size : NUM_TXS_IN_ONE_EPOCH = 4096;
  pg_writes : NDEBUG = true \/ forall E, 1 <= E <= NUM_EPOCH -> write_room find table (st_txs init) (head_of E);
  pg_start : epoch_start 1 ∅ (st_env init) /\ handed_ (st_env init) = [];
  pg_txs : forall x, 0 <= x < NUM_EPOCH * 4096 -> exists tx, st_txs init !! Z.to_nat x = Some tx /\
             runnable find table (fun a => is_Some (rows (st_env init) !! a)) tx /\
             forall a, a ∈ rows_written find table (rw_set_ tx) (w_set_ tx) -> a ∈ W;
  pg_room : Z.of_nat (size W) <= NUM_REGIONS;
  pg_workers : forall c, (c < 64)%nat -> between table (st_serval init c);
  pg_table : exists size, get_record_size schema table = Ok size
}.
Hypothesis ok : program_ok.

Lemma epoch_start_rows E W1 W2 e : epoch_start E W1 e -> (forall a, a ∈ W2 -> present a e) -> epoch_start E W2 e.
Proof.
  intros ([I1 I2 I3 (new & Hnew & Hnd & _) I5 I6 I7 I8] & Hl & _ & Hr) HW. split; [|by split_and!].
  constructor; try done.
  - exists []. rewrite app_nil_r. by repeat split.
  - intros a v Hv. destruct (I7 a v Hv) as [R1 R2 R3 R4 R5 R6 R7 R8 R9 R10]. destruct (Hr a v Hv) as [_ Hlt].
    constructor; try done. lia.
Qed.

(** What holds at the start of every epoch that is reached. *)
Record boundary (E : Z) (st : State) : Prop := {
  bd_epoch : 1 <= E <= NUM_EPOCH + 1;
  bd_start : epoch_start E ∅ (st_env st);
  bd_handed : forall a, a ∈ handed_ (st_env st) -> a ∈ W;
  bd_rows : forall a, is_Some (rows (st_env st) !! a) <-> is_Some (rows (st_env init) !! a);
  bd_txs : forall x, head_of E <= x < NUM_EPOCH * 4096 -> st_txs st !! Z.to_nat x = st_txs init !! Z.to_nat x;
  bd_workers : forall c, (c < 64)%nat -> between table (st_serval st c)
}.

Lemma core_count : N = 64.
Proof. unfold NUM_TXS_IN_ONE_EPOCH_IN_ONE_CORE. by rewrite (pg_size ok). Qed.
Lemma head_eq E : head_of E = (E - 1) * 4096.
Proof. unfold head_of. by rewrite (pg_size ok). Qed.

Lemma boundary_tx E st x :
  boundary E st -> E <= NUM_EPOCH -> 0 <= x < 4096 -> exists tx, st_txs st !! Z.to_nat (head_of E + x) = Some tx /\
    runnable find table (fun a => is_Some (rows (st_env init) !! a)) tx /\
    forall a, a ∈ rows_written find table (rw_set_ tx) (w_set_ tx) -> a ∈ W.
Proof.
  intros Hb HE Hx. rewrite head_eq. rewrite (bd_txs E st Hb) by (rewrite head_eq; lia).
  apply (pg_txs ok). pose proof (bd_epoch E st Hb). lia.
Qed.

Lemma boundary_written E st a :
  boundary E st -> E <= NUM_EPOCH -> a ∈ rows_of_epoch (st_txs st) (head_of E) ->
  a ∈ W /\ is_Some (rows (st_env st) !! a).
Proof.
  intros Hb HE (x & Hx & Hw)%elem_of_rows_of_epoch. destruct (boundary_tx E st x Hb HE Hx) as (tx & Htx & Hrun & HW).
  unfold writes_row in Hw. rewrite Htx in Hw. split; [by apply HW|]. apply (bd_rows E st Hb).
  apply list_elem_of_omap in Hw as (j & _ & Hj). unfold op_row in Hj. destruct (rw_set_ tx !! j) as [op|] eqn:Hop; [|done].
  destruct Hrun as [_ Hkeys]. destruct (Hkeys op) as (_ & a' & Hf & Hr); [by eapply list_elem_of_lookup_2|].
  simpl in Hj. by assert (a' = a) as -> by congruence.
Qed.

Lemma boundary_input E st :
  boundary E st -> E <= NUM_EPOCH ->
  epoch_input E (st_txs st) (head_of E) (fun c => at_epoch E (st_serval st c)) (st_env st).
Proof.
  intros Hb HE. pose proof Hb as [B1 B2 B3 B4 B5 B6]. constructor.
  - apply (epoch_start_rows E ∅); [done|]. intros a Ha. by apply (boundary_written E st a).
  - apply core_count.
  - destruct (pg_writes ok) as [Hn|Hw]; [by left|right]. intros c a Hc. destruct (Hw E ltac:(lia) c a Hc) as (t & Ht & Hno).
    exists t. split; [done|]. intros [Hin Hwr]. apply Hno. split; [done|]. destruct Hin as [Hin _].
    unfold writes_row in *. by rewrite B5 in Hwr by (rewrite head_eq; lia).
  - rewrite head_eq. lia.
  - intros x Hx. destruct (boundary_tx E st x Hb HE Hx) as (tx & Htx & [Hset Hkeys] & _). exists tx. split; [done|].
    split; [done|]. intros op Hop. destruct (Hkeys op Hop) as (? & a & ? & ?). split; [done|]. exists a. split; [done|].
    by apply B4.
  - assert (list_to_set (handed_ (st_env st)) ∪ rows_of_epoch (st_txs st) (head_of E) ⊆ W) as Hsub%subseteq_size.
    { intros a [Ha%elem_of_list_to_set|Ha]%elem_of_union; [by apply B3|]. by eapply boundary_written. }
    pose proof (pg_room ok). lia.
  - intros c Hc. split; [by apply B6|done].
  - apply ok.
Qed.

(** An epoch leads to the next. *)
Lemma boundary_next E txs s e sched pool e1 sched' pool' e2 :
  boundary E (mkState txs s e) -> E <= NUM_EPOCH ->
  run_schedule sched (workers find rdtscp table txs (head_of E) (fun c => at_epoch E (s c))) e = Ok (pool, e1) -> all_done pool ->
  run_schedule sched' (executors (initialized_txs txs (head_of E) pool) (head_of E) (objects (fun c => at_epoch E (s c)) pool)) e1
    = Ok (pool', e2) -> all_done pool' ->
  boundary (E + 1) (mkState (initialized_txs txs (head_of E) pool) (objects (fun c => at_epoch E (s c)) pool) e2).
Proof.
  intros Hb HE Hrun Hdone Hrun' Hdone'.
  pose proof (boundary_input E _ Hb HE) as Hin. cbn [st_txs st_serval st_env] in *.
  destruct (epoch_runs_serially find_inj E txs (head_of E) _ e Hin sched) as (pool1 & e1' & Heq & Hrest).
  rewrite Hrun in Heq. simplify_eq. destruct (Hrest Hdone) as (Hobj & _ & Hexec).
  destruct (Hexec sched') as (pool2 & e2' & Heq & _ & _ & Hover). rewrite Hrun' in Heq. simplify_eq.
  destruct (Hover Hdone') as (Hst & _ & Hdom & new & Hh & Hnew). pose proof Hb as [B1 B2 B3 B4 B5 B6].
  constructor; cbn [st_txs st_serval st_env] in *.
  + lia.
  + apply (epoch_start_rows (E + 1) _ ∅ _ Hst). intros a Ha. by apply not_elem_of_empty in Ha.
  + rewrite Hh. intros a [Ha|Ha]%elem_of_app; [by apply B3|]. rewrite Forall_forall in Hnew.
    by destruct (boundary_written E (mkState txs s e) a Hb HE (Hnew a Ha)).
  + intros a. rewrite Hdom. apply B4.
  + rewrite head_eq in *. intros x Hx. rewrite <- B5 by lia. unfold initialized_txs. apply store_outputs_ne.
    apply Forall_forall. intros [y out] (c & outs & k & Hc & Hy & _)%elem_of_serial_outputs. simpl.
    apply list_elem_of_lookup_2 in Hy. unfold core_serials in Hy. rewrite core_count, elem_of_seqZ in Hy.
    assert (Hlen : length pool1 = 64%nat) by (rewrite (run_schedule_length _ _ _ _ _ Hrun); unfold workers; by rewrite length_fmap, length_seq).
    apply lookup_lt_Some in Hc. unfold pool_outputs in Hc. rewrite length_fmap in Hc. rewrite head_eq. lia.
  + done.
Qed.

Lemma reaches_boundary E st : reaches init E st -> boundary E st.
Proof.
  induction 1 as [|E st st' Hr IH HE Hstep].
  - destruct (pg_start ok) as [Hs Hh]. constructor; try done; [rewrite Hh; by intros a ?%not_elem_of_nil|apply ok].
  - destruct Hstep. by eapply boundary_next.
Qed.
End Epochs.
End Program.

(** C5. Serval executes every epoch serially over what its rows show: from a
    loaded database, in every epoch that is reached, whatever schedules the two
    phases run under, no dangling pointer is followed, nothing is thrown and (in
    a debug build) no assertion fails; each read by the transaction with serial
    number [s] of a row that the epoch writes returns the last write before [s]
    in the epoch and, if there is none, the row's final state before the epoch;
    each read of a row that the epoch does not write returns the row's master
    version as it stands.  After the epoch the final state of every row is the
    last version written to it, and its master version is the one the epoch's
    readers were shown: hence for a row the epoch wrote the final state before
    the epoch.  So reads of rows the epoch does not write are one writing epoch
    behind; the comment in [Serval::read] calls what they return the final state
    of the previous epoch.  Assumed ([program_ok]): 4096 transactions per epoch,
    at most NUM_REGIONS rows that are ever written, and, unless [NDEBUG], no row
    that all 64 transactions of a core write in one epoch. *)
Theorem serval_executes_serially `{BuildConfig} find rdtscp schema table init W
  (find_inj : forall k1 k2 a, is_key k1 -> is_key k2 ->
     find table k1 = Some a -> find table k2 = Some a -> k1 = k2)
  (ok : program_ok find schema table init W) :
  forall E txs s e, reaches find rdtscp schema table init E (mkState txs s e) -> E <= NUM_EPOCH ->
  let head := head_of E in
  let sE := fun c => at_epoch E (s c) in
  forall sched, exists pool e1,
    run_schedule sched (workers find rdtscp table txs head sE) e = Ok (pool, e1) /\
    (all_done pool ->
     let txs' := initialized_txs txs head pool in
     forall sched', exists pool' e2,
       run_schedule sched' (executors find rdtscp schema table txs' head (objects sE pool)) e1 = Ok (pool', e2) /\
       (forall c rss k rs, pool' !! c = Some (Ret rss) -> rss !! k = Some rs ->
          reads_serial find table (shown_before find table txs head e) txs txs' head e2
            (round_robin_serial c (Z.of_nat k)) rs) /\
       (all_done pool' -> final_after find table txs head e txs' e2 /\ masters_after find table txs head e e2)).
Proof.
  intros E txs s e Hr HE head sE sched.
  pose proof (reaches_boundary find rdtscp schema table find_inj init W ok E _ Hr) as Hb.
  pose proof (boundary_input find schema table init W ok E _ Hb HE) as Hin.
  destruct (epoch_runs_serially find rdtscp schema table find_inj E txs head sE e Hin sched)
    as (pool & e1 & Hrun & Hrest). exists pool, e1. split; [done|]. intros Hd txs' sched'.
  destruct (Hrest Hd) as (_ & _ & Hexec). destruct (Hexec sched') as (pool' & e2 & Hrun' & _ & Hreads & Hover).
  exists pool', e2. split; [done|]. split; [done|]. intros Hd'. by apply Hover.
Qed.

(** A row that the epoch has not written yet is read through its master
    version, and that is not the row's final state while the row has a history: the last
    version written in the previous epochs is not what such a read returns. *)
Theorem untouched_row_reads_master `{BuildConfig} (s : Serval) a v (e : SEnv)
  (Hv : rows e !! a = Some v) (Hok : row_ok e v) (He : epoch_ v <> Serval_epoch_ s) (Hh : row_history e v <> []) :
  find_visible s a e = Ok (found v None, e) /\ found v None = (master_ v, false) /\
  exists s' p, last (row_history e v) = Some (s', p) /\ final_state e v = p /\ master_ v <> p.
Proof.
  split; [|split; [done|]].
  - unfold find_visible, load_row, derefM, getM, mbind, M_bind, lift, deref. rewrite Hv. cbn.
    by rewrite (proj2 (Z.eqb_neq _ _) He).
  - destruct (last (row_history e v)) as [[s' p]|] eqn:Hl; [|by apply last_None in Hl].
    exists s', p. split; [done|]. split; [unfold final_state; by rewrite Hl|]. intros Hm.
    assert (Hin : (s', p) ∈ row_history e v) by (apply last_Some in Hl as [l ->]; set_solver).
    pose proof (history_ptrs e v s' p Hok Hin) as Hp. destruct Hok as [_ Hr Hnd _ _ _].
    unfold row_ptrs in *. apply NoDup_cons in Hnd as [Hnm _]. apply Hnm.
    unfold row_history, region_of in *. destruct (row_region_ v) as [g|]; simpl in *.
    + destruct Hr as (_ & r & Hg & Hreg). rewrite Hg in *. simpl in *.
      apply elem_of_region_history in Hin as (c & Hc & Hin). apply elem_of_core_history in Hin as (arr & i & tx & Ha & _ & Hs & _).
      apply elem_of_app. right. rewrite Hm. apply elem_of_concat_fmap. exists arr. split; by eapply list_elem_of_lookup_2.
    + apply elem_of_app. left. rewrite Hm. apply list_elem_of_fmap. by exists (s', p).
Qed.
