(* ===== verification/ServalRun.v ===== *)
(** * ServalRun: the threads of [executables/ycsb_serval.cpp]

    [run_tx] is [Run.run_tx] with Serval's phases.  The two phases are correct
    on their own ([ServalEpoch]); a worker's initialisation phase depends on no
    transaction of another worker; so every interleaving of the 64 threads,
    barriers included, executes the epochs one after the other. *)
From Stdlib Require Import FunctionalExtensionality.
From S2P Require Import Prelude Schema Ycsb Conc Barrier Phases Memory Txs Run Execution Epoch ServalRow Serval ServalInit ServalPhase ServalEpoch.

Section Threads.
Context `{BuildConfig}.
Context (find : Z -> Z -> option addr) (rdtscp : SEnv -> Z) (schema : Schema) (table : Z).
Local Abbreviation N := NUM_TXS_IN_ONE_EPOCH_IN_ONE_CORE.

Definition initialization (c : nat) (head : Z) (s : Serval) (txs : list OperationSet) : prog SEnv (list OperationSet * Serval) :=
  do_initialization_phase find rdtscp c table (Z.of_nat c) head s txs.
Definition execution (c : nat) (head : Z) (s : Serval) (txs : list OperationSet) : prog SEnv (list (list ptr)) :=
  do_execution_phase find rdtscp schema table (Z.of_nat c) head s txs.

(** [run_tx], and the threads that [main] starts. *)
Definition run_tx : nat -> Serval -> prog (Shared SEnv (RunMemory (list (list ptr)))) Serval :=
  Run.run_tx at_epoch core_serials initialization execution.
Definition threads : (nat -> Serval) -> list (prog (Shared SEnv (RunMemory (list (list ptr)))) Serval) :=
  Run.threads at_epoch core_serials initialization execution.

(** ** A worker's initialisation phase and the others' transactions *)
Lemma initialization_ext c head txs txs' n : forall i s,
  (forall j, i <= j < i + Z.of_nat n -> txs !! Z.to_nat (head + Z.of_nat c * 64 + j) = txs' !! Z.to_nat (head + Z.of_nat c * 64 + j)) ->
  do_initialization_phase_from find rdtscp c table (Z.of_nat c) head i n s txs
  = do_initialization_phase_from find rdtscp c table (Z.of_nat c) head i n s txs'.
Proof.
  induction n as [|n IH]; intros i s Heq; [done|]. cbn [do_initialization_phase_from].
  assert (tx_at txs (head + Z.of_nat c * 64 + i) = tx_at txs' (head + Z.of_nat c * 64 + i)) as ->.
  { unfold tx_at, vector_at. by rewrite Heq by lia. }
  unfold mbind, prog_mbind. f_equal. apply functional_extensionality. intros tx. f_equal.
  apply functional_extensionality. intros [tx' s2]. rewrite (IH (i + 1)); [done|]. intros j Hj. apply Heq. lia.
Qed.

Lemma initialization_frame c d head o txs outs :
  N = 64 -> c <> d -> 0 <= head ->
  initialization c head o (store_outputs txs head (zip (core_serials d) outs)) = initialization c head o txs.
Proof.
  intros HN Hne Hh. unfold initialization, do_initialization_phase. apply initialization_ext. rewrite HN. intros j Hj.
  apply store_outputs_ne. apply Forall_forall. intros [x o'] Hx%elem_of_zip_l. simpl.
  unfold core_serials in Hx. rewrite HN, elem_of_seqZ in Hx. lia.
Qed.

(** ** What an epoch has done *)

(** The transactions are those of before with their pending versions; every
    transaction has read what a serial execution of the epoch reads, starting
    from the versions that [shown_before] gives; the rows end with their last
    version, and with the versions shown as their master versions. *)
Definition epoch_outcome (epoch : Z) (st st' : EpochState (E := SEnv) (Obj := Serval)) (ret : nat -> option (list (list ptr))) : Prop :=
  let head := head_of epoch in
  same_operations (ep_txs st) (ep_txs st') head 64 /\
  (forall c, (c < 64)%nat -> exists rss, ret c = Some rss /\ length rss = 64%nat /\
     forall k rs, rss !! k = Some rs ->
       reads_serial find table (shown_before find table (ep_txs st) head (ep_env st)) (ep_txs st) (ep_txs st') head (ep_env st')
         (round_robin_serial c (Z.of_nat k)) rs) /\
  final_after find table (ep_txs st) head (ep_env st) (ep_txs st') (ep_env st') /\
  masters_after find table (ep_txs st) head (ep_env st) (ep_env st').

Definition as_state (st : EpochState (E := SEnv) (Obj := Serval)) : State := mkState (ep_txs st) (ep_objects st) (ep_env st).

(** ** Every epoch is correct *)
Section Correct.
Hypothesis find_inj : forall k1 k2 a, is_key k1 -> is_key k2 ->
  find table k1 = Some a -> find table k2 = Some a -> k1 = k2.
Context (init : State) (W : gset addr).
Hypothesis ok : program_ok find schema table init W.
Local Abbreviation bnd := (fun E st => boundary table init W E (as_state st)).

Lemma boundary_objects E txs s s' e :
  (forall c, (c < 64)%nat -> s c = s' c) ->
  boundary table init W E (mkState txs s e) -> boundary table init W E (mkState txs s' e).
Proof.
  intros Heq [B1 B2 B3 B4 B5 B6]. constructor; try done. cbn in *. intros c Hc. rewrite <- Heq by done. by apply B6.
Qed.

Lemma initialized_eq epoch (st : EpochState (E := SEnv) (Obj := Serval)) rs e :
  ep_txs (initialized_state core_serials epoch st rs e) = initialized_txs (ep_txs st) (head_of epoch) (Ret <$> rs).
Proof.
  unfold initialized_state, initialized_txs, serial_outputs, pool_outputs. cbn [ep_txs]. f_equal. f_equal.
  rewrite <- list_fmap_compose, imap_fmap. done.
Qed.

Lemma objects_eq (s s' : nat -> Serval) (rs : list (list OperationSet * Serval)) c :
  (c < length rs)%nat -> objects s (Ret <$> rs) c = match rs !! c with Some r => r.2 | None => s' c end.
Proof.
  intros Hc. unfold objects. rewrite list_lookup_fmap. destruct (lookup_lt_is_Some_2 rs c Hc) as [r ->]. done.
Qed.

Lemma serval_epochs_correct :
  epoch_correct at_epoch core_serials initialization execution bnd epoch_outcome.
Proof.
  intros epoch st Hb HE sched.
  pose proof (boundary_input find schema table init W ok epoch (as_state st) Hb ltac:(lia)) as Hin.
  destruct (epoch_runs_serially find rdtscp schema table find_inj epoch _ _ _ _ Hin sched) as (pool & e1 & Hrun & Hrest).
  exists pool, e1. split; [exact Hrun|]. intros rs -> st1 sched'.
  assert (Hlen : length rs = 64%nat).
  { pose proof (run_schedule_length _ _ _ _ _ Hrun) as Hl. unfold workers in Hl.
    by rewrite !length_fmap, length_seq in Hl. }
  destruct (Hrest (all_done_results rs)) as (Hobj & Hsame & Hexec). destruct (Hexec sched') as (pool' & e2 & Hrun' & Hcount & Hreads & Hover).
  exists pool', e2.
  assert (Hpool : execution_pool execution epoch st1
    = executors find rdtscp schema table (initialized_txs (ep_txs st) (head_of epoch) (Ret <$> rs)) (head_of epoch)
        (objects (fun c => at_epoch epoch (ep_objects st c)) (Ret <$> rs))).
  { unfold execution_pool, executors, execution. apply list_fmap_ext. intros i c [-> Hc]%lookup_seq. unfold st1. rewrite initialized_eq.
    rewrite (objects_eq _ (ep_objects st)) by lia. done. }
  rewrite Hpool. split; [exact Hrun'|]. intros outs ->. destruct (Hover (all_done_results outs)) as (Hst & Hfin & Hdom & new & Hnew & HW).
  split.
  - apply (boundary_objects _ _ (objects (fun c => at_epoch epoch (ep_objects st c)) (Ret <$> rs))).
    { intros c Hc. apply objects_eq. lia. }
    unfold executed_state, st1. cbn [ep_txs ep_env]. rewrite initialized_eq.
    by apply (boundary_next find rdtscp schema table find_inj init W ok epoch _ _ (ep_env st) sched (Ret <$> rs) e1 sched' (Ret <$> outs) e2);
      try apply all_done_results; [destruct st|lia|..].
  - unfold epoch_outcome, executed_state, st1. cbn [ep_txs ep_env]. rewrite initialized_eq. split; [exact Hsame|]. split; [|exact Hfin].
    intros c Hc. assert (Hl : length outs = 64%nat).
    { pose proof (run_schedule_length _ _ _ _ _ Hrun') as Hl. unfold executors in Hl. by rewrite !length_fmap, length_seq in Hl. }
    destruct (lookup_lt_is_Some_2 outs c) as [rss Hrss]; [lia|].
    assert (Hret : (@Ret SEnv _ <$> outs) !! c = Some (Ret rss)) by (by rewrite list_lookup_fmap, Hrss).
    exists rss. split_and!; [done|by apply (Hcount c)|]. intros k rs'. by apply (Hreads c).
Qed.

Lemma core_serials_ok c s : s ∈ core_serials c -> 0 <= s.
Proof. unfold core_serials. rewrite elem_of_seqZ. lia. Qed.
Lemma core_serials_disjoint c d s : N = 64 -> c <> d -> s ∈ core_serials c -> s ∉ core_serials d.
Proof. intros HN Hne. unfold core_serials. rewrite HN, !elem_of_seqZ. lia. Qed.

Lemma serval_threads_run (st : EpochState) sched :
  as_state st = init ->
  exists pool' u, run_schedule sched (threads (ep_objects st)) (run_start st) = Ok (pool', u) /\
    (all_done pool' -> exists st', epochs_executed epoch_outcome (steps_of sched (threads (ep_objects st)) (run_start st)) st (returned_ (memory u)) (NUM_EPOCH + 1) st' /\
       ep_txs st' = txs_ (memory u) /\ ep_env st' = database u).
Proof.
  intros Hst. pose proof (core_count find schema table init W ok) as HN. pose proof (pg_size _ _ _ _ _ ok) as Hsize.
  destruct (threads_run_epochs at_epoch core_serials initialization execution core_serials_ok) with
    (boundary := fun E st => boundary table init W E (as_state st)) (outcome := epoch_outcome) (init := st) (sched := sched)
    (follows := steps_of sched (threads (ep_objects st)) (run_start st))
    as (pool' & u & Hrun & Hdone).
  - intros c d s _ _. by apply core_serials_disjoint.
  - by rewrite Hsize.
  - intros c d head o txs outs _ _. by apply initialization_frame.
  - rewrite Hst. apply (reaches_boundary find rdtscp schema table find_inj init W ok). constructor.
  - apply serval_epochs_correct.
  - apply steps_of_observed.
  - exists pool', u. split; [exact Hrun|]. intros Hd. destruct (Hdone Hd) as (st' & Hex & Htxs & Henv & _). by exists st'.
Qed.
End Correct.
End Threads.

(** C1. The 64 worker threads of [ycsb_serval] execute their epochs one after the
    other, each of them serially, under every interleaving of their atomic
    accesses to the rows, the regions, the latches and the barrier: from a loaded
    database no dangling pointer is followed, nothing is thrown and (in a debug
    build) no assertion fails.  When all threads have returned, every epoch has
    led from the state that the run had when the parent opened the barrier before
    it to the one that it had at the next such barrier, as follows.  Every
    transaction of the epoch has been executed; each of its reads of a row that
    the epoch writes returned the last write before it in serial order and, if
    there is none, the row's final state before the epoch; each of its reads of a
    row that the epoch does not write returned the row's master version, which is
    the state that the row had before the last epoch that wrote it.  (So such a
    read is one writing epoch behind a serial execution of all epochs, unlike what
    the comment in [Serval::read] says.)  Every row ended with the last version
    written to it, and a row that the epoch wrote has the final state before
    the epoch as its master version.  Assumed ([program_ok]): 4096 transactions
    per epoch, at most NUM_REGIONS rows that are ever written, and, unless
    [NDEBUG], no row that all 64 transactions of a core write in one epoch. *)
Theorem serval_threads_serializable `{BuildConfig} find rdtscp schema table (init : EpochState) W
  (find_inj : forall k1 k2 a, is_key k1 -> is_key k2 ->
     find table k1 = Some a -> find table k2 = Some a -> k1 = k2)
  (ok : program_ok find schema table (as_state init) W) :
  forall sched, exists pool' u,
    run_schedule sched (threads find rdtscp schema table (ep_objects init)) (run_start init) = Ok (pool', u) /\
    (all_done pool' -> exists st,
       epochs_executed (epoch_outcome find table) (steps_of sched (threads find rdtscp schema table (ep_objects init)) (run_start init))
         init (returned_ (memory u)) (NUM_EPOCH + 1) st /\
       ep_txs st = txs_ (memory u) /\ ep_env st = database u).
Proof. intros sched. by apply (serval_threads_run find rdtscp schema table find_inj (as_state init) W ok). Qed.
