(* ===== verification/ServalTermination.v ===== *)
(** * ServalTermination: Serval's epochs end

    The initialisation phase as a pool of threads that take latches
    ([Latches]): the work of a worker bounds its productive steps, and in its
    spin loops it waits for the latch of a row or of the region controller. *)
From S2P Require Import Prelude Schema Ycsb Conc Fair RWLock Latches Memory RowLatches Txs Execution Epoch Termination ServalRow Serval ServalInit ServalPhase ServalEpoch.

Section Initialization.
Context `{BuildConfig}.
Context (find : Z -> Z -> option addr) (rdtscp : SEnv -> Z) (me : nat) (table : Z).

Definition serval_latches : Latches SEnv :=
  row_latches rwl (fun l v => mkValue l (epoch_ v) (master_ v) (global_array_ v) (row_region_ v)).
Lemma serval_latches_ok : latches_ok serval_latches.
Proof. by apply row_latches_ok. Qed.

Local Abbreviation L := serval_latches.
Local Abbreviation K := 5%nat.
Local Abbreviation latw := (latw L K me).

(** ** The actions leave the latches alone *)
Lemma keeps_now : keeps (now rdtscp).
Proof. apply keeps_read. Qed.
#[local] Hint Resolve keeps_now : keeps.
Lemma keeps_add_wait t start : keeps (add_wait rdtscp t start).
Proof. unfold add_wait. keeping. Qed.
Lemma keeps_create : keeps create_pending_version.
Proof. unfold create_pending_version. keeping. Qed.
Lemma keeps_load_region g : keeps (load_region g).
Proof. unfold load_region, derefM. keeping. Qed.
Lemma keeps_store_region g r : keeps (store_region g r).
Proof. by apply keeps_modify. Qed.
#[local] Hint Resolve keeps_add_wait keeps_create keeps_load_region keeps_store_region : keeps.

Lemma keeps_region_append r core p tx : keeps (P := RowRegion.t) (R := Value) (RowRegion.append r core p tx).
Proof.
  unfold RowRegion.append, RowRegion.gc_and_initialize_tx_bitmap, PerCoreVersionArray.do_gc_and_initialize_tx_bitmap.
  keeping.
Qed.
#[local] Hint Resolve keeps_region_append : keeps.
Lemma keeps_append_contented s g : keeps (append_to_contented_row s g).
Proof. unfold append_to_contented_row. keeping. Qed.

Lemma quiet_append_unconted s val : quiet L (append_to_unconted_row s val).
Proof.
  unfold append_to_unconted_row. apply quiet_bind; [apply keeps_quiet; auto with keeps|]. intros p.
  apply quiet_load. intros v. do 2 (apply stores_bind; [keeping|intros ?]). apply stores_store_then; [done|]. intros _. keeping.
Qed.

Lemma quiet_move val g : quiet L (move_global_array_to_row_region val g).
Proof.
  unfold move_global_array_to_row_region. apply quiet_load. intros v. apply stores_bind; [|intros ?; by apply stores_store].
  keeping.
Qed.
Lemma quiet_install val g : quiet L (install_region val g).
Proof.
  unfold install_region. apply quiet_bind; [apply quiet_move|]. intros _. apply quiet_load. intros v. by apply stores_store.
Qed.

Lemma keeps_initialize v E : keeps (initialize_the_row v E).
Proof.
  unfold initialize_the_row, has_dirty_region, GlobalVersionArray.gc, GlobalVersionArray.minor_gc, gc_master_version. keeping.
Qed.
Lemma initialize_rwl v E e v' e' : initialize_the_row v E e = Ok (v', e') -> rwl v' = rwl v.
Proof.
  unfold initialize_the_row. intros (d & e1 & _ & H1)%bind_ok. apply bind_ok in H1 as ([] & e2 & _ & H1).
  apply bind_ok in H1 as (w & e3 & H1 & [= <- _]). cbn.
  assert (Hgc : forall x latest e e', gc_master_version x latest e = Ok (w, e') -> rwl w = rwl x).
  { intros x latest f f'. unfold gc_master_version. intros (? & ? & _ & G)%bind_ok. apply bind_ok in G as (? & ? & _ & G).
    apply bind_ok in G as (? & ? & _ & G). apply bind_ok in G as (? & ? & _ & [= <- _]). done. }
  destruct (GlobalVersionArray.is_dirty _).
  - apply bind_ok in H1 as ([] & ? & _ & H1). apply bind_ok in H1 as ([[? ?] ?] & ? & _ & H1).
    apply bind_ok in H1 as ([] & ? & _ & H1). apply bind_ok in H1 as (? & ? & _ & H1). by apply Hgc in H1.
  - destruct d; [|by injection H1 as ->]. apply bind_ok in H1 as (? & ? & _ & H1). apply bind_ok in H1 as (? & ? & _ & H1).
    apply bind_ok in H1 as ([[? ?] ?] & ? & _ & H1). apply bind_ok in H1 as (? & ? & _ & H1). apply bind_ok in H1 as (? & ? & _ & H1).
    by apply Hgc in H1.
Qed.
Lemma quiet_initialize val E : quiet L (v ← load_row val; v' ← initialize_the_row v E; store_row val v').
Proof.
  apply quiet_load. intros v. apply (stores_bind_with _ _ (fun v' => rwl v' = rwl v)); [apply keeps_initialize| |].
  - intros e v' e'. apply initialize_rwl.
  - intros v' Hv. by apply stores_store.
Qed.

(** ** The operations take few steps *)
Local Abbreviation lok := serval_latches_ok.

Ltac assoc := repeat first [rewrite mbind_prog | rewrite prog_bind_assoc].
Ltac lstep := assoc; apply latw_act_all; [apply keeps_quiet; keeping|intros ?].

Lemma latw_epoch_guard {A} s val n (F : unit -> prog SEnv A) :
  latw n [] (F tt) -> latw (6 + n) [] (prog_bind (epoch_guard rdtscp me s val) F).
Proof.
  intros HF. unfold epoch_guard. lstep. assoc. change (5 + n)%nat with (1 + (4 + n))%nat.
  apply latw_spin. cbn zeta.
  match goal with |- context [near L ?b K _ _] => set (body := b) end.
  assert (Hnear : forall s0, avail L [] s0 -> near L body 3 s0 (body tt)).
  { intros s0 Ha. unfold body at 2. unfold load_epoch. assoc. apply near_idle. intros s1 e s2 _ _. cbn beta.
    destruct (e <? Serval_epoch_ s); [|done]. assoc. apply (near_try_lock L lok me body [] s0 (Some val)); [done|cbn; lia]. }
  split.
  { intros s0 Ha. eapply near_more; [|apply near_again; by apply Hnear]. lia. }
  intros q -> Hagain. unfold body at 2. unfold load_epoch. assoc. apply turn_idle.
  { apply keeps_idle. keeping. }
  { intros s0 Ha. eapply near_more; [|specialize (Hnear s0 Ha); unfold body at 2, load_epoch in Hnear; revert Hnear; assoc; by intros Hnear]. lia. }
  intros e. cbn beta. destruct (e <? Serval_epoch_ s).
  - assoc. apply (turn_try_lock L lok K me ltac:(lia) body _ _ _ [] (Some val)); [cbn; lia| |exact Hagain].
    assoc. lstep. unfold load_epoch. lstep. 
    assoc. destruct (b1 <? Serval_epoch_ s).
    + apply (latw_act_all L K me _ _ (1 + n)%nat); [apply quiet_initialize|intros ?]. assoc.
      by apply (latw_unlock L lok K me (Some val)).
    + apply (latw_le L K me (1 + n)%nat); [lia|]. cbn. by apply (latw_unlock L lok K me (Some val)).
  - apply turn_leave. apply (latw_le L K me (1 + n)%nat); [lia|]. lstep. by match goal with u : unit |- _ => destruct u end.
Qed.

Lemma latw_fetch {A} val w n (F : nat -> prog SEnv A) :
  (forall g, latw n [Some w] (F g)) ->
  latw (3 + n) [Some w] (prog_bind (RowRegionController.fetch_new_region me val) F).
Proof.
  intros HF. unfold RowRegionController.fetch_new_region. assoc.
  apply (latw_lock L lok K me ltac:(lia) None); [cbn; lia|]. assoc.
  apply (latw_act_all L K me _ _ (1 + n)%nat); [apply keeps_quiet; unfold RowRegionController.take_region; keeping|intros g]. assoc.
  apply (latw_unlock L lok K me None). apply HF.
Qed.

Lemma latw_wait_region {A} val n (F : nat -> prog SEnv A) :
  (forall g, latw n [] (F g)) -> latw (10 + n) [] (prog_bind (wait_region_installation rdtscp me val) F).
Proof.
  intros HF. unfold wait_region_installation. lstep. assoc. change (9 + n)%nat with (1 + (8 + n))%nat.
  apply latw_spin. cbn zeta.
  match goal with |- context [near L ?b K _ _] => set (body := b) end.
  assert (Hnear : forall s0, avail L [] s0 -> near L body 3 s0 (body tt)).
  { intros s0 Ha. unfold body at 2. unfold load_row_region. assoc. apply near_idle. intros s1 r s2 _ _. cbn beta.
    destruct r; [done|]. assoc. apply (near_try_lock L lok me body [] s0 (Some val)); [done|cbn; lia]. }
  split.
  { intros s0 Ha. eapply near_more; [|apply near_again; by apply Hnear]. lia. }
  intros q -> Hagain. unfold body at 2. unfold load_row_region. assoc. apply turn_idle.
  { apply keeps_idle. keeping. }
  { intros s0 Ha. eapply near_more; [|specialize (Hnear s0 Ha); unfold body at 2, load_row_region in Hnear; revert Hnear; assoc; by intros Hnear]. lia. }
  intros r. cbn beta. destruct r as [r|].
  { apply turn_leave. apply (latw_le L K me (1 + n)%nat); [lia|]. lstep. apply HF. }
  assoc. apply (turn_try_lock L lok K me ltac:(lia) body _ _ _ [] (Some val)); [cbn; lia| |exact Hagain].
  assoc. lstep. unfold load_row_region. lstep.
  match goal with |- context [match ?x with Some _ => _ | None => _ end] => destruct x as [g|] end.
  - apply latw_bind_ret. assoc. apply (latw_le L K me (1 + n)%nat); [lia|]. apply (latw_unlock L lok K me (Some val)). apply HF.
  - assoc. lstep. apply (latw_fetch val val (2 + n)%nat). intros g. assoc.
    apply (latw_act_all L K me _ _ (1 + n)%nat); [apply quiet_install|intros ?]. assoc. apply latw_bind_ret. assoc.
    apply (latw_unlock L lok K me (Some val)). apply HF.
Qed.

Lemma latw_do_append {A} s val p n (F : ptr -> prog SEnv A) :
  (forall r, latw n [] (F r)) -> latw (21 + n) [] (prog_bind (do_append_pending_version rdtscp me s val p) F).
Proof.
  intros HF. unfold do_append_pending_version. lstep. assoc. apply (latw_epoch_guard s val (14 + n)%nat). lstep.
  assoc. apply (latw_try_lock L lok K me (Some val) _ (11 + n)%nat).
  - unfold load_row_region. apply (latw_le L K me (3 + n)%nat); [lia|]. lstep. assoc.
    match goal with |- context [match ?x with Some _ => _ | None => _ end] => destruct x as [g|] end; assoc.
    + apply (latw_act_all L K me _ _ (1 + n)%nat); [apply keeps_quiet, keeps_append_contented|intros r]. assoc.
      apply (latw_unlock L lok K me (Some val)). apply HF.
    + apply (latw_act_all L K me _ _ (1 + n)%nat); [apply quiet_append_unconted|intros r]. assoc.
      apply (latw_unlock L lok K me (Some val)). apply HF.
  - assoc. apply (latw_wait_region val (1 + n)%nat). intros g.
    apply (latw_act_all L K me _ _ n); [apply keeps_quiet, keeps_append_contented|apply HF].
Qed.

Lemma latw_append s key p n {A} (F : ptr * Serval -> prog SEnv A) :
  (forall r, latw n [] (F r)) -> latw (22 + n) [] (prog_bind (append_pending_version find rdtscp me s table key p) F).
Proof.
  intros HF. unfold append_pending_version. cbn zeta. case_decide.
  { apply (latw_le L K me (1 + n)%nat); [lia|]. lstep. apply HF. }
  destruct (find table key) as [val|].
  - assoc. apply (latw_do_append _ val p (1 + n)%nat). intros r. lstep. apply HF.
  - apply (latw_le L K me (1 + n)%nat); [lia|]. lstep. apply HF.
Qed.

Lemma latw_append_all ws : forall s ops n {A} (F : list Operation * Serval -> prog SEnv A),
  (forall r, latw n [] (F r)) -> latw (23 * length ws + n) [] (prog_bind (append_all find rdtscp me table s ops ws) F).
Proof.
  induction ws as [|j ws IH]; intros s ops n A F HF; cbn [append_all length]; [apply HF|].
  replace (23 * S (length ws) + n)%nat with (1 + (22 + (23 * length ws + n)))%nat by lia.
  lstep. assoc. apply latw_append. intros [p s']. by apply IH.
Qed.

(** The work of the transactions [l] in the initialisation phase. *)
Definition initialization_work (l : list OperationSet) : nat :=
  sum_list ((fun tx => 1 + 23 * length (w_set_ tx))%nat <$> l).

Lemma latw_initialization worker_id head txs l : forall i s n {A} (F : list OperationSet * Serval -> prog SEnv A),
  (forall k tx, l !! k = Some tx -> txs !! Z.to_nat (head + worker_id * 64 + (i + Z.of_nat k)) = Some tx) ->
  (forall r, latw n [] (F r)) ->
  latw (initialization_work l + n) []
    (prog_bind (do_initialization_phase_from find rdtscp me table worker_id head i (length l) s txs) F).
Proof.
  induction l as [|tx l IH]; intros i s n A F Hl HF; cbn [do_initialization_phase_from length]; [apply HF|].
  change (initialization_work (tx :: l)) with (S (23 * length (w_set_ tx) + initialization_work l))%nat.
  cbn zeta. assoc. unfold tx_at. apply latw_act; [apply keeps_quiet; keeping|]. intros e tx' e' Htx.
  assert (tx' = tx) as ->.
  { unfold lift, vector_at in Htx. specialize (Hl 0%nat tx eq_refl). rewrite Z.add_0_r in Hl.
    destruct (decide _); [|done]. rewrite Hl in Htx. by injection Htx. }
  unfold initialize_tx. assoc. rewrite <- Nat.add_assoc. apply latw_append_all. intros [ops s']. assoc.
  apply latw_bind_ret. assoc. apply IH; [|intros [? ?]; apply HF].
  intros k t Hk. replace (i + 1 + Z.of_nat k) with (i + Z.of_nat (S k)) by lia. by apply (Hl (S k)).
Qed.
End Initialization.

(** ** Both phases of an epoch *)
Section Epoch.
Context `{BuildConfig}.
Context (find : Z -> Z -> option addr) (rdtscp : SEnv -> Z) (schema : Schema) (table : Z).
Local Abbreviation workers := (workers find rdtscp table).
Local Abbreviation executors := (executors find rdtscp schema table).

Definition latches_free (e : SEnv) : Prop := (forall a v, rows e !! a = Some v -> rwl v = RWLock_init) /\ lock_ e = RWLock_init.

(** The transactions that worker [c] initialises. *)
Definition initialization_batch (txs : list OperationSet) (head : Z) (c : nat) : list OperationSet :=
  (fun i => default (mkOperationSet [] []) (txs !! Z.to_nat (head + Z.of_nat c * 64 + i))) <$> seqZ 0 64.
Definition initialization_total (txs : list OperationSet) (head : Z) : nat :=
  sum_list ((fun c => initialization_work (initialization_batch txs head c)) <$> seq 0 64).

Hypothesis find_inj : forall k1 k2 a, is_key k1 -> is_key k2 ->
  find table k1 = Some a -> find table k2 = Some a -> k1 = k2.

Section One.
Context (E : Z) (txs : list OperationSet) (head : Z) (s : nat -> Serval) (e0 : SEnv).
Hypothesis input : epoch_input find schema table E txs head s e0.

Lemma initialization_batch_lookup c k tx :
  (c < 64)%nat -> initialization_batch txs head c !! k = Some tx -> txs !! Z.to_nat (head + Z.of_nat c * 64 + (0 + Z.of_nat k)) = Some tx.
Proof.
  intros Hc Hk. unfold initialization_batch in Hk. rewrite list_lookup_fmap in Hk.
  destruct (seqZ 0 64 !! k) as [i|] eqn:Hi; [|done]. apply lookup_seqZ in Hi as [-> Hi]. cbn in Hk. injection Hk as <-.
  destruct (in_txs _ _ _ _ _ _ _ _ input (Z.of_nat c * 64 + Z.of_nat k)) as (t & Ht & _); [lia|].
  rewrite Z.add_0_l. rewrite Z.add_assoc in Ht. by rewrite Ht.
Qed.

Lemma workers_latch c p :
  workers txs head s !! c = Some p ->
  exists n, (n <= initialization_work (initialization_batch txs head c))%nat /\ lat serval_latches 5 c n [] p.
Proof.
  intros Hp. unfold ServalPhase.workers in Hp. rewrite list_lookup_fmap in Hp.
  destruct (seq 0 64 !! c) as [d|] eqn:Hd; [|done]. apply lookup_seq in Hd as [-> Hd]. injection Hp as <-. cbn [Nat.add] in *.
  unfold do_initialization_phase. rewrite (in_size _ _ _ _ _ _ _ _ input).
  pose proof (latw_initialization find rdtscp c table (Z.of_nat c) head txs (initialization_batch txs head c) 0 (s c) 0 Ret
    (fun k tx => initialization_batch_lookup c k tx Hd) (fun r => latw_ret _ _ _ _ r)) as Hl.
  rewrite prog_bind_ret, Nat.add_0_r in Hl. unfold initialization_batch in Hl at 2. by rewrite length_fmap, length_seqZ in Hl.
Qed.

Lemma start_latches : latches_free e0 ->
  forall (l : name serval_latches) x, get_lock (latch serval_latches l) e0 = Some x -> x = RWLock_init.
Proof.
  intros [Hr Hl] [a|] x Hx; cbn in Hx; [|congruence]. destruct (rows e0 !! a) as [v|] eqn:Hv; [|done].
  injection Hx as <-. by apply (Hr a).
Qed.

Lemma workers_run sched : exists pool e, run_schedule sched (workers txs head s) e0 = Ok (pool, e).
Proof.
  destruct (phase_handover find rdtscp schema table find_inj E txs head s e0 input sched) as (pool & e & Hrun & _). by exists pool, e.
Qed.

(** The initialisation phase ends under every fair schedule, and leaves the latches free. *)
Lemma initialization_ends rounds :
  latches_free e0 -> Forall (fair 64) rounds -> (6 * initialization_total txs head <= length rounds)%nat ->
  exists pool e1, run_schedule (concat rounds) (workers txs head s) e0 = Ok (pool, e1) /\ all_done pool.
Proof.
  intros Hfree Hfair Hlen.
  apply (latching_pool_finishes serval_latches serval_latches_ok 5 64 _ e0 _ workers_latch); [|by apply start_latches|apply workers_run|done|done].
  unfold ServalPhase.workers. by rewrite length_fmap, length_seq.
Qed.

Lemma initialization_frees sched pool e1 :
  latches_free e0 -> run_schedule sched (workers txs head s) e0 = Ok (pool, e1) -> all_done pool -> latches_free e1.
Proof.
  intros Hfree Hrun Hd.
  assert (Hlen : length (workers txs head s) = 64%nat) by (unfold ServalPhase.workers; by rewrite length_fmap, length_seq).
  pose proof (latches_free_after serval_latches serval_latches_ok 5 64 _ e0 _ workers_latch Hlen (start_latches Hfree) workers_run
    sched pool e1 Hrun Hd) as Hall. split; [|by apply (Hall None)].
  intros a v Hv. apply (Hall (Some a)). cbn. by rewrite Hv.
Qed.

Lemma execution_leaves_latches sched pool e1 sched' pool' e2 :
  run_schedule sched (workers txs head s) e0 = Ok (pool, e1) -> all_done pool ->
  run_schedule sched' (executors (initialized_txs txs head pool) head (objects s pool)) e1 = Ok (pool', e2) ->
  latches_free e1 -> latches_free e2.
Proof.
  intros Hrun Hd Hrun' Hfree. destruct (phase_handover find rdtscp schema table find_inj E txs head s e0 input sched) as (p1 & e1' & Hr & Hdone).
  rewrite Hrun in Hr. symmetry in Hr. injection Hr as -> ->. destruct (Hdone Hd) as (Hinit & Hobj & Hready).
  rewrite (executors_eq find rdtscp schema table E txs head s e0 input) in Hrun'.
  pose proof (ready_start _ _ _ _ _ _ _ _ _ _ find_inj Hready schema (fun c => serval_read find rdtscp table (objects s pool c) c)
    (in_table _ _ _ _ _ _ _ _ input)
    (serval_reads_visible find rdtscp table E _ (handed_ e0) (before e0) e1 (ei_inv _ _ _ _ _ _ _ _ Hinit) (objects s pool) 64 ltac:(lia)
       (fun c Hc => proj2 (Hobj c Hc)))) as Hst.
  destruct (execution_keeps _ _ _ _ _ _ _ _ Hst sched' pool' e2 Hrun') as [Hr Hl]. destruct Hfree as [F1 F2].
  split; [by rewrite Hr|congruence].
Qed.
End One.

(** ** Every epoch *)
Context (init : State) (W : gset addr).
Hypothesis ok : program_ok find schema table init W.
Hypothesis init_free : latches_free (st_env init).

Lemma reaches_free E st : reaches find rdtscp schema table init E st -> latches_free (st_env st).
Proof.
  induction 1 as [|E st st' Hr IH HE Hstep]; [done|].
  pose proof (reaches_boundary find rdtscp schema table find_inj init W ok E _ Hr) as Hb.
  pose proof (boundary_input find schema table init W ok E _ Hb HE) as Hin.
  destruct Hstep as [txs s e sched pool e1 sched' pool' e2 Hrun Hd Hrun' Hd']. cbn [st_env st_txs st_serval] in *.
  eapply (execution_leaves_latches E txs _ _ e Hin); [exact Hrun|exact Hd|exact Hrun'|].
  eapply (initialization_frees E txs _ _ e Hin); [exact IH|exact Hrun|exact Hd].
Qed.

(** Both phases of an epoch that is reached end, and the next epoch is reached. *)
Lemma reached_epoch_ends E txs s e :
  reaches find rdtscp schema table init E (mkState txs s e) -> E <= NUM_EPOCH ->
  let head := head_of E in
  let sE := fun c => at_epoch E (s c) in
  forall rounds, Forall (fair 64) rounds -> (6 * initialization_total txs head <= length rounds)%nat ->
  exists pool e1, run_schedule (concat rounds) (workers txs head sE) e = Ok (pool, e1) /\ all_done pool /\
  forall rounds', Forall (fair 64) rounds' -> (2 * phase_work txs head 64 5 <= length rounds')%nat ->
  exists pool' e2,
    run_schedule (concat rounds') (executors (initialized_txs txs head pool) head (objects sE pool)) e1 = Ok (pool', e2) /\
    all_done pool' /\ reaches find rdtscp schema table init (E + 1) (mkState (initialized_txs txs head pool) (objects sE pool) e2).
Proof.
  intros Hr HE head sE rounds Hfair Hlen.
  pose proof (reaches_boundary find rdtscp schema table find_inj init W ok E _ Hr) as Hb.
  pose proof (boundary_input find schema table init W ok E _ Hb HE) as Hin. pose proof (reaches_free _ _ Hr) as Hfree.
  destruct (initialization_ends E txs head sE e Hin rounds Hfree Hfair Hlen) as (pool & e1 & Hrun & Hd).
  exists pool, e1. split; [done|]. split; [done|]. intros rounds' Hfair' Hlen'.
  destruct (execution_ends find rdtscp schema table find_inj E txs head sE e Hin (concat rounds) pool e1 rounds' Hrun Hd Hfair' Hlen')
    as (pool' & e2 & Hrun' & Hd'). exists pool', e2. split; [done|]. split; [done|].
  apply (reaches_next _ _ _ _ _ E (mkState txs s e)); [done|done|]. by eapply epoch_runs.
Qed.

Lemma fair_replicate n : Forall (fair 64) (replicate n (seq 0 64)).
Proof. apply Forall_replicate. intros i Hi. apply elem_of_seq. lia. Qed.

Lemma every_epoch_reached n :
  Z.of_nat n <= NUM_EPOCH -> exists st, reaches find rdtscp schema table init (Z.of_nat n + 1) st.
Proof.
  induction n as [|n IH]; intros Hn; [exists init; constructor|].
  destruct IH as [[txs s e] Hr]; [lia|].
  destruct (reached_epoch_ends _ txs s e Hr ltac:(lia) _ (fair_replicate _) ltac:(rewrite length_replicate; reflexivity))
    as (pool & e1 & _ & _ & Hnext).
  destruct (Hnext _ (fair_replicate _) ltac:(rewrite length_replicate; reflexivity)) as (pool' & e2 & _ & _ & Hr').
  replace (Z.of_nat (S n) + 1) with (Z.of_nat n + 1 + 1) by lia. by eexists.
Qed.
End Epoch.

(** C3. No worker of Serval waits forever: from a loaded database with free
    latches, in every epoch that is reached, both phases end under every
    schedule in which each worker gets a turn per round, after at most six
    rounds per step of the initialisation phase (one per transaction and 23 per
    write) and two per step of the execution phase (two per transaction and
    five per operation); and every epoch is reached.  Assumed ([program_ok]):
    4096 transactions per epoch, at most NUM_REGIONS rows that are ever written,
    and, unless [NDEBUG], no row that all 64 transactions of a core write in one
    epoch. *)
Theorem serval_epochs_terminate `{BuildConfig} find rdtscp schema table init W
  (find_inj : forall k1 k2 a, is_key k1 -> is_key k2 ->
     find table k1 = Some a -> find table k2 = Some a -> k1 = k2)
  (ok : program_ok find schema table init W) (free : latches_free (st_env init)) :
  (forall E, 1 <= E <= NUM_EPOCH + 1 -> exists st, reaches find rdtscp schema table init E st) /\
  forall E txs s e, reaches find rdtscp schema table init E (mkState txs s e) -> E <= NUM_EPOCH ->
  let head := head_of E in
  let sE := fun c => at_epoch E (s c) in
  forall rounds, Forall (fair 64) rounds -> (6 * initialization_total txs head <= length rounds)%nat ->
  exists pool e1, run_schedule (concat rounds) (workers find rdtscp table txs head sE) e = Ok (pool, e1) /\ all_done pool /\
  forall rounds', Forall (fair 64) rounds' -> (2 * phase_work txs head 64 5 <= length rounds')%nat ->
  exists pool' e2,
    run_schedule (concat rounds') (executors find rdtscp schema table (initialized_txs txs head pool) head (objects sE pool)) e1
      = Ok (pool', e2) /\ all_done pool'.
Proof.
  split.
  - intros E HE. replace E with (Z.of_nat (Z.to_nat (E - 1)) + 1) by lia.
    apply (every_epoch_reached find rdtscp schema table find_inj init W ok free). lia.
  - intros E txs s e Hr HE head sE rounds Hfair Hlen.
    destruct (reached_epoch_ends find rdtscp schema table find_inj init W ok free E txs s e Hr HE rounds Hfair Hlen)
      as (pool & e1 & Hrun & Hd & Hnext). exists pool, e1. split; [done|]. split; [done|]. intros rounds' Hfair' Hlen'.
    destruct (Hnext rounds' Hfair' Hlen') as (pool' & e2 & Hrun' & Hd' & _). by exists pool', e2.
Qed.
