(* ===== verification/ServalLoad.v ===== *)
(** * ServalLoad: loading the database

    [protocols/serval/ycsb/initializer.hpp]: every key of the table gets a row
    with two versions, and the row is entered in the index.  A loaded database
    is a start of epoch 1 for [ServalPhase].  Modules [Small] and [Whole] apply the
    theorems on Serval to concrete programs in a debug build. *)
From S2P Require Import Prelude Bitmap Schema Index Ycsb Conc RWLock Memory Txs Barrier Phases Run Execution Epoch ServalRow Serval ServalInit ServalPhase ServalEpoch ServalRun ServalTermination.

Section Load.
Context `{BuildConfig} {I : Type} `{Indexes I addr}.
Import GlobalVersionArray.

(** [RWLock::initialize] of the row ([Value::initialize]). *)
Definition Value_initialize (v : Value) : Value :=
  mkValue RWLock_init (epoch_ v) (master_ v) (global_array_ v) (row_region_ v).

(** The two versions are fully built before the row is entered in the index. *)
Definition insert_into_index (idx : I) (table_id key : Z) (rec rec2 : ptr) : M SEnv I :=
  val ← new_row Value_init;
  epoch_1_version ← new_version (mkVersion rec STABLE false);
  v ← load_row val;
  store_row val (Value_initialize v);;
  v ← load_row val;
  g ← lift (GlobalVersionArray.append (global_array_ v) (Some epoch_1_version) (-1));
  store_row val (mkValue (rwl v) (epoch_ v) (master_ v) g (row_region_ v));;
  epoch_minus_1_version ← new_version (mkVersion rec2 STABLE false);
  v ← load_row val;
  store_row val (mkValue (rwl v) (epoch_ v) (Some epoch_minus_1_version) (global_array_ v) (row_region_ v));;
  mret (idx_insert idx table_id key (Some val)).

(** The loop of [load_all_tables] over the keys [key .. num_records - 1]. *)
Fixpoint load_keys (idx : I) (table_id : Z) (key : Z) (n : nat) : M SEnv I :=
  match n with
  | O => mret idx
  | S n' =>
      rec ← new_record;
      rec2 ← new_record;
      idx' ← insert_into_index idx table_id key (Some rec) (Some rec2);
      load_keys idx' table_id (key + 1) n'
  end.

(** [get_id<Record>() = sizeof(Record)]. *)
Definition load_all_tables (sch : Schema) (sizeof_Record : Z) (c : Config) (idx : I)
  : M SEnv (Schema * I) :=
  let sch' := set_record_size sch sizeof_Record sizeof_Record in
  idx' ← load_keys idx sizeof_Record 0 (Z.to_nat (num_records c));
  mret (sch', idx').

(** ** What loading leaves behind *)
Definition loaded_row (p q : addr) : Value :=
  mkValue RWLock_init 0 (Some q) (mk [(-1, Some p)]) None.

Record loaded (e : SEnv) : Prop := {
  ld_heap : heap_ok e;
  ld_lock : lock_ e = RWLock_init;
  ld_handed : handed_ e = [];
  ld_used : used_ e = 0;
  ld_pool : pool e = RowRegionController.init;
  ld_row : forall a v, rows e !! a = Some v -> (a < brk e)%positive /\
    exists p q, v = loaded_row p q /\ p <> q /\ collectable e p /\ collectable e q;
  ld_disjoint : forall a b v w p, a <> b -> rows e !! a = Some v -> rows e !! b = Some w ->
    p ∈ row_ptrs e v -> p ∉ row_ptrs e w
}.

(** The state before loading. *)
Definition Env_init : SEnv :=
  mkEnv ∅ ∅ 1%positive Stat_init RowRegionController.init 0 ∅ RWLock_init [].

Lemma loaded_init : loaded Env_init.
Proof. repeat constructor; simpl; intros; set_solver. Qed.

Lemma append_first p s : append (mk []) (Some p) s = Ok (mk [(s, Some p)]).
Proof. unfold append. by rewrite assert_true. Qed.

(** One key: where everything goes. *)
Definition add_row (e : SEnv) : SEnv :=
  let b := brk e in
  mkEnv (<[(b + 4)%positive := mkVersion (Some (b + 1)%positive) STABLE false]>
           (<[(b + 3)%positive := mkVersion (Some b) STABLE false]> (versions e)))
        ({[(b + 1)%positive]} ∪ ({[b]} ∪ records e)) (b + 5)%positive (stat_ e) (pool e) (used_ e)
        (<[(b + 2)%positive := loaded_row (b + 3) (b + 4)]> (rows e)) (lock_ e) (handed_ e).

Lemma load_one idx table_id key e :
  (rec ← new_record; rec2 ← new_record;
   insert_into_index idx table_id key (Some rec) (Some rec2)) e =
  Ok (idx_insert idx table_id key (Some (brk e + 2)%positive), add_row e).
Proof.
  destruct e as [vs rs b st pl us rw lk hd].
  unfold insert_into_index, new_record, new_row, new_version, load_row, store_row, derefM, modifyM,
    lift, mbind, M_bind, getM, mret, M_ret. cbn.
  rewrite !lookup_insert_eq. cbn. rewrite lookup_insert_eq. cbn. rewrite append_first. cbn.
  rewrite lookup_insert_eq. cbn.
  cbv [add_row set_rows set_versions set_brk set_records versions records brk stat_ pool used_ rows lock_ handed_].
  rewrite !insert_insert_eq. replace (Pos.succ (Pos.succ b)) with (b + 2)%positive by lia.
  replace (Pos.succ (b + 2)) with (b + 3)%positive by lia.
  replace (Pos.succ (b + 3)) with (b + 4)%positive by lia.
  replace (Pos.succ (b + 4)) with (b + 5)%positive by lia.
  replace (Pos.succ b) with (b + 1)%positive by lia. done.
Qed.

Lemma add_row_heap e : heap_ok e -> heap_ok (add_row e).
Proof.
  intros [Hf Hl Hr Hi]. set (b := brk e).
  assert (Hnew : forall a v, versions (add_row e) !! a = Some v ->
    (a = (b + 4)%positive /\ rec v = Some (b + 1)%positive) \/
    (a = (b + 3)%positive /\ rec v = Some b) \/ versions e !! a = Some v).
  { intros a v Hv. simpl in Hv.
    apply lookup_insert_Some in Hv as [(<- & <-)|(_ & [(<- & <-)|(_ & Hv)]%lookup_insert_Some)]; auto. }
  assert (Hold : forall a v r, versions e !! a = Some v -> rec v = Some r -> (r < b)%positive).
  { intros a v r Hv Hrec. by apply Hr, (Hl a v). }
  constructor.
  - intros a v Hv. change (brk (add_row e)) with (b + 5)%positive.
    destruct (Hnew a v Hv) as [[-> _]|[[-> _]|Hv']]; [lia..|]. apply Hf in Hv'. fold b in Hv'. lia.
  - intros a v r Hv Hrec. change (records (add_row e)) with ({[(b + 1)%positive]} ∪ ({[b]} ∪ records e)).
    destruct (Hnew a v Hv) as [[-> Hr1]|[[-> Hr1]|Hv']].
    + apply elem_of_union_l, elem_of_singleton. congruence.
    + apply elem_of_union_r, elem_of_union_l, elem_of_singleton. congruence.
    + apply elem_of_union_r, elem_of_union_r. by apply (Hl a v).
  - intros r. change (records (add_row e)) with ({[(b + 1)%positive]} ∪ ({[b]} ∪ records e)).
    change (brk (add_row e)) with (b + 5)%positive.
    intros [->%elem_of_singleton|[->%elem_of_singleton|Hin]%elem_of_union]%elem_of_union; [lia..|].
    apply Hr in Hin. fold b in Hin. lia.
  - intros a1 a2 v1 v2 r H1 H2 R1 R2.
    destruct (Hnew a1 v1 H1) as [[-> E1]|[[-> E1]|H1']], (Hnew a2 v2 H2) as [[-> E2]|[[-> E2]|H2']];
      rewrite R1 in E1 || idtac; rewrite R2 in E2 || idtac; try done; try (simplify_eq; lia);
      try (pose proof (Hold _ _ _ H1' R1); simplify_eq; lia);
      try (pose proof (Hold _ _ _ H2' R2); simplify_eq; lia).
    by apply (Hi a1 a2 v1 v2 r).
Qed.

Lemma add_row_versions e a : (a < brk e)%positive -> versions (add_row e) !! a = versions e !! a.
Proof. intros Ha. simpl. by rewrite !lookup_insert_ne by lia. Qed.

Lemma loaded_row_ptrs e p q : row_ptrs e (loaded_row p q) = [Some q; Some p].
Proof. done. Qed.

Lemma ld_ptrs e a v x : loaded e -> rows e !! a = Some v -> x ∈ row_ptrs e v ->
  exists y, x = Some y /\ (y < brk e)%positive.
Proof.
  intros Hl Hv Hx. destruct (ld_row _ Hl a v Hv) as (_ & p & q & -> & _ & Hp & Hq).
  rewrite loaded_row_ptrs in Hx. pose proof (heap_fresh _ (ld_heap _ Hl)) as Hf.
  destruct Hp as (w & ? & Hp & _), Hq as (w' & ? & Hq & _). apply Hf in Hp, Hq.
  apply elem_of_cons in Hx as [->|Hx]; [by exists q|]. apply list_elem_of_singleton in Hx as ->. by exists p.
Qed.

Lemma row_ptrs_add e v : loaded e -> (exists a, rows e !! a = Some v) -> row_ptrs (add_row e) v = row_ptrs e v.
Proof. intros Hl [a Hv]. by destruct (ld_row _ Hl a v Hv) as (_ & p & q & -> & _). Qed.

Lemma loaded_add e : loaded e -> loaded (add_row e).
Proof.
  intros Hl. pose proof Hl as [Hh Hlk Hhd Hu Hp Hrow Hd]. set (b := brk e).
  assert (Hrows : forall a v, rows (add_row e) !! a = Some v ->
    a = (b + 2)%positive /\ v = loaded_row (b + 3) (b + 4) \/ rows e !! a = Some v).
  { intros a v Hv. simpl in Hv. apply lookup_insert_Some in Hv as [(<- & <-)|(_ & Hv)]; auto. }
  assert (Hcol : forall a, collectable e a -> collectable (add_row e) a).
  { intros a (v & r & Hv & ?). exists v, r. rewrite add_row_versions; [done|].
    by apply (heap_fresh _ Hh) in Hv. }
  constructor; try done; [by apply add_row_heap| |].
  - intros a v Hv. change (brk (add_row e)) with (b + 5)%positive. destruct (Hrows a v Hv) as [[-> ->]|Hv'].
    + split; [lia|]. exists (b + 3)%positive, (b + 4)%positive. split_and!; [done|lia| |].
      * eexists _, b. simpl. rewrite lookup_insert_ne, lookup_insert_eq by (unfold b; lia). done.
      * eexists _, (b + 1)%positive. simpl. rewrite lookup_insert_eq. done.
    + destruct (Hrow a v Hv') as (Ha & p & q & -> & ? & ? & ?). split; [fold b in Ha; lia|].
      exists p, q. split_and!; auto.
  - assert (Hfresh : forall a v x, rows e !! a = Some v -> x ∈ row_ptrs e v -> x ∉ [Some (b + 4)%positive; Some (b + 3)%positive]).
    { intros a v x Hv Hx. destruct (ld_ptrs e a v x Hl Hv Hx) as (y & -> & Hy). fold b in Hy.
      rewrite !not_elem_of_cons. split_and!; [intros [=]; lia|intros [=]; lia|apply not_elem_of_nil]. }
    intros a1 a2 v w p Hne Hv Hw. destruct (Hrows a1 v Hv) as [[-> ->]|Hv'], (Hrows a2 w Hw) as [[-> ->]|Hw'].
    + done.
    + rewrite (row_ptrs_add e w) by eauto. intros Hp1 Hp2. by apply (Hfresh a2 w p).
    + rewrite (row_ptrs_add e v) by eauto. intros Hp1 Hp2. by apply (Hfresh a1 v p).
    + rewrite (row_ptrs_add e v), (row_ptrs_add e w) by eauto. by apply (Hd a1 a2).
Qed.

(** A loaded database is the start of epoch 1. *)
Lemma loaded_start W e : loaded e -> (forall a, a ∈ W -> is_Some (rows e !! a)) -> epoch_start 1 W e.
Proof.
  intros Hl HW. pose proof Hl as [Hh Hlk Hhd Hu Hp Hrow Hd].
  assert (Hrok : forall a v, rows e !! a = Some v -> row_ok e v).
  { intros a v Hv. destruct (Hrow a v Hv) as (_ & p & q & -> & Hne & Hcp & Hcq). constructor; simpl; try done.
    - split; [repeat constructor|]. apply Forall_cons. by split.
    - rewrite loaded_row_ptrs. repeat constructor; [|by intros ?%not_elem_of_nil].
      intros Hin%list_elem_of_singleton. congruence.
    - rewrite loaded_row_ptrs. destruct Hcp as (w & ? & ? & _), Hcq as (w' & ? & ? & _).
      repeat constructor; [by exists w'|by exists w]. }
  split_and!; [|by rewrite Hlk|done|].
  - constructor; try done.
    + rewrite Hlk. apply lock_ok_init.
    + by rewrite Hu, Hhd.
    + exists []. rewrite Hhd. repeat split; constructor.
    + rewrite Hp. unfold RowRegionController.init. by rewrite length_replicate.
    + intros g r Hg _. rewrite Hp in Hg. unfold RowRegionController.init in Hg.
      by apply lookup_replicate in Hg as [-> _].
    + intros a v Hv. pose proof (Hrok a v Hv) as Hok.
      destruct (Hrow a v Hv) as (_ & p & q & -> & Hne & Hcp & Hcq). constructor; simpl; try done.
      * apply lock_ok_init.
      * intros _. unfold row_final, row_history. simpl. repeat constructor; done.
      * rewrite Hhd. intros _ ?%not_elem_of_nil. done.
      * unfold final_of, master_of. by rewrite Hv.
  - intros a v Hv. destruct (Hrow a v Hv) as (_ & p & q & -> & _). done.
Qed.

(** ** The whole loading phase *)
Definition row_addr (key : Z) : addr := Z.to_pos (5 * key + 3).

Lemma load_keys_S idx t key n e :
  load_keys idx t key (S n) e =
  load_keys (idx_insert idx t key (Some (brk e + 2)%positive)) t (key + 1) n (add_row e).
Proof.
  cbn [load_keys]. pose proof (load_one idx t key e) as Hone. revert Hone. unfold mbind, M_bind.
  generalize (insert_into_index idx t key) as ins. intros ins Hone.
  destruct (new_record e) as [[r1 e1]|]; [|done].
  destruct (new_record e1) as [[r2 e2]|]; [|done].
  destruct (ins (Some r1) (Some r2) e2) as [[i e3]|]; [|done].
  by injection Hone as -> ->.
Qed.

Lemma load_keys_loaded `{!IndexesLaws I addr} n : forall idx table_id key e,
  is_key (key + Z.of_nat n) -> 0 <= key -> loaded e -> Z.pos (brk e) = 5 * key + 1 ->
  (forall k, is_key k -> idx_entry idx table_id k = if decide (k < key) then Some (Some (row_addr k)) else None) ->
  (forall a, is_Some (rows e !! a) <-> exists k, 0 <= k < key /\ a = row_addr k) ->
  exists idx' e', load_keys idx table_id key n e = Ok (idx', e') /\ loaded e' /\
    (forall k, is_key k -> idx_entry idx' table_id k =
       if decide (k < key + Z.of_nat n) then Some (Some (row_addr k)) else None) /\
    (forall a, is_Some (rows e' !! a) <-> exists k, 0 <= k < key + Z.of_nat n /\ a = row_addr k).
Proof.
  induction n as [|n IH]; intros idx t key e Hk Hk0 Hl Hb Hidx Hdom.
  - exists idx, e. change (Z.of_nat 0) with 0. rewrite Z.add_0_r. by split_and!.
  - rewrite load_keys_S.
    assert ((brk e + 2)%positive = row_addr key) as -> by (unfold row_addr; lia).
    destruct (IH (idx_insert idx t key (Some (row_addr key))) t (key + 1) (add_row e))
      as (idx' & e' & Hrun' & Hl' & Hidx' & Hdom'); try lia.
    + unfold is_key in *. lia.
    + by apply loaded_add.
    + simpl. lia.
    + assert (is_key key) as Hik by (unfold is_key in *; lia). intros k Hkk.
      rewrite idx_entry_insert, !Hidx by done. rewrite (decide_False (P := key < key)) by lia.
      destruct (decide (key = k)) as [->|Hne].
      * by rewrite !decide_True by (done || lia).
      * rewrite decide_False by tauto. destruct (decide (k < key)); by rewrite ?decide_True, ?decide_False by lia.
    + intros a. simpl. assert ((brk e + 2)%positive = row_addr key) as -> by (unfold row_addr; lia).
      destruct (decide (a = row_addr key)) as [->|Hne].
      * rewrite lookup_insert_eq. split; [|by eauto]. intros _. exists key. split; [lia|done].
      * rewrite lookup_insert_ne, Hdom by done. split; intros (k & Hkk & ->); exists k; (split; [|done]); [lia|].
        destruct (decide (k = key)) as [->|]; [done|lia].
    + exists idx', e'. rewrite Nat2Z.inj_succ. replace (key + Z.succ (Z.of_nat n)) with (key + 1 + Z.of_nat n) by lia.
      by split_and!.
Qed.
End Load.

(** C21. Loading gives every key its own row: after [load_all_tables] on an empty
    database, [find] maps exactly the keys below [num_records] to rows,
    different keys to different rows, the record size is registered, and the
    database is a legal start of epoch 1 for any set of loaded rows: latches
    free, no region handed out, each row holding one stable version in its
    history and a stable master version, no two rows sharing a version. *)
Theorem load_all_tables_starts_epoch_1 `{BuildConfig} {I : Type} `{IndexesLaws I addr}
  (sch : Schema) (table : Z) (c : Config) (Hn : is_key (num_records c)) :
  exists sch' idx e,
    load_all_tables sch table c idx_empty Env_init = Ok ((sch', idx), e) /\
    get_record_size sch' table = Ok table /\
    (forall k, is_key k -> idx_find idx table k = if decide (k < num_records c) then Some (row_addr k) else None) /\
    (forall a, is_Some (rows e !! a) <-> exists k, 0 <= k < num_records c /\ a = row_addr k) /\
    handed_ e = [] /\
    (forall W, (forall a, a ∈ W -> is_Some (rows e !! a)) -> epoch_start 1 W e).
Proof.
  destruct (load_keys_loaded (Z.to_nat (num_records c)) idx_empty table 0 Env_init)
    as (idx & e & Hrun & Hl & Hidx & Hdom).
  - unfold is_key in *. lia.
  - lia.
  - apply loaded_init.
  - done.
  - intros k Hk. unfold is_key in Hk. rewrite idx_entry_empty, decide_False by lia. done.
  - intros a. simpl. rewrite lookup_empty. split; [by intros []|]. intros (k & ? & _). lia.
  - assert (Hz : 0 + Z.of_nat (Z.to_nat (num_records c)) = num_records c) by (unfold is_key in Hn; lia).
    rewrite Hz in Hidx, Hdom. eexists _, idx, e. split_and!.
    + unfold load_all_tables. unfold mbind, M_bind. by rewrite Hrun.
    + unfold get_record_size, schema_at, set_record_size, Schema in *. by rewrite lookup_insert_eq.
    + intros k Hk. rewrite idx_find_entry, Hidx by done. by destruct (decide _).
    + done.
    + apply Hl.
    + intros W HW. by apply loaded_start.
Qed.

(** ** A concrete epoch

    Two loaded keys, one transaction per worker, all of them updating key 0. *)
Module Small.
#[local] Instance config : BuildConfig :=
  {| NDEBUG := false; MAX_SLOTS_OF_PER_CORE_BUFFER := 64; NUM_TXS_IN_ONE_EPOCH := 64 |}.
Definition table : Z := 1024.
Definition find (t k : Z) : option addr :=
  if (t =? table) && (0 <=? k) && (k <? 2) then Some (row_addr k) else None.
Definition rdtscp (e : SEnv) : Z := 0.
Definition env : SEnv := add_row (add_row Env_init).
Definition tx : OperationSet := mkOperationSet [mkOperation Update 0 0 None] [0%nat].
Definition txs : list OperationSet := replicate (Z.to_nat 4033) tx.
Definition serval (c : nat) : Serval := mkServal 0 0 1 ∅ ∅.
Definition W : gset addr := {[row_addr 0]}.

Lemma env_start : epoch_start 1 W env.
Proof.
  apply loaded_start; [apply loaded_add, loaded_add, loaded_init|].
  intros a ->%elem_of_singleton. vm_compute. by eexists.
Qed.

Lemma txs_ok : epoch_txs_ok find table W txs 0.
Proof.
  unfold epoch_txs_ok. change NUM_TXS_IN_ONE_EPOCH_IN_ONE_CORE with 1. split_and!; [lia..|right; apply write_room_below; change NUM_TXS_IN_ONE_EPOCH_IN_ONE_CORE with 1; lia|].
  intros s [Hs Hm]. exists tx. split.
  - apply lookup_replicate. split; [done|]. change NUM_TXS_IN_ONE_EPOCH_IN_ONE_CORE with 1 in Hm.
    pose proof (Z.div_mod s 64). pose proof (Z.mod_pos_bound s 64). rewrite Z.add_0_l.
    apply Z2Nat.inj_lt; lia.
  - split_and!; [repeat constructor; by intros ?%not_elem_of_nil|repeat constructor; by intros ?%not_elem_of_nil|].
    intros j ->%list_elem_of_singleton. exists (mkOperation Update 0 0 None), (row_addr 0).
    split_and!; done.
Qed.

Definition round_robin (rounds : nat) : list nat := concat (replicate rounds (seq 0 64)).
Lemma serval_initialization_phase_witness :
  exists pool' e,
    run_schedule (round_robin 150) (workers find rdtscp table txs 0 serval) env = Ok (pool', e) /\
    (all_done pool' -> epoch_initialized find table 1 W env e txs 0).
Proof.
  destruct (serval_initialization_phase find rdtscp table 1 W txs 0 serval env) with (sched := round_robin 150)
    as (pool' & e & Hrun & Hdone & _).
  - intros k1 k2 a _ _. unfold find. destruct (_ && _ && _) eqn:H1; [|done]. intros [= <-].
    destruct ((table =? table) && (0 <=? k2) && (k2 <? 2)) eqn:H2; [|done].
    unfold row_addr. intros [=]. lia.
  - apply env_start.
  - change NUM_REGIONS with 10000. vm_compute. done.
  - apply txs_ok.
  - intros c _. done.
  - exists pool', e. split; [exact Hrun|exact Hdone].
Defined.

(** Loading three keys through the Masstree index of [Index]. *)
Section Loading.
Import MasstreeIndexes RefTable.
Definition three : Config := mkConfig Workload_init 3 64 10 false "serval".
Lemma load_all_tables_starts_epoch_1_witness :
  exists sch idx e,
    load_all_tables (I := gmap Z (table_type (V := option addr) (leaf := Z))) ∅ 1024 three idx_empty Env_init
      = Ok ((sch, idx), e) /\
    idx_find idx 1024 2 = Some (row_addr 2) /\ epoch_start 1 {[row_addr 0; row_addr 2]} e.
Proof.
  destruct (load_all_tables_starts_epoch_1 (I := gmap Z (table_type (V := option addr) (leaf := Z))) ∅ 1024 three)
    as (sch & idx & e & Hrun & _ & Hfind & Hrows & _ & Hstart); [split; vm_compute; done|].
  exists sch, idx, e. split_and!; [done|by rewrite Hfind by (split; vm_compute; done)|].
  apply Hstart. intros a Ha. apply Hrows.
  rewrite elem_of_union, !elem_of_singleton in Ha. unfold three. simpl.
  destruct Ha as [->| ->]; [exists 0|exists 2]; (split; [lia|done]).
Defined.
End Loading.

(** Run round robin, the phase finishes; the row ends in a region, with the
    serials of all workers. *)
Example phase_finishes :
  match run_schedule (round_robin 150) (workers find rdtscp table txs 0 serval) env with
  | Ok (pool', e) =>
      bool_decide (all_done pool') &&
      bool_decide (ids (epoch_history 1 e (row_addr 0)) = (fun c => Z.of_nat c * 64) <$> seq 0 64)
  | Err _ => false
  end = true.
Proof. vm_compute. reflexivity. Qed.
End Small.

(** ** A whole run

    The debug build with the default options: a loaded database, and for every
    transaction of the 1000 epochs one that updates key 0 and reads key 1, except
    that the last transaction of a core in an epoch only reads: the assertion of
    [PerCoreVersionArray::append] admits 63 writes per core. *)
Module Whole.
#[local] Instance debug_build : BuildConfig :=
  {| NDEBUG := false; MAX_SLOTS_OF_PER_CORE_BUFFER := 4; NUM_TXS_IN_ONE_EPOCH := 4096 |}.
Definition find : Z -> Z -> option addr := Small.find.
Definition schema : Schema := set_record_size ∅ Small.table 1024.
Definition tx : OperationSet := mkOperationSet [mkOperation Update 0 0 None; mkOperation Read 1 0 None] [0%nat].
Definition reader : OperationSet := mkOperationSet [mkOperation Read 0 0 None; mkOperation Read 1 0 None] [].
Definition tx_number (x : Z) : OperationSet := if x mod 64 =? 63 then reader else tx.
Definition loaded_db : SEnv := add_row (add_row Env_init).
Definition all_txs : list OperationSet := tx_number <$> seqZ 0 (NUM_EPOCH * 4096).
Definition init : State :=
  mkState all_txs (fun _ => mkServal 0 0 0 ∅ ∅) loaded_db.

Lemma find_inj k1 k2 a : is_key k1 -> is_key k2 -> find Small.table k1 = Some a -> find Small.table k2 = Some a -> k1 = k2.
Proof.
  intros _ _. unfold find, Small.find. destruct (_ && _ && _) eqn:H1; [|done]. intros [= <-].
  destruct ((Small.table =? Small.table) && (0 <=? k2) && (k2 <? 2)) eqn:H2; [|done].
  unfold row_addr. intros [=]. lia.
Qed.

Lemma txs_lookup x : 0 <= x < NUM_EPOCH * 4096 -> st_txs init !! Z.to_nat x = Some (tx_number x).
Proof.
  intros Hx. cbn [st_txs init]. unfold all_txs. rewrite list_lookup_fmap, lookup_seqZ_lt by lia.
  cbn. by rewrite Z2Nat.id by lia.
Qed.

Lemma tx_runnable x : runnable find Small.table (fun a => is_Some (rows (st_env init) !! a)) (tx_number x).
Proof.
  unfold tx_number. destruct (x mod 64 =? 63); split.
  - split_and!.
    + by apply (bool_decide_unpack _).
    + by apply (bool_decide_unpack _).
    + intros i. change (w_set_ reader) with (@nil nat). split; [by intros ?%not_elem_of_nil|].
      intros (o & Ho & Hu). destruct i as [|[|i]]; simpl in Ho; by simplify_eq.
    + by repeat constructor.
  - intros op [->|[->|?%not_elem_of_nil]%elem_of_cons]%elem_of_cons; [| |done];
      (split; [by split; vm_compute|]); eexists; (split; [reflexivity|]); cbn [st_env init]; vm_compute; by eexists.
  - split_and!.
    + by apply (bool_decide_unpack _).
    + by apply (bool_decide_unpack _).
    + intros i. change (w_set_ tx) with [0%nat]. rewrite list_elem_of_singleton. split.
      * intros ->. by eexists.
      * intros (o & Ho & Hu). destruct i as [|[|i]]; [done| |done]. simpl in Ho. by injection Ho as <-.
    + by repeat constructor.
  - intros op [->|[->|?%not_elem_of_nil]%elem_of_cons]%elem_of_cons; [| |done];
      (split; [by split; vm_compute|]); eexists; (split; [reflexivity|]); cbn [st_env init]; vm_compute; by eexists.
Qed.

Lemma last_reads y : tx_number (63 + y * 64) = reader.
Proof. unfold tx_number. by rewrite Z.mod_add by done. Qed.

Lemma reader_writes_nothing txs head s a :
  txs !! Z.to_nat (head + s) = Some reader -> ~ writes_row find Small.table txs head s a.
Proof. unfold writes_row. intros ->. by intros ?%not_elem_of_nil. Qed.

Lemma room_for_writes E : 1 <= E <= NUM_EPOCH -> write_room find Small.table (st_txs init) (head_of E).
Proof.
  intros HE c a Hc. exists 63. split; [lia|]. intros [_ Hw]. revert Hw. apply reader_writes_nothing.
  assert (Hh : head_of E = (E - 1) * 4096) by done. rewrite Hh, txs_lookup by lia.
  replace ((E - 1) * 4096 + (c * 64 + 63)) with (63 + ((E - 1) * 64 + c) * 64) by ring.
  by rewrite last_reads.
Qed.

Lemma program_holds : program_ok find schema Small.table init {[row_addr 0]}.
Proof.
  constructor.
  - done.
  - right. apply room_for_writes.
  - split; [|done]. apply loaded_start; [apply loaded_add, loaded_add, loaded_init|]. intros a Ha. by apply not_elem_of_empty in Ha.
  - intros x Hx. exists (tx_number x). split; [by apply txs_lookup|]. split; [apply tx_runnable|].
    intros a Ha. unfold tx_number in Ha. destruct (x mod 64 =? 63); [by apply not_elem_of_nil in Ha|].
    apply list_elem_of_singleton in Ha. by apply elem_of_singleton.
  - rewrite size_singleton. unfold NUM_REGIONS. lia.
  - done.
  - by eexists.
Qed.

Lemma serval_executes_serially_witness :
  exists pool e1,
    run_schedule (Small.round_robin 2000) (workers find Small.rdtscp Small.table (st_txs init) (head_of 1)
       (fun c => at_epoch 1 (st_serval init c))) (st_env init) = Ok (pool, e1) /\
    (all_done pool -> forall sched', exists pool' e2,
       run_schedule sched' (executors find Small.rdtscp schema Small.table (initialized_txs (st_txs init) (head_of 1) pool)
         (head_of 1) (objects (fun c => at_epoch 1 (st_serval init c)) pool)) e1 = Ok (pool', e2)).
Proof.
  destruct (serval_executes_serially find Small.rdtscp schema Small.table init {[row_addr 0]} find_inj program_holds
    1 (st_txs init) (st_serval init) (st_env init) (reaches_first _ _ _ _ _) ltac:(vm_compute; discriminate)
    (Small.round_robin 2000)) as (pool & e1 & Hrun & Hrest).
  exists pool, e1. split; [exact Hrun|]. intros Hd sched'. destruct (Hrest Hd sched') as (pool' & e2 & Hrun' & _).
  exists pool', e2. exact Hrun'.
Defined.

Lemma loaded_latches : latches_free (st_env init).
Proof.
  assert (Hl : loaded (st_env init)) by apply loaded_add, loaded_add, loaded_init. split; [|by apply (ld_lock _ Hl)].
  intros a v Hv. by destruct (ld_row _ Hl a v Hv) as (_ & p & q & -> & _).
Qed.

Lemma serval_epochs_terminate_witness :
  exists st, reaches find Small.rdtscp schema Small.table init (NUM_EPOCH + 1) st.
Proof.
  destruct (serval_epochs_terminate find Small.rdtscp schema Small.table init {[row_addr 0]} find_inj program_holds loaded_latches)
    as [Hall _].
  apply Hall. by vm_compute.
Defined.

Definition small_start : EpochState (E := SEnv) (Obj := Serval) := mkEpochState (st_txs init) (st_serval init) (st_env init).
Lemma serval_threads_serializable_witness :
  exists pool' u,
    run_schedule (Small.round_robin 2000) (ServalRun.threads find Small.rdtscp schema Small.table (st_serval init)) (run_start small_start)
      = Ok (pool', u) /\
    (all_done pool' -> exists st,
       epochs_executed (epoch_outcome find Small.table)
         (steps_of (Small.round_robin 2000) (ServalRun.threads find Small.rdtscp schema Small.table (st_serval init)) (run_start small_start))
         small_start (returned_ (memory u)) (NUM_EPOCH + 1) st /\
       ep_txs st = txs_ (memory u) /\ ep_env st = database u).
Proof.
  destruct (serval_threads_serializable find Small.rdtscp schema Small.table small_start {[row_addr 0]} find_inj program_holds
    (Small.round_robin 2000)) as (pool' & u & Hrun & Hdone).
  exists pool', u. split; [exact Hrun|exact Hdone].
Defined.

(** Key 1 in epoch 1: the read returns the version older than the loaded one. *)
Lemma untouched_row_reads_master_witness :
  find_visible (mkServal 0 0 1 ∅ ∅) (row_addr 1) loaded_db = Ok ((Some 10%positive, false), loaded_db) /\
  final_of loaded_db (row_addr 1) = Some 9%positive.
Proof.
  pose proof (untouched_row_reads_master (mkServal 0 0 1 ∅ ∅) (row_addr 1) (loaded_row 9 10) loaded_db) as Hr.
  split; [|by vm_compute].
  refine (proj1 (Hr _ _ _ _)); [by vm_compute| |done|done].
  apply (ri_ok 1 ∅ (before loaded_db) _ (row_addr 1)). apply (inv_row 1 ∅ (handed_ loaded_db)); [|by vm_compute].
  apply (loaded_start ∅ loaded_db); [apply loaded_add, loaded_add, loaded_init|].
  intros a Ha. by apply not_elem_of_empty in Ha.
Defined.
End Whole.
