(* ===== verification/CaracalLoad.v ===== *)
(** * CaracalLoad: loading the database of Caracal

    [protocols/caracal/ycsb/initializer.hpp]: every key of the table gets a row
    whose version array holds one stable version, at global identifier 0. *)
From S2P Require Import Prelude Schema Index Ycsb Conc RWLock Memory Txs Barrier Phases Run Execution Epoch Load CaracalRow Caracal CaracalInit CaracalPhase CaracalEpoch CaracalRun CaracalTermination.

Section Load.
Context `{BuildConfig} {I : Type} `{Indexes I addr}.

Definition insert_into_index (idx : I) (table_id key : Z) (rec : ptr) : M CEnv I :=
  val ← new_row Value_init;
  version ← new_version (mkVersion rec STABLE false);
  v ← load_row val;
  g ← lift (GlobalVersionArray.append_with_no_gc (global_array_ v) 0 (Some version));
  store_row val (mkValue (rwl v) g (row_buffer_ v));;
  mret (idx_insert idx table_id key (Some val)).

(** The loop of [load_all_tables] over the keys [key .. num_records - 1]. *)
Fixpoint load_keys (idx : I) (table_id : Z) (key : Z) (n : nat) : M CEnv I :=
  match n with
  | O => mret idx
  | S n' =>
      rec ← new_record;
      idx' ← insert_into_index idx table_id key (Some rec);
      load_keys idx' table_id (key + 1) n'
  end.

(** [get_id<Record>() = sizeof(Record)]. *)
Definition load_all_tables (sch : Schema) (sizeof_Record : Z) (c : Config) (idx : I)
  : M CEnv (Schema * I) :=
  let sch' := set_record_size sch sizeof_Record sizeof_Record in
  idx' ← load_keys idx sizeof_Record 0 (Z.to_nat (num_records c));
  mret (sch', idx').

(** The row built around its first version. *)
Definition loaded_row (p : addr) : Value := mkValue RWLock_init (GlobalVersionArray.mk [(0, Some p)]) None.

Lemma first_append p s :
  GlobalVersionArray.append_with_no_gc (GlobalVersionArray.mk []) s (Some p) = Ok (GlobalVersionArray.mk [(s, Some p)]).
Proof. unfold GlobalVersionArray.append_with_no_gc. by rewrite assert_true. Qed.

Lemma caracal_insert_eq idx table_id key (e : CEnv) :
  (rec ← new_record; insert_into_index idx table_id key (Some rec)) e
  = Ok (idx_insert idx table_id key (Some (brk e + 1)%positive), add_row loaded_row e).
Proof.
  destruct e as [vs rs b st pl us rw lk hd].
  unfold insert_into_index, new_record, new_row, new_version, load_row, store_row, derefM, modifyM,
    lift, mbind, M_bind, getM, mret, M_ret. cbn.
  rewrite lookup_insert_eq. cbn. rewrite first_append. cbn.
  cbv [add_row set_rows set_versions set_brk set_records versions records brk stat_ pool used_ rows lock_ handed_].
  rewrite insert_insert_eq. replace (Pos.succ (Pos.succ b)) with (b + 2)%positive by lia.
  replace (Pos.succ (b + 2)) with (b + 3)%positive by lia.
  replace (Pos.succ b) with (b + 1)%positive by lia. done.
Qed.

Lemma caracal_load_keys_eq n : forall idx t key e,
  load_keys idx t key n e = load_loop insert_into_index idx t key n e.
Proof.
  induction n as [|n IH]; intros idx t key e; [done|]. cbn [load_keys load_loop].
  unfold mbind, M_bind. destruct (new_record e) as [[r e1]|]; [|done].
  destruct (insert_into_index idx t key (Some r) e1) as [[i e2]|]; [|done]. apply IH.
Qed.
End Load.

(** ** A loaded database is the start of epoch 1 *)
Section Start.
Context `{BuildConfig}.
Local Abbreviation loaded := (loaded loaded_row RowBufferController.init).

Lemma loaded_slots p : slots (loaded_row p) = [(0, Some p)].
Proof. done. Qed.
Lemma loaded_ptrs (e : CEnv) p : row_ptrs e (loaded_row p) = [Some p].
Proof. done. Qed.

Lemma loaded_start_c n (e : CEnv) W :
  0 <= n -> loaded n e -> (forall a, a ∈ W -> is_Some (rows e !! a)) -> epoch_start 1 W e.
Proof.
  intros Hn [Hh Hb Hlk Hp Hu Hhd Hrow Hver Hdom] HW.
  assert (Hst : epoch_start_id 1 = 2 ^ 32) by (by vm_compute).
  assert (Hget : forall a v, rows e !! a = Some v -> exists k, 0 <= k < n /\ a = row_addr k /\ v = loaded_row (version_addr k)).
  { intros a v Hv. destruct (Hdom a ltac:(by eexists)) as (k & Hk & ->). exists k. rewrite Hrow in Hv by done. by injection Hv as <-. }
  split_and!; [|by rewrite Hlk|done|].
  - constructor; rewrite ?Hhd, ?Hlk, ?Hu; try done.
    + apply lock_ok_init.
    + rewrite Hp. apply length_replicate.
    + intros a v Hv. pose proof Hv as Hv1. apply Hget in Hv as (k & Hk & -> & ->). constructor.
      * apply lock_ok_init.
      * rewrite loaded_slots. repeat constructor.
      * rewrite loaded_slots, Hst. exists 0. unfold visible_before. rewrite filter_cons_True by (cbn; lia).
        unfold final_of. by rewrite Hv1.
      * rewrite loaded_slots, Hst. apply Forall_singleton. rewrite decide_False by (cbn; lia). split; [cbn; lia|].
        exists (mkVersion (Some (record_addr k)) STABLE false), (record_addr k). split_and!; [by apply Hver|done|done].
      * done.
      * rewrite loaded_ptrs. apply NoDup_singleton.
    + intros a b v w p Hne (k1 & H1 & -> & ->)%Hget (k2 & H2 & -> & ->)%Hget. rewrite !loaded_ptrs, !list_elem_of_singleton.
      intros -> [= Heq]. apply Hne. unfold version_addr, row_addr in *. lia.
    + intros a b v w g (k1 & _ & _ & ->)%Hget. done.
    + intros g r. rewrite Hp. intros [-> _]%lookup_replicate_1. done.
  - intros a v (k & _ & _ & ->)%Hget. split_and!; [done| |done]. rewrite loaded_slots, Hst. apply Forall_singleton. cbn. lia.
Qed.

(** No worker has a buffer to spare yet. *)
Lemma loaded_object n (e : CEnv) table c s :
  loaded n e -> get_table s table = [] -> core_ s = Z.of_nat c -> spare_buffer_ s = None -> appended_core_buffers_ s = [] ->
  object_ready table c s e.
Proof.
  intros Hl Ht Hc Hs Ha. split_and!; [done..|]. intros g. rewrite Hs. unfold spare_of. rewrite (ld_handed _ _ _ _ Hl).
  by split; [intros [? _]|].
Qed.
End Start.

(** Loading gives every key its own row: after Caracal's [load_all_tables]
    on an empty database, [find] maps exactly the keys below [num_records] to
    rows, the record size is registered, and the database is a legal start of
    epoch 1 for any set of loaded rows: latches free, no buffer handed out,
    each array with one stable version of its own at global identifier 0. *)
Theorem caracal_load_starts_epoch_1 `{BuildConfig} {I : Type} `{IndexesLaws I addr}
  (sch : Schema) (table : Z) (c : Config) (Hn : is_key (num_records c)) :
  exists sch' idx e,
    load_all_tables sch table c idx_empty (Env_init RowBufferController.init) = Ok ((sch', idx), e) /\
    get_record_size sch' table = Ok table /\
    (forall k, is_key k -> idx_find idx table k = if decide (k < num_records c) then Some (row_addr k) else None) /\
    loaded loaded_row RowBufferController.init (num_records c) e /\
    (forall W, (forall a, a ∈ W -> is_Some (rows e !! a)) -> epoch_start 1 W e).
Proof.
  destruct (load_loop_table loaded_row RowBufferController.init insert_into_index caracal_insert_eq table (num_records c) Hn)
    as (idx & e & Hrun & Hl & Hidx).
  eexists _, idx, e. split_and!.
  - unfold load_all_tables. unfold mbind, M_bind. by rewrite caracal_load_keys_eq, Hrun.
  - unfold get_record_size, schema_at, set_record_size, Schema in *. by rewrite lookup_insert_eq.
  - done.
  - done.
  - intros W HW. apply (loaded_start_c (num_records c)); [unfold is_key in Hn; lia|done|done].
Qed.

(** ** A concrete run

    Two loaded keys; every transaction of the 1000 epochs updates key 0 and
    reads key 1, one transaction per worker and epoch, so that all workers
    contend for the row of key 0. *)
Module Small.
#[local] Instance config : BuildConfig :=
  {| NDEBUG := false; MAX_SLOTS_OF_PER_CORE_BUFFER := 4; NUM_TXS_IN_ONE_EPOCH := 64 |}.
Definition table : Z := 1024.
Definition find (t k : Z) : option addr :=
  if (t =? table) && (0 <=? k) && (k <? 2) then Some (row_addr k) else None.
Definition rdtscp (e : CEnv) : Z := 0.
Definition rehash (m : list (addr * core_buffer)) : list (addr * core_buffer) := m.
Definition schema : Schema := set_record_size ∅ table 1024.
Definition env : CEnv := add_row loaded_row (add_row loaded_row (Env_init RowBufferController.init)).
Definition tx : OperationSet := mkOperationSet [mkOperation Update 0 0 None; mkOperation Read 1 0 None] [0%nat].
Definition caracal (c : nat) : Caracal := mkCaracal (Z.of_nat c) 0 0 ∅ ∅ None [].
Definition init : State := mkState (replicate (Z.to_nat (NUM_EPOCH * 64)) tx) caracal env.
Definition W : gset addr := {[row_addr 0]}.

Lemma env_loaded : loaded loaded_row RowBufferController.init 2 env.
Proof. apply (loaded_next loaded_row _ 1), (loaded_next loaded_row _ 0), loaded_empty; lia. Qed.

Lemma find_inj_small k1 k2 a : is_key k1 -> is_key k2 -> find table k1 = Some a -> find table k2 = Some a -> k1 = k2.
Proof.
  intros _ _. unfold find. destruct (_ && _ && _) eqn:H1; [|done]. intros [= <-].
  destruct ((table =? table) && (0 <=? k2) && (k2 <? 2)) eqn:H2; [|done].
  unfold row_addr. intros [=]. lia.
Qed.

Lemma tx_runnable_small : runnable find table (fun a => is_Some (rows env !! a)) tx.
Proof.
  split.
  - split_and!.
    + by apply (bool_decide_unpack _).
    + by apply (bool_decide_unpack _).
    + intros i. change (w_set_ tx) with [0%nat]. rewrite list_elem_of_singleton. split.
      * intros ->. by eexists.
      * intros (o & Ho & Hu). destruct i as [|[|i]]; [done| |done]. simpl in Ho. by injection Ho as <-.
    + by repeat constructor.
  - intros op [->|[->|?%not_elem_of_nil]%elem_of_cons]%elem_of_cons; [| |done];
      (split; [by split; vm_compute|]); eexists; (split; [reflexivity|]); vm_compute; by eexists.
Qed.

Lemma small_start : epoch_start 1 W env.
Proof. apply (loaded_start_c 2); [lia|apply env_loaded|]. intros a ->%elem_of_singleton. vm_compute. by eexists. Qed.

Lemma small_init_ok : program_ok find schema table init W.
Proof.
  constructor.
  - by vm_compute.
  - apply small_start.
  - intros x Hx. exists tx. split; [|split; [apply tx_runnable_small|]].
    + apply lookup_replicate. split; [done|]. change NUM_TXS_IN_ONE_EPOCH with 64 in Hx. lia.
    + intros a Ha. apply list_elem_of_singleton in Ha. by apply elem_of_singleton.
  - unfold W. rewrite size_singleton. unfold NUM_REGIONS. lia.
  - intros c _. by apply (loaded_object 2); [apply env_loaded|..].
  - by eexists.
Qed.

Definition round_robin (rounds : nat) : list nat := concat (replicate rounds (seq 0 64)).

Lemma caracal_initialization_phase_witness :
  exists pool' e,
    run_schedule (round_robin 100) (workers find rdtscp table rehash (st_txs init) 0 (fun c => at_epoch 1 (caracal c))) env = Ok (pool', e) /\
    (all_done pool' -> epoch_initialized find table 1 W env e (st_txs init) 0).
Proof.
  destruct (caracal_initialization_phase find rdtscp table rehash 1 W (st_txs init) 0 (fun c => at_epoch 1 (caracal c)) env)
    with (sched := round_robin 100) as (pool' & e & Hrun & Hdone & _).
  - apply small_start.
  - unfold W. rewrite size_singleton. unfold NUM_REGIONS. lia.
  - by unfold word32.
  - done.
  - by vm_compute.
  - done.
  - apply find_inj_small.
  - split; [done|]. split; [by vm_compute|]. intros x Hx%elem_of_epoch_c; [|by vm_compute].
    destruct (pg_txs find schema table init W small_init_ok x) as (t & Ht & Hrun & HW).
    { change NUM_TXS_IN_ONE_EPOCH_IN_ONE_CORE with 1 in Hx. unfold NUM_EPOCH. change NUM_TXS_IN_ONE_EPOCH with 64. lia. }
    exists t. split; [done|]. by eapply runnable_appendable.
  - intros c Hc. destruct (pg_workers find schema table init W small_init_ok c Hc) as (? & ? & ? & ?). by split_and!.
  - exists pool', e. split; [exact Hrun|exact Hdone].
Defined.

Lemma caracal_executes_serially_witness :
  exists pool e1,
    run_schedule (round_robin 100) (workers find rdtscp table rehash (st_txs init) (head_of 1)
       (fun c => at_epoch 1 (st_caracal init c))) (st_env init) = Ok (pool, e1) /\
    (all_done pool -> forall sched', exists pool' e2,
       run_schedule sched' (executors find rdtscp schema table (initialized_txs (st_txs init) (head_of 1) pool)
         (head_of 1) (objects (fun c => at_epoch 1 (st_caracal init c)) pool)) e1 = Ok (pool', e2)).
Proof.
  destruct (caracal_executes_serially find rdtscp schema table rehash init W find_inj_small ltac:(done) small_init_ok
    1 (st_txs init) (st_caracal init) (st_env init) (reaches_first _ _ _ _ _ _) ltac:(vm_compute; discriminate)
    (round_robin 100)) as (pool & e1 & Hrun & Hrest).
  exists pool, e1. split; [exact Hrun|]. intros Hd sched'. destruct (Hrest Hd sched') as (pool' & e2 & Hrun' & _).
  exists pool', e2. exact Hrun'.
Defined.

Lemma small_latches : latches_free (st_env init).
Proof.
  split; [|by apply (ld_lock _ _ _ _ env_loaded)].
  intros a v Hv. destruct (ld_dom _ _ _ _ env_loaded a ltac:(by eexists)) as (k & Hk & ->).
  pose proof (ld_row _ _ _ _ env_loaded k Hk) as Hrow. cbn [st_env init] in Hv. rewrite Hrow in Hv. by injection Hv as <-.
Qed.

Lemma caracal_epochs_terminate_witness :
  exists st, reaches find rdtscp schema table rehash init (NUM_EPOCH + 1) st.
Proof.
  destruct (caracal_epochs_terminate find rdtscp schema table rehash init W find_inj_small ltac:(done) small_init_ok small_latches)
    as [Hall _].
  apply Hall. by vm_compute.
Defined.

Definition small_run_start : EpochState (E := CEnv) (Obj := Caracal) := mkEpochState (st_txs init) (st_caracal init) (st_env init).
Lemma caracal_threads_serializable_witness :
  exists pool' u,
    run_schedule (round_robin 100) (CaracalRun.threads find rdtscp schema table rehash (st_caracal init)) (run_start small_run_start)
      = Ok (pool', u) /\
    (all_done pool' -> exists st,
       epochs_executed (epoch_outcome find table)
         (steps_of (round_robin 100) (CaracalRun.threads find rdtscp schema table rehash (st_caracal init)) (run_start small_run_start))
         small_run_start (returned_ (memory u)) (NUM_EPOCH + 1) st /\
       ep_txs st = txs_ (memory u) /\ ep_env st = database u).
Proof.
  destruct (caracal_threads_serializable find rdtscp schema table rehash small_run_start W find_inj_small ltac:(done) small_init_ok
    (round_robin 100)) as (pool' & u & Hrun & Hdone).
  exists pool', u. split; [exact Hrun|exact Hdone].
Defined.

(** Loading three keys through the Masstree index of [Index]. *)
Section Loading.
Import MasstreeIndexes RefTable.
Definition three : Config := mkConfig Workload_init 3 64 10 false "caracal".
Lemma caracal_load_starts_epoch_1_witness :
  exists sch idx e,
    load_all_tables (I := gmap Z (table_type (V := option addr) (leaf := Z))) ∅ 1024 three idx_empty (Env_init RowBufferController.init)
      = Ok ((sch, idx), e) /\
    idx_find idx 1024 2 = Some (row_addr 2) /\ epoch_start 1 {[row_addr 0; row_addr 2]} e.
Proof.
  destruct (caracal_load_starts_epoch_1 (I := gmap Z (table_type (V := option addr) (leaf := Z))) ∅ 1024 three)
    as (sch & idx & e & Hrun & _ & Hfind & Hl & Hstart); [split; vm_compute; done|].
  exists sch, idx, e. split_and!; [done|by rewrite Hfind by (split; vm_compute; done)|].
  apply Hstart. intros a Ha. rewrite elem_of_union, !elem_of_singleton in Ha. destruct Ha as [-> | ->].
  - rewrite (ld_row _ _ _ _ Hl 0) by (cbn; lia). by eexists.
  - rewrite (ld_row _ _ _ _ Hl 2) by (cbn; lia). by eexists.
Defined.
End Loading.

(** Run round robin, both phases of an epoch finish: the row of key 0 ends with
    the versions of all workers, and every read of key 1 returns the loaded record. *)
Example caracal_epoch_finishes :
  match run_schedule (round_robin 300) (workers find rdtscp table rehash (st_txs init) 0 (fun c => at_epoch 1 (caracal c))) env with
  | Ok (pool, e) =>
      bool_decide (all_done pool) && bool_decide (ids (epoch_history 1 e (row_addr 0)) = seqZ 0 64) &&
      match run_schedule (round_robin 40) (executors find rdtscp schema table (initialized_txs (st_txs init) 0 pool) 0
              (objects (fun c => at_epoch 1 (caracal c)) pool)) e with
      | Ok (pool', _) => bool_decide ((result <$> pool') = replicate 64 (Some [[Some (record_addr 1)]]))
      | Err _ => false
      end
  | Err _ => false
  end = true.
Proof. vm_compute. reflexivity. Qed.
End Small.
