(* ===== verification/CheetahLoad.v ===== *)
(** * CheetahLoad: loading the database of Cheetah

    [protocols/cheetah/ycsb/initializer.hpp]: every key of the table gets a row
    whose master version is a stable version. *)
From S2P Require Import Prelude Schema Index Ycsb Conc RWLock Memory Load ServalRow CheetahRow.

Section Load.
Context `{BuildConfig} {I : Type} `{Indexes I addr}.

Definition insert_into_index (idx : I) (table_id key : Z) (rec : ptr) : M HEnv I :=
  val ← new_row WriteBitmap_init;
  version ← new_version (mkVersion rec STABLE false);
  v ← load_row val;
  store_row val (set_master v (Some version));;
  mret (idx_insert idx table_id key (Some val)).

(** The loop of [load_all_tables] over the keys [key .. num_records - 1]. *)
Fixpoint load_keys (idx : I) (table_id : Z) (key : Z) (n : nat) : M HEnv I :=
  match n with
  | O => mret idx
  | S n' =>
      rec ← new_record;
      idx' ← insert_into_index idx table_id key (Some rec);
      load_keys idx' table_id (key + 1) n'
  end.

(** [get_id<Record>() = sizeof(Record)]. *)
Definition load_all_tables (sch : Schema) (sizeof_Record : Z) (c : Config) (idx : I)
  : M HEnv (Schema * I) :=
  let sch' := set_record_size sch sizeof_Record sizeof_Record in
  idx' ← load_keys idx sizeof_Record 0 (Z.to_nat (num_records c));
  mret (sch', idx').

(** The row built around its first version. *)
Definition loaded_row (p : addr) : WriteBitmap := set_master WriteBitmap_init (Some p).

Lemma cheetah_insert_eq idx table_id key (e : HEnv) :
  (rec ← new_record; insert_into_index idx table_id key (Some rec)) e
  = Ok (idx_insert idx table_id key (Some (brk e + 1)%positive), add_row loaded_row e).
Proof.
  destruct e as [vs rs b st pl us rw lk hd].
  unfold insert_into_index, new_record, new_row, new_version, load_row, store_row, derefM, modifyM,
    lift, mbind, M_bind, getM, mret, M_ret. cbn.
  rewrite lookup_insert_eq. cbn.
  cbv [add_row set_rows set_versions set_brk set_records versions records brk stat_ pool used_ rows lock_ handed_].
  rewrite insert_insert_eq. replace (Pos.succ (Pos.succ b)) with (b + 2)%positive by lia.
  replace (Pos.succ (b + 2)) with (b + 3)%positive by lia.
  replace (Pos.succ b) with (b + 1)%positive by lia. done.
Qed.

Lemma cheetah_load_keys_eq n : forall idx t key e,
  load_keys idx t key n e = load_loop insert_into_index idx t key n e.
Proof.
  induction n as [|n IH]; intros idx t key e; [done|]. cbn [load_keys load_loop].
  unfold mbind, M_bind. destruct (new_record e) as [[r e1]|]; [|done].
  destruct (insert_into_index idx t key (Some r) e1) as [[i e2]|]; [|done]. apply IH.
Qed.
End Load.
